(* ===== verification/_CoqProject ===== *)
-Q . S2P
Prelude.v
Utils.v
Core.v
Result.v
Account.v
MultiSign.v
Beacon.v
EthChain.v
Client.v
TxPool.v
CrossShard.v
Exec.v
Pbft.v
Encoding.v
Node.v
Rebuild.v
Trie.v
MerkleProof.v
NodeDB.v
NodeGC.v
NodeSafe.v
NodeStore.v
Committer.v
Iterator.v
LeafProof.v
Heap.v
MultiIterator.v
SecureTrie.v
Sync.v
StateRoot.v
Reconfig.v
Block.v
StackTrie.v
StackCodec.v
RangeProof.v
Database.v
BlockChain.v
Committee.v
Worker.v
ShardNode.v
MessageHub.v
Startup.v
WorkLoop.v
Controller.v
