(* ===== verification/Prelude.v ===== *)
(** * LessChain: a verification library

    LessChain (package go-w3chain) is a sharded blockchain that separates
    storage from execution.  A _shard_ keeps accounts and blocks.  A
    _committee_ keeps no state: its leader packs a block from its transaction
    pool, asks the shard for the accounts the block touches, checks the Merkle
    proofs that come with them, executes the block on these accounts, rebuilds
    the state root from the proof nodes, lets the committee agree by PBFT, and
    sends the block back to the shard, which executes it again and compares
    the roots.  Signed _time beacons_ of the blocks go to a _beacon chain_ on
    Ethereum.  _Clients_ inject transactions, learn from the beacons which
    blocks are final, and drive cross-shard transactions: first half at the
    source, second half at the destination, rollback after a deadline.  From
    time to time nodes draw random values and are redistributed over the
    committees.  All messages pass a _message hub_.

    ** Conventions

    A definition has the name of the Go function it translates, where that is
    free; PROJECT.json maps each to its lines.  A Go call is a value of [go A]
    (below): it returns, ends the process ([log.Error] exits), panics, or
    blocks.  State is passed explicitly; a mutex makes the code it guards one
    step.  Integers are [Z] with the wrap-around of their width written out
    ([u64], [u32], [u8]).  Structs are records, Go maps [gmap]; what depends
    on the order of a [range] over a map takes an instance of [MapIter], and
    its theorems hold for all of them.  Where the code shares objects through
    pointers (client transactions, pools, decoded trie nodes, the senders of
    votes) the model has addresses and a memory.  Code outside the repository
    is a class with its documented laws: [Crypto] (signatures), [RLP],
    [StateDB], [StateStore] and [TrieState] (go-ethereum's state database),
    [EthLib] and [EthNode] (its ABI and signing code, an Ethereum node),
    [NodeStore] (what [Trie] needs of its database), [KeyValueStore] and
    [FastCache] (the disk and the clean cache below it), [SortSlice], [Gob] (encoding/gob),
    [RLPSlices] (what the codec returns are parts of its input), [FieldCodec]
    (gob on a stack trie's fields), [Presents] (what a node iterator shows),
    [Components] (what the hub calls), [PrQue] (the priority queue of a trie
    download); or a section variable: the hash, the
    codec of accounts, [net.Dial], the deployed contract.  No hash is assumed
    injective.  Each file with such a class ends with an instance on which the
    theorems are evaluated (modules [Demo...] and lemmas [..._witness]).

    ** Files, in order, with the sources under src/

    - [Prelude]: outcomes, integers, loops, maps and the shared tactics.
    - [Utils] (utils/utils.go): shard assignment of addresses, big-endian
      integers.  [Core] (core/transaction.go, timebeacon.go, msg.go,
      result/txStatus.go): the data all components share.
    - [Result] (result/result.go): the recorder of statuses and latencies;
      the exact condition under which its report panics.
    - [Account] (node/account.go), [MultiSign] (committee/multisign.go,
      beaconChain/shardContract.go): signatures, VRF, and the collection of
      signatures on a beacon: soundness, completeness, and that one account
      answering often enough suffices.
    - [Beacon] (beaconChain/): two processes that see the same events in
      different batches emit the same beacon blocks, complete and in order;
      the delay of pushed blocks.  [EthChain] (eth_chain/, cfg/account.go)
      carries out its calls and produces its events: nonces never repeat, a
      submission ends, the event channel has exactly the confirmations.
    - [Client] (client/), [TxPool] (committee/txpool.go): functional
      specifications of all passes of a client and of block selection.
      [CrossShard] composes them: a step relation for a client, and the two
      sides of atomicity, that a packed second half is never rolled back and
      an overdue one is never packed.
    - [Exec] (committee/worker.go, shard/shard.go): the two executions of a
      block agree; conservation of value; a rollback undoes a first half.
    - [Pbft] (pbft/): the handlers; [step], a network of nodes between two
      reconfigurations, with the quorum of decisions as an invariant;
      [era_step], the same over reconfigurations (Reset of the new main node,
      late packets, the exit branch of RunPbft), with the lock discipline of
      a round and the two ways in which late replies and leftover tokens
      break it.
    - The state trie, [Encoding], [Node] (trie/encoding.go, node.go,
      node_enc.go): key encodings and wire form with their round trips;
      [Rebuild] (committee/worker.go: rebuildTrie); [Trie] (trie/trie.go):
      the operations refine a finite map, keep a canonical form, which is
      unique, so the root does not depend on history, and they end on every
      input; [MerkleProof] (trie/hasher.go, proof.go, committee/proof.go):
      what the committee accepts is what the trie holds; [StateRoot]: the
      root computed from proofs is the root of the updated trie.
    - The database below the trie, [NodeDB] (trie/database.go): the cache of
      dirty nodes with reference counts and flush list.  [NodeGC] has the
      flush list as list segments and the invariant of the reference graph,
      [NodeSafe] that every operation returns and keeps the invariant,
      [NodeStore] that nothing referenced is lost and that what is committed
      survives a restart; it makes the database an instance of the interface
      [Trie] is proved against.  [Committer] (trie/committer.go, hasher.go,
      trie.go: Commit): cached hashes are the Merkle hashes, and a trie that
      is committed, flushed and opened again holds the same entries, with or
      without a callback for leaves.
    - [Iterator] (trie/iterator.go): the interface [NodeIterator], the
      key-value iterator over it, and the node iterator of a trie, which
      refines the pre-order walk of the loaded trie; iterating yields every
      entry once and in order.  [LeafProof]: the proof read off the
      iterator's stack is the one [Prove] builds.  [MultiIterator]: the
      difference and the union of iterators, over the interface, on the heap
      of the Go library ([Heap]).  [SecureTrie]
      (trie/secure_trie.go, trie.go: TryGetNode): hashed keys, nodes by path.
      [Sync] (trie/sync.go): the download of a trie; requests are counted
      objects in a heap, and a database never has a node without those below.
    - [Reconfig] (node/reconfig.go): all nodes compute the same table of
      committees, whatever the order of their maps and of the unstable sort.
    - [Block] (core/block.go, hashing.go), [StackTrie] (trie/stacktrie.go):
      the stack trie, which hashes finished subtrees away, has the root of
      the ordinary trie; hence what the transaction root of a block is.
      [StackCodec]: its binary form is read back as it was written.
      [RangeProof] (trie/proof.go: VerifyRangeProof): partly loaded tries,
      what they show at a key, and that an accepted range is what the trie
      has there.
    - [Database] (core/schema.go, database.go), [BlockChain] (core/genesis.go,
      blockchain.go, blockchain_reader.go): keys never collide; a committed
      genesis opens as the chain's first block.
    - [Committee] (committee/committee.go): pools across reconfigurations,
      receipts to clients.  [Worker] (committee/worker.go: commit): the
      block a leader builds on an honest answer, end to end on the
      committee's side.  [ShardNode] (shard/): the shard's handlers, and the
      composition of both sides: what the shard sends is accepted, and the
      block built on it passes the shard's comparison of roots.
    - [MessageHub] (messageHub/, core/messageHub.go): every sender, the
      framing, the dispatch of received messages, the connection table; what
      is written is what the handlers get, and the hub implements the network
      that [Pbft] assumes.
    - [Startup] (cfg/node.go, data/dataprocess.go, node/booter.go): address
      tables, workload, genesis.  [WorkLoop] (committee/worker.go:
      newWorkLoop, close): the leader's goroutine, the timer and the channels
      as a transition system; blocks one at a time, none after a close, and a
      close returns.  [Controller] (controller/utils.go, node/reconfig.go):
      the loops that wait for the end, the transfer of data.

    ** Bounds and fuel

    Recursions that are not structural carry fuel.  Trie operations get
    twice the length of the key plus two calls and [Trie.trie_ops_end] shows
    that this never runs out; rebuilding and verifying use 65 levels, one
    more than the nibbles of a 32-byte key; decoding uses the length of its
    input, [handleConnection] that of its stream ([receive_loop_fuel]).
    [dereference] and [commit] of the database recurse below a node: their
    fuel [F] bounds the height of the stored tries, [Cap] takes the number of
    dirty nodes, and [NodeStore.db_ops_succeed] shows that both are enough.
    [Sync.commit] removes a pending request per call and gets their number;
    [Sync.sync_never_gaps] states that this is enough, and [iterate_all] that
    some fuel is.  A range proof needs as much as its edges have nibbles
    ([RangeProof.range_proof_fuel]).
    [mustDial] retries for ever in the source, and its fuel is an argument.

    ** Not modelled

    Logging, command line and configuration files (wiring and I/O); opening
    connections to an Ethereum node and the files with the contract; the
    journal file of the trie database's clean cache; goroutine
    scheduling inside a handler, where locks make the handler one step (the
    worker's loop, which waits on channels, is interleaved); wall-clock time,
    which is an argument.  Package src/trie is the program's copy of
    go-ethereum's trie; the committee and the shard call one or the other,
    and the model is that of the copy. *)

From stdpp Require Export base numbers list gmap strings sorting.

(** ** The outcome of a Go call

    [log.Error] (src/log/root.go) writes its message and calls [os.Exit(1)],
    so a branch that logs an error ends the process.  A run-time panic
    (index out of range, nil dereference, division by zero, unlock of an
    unlocked mutex) ends it too, and an operation on a full or empty channel
    or on a taken lock stops the goroutine.  The three are kept apart. *)
Inductive fault :=
  | LogError (msg : string)
  | GoPanic (msg : string)
  | Blocked (what : string).

Inductive go (A : Type) :=
  | Ret (a : A)
  | Halt (f : fault).
Arguments Ret {A} a.
Arguments Halt {A} f.

#[global] Instance go_ret : MRet go := @Ret.
#[global] Instance go_bind : MBind go := λ A B f m,
  match m with Ret a => f a | Halt e => Halt e end.
#[global] Instance go_fmap : FMap go := λ A B f m,
  match m with Ret a => Ret (f a) | Halt e => Halt e end.
#[global] Instance fault_eq_dec : EqDecision fault.
Proof. solve_decision. Defined.
#[global] Instance go_eq_dec {A} `{EqDecision A} : EqDecision (go A).
Proof. solve_decision. Defined.

(** [returns m]: the call comes back normally. *)
Definition returns {A} (m : go A) : Prop := ∃ a, m = Ret a.

Section go_laws.
Context {A B C : Type}.

Lemma go_bind_Ret (m : go A) (f : A → go B) b :
  m ≫= f = Ret b ↔ ∃ a, m = Ret a ∧ f a = Ret b.
Proof.
  destruct m as [a|e]; simpl; split.
  - eauto.
  - intros (a' & [= <-] & ?). done.
  - done.
  - intros (a' & [=] & _).
Qed.

Lemma go_fmap_Ret (m : go A) (f : A → B) b :
  f <$> m = Ret b ↔ ∃ a, m = Ret a ∧ b = f a.
Proof.
  destruct m as [a|e]; simpl; split.
  - intros [= <-]. eauto.
  - intros (a' & [= <-] & ->). done.
  - done.
  - intros (a' & [=] & _).
Qed.

Lemma go_bind_assoc (m : go A) (f : A → go B) (g : B → go C) :
  (m ≫= f) ≫= g = m ≫= λ a, f a ≫= g.
Proof. by destruct m. Qed.

Lemma returns_Ret (a : A) : returns (Ret a).
Proof. by exists a. Qed.

Lemma returns_bind (m : go A) (f : A → go B) :
  returns m → (∀ a, m = Ret a → returns (f a)) → returns (m ≫= f).
Proof. intros [a ->] Hf. apply Hf. done. Qed.
End go_laws.

(** A [for _, x := range xs] loop whose body may end the process. *)
Fixpoint go_fold {A B} (f : A → B → go A) (a : A) (l : list B) : go A :=
  match l with
  | [] => Ret a
  | b :: l => f a b ≫= λ a', go_fold f a' l
  end.

Section go_fold.
Context {A B : Type} (f : A → B → go A).

Lemma go_fold_app a l k :
  go_fold f a (l ++ k) = go_fold f a l ≫= λ a', go_fold f a' k.
Proof.
  revert a. induction l as [|b l IH]; intros a; simpl; [done|].
  rewrite go_bind_assoc. by destruct (f a b); simpl.
Qed.

(** Loop invariant of a loop that runs to its end. *)
Lemma go_fold_inv (P : A → Prop) a l a' :
  P a →
  (∀ x b y, b ∈ l → P x → f x b = Ret y → P y) →
  go_fold f a l = Ret a' → P a'.
Proof.
  revert a. induction l as [|b l IH]; intros a Ha Hstep; simpl.
  - by intros [= <-].
  - intros (a1 & Hf & Hl)%go_bind_Ret.
    eapply IH; [|intros; eapply Hstep; [by right|..]; done|done].
    eapply Hstep; [by left|..]; done.
Qed.

(** The loop reaches its end when every iteration does. *)
Lemma go_fold_returns (P : A → Prop) a l :
  P a →
  (∀ x b, b ∈ l → P x → ∃ y, f x b = Ret y ∧ P y) →
  ∃ a', go_fold f a l = Ret a' ∧ P a'.
Proof.
  revert a. induction l as [|b l IH]; intros a Ha Hstep; simpl; [by eauto|].
  destruct (Hstep a b) as (y & -> & Hy); [by left|done|]. simpl.
  apply IH; [done|]. intros x c Hc Hx. apply Hstep; [by right|done].
Qed.

Lemma go_fold_ext (g : A → B → go A) a l :
  (∀ x b, b ∈ l → f x b = g x b) → go_fold f a l = go_fold g a l.
Proof.
  revert a. induction l as [|b l IH]; intros a Hfg; simpl; [done|].
  rewrite Hfg by by left. destruct (g a b); simpl; [|done]. apply IH. intros x c Hc. apply Hfg. by right.
Qed.

(** A loop whose body never aborts is an ordinary fold. *)
Lemma go_fold_pure (g : A → B → A) a l :
  (∀ x b, b ∈ l → f x b = Ret (g x b)) →
  go_fold f a l = Ret (foldl g a l).
Proof.
  revert a. induction l as [|b l IH]; intros a Hf; simpl; [done|].
  rewrite Hf by by left. simpl. apply IH. intros x c Hc. apply Hf. by right.
Qed.
End go_fold.

Lemma go_fold_fmap {A B C} (f : A → C → go A) (h : B → C) a l :
  go_fold f a (h <$> l) = go_fold (λ a b, f a (h b)) a l.
Proof. revert a. induction l as [|b l IH]; intros a; simpl; [done|]. by destruct (f a (h b)); simpl. Qed.

(** ** Machine integers

    [uint8], [uint32] and [uint64] are [Z] in range with the wrap-around
    written out; [int] is the 64-bit signed type of the platforms the
    program is built for. *)
Definition u8 (z : Z) : Z := z `mod` 2^8.
Definition u32 (z : Z) : Z := z `mod` 2^32.
Definition u64 (z : Z) : Z := z `mod` 2^64.
Definition i64 (z : Z) : Z := (z + 2^63) `mod` 2^64 - 2^63.

Definition in_u8 (z : Z) : Prop := (0 ≤ z < 2^8)%Z.
Definition in_u32 (z : Z) : Prop := (0 ≤ z < 2^32)%Z.
Definition in_u64 (z : Z) : Prop := (0 ≤ z < 2^64)%Z.
Definition in_i64 (z : Z) : Prop := (-2^63 ≤ z < 2^63)%Z.

Section ints.
Local Open Scope Z_scope.

Lemma u64_range z : in_u64 (u64 z).
Proof. apply Z.mod_pos_bound. lia. Qed.
Lemma u32_range z : in_u32 (u32 z).
Proof. apply Z.mod_pos_bound. lia. Qed.
Lemma u8_range z : in_u8 (u8 z).
Proof. apply Z.mod_pos_bound. lia. Qed.
Lemma u64_small z : in_u64 z → u64 z = z.
Proof. apply Z.mod_small. Qed.
Lemma u32_small z : in_u32 z → u32 z = z.
Proof. apply Z.mod_small. Qed.
Lemma u8_small z : in_u8 z → u8 z = z.
Proof. apply Z.mod_small. Qed.
Lemma i64_small z : in_i64 z → i64 z = z.
Proof. unfold in_i64, i64. intros. rewrite Z.mod_small; lia. Qed.

(** A small negative number wraps to the top of the range. *)
Lemma u64_neg z : -2^64 ≤ z < 0 → u64 z = z + 2^64.
Proof. intros. unfold u64. rewrite <-(Z.mod_add z 1), Z.mod_small by lia. lia. Qed.

(** Wrapping is idempotent and commutes with the ring operations. *)
Lemma u64_idem z : u64 (u64 z) = u64 z.
Proof. apply Zmod_mod. Qed.
Lemma u64_add_l x y : u64 (u64 x + y) = u64 (x + y).
Proof. apply Zplus_mod_idemp_l. Qed.
Lemma u64_add_r x y : u64 (x + u64 y) = u64 (x + y).
Proof. apply Zplus_mod_idemp_r. Qed.
Lemma u64_sub_l x y : u64 (u64 x - y) = u64 (x - y).
Proof. apply Zminus_mod_idemp_l. Qed.
End ints.

(** ** Slices and maps

    [len] is Go's [len]; [go_index] reads a slice and panics out of range. *)
Definition len {A} (l : list A) : Z := Z.of_nat (length l).

Definition go_index {A} (l : list A) (i : Z) : go A :=
  if bool_decide (0 ≤ i)%Z then
    match l !! Z.to_nat i with
    | Some x => Ret x
    | None => Halt (GoPanic "index out of range")
    end
  else Halt (GoPanic "index out of range").

(** [s[i] = x] *)
Definition go_store {A} (l : list A) (i : Z) (x : A) : go (list A) :=
  if bool_decide (0 ≤ i < len l)%Z then Ret (<[Z.to_nat i := x]> l)
  else Halt (GoPanic "index out of range").

(** A pointer or map entry that must not be nil. *)
Definition deref {A} (o : option A) : go A :=
  match o with
  | Some x => Ret x
  | None => Halt (GoPanic "nil pointer dereference")
  end.

(** A call that reports an error and whose caller logs it: [if err != nil
    { log.Error(msg) }]. *)
Definition or_exit {A} (msg : string) (o : option A) : go A :=
  match o with
  | Some x => Ret x
  | None => Halt (LogError msg)
  end.

Section slices.
Context {A : Type}.
Local Open Scope Z_scope.
Implicit Types l : list A.

Lemma len_nonneg l : 0 ≤ len l.
Proof. unfold len. lia. Qed.
Lemma len_app l k : len (l ++ k) = len l + len k.
Proof. unfold len. rewrite length_app. lia. Qed.
Lemma len_cons x l : len (x :: l) = 1 + len l.
Proof. unfold len. simpl. lia. Qed.

#[global] Instance len_Permutation : Proper ((≡ₚ) ==> eq) (@len A).
Proof. intros l k Hlk. unfold len. by rewrite Hlk. Qed.

Lemma go_index_Ret l i x :
  go_index l i = Ret x ↔ 0 ≤ i ∧ l !! Z.to_nat i = Some x.
Proof.
  unfold go_index. case_bool_decide; [|naive_solver].
  destruct (l !! Z.to_nat i); naive_solver.
Qed.

Lemma go_index_returns l i : returns (go_index l i) ↔ 0 ≤ i < len l.
Proof.
  unfold returns, len. setoid_rewrite go_index_Ret. split.
  - intros (x & ? & ?%lookup_lt_Some). lia.
  - intros [? ?]. destruct (lookup_lt_is_Some_2 l (Z.to_nat i)); [lia|eauto].
Qed.

Lemma go_store_Ret l i x k :
  go_store l i x = Ret k ↔ 0 ≤ i < len l ∧ k = <[Z.to_nat i := x]> l.
Proof. unfold go_store. case_bool_decide; naive_solver. Qed.

Lemma go_store_ok l i x : 0 ≤ i < len l → go_store l i x = Ret (<[Z.to_nat i := x]> l).
Proof. intros. by apply go_store_Ret. Qed.

Lemma go_index_ok l i x : 0 ≤ i → l !! Z.to_nat i = Some x → go_index l i = Ret x.
Proof. intros. by apply go_index_Ret. Qed.

Lemma deref_Ret (o : option A) x : deref o = Ret x ↔ o = Some x.
Proof. destruct o; naive_solver. Qed.

Lemma or_exit_Ret msg (o : option A) x : or_exit msg o = Ret x ↔ o = Some x.
Proof. destruct o; naive_solver. Qed.
End slices.

(** Filters that keep nothing or everything. *)
Lemma filter_none {A} (P : A → Prop) `{∀ x, Decision (P x)} (l : list A) :
  (∀ x, x ∈ l → ¬ P x) → filter P l = [].
Proof.
  induction l as [|x l IH]; intros Hl; [done|].
  rewrite filter_cons_False by (apply Hl; by left). apply IH. intros y Hy. apply Hl. by right.
Qed.
Lemma filter_all {A} (P : A → Prop) `{∀ x, Decision (P x)} (l : list A) :
  (∀ x, x ∈ l → P x) → filter P l = l.
Proof.
  induction l as [|x l IH]; intros Hl; [done|].
  rewrite filter_cons_True by (apply Hl; by left). f_equal. apply IH. intros y Hy. apply Hl. by right.
Qed.

Lemma filter_ext_in {A} (P Q : A → Prop) `{∀ x, Decision (P x)} `{∀ x, Decision (Q x)} (l : list A) :
  (∀ x, x ∈ l → P x ↔ Q x) → filter P l = filter Q l.
Proof.
  induction l as [|x l IH]; intros Hl; [done|]. rewrite !filter_cons.
  assert (P x ↔ Q x) as Hx by (apply Hl; by left).
  rewrite IH by (intros y Hy; apply Hl; by right). do 2 case_decide; tauto || done.
Qed.

Lemma elem_of_concat_map {A B} (f : A → list B) (l : list A) x :
  x ∈ concat (map f l) ↔ ∃ c, c ∈ l ∧ x ∈ f c.
Proof.
  rewrite list_elem_of_In, in_concat. setoid_rewrite in_map_iff. setoid_rewrite <-list_elem_of_In. naive_solver.
Qed.

(** Distribution into buckets: the loop
    [for _, x := range l { c[i(x)] = append(c[i(x)], f(x)) }] appends to each
    bucket, in order, what belongs there. *)
Definition bucket_step {A B} (i : A → Z) (f : A → B) (c : list (list B)) (x : A) : go (list (list B)) :=
  old ← go_index c (i x); go_store c (i x) (old ++ [f x]).

Lemma bucket_loop {A B} (i : A → Z) (f : A → B) c l :
  Forall (λ x, 0 ≤ i x < len c)%Z l →
  ∃ c', go_fold (bucket_step i f) c l = Ret c' ∧ length c' = length c ∧
    ∀ j, c' !! j = (λ old, old ++ (f <$> filter (λ x, Z.to_nat (i x) = j) l)) <$> c !! j.
Proof.
  revert c. induction l as [|x l IH]; intros c HF.
  - exists c. split_and!; [done..|]. intros j. destruct (c !! j); simpl; [by rewrite app_nil_r|done].
  - apply Forall_cons in HF as [Hx HF]. simpl.
    destruct (proj2 (go_index_returns c (i x))) as [old Hold]; [done|].
    assert (bucket_step i f c x = Ret (<[Z.to_nat (i x) := old ++ [f x]]> c)) as ->
      by (unfold bucket_step; rewrite Hold; simpl; by rewrite go_store_ok).
    simpl. apply go_index_Ret in Hold as [_ Hold].
    assert (∀ y, len (<[Z.to_nat (i x) := y]> c) = len c) as Hl by (intros; unfold len; by rewrite length_insert).
    destruct (IH (<[Z.to_nat (i x) := old ++ [f x]]> c)) as (c' & -> & Hlen & Hc'); [by rewrite Hl|].
    exists c'. split_and!; [done|by rewrite Hlen, length_insert|]. intros j. rewrite Hc', filter_cons.
    destruct (decide (Z.to_nat (i x) = j)) as [<-|Hne].
    + rewrite list_lookup_insert_eq by (by eapply lookup_lt_Some). rewrite Hold; simpl. by rewrite <-app_assoc.
    + by rewrite list_lookup_insert_ne.
Qed.

(** Byte strings.  Hashes and addresses are byte strings too. *)
Abbreviation bytes := (list Z).

(** [bytes.Compare(a, b) < 0] *)
Fixpoint bytes_less (a b : bytes) : bool :=
  match a, b with
  | _, [] => false
  | [], _ :: _ => true
  | x :: a, y :: b => bool_decide (x < y)%Z || (bool_decide (x = y) && bytes_less a b)
  end.

Section bytes_less.
Implicit Types a b c p q : bytes.

Lemma bytes_less_asym a b : bytes_less a b = true → bytes_less b a = false.
Proof.
  revert b. induction a as [|x a IH]; intros [|y b]; simpl; try done.
  repeat case_bool_decide; simpl; try (done || lia). apply IH.
Qed.
Lemma bytes_le_trans a b c : bytes_less b a = false → bytes_less c b = false → bytes_less c a = false.
Proof.
  revert b c. induction a as [|x a IH]; intros [|y b] [|z c]; simpl; try done.
  repeat case_bool_decide; simpl; try (done || lia). apply IH.
Qed.
Lemma bytes_less_total a b : bytes_less a b = false → bytes_less b a = false → a = b.
Proof.
  revert b. induction a as [|x a IH]; intros [|y b]; simpl; try done.
  repeat case_bool_decide; simpl; try (done || lia). intros. f_equal; auto.
Qed.
Lemma bytes_less_irrefl a : bytes_less a a = false.
Proof. destruct (bytes_less a a) eqn:E; [|done]. by rewrite (bytes_less_asym a a E) in E. Qed.
Lemma bytes_less_le_trans a b c : bytes_less a b = true → bytes_less c b = false → bytes_less a c = true.
Proof.
  intros Hab Hbc. apply not_false_iff_true. intros Hca. by rewrite (bytes_le_trans b c a) in Hab.
Qed.
Lemma bytes_le_less_trans a b c : bytes_less b a = false → bytes_less b c = true → bytes_less a c = true.
Proof.
  intros Hab Hbc. apply not_false_iff_true. intros Hca. by rewrite (bytes_le_trans c a b) in Hbc.
Qed.
Lemma bytes_less_trans a b c : bytes_less a b = true → bytes_less b c = true → bytes_less a c = true.
Proof. intros Hab Hbc. apply (bytes_less_le_trans a b c Hab), bytes_less_asym, Hbc. Qed.

Lemma bytes_less_app p a b : bytes_less (p ++ a) (p ++ b) = bytes_less a b.
Proof.
  induction p as [|x p IH]; simpl; [done|]. rewrite IH, (bool_decide_eq_false_2 (x < x)%Z), bool_decide_eq_true_2 by (done || lia). done.
Qed.
Lemma bytes_less_prefix p a : bytes_less (p ++ a) p = false.
Proof. rewrite <-(app_nil_r p) at 2. rewrite bytes_less_app. by destruct a. Qed.
Lemma bytes_less_longer p a : a ≠ [] → bytes_less p (p ++ a) = true.
Proof. intros Ha. rewrite <-(app_nil_r p) at 1. rewrite bytes_less_app. by destruct a. Qed.
Lemma bytes_less_branch p x y a b : (x < y)%Z → bytes_less (p ++ x :: a) (p ++ y :: b) = true.
Proof. intros Hxy. rewrite bytes_less_app. simpl. by rewrite bool_decide_eq_true_2. Qed.

(** What is before [q] and not a prefix of it stays before it. *)
Lemma bytes_less_extend p q a : bytes_less p q = true → ¬ p `prefix_of` q → bytes_less (p ++ a) q = true.
Proof.
  revert q. induction p as [|x p IH]; intros [|y q] Hl Hp; try done; [by destruct Hp; exists (y :: q)|].
  simpl in *. apply orb_true_iff in Hl as [->|[Hxy Hl]%andb_true_iff]; [done|]. apply bool_decide_eq_true in Hxy as ->.
  rewrite IH; [by rewrite (bool_decide_eq_true_2 (y = y)), orb_true_r|done|]. contradict Hp. by apply prefix_cons.
Qed.
(** [bytes.Compare] *)
Definition bytes_compare a b : Z := if bytes_less a b then (-1)%Z else if bytes_less b a then 1%Z else 0%Z.
Lemma bytes_compare_0 a b : bytes_compare a b = 0%Z ↔ a = b.
Proof.
  unfold bytes_compare. split; [|intros ->; by rewrite bytes_less_irrefl].
  destruct (bytes_less a b) eqn:E1; [done|]. destruct (bytes_less b a) eqn:E2; [done|]. intros _. by apply bytes_less_total.
Qed.
End bytes_less.

(** ** Iteration over a Go map

    The order in which [range m] visits the entries of a map is not
    specified, and may change from one loop to the next.  A definition that
    ranges over a map takes an instance of this class, and its theorems hold
    for every instance, hence for every order. *)
Class MapIter := {
  map_iter : ∀ {K} `{Countable K} {A : Type}, gmap K A → list (K * A);
  map_iter_perm : ∀ {K} `{Countable K} {A : Type} (m : gmap K A),
    map_iter m ≡ₚ map_to_list m
}.

(** One legal order, used where a definition is evaluated. *)
Definition canonical_iter : MapIter :=
  {| map_iter := λ K _ _ A m, map_to_list m;
     map_iter_perm := λ K _ _ A m, reflexivity _ |}.

Section map_iter.
Context `{MI : MapIter} `{Countable K} {A : Type}.
Implicit Types m : gmap K A.

Lemma elem_of_map_iter m k v : (k, v) ∈ map_iter m ↔ m !! k = Some v.
Proof. rewrite map_iter_perm. apply elem_of_map_to_list. Qed.

Lemma NoDup_fst_map_iter m : NoDup (map_iter m).*1.
Proof. rewrite map_iter_perm. apply NoDup_fst_map_to_list. Qed.

Lemma NoDup_map_iter m : NoDup (map_iter m).
Proof. rewrite map_iter_perm. apply NoDup_map_to_list. Qed.

Lemma elem_of_map_iter_fst m k : k ∈ (map_iter m).*1 ↔ is_Some (m !! k).
Proof.
  rewrite list_elem_of_fmap. split.
  - intros ([k' v] & -> & Hin%elem_of_map_iter). simpl. eauto.
  - intros [v Hv]. exists (k, v). by rewrite elem_of_map_iter.
Qed.
End map_iter.

(** ** Sums *)
Definition sumZ {A} (f : A → Z) (l : list A) : Z := foldr (λ x acc, f x + acc)%Z 0%Z l.

Section sumZ.
Context {A : Type}.
Local Open Scope Z_scope.
Implicit Types (f g : A → Z) (l : list A).

Lemma sumZ_app f l k : sumZ f (l ++ k) = sumZ f l + sumZ f k.
Proof. induction l; simpl; lia. Qed.

Lemma sumZ_ext f g l : (∀ x, x ∈ l → f x = g x) → sumZ f l = sumZ g l.
Proof.
  induction l as [|x l IH]; simpl; intros Hfg; [done|].
  rewrite Hfg by by left. rewrite IH; [done|]. intros y Hy. apply Hfg. by right.
Qed.

Lemma sumZ_add f g l : sumZ (λ x, f x + g x) l = sumZ f l + sumZ g l.
Proof. induction l; simpl; lia. Qed.

Lemma sumZ_const0 l : sumZ (λ _, 0) l = 0.
Proof. induction l; simpl; lia. Qed.

Lemma sumZ_nonneg f l : (∀ x, x ∈ l → 0 ≤ f x) → 0 ≤ sumZ f l.
Proof.
  induction l as [|x l IH]; simpl; intros Hf; [done|].
  assert (0 ≤ f x) by (apply Hf; by left).
  assert (0 ≤ sumZ f l) by (apply IH; intros y Hy; apply Hf; by right). lia.
Qed.

#[global] Instance sumZ_Permutation f : Proper ((≡ₚ) ==> eq) (sumZ f).
Proof. induction 1; simpl; lia. Qed.

(** A sum that is non-zero at one element of a duplicate-free list. *)
Lemma sumZ_single `{EqDecision A} l a v :
  NoDup l → a ∈ l → sumZ (λ x, if decide (x = a) then v else 0) l = v.
Proof.
  induction 1 as [|x l Hx Hl IH]; [by intros ?%elem_of_nil|].
  intros [->|Hin]%elem_of_cons; simpl.
  - rewrite decide_True by done.
    rewrite (sumZ_ext _ (λ _, 0)), sumZ_const0; [lia|].
    intros y Hy. rewrite decide_False; [done|]. by intros ->.
  - rewrite decide_False by (by intros ->). rewrite IH by done. lia.
Qed.
End sumZ.

(** ** Automation *)
Create HintDb golib.
Create Rewrite HintDb golib_rw.
#[export] Hint Resolve u64_range u32_range u8_range len_nonneg returns_Ret : golib.
#[export] Hint Rewrite @len_app @len_cons u64_idem u64_add_l u64_add_r u64_sub_l : golib_rw.

(** [go_inv]: decompose every hypothesis that says a monadic expression
    returned. *)
Ltac go_inv_step :=
  match goal with
  | H : _ ≫= _ = Ret _ |- _ => apply go_bind_Ret in H as (? & ? & H)
  | H : _ <$> _ = Ret _ |- _ => apply go_fmap_Ret in H as (? & ? & ?)
  | H : go_index _ _ = Ret _ |- _ => apply go_index_Ret in H as (? & ?)
  | H : go_store _ _ _ = Ret _ |- _ => apply go_store_Ret in H as (? & ?)
  | H : deref _ = Ret _ |- _ => apply deref_Ret in H
  | H : or_exit _ _ = Ret _ |- _ => apply or_exit_Ret in H
  | H : Ret _ = Ret _ |- _ => injection H as H
  | H : mret _ = Ret _ |- _ => injection H as H
  | H : Halt _ = Ret _ |- _ => discriminate H
  end.
Ltac go_inv := repeat (go_inv_step; simplify_eq/=).

(** [split_guard]: split on the boolean test of the source that the goal or a
    hypothesis is stuck on. *)
Ltac split_guard :=
  match goal with
  | |- context [bool_decide ?P] => destruct (bool_decide_reflect P)
  | H : context [bool_decide ?P] |- _ => destruct (bool_decide_reflect P)
  | |- context [if ?b then _ else _] => destruct b eqn:?
  | H : context [if ?b then _ else _] |- _ => destruct b eqn:?
  end.

(** [by_compute]: discharge a closed decidable proposition by evaluation. *)
Ltac by_compute := apply (bool_decide_unpack _); vm_compute; exact I.
