(* ===== verification/Utils.v ===== *)
(** * The helpers of package [utils] (src/utils/utils.go) and the big-endian
    integer encodings of [encoding/binary] that several components use. *)
From S2P Require Import Prelude.
From Stdlib Require Import Ascii.
Local Open Scope Z_scope.

Definition Min (a b : Z) : Z := if bool_decide (a < b) then a else b.
Definition Max (a b : Z) : Z := if bool_decide (a > b) then a else b.

Lemma Min_spec a b : Min a b = Z.min a b.
Proof. unfold Min. case_bool_decide; lia. Qed.
Lemma Max_spec a b : Max a b = Z.max a b.
Proof. unfold Max. case_bool_decide; lia. Qed.

Definition IsComLeader (nodeId : Z) : bool := bool_decide (nodeId = 0).
Definition IsShardLeader (nodeId : Z) : bool := bool_decide (nodeId = 0).

(** ** Big-endian integers: [binary.BigEndian.PutUint32], [PutUint64] and
    [binary.Write] of a fixed-size integer. *)
Fixpoint be_bytes (n : nat) (z : Z) : bytes :=
  match n with
  | O => []
  | S n => be_bytes n (Z.shiftr z 8) ++ [Z.land z 255]
  end.

Definition be_value (bs : bytes) : Z := foldl (λ acc b, Z.lor (Z.shiftl acc 8) b) 0 bs.

Lemma length_be_bytes n z : length (be_bytes n z) = n.
Proof. revert z. induction n as [|n IH]; intros z; simpl; [done|]. rewrite length_app, IH. simpl. lia. Qed.

Lemma be_bytes_in_u8 n z : Forall in_u8 (be_bytes n z).
Proof.
  revert z. induction n as [|n IH]; intros z; simpl; [constructor|].
  apply Forall_app. split; [done|]. constructor; [|done].
  unfold in_u8. change 255 with (Z.ones 8). rewrite Z.land_ones by lia. apply Z.mod_pos_bound. lia.
Qed.

Lemma be_step acc b : in_u8 b → Z.lor (Z.shiftl acc 8) b = 256 * acc + b.
Proof.
  unfold in_u8. intros Hb. rewrite Z.shiftl_mul_pow2 by lia.
  assert (Z.land (acc * 2^8) b = 0) as Hl.
  { apply Z.bits_inj'. intros i Hi. rewrite Z.land_spec, Z.bits_0. destruct (decide (i < 8)).
    - by rewrite Z.mul_pow2_bits_low by lia.
    - rewrite <-(Z.mod_small b (2^8)), Z.mod_pow2_bits_high by lia. apply andb_false_r. }
  rewrite <-Z.lxor_lor, <-Z.add_nocarry_lxor by done. lia.
Qed.

(** Decoding the encoding gives the value back, reduced to its width. *)
Lemma be_value_bytes n z : be_value (be_bytes n z) = z `mod` 2^(8 * Z.of_nat n).
Proof.
  unfold be_value. revert z. induction n as [|n IH]; intros z.
  - simpl. by rewrite Z.mod_1_r.
  - simpl. rewrite foldl_app, IH. simpl.
    change 255 with (Z.ones 8). rewrite Z.land_ones by lia.
    rewrite be_step by (apply Z.mod_pos_bound; lia). rewrite Z.shiftr_div_pow2 by lia.
    replace (2 ^ (8 * Z.of_nat (S n))) with (2^8 * 2 ^ (8 * Z.of_nat n)) by (rewrite <-Z.pow_add_r by lia; f_equal; lia).
    rewrite Z.rem_mul_r by lia. lia.
Qed.

Lemma be_value_range bs : Forall in_u8 bs → 0 ≤ be_value bs < 2^(8 * len bs).
Proof.
  unfold be_value. induction bs as [|b bs IH] using rev_ind; [unfold len; simpl; lia|].
  intros [HF Hb]%Forall_app. apply Forall_inv in Hb. specialize (IH HF).
  rewrite foldl_app, len_app. simpl. rewrite be_step by done. unfold in_u8 in Hb.
  replace (2 ^ (8 * (len bs + len [b]))) with (2^8 * 2 ^ (8 * len bs))
    by (pose proof (len_nonneg bs); rewrite <-Z.pow_add_r by lia; f_equal; unfold len; simpl; lia).
  lia.
Qed.

(** Encoding the value of as many bytes gives them back. *)
Lemma be_bytes_value bs : Forall in_u8 bs → be_bytes (length bs) (be_value bs) = bs.
Proof.
  induction bs as [|b bs IH] using rev_ind; [done|].
  intros [HF Hb]%Forall_app. apply Forall_inv in Hb. specialize (IH HF).
  unfold be_value. rewrite foldl_app, length_app, Nat.add_comm. simpl.
  fold (be_value bs). rewrite be_step by done. unfold in_u8 in Hb.
  change 255 with (Z.ones 8). rewrite Z.land_ones, Z.shiftr_div_pow2 by lia.
  replace ((256 * be_value bs + b) / 2^8) with (be_value bs)
    by (apply (Z.div_unique _ _ _ b); lia).
  replace ((256 * be_value bs + b) `mod` 2^8) with b
    by (apply (Z.mod_unique _ _ (be_value bs)); lia).
  by rewrite IH.
Qed.

(** [IntToHex]: the eight bytes of an [int64]. *)
Definition IntToHex (num : Z) : bytes := be_bytes 8 (u64 num).

(** ** [Addr2Shard]

    [strconv.ParseInt(s, 16, 32)]: an optional sign, then at least one
    hexadecimal digit, and a value that fits 32 bits. *)
Definition hex_digit (c : ascii) : option Z :=
  let n := Z.of_N (N_of_ascii c) in
  if bool_decide (48 ≤ n ≤ 57) then Some (n - 48)
  else if bool_decide (97 ≤ n ≤ 102) then Some (n - 87)
  else if bool_decide (65 ≤ n ≤ 70) then Some (n - 55)
  else None.

Fixpoint hex_digits (acc : Z) (cs : list ascii) : option Z :=
  match cs with
  | [] => Some acc
  | c :: cs => d ← hex_digit c; hex_digits (16 * acc + d) cs
  end.

Definition ParseInt_16_32 (cs : list ascii) : option Z :=
  let '(neg, ds) := match cs with
                    | "+"%char :: ds => (false, ds)
                    | "-"%char :: ds => (true, ds)
                    | ds => (false, ds)
                    end in
  match ds with
  | [] => None
  | _ => n ← hex_digits 0 ds;
         if neg then (if bool_decide (n ≤ 2^31) then Some (-n) else None)
         else (if bool_decide (n < 2^31) then Some n else None)
  end.

(** Go's [%] truncates towards zero and panics on zero. *)
Definition go_rem (a b : Z) : go Z :=
  if bool_decide (b = 0) then Halt (GoPanic "integer divide by zero") else Ret (Z.rem a b).

Definition Addr2Shard (addr : string) (shardNum : Z) : go Z :=
  let cs := String.list_ascii_of_string addr in
  if bool_decide (length cs < 4)%nat then Halt (GoPanic "slice bounds out of range")
  else
    match ParseInt_16_32 (drop (length cs - 4) cs) with
    | None => Halt (LogError "Parse address to shardID error!")
    | Some num => go_rem num shardNum
    end.

(** [VrfValue2Shard]: the first byte selects the shard. *)
Definition VrfValue2Shard (value : bytes) (shardNum : Z) : go Z :=
  v0 ← go_index value 0; go_rem v0 shardNum.

(** ** Facts *)
Lemma go_rem_pos a b : 0 ≤ a → 0 < b → go_rem a b = Ret (a `mod` b) ∧ 0 ≤ a `mod` b < b.
Proof.
  intros. unfold go_rem. rewrite bool_decide_false by lia.
  rewrite Z.rem_mod_nonneg by lia. split; [done|]. apply Z.mod_pos_bound. lia.
Qed.

Lemma hex_digit_range c d : hex_digit c = Some d → 0 ≤ d < 16.
Proof. unfold hex_digit. intros. repeat case_bool_decide; simplify_eq; lia. Qed.

Lemma hex_digits_range cs acc n :
  0 ≤ acc → hex_digits acc cs = Some n → 0 ≤ n < (acc + 1) * 16 ^ len cs.
Proof.
  revert acc. induction cs as [|c cs IH]; intros acc Hacc; simpl; intros Hn.
  - simplify_eq. unfold len; simpl. lia.
  - destruct (hex_digit c) as [d|] eqn:Hd; simplify_eq/=. apply hex_digit_range in Hd.
    rewrite len_cons, Z.pow_add_r by (pose proof (len_nonneg cs); lia).
    apply IH in Hn; [|lia]. pose proof (Z.pow_pos_nonneg 16 (len cs) ltac:(lia) (len_nonneg cs)). nia.
Qed.

Lemma hex_digits_total cs acc : Forall (λ c, is_Some (hex_digit c)) cs → is_Some (hex_digits acc cs).
Proof.
  intros HF. revert acc. induction HF as [|c cs [d Hd] _ IH]; intros acc; simpl; [by eauto|].
  rewrite Hd. simpl. apply IH.
Qed.

(** An address whose last four characters are hexadecimal digits. *)
Definition hex_tail (addr : string) : Prop :=
  let cs := String.list_ascii_of_string addr in
  (4 ≤ length cs)%nat ∧ Forall (λ c, is_Some (hex_digit c)) (drop (length cs - 4) cs).
#[global] Instance hex_tail_dec addr : Decision (hex_tail addr).
Proof. unfold hex_tail. apply _. Defined.

Lemma Addr2Shard_ok addr shardNum :
  hex_tail addr → 0 < shardNum →
  ∃ sid, Addr2Shard addr shardNum = Ret sid ∧ 0 ≤ sid < shardNum.
Proof.
  unfold hex_tail, Addr2Shard. set (cs := String.list_ascii_of_string addr). intros [Hlen HF] Hs.
  rewrite bool_decide_false by lia.
  assert (length (drop (length cs - 4) cs) = 4%nat) as Hd by (rewrite length_drop; lia).
  destruct (drop (length cs - 4) cs) as [|c ds] eqn:E; [done|].
  destruct (hex_digits_total (c :: ds) 0) as [n Hn]; [done|].
  assert (ParseInt_16_32 (c :: ds) = Some n) as ->.
  { pose proof (hex_digits_range (c :: ds) 0 n ltac:(lia) Hn) as Hr.
    assert (n < 2^31) as Hn' by (unfold len in Hr; rewrite Hd in Hr; simpl in Hr; lia).
    assert (is_Some (hex_digit c)) as Hc by by apply Forall_inv in HF.
    unfold ParseInt_16_32. destruct c as [[] [] [] [] [] [] [] []];
      first [by destruct Hc | rewrite Hn; simpl; by rewrite bool_decide_true]. }
  pose proof (hex_digits_range (c :: ds) 0 n ltac:(lia) Hn).
  destruct (go_rem_pos n shardNum) as [-> ?]; [lia..|]. eauto.
Qed.

(** C38. Every hexadecimal address is assigned to a shard that exists: the
    assignment comes back, and with a value below the number of shards. *)
Theorem Addr2Shard_range addr shardNum :
  hex_tail addr → 0 < shardNum →
  ∃ sid, Addr2Shard addr shardNum = Ret sid ∧ 0 ≤ sid < shardNum.
Proof. apply Addr2Shard_ok. Qed.

Lemma Addr2Shard_range_witness :
  ∃ sid, Addr2Shard "0x52908400098527886E0F7030069857D2E4169EE7" 8 = Ret sid ∧ 0 ≤ sid < 8.
Proof. apply Addr2Shard_range; [by_compute|lia]. Defined.
