(* ===== verification/Core.v ===== *)
(** * The shared data of package [core]: transactions, receipts, blocks,
    time beacons and the payloads of the messages (src/core/transaction.go,
    block.go, timebeacon.go, msg.go; src/result/txStatus.go and the receipt
    of src/result/result.go). *)
From S2P Require Import Prelude.
Local Open Scope Z_scope.

(** ** Transaction kinds: the [iota] constants of transaction.go.  The field
    [TXtype] is a bare [uint64], so other values occur as well. *)
Definition UndefinedTXType : Z := 0.
Definition IntraTXType : Z := 1.
Definition CrossTXType1 : Z := 2.
Definition CrossTXType2 : Z := 3.
Definition RollbackTXType : Z := 4.

Definition TxTypeStr (txType : Z) : string :=
  if bool_decide (txType = IntraTXType) then "IntraTXType"
  else if bool_decide (txType = CrossTXType1) then "CrossTXType1"
  else if bool_decide (txType = CrossTXType2) then "CrossTXType2"
  else if bool_decide (txType = RollbackTXType) then "RollbackType"
  else "UnknownType".

(** ** Transaction status: the constants of txStatus.go. *)
Definition DefaultStatus : Z := 0.
Definition IntraSuccess : Z := 1.
Definition CrossTXType1Success : Z := 2.
Definition CrossTXType2Success : Z := 3.
Definition RollbackSuccess : Z := 4.
Definition Dropped : Z := 5.
Definition CrossTXType2Fail : Z := 6.
Definition RollbackFail : Z := 7.

Definition getStatusStr (status : Z) : string :=
  if bool_decide (status = DefaultStatus) then "DefaultStatus"
  else if bool_decide (status = IntraSuccess) then "IntraSuccess"
  else if bool_decide (status = CrossTXType1Success) then "CrossTXType1Success"
  else if bool_decide (status = CrossTXType2Success) then "CrossTXType2Success"
  else if bool_decide (status = RollbackSuccess) then "RollbackSuccess"
  else if bool_decide (status = Dropped) then "Dropped"
  else if bool_decide (status = CrossTXType2Fail) then "CrossTXType2Fail"
  else if bool_decide (status = RollbackFail) then "RollbackFail"
  else "Unknown".

Definition GetStatusString (status : Z) : string := getStatusStr status.

Definition checkTXFinished (status : Z) : bool :=
  bool_decide (status = IntraSuccess) || bool_decide (status = CrossTXType2Success).

(** ** Transactions.  [Sender] and [Recipient] are pointers that every
    constructor of the program sets; they are the addresses themselves here. *)
Record Transaction := mkTransaction {
  TXtype : Z;
  ID : Z;
  Sender : bytes;
  Recipient : bytes;
  SenderNonce : Z;
  Value : Z;
  Timestamp : Z;
  ConfirmTimestamp : Z;
  ConfirmHeight : Z;
  Cross1ConfirmHeight : Z;
  Sender_sid : Z;
  Recipient_sid : Z;
  TXStatus : Z;
  Cid : Z;
  RollbackHeight : Z
}.

#[global] Instance Transaction_eq_dec : EqDecision Transaction.
Proof. solve_decision. Defined.

(** Assignments [tx.F = v]. *)
Definition set_TXtype (v : Z) (t : Transaction) : Transaction :=
  mkTransaction v (ID t) (Sender t) (Recipient t) (SenderNonce t) (Value t) (Timestamp t)
    (ConfirmTimestamp t) (ConfirmHeight t) (Cross1ConfirmHeight t) (Sender_sid t)
    (Recipient_sid t) (TXStatus t) (Cid t) (RollbackHeight t).
Definition set_TXStatus (v : Z) (t : Transaction) : Transaction :=
  mkTransaction (TXtype t) (ID t) (Sender t) (Recipient t) (SenderNonce t) (Value t) (Timestamp t)
    (ConfirmTimestamp t) (ConfirmHeight t) (Cross1ConfirmHeight t) (Sender_sid t)
    (Recipient_sid t) v (Cid t) (RollbackHeight t).
Definition set_ConfirmHeights (h c : Z) (t : Transaction) : Transaction :=
  mkTransaction (TXtype t) (ID t) (Sender t) (Recipient t) (SenderNonce t) (Value t) (Timestamp t)
    (ConfirmTimestamp t) h c (Sender_sid t)
    (Recipient_sid t) (TXStatus t) (Cid t) (RollbackHeight t).
Definition set_RollbackHeight (v : Z) (t : Transaction) : Transaction :=
  mkTransaction (TXtype t) (ID t) (Sender t) (Recipient t) (SenderNonce t) (Value t) (Timestamp t)
    (ConfirmTimestamp t) (ConfirmHeight t) (Cross1ConfirmHeight t) (Sender_sid t)
    (Recipient_sid t) (TXStatus t) (Cid t) v.
Definition set_Broadcast (ts cid : Z) (t : Transaction) : Transaction :=
  mkTransaction (TXtype t) (ID t) (Sender t) (Recipient t) (SenderNonce t) (Value t) ts
    (ConfirmTimestamp t) (ConfirmHeight t) (Cross1ConfirmHeight t) (Sender_sid t)
    (Recipient_sid t) (TXStatus t) cid (RollbackHeight t).
Definition set_sids (s r : Z) (t : Transaction) : Transaction :=
  mkTransaction (TXtype t) (ID t) (Sender t) (Recipient t) (SenderNonce t) (Value t) (Timestamp t)
    (ConfirmTimestamp t) (ConfirmHeight t) (Cross1ConfirmHeight t) s r
    (TXStatus t) (Cid t) (RollbackHeight t).

(** [NewTransaction]: the fields the composite literal omits are zero. *)
Definition NewTransaction (txtype : Z) (sender to : bytes) (senderNonce amount : Z) : Transaction :=
  mkTransaction txtype 0 sender to senderNonce amount 0 0 0 0 0 0 0 0 0.

(** [CopyTransaction] copies the listed fields and resets the rest. *)
Definition CopyTransaction (oldtx : Transaction) : Transaction :=
  mkTransaction (TXtype oldtx) (ID oldtx) (Sender oldtx) (Recipient oldtx)
    (SenderNonce oldtx) (Value oldtx) (Timestamp oldtx) (ConfirmTimestamp oldtx)
    0 0 (Sender_sid oldtx) (Recipient_sid oldtx) DefaultStatus 0 0.

Definition Nonce (tx : Transaction) : Z := SenderNonce tx.

(** [TxByNonce.Less]. *)
Definition TxByNonce_Less (s : list Transaction) (i j : Z) : go bool :=
  ti ← go_index s i; tj ← go_index s j;
  Ret (bool_decide (Nonce ti < Nonce tj)).

(** ** Receipts *)
Record TXReceipt := mkTXReceipt {
  TxID : Z;
  ConfirmTimeStamp : Z;
  TxStatus : Z;
  rShardID : Z;
  rBlockHeight : Z;
  MKproof : bytes
}.
#[global] Instance TXReceipt_eq_dec : EqDecision TXReceipt.
Proof. solve_decision. Defined.

Definition set_ConfirmTimeStamp (v : Z) (r : TXReceipt) : TXReceipt :=
  mkTXReceipt (TxID r) v (TxStatus r) (rShardID r) (rBlockHeight r) (MKproof r).

(** ** Accounts ([types.StateAccount], also declared in
    core/state_account.go). *)
Record StateAccount := mkStateAccount {
  aNonce : Z;
  Balance : Z;
  aRoot : bytes;
  CodeHash : bytes
}.
#[global] Instance StateAccount_eq_dec : EqDecision StateAccount.
Proof. solve_decision. Defined.

(** ** Time beacons *)
Record TimeBeacon := mkTimeBeacon {
  tbShardID : Z;
  tbHeight : Z;
  tbBlockHash : string;
  tbTxHash : string;
  tbStatusHash : string
}.
#[global] Instance TimeBeacon_eq_dec : EqDecision TimeBeacon.
Proof. solve_decision. Defined.

Record SignedTB := mkSignedTB {
  sTimeBeacon : TimeBeacon;
  SeedHeight : Z;
  Signers : list bytes;
  Sigs : list bytes;
  Vrfs : list bytes
}.
#[global] Instance SignedTB_eq_dec : EqDecision SignedTB.
Proof. solve_decision. Defined.

(** ** Nodes *)
Record NodeInfo := mkNodeInfo {
  nShardID : Z;
  nComID : Z;
  nNodeID : Z;
  nNodeAddr : string
}.
#[global] Instance NodeInfo_eq_dec : EqDecision NodeInfo.
Proof. solve_decision. Defined.

(** ** What the predicates on statuses mean *)

(** Only the two statuses that end a transaction's life on success count as
    finished: a committed first half or a rollback does not. *)
Lemma checkTXFinished_spec s :
  checkTXFinished s = true ↔ s = IntraSuccess ∨ s = CrossTXType2Success.
Proof.
  unfold checkTXFinished. rewrite orb_true_iff, !bool_decide_eq_true. done.
Qed.
