(* ===== verification/Result.v ===== *)
(** * The result recorder (src/result/result.go, txStatus.go).

    One [Result] per process collects when each transaction was broadcast and
    confirmed, every status it went through, and the work done per shard.
    Transaction ids index the slices, so an id outside the loaded range is a
    panic.  The recorder's lock makes each operation one step; the progress
    bar and the csv file are output only. *)
From S2P Require Import Prelude Core.
Local Open Scope Z_scope.

Record Result := mkResult {
  Totalnum : Z;
  allComplished : Z;
  WorkLoad : Z;
  BroadcastMap : list Z;
  ConfirmMap : list Z;
  AllTXStatus : list (list Z);
  allRollBack : Z;
  workload4shard : gmap Z Z
}.

Definition NewResult : Result := mkResult 0 0 0 [] [] [] 0 ∅.

(** [allRollBack] is the one counter [SetTotalTXNum] does not reset. *)
Definition SetTotalTXNum (totalnum : Z) (res : Result) : Result :=
  let n := Z.to_nat totalnum in
  mkResult totalnum 0 0 (replicate n 0) (replicate n 0) (replicate n []) (allRollBack res) ∅.

(** [SetBroadcastMap]: [for i, t := range table { res.BroadcastMap[i] = t }]. *)
Definition SetBroadcastMap `{MapIter} (table : gmap Z Z) (res : Result) : go Result :=
  bm ← go_fold (λ bm '(i, t), go_store bm i t) (BroadcastMap res) (map_iter table);
  Ret (mkResult (Totalnum res) (allComplished res) (WorkLoad res) bm (ConfirmMap res)
         (AllTXStatus res) (allRollBack res) (workload4shard res)).

(** One iteration of [SetTXReceiptV2]; [complished] is the local counter. *)
Definition receipt_step (acc : Result * Z) (kv : Z * TXReceipt) : go (Result * Z) :=
  let '(res, complished) := acc in
  let '(k, v) := kv in
  if bool_decide (TxStatus v = DefaultStatus) then Halt (LogError "tx's status lost.")
  else
    old ← go_index (AllTXStatus res) k;
    all ← go_store (AllTXStatus res) k (old ++ [TxStatus v]);
    let w4s := <[rShardID v := default 0 (workload4shard res !! rShardID v) + 1]>
                 (workload4shard res) in
    '(complished, confirm) ←
      (if checkTXFinished (TxStatus v)
       then confirm ← go_store (ConfirmMap res) k (ConfirmTimeStamp v); Ret (complished + 1, confirm)
       else Ret (complished, ConfirmMap res));
    let rb := if bool_decide (TxStatus v = RollbackSuccess)
              then allRollBack res + 1 else allRollBack res in
    Ret (mkResult (Totalnum res) (allComplished res) (WorkLoad res) (BroadcastMap res) confirm
           all rb w4s, complished).
Arguments receipt_step : simpl never.

Definition SetTXReceiptV2 `{MapIter} (table : gmap Z TXReceipt) (res : Result) : go Result :=
  '(res, complished) ← go_fold receipt_step (res, 0) (map_iter table);
  Ret (mkResult (Totalnum res) (allComplished res + complished) (WorkLoad res + Z.of_nat (size table))
         (BroadcastMap res) (ConfirmMap res) (AllTXStatus res) (allRollBack res) (workload4shard res)).

(** [getStatusListStr] *)
Definition getStatusListStr (statusList : list Z) : string :=
  let str := foldl (λ str status, (str ++ (getStatusStr status ++ ","))%string) ""%string statusList in
  if bool_decide (String.length str = 0%nat) then "[]"
  else ("[" ++ String.substring 0 (String.length str - 1) str ++ "]")%string.

(** ** The report

    The metrics are quotients of integers; [float64] division by zero is an
    infinity or NaN and no panic, so a quotient is kept as its operands. *)
Record ratio := mkRatio { num : Z; den : Z }.

Record scan := mkScan {
  latencys : list Z;
  sum : Z;
  max_latency : Z;
  max_latency_id : Z;
  min_latency : Z;
  min_latency_id : Z;
  endt : Z
}.

(** The body of the loop over the transactions, with [uint64] arithmetic. *)
Definition scan_step (res : Result) (s : scan) (i : Z) : go scan :=
  c ← go_index (ConfirmMap res) i;
  if bool_decide (c = 0) then Ret s
  else
    b ← go_index (BroadcastMap res) i;
    let lat := u64 (c - b) in
    lats ← go_store (latencys s) i lat;
    let '(mx, mxi) := if bool_decide (lat > u64 (max_latency s)) then (i64 lat, i)
                      else (max_latency s, max_latency_id s) in
    let '(mn, mni) := if bool_decide (lat < u64 (min_latency s)) then (i64 lat, i)
                      else (min_latency s, min_latency_id s) in
    Ret (mkScan lats (u64 (sum s + lat)) mx mxi mn mni
           (if bool_decide (endt s < c) then c else endt s)).
Arguments scan_step : simpl never.

Record report := mkReport {
  thrput : ratio;
  averageLatency : ratio;
  rollbackRate : ratio;
  overloads : list Z;
  rep_scan : scan
}.

Definition GetThroughtPutAndLatencyV2 `{MapIter} (res : Result) : go report :=
  begin ← go_index (BroadcastMap res) 0;
  s ← go_fold (scan_step res)
        (mkScan (replicate (Z.to_nat (Totalnum res)) 0) 0 0 (-1) 100000 (-1) 0)
        (Z.of_nat <$> seq 0 (Z.to_nat (Totalnum res)));
  let usedTime := u64 (endt s - begin) in
  _ ← go_index (AllTXStatus res) (max_latency_id s);
  _ ← go_index (AllTXStatus res) (min_latency_id s);
  let keys := merge_sort Z.le (map_iter (workload4shard res)).*1 in
  Ret (mkReport (mkRatio (allComplished res) usedTime)
         (mkRatio (sum s) (allComplished res))
         (mkRatio (allRollBack res) (allComplished res + allRollBack res))
         ((λ k, default 0 (workload4shard res !! k)) <$> keys) s).

(** ** The accounting invariant *)

(** Number of statuses of one kind over all transactions. *)
Definition count_status (f : Z → bool) (all : list (list Z)) : Z :=
  sumZ (λ l, len (filter (λ s, f s = true) l)) all.

(** The counters are exactly what the recorded statuses say. *)
Record accounted (res : Result) : Prop := {
  acc_work : WorkLoad res = sumZ len (AllTXStatus res);
  acc_done : allComplished res = count_status checkTXFinished (AllTXStatus res);
  acc_shard : sumZ (λ kv, kv.2) (map_to_list (workload4shard res)) = WorkLoad res;
  acc_confirm : len (ConfirmMap res) = len (AllTXStatus res)
}.

(** A table the recorder accepts. *)
Definition recordable (n : Z) (table : gmap Z TXReceipt) : Prop :=
  map_Forall (λ k v, 0 ≤ k < n ∧ TxStatus v ≠ DefaultStatus) table.

Lemma sumZ_insert {A} (f : A → Z) (l : list A) i x y :
  l !! i = Some x → sumZ f (<[i := y]> l) = sumZ f l + f y - f x.
Proof.
  revert i. induction l as [|z l IH]; intros [|i]; simpl; intros ?; simplify_eq; try lia.
  rewrite IH by done. lia.
Qed.

Lemma sumZ_map_insert (m : gmap Z Z) k :
  sumZ (λ kv, kv.2) (map_to_list (<[k := default 0 (m !! k) + 1]> m)) =
  sumZ (λ kv, kv.2) (map_to_list m) + 1.
Proof.
  destruct (m !! k) as [v|] eqn:Hk; simpl.
  - rewrite <-insert_delete_eq, map_to_list_insert by apply lookup_delete_eq.
    rewrite <-(map_to_list_delete m k v) by done. simpl. lia.
  - rewrite map_to_list_insert by done. simpl. lia.
Qed.

Lemma count_status_insert f all i old s :
  all !! i = Some old →
  count_status f (<[i := old ++ [s]]> all) = count_status f all + if f s then 1 else 0.
Proof.
  intros Hi. unfold count_status. rewrite (sumZ_insert _ _ _ old) by done.
  rewrite filter_app, len_app. destruct (f s) eqn:Hs.
  - rewrite filter_cons_True, filter_nil by done. unfold len at 3; simpl. lia.
  - rewrite filter_cons_False, filter_nil by congruence. unfold len at 3; simpl. lia.
Qed.

(** The invariant inside the loop of [SetTXReceiptV2]: [n] receipts and
    [complished] finished ones have been taken in but not yet added to the
    totals. *)
Definition midway (res : Result) (n complished : Z) : Prop :=
  accounted (mkResult (Totalnum res) (allComplished res + complished) (WorkLoad res + n)
    (BroadcastMap res) (ConfirmMap res) (AllTXStatus res) (allRollBack res) (workload4shard res)).

Lemma receipt_step_spec res c n k v :
  midway res n c → 0 ≤ k < len (AllTXStatus res) → TxStatus v ≠ DefaultStatus →
  ∃ res' c', receipt_step (res, c) (k, v) = Ret (res', c') ∧ midway res' (n + 1) c' ∧
    len (AllTXStatus res') = len (AllTXStatus res) ∧
    AllTXStatus res' !! Z.to_nat k = (λ l, l ++ [TxStatus v]) <$> AllTXStatus res !! Z.to_nat k ∧
    (∀ j, j ≠ Z.to_nat k → AllTXStatus res' !! j = AllTXStatus res !! j) ∧
    allRollBack res' = allRollBack res + (if decide (TxStatus v = RollbackSuccess) then 1 else 0).
Proof.
  intros [Hw Hd Hs Hc] Hk Hv; simpl in *.
  destruct (proj2 (go_index_returns (AllTXStatus res) k)) as [old Hold]; [done|].
  unfold receipt_step. rewrite bool_decide_false by done. rewrite Hold. simpl.
  apply go_index_Ret in Hold as [_ Hold].
  rewrite !go_store_ok by lia. simpl.
  assert (∀ X, len (<[Z.to_nat k := X]> (AllTXStatus res)) = len (AllTXStatus res)) as Hlen
    by (intros X; unfold len; by rewrite length_insert).
  pose proof (count_status_insert checkTXFinished _ _ old (TxStatus v) Hold) as Hcnt.
  destruct (checkTXFinished (TxStatus v)); simpl; (eexists _, _; split; [done|]);
    (split; [|split; [apply Hlen|split; [|split; [|case_bool_decide; case_decide; simpl; [lia|done|done|lia]]]]]).
  1,4: split; simpl; rewrite ?Hcnt, ?sumZ_map_insert, ?(sumZ_insert _ _ _ old), ?len_app, ?Hlen
    by done; unfold len in *; simpl; rewrite ?length_insert; lia.
  1,3: simpl; by rewrite Hold, list_lookup_insert_eq by (eapply lookup_lt_Some; done).
  all: simpl; intros j Hj; by rewrite list_lookup_insert_ne.
Qed.

Lemma receipt_fold_spec l res c n :
  midway res n c → NoDup l.*1 →
  Forall (λ kv, 0 ≤ kv.1 < len (AllTXStatus res) ∧ TxStatus kv.2 ≠ DefaultStatus) l →
  ∃ res' c', go_fold receipt_step (res, c) l = Ret (res', c') ∧ midway res' (n + len l) c' ∧
    (∀ k v, (k, v) ∈ l →
       AllTXStatus res' !! Z.to_nat k = (λ l, l ++ [TxStatus v]) <$> AllTXStatus res !! Z.to_nat k) ∧
    (∀ j, j ∉ l.*1 → 0 ≤ j → AllTXStatus res' !! Z.to_nat j = AllTXStatus res !! Z.to_nat j) ∧
    allRollBack res' = allRollBack res +
      len (filter (λ kv : Z * TXReceipt, TxStatus kv.2 = RollbackSuccess) l).
Proof.
  revert res c n. induction l as [|[k v] l IH]; intros res c n Hm Hnd HF; simpl.
  - exists res, c. rewrite filter_nil. unfold len at 1 2; simpl. rewrite !Z.add_0_r. split_and!; [done..| |done|done].
    by intros ? ? ?%elem_of_nil.
  - simpl in Hnd. apply NoDup_cons in Hnd as [Hk Hnd]. apply Forall_cons in HF as [[Hr Hv] HF]. simpl in *.
    destruct (receipt_step_spec res c n k v) as (r1 & c1 & -> & Hm1 & Hl1 & Hk1 & Ho1 & Hb1); [done..|]. simpl.
    destruct (IH r1 c1 (n + 1)) as (r2 & c2 & -> & Hm2 & Hi2 & Ho2 & Hb2); [done|done|by rewrite Hl1|].
    exists r2, c2. split; [done|]. split; [by rewrite len_cons, Z.add_assoc|]. split; [|split].
    + intros k' v' [[= -> ->]|Hin]%elem_of_cons.
      * rewrite Ho2 by (done || lia). done.
      * rewrite (Hi2 k' v') by done. f_equal. apply Ho1. intros Heq. apply Hk.
        rewrite Forall_forall in HF. apply HF in Hin as Hr'. simpl in Hr'.
        assert (k = k') as -> by lia. apply list_elem_of_fmap. by exists (k', v').
    + intros j Hj ?. apply not_elem_of_cons in Hj as [? ?]. rewrite Ho2 by done. apply Ho1. lia.
    + rewrite Hb2, Hb1, filter_cons. simpl. case_decide; [rewrite len_cons|]; lia.
Qed.

Section record.
Context `{MI : MapIter}.

(** Recording a table of receipts: whatever the order in which the map
    is visited, a table whose ids are in range and whose statuses are set is
    accepted, appends exactly one status to each transaction it names and
    none to the others, counts each rollback once, and keeps every counter
    equal to what the recorded statuses say. *)
Theorem SetTXReceiptV2_accounts table res :
  accounted res → recordable (len (AllTXStatus res)) table →
  ∃ res', SetTXReceiptV2 table res = Ret res' ∧ accounted res' ∧
    (∀ k, 0 ≤ k →
       AllTXStatus res' !! Z.to_nat k =
       match table !! k with
       | Some v => (λ l, l ++ [TxStatus v]) <$> AllTXStatus res !! Z.to_nat k
       | None => AllTXStatus res !! Z.to_nat k
       end) ∧
    allRollBack res' = allRollBack res +
      len (filter (λ kv : Z * TXReceipt, TxStatus kv.2 = RollbackSuccess) (map_to_list table)).
Proof.
  intros Hacc Hrec. unfold SetTXReceiptV2.
  destruct (receipt_fold_spec (map_iter table) res 0 0) as (r & c & -> & Hm & Hin & Hout & Hb).
  - unfold midway. rewrite !Z.add_0_r. by destruct res.
  - apply NoDup_fst_map_iter.
  - apply Forall_forall. intros [k v] ?%elem_of_map_iter. by apply Hrec.
  - simpl. eexists. split; [done|]. simpl. split; [|split].
    + assert (len (map_iter table) = Z.of_nat (size table)) as <-; [|done].
      unfold len. by rewrite map_iter_perm, length_map_to_list.
    + intros k Hk. destruct (table !! k) as [v|] eqn:Hv.
      * apply Hin. by apply elem_of_map_iter.
      * apply Hout; [|done]. rewrite elem_of_map_iter_fst, Hv. by intros [? ?].
    + rewrite Hb. by rewrite map_iter_perm.
Qed.
End record.

Lemma accounted_SetTotalTXNum n res : accounted (SetTotalTXNum n res).
Proof.
  split; simpl; unfold count_status, len; rewrite ?map_to_list_empty, ?length_replicate; simpl; try done.
  all: induction (Z.to_nat n) as [|m IH]; simpl; [done|]; by rewrite <-IH.
Qed.

(** ** The report *)
Section report.
Variable res : Result.

(** Confirmed transactions and their latency. *)
Definition confirmed (i : Z) : Prop := ∃ c, ConfirmMap res !! Z.to_nat i = Some c ∧ c ≠ 0.
Definition latency (i : Z) : Z :=
  u64 (default 0 (ConfirmMap res !! Z.to_nat i) - default 0 (BroadcastMap res !! Z.to_nat i)).

Definition shaped : Prop :=
  0 < Totalnum res ∧ len (BroadcastMap res) = Totalnum res ∧ len (ConfirmMap res) = Totalnum res ∧
  len (AllTXStatus res) = Totalnum res ∧
  ∀ i, 0 ≤ i < Totalnum res → confirmed i → latency i < 2^63.

(** What the loop knows after the first [n] transactions. *)
Record scanned (n : Z) (s : scan) : Prop := {
  sc_len : len (latencys s) = Totalnum res;
  sc_max : (max_latency_id s = -1 ∧ max_latency s = 0 ∧
              ∀ i, 0 ≤ i < n → confirmed i → latency i ≤ 0) ∨
           (0 ≤ max_latency_id s < n ∧ confirmed (max_latency_id s) ∧
              0 < max_latency s < 2^63 ∧ max_latency s = latency (max_latency_id s) ∧
              ∀ i, 0 ≤ i < n → confirmed i → latency i ≤ max_latency s);
  sc_min : (min_latency_id s = -1 ∧ min_latency s = 100000 ∧
              ∀ i, 0 ≤ i < n → confirmed i → 100000 ≤ latency i) ∨
           (0 ≤ min_latency_id s < n ∧ confirmed (min_latency_id s) ∧
              0 ≤ min_latency s < 100000 ∧ min_latency s = latency (min_latency_id s) ∧
              ∀ i, 0 ≤ i < n → confirmed i → min_latency s ≤ latency i)
}.

Lemma scanned_skip n s : scanned n s → ¬ confirmed n → scanned (n + 1) s.
Proof.
  intros [Hl Hm Hn] Hc.
  assert (∀ i, 0 ≤ i < n + 1 → confirmed i → 0 ≤ i < n) as Hi.
  { intros i ? ?. assert (i ≠ n) by congruence. lia. }
  split; [done| |].
  - destruct Hm as [(?&?&H)|(?&?&?&?&H)]; [left|right]; split_and!; try done; try lia; eauto.
  - destruct Hn as [(?&?&H)|(?&?&?&?&H)]; [left|right]; split_and!; try done; try lia; eauto.
Qed.

Lemma scan_step_spec n s :
  shaped → 0 ≤ n < Totalnum res → scanned n s →
  ∃ s', scan_step res s n = Ret s' ∧ scanned (n + 1) s'.
Proof.
  intros (_ & Hb & Hc & _ & Hlat) Hn Hs. unfold scan_step.
  destruct (proj2 (go_index_returns (ConfirmMap res) n)) as [c Ec]; [lia|].
  destruct (proj2 (go_index_returns (BroadcastMap res) n)) as [b Eb]; [lia|].
  rewrite Ec; simpl. apply go_index_Ret in Ec as [_ Ec].
  case_bool_decide as Hz.
  { exists s. split; [done|]. apply scanned_skip; [done|]. intros (? & ? & ?). congruence. }
  rewrite Eb; simpl. apply go_index_Ret in Eb as [_ Eb].
  assert (confirmed n) as Hcn by (exists c; done).
  assert (latency n = u64 (c - b)) as Hl by (unfold latency; by rewrite Ec, Eb).
  rewrite <-Hl. destruct Hs as [Hlen Hm Hmn]. rewrite go_store_ok by lia. simpl.
  assert (0 ≤ latency n < 2^63) as Hr by (split; [apply u64_range|apply Hlat; done]).
  assert (0 ≤ max_latency s < 2^63) by (destruct Hm as [(?&->&?)|(?&?&?&?&?)]; lia).
  assert (0 ≤ min_latency s < 2^63) by (destruct Hmn as [(?&->&?)|(?&?&?&?&?)]; lia).
  rewrite (u64_small (max_latency s)) by (unfold in_u64; lia).
  rewrite (u64_small (min_latency s)) by (unfold in_u64; lia).
  rewrite (i64_small (latency n)) by (unfold in_i64; lia).
  assert (∀ (P : Z → Prop), P n → (∀ i, 0 ≤ i < n → confirmed i → P i) →
    ∀ i, 0 ≤ i < n + 1 → confirmed i → P i) as Hall.
  { intros P Pn Pi i ? ?. destruct (decide (i = n)) as [->|]; [done|]. apply Pi; [lia|done]. }
  case_bool_decide; case_bool_decide; (eexists; split; [done|]); split; simpl;
    try (unfold len in *; rewrite length_insert; lia);
    destruct Hm as [(?&?&?)|(?&?&?&?&?)], Hmn as [(?&?&?)|(?&?&?&?&?)]; try lia;
    first [ right; split_and!; try done; try lia; apply Hall; [lia|]; intros i Hi Hci;
            repeat match goal with H : ∀ i, 0 ≤ i < n → _ |- _ => specialize (H i Hi Hci) end; lia
          | left; split_and!; try done; try lia; apply Hall; [lia|]; intros i Hi Hci;
            repeat match goal with H : ∀ i, 0 ≤ i < n → _ |- _ => specialize (H i Hi Hci) end; lia ].
Qed.

Lemma scan_fold_spec n :
  shaped → 0 ≤ Z.of_nat n ≤ Totalnum res →
  ∃ s, go_fold (scan_step res)
         (mkScan (replicate (Z.to_nat (Totalnum res)) 0) 0 0 (-1) 100000 (-1) 0)
         (Z.of_nat <$> seq 0 n) = Ret s ∧ scanned (Z.of_nat n) s.
Proof.
  intros Hs. induction n as [|n IH]; intros Hn.
  - eexists. split; [done|]. split; simpl.
    + unfold len. rewrite length_replicate. destruct Hs as (? & _). lia.
    + left. split_and!; [done..|]. intros; lia.
    + left. split_and!; [done..|]. intros; lia.
  - destruct IH as (s & Hf & Hsc); [lia|].
    rewrite seq_S, fmap_app, go_fold_app, Hf. simpl.
    destruct (scan_step_spec (Z.of_nat n) s) as (s' & -> & Hs'); [done|lia|done|]. simpl.
    exists s'. split; [done|]. by replace (Z.of_nat (S n)) with (Z.of_nat n + 1) by lia.
Qed.

(** C40. The final report: it is produced exactly when some confirmed
    transaction took at least one time unit and some took less than 100000
    (otherwise the program indexes the status table with -1 and panics), and
    the latencies it reports are the extremes over the confirmed
    transactions, attained at the transactions it names. *)
Theorem report_spec `{MI : MapIter} :
  shaped →
  (returns (GetThroughtPutAndLatencyV2 res) ↔
     (∃ i, 0 ≤ i < Totalnum res ∧ confirmed i ∧ 0 < latency i) ∧
     (∃ i, 0 ≤ i < Totalnum res ∧ confirmed i ∧ latency i < 100000)) ∧
  ∀ r, GetThroughtPutAndLatencyV2 res = Ret r →
    let s := rep_scan r in
    max_latency s = latency (max_latency_id s) ∧ min_latency s = latency (min_latency_id s) ∧
    ∀ i, 0 ≤ i < Totalnum res → confirmed i → min_latency s ≤ latency i ≤ max_latency s.
Proof.
  intros Hsh. assert (Hsh' := Hsh). destruct Hsh' as (Hpos & Hb & Hc & Ha & _).
  destruct (scan_fold_spec (Z.to_nat (Totalnum res))) as (s & Hf & [_ Hmx Hmn]); [done|lia|].
  rewrite Z2Nat.id in * by lia. unfold GetThroughtPutAndLatencyV2. rewrite Hf.
  destruct (proj2 (go_index_returns (BroadcastMap res) 0)) as [b ->]; [lia|]. simpl.
  split; [split|].
  - intros [r Hr]. go_inv. unfold confirmed, latency in *.
    destruct Hmx as [(?&?&?)|(?&?&?&?&?)], Hmn as [(?&?&?)|(?&?&?&?&?)]; try lia.
    split; [exists (max_latency_id s)|exists (min_latency_id s)]; split_and!; auto; lia.
  - intros [(i & Hi & Hci & Hli) (j & Hj & Hcj & Hlj)].
    destruct Hmx as [(?&?&H)|(?&?&?&?&?)]; [specialize (H i Hi Hci); lia|].
    destruct Hmn as [(?&?&H')|(?&?&?&?&?)]; [specialize (H' j Hj Hcj); lia|].
    destruct (proj2 (go_index_returns (AllTXStatus res) (max_latency_id s))) as [? ->]; [lia|].
    destruct (proj2 (go_index_returns (AllTXStatus res) (min_latency_id s))) as [? ->]; [lia|].
    simpl. eauto with golib.
  - intros r Hr. go_inv.
    destruct Hmx as [(?&?&?)|(?&?&?&?&?)], Hmn as [(?&?&?)|(?&?&?&?&?)]; try lia. auto.
Qed.
End report.

(** ** Witnesses *)
Definition demo_result : Result :=
  mkResult 3 0 0 [100; 101; 102] [0; 0; 0] [[]; []; []] 0 ∅.
Definition demo_receipts : gmap Z TXReceipt :=
  <[0 := mkTXReceipt 0 107 IntraSuccess 0 4 []]> {[ 2 := mkTXReceipt 2 108 RollbackSuccess 1 4 [] ]}.

Lemma SetTXReceiptV2_accounts_witness :
  ∃ res', SetTXReceiptV2 (H := canonical_iter) demo_receipts demo_result = Ret res' ∧ accounted res' ∧
    (∀ k, 0 ≤ k →
       AllTXStatus res' !! Z.to_nat k =
       match demo_receipts !! k with
       | Some v => (λ l, l ++ [TxStatus v]) <$> AllTXStatus demo_result !! Z.to_nat k
       | None => AllTXStatus demo_result !! Z.to_nat k
       end) ∧
    allRollBack res' = allRollBack demo_result +
      len (filter (λ kv : Z * TXReceipt, TxStatus kv.2 = RollbackSuccess) (map_to_list demo_receipts)).
Proof.
  apply (SetTXReceiptV2_accounts (MI := canonical_iter)).
  - split; reflexivity.
  - apply map_Forall_to_list. repeat constructor; simpl; lia || discriminate.
Defined.

Definition demo_done : Result :=
  mkResult 3 2 3 [100; 101; 102] [107; 0; 105] [[1]; []; [3]] 0 {[ 0 := 2 ]}.

Lemma report_spec_witness :
  returns (GetThroughtPutAndLatencyV2 (H := canonical_iter) demo_done) ∧
  ∀ r, GetThroughtPutAndLatencyV2 (H := canonical_iter) demo_done = Ret r →
    let s := rep_scan r in
    max_latency s = latency demo_done (max_latency_id s) ∧
    min_latency s = latency demo_done (min_latency_id s) ∧
    ∀ i, 0 ≤ i < Totalnum demo_done → confirmed demo_done i →
      min_latency s ≤ latency demo_done i ≤ max_latency s.
Proof.
  assert (shaped demo_done) as Hs.
  { split_and!; [reflexivity..|]. intros i Hi (c & Hc & Hn). simpl in Hi.
    assert (i = 0 ∨ i = 1 ∨ i = 2) as [->|[->| ->]] by lia; [reflexivity| |reflexivity].
    simpl in Hc. by injection Hc as <-. }
  destruct (report_spec demo_done (MI := canonical_iter) Hs) as [Hr Hx]. split; [|exact Hx].
  apply Hr. split; exists 0; (split; [simpl; lia|split; [by exists 107|reflexivity]]).
Defined.
