(* ===== verification/Account.v ===== *)
(** * Node accounts: signatures and the VRF built from them
    (src/node/account.go; src/core/timebeacon.go for the hash of a beacon).

    The elliptic-curve operations, Keccak and the ABI encoder belong to
    go-ethereum; they are the operations of the class [Crypto].  What the
    program relies on is the class [CryptoLaws]: a signature made with a key
    recovers the address of that key, and is 65 bytes long. *)
From S2P Require Import Prelude Core.
Local Open Scope Z_scope.

Class Crypto := {
  PrivateKey : Set;
  Ecrecover : bytes → bytes → option bytes;
  PubKey : Set;
  UnmarshalPubkey : bytes → option PubKey;
  PubkeyToAddress : PubKey → bytes;
  PublicKey : PrivateKey → PubKey;
  Sign : bytes → PrivateKey → option bytes;
  AbiEncode : TimeBeacon → bytes;
  Keccak256 : bytes → bytes
}.

Class CryptoLaws `{Crypto} := {
  sign_total : ∀ hash key, length hash = 32%nat → is_Some (Sign hash key);
  sign_length : ∀ hash key sig, Sign hash key = Some sig → length sig = 65%nat;
  sign_recovers : ∀ hash key sig, Sign hash key = Some sig →
    ∃ pub pk, Ecrecover hash sig = Some pub ∧ UnmarshalPubkey pub = Some pk ∧
      PubkeyToAddress pk = PubkeyToAddress (PublicKey key);
  keccak_length : ∀ bs, length (Keccak256 bs) = 32%nat;
  address_length : ∀ pk, length (PubkeyToAddress pk) = 20%nat
}.

Section account.
Context `{Cr : Crypto}.

(** [TimeBeacon.Hash] *)
Definition TimeBeacon_Hash (tb : TimeBeacon) : bytes := Keccak256 (AbiEncode tb).

Record W3Account := mkW3Account {
  privateKey : PrivateKey;
  accountAddr : bytes
}.

(** [NewW3Account] on the key that [newPrivateKey] drew. *)
Definition NewW3Account (key : PrivateKey) : W3Account :=
  mkW3Account key (PubkeyToAddress (PublicKey key)).

Definition SignHash (acc : W3Account) (hash : bytes) : go bytes :=
  or_exit "signHashFail" (Sign hash (privateKey acc)).

Definition VerifySignature (msgHash sig expected_addr : bytes) : go bool :=
  pubKeyBytes ← or_exit "ecrecover fail" (Ecrecover msgHash sig);
  pubkey ← or_exit "UnmarshalPubkey fail" (UnmarshalPubkey pubKeyBytes);
  Ret (bool_decide (PubkeyToAddress pubkey = expected_addr)).

Record VRFResult := mkVRFResult { RandomValue : bytes; Proof : bytes }.

Definition GenerateVRFOutput (acc : W3Account) (randSeed : bytes) : go VRFResult :=
  sig ← SignHash acc randSeed;
  Ret (mkVRFResult sig (accountAddr acc)).

(** [common.BytesToAddress]: the last twenty bytes, padded on the left. *)
Definition BytesToAddress (b : bytes) : bytes :=
  let b := drop (length b - 20) b in replicate (20 - length b) 0 ++ b.

Definition VerifyVRFOutput (vrfResult : VRFResult) (randSeed : bytes) : go bool :=
  VerifySignature randSeed (RandomValue vrfResult) (BytesToAddress (Proof vrfResult)).

(** ** What the operations guarantee *)
Definition wf_account (acc : W3Account) : Prop :=
  accountAddr acc = PubkeyToAddress (PublicKey (privateKey acc)).

Lemma NewW3Account_wf key : wf_account (NewW3Account key).
Proof. done. Qed.

Context `{CL : !CryptoLaws}.

Lemma SignHash_verifies acc hash :
  wf_account acc → length hash = 32%nat →
  ∃ sig, SignHash acc hash = Ret sig ∧ length sig = 65%nat ∧
    VerifySignature hash sig (accountAddr acc) = Ret true.
Proof.
  intros Hwf Hlen. unfold SignHash, VerifySignature.
  destruct (sign_total hash (privateKey acc) Hlen) as [sig Hs]. rewrite Hs.
  exists sig. split; [done|]. split; [by eapply sign_length|].
  destruct (sign_recovers _ _ _ Hs) as (pub & pk & -> & Hu & Ha). simpl. rewrite Hu. simpl.
  rewrite bool_decide_true; [done|]. by rewrite Ha, Hwf.
Qed.

Lemma BytesToAddress_id b : length b = 20%nat → BytesToAddress b = b.
Proof. intros Hb. unfold BytesToAddress. by rewrite Hb, Nat.sub_diag, drop_0, Hb, Nat.sub_diag. Qed.

(** The VRF is complete: the output an account generates for a seed is
    accepted by every verifier of that output on that seed. *)
Theorem vrf_roundtrip acc randSeed :
  wf_account acc → length randSeed = 32%nat →
  ∃ vrf, GenerateVRFOutput acc randSeed = Ret vrf ∧ VerifyVRFOutput vrf randSeed = Ret true.
Proof.
  intros Hwf Hlen. destruct (SignHash_verifies acc randSeed) as (sig & Hs & _ & Hv); [done..|].
  unfold GenerateVRFOutput, VerifyVRFOutput. rewrite Hs. simpl. eexists. split; [done|]. simpl.
  rewrite BytesToAddress_id; [done|]. rewrite Hwf. apply address_length.
Qed.
End account.
Arguments W3Account {_}.
Arguments mkW3Account {_}.

(** ** A concrete instance, used where a theorem is applied: a key is its
    address, and a signature is the address of its key in front of the hash,
    padded to 65 bytes. *)
Definition demo_pad (n : nat) (b : bytes) : bytes := take n (b ++ replicate n 0).

Lemma length_demo_pad n b : length (demo_pad n b) = n.
Proof. unfold demo_pad. rewrite length_take, length_app, length_replicate. lia. Qed.

Definition demo_crypto : Crypto := {|
  PrivateKey := bytes;
  Ecrecover hash sig := if bool_decide (take 32 (drop 20 sig) = hash) then Some (take 20 sig) else None;
  PubKey := bytes;
  UnmarshalPubkey := Some;
  PubkeyToAddress := demo_pad 20;
  PublicKey k := k;
  Sign hash k := if bool_decide (length hash = 32%nat)
                 then Some (demo_pad 65 (demo_pad 20 k ++ hash)) else None;
  AbiEncode tb := [tbShardID tb; tbHeight tb];
  Keccak256 := demo_pad 32
|}.

Lemma demo_pad_id n b : length b = n → demo_pad n b = b.
Proof. intros <-. unfold demo_pad. by rewrite take_app_length. Qed.

Lemma demo_sig_parts k hash :
  length hash = 32%nat →
  take 20 (demo_pad 65 (demo_pad 20 k ++ hash)) = demo_pad 20 k ∧
  take 32 (drop 20 (demo_pad 65 (demo_pad 20 k ++ hash))) = hash.
Proof.
  intros Hh. pose proof (length_demo_pad 20 k) as H20.
  generalize dependent (demo_pad 20 k). intros p H20. unfold demo_pad. rewrite <-app_assoc. split.
  - rewrite take_take. change (20 `min` 65)%nat with 20%nat.
    by rewrite take_app_le, take_ge by lia.
  - rewrite skipn_firstn_comm, take_take, drop_app_ge, H20 by lia. simpl.
    by rewrite drop_0, take_app_le, take_ge by lia.
Qed.

#[global] Instance demo_crypto_laws : @CryptoLaws demo_crypto.
Proof.
  split; simpl.
  - intros hash k Hl. rewrite bool_decide_true by done. eauto.
  - intros hash k sig. case_bool_decide; intros ?; simplify_eq. apply length_demo_pad.
  - intros hash k sig. case_bool_decide as Hl; intros ?; simplify_eq.
    destruct (demo_sig_parts k hash Hl) as [Ht Hd].
    rewrite Hd, bool_decide_true, Ht by done. exists (demo_pad 20 k), (demo_pad 20 k).
    split_and!; [done..|]. apply demo_pad_id, length_demo_pad.
  - intros. apply length_demo_pad.
  - intros. apply length_demo_pad.
Qed.

Lemma vrf_roundtrip_witness :
  ∃ vrf, GenerateVRFOutput (Cr := demo_crypto) (NewW3Account (Cr := demo_crypto) [7]) (replicate 32 5) = Ret vrf ∧
    VerifyVRFOutput (Cr := demo_crypto) vrf (replicate 32 5) = Ret true.
Proof. apply (vrf_roundtrip (Cr := demo_crypto)); [apply NewW3Account_wf|reflexivity]. Defined.
