(* ===== verification/MultiSign.v ===== *)
(** * Signing a time beacon (src/committee/multisign.go) and the contract
    that checks the signatures (src/beaconChain/shardContract.go).

    The leader of a committee asks every member for a signature and collects
    the replies until it has the configured number; the beacon chain's
    contract counts the valid ones again. *)
From S2P Require Import Prelude Core Account.
Local Open Scope Z_scope.

(** A channel of capacity one: [None] is the nil channel, [Some k] holds [k]
    tokens.  A send on a nil or full channel never completes here. *)
Definition chan_send (c : option Z) : go (option Z) :=
  match c with
  | Some 0 => Ret (Some 1)
  | _ => Halt (Blocked "MultiSignDone")
  end.

Record MultiSignData := mkMultiSignData {
  mSigners : list bytes;
  mSigs : list bytes;
  mVrfs : list bytes;
  MultiSignDone : option Z
}.

Record ComLeaderInitMultiSign := mkInitMultiSign {
  Seed : bytes;
  iSeedHeight : Z;
  Tb : TimeBeacon
}.

Record MultiSignReply := mkMultiSignReply {
  Request : ComLeaderInitMultiSign;
  PubAddress : bytes;
  Sig : bytes;
  VrfValue : bytes;
  rNodeInfo : NodeInfo
}.

(** [vrfResultIsGood]: a byte is never negative, so the test only panics on
    an empty value. *)
Definition vrfResultIsGood (val : bytes) : go bool :=
  v0 ← go_index val 0; Ret (bool_decide (v0 >= 0)).

(** [NewCommittee] starts with an empty record, hence a nil channel. *)
Definition multiSign_initial : MultiSignData := mkMultiSignData [] [] [] None.

(** [initMultiSign] up to the broadcast of the request. *)
Definition initMultiSign_begin (tb : TimeBeacon) (seed : bytes) (height : Z) :
    MultiSignData * ComLeaderInitMultiSign :=
  (mkMultiSignData [] [] [] (Some 0), mkInitMultiSign seed height tb).

(** [initMultiSign] from the wait on: with a token it assembles the signed
    beacon; [exiting] is the other case of the [select], which assembles what
    is there. *)
Definition initMultiSign_end (exiting : bool) (tb : TimeBeacon) (height : Z) (d : MultiSignData) :
    go (SignedTB * MultiSignData) :=
  let signed := mkSignedTB tb height (mSigners d) (mSigs d) (mVrfs d) in
  if exiting then Ret (signed, d)
  else match MultiSignDone d with
       | Some 1 => Ret (signed, mkMultiSignData (mSigners d) (mSigs d) (mVrfs d) (Some 0))
       | _ => Halt (Blocked "MultiSignDone")
       end.

Section multisign.
Context `{Cr : Crypto}.

Definition HandleMultiSignRequest (account : W3Account) (info : NodeInfo)
    (request : ComLeaderInitMultiSign) : go (option MultiSignReply) :=
  vrf ← GenerateVRFOutput account (Seed request);
  good ← vrfResultIsGood (RandomValue vrf);
  if good : bool then
    sig ← SignHash account (TimeBeacon_Hash (Tb request));
    Ret (Some (mkMultiSignReply request (accountAddr account) sig (RandomValue vrf) info))
  else Ret None.

Definition HandleMultiSignReply (MultiSignRequiredNum : Z) (d : MultiSignData)
    (reply : MultiSignReply) : go MultiSignData :=
  if bool_decide (len (mSigners d) >= MultiSignRequiredNum) then Ret d
  else
    ok ← VerifySignature (Seed (Request reply)) (VrfValue reply) (PubAddress reply);
    if negb ok then Ret d
    else
      good ← vrfResultIsGood (VrfValue reply);
      if negb good then Ret d
      else
        let tbHash := TimeBeacon_Hash (Tb (Request reply)) in
        ok ← VerifySignature tbHash (Sig reply) (PubAddress reply);
        if negb ok then Ret d
        else
          let signers := mSigners d ++ [PubAddress reply] in
          let sigs := mSigs d ++ [Sig reply] in
          let vrfs := mVrfs d ++ [VrfValue reply] in
          done ← (if bool_decide (len sigs = MultiSignRequiredNum)
                  then chan_send (MultiSignDone d) else Ret (MultiSignDone d));
          Ret (mkMultiSignData signers sigs vrfs done).

(** ** The contract of a shard: the loop over the signers from index [i]
    on, with the count so far. *)
Definition checkAddressValidity (address : bytes) : bool := true.

Fixpoint verify_loop (required : Z) (msgHash : bytes) (signers sigs : list bytes)
    (sig_num : Z) : go bool :=
  match signers with
  | [] => Ret false
  | signer :: signers =>
      sig ← go_index sigs 0;
      pubKeyBytes ← or_exit "shardContract recover Pubkey Fail." (Ecrecover msgHash sig);
      pubkey ← or_exit "UnmarshalPubkey fail." (UnmarshalPubkey pubKeyBytes);
      let recovered_addr := PubkeyToAddress pubkey in
      if negb (checkAddressValidity recovered_addr)
      then Halt (LogError "shardContract check address validity fail.")
      else if bool_decide (recovered_addr = signer)
      then if bool_decide (sig_num + 1 >= required) then Ret true
           else verify_loop required msgHash signers (drop 1 sigs) (sig_num + 1)
      else verify_loop required msgHash signers (drop 1 sigs) sig_num
  end.

Definition VerifyTimeBeacon (required : Z) (tb : SignedTB) : go bool :=
  verify_loop required (TimeBeacon_Hash (sTimeBeacon tb)) (Signers tb) (Sigs tb) 0.

(** ** The contract's count *)

(** A signature the contract accepts for a signer. *)
Definition valid_entry (h : bytes) (e : bytes * bytes) : Prop :=
  VerifySignature h e.2 e.1 = Ret true.

Lemma valid_entry_recovers h signer sig :
  valid_entry h (signer, sig) ↔
  ∃ pub pk, Ecrecover h sig = Some pub ∧ UnmarshalPubkey pub = Some pk ∧ PubkeyToAddress pk = signer.
Proof.
  unfold valid_entry, VerifySignature; simpl. split.
  - intros ?. go_inv. rewrite bool_decide_eq_true in *. eauto.
  - intros (pub & pk & -> & Hu & Ha). simpl. rewrite Hu. simpl. by rewrite bool_decide_true.
Qed.

#[global] Instance valid_entry_dec h e : Decision (valid_entry h e).
Proof. unfold valid_entry. apply _. Defined.

(** What a positive answer guarantees: that many entries are valid. *)
Lemma verify_loop_sound required h signers sigs n :
  verify_loop required h signers sigs n = Ret true →
  required ≤ n + len (filter (valid_entry h) (zip signers sigs)).
Proof.
  revert sigs n. induction signers as [|signer signers IH]; intros sigs n Hv; simpl in Hv; [done|].
  go_inv. destruct sigs as [|sig sigs]; simplify_eq/=. rewrite drop_0 in *.
  rewrite filter_cons. case_bool_decide as Ha.
  - rewrite decide_True by (apply valid_entry_recovers; eauto). rewrite len_cons.
    case_bool_decide as Hge; [pose proof (len_nonneg (filter (valid_entry h) (zip signers sigs))); lia|].
    apply IH in Hv. lia.
  - apply IH in Hv. case_decide; [rewrite len_cons|]; lia.
Qed.

(** Entries that are all valid are accepted once there are enough. *)
Lemma verify_loop_complete required h signers sigs n :
  length signers = length sigs → Forall (valid_entry h) (zip signers sigs) →
  n < required ≤ n + len signers → verify_loop required h signers sigs n = Ret true.
Proof.
  revert sigs n. induction signers as [|signer signers IH]; intros [|sig sigs] n Hl HF Hr; simplify_eq/=.
  { unfold len in Hr; simpl in Hr; lia. }
  apply Forall_cons in HF as [He HF]. rewrite len_cons in Hr.
  apply valid_entry_recovers in He as (pub & pk & -> & Hu & Ha). simpl. rewrite Hu. simpl.
  rewrite bool_decide_true by done. case_bool_decide; [done|]. rewrite drop_0. apply IH; [done..|lia].
Qed.

(** ** The leader's collection *)

(** What the collected data always looks like during a round for [r]. *)
Record collected (required : Z) (r : ComLeaderInitMultiSign) (d : MultiSignData) : Prop := {
  col_sigs : length (mSigs d) = length (mSigners d);
  col_vrfs : length (mVrfs d) = length (mSigners d);
  col_bound : len (mSigners d) ≤ required;
  col_valid : Forall (valid_entry (TimeBeacon_Hash (Tb r))) (zip (mSigners d) (mSigs d));
  col_done : MultiSignDone d = Some (if decide (len (mSigners d) = required) then 1 else 0)
}.

Lemma HandleMultiSignReply_collected required r d reply d' :
  collected required r d → Request reply = r →
  HandleMultiSignReply required d reply = Ret d' → collected required r d'.
Proof.
  intros Hc Hr Hh. assert (Hc' := Hc). destruct Hc' as [Hs Hv Hb Hval Hd]. unfold HandleMultiSignReply in Hh.
  case_bool_decide as Hfull; [by simplify_eq|].
  go_inv. destruct x; simplify_eq/=; [|done].
  go_inv. destruct x; simplify_eq/=; [|done].
  go_inv. destruct x; simplify_eq/=; [|done].
  go_inv. rename x into dn. match goal with H : (if _ then _ else _) = Ret dn |- _ => rename H into Hdn end.
  assert (len (mSigners d ++ [PubAddress reply]) = len (mSigners d) + 1) as Hl by by rewrite len_app.
  assert (len (mSigs d ++ [Sig reply]) = len (mSigners d) + 1) as Hl' by (unfold len; rewrite length_app; simpl; lia).
  split; simpl; rewrite ?length_app; simpl; try lia.
  - rewrite zip_with_app by done. apply Forall_app. split; [done|]. by repeat constructor.
  - rewrite Hl' in Hdn. rewrite Hl, Hd, decide_False in * by lia.
    case_bool_decide; simpl in Hdn; go_inv; case_decide; done || lia.
Qed.

Lemma initMultiSign_begin_collected required tb seed height :
  0 < required →
  collected required (initMultiSign_begin tb seed height).2 (initMultiSign_begin tb seed height).1.
Proof. intros. split; simpl; try done; unfold len; simpl; [lia|]. by rewrite decide_False by lia. Qed.

(** A round: any sequence of replies to the leader's own request. *)
Lemma round_collected required r d replies d' :
  collected required r d → Forall (λ reply, Request reply = r) replies →
  go_fold (HandleMultiSignReply required) d replies = Ret d' → collected required r d'.
Proof.
  intros Hc HF. apply (go_fold_inv _ (collected required r)); [done|].
  intros x reply y Hin Hx. rewrite Forall_forall in HF.
  eapply HandleMultiSignReply_collected; [done|by apply HF].
Qed.

(** C24. Soundness of a signing round: whatever replies to the leader's
    request arrive, in whatever order, once the round is signalled as done
    the assembled beacon carries exactly the required number of signatures
    and the shard's contract accepts it. *)
Theorem multisign_sound required tb seed height replies d signed d' :
  0 < required →
  let '(d0, r) := initMultiSign_begin tb seed height in
  Forall (λ reply, Request reply = r) replies →
  go_fold (HandleMultiSignReply required) d0 replies = Ret d →
  initMultiSign_end false tb height d = Ret (signed, d') →
  len (Signers signed) = required ∧ VerifyTimeBeacon required signed = Ret true.
Proof.
  intros Hreq HF Hfold Hend.
  destruct (round_collected required (mkInitMultiSign seed height tb) _ replies d
    (initMultiSign_begin_collected required tb seed height Hreq) HF Hfold) as [Hs Hv Hb Hval Hd].
  unfold initMultiSign_end in Hend. rewrite Hd in Hend. case_decide as Hlen; simplify_eq/=.
  split; [done|]. apply verify_loop_complete; [done|done|]. simpl. lia.
Qed.

(** ** Honest replies *)
Context `{CL : !CryptoLaws}.

Definition honest_reply (r : ComLeaderInitMultiSign) (reply : MultiSignReply) : Prop :=
  ∃ account info, wf_account account ∧ HandleMultiSignRequest account info r = Ret (Some reply).

Lemma honest_reply_valid r reply :
  length (Seed r) = 32%nat → honest_reply r reply →
  Request reply = r ∧ VerifySignature (Seed r) (VrfValue reply) (PubAddress reply) = Ret true ∧
  vrfResultIsGood (VrfValue reply) = Ret true ∧
  valid_entry (TimeBeacon_Hash (Tb r)) (PubAddress reply, Sig reply).
Proof.
  intros Hl (acc & info & Hwf & Hh). unfold HandleMultiSignRequest, GenerateVRFOutput in Hh.
  destruct (SignHash_verifies acc (Seed r)) as (vrf & Hs & Hvl & Hv); [done..|].
  destruct (SignHash_verifies acc (TimeBeacon_Hash (Tb r))) as (sig & Hs' & _ & Hv'); [done|apply keccak_length|].
  rewrite Hs in Hh. simpl in Hh. apply go_bind_Ret in Hh as (good & Hg & Hh).
  destruct good; [|done]. rewrite Hs' in Hh. simplify_eq/=. done.
Qed.

Lemma HandleMultiSignReply_honest required r d reply :
  collected required r d → length (Seed r) = 32%nat → honest_reply r reply →
  ∃ d', HandleMultiSignReply required d reply = Ret d' ∧
    len (mSigners d') = Z.min required (len (mSigners d) + 1).
Proof.
  intros [Hs Hvr Hb Hval Hd] Hl Hh. destruct (honest_reply_valid r reply) as (Hr & Hv & Hg & He); [done..|].
  unfold HandleMultiSignReply. rewrite Hr. case_bool_decide as Hfull.
  { exists d. split; [done|lia]. }
  rewrite Hv; simpl. rewrite Hg; simpl. unfold valid_entry in He; simpl in He. rewrite He; simpl.
  rewrite Hd, decide_False by lia. simpl.
  case_bool_decide; simpl; eexists; (split; [done|]); simpl; rewrite len_app; unfold len at 2; simpl; lia.
Qed.

Lemma HandleMultiSignReply_signers required d reply d' :
  Forall (eq (PubAddress reply)) (mSigners d) → HandleMultiSignReply required d reply = Ret d' →
  Forall (eq (PubAddress reply)) (mSigners d').
Proof.
  intros HF. unfold HandleMultiSignReply. intros Hh.
  repeat (split_guard || go_inv); try done; simpl; apply Forall_app; by repeat constructor.
Qed.

Lemma round_completes required r k d :
  length (Seed r) = 32%nat → collected required r d → len (mSigners d) + len k >= required →
  Forall (honest_reply r) k →
  ∃ d', go_fold (HandleMultiSignReply required) d k = Ret d' ∧ collected required r d' ∧
    len (mSigners d') = required.
Proof.
  intros Hl. revert d. induction k as [|reply k IH]; intros d Hc Hk Hall.
  - exists d. split_and!; [done..|]. destruct Hc. unfold len at 2 in Hk; simpl in Hk. lia.
  - apply Forall_cons in Hall as [Hh Hall]. rewrite len_cons in Hk.
    destruct (HandleMultiSignReply_honest required r d reply) as (d1 & Hd1 & Hlen); [done..|].
    assert (collected required r d1) as Hc1.
    { eapply HandleMultiSignReply_collected; [done| |done]. by apply honest_reply_valid. }
    simpl. rewrite Hd1. simpl. apply IH; [done| |done]. pose proof (len_nonneg k). lia.
Qed.

Lemma round_accepted required tb seed height replies :
  0 < required ≤ len replies → length seed = 32%nat →
  Forall (honest_reply (mkInitMultiSign seed height tb)) replies →
  ∃ d signed d', go_fold (HandleMultiSignReply required) (initMultiSign_begin tb seed height).1 replies = Ret d ∧
    initMultiSign_end false tb height d = Ret (signed, d') ∧
    VerifyTimeBeacon required signed = Ret true.
Proof.
  intros [Hreq Hen] Hl HF.
  destruct (round_completes required (mkInitMultiSign seed height tb) replies
    (mkMultiSignData [] [] [] (Some 0))) as (d & Hd & [Hs Hv Hb Hval Hdone] & Hlen); [done| | |done|].
  - by apply (initMultiSign_begin_collected required tb seed height).
  - unfold len at 1; simpl. lia.
  - rewrite decide_True in Hdone by done. exists d. unfold initMultiSign_end. rewrite Hdone.
    eexists _, _. split_and!; [done..|]. apply verify_loop_complete; [done|done|]. simpl. lia.
Qed.

(** Completeness of a signing round: as soon as the required number of
    well-formed accounts have answered the leader's request, the leader's
    collection is complete, the wait ends and the contract accepts the
    beacon. *)
Theorem multisign_complete required tb seed height replies :
  0 < required ≤ len replies → length seed = 32%nat →
  let '(d0, r) := initMultiSign_begin tb seed height in
  Forall (honest_reply r) replies →
  ∃ d signed d', go_fold (HandleMultiSignReply required) d0 replies = Ret d ∧
    initMultiSign_end false tb height d = Ret (signed, d') ∧
    VerifyTimeBeacon required signed = Ret true.
Proof. intros Hr Hl HF. exact (round_accepted required tb seed height replies Hr Hl HF). Qed.

(** C39. Neither the leader nor the contract compares signers: for every
    required number, one account that answers the request that many times
    is enough to have a beacon accepted. *)
Theorem one_signer_suffices required tb seed height account info reply :
  0 < required → length seed = 32%nat → wf_account account →
  HandleMultiSignRequest account info (initMultiSign_begin tb seed height).2 = Ret (Some reply) →
  ∃ d signed d',
    go_fold (HandleMultiSignReply required) (initMultiSign_begin tb seed height).1
      (replicate (Z.to_nat required) reply) = Ret d ∧
    initMultiSign_end false tb height d = Ret (signed, d') ∧
    Forall (eq (PubAddress reply)) (Signers signed) ∧
    VerifyTimeBeacon required signed = Ret true.
Proof.
  intros Hreq Hl Hwf Hh.
  destruct (round_accepted required tb seed height (replicate (Z.to_nat required) reply))
    as (d & signed & d' & Hd & He & Hv); [|done|by apply Forall_replicate; exists account, info|].
  { unfold len. rewrite length_replicate. lia. }
  exists d, signed, d'. split_and!; [done..| |done].
  assert (Forall (eq (PubAddress reply)) (mSigners d)) as Hs.
  { eapply (go_fold_inv _ (λ d, Forall (eq (PubAddress reply)) (mSigners d))); [| |exact Hd]; [constructor|].
    intros x b y ->%elem_of_replicate_inv Hx Hy. by apply (HandleMultiSignReply_signers required x reply). }
  unfold initMultiSign_end in He. destruct (MultiSignDone d) as [[|[]|]|]; by simplify_eq/=.
Qed.

(** What an accepted beacon proves: when its signers are pairwise
    different, at least the required number of different accounts have each
    produced a signature that recovers to them. *)
Theorem VerifyTimeBeacon_quorum required tb :
  NoDup (Signers tb) → VerifyTimeBeacon required tb = Ret true →
  ∃ vs, NoDup vs ∧ vs ⊆ Signers tb ∧ required ≤ len vs ∧
    ∀ v, v ∈ vs → ∃ sig, sig ∈ Sigs tb ∧
      VerifySignature (TimeBeacon_Hash (sTimeBeacon tb)) sig v = Ret true.
Proof.
  intros Hnd Hv%verify_loop_sound.
  set (es := filter (valid_entry (TimeBeacon_Hash (sTimeBeacon tb))) (zip (Signers tb) (Sigs tb))) in *.
  assert (es.*1 `sublist_of` Signers tb) as Hsub.
  { trans ((zip (Signers tb) (Sigs tb)).*1).
    - apply fmap_sublist, sublist_filter.
    - clear. generalize (Sigs tb). induction (Signers tb) as [|v vs IH]; intros [|s ss]; simpl;
        [done..|by apply sublist_nil_l|by apply sublist_skip]. }
  exists es.*1. split_and!.
  - by eapply sublist_NoDup.
  - intros v Hin. by eapply elem_of_sublist.
  - unfold len in *. rewrite length_fmap. lia.
  - intros v ([v' sig] & -> & [Hval Hin]%list_elem_of_filter)%list_elem_of_fmap. exists sig.
    split; [by eapply elem_of_zip_r|done].
Qed.
End multisign.

(** ** Witnesses: two members answer a request for a beacon. *)
Section demo.
#[local] Existing Instance demo_crypto.

Definition demo_account (key : bytes) : W3Account := NewW3Account (Cr := demo_crypto) key.

Definition demo_tb : TimeBeacon := mkTimeBeacon 1 7 "bh" "th" "sh".
Definition demo_seed : bytes := replicate 32 3.
Definition demo_info : NodeInfo := mkNodeInfo 1 1 2 "addr".
Definition demo_request : ComLeaderInitMultiSign := mkInitMultiSign demo_seed 40 demo_tb.
Definition demo_reply (key : bytes) : MultiSignReply :=
  match HandleMultiSignRequest (demo_account key) demo_info demo_request with
  | Ret (Some reply) => reply
  | _ => mkMultiSignReply demo_request [] [] [] demo_info
  end.

Lemma demo_reply_made key :
  key = [1] ∨ key = [2] →
  HandleMultiSignRequest (demo_account key) demo_info demo_request = Ret (Some (demo_reply key)).
Proof. intros [->| ->]; vm_compute; reflexivity. Qed.

Lemma demo_honest : Forall (honest_reply demo_request) [demo_reply [1]; demo_reply [2]].
Proof.
  repeat constructor.
  - exists (demo_account [1]), demo_info. split; [done|apply demo_reply_made; auto].
  - exists (demo_account [2]), demo_info. split; [done|apply demo_reply_made; auto].
Qed.

Lemma multisign_sound_witness :
  ∃ d signed d', go_fold (HandleMultiSignReply 2) (initMultiSign_begin demo_tb demo_seed 40).1
      [demo_reply [1]; demo_reply [2]] = Ret d ∧
    initMultiSign_end false demo_tb 40 d = Ret (signed, d') ∧
    len (Signers signed) = 2 ∧ VerifyTimeBeacon 2 signed = Ret true.
Proof.
  eexists _, _, _. split; [vm_compute; reflexivity|]. split; [vm_compute; reflexivity|].
  eapply (multisign_sound 2 demo_tb demo_seed 40 [demo_reply [1]; demo_reply [2]]).
  - lia.
  - repeat constructor; vm_compute; reflexivity.
  - vm_compute; reflexivity.
  - vm_compute; reflexivity.
Defined.

Lemma multisign_complete_witness :
  ∃ d signed d', go_fold (HandleMultiSignReply 2) (initMultiSign_begin demo_tb demo_seed 40).1
      [demo_reply [1]; demo_reply [2]] = Ret d ∧
    initMultiSign_end false demo_tb 40 d = Ret (signed, d') ∧
    VerifyTimeBeacon 2 signed = Ret true.
Proof.
  apply (multisign_complete 2 demo_tb demo_seed 40 [demo_reply [1]; demo_reply [2]]).
  - unfold len; simpl; lia.
  - reflexivity.
  - apply demo_honest.
Defined.

Lemma one_signer_suffices_witness :
  ∃ d signed d', go_fold (HandleMultiSignReply 3) (initMultiSign_begin demo_tb demo_seed 40).1
      (replicate 3 (demo_reply [1])) = Ret d ∧
    initMultiSign_end false demo_tb 40 d = Ret (signed, d') ∧
    Forall (eq (PubAddress (demo_reply [1]))) (Signers signed) ∧
    VerifyTimeBeacon 3 signed = Ret true.
Proof.
  apply (one_signer_suffices 3 demo_tb demo_seed 40 (demo_account [1]) demo_info (demo_reply [1])).
  - lia.
  - reflexivity.
  - reflexivity.
  - apply demo_reply_made. auto.
Defined.

Definition demo_signed : SignedTB :=
  mkSignedTB demo_tb 40 [PubAddress (demo_reply [1]); PubAddress (demo_reply [2])]
    [Sig (demo_reply [1]); Sig (demo_reply [2])] [].

Lemma VerifyTimeBeacon_quorum_witness :
  ∃ vs, NoDup vs ∧ vs ⊆ Signers demo_signed ∧ 2 ≤ len vs ∧
    ∀ v, v ∈ vs → ∃ sig, sig ∈ Sigs demo_signed ∧
      VerifySignature (TimeBeacon_Hash (sTimeBeacon demo_signed)) sig v = Ret true.
Proof. apply (VerifyTimeBeacon_quorum 2 demo_signed); [by_compute|vm_compute; reflexivity]. Defined.
End demo.
