(* ===== verification/Beacon.v ===== *)
(** * The beacon chain (src/beaconChain/beaconChain.go, block.go,
    contract.go, ethChainInterface.go).

    Every process runs a [BeaconChain].  In mode 0 it simulates a chain: it
    collects signed beacons, verifies them and confirms them in a block per
    tick.  In modes 1 and 2 it follows an Ethereum chain: beacons are sent to
    a contract, confirmation events come back over a channel, and each tick
    drains the channel and emits a block for an Ethereum height as soon as an
    event of a later height shows that the height is complete.  The locks
    make each operation one step; a tick's argument is the batch of events in
    the channel at that moment and the wall clock. *)
From S2P Require Import Prelude Core Account MultiSign.
Local Open Scope Z_scope.

Record ConfirmedTB := mkConfirmedTB {
  cTimeBeacon : TimeBeacon;
  ConfirmTime : Z;
  cConfirmHeight : Z
}.

Record TBBlock := mkTBBlock {
  Time : Z;
  Height : Z;
  Tbs : list (list ConfirmedTB)
}.

(** [eth_chain.Event], as far as the chain reads it. *)
Record Event := mkEvent { Eth_height : Z; eShardID : Z; eHeight : Z }.

(** [geth_tbs_new]: beacons by Ethereum height and shard. *)
Abbreviation eth_index := (gmap Z (gmap Z (list TimeBeacon))).

Record BeaconChain := mkBeaconChain {
  mode : Z;
  shardNum : Z;
  Height2Confirm : Z;
  MultiSignRequiredNum : Z;
  tbs : gmap Z (list ConfirmedTB);
  tbs_new : gmap Z (list SignedTB);
  height : Z;
  geth_tbs_new : eth_index;
  addrs : list (list bytes);
  tbBlocks : gmap Z TBBlock;
  genesisTBs : gmap Z TimeBeacon
}.

(** Assignments to the fields that change. *)
Definition set_tbs (v : gmap Z (list ConfirmedTB)) (c : BeaconChain) : BeaconChain :=
  mkBeaconChain (mode c) (shardNum c) (Height2Confirm c) (MultiSignRequiredNum c) v (tbs_new c)
    (height c) (geth_tbs_new c) (addrs c) (tbBlocks c) (genesisTBs c).
Definition set_tbs_new (v : gmap Z (list SignedTB)) (c : BeaconChain) : BeaconChain :=
  mkBeaconChain (mode c) (shardNum c) (Height2Confirm c) (MultiSignRequiredNum c) (tbs c) v
    (height c) (geth_tbs_new c) (addrs c) (tbBlocks c) (genesisTBs c).
Definition set_height (v : Z) (c : BeaconChain) : BeaconChain :=
  mkBeaconChain (mode c) (shardNum c) (Height2Confirm c) (MultiSignRequiredNum c) (tbs c) (tbs_new c)
    v (geth_tbs_new c) (addrs c) (tbBlocks c) (genesisTBs c).
Definition set_geth (v : eth_index) (c : BeaconChain) : BeaconChain :=
  mkBeaconChain (mode c) (shardNum c) (Height2Confirm c) (MultiSignRequiredNum c) (tbs c) (tbs_new c)
    (height c) v (addrs c) (tbBlocks c) (genesisTBs c).
Definition set_addrs (v : list (list bytes)) (c : BeaconChain) : BeaconChain :=
  mkBeaconChain (mode c) (shardNum c) (Height2Confirm c) (MultiSignRequiredNum c) (tbs c) (tbs_new c)
    (height c) (geth_tbs_new c) v (tbBlocks c) (genesisTBs c).
Definition set_tbBlocks (v : gmap Z TBBlock) (c : BeaconChain) : BeaconChain :=
  mkBeaconChain (mode c) (shardNum c) (Height2Confirm c) (MultiSignRequiredNum c) (tbs c) (tbs_new c)
    (height c) (geth_tbs_new c) (addrs c) v (genesisTBs c).
Definition set_genesisTBs (v : gmap Z TimeBeacon) (c : BeaconChain) : BeaconChain :=
  mkBeaconChain (mode c) (shardNum c) (Height2Confirm c) (MultiSignRequiredNum c) (tbs c) (tbs_new c)
    (height c) (geth_tbs_new c) (addrs c) (tbBlocks c) v.

(** [NewTBChain]; [NewContract] gives every shard the same threshold. *)
Definition NewTBChain (Mode Height2Confirm required shardNum : Z) : BeaconChain :=
  mkBeaconChain Mode shardNum Height2Confirm required ∅ ∅ 0 ∅
    (replicate (Z.to_nat shardNum) []) ∅ ∅.

(** Calls to package [eth_chain]: transactions sent to the contract. *)
Inductive eth_call :=
  | AddTB (tb : SignedTB) (nodeID : Z)
  | AdjustRecordedAddrs (comID : Z) (addrs vrfs : list bytes) (seedHeight nodeID : Z)
  | DeployContract (genesis : list TimeBeacon) (addrs : list (list bytes)).

(** [m[k]] of a map of slices: the nil slice when absent. *)
Definition slot {A} (m : gmap Z (list A)) (k : Z) : list A := default [] (m !! k).

(** ** Submitting a beacon *)
Definition AddGenesisTB (now : Z) (signedTb : SignedTB) (c : BeaconChain) : BeaconChain :=
  let tb := sTimeBeacon signedTb in
  set_tbs (<[tbShardID tb := slot (tbs c) (tbShardID tb) ++ [mkConfirmedTB tb now 0]]> (tbs c)) c.

(** A wrong height is only warned about. *)
Definition AddTimeBeacon2SimulationChain (now : Z) (tb : SignedTB) (c : BeaconChain) : BeaconChain :=
  if bool_decide (tbHeight (sTimeBeacon tb) = 0) then AddGenesisTB now tb c
  else
    let s := tbShardID (sTimeBeacon tb) in
    set_tbs_new (<[s := slot (tbs_new c) s ++ [tb]]> (tbs_new c)) c.

Section with_iter.
Context `{MI : MapIter}.

Definition AddEthChainGenesisTB (tb : TimeBeacon) (c : BeaconChain) : go (BeaconChain * list eth_call) :=
  let c := set_genesisTBs (<[tbShardID tb := tb]> (genesisTBs c)) c in
  if bool_decide (Z.of_nat (size (genesisTBs c)) = shardNum c) then
    arr ← go_fold (λ arr '(shardID, tb), go_store arr shardID tb)
            (replicate (Z.to_nat (shardNum c)) (mkTimeBeacon 0 0 "" "" ""))
            (map_iter (genesisTBs c));
    Ret (c, [DeployContract arr (addrs c)])
  else Ret (c, []).

Definition AddTimeBeacon2EthChain (signedtb : SignedTB) (nodeID : Z) (c : BeaconChain) :
    go (BeaconChain * list eth_call) :=
  if bool_decide (tbHeight (sTimeBeacon signedtb) = 0)
  then AddEthChainGenesisTB (sTimeBeacon signedtb) c
  else Ret (c, [AddTB signedtb nodeID]).

Definition AddTimeBeacon (now : Z) (tb : SignedTB) (nodeID : Z) (c : BeaconChain) :
    go (BeaconChain * list eth_call) :=
  if bool_decide (mode c = 0) then Ret (AddTimeBeacon2SimulationChain now tb c, [])
  else if bool_decide (mode c = 1 ∨ mode c = 2) then AddTimeBeacon2EthChain tb nodeID c
  else Halt (LogError "unknown beaconChain mode!").

Definition SetAddrs (a vrfs : list bytes) (seedHeight comID nodeID : Z) (c : BeaconChain) :
    go (BeaconChain * list eth_call) :=
  if bool_decide (mode c = 1 ∨ mode c = 2) then
    arr ← go_store (addrs c) comID a;
    Ret (set_addrs arr c,
         if bool_decide (seedHeight > 0) then [AdjustRecordedAddrs comID a vrfs seedHeight nodeID] else [])
  else Ret (c, []).

Definition GetTimeBeacon (shardID h : Z) (c : BeaconChain) : option ConfirmedTB :=
  if bool_decide (h >= len (slot (tbs c) shardID)) then None
  else slot (tbs c) shardID !! Z.to_nat h.

(** ** The simulated chain's block *)
Section simulation.
Context `{Cr : Crypto}.

(** The beacons of one shard: verified, confirmed, and put in the block and
    in the chain. *)
Definition sim_shard_step (now required h : Z) (acc : list (list ConfirmedTB) * gmap Z (list ConfirmedTB))
    (kv : Z * list SignedTB) : go (list (list ConfirmedTB) * gmap Z (list ConfirmedTB)) :=
  let '(confirmTBs, all) := acc in
  let '(shardID, new) := kv in
  _ ← go_index confirmTBs shardID;
  confirmTBs ← go_fold (λ confirmTBs signedTb,
      ok ← VerifyTimeBeacon required signedTb;
      if negb ok then Halt (LogError "TBchain verify time beacon fail.")
      else
        old ← go_index confirmTBs shardID;
        go_store confirmTBs shardID (old ++ [mkConfirmedTB (sTimeBeacon signedTb) now h]))
    confirmTBs new;
  mine ← go_index confirmTBs shardID;
  Ret (confirmTBs, <[shardID := slot all shardID ++ mine]> all).

Definition generateSimulationChainBlock (now : Z) (c : BeaconChain) : go (TBBlock * BeaconChain) :=
  let h := u64 (height c + 1) in
  '(confirmTBs, all) ← go_fold (sim_shard_step now (MultiSignRequiredNum c) h)
      (replicate (Z.to_nat (shardNum c)) [], tbs c) (map_iter (tbs_new c));
  Ret (mkTBBlock now h confirmTBs, set_tbs_new ∅ (set_tbs all (set_height h c))).
End simulation.

(** ** The Ethereum chain's block *)

(** The smallest height still buffered, 0 standing for none. *)
Definition min_step (start : Z) (h : Z) : Z :=
  if bool_decide (start = 0) then h
  else if bool_decide (h < start) then h else start.

Definition add_event (m : eth_index) (e : Event) : eth_index :=
  let by_shard := default ∅ (m !! Eth_height e) in
  <[Eth_height e := <[eShardID e := slot by_shard (eShardID e) ++
      [mkTimeBeacon (eShardID e) (eHeight e) "" "" ""]]> by_shard]> m.

(** The drain of the event channel. *)
Definition drain_step (acc : Z * eth_index * bool) (e : Event) : Z * eth_index * bool :=
  let '(start, m, to_pack) := acc in
  let start := if bool_decide (start = 0) then Eth_height e else start in
  (start, add_event m e, if bool_decide (Eth_height e > start) then true else to_pack).

Definition eth_shard_step (now h : Z) (acc : list (list ConfirmedTB) * gmap Z (list ConfirmedTB))
    (kv : Z * list TimeBeacon) : go (list (list ConfirmedTB) * gmap Z (list ConfirmedTB)) :=
  let '(confirmTBs, all) := acc in
  let '(shardID, new) := kv in
  confirmTBs ← go_fold (bucket_step (λ _, shardID) (λ tb, mkConfirmedTB tb now h)) confirmTBs new;
  mine ← go_index confirmTBs shardID;
  Ret (confirmTBs, <[shardID := slot all shardID ++ mine]> all).

Definition generateEthChainBlock (now : Z) (events : list Event) (c : BeaconChain) :
    go (option TBBlock * BeaconChain) :=
  let start := foldl min_step 0 (map_iter (geth_tbs_new c)).*1 in
  let '(start, m, to_pack) := foldl drain_step (start, geth_tbs_new c, false) events in
  let c := set_geth m c in
  if negb to_pack then Ret (None, c)
  else
    '(confirmTBs, all) ← go_fold (eth_shard_step now (height c))
        (replicate (Z.to_nat (shardNum c)) [], tbs c)
        (map_iter (default ∅ (m !! start)));
    Ret (Some (mkTBBlock now start confirmTBs), set_geth (delete start m) (set_tbs all c)).

(** [GenerateBlock], one tick of [loop]. *)
Definition GenerateBlock `{Cr : Crypto} (now : Z) (events : list Event) (c : BeaconChain) :
    go (option TBBlock * BeaconChain) :=
  if bool_decide (mode c = 0) then
    '(b, c) ← generateSimulationChainBlock now c; Ret (Some b, c)
  else if bool_decide (mode c = 1 ∨ mode c = 2) then generateEthChainBlock now events c
  else Halt (LogError "unknown mode").
End with_iter.

(** [toPushBlock]: the block pushed to the client and the committees, if
    any.  The subtraction is on [uint64]. *)
Definition toPushBlock (block : TBBlock) (c : BeaconChain) : go (option TBBlock * BeaconChain) :=
  match tbBlocks c !! Height block with
  | Some _ => Halt (LogError "contradictory tbchain block have same height.")
  | None =>
      let c := set_tbBlocks (<[Height block := block]> (tbBlocks c)) c in
      Ret (tbBlocks c !! u64 (Height block - Height2Confirm c), c)
  end.
Arguments sim_shard_step : simpl never.
Arguments eth_shard_step : simpl never.
Arguments add_event : simpl never.

(** ** The buffered events as a list

    The buffer of the Ethereum mode is determined by the events that are in
    it, in their order of arrival. *)
Definition index_events (E : list Event) : eth_index := foldl add_event ∅ E.
Definition at_height (h : Z) (E : list Event) : list Event := filter (λ e, Eth_height e = h) E.
Definition at_shard (s : Z) (E : list Event) : list Event := filter (λ e, eShardID e = s) E.
Definition event_tb (e : Event) : TimeBeacon := mkTimeBeacon (eShardID e) (eHeight e) "" "" "".

(** The beacons of one height by shard, with no entry for an empty slice. *)
Definition shard_map (E : list Event) : gmap Z (list TimeBeacon) :=
  foldl (λ m e, <[eShardID e := slot m (eShardID e) ++ [event_tb e]]> m) ∅ E.

Lemma shard_map_snoc E e :
  shard_map (E ++ [e]) =
  <[eShardID e := slot (shard_map E) (eShardID e) ++ [event_tb e]]> (shard_map E).
Proof. unfold shard_map. by rewrite foldl_app. Qed.

Lemma slot_shard_map E s : slot (shard_map E) s = event_tb <$> at_shard s E.
Proof.
  induction E as [|e E IH] using rev_ind; [done|].
  unfold at_shard in *. rewrite shard_map_snoc, filter_app, fmap_app. unfold slot at 1.
  rewrite lookup_insert, (filter_cons _ e). case_decide as Hs; simpl.
  - subst. by rewrite IH.
  - by rewrite app_nil_r.
Qed.

Lemma shard_map_dom E s : is_Some (shard_map E !! s) ↔ ∃ e, e ∈ E ∧ eShardID e = s.
Proof.
  induction E as [|e E IH] using rev_ind.
  - split; [by intros [? ?]|]. intros (? & ?%elem_of_nil & _). done.
  - rewrite shard_map_snoc, lookup_insert_is_Some'. rewrite IH. set_solver.
Qed.

Lemma index_events_lookup E h :
  index_events E !! h =
  match at_height h E with [] => None | l => Some (shard_map l) end.
Proof.
  unfold index_events, at_height. induction E as [|e E IH] using rev_ind; [done|].
  rewrite foldl_app, filter_app. simpl. rewrite filter_cons, filter_nil.
  generalize dependent (foldl add_event ∅ E). intros m IH. unfold add_event.
  destruct (decide (Eth_height e = h)) as [<-|Hne].
  - rewrite lookup_insert, decide_True by done. rewrite IH.
    destruct (filter (λ e0, Eth_height e0 = Eth_height e) E) as [|e1 l] eqn:HE; [done|].
    simpl. f_equal. change (e1 :: l ++ [e]) with ((e1 :: l) ++ [e]). by rewrite shard_map_snoc.
  - rewrite app_nil_r, lookup_insert_ne by done. apply IH.
Qed.

Lemma index_events_delete E h :
  delete h (index_events E) = index_events (filter (λ e, Eth_height e ≠ h) E).
Proof.
  apply map_eq. intros k. rewrite lookup_delete, !index_events_lookup. unfold at_height.
  rewrite list_filter_filter. case_decide as Hk.
  - subst. rewrite filter_none; naive_solver.
  - rewrite (list_filter_iff (λ x, Eth_height x = k) (λ x, Eth_height x = k ∧ Eth_height x ≠ h))
      by naive_solver. done.
Qed.

(** ** The order of events

    The Ethereum node delivers the events of a contract in the order of the
    blocks that contain them. *)
Definition ordered (E : list Event) : Prop :=
  StronglySorted (λ a b, Eth_height a ≤ Eth_height b) E ∧ Forall (λ e, 0 < Eth_height e) E.

Lemma ordered_app E F :
  ordered (E ++ F) ↔ ordered E ∧ ordered F ∧ ∀ a b, a ∈ E → b ∈ F → Eth_height a ≤ Eth_height b.
Proof. unfold ordered. rewrite StronglySorted_app, Forall_app. naive_solver. Qed.

Lemma min_step_pos start h :
  0 < h → 0 ≤ start → 0 < min_step start h ∧ min_step start h ≤ h ∧
  (min_step start h = h ∨ min_step start h = start) ∧ (0 < start → min_step start h ≤ start).
Proof. unfold min_step. intros. repeat case_bool_decide; lia. Qed.

Lemma min_fold_pos l start :
  Forall (λ h, 0 < h) l → 0 < start →
  let r := foldl min_step start l in
  (r = start ∨ r ∈ l) ∧ r ≤ start ∧ ∀ h, h ∈ l → r ≤ h.
Proof.
  revert start. induction l as [|h l IH]; intros start HF Hs; simpl.
  - split_and!; [by left|lia|]. by intros h ?%elem_of_nil.
  - apply Forall_cons in HF as [Hh HF].
    destruct (min_step_pos start h) as (Hp & Hle & Hor & Hst); [lia..|].
    destruct (IH (min_step start h)) as (Hin & Hle' & Hall); [done..|]. split_and!.
    + destruct Hin as [Heq|Hin]; [|right; by right]. rewrite Heq. destruct Hor as [->| ->]; [right; by left|by left].
    + specialize (Hst Hs). lia.
    + intros k [->|Hk]%elem_of_cons; [lia|by apply Hall].
Qed.

(** The scan of the buffer's keys finds their minimum. *)
Lemma min_fold_spec l :
  Forall (λ h, 0 < h) l → l ≠ [] →
  let r := foldl min_step 0 l in r ∈ l ∧ ∀ h, h ∈ l → r ≤ h.
Proof.
  destruct l as [|h l]; [done|]. intros [Hh HF]%Forall_cons _. simpl.
  change (min_step 0 h) with h.
  destruct (min_fold_pos l h) as (Hin & Hle & Hall); [done..|]. split.
  - destruct Hin as [->|?]; [by left|by right].
  - intros k [->|Hk]%elem_of_cons; [done|by apply Hall].
Qed.

Lemma index_events_dom E h : is_Some (index_events E !! h) ↔ ∃ e, e ∈ E ∧ Eth_height e = h.
Proof.
  rewrite index_events_lookup. unfold at_height. split.
  - destruct (filter _ E) as [|e l] eqn:HE; [by intros [? ?]|]. intros _. exists e.
    assert (e ∈ filter (λ e, Eth_height e = h) E) as Hin by (rewrite HE; by left).
    apply list_elem_of_filter in Hin. naive_solver.
  - intros (e & Hin & Heq). destruct (filter _ E) as [|e' l] eqn:HE; [|by eauto].
    assert (e ∈ filter (λ e, Eth_height e = h) E) as Hin' by by apply list_elem_of_filter.
    rewrite HE in Hin'. by apply elem_of_nil in Hin'.
Qed.

Section eth.
Context `{MI : MapIter}.

Lemma start_height E :
  ordered E →
  foldl min_step 0 (map_iter (index_events E)).*1 = from_option Eth_height 0 (head E).
Proof.
  intros [Hs Hp]. destruct E as [|e0 E].
  { simpl. change (index_events []) with (∅ : eth_index).
    assert (map_iter (∅ : eth_index) = []) as ->; [|done].
    apply Permutation_nil_r. by rewrite map_iter_perm, map_to_list_empty. }
  simpl. set (l := (map_iter (index_events (e0 :: E))).*1).
  assert (∀ h, h ∈ l ↔ ∃ e, e ∈ e0 :: E ∧ Eth_height e = h) as Hl.
  { intros h. unfold l. by rewrite elem_of_map_iter_fst, index_events_dom. }
  destruct (min_fold_spec l) as [Hin Hmin].
  - apply Forall_forall. intros h (e & He & <-)%Hl. by rewrite Forall_forall in Hp; apply Hp.
  - intros Hnil. assert (Eth_height e0 ∈ l) as Hin by (apply Hl; exists e0; split; [by left|done]).
    rewrite Hnil in Hin. by apply elem_of_nil in Hin.
  - apply Hl in Hin as (e & He & Heq). assert (foldl min_step 0 l ≤ Eth_height e0) as Hle.
    { apply Hmin, Hl. exists e0. split; [by left|done]. }
    apply StronglySorted_inv in Hs as [_ Hall]. apply elem_of_cons in He as [->|He]; [done|].
    rewrite Forall_forall in Hall. apply Hall in He. lia.
Qed.

(** The drain, once the start is known or taken from the first event. *)
Lemma drain_spec B start m tp :
  0 < start →
  foldl drain_step (start, m, tp) B =
  (start, foldl add_event m B, tp || existsb (λ e, bool_decide (Eth_height e > start)) B).
Proof.
  intros Hs. revert m tp. induction B as [|e B IH]; intros m tp; simpl; [by rewrite orb_false_r|].
  rewrite (bool_decide_false (start = 0)) by lia. rewrite IH. f_equal.
  destruct (bool_decide (Eth_height e > start)), tp; done.
Qed.

Lemma drain_events E B :
  ordered (E ++ B) →
  let start := from_option Eth_height 0 (head (E ++ B)) in
  foldl drain_step (from_option Eth_height 0 (head E), index_events E, false) B =
  (start, index_events (E ++ B), existsb (λ e, bool_decide (Eth_height e > start)) B).
Proof.
  intros [_ Hp]. unfold index_events. rewrite foldl_app. destruct E as [|e0 E]; simpl.
  - destruct B as [|b B]; [done|]. simpl in *. apply Forall_cons in Hp as [Hb _].
    rewrite drain_spec by done. rewrite bool_decide_false by lia. done.
  - apply Forall_cons in Hp as [He _]. by rewrite drain_spec.
Qed.

(** The beacons of a shard, confirmed. *)
Lemma eth_shard_step_ok now h k new confirm all :
  0 ≤ k < len confirm →
  ∃ confirm' all', eth_shard_step now h (confirm, all) (k, new) = Ret (confirm', all') ∧
    length confirm' = length confirm ∧
    ∀ s, confirm' !! s = (λ old, old ++ ((λ tb, mkConfirmedTB tb now h) <$>
      (if decide (Z.to_nat k = s) then new else []))) <$> confirm !! s.
Proof.
  intros Hk. unfold eth_shard_step.
  destruct (bucket_loop (λ _ : TimeBeacon, k) (λ tb, mkConfirmedTB tb now h) confirm new)
    as (c1 & -> & Hl1 & Hc1); [by apply Forall_forall|]. simpl.
  destruct (proj2 (go_index_returns c1 k)) as [mine ->]; [unfold len in *; lia|]. simpl.
  eexists _, _. split_and!; [done..|]. intros s. rewrite Hc1.
  destruct (confirm !! s) as [old|]; simpl; [|done]. case_decide; [by rewrite filter_all|by rewrite filter_none].
Qed.

Lemma eth_shards_spec now h l confirm all :
  Forall (λ kv, 0 ≤ kv.1 < len confirm) l →
  ∃ confirm' all', go_fold (eth_shard_step now h) (confirm, all) l = Ret (confirm', all') ∧
    length confirm' = length confirm ∧
    ∀ s, confirm' !! s = (λ old, old ++ ((λ tb, mkConfirmedTB tb now h) <$>
      mjoin ((λ kv : Z * list TimeBeacon, if decide (Z.to_nat kv.1 = s) then kv.2 else []) <$> l))) <$> confirm !! s.
Proof.
  revert confirm all. induction l as [|[k new] l IH]; intros confirm all HF; simpl.
  - exists confirm, all. split_and!; [done..|]. intros s. destruct (confirm !! s); simpl; [by rewrite app_nil_r|done].
  - apply Forall_cons in HF as [Hr HF].
    destruct (eth_shard_step_ok now h k new confirm all) as (c1 & all1 & -> & Hl1 & Hc1); [done|]. simpl.
    destruct (IH c1 all1) as (c2 & all2 & -> & Hl2 & Hc2); [unfold len in *; by rewrite Hl1|].
    exists c2, all2. split_and!; [done|lia|]. intros s. rewrite Hc2, Hc1.
    destruct (confirm !! s) as [old|]; simpl; [|done]. f_equal. by rewrite fmap_app, app_assoc.
Qed.

(** Reading one slot of a map of slices through any iteration order. *)
Lemma iter_slot {A B} (g : list A → list B) (m : gmap Z (list A)) (i : nat) :
  g [] = [] → (∀ k, is_Some (m !! k) → 0 ≤ k) →
  mjoin ((λ kv : Z * list A, if decide (Z.to_nat kv.1 = i) then g kv.2 else []) <$> map_iter m) =
  g (slot m (Z.of_nat i)).
Proof.
  intros Hg Hm. set (s := Z.of_nat i). unfold slot.
  assert (∀ k new, (k, new) ∈ map_iter m → 0 ≤ k) as Hk.
  { intros k new Hin%elem_of_map_iter. apply Hm. eauto. }
  assert (∀ new, (s, new) ∈ map_iter m ↔ m !! s = Some new) as Hin by (intros; apply elem_of_map_iter).
  pose proof (NoDup_fst_map_iter m) as Hnd.
  generalize dependent (map_iter m). intros l Hk Hin Hnd.
  assert (∀ k, (∀ kv, kv ∈ k → 0 ≤ kv.1 ∧ kv.1 ≠ s) → mjoin ((λ kv : Z * list A,
    if decide (Z.to_nat kv.1 = i) then g kv.2 else []) <$> k) = []) as Hz.
  { induction k as [|kv k IH]; intros Hkv; simpl; [done|].
    rewrite decide_False by (destruct (Hkv kv); [by left|unfold s in *; lia]). apply IH. intros; apply Hkv; by right. }
  destruct (m !! s) as [new|]; simpl.
  - assert ((s, new) ∈ l) as (l1 & l2 & ->)%list_elem_of_split by by apply Hin.
    rewrite fmap_app, fmap_cons, join_app. simpl. rewrite decide_True by (unfold s; lia).
    rewrite fmap_app in Hnd. simpl in Hnd. apply NoDup_app in Hnd as (_ & Hd & [Hn2 _]%NoDup_cons).
    rewrite !Hz; [by rewrite app_nil_r| |].
    + intros [k n'] Hkn. split; [apply (Hk k n'); set_solver|]. simpl. intros ->. apply Hn2, list_elem_of_fmap. by exists (s, n').
    + intros [k n'] Hkn. split; [apply (Hk k n'); set_solver|]. simpl. intros ->.
      apply (Hd s); [apply list_elem_of_fmap; by exists (s, n')|by left].
  - rewrite Hg. apply Hz. intros [k n'] Hkn. split; [by apply (Hk k n')|]. simpl. intros ->.
    by apply Hin in Hkn.
Qed.

Definition in_shards (n : Z) (E : list Event) : Prop := Forall (λ e, 0 ≤ eShardID e < n) E.
Definition group_tbs (n : Z) (G : list Event) : list (list TimeBeacon) :=
  (λ s, event_tb <$> at_shard (Z.of_nat s) G) <$> seq 0 (Z.to_nat n).
(** The beacons a block confirms, by shard. *)
Definition tb_lists (t : list (list ConfirmedTB)) : list (list TimeBeacon) :=
  (λ l : list ConfirmedTB, cTimeBeacon <$> l) <$> t.
Definition beacons (b : TBBlock) : list (list TimeBeacon) := tb_lists (Tbs b).

Definition pending_start (E : list Event) : Z := from_option Eth_height 0 (head E).
Definition later (E B : list Event) : bool :=
  existsb (λ e, bool_decide (Eth_height e > pending_start (E ++ B))) B.

Lemma confirm_group now h n G all :
  in_shards n G →
  ∃ confirm all', go_fold (eth_shard_step now h) (replicate (Z.to_nat n) [], all) (map_iter (shard_map G)) =
    Ret (confirm, all') ∧ tb_lists confirm = group_tbs n G.
Proof.
  intros Hin. unfold in_shards in Hin. rewrite Forall_forall in Hin.
  destruct (eth_shards_spec now h (map_iter (shard_map G)) (replicate (Z.to_nat n) []) all)
    as (confirm & all' & Hf & Hl & Hc).
  - apply Forall_forall. intros [k l] Hkl. simpl.
    assert (is_Some (shard_map G !! k)) as (e & He & <-)%shard_map_dom
      by (apply elem_of_map_iter_fst, list_elem_of_fmap; by exists (k, l)).
    apply Hin in He. unfold len. rewrite length_replicate. lia.
  - exists confirm, all'. split; [done|]. rewrite length_replicate in Hl. apply list_eq. intros s.
    unfold group_tbs, tb_lists. rewrite !list_lookup_fmap, Hc. destruct (decide (s < Z.to_nat n)%nat) as [Hs|Hs].
    + rewrite lookup_replicate_2, lookup_seq_lt by done. simpl. f_equal.
      rewrite <-list_fmap_compose. unfold compose; simpl. rewrite list_fmap_id.
      rewrite <-slot_shard_map. apply (iter_slot (λ l, l)); [done|].
      intros k (e & He & <-)%shard_map_dom. by apply Hin.
    + rewrite lookup_ge_None_2 by (rewrite length_replicate; lia). by rewrite lookup_seq_ge by lia.
Qed.

(** One tick, in terms of the list of buffered events. *)
Lemma generateEthChainBlock_spec now E B c :
  geth_tbs_new c = index_events E → ordered (E ++ B) → in_shards (shardNum c) (E ++ B) →
  ∃ ob c', generateEthChainBlock now B c = Ret (ob, c') ∧ shardNum c' = shardNum c ∧
    if later E B
    then geth_tbs_new c' = index_events (filter (λ e, Eth_height e ≠ pending_start (E ++ B)) (E ++ B)) ∧
         ∃ b, ob = Some b ∧ Height b = pending_start (E ++ B) ∧
           beacons b = group_tbs (shardNum c) (at_height (pending_start (E ++ B)) (E ++ B))
    else ob = None ∧ geth_tbs_new c' = index_events (E ++ B).
Proof.
  intros Hg Ho Hin. unfold generateEthChainBlock. rewrite Hg.
  rewrite start_height by (by apply ordered_app in Ho as (? & _)).
  rewrite drain_events by done. fold (pending_start (E ++ B)). unfold later.
  destruct (existsb _ B) eqn:Hex; simpl; [|by eexists _, _].
  set (h := pending_start (E ++ B)).
  assert (default ∅ (index_events (E ++ B) !! h) = shard_map (at_height h (E ++ B))) as ->.
  { rewrite index_events_lookup. by destruct (at_height h (E ++ B)). }
  destruct (confirm_group now (height c) (shardNum c) (at_height h (E ++ B)) (tbs c))
    as (confirm & all' & -> & Hb).
  { apply Forall_forall. intros e [_ He]%list_elem_of_filter. by eapply Forall_forall in Hin. }
  simpl. eexists _, _. split; [done|]. split; [done|]. split; [apply index_events_delete|]. by eexists.
Qed.

(** ** A run of ticks *)
Fixpoint eth_run (c : BeaconChain) (ticks : list (Z * list Event)) : go (list TBBlock * BeaconChain) :=
  match ticks with
  | [] => Ret ([], c)
  | (now, B) :: ticks =>
      '(ob, c) ← generateEthChainBlock now B c;
      '(bs, c) ← eth_run c ticks;
      Ret (match ob with Some b => b :: bs | None => bs end, c)
  end.

(** A stream cut into the complete groups of the smallest heights. *)
Fixpoint groups_ok (gs : list (Z * list Event)) (pend : list Event) : Prop :=
  match gs with
  | [] => True
  | (h, G) :: gs =>
      let rest := mjoin gs.*2 ++ pend in
      G ≠ [] ∧ (∀ e, e ∈ G → Eth_height e = h) ∧ rest ≠ [] ∧ (∀ e, e ∈ rest → h < Eth_height e) ∧
      groups_ok gs pend
  end.

Definition block_of (n : Z) (b : TBBlock) (g : Z * list Event) : Prop :=
  Height b = g.1 ∧ beacons b = group_tbs n g.2.

(** The first group of an ordered stream is a prefix of it. *)
Lemma first_group E h :
  ordered E → (∀ e, e ∈ E → h ≤ Eth_height e) →
  E = at_height h E ++ filter (λ e, Eth_height e ≠ h) E.
Proof.
  intros [Hs _]. induction E as [|e E IH]; intros Hh; [done|].
  apply StronglySorted_cons in Hs as [Hall Hs]. unfold at_height in *. rewrite !filter_cons.
  destruct (decide (Eth_height e = h)) as [He|He].
  - rewrite (decide_False (P := Eth_height e ≠ h)) by auto. simpl. f_equal. apply IH; [done|].
    intros x Hx. apply Hh. by right.
  - rewrite (decide_True (P := Eth_height e ≠ h)) by done.
    rewrite filter_none, filter_all; [done| |];
      intros x Hx; rewrite Forall_forall in Hall; apply Hall in Hx;
      assert (h ≤ Eth_height e) by (apply Hh; by left); lia.
Qed.

Lemma later_rest E B :
  later E B = true → filter (λ e, Eth_height e ≠ pending_start (E ++ B)) (E ++ B) ≠ [].
Proof.
  unfold later. intros (e & He & Hgt%bool_decide_eq_true)%existsb_exists Hnil.
  eapply (filter_nil_not_elem_of _ _ e); [exact Hnil|simpl; lia|].
  apply elem_of_app. right. by apply list_elem_of_In.
Qed.

Lemma pending_start_min E e : ordered E → e ∈ E → pending_start E ≤ Eth_height e.
Proof.
  intros [Hs _] He. destruct E as [|e0 E]; [by apply elem_of_nil in He|].
  apply StronglySorted_cons in Hs as [Hall _]. apply elem_of_cons in He as [->|He]; [done|].
  rewrite Forall_forall in Hall. by apply Hall.
Qed.

(** Adding the next group in front of a cut of what remains. *)
Lemma groups_cons E R gs pend :
  let h := pending_start E in
  let E1 := filter (λ e, Eth_height e ≠ h) E in
  ordered (E ++ R) → E1 ≠ [] → E1 ++ R = mjoin gs.*2 ++ pend → groups_ok gs pend →
  E ++ R = mjoin ((h, at_height h E) :: gs).*2 ++ pend ∧
  groups_ok ((h, at_height h E) :: gs) pend.
Proof.
  intros h E1 Ho Hne Heq Hok. pose proof Ho as (Ho1 & Ho2 & Hle)%ordered_app.
  pose proof (first_group E h Ho1 (λ e, pending_start_min E e Ho1)) as Hsplit. fold E1 in Hsplit.
  assert (∀ e, e ∈ E1 → e ∈ E ∧ h < Eth_height e) as HE1.
  { intros e [? He]%list_elem_of_filter. split; [done|].
    pose proof (pending_start_min E e Ho1 He) as Hge. fold h in Hge. lia. }
  split.
  { trans (at_height h E ++ (E1 ++ R)).
    - by rewrite (app_assoc _ E1), <-Hsplit.
    - rewrite Heq. simpl. by rewrite app_assoc. }
  simpl. rewrite <-Heq. split_and!; [| | | |done].
  - destruct E as [|e0 l]; [done|]. unfold at_height. by rewrite filter_cons_True.
  - by intros e [? _]%list_elem_of_filter.
  - by destruct E1.
  - intros e [He|He]%elem_of_app; [by apply HE1|].
    destruct E1 as [|e1 E1']; [done|]. destruct (HE1 e1) as [Hi1 Hlt]; [by left|].
    specialize (Hle e1 e Hi1 He). lia.
Qed.

Lemma eth_run_groups ticks c E :
  geth_tbs_new c = index_events E → ordered (E ++ mjoin ticks.*2) →
  in_shards (shardNum c) (E ++ mjoin ticks.*2) →
  ∃ bs c' gs pend, eth_run c ticks = Ret (bs, c') ∧
    E ++ mjoin ticks.*2 = mjoin gs.*2 ++ pend ∧ groups_ok gs pend ∧
    Forall2 (block_of (shardNum c)) bs gs.
Proof.
  revert c E. induction ticks as [|[now B] ticks IH]; intros c E Hg Ho Hin; simpl in *.
  { exists [], c, [], E. rewrite app_nil_r. simpl. split_and!; done. }
  rewrite app_assoc in *. unfold in_shards in Hin. apply Forall_app in Hin as [Hin1 Hin2].
  pose proof Ho as (Ho1 & Ho2 & _)%ordered_app.
  destruct (generateEthChainBlock_spec now E B c) as (ob & c1 & -> & Hn & Hpost); [done..|].
  destruct (later E B) eqn:Hlater; simpl.
  - destruct Hpost as (Hg1 & b & -> & Hb).
    pose proof (later_rest E B Hlater) as Hne.
    set (E1 := filter (λ e, Eth_height e ≠ pending_start (E ++ B)) (E ++ B)) in *.
    destruct (IH c1 E1) as (bs & c2 & gs & pend & -> & Heq & Hok & Hbs); [done|..].
    { rewrite (first_group (E ++ B) (pending_start (E ++ B)) Ho1 (λ e, pending_start_min (E ++ B) e Ho1)),
        <-app_assoc in Ho. by apply ordered_app in Ho as (_ & ? & _). }
    { rewrite Hn. apply Forall_app. split; [|done]. apply Forall_forall.
      intros e [_ He]%list_elem_of_filter. by eapply Forall_forall in Hin1. }
    destruct (groups_cons (E ++ B) (mjoin ticks.*2) gs pend) as [Hcut Hgs]; [done..|].
    simpl. eexists (b :: bs), c2, (_ :: gs), pend. split_and!; [done|exact Hcut|exact Hgs|].
    constructor; [done|]. by rewrite Hn in Hbs.
  - destruct Hpost as [-> Hg1].
    destruct (IH c1 (E ++ B)) as (bs & c2 & gs & pend & -> & Heq & Hok & Hbs); [done|done|..].
    { rewrite Hn. by apply Forall_app. }
    exists bs, c2, gs, pend. rewrite Hn in Hbs. done.
Qed.

(** ** Two cuts of the same stream agree *)
Lemma run_unique (h : Z) G1 r R1 G2 R2 :
  (∀ e, e ∈ G1 → Eth_height e = h) → h < Eth_height r →
  (∀ e, e ∈ G2 → Eth_height e = h) → (∀ e, e ∈ R2 → h < Eth_height e) →
  G1 ++ r :: R1 = G2 ++ R2 → G1 = G2 ∧ r :: R1 = R2.
Proof.
  intros H1 Hr H2 HR2. revert G2 H2. induction G1 as [|a G1 IH]; intros [|b G2] H2 Heq; simplify_eq/=.
  - done.
  - assert (Eth_height b = h) by (apply H2; by left). lia.
  - assert (Eth_height a = h) by (apply H1; by left). assert (h < Eth_height a) by (apply HR2; by left). lia.
  - destruct (IH (λ e He, H1 e (list_elem_of_further _ _ _ He)) G2) as [-> ?]; [|done..].
    intros e He. apply H2. by right.
Qed.

Lemma groups_agree gs1 p1 gs2 p2 k :
  groups_ok gs1 p1 → groups_ok gs2 p2 →
  (mjoin gs1.*2 ++ p1) ++ k = mjoin gs2.*2 ++ p2 →
  ∀ i x y, gs1 !! i = Some x → gs2 !! i = Some y → x = y.
Proof.
  revert gs2. induction gs1 as [|[h1 G1] gs1 IH]; intros gs2 Hok1 Hok2 Heq i x y Hx Hy; [done|].
  destruct gs2 as [|[h2 G2] gs2]; [done|]. simpl in *.
  destruct Hok1 as (Hne1 & HG1 & HR1 & Hgt1 & Hok1), Hok2 as (Hne2 & HG2 & HR2 & Hgt2 & Hok2).
  change (@list_fmap (prod Z (list Event)) (list Event) snd) with (@fmap list _ (prod Z (list Event)) (list Event) snd) in Heq.
  rewrite <-(app_assoc G2), <-!(app_assoc G1) in Heq.
  assert (h1 = h2) as <-.
  { destruct G1 as [|a G1]; [done|]. destruct G2 as [|b G2]; [done|]. simplify_eq/=.
    rewrite <-(HG1 b), <-(HG2 b) by by left. done. }
  destruct (mjoin gs1.*2 ++ p1) as [|r R1] eqn:HR; [done|].
  destruct (run_unique h1 G1 r (R1 ++ k) G2 (mjoin gs2.*2 ++ p2)) as [-> Hrest]; [done|apply Hgt1; by left|done..|].
  destruct i as [|i]; simplify_eq/=; [done|]. by eapply (IH gs2).
Qed.

(** C12. Agreement of all processes on the beacon blocks.  Two processes that
    follow the same ordered stream of confirmation events, one possibly ahead
    of the other, drain it in batches of their own at ticks of their own; the
    blocks they emit nevertheless agree, position by position, in height and
    in the beacons of every shard, and no tick fails. *)
Theorem eth_blocks_agree n ticks1 ticks2 c1 c2 k :
  geth_tbs_new c1 = ∅ → geth_tbs_new c2 = ∅ → shardNum c1 = n → shardNum c2 = n →
  mjoin ticks1.*2 ++ k = mjoin ticks2.*2 →
  ordered (mjoin ticks2.*2) → in_shards n (mjoin ticks2.*2) →
  ∃ bs1 c1' bs2 c2', eth_run c1 ticks1 = Ret (bs1, c1') ∧ eth_run c2 ticks2 = Ret (bs2, c2') ∧
    ∀ i b1 b2, bs1 !! i = Some b1 → bs2 !! i = Some b2 →
      Height b1 = Height b2 ∧ beacons b1 = beacons b2.
Proof.
  intros Hg1 Hg2 Hn1 Hn2 Hk Ho Hin. rewrite <-Hk in Ho, Hin.
  destruct (eth_run_groups ticks1 c1 []) as (bs1 & c1' & gs1 & p1 & Hr1 & He1 & Hok1 & Hb1); simpl.
  { by rewrite Hg1. }
  { by apply ordered_app in Ho as (? & _). }
  { rewrite Hn1. by apply Forall_app in Hin as [? _]. }
  destruct (eth_run_groups ticks2 c2 []) as (bs2 & c2' & gs2 & p2 & Hr2 & He2 & Hok2 & Hb2); simpl.
  { by rewrite Hg2. }
  { by rewrite <-Hk. }
  { by rewrite Hn2, <-Hk. }
  exists bs1, c1', bs2, c2'. split_and!; [done..|]. intros i b1 b2 Hi1 Hi2.
  destruct (Forall2_lookup_l _ _ _ _ _ Hb1 Hi1) as (g1 & Hg1' & Hh1 & Hbe1).
  destruct (Forall2_lookup_l _ _ _ _ _ Hb2 Hi2) as (g2 & Hg2' & Hh2 & Hbe2).
  simpl in He1, He2. rewrite He1, He2 in Hk.
  rewrite (groups_agree gs1 p1 gs2 p2 k Hok1 Hok2 Hk i g1 g2 Hg1' Hg2') in *.
  rewrite Hn1 in Hbe1. rewrite Hn2 in Hbe2. split; congruence.
Qed.

Lemma groups_member gs pend h G :
  groups_ok gs pend → (h, G) ∈ gs → ∃ e, e ∈ G ∧ Eth_height e = h ∧ e ∈ mjoin gs.*2 ++ pend.
Proof.
  intros Hok Hin. assert (∃ e, e ∈ G ∧ Eth_height e = h) as (e & He & Hh).
  { induction gs as [|[h' G'] gs IH]; [by apply elem_of_nil in Hin|].
    destruct Hok as (Hne & HG & _ & _ & Hok). apply elem_of_cons in Hin as [[= -> ->]|Hin]; [|by apply IH].
    destruct G' as [|e G']; [done|]. exists e. split; [by left|]. apply HG. by left. }
  exists e. split_and!; [done..|]. apply elem_of_app. left. apply list_elem_of_join.
  exists G. split; [done|]. apply list_elem_of_fmap. by exists (h, G).
Qed.

Lemma groups_contents gs pend h G :
  groups_ok gs pend → (h, G) ∈ gs → at_height h (mjoin gs.*2 ++ pend) = G.
Proof.
  unfold at_height. induction gs as [|[h0 G0] gs IH]; [by intros _ ?%elem_of_nil|].
  intros (Hne & HG & _ & Hgt & Hok) Hin.
  replace (mjoin ((h0, G0) :: gs).*2 ++ pend) with (G0 ++ (mjoin gs.*2 ++ pend)) by (simpl; by rewrite app_assoc).
  rewrite filter_app. apply elem_of_cons in Hin as [[= -> ->]|Hin].
  - rewrite filter_all by done. rewrite filter_none; [by rewrite app_nil_r|].
    intros e He. apply Hgt in He. lia.
  - rewrite (filter_none _ G0); [by apply IH|]. intros e He. rewrite HG by done.
    destruct (groups_member gs pend h G Hok Hin) as (e' & _ & <- & Hin').
    apply Hgt in Hin'. lia.
Qed.

Lemma groups_sorted gs pend : groups_ok gs pend → StronglySorted Z.lt gs.*1.
Proof.
  induction gs as [|[h G] gs IH]; simpl; [constructor|]. intros (_ & _ & _ & Hgt & Hok).
  constructor; [by apply IH|]. apply Forall_forall. intros h' ([h2 G2] & -> & Hin)%list_elem_of_fmap. simpl.
  destruct (groups_member gs pend h2 G2 Hok Hin) as (e & _ & <- & Hin'). by apply Hgt.
Qed.

(** C32. What a beacon block contains: for any batching of an ordered stream
    of events, the emitted blocks have strictly increasing heights and each
    contains, shard by shard and in order, all the beacons of its height in
    the whole stream: no block is emitted before its height is complete. *)
Theorem eth_blocks_complete ticks c :
  geth_tbs_new c = ∅ → ordered (mjoin ticks.*2) → in_shards (shardNum c) (mjoin ticks.*2) →
  ∃ bs c', eth_run c ticks = Ret (bs, c') ∧ StronglySorted Z.lt (Height <$> bs) ∧
    ∀ b, b ∈ bs → beacons b = group_tbs (shardNum c) (at_height (Height b) (mjoin ticks.*2)).
Proof.
  intros Hg Ho Hin. destruct (eth_run_groups ticks c []) as (bs & c' & gs & p & Hr & He & Hok & Hb); [|done..|].
  { by rewrite Hg. }
  simpl in He. exists bs, c'. split; [done|]. rewrite He. split.
  - assert (Height <$> bs = gs.*1) as ->; [|by eapply groups_sorted].
    clear -Hb. induction Hb as [|b g bs gs [Hh _] _ IH]; [done|]. by rewrite !fmap_cons, Hh, IH.
  - intros b (i & Hi)%list_elem_of_lookup.
    destruct (Forall2_lookup_l _ _ _ _ _ Hb Hi) as ([h G] & Hg' & Hh & ->). simpl in *.
    rewrite Hh, (groups_contents gs p h G); [done..|]. by eapply list_elem_of_lookup_2.
Qed.
End eth.

(** ** The simulated chain *)
Section simulation_spec.
Context `{MI : MapIter} `{Cr : Crypto}.

(** On verified beacons the two modes confirm a shard alike. *)
Lemma sim_shard_step_eth now required h confirm all k new :
  0 ≤ k < len confirm → Forall (λ tb, VerifyTimeBeacon required tb = Ret true) new →
  sim_shard_step now required h (confirm, all) (k, new) =
  eth_shard_step now h (confirm, all) (k, sTimeBeacon <$> new).
Proof.
  intros Hk HF. unfold sim_shard_step, eth_shard_step.
  destruct (proj2 (go_index_returns confirm k)) as [old ->]; [done|]. simpl.
  rewrite go_fold_fmap. erewrite go_fold_ext; [done|].
  intros c tb Hin. rewrite Forall_forall in HF. rewrite HF by done. done.
Qed.

Definition unsign (kv : Z * list SignedTB) : Z * list TimeBeacon := (kv.1, sTimeBeacon <$> kv.2).

Lemma sim_fold_eth now required h l confirm all :
  Forall (λ kv, 0 ≤ kv.1 < len confirm ∧ Forall (λ tb, VerifyTimeBeacon required tb = Ret true) kv.2) l →
  go_fold (sim_shard_step now required h) (confirm, all) l =
  go_fold (eth_shard_step now h) (confirm, all) (unsign <$> l).
Proof.
  revert confirm all. induction l as [|[k new] l IH]; intros confirm all HF; simpl; [done|].
  apply Forall_cons in HF as [[Hk Hv] HF]. rewrite sim_shard_step_eth by done.
  change (unsign (k, new)) with (k, sTimeBeacon <$> new).
  destruct (eth_shard_step_ok now h k (sTimeBeacon <$> new) confirm all) as (c1 & all1 & -> & Hl1 & _); [done|].
  simpl. apply IH. unfold len in *. by rewrite Hl1.
Qed.

(** A block of the simulated chain: when the pending beacons verify and
    name existing shards, the next block confirms, for every shard and in
    order, exactly the beacons pending for it, at a height one above the
    last, and nothing stays pending; the order in which shards are visited
    does not matter. *)
Theorem simulation_block_spec now c :
  map_Forall (λ k new, 0 ≤ k < shardNum c ∧
    Forall (λ tb, VerifyTimeBeacon (MultiSignRequiredNum c) tb = Ret true) new) (tbs_new c) →
  ∃ b c', generateSimulationChainBlock now c = Ret (b, c') ∧
    Height b = u64 (height c + 1) ∧ height c' = Height b ∧ tbs_new c' = ∅ ∧
    ∀ s, 0 ≤ s < shardNum c →
      Tbs b !! Z.to_nat s =
        Some ((λ tb, mkConfirmedTB (sTimeBeacon tb) now (Height b)) <$> slot (tbs_new c) s).
Proof.
  intros HF. unfold generateSimulationChainBlock. set (h := u64 (height c + 1)).
  assert (Forall (λ kv : Z * list SignedTB, 0 ≤ kv.1 < len (replicate (Z.to_nat (shardNum c)) ([] : list ConfirmedTB)) ∧
    Forall (λ tb, VerifyTimeBeacon (MultiSignRequiredNum c) tb = Ret true) kv.2) (map_iter (tbs_new c))) as Hall.
  { apply Forall_forall. intros [k new] [? ?]%elem_of_map_iter%HF. unfold len. rewrite length_replicate. simpl. split; [lia|done]. }
  rewrite sim_fold_eth by done.
  destruct (eth_shards_spec now h (unsign <$> map_iter (tbs_new c)) (replicate (Z.to_nat (shardNum c)) []) (tbs c))
    as (confirm & all' & -> & Hl & Hc).
  { apply Forall_fmap. eapply Forall_impl; [exact Hall|]. intros [k new] [? _]. done. }
  simpl. eexists _, _. split; [done|]. simpl. split_and!; [done..|]. intros s Hs.
  rewrite Hc, lookup_replicate_2 by lia. simpl. f_equal. rewrite <-list_fmap_compose.
  pose proof (iter_slot (fmap sTimeBeacon) (tbs_new c) (Z.to_nat s)) as Hslot.
  rewrite Z2Nat.id in Hslot by lia.
  etrans; [|etrans; [apply (f_equal (fmap (λ tb, mkConfirmedTB tb now h))), Hslot; [done|]|]].
  - done.
  - intros k [new Hnew]. apply HF in Hnew as [Hr _]. lia.
  - by rewrite <-list_fmap_compose.
Qed.
End simulation_spec.

(** ** Pushing confirmed blocks *)
Fixpoint push_all (c : BeaconChain) (bs : list TBBlock) : go (list (option TBBlock) * BeaconChain) :=
  match bs with
  | [] => Ret ([], c)
  | b :: bs =>
      '(p, c) ← toPushBlock b c;
      '(ps, c) ← push_all c bs;
      Ret (p :: ps, c)
  end.

(** The blocks of the simulated chain are numbered without gaps, so every
    block is pushed [d] ticks later. *)
Lemma push_all_spec bs c h d done' :
  Height2Confirm c = d → 0 ≤ d → 0 ≤ h → h + len bs + d < 2^64 →
  (∀ k, tbBlocks c !! k = if decide (1 ≤ k ≤ h) then done' !! Z.to_nat (k - 1) else None) →
  len done' = h → (∀ i b, bs !! i = Some b → Height b = h + 1 + Z.of_nat i) →
  ∃ ps c', push_all c bs = Ret (ps, c') ∧ length ps = length bs ∧
    ∀ i, (i < length bs)%nat →
      ps !! i = Some (if decide (d < h + 1 + Z.of_nat i)
                      then (done' ++ bs) !! Z.to_nat (h + Z.of_nat i - d) else None).
Proof.
  revert c h done'. induction bs as [|b bs IH]; intros c h done' Hd Hd0 Hh Hmax Hm Hl Hhs; simpl.
  { exists [], c. split_and!; [done..|]. intros i Hi. simpl in Hi. lia. }
  rewrite len_cons in Hmax. pose proof (len_nonneg bs).
  assert (Height b = h + 1) as Hb by (rewrite (Hhs 0%nat b) by done; lia).
  unfold toPushBlock. rewrite Hb, Hm, decide_False by lia. simpl.
  set (c1 := set_tbBlocks (<[h + 1 := b]> (tbBlocks c)) c).
  destruct (IH c1 (h + 1) (done' ++ [b])) as (ps & c2 & -> & Hlen & Hps); try done; try lia.
  - intros k. simpl. rewrite lookup_insert. destruct (decide (h + 1 = k)) as [<-|Hk].
    + rewrite decide_True by lia. rewrite lookup_app_r by (unfold len in Hl; lia).
      replace (Z.to_nat (h + 1 - 1) - length done')%nat with 0%nat by (unfold len in Hl; lia). done.
    + rewrite Hm. destruct (decide (1 ≤ k ≤ h)); [rewrite decide_True by lia|rewrite decide_False by lia; done].
      rewrite lookup_app_l; [done|]. unfold len in Hl. lia.
  - rewrite len_app. unfold len at 2; simpl. lia.
  - intros i b' Hi. rewrite (Hhs (S i) b') by done. lia.
  - simpl. eexists _, c2. split; [done|]. split; [simpl; lia|]. intros [|i] Hi; simpl.
    + f_equal. rewrite Hd, lookup_insert. unfold len in Hl. rewrite Z.add_0_r.
      destruct (decide (d < h + 1)) as [Hlt|Hge].
      * rewrite u64_small by (unfold in_u64; lia). destruct (decide (h + 1 = h + 1 - d)) as [He|He].
        -- rewrite lookup_app_r by lia. by replace (Z.to_nat (h + Z.of_nat 0 - d) - length done')%nat with 0%nat by lia.
        -- rewrite Hm, decide_True by lia. rewrite lookup_app_l by lia. f_equal. lia.
      * assert (u64 (h + 1 - d) = 0 ∨ h + 1 < u64 (h + 1 - d)) as Hk.
        { destruct (decide (h + 1 - d = 0)) as [->|]; [by left|right]. rewrite u64_neg; lia. }
        rewrite decide_False by lia. rewrite Hm, decide_False by lia. done.
    + rewrite Hps by (simpl in Hi; lia). rewrite <-app_assoc. simpl.
      replace (h + 1 + 1 + Z.of_nat i) with (h + 1 + Z.of_nat (S i)) by lia.
      by replace (h + 1 + Z.of_nat i - d) with (h + Z.of_nat (S i) - d) by lia.
Qed.

(** Confirmed blocks are pushed: when the blocks of a chain are numbered
    from 1 without gaps, each tick pushes exactly the block [d] heights below
    the new one, and none during the first [d] ticks (the unsigned underflow
    there hits no block); so every block is pushed once, in order. *)
Theorem push_all_delayed bs c :
  0 ≤ Height2Confirm c → len bs + Height2Confirm c < 2^64 → tbBlocks c = ∅ →
  (∀ i b, bs !! i = Some b → Height b = 1 + Z.of_nat i) →
  ∃ ps c', push_all c bs = Ret (ps, c') ∧ length ps = length bs ∧
    ∀ i, (i < length bs)%nat →
      ps !! i = Some (if decide (Height2Confirm c ≤ Z.of_nat i)
                      then bs !! Z.to_nat (Z.of_nat i - Height2Confirm c) else None).
Proof.
  intros Hd Hmax Hm Hhs.
  destruct (push_all_spec bs c 0 (Height2Confirm c) []) as (ps & c' & Hp & Hl & Hps); try done; try lia.
  { intros k. rewrite Hm, lookup_empty. by destruct (decide _). }
  exists ps, c'. split_and!; [done..|]. intros i Hi. rewrite Hps by done. f_equal.
  destruct (decide (Height2Confirm c < 0 + 1 + Z.of_nat i)), (decide (Height2Confirm c ≤ Z.of_nat i)); done || lia.
Qed.

(** With gaps, as in the Ethereum modes where only heights with beacons have
    a block, a block can be passed over for ever: after heights 5 and 8 with a
    delay of one, neither has been pushed, and no later height pushes 5. *)
Lemma push_gap :
  let c := NewTBChain 2 1 1 1 in
  let b h := mkTBBlock 0 h [] in
  ∃ c', push_all c [b 5; b 8] = Ret ([None; None], c') ∧
    ∀ h, 8 < h < 2^64 → ∃ p c'', toPushBlock (b h) c' = Ret (p, c'') ∧ p ≠ Some (b 5).
Proof.
  exists (set_tbBlocks (<[8 := mkTBBlock 0 8 []]> {[ 5 := mkTBBlock 0 5 [] ]}) (NewTBChain 2 1 1 1)).
  split; [reflexivity|]. intros h Hh. unfold toPushBlock; simpl.
  rewrite lookup_insert_ne, lookup_singleton_ne by lia.
  eexists _, _. split; [reflexivity|]. rewrite u64_small by (unfold in_u64; lia).
  rewrite lookup_insert_ne by lia. rewrite lookup_insert. destruct (decide _); [done|].
  by rewrite lookup_singleton_ne by lia.
Qed.

(** ** Witnesses *)
Definition demo_sim : BeaconChain :=
  set_tbs_new {[ 1 := [demo_signed] ]} (NewTBChain 0 0 2 2).

Lemma simulation_block_spec_witness :
  ∃ b c', generateSimulationChainBlock (MI := canonical_iter) (Cr := demo_crypto) 55 demo_sim = Ret (b, c') ∧
    Height b = u64 (height demo_sim + 1) ∧ height c' = Height b ∧ tbs_new c' = ∅ ∧
    ∀ s, 0 ≤ s < shardNum demo_sim →
      Tbs b !! Z.to_nat s =
        Some ((λ tb, mkConfirmedTB (sTimeBeacon tb) 55 (Height b)) <$> slot (tbs_new demo_sim) s).
Proof.
  apply (simulation_block_spec (MI := canonical_iter) (Cr := demo_crypto) 55 demo_sim).
  apply map_Forall_singleton. split; [simpl; lia|]. repeat constructor; vm_compute; reflexivity.
Defined.

Definition demo_events : list Event :=
  [mkEvent 11 0 1; mkEvent 11 1 1; mkEvent 12 0 2; mkEvent 14 1 2; mkEvent 15 0 3].
Definition demo_chain : BeaconChain := NewTBChain 2 0 2 2.

Lemma demo_ordered : ordered demo_events.
Proof. split; repeat constructor; simpl; lia. Qed.
Lemma demo_in_shards : in_shards 2 demo_events.
Proof. repeat constructor; simpl; lia. Qed.

Lemma eth_blocks_agree_witness :
  ∃ bs1 c1' bs2 c2',
    eth_run (MI := canonical_iter) demo_chain [(1, take 3 demo_events); (2, take 1 (drop 3 demo_events))] = Ret (bs1, c1') ∧
    eth_run (MI := canonical_iter) demo_chain [(1, []); (3, take 2 demo_events); (4, drop 2 demo_events)] = Ret (bs2, c2') ∧
    ∀ i b1 b2, bs1 !! i = Some b1 → bs2 !! i = Some b2 →
      Height b1 = Height b2 ∧ beacons b1 = beacons b2.
Proof.
  apply (eth_blocks_agree (MI := canonical_iter) 2 _ _ demo_chain demo_chain (drop 4 demo_events)); try reflexivity.
  - exact demo_ordered.
  - exact demo_in_shards.
Defined.

Lemma eth_blocks_complete_witness :
  let ticks := [(1, take 3 demo_events); (2, drop 3 demo_events)] in
  ∃ bs c', eth_run (MI := canonical_iter) demo_chain ticks = Ret (bs, c') ∧
    StronglySorted Z.lt (Height <$> bs) ∧
    ∀ b, b ∈ bs → beacons b = group_tbs (shardNum demo_chain) (at_height (Height b) (mjoin ticks.*2)).
Proof.
  apply (eth_blocks_complete (MI := canonical_iter)); [reflexivity|exact demo_ordered|exact demo_in_shards].
Defined.

Lemma push_all_delayed_witness :
  let bs := [mkTBBlock 0 1 []; mkTBBlock 0 2 []; mkTBBlock 0 3 []] in
  let c := NewTBChain 0 1 1 1 in
  ∃ ps c', push_all c bs = Ret (ps, c') ∧ length ps = length bs ∧
    ∀ i, (i < length bs)%nat →
      ps !! i = Some (if decide (Height2Confirm c ≤ Z.of_nat i)
                      then bs !! Z.to_nat (Z.of_nat i - Height2Confirm c) else None).
Proof.
  apply push_all_delayed; [simpl; lia|unfold len; simpl; lia|reflexivity|].
  intros [|[|[|[|i]]]] b Hb; simplify_eq/=; reflexivity.
Defined.
