(* ===== verification/EthChain.v ===== *)
(** * The Ethereum client (src/eth_chain/eth_chain.go, subscribe.go,
    src/cfg/account.go, src/beaconChain/ethChainInterface.go)

    The calls that [Beacon] leaves as outputs are carried out here: a
    transaction is signed and offered to an Ethereum node until the node
    takes it, with the nonce and the gas price kept between calls.  The
    events that [Beacon] takes as input come out of [SubscribeEvents].  The
    node, go-ethereum's ABI and signing code and the files with private keys
    are parameters. *)
From S2P Require Import Prelude Core Beacon.
From Stdlib Require Import Ascii.
Local Open Scope Z_scope.

(** ** Strings of the standard library *)

(** [strings.Contains] *)
Definition Contains (s sub : string) : bool :=
  match String.index 0 sub s with Some _ => true | None => false end.

(** [strconv.ParseInt(s, 0, 64)]: the base is read from the prefix, digits
    may be separated by underscores. *)
Definition lower (c : ascii) : Z :=
  let z := Z.of_nat (Ascii.nat_of_ascii c) in if bool_decide (65 ≤ z ≤ 90) then z + 32 else z.
Definition digit (c : ascii) : option Z :=
  let z := lower c in
  if bool_decide (48 ≤ z ≤ 57) then Some (z - 48) else if bool_decide (97 ≤ z ≤ 122) then Some (z - 87) else None.
Definition is_char (c : ascii) (z : Z) : bool := bool_decide (lower c = z).
Definition underscore : Z := 95.

(** What precedes a character: a digit, an underscore, nothing or something
    else. *)
Inductive prev := PStart | PDigit | PUnder | POther.
Fixpoint underscores (hex : bool) (i : prev) (s : list ascii) : bool :=
  match s with
  | [] => match i with PUnder => false | _ => true end
  | c :: s =>
      let z := lower c in
      if bool_decide (48 ≤ z ≤ 57) || hex && bool_decide (97 ≤ z ≤ 102) then underscores hex PDigit s
      else if bool_decide (z = underscore) then match i with PDigit => underscores hex PUnder s | _ => false end
      else match i with PUnder => false | _ => underscores hex POther s end
  end.
Definition underscoreOK (s : list ascii) : bool :=
  let s := match s with c :: r => if is_char c 45 || is_char c 43 then r else s | [] => s end in
  match s with
  | c0 :: c1 :: r =>
      if is_char c0 48 && (is_char c1 98 || is_char c1 111 || is_char c1 120)
      then underscores (is_char c1 120) PDigit r else underscores false PStart s
  | _ => underscores false PStart s
  end.
Fixpoint digits (base : Z) (n : Z) (s : list ascii) : option Z :=
  match s with
  | [] => Some n
  | c :: s =>
      if bool_decide (lower c = underscore) then digits base n s
      else d ← digit c; if bool_decide (d < base) then digits base (n * base + d) s else None
  end.
(** [strconv.ParseUint(s, 0, 64)] without its range check. *)
Definition ParseUint (s : list ascii) : option Z :=
  n ← match s with
      | [] => None
      | c0 :: r0 =>
          if is_char c0 48 then
            match r0 with
            | c1 :: _ :: _ =>
                if is_char c1 98 then digits 2 0 (tail r0)
                else if is_char c1 111 then digits 8 0 (tail r0)
                else if is_char c1 120 then digits 16 0 (tail r0)
                else digits 8 0 r0
            | _ => digits 8 0 r0
            end
          else digits 10 0 s
      end;
  if existsb (λ c, bool_decide (lower c = underscore)) s && negb (underscoreOK s) then None else Some n.
Definition ParseInt (s : string) : option Z :=
  match String.list_ascii_of_string s with
  | [] => None
  | (c :: r) as l =>
      let neg := is_char c 45 in
      un ← ParseUint (if is_char c 45 || is_char c 43 then r else l);
      if neg then (if bool_decide (un ≤ 2^63) then Some (- un) else None)
      else (if bool_decide (un < 2^63) then Some un else None)
  end.
Example parse_hex : ParseInt "0x1aF" = Some 431. Proof. by vm_compute. Qed.
Example parse_neg : ParseInt "-0x8000000000000000" = Some (- 2^63). Proof. by vm_compute. Qed.
Example parse_under : ParseInt "0x_1f" = Some 31 ∧ ParseInt "1__0" = None ∧ ParseInt "0x" = None ∧ ParseInt "017" = Some 15.
Proof. by repeat split. Qed.

(** ** The data *)
Record ContractTB := mkContractTB {
  ShardID : Z;
  cHeight : Z;
  BlockHash : string;
  TxHash : string;
  StatusHash : string
}.
(** The conversion in [AddTimeBeacon2EthChain]. *)
Definition to_contract (tb : TimeBeacon) : ContractTB :=
  mkContractTB (tbShardID tb) (tbHeight tb) (tbBlockHash tb) (tbTxHash tb) (tbStatusHash tb).

(** A transaction as the program builds it; the value is always zero. *)
Record Tx := mkTx { Nonce : Z; To : bytes; GasLimit : Z; GasPrice : Z; Data : bytes }.

(** What the ABI decoder puts into an [interface{}]. *)
Inductive abi_value :=
  | VString (s : string)
  | VUint32 (z : Z)
  | VUint64 (z : Z)
  | VAddress (a : bytes)
  | VBytes (b : bytes)
  | VFixedBytes (b : bytes).
(** Type assertions; the zero value of the map is the nil interface. *)
Definition as_string (v : option abi_value) : go string :=
  match v with Some (VString s) => Ret s | _ => Halt (GoPanic "interface conversion") end.
Definition as_uint32 (v : option abi_value) : go Z :=
  match v with Some (VUint32 z) => Ret z | _ => Halt (GoPanic "interface conversion") end.
Definition as_uint64 (v : option abi_value) : go Z :=
  match v with Some (VUint64 z) => Ret z | _ => Halt (GoPanic "interface conversion") end.
Definition as_address (v : option abi_value) : go bytes :=
  match v with Some (VAddress a) => Ret a | _ => Halt (GoPanic "interface conversion") end.
Definition as_bytes (v : option abi_value) : go bytes :=
  match v with Some (VBytes b) => Ret b | _ => Halt (GoPanic "interface conversion") end.

(** *** go-ethereum and the node *)
Class EthLib := {
  key : Type;
  SignedTx : Type;
  HexToECDSA : string → string + key;
  (** the address of the key and its signing function *)
  NewKeyedTransactorWithChainID : key → Z → string + (bytes * (Tx → string + SignedTx));
  Pack_addTB : ContractTB → list bytes → list bytes → Z → list bytes → string + bytes;
  Pack_adjustRecordedAddrs : list bytes → list bytes → Z → string + bytes;
  Pack_getTB : Z → Z → string + bytes;
  (** the fields of the struct that [getTB] returns *)
  Unpack_getTB : bytes → string + gmap string abi_value;
  (** [UnpackIntoMap] after [FromHex], of the two events *)
  Unpack_LogMessage : string → string + gmap string abi_value;
  Unpack_VerifyMessage : string → string + gmap string abi_value
}.
(** The state of an Ethereum node, and what a client gets from it; an error
    is its text. *)
Class EthNode `{EthLib} := {
  node : Type;
  PendingNonceAt : node → bytes → node * (string + Z);
  SuggestGasPrice : node → node * (string + Z);
  SendTransaction : node → SignedTx → node * option string;
  HeaderByNumber : node → option Z → node * (string + (bytes * Z));
  CallContract : node → bytes → bytes → node * (string + bytes);
  (** deployment of the contract, and the wait until it is mined *)
  bind_DeployContract : node → (bytes * (Tx → string + SignedTx)) → list ContractTB → Z → Z → list (list bytes) →
    node * (string + bytes);
  WaitDeployed : node → bytes → node * option string
}.
(** What decoding is documented to give for the types in the ABI. *)
Class EthLibLaws `{EthLib} := {
  LogMessage_types : ∀ d m, Unpack_LogMessage d = inr m → ∃ s a h addr,
    m !! "message" = Some (VString s) ∧ m !! "shardID" = Some (VUint32 a) ∧ m !! "height" = Some (VUint64 h) ∧
    m !! "addr" = Some (VAddress addr);
  VerifyMessage_types : ∀ d m, Unpack_VerifyMessage d = inr m → ∃ s h,
    m !! "verifyType" = Some (VString s) ∧ m !! "msgHash" = Some (VFixedBytes h)
}.

(** [r, err := f(); if err != nil { log.Error(msg) }] *)
Definition ok_or_exit {A} (msg : string) (r : string + A) : go A :=
  match r with inr a => Ret a | inl _ => Halt (LogError msg) end.

(** ** Private keys (src/cfg/account.go) *)
Section keys.
Context `{MI : MapIter}.

Definition getAllAddrs (NodeTable : gmap Z (gmap Z string)) : list string :=
  map_iter NodeTable ≫= λ row, (map_iter row.2).*2.
(** [getAllPrivateKey]: the values of the file's JSON object, [None] when it
    cannot be read or decoded. *)
Definition getAllPrivateKey (file : option (gmap string string)) : go (list string) :=
  m ← or_exit "Error reading private keys file" file; Ret (map_iter m).*2.

Fixpoint assign_keys (i : Z) (addrList allPrivateKeys : list string) (m : gmap string string) : go (gmap string string) :=
  match addrList with
  | [] => Ret m
  | addr :: addrList =>
      k ← go_index allPrivateKeys i; assign_keys (i + 1) addrList allPrivateKeys (<[addr := k]> m)
  end.
(** [GetGethChainPrivateKey]: the table it keeps, and the key; the empty
    string for an unknown address. *)
Definition GetGethChainPrivateKey (file : option (gmap string string)) (NodeTable : gmap Z (gmap Z string))
    (cached : option (gmap string string)) (nodeAddr : string) : go (gmap string string * string) :=
  m ← match cached with
      | Some m => Ret m
      | None => allPrivateKeys ← getAllPrivateKey file; assign_keys 0 (getAllAddrs NodeTable) allPrivateKeys ∅
      end;
  Ret (m, default "" (m !! nodeAddr)).
End keys.

(** ** Sending transactions (src/eth_chain/eth_chain.go) *)

(** The package's variables; [lastNonce] starts as the largest [uint64],
    which stands for none. *)
Record sender := mkSender { lastNonce : Z; lowestGasPrice : Z; gethChainPriKeys : option (gmap string string) }.
Definition MaxUint64 : Z := 2^64 - 1.
Definition new_sender : sender := mkSender MaxUint64 0 None.
Definition set_nonce (n : Z) (s : sender) : sender := mkSender n (lowestGasPrice s) (gethChainPriKeys s).
Definition set_price (p : Z) (s : sender) : sender := mkSender (lastNonce s) p (gethChainPriKeys s).
Definition set_keys (m : gmap string string) (s : sender) : sender := mkSender (lastNonce s) (lowestGasPrice s) (Some m).

Section client.
Context `{MI : MapIter} `{EL : EthLib} `{EN : !EthNode}.
(** The configuration: accounts of the Ganache chain, the file with keys,
    the tables of nodes and the chain. *)
Variable GanacheChainAccounts : list string.
Variable key_file : option (gmap string string).
Variable NodeTable ComNodeTable : gmap Z (gmap Z string).
Variable contractAddr : bytes.
Variable chainID : Z.

Definition myPrivateKey (comID nodeID mode : Z) (s : sender) : go (sender * key) :=
  '(s, account) ← (if bool_decide (mode = 1) then a ← go_index GanacheChainAccounts comID; Ret (s, a)
                   else if bool_decide (mode = 2) then
                     let nodeAddr := default "" (default ∅ (ComNodeTable !! comID) !! nodeID) in
                     '(m, a) ← GetGethChainPrivateKey key_file NodeTable (gethChainPriKeys s) nodeAddr;
                     Ret (set_keys m s, a)
                   else Halt (LogError "unknown chain mode"));
  k ← ok_or_exit "crypto.HexToECDSA fail" (HexToECDSA account);
  Ret (s, k).

Definition GetLatestBlockHash (n : node) : go (node * (bytes * Z)) :=
  let '(n, r) := HeaderByNumber n None in
  h ← ok_or_exit "get tbchain latest block header fail" r; Ret (n, h).
Definition GetBlockHash (n : node) (height : Z) : go (node * (bytes * Z)) :=
  let '(n, r) := HeaderByNumber n (Some height) in
  h ← ok_or_exit "get tbchain block header fail" r; Ret (n, h).

(** The nonce of the next transaction: the node's for the first one. *)
Definition next_nonce (n : node) (s : sender) (from : bytes) : go (node * sender * Z) :=
  if bool_decide (lastNonce s = MaxUint64) then
    let '(n, r) := PendingNonceAt n from in
    nonce ← ok_or_exit "client.PendingNonceAt err" r;
    Ret (n, set_nonce nonce s, nonce)
  else
    let nonce := u64 (lastNonce s + 1) in Ret (n, set_nonce nonce s, nonce).
(** A price is asked for when there is none: the low 64 bits are zero. *)
Definition gas_price (n : node) (s : sender) : go (node * sender) :=
  if bool_decide (u64 (lowestGasPrice s) = 0) then
    let '(n, r) := SuggestGasPrice n in
    p ← ok_or_exit "client.SuggestGasPrice err" r;
    Ret (n, set_price p s)
  else Ret (n, s).

(** What an error of the node says. *)
Definition nonce_error (err : string) : bool :=
  Contains err "replacement transaction underpriced" || Contains err "nonce too low".
Definition price_error (err : string) : bool := Contains err "transaction underpriced".

Definition gasLimit : Z := 30000000.
(** The loop; the result is the error, or the transaction the node took,
    where the code returns nil.  The code tries for ever, [fuel] is how often
    it is watched. *)
Fixpoint mustSend (fuel : nat) (signer : Tx → string + SignedTx) (callData : bytes) (n : node) (s : sender) (nonce : Z) :
    go (node * sender * (string + Tx)) :=
  match fuel with
  | O => Halt (Blocked "mustSend")
  | S fuel =>
      let tx := mkTx nonce contractAddr gasLimit (lowestGasPrice s) callData in
      signedTx ← ok_or_exit "auth.Signer err" (signer tx);
      let '(n, err) := SendTransaction n signedTx in
      match err with
      | None => Ret (n, s, inr tx)
      | Some err =>
          if nonce_error err then
            let nonce := u64 (nonce + 1) in mustSend fuel signer callData n (set_nonce nonce s) nonce
          else if price_error err then
            let toAdd := lowestGasPrice s `div` 10 in
            mustSend fuel signer callData n (set_price (lowestGasPrice s + toAdd) s) nonce
          else Ret (n, s, inl err)
      end
  end.

Definition transact (fuel : nat) (comID nodeID mode : Z) (packed : string + bytes) (n : node) (s : sender) :
    go (node * sender * (string + Tx)) :=
  callData ← ok_or_exit "abi.Pack err" packed;
  '(s, k) ← myPrivateKey comID nodeID mode s;
  '(from, signer) ← ok_or_exit "bind.NewKeyedTransactorWithChainID err" (NewKeyedTransactorWithChainID k chainID);
  '(n, s, nonce) ← next_nonce n s from;
  '(n, s) ← gas_price n s;
  mustSend fuel signer callData n s nonce.

(** [AddTB] and [AdjustRecordedAddrs]; they hold one lock. *)
Definition eth_AddTB (fuel : nat) (mode : Z) (tb : ContractTB) (sigs vrfs : list bytes) (seedHeight : Z)
    (signers : list bytes) (nodeID : Z) (n : node) (s : sender) : go (node * sender * (string + Tx)) :=
  transact fuel (ShardID tb) nodeID mode (Pack_addTB tb sigs vrfs seedHeight signers) n s.
Definition eth_AdjustRecordedAddrs (fuel : nat) (mode comID : Z) (addrs vrfs : list bytes) (seedHeight nodeID : Z)
    (n : node) (s : sender) : go (node * sender * (string + Tx)) :=
  transact fuel comID nodeID mode (Pack_adjustRecordedAddrs addrs vrfs seedHeight) n s.

(** [DeployContract]: the address. *)
Definition eth_DeployContract (mode : Z) (genesisTBs : list ContractTB) (required_sig_cnt shard_num : Z)
    (addrs : list (list bytes)) (n : node) (s : sender) : go (node * sender * bytes) :=
  '(s, k) ← myPrivateKey 0 0 mode s;
  auth ← ok_or_exit "bind.NewKeyedTransactorWithChainID err" (NewKeyedTransactorWithChainID k chainID);
  let '(n, r) := bind_DeployContract n auth genesisTBs required_sig_cnt shard_num addrs in
  address ← ok_or_exit "DeployContract err" r;
  let '(n, err) := WaitDeployed n address in
  match err with None => Ret (n, s, address) | Some _ => Halt (LogError "WaitDeployed err") end.

(** [resolveTB], nil when the result cannot be decoded, and [GetTB]. *)
Definition resolveTB (resultData : bytes) : go (option ContractTB) :=
  match Unpack_getTB resultData with
  | inl _ => Ret None
  | inr fields =>
      height ← as_uint64 (fields !! "Height");
      shardID ← as_uint32 (fields !! "ShardID");
      blockHash ← as_string (fields !! "BlockHash");
      txHash ← as_string (fields !! "TxHash");
      statusHash ← as_string (fields !! "StatusHash");
      Ret (Some (mkContractTB shardID height blockHash txHash statusHash))
  end.
Definition GetTB (shardID height : Z) (n : node) : go (node * (string + option ContractTB)) :=
  match Pack_getTB shardID height with
  | inl err => Ret (n, inl err)
  | inr callData =>
      let '(n, r) := CallContract n contractAddr callData in
      match r with
      | inl err => Ret (n, inl err)
      | inr result => tb ← resolveTB result; Ret (n, inr tb)
      end
  end.

(** ** The calls of the beacon chain (src/beaconChain/ethChainInterface.go)

    An error ends the process; the result is the transaction taken by AddTB
    or AdjustRecordedAddrs.  The transaction that DeployContract sends is not
    in the list: its nonce does not come from [lastNonce].  Only the booter
    deploys, and the booter never submits a beacon or addresses. *)
Definition perform_call (fuel : nat) (required shardNum mode : Z) (c : eth_call) (n : node) (s : sender) :
    go (node * sender * list Tx) :=
  match c with
  | AddTB tb nodeID =>
      '(n, s, r) ← eth_AddTB fuel mode (to_contract (sTimeBeacon tb)) (Sigs tb) (Vrfs tb) (SeedHeight tb) (Signers tb) nodeID n s;
      tx ← ok_or_exit "eth_chain.AddTB err" r; Ret (n, s, [tx])
  | AdjustRecordedAddrs comID addrs vrfs seedHeight nodeID =>
      '(n, s, r) ← eth_AdjustRecordedAddrs fuel mode comID addrs vrfs seedHeight nodeID n s;
      tx ← ok_or_exit "eth_chain.AdjustRecordedAddrs err" r; Ret (n, s, [tx])
  | DeployContract genesis addrs =>
      '(n, s, _) ← eth_DeployContract mode (map to_contract genesis) required shardNum addrs n s; Ret (n, s, [])
  end.
Definition performs (fuel : nat) (required shardNum mode : Z) (cs : list eth_call) (n : node) (s : sender) :
    go (node * sender * list Tx) :=
  go_fold (λ r c, '(n, s, txs) ← perform_call fuel required shardNum mode c r.1.1 r.1.2; Ret (n, s, r.2 ++ txs)) (n, s, []) cs.
End client.

(** ** Events (src/eth_chain/subscribe.go) *)
Section subscribe.
Context `{EL : EthLib}.
(** [json.Unmarshal] of a message: block number and data of its result. *)
Variable Unmarshal : string → option (string * string).

(** [eth_chain.Event] *)
Record eth_event := mkEthEvent { Msg : string; evShardID : Z; evHeight : Z; evEth_height : Z }.

(** [handleMessage]: both decodings are tried. *)
Definition handleMessage (data : string) : go (option eth_event) :=
  match Unpack_LogMessage data, Unpack_VerifyMessage data with
  | inr m, _ =>
      message ← as_string (m !! "message");
      shardID ← as_uint32 (m !! "shardID");
      height ← as_uint64 (m !! "height");
      _ ← match m !! "addr" with None => Ret (replicate 20 0) | v => as_address v end;
      Ret (Some (mkEthEvent message shardID height 0))
  | inl _, inr m =>
      _ ← as_string (m !! "verifyType");
      _ ← as_bytes (m !! "msgHash");
      _ ← as_bytes (m !! "sig");
      _ ← as_address (m !! "recoverAddr");
      _ ← as_address (m !! "expectedAddr");
      Ret None
  | inl _, inl _ => Halt (LogError "Failed to decode both LogMessage and VerifyMessage")
  end.

(** One turn of the loop of [SubscribeEvents]: the event it sends on the
    channel, if any. *)
Definition on_message (message : string) : go (option eth_event) :=
  match Unmarshal message with
  | None => Ret None
  | Some (heightStr, data) =>
      eth_height ← or_exit "parseInt fail" (ParseInt heightStr);
      event ← handleMessage data;
      match event with
      | None => Ret None
      | Some e =>
          let e := mkEthEvent (Msg e) (evShardID e) (evHeight e) (u64 eth_height) in
          if bool_decide (Msg e = "addTB") then Ret (Some e)
          else if Contains (Msg e) "addTB..." || Contains (Msg e) "adjustAddr" then Halt (LogError (Msg e))
          else Ret None
      end
  end.
(** The channel after the messages. *)
Definition SubscribeEvents (messages : list string) : go (list eth_event) :=
  go_fold (λ eventChannel message, e ← on_message message; Ret (eventChannel ++ match e with Some e => [e] | None => [] end))
    [] messages.
(** What the beacon chain reads of an event. *)
Definition seen (e : eth_event) : Event := mkEvent (evEth_height e) (evShardID e) (evHeight e).
End subscribe.

(** ** Sending: the loop ends, and no nonce is used twice *)
Section sending.
Context `{MI : MapIter} `{EL : EthLib} `{EN : !EthNode}.
Variable GanacheChainAccounts : list string.
Variable key_file : option (gmap string string).
Variable NodeTable ComNodeTable : gmap Z (gmap Z string).
Variable contractAddr : bytes.
Variable chainID : Z.

(** A node that calls a nonce too low, or one to be replaced, only below [N],
    and a price too low only below [P]. *)
Definition fair_node (signer : Tx → string + SignedTx) (N P : Z) : Prop := ∀ n tx stx n' err,
  signer tx = inr stx → SendTransaction n stx = (n', Some err) →
  (nonce_error err = true → Nonce tx < N) ∧ (nonce_error err = false → price_error err = true → GasPrice tx < P).

(** How a transaction ended: the node took it, with what is kept for the
    next, or it refused for another reason. *)
Definition sent (nonce : Z) (s s' : sender) (r : string + Tx) : Prop :=
  nonce ≤ lastNonce s' ∧ lowestGasPrice s ≤ lowestGasPrice s' ∧ gethChainPriKeys s' = gethChainPriKeys s ∧
  match r with
  | inr tx => Nonce tx = lastNonce s' ∧ GasPrice tx = lowestGasPrice s'
  | inl err => nonce_error err = false ∧ price_error err = false
  end.

Lemma mustSend_ok signer callData N P : fair_node signer N P → (∀ tx, ∃ stx, signer tx = inr stx) → N < 2^64 →
  ∀ fuel n s nonce, lastNonce s = nonce → 0 ≤ nonce < 2^64 → 10 ≤ lowestGasPrice s →
  (Z.to_nat (N - nonce) + Z.to_nat (P - lowestGasPrice s) < fuel)%nat →
  ∃ n' s' r, mustSend contractAddr fuel signer callData n s nonce = Ret (n', s', r) ∧ sent nonce s s' r ∧
    lastNonce s' ≤ Z.max nonce N ∧ 0 ≤ lastNonce s'.
Proof.
  intros Hfair Hsig HN. induction fuel as [|fuel IH]; intros n s nonce Hl Hn Hp Hf; [lia|].
  cbn [mustSend]. set (tx := mkTx _ _ _ _ _). destruct (Hsig tx) as [stx Hstx]. rewrite Hstx. cbn [ok_or_exit mbind go_bind].
  destruct (SendTransaction n stx) as [n1 [err|]] eqn:HS; [|exists n1, s, (inr tx); unfold sent; split_and!; try done; lia].
  destruct (Hfair _ _ _ _ _ Hstx HS) as [H1 H2]. destruct (nonce_error err) eqn:E1.
  - specialize (H1 eq_refl). simpl in H1. rewrite u64_small by (unfold in_u64; lia).
    destruct (IH n1 (set_nonce (nonce + 1) s) (nonce + 1)) as (n' & s' & r & Hr & (S1 & S2 & S3 & S4) & Hb & Hb0);
      [done|lia|done|simpl; lia|].
    exists n', s', r. split; [done|]. split; [|lia]. unfold sent. simpl in *. split_and!; [lia|done..].
  - destruct (price_error err) eqn:E2; [|exists n1, s, (inl err); unfold sent; split_and!; try done; lia].
    specialize (H2 eq_refl eq_refl). simpl in H2.
    assert (1 ≤ lowestGasPrice s `div` 10) by (apply Z.div_le_lower_bound; lia).
    destruct (IH n1 (set_price (lowestGasPrice s + lowestGasPrice s `div` 10) s) nonce) as (n' & s' & r & Hr & (S1 & S2 & S3 & S4) & Hb & Hb0);
      [done|done|simpl; lia|simpl; lia|].
    exists n', s', r. split; [done|]. split; [|lia]. unfold sent. simpl in *. split_and!; [lia|lia|done..].
Qed.

(** What [myPrivateKey] leaves alone. *)
Lemma myPrivateKey_keeps comID nodeID mode s s' k :
  myPrivateKey GanacheChainAccounts key_file NodeTable ComNodeTable comID nodeID mode s = Ret (s', k) →
  lastNonce s' = lastNonce s ∧ lowestGasPrice s' = lowestGasPrice s.
Proof.
  unfold myPrivateKey. intros ([s1 a] & H1 & (k' & _ & [= <- <-])%go_bind_Ret)%go_bind_Ret.
  case_bool_decide; [by apply go_bind_Ret in H1 as (? & _ & [= <- _])|].
  case_bool_decide; [|done]. by apply go_bind_Ret in H1 as ([m b] & _ & [= <- _]).
Qed.

Lemma mustSend_nonce signer callData fuel : ∀ n s nonce n' s' r,
  mustSend contractAddr fuel signer callData n s nonce = Ret (n', s', r) →
  lastNonce s = nonce → 0 ≤ nonce → nonce + Z.of_nat fuel < 2^64 →
  nonce ≤ lastNonce s' < nonce + Z.of_nat fuel ∧ ∀ tx, r = inr tx → Nonce tx = lastNonce s'.
Proof.
  induction fuel as [|fuel IH]; intros n s nonce n' s' r H Hl Hn Hf; [done|]. cbn [mustSend] in H.
  apply go_bind_Ret in H as (stx & _ & H). destruct (SendTransaction n stx) as [n1 [err|]].
  - destruct (nonce_error err).
    { rewrite u64_small in H by (unfold in_u64; lia). destruct (IH _ _ _ _ _ _ H) as [IH1 IH2]; [done|lia|lia|]. split; [lia|done]. }
    destruct (price_error err).
    { destruct (IH _ _ _ _ _ _ H) as [IH1 IH2]; [done|lia|lia|]. split; [lia|done]. }
    injection H as <- <- <-. split; [lia|done].
  - injection H as <- <- <-. split; [lia|]. by intros tx [= <-].
Qed.

Lemma mustSend_tx signer callData fuel : ∀ n s nonce n' s' tx,
  mustSend contractAddr fuel signer callData n s nonce = Ret (n', s', inr tx) → Data tx = callData ∧ To tx = contractAddr.
Proof.
  induction fuel as [|fuel IH]; intros n s nonce n' s' tx H; [done|]. cbn [mustSend] in H.
  apply go_bind_Ret in H as (stx & _ & H). destruct (SendTransaction n stx) as [n1 [err|]]; [|by injection H as _ _ <-].
  destruct (nonce_error err); [by eapply IH|]. destruct (price_error err); [by eapply IH|done].
Qed.

(** The nonces used so far, in a process that made [k] attempts at most. *)
Definition used (k : Z) (s : sender) (txs : list Tx) : Prop :=
  StronglySorted Z.lt (Nonce <$> txs) ∧
  (lastNonce s = MaxUint64 ∧ txs = [] ∨ 0 ≤ lastNonce s < 2^63 + k ∧ Forall (λ tx, Nonce tx ≤ lastNonce s) txs).

Lemma sorted_snoc l x : StronglySorted Z.lt l → Forall (λ y, y < x) l → StronglySorted Z.lt (l ++ [x]).
Proof.
  induction l as [|y l IH]; intros Hs Hx; [by repeat constructor|]. apply StronglySorted_inv in Hs as [Hs Hy].
  apply Forall_cons in Hx as [Hxy Hx]. simpl. constructor; [by apply IH|]. apply Forall_app. split; [done|by constructor].
Qed.

Hypothesis pending_small : ∀ n from n' z, PendingNonceAt n from = (n', inr z) → 0 ≤ z < 2^63.

Lemma transact_used fuel comID nodeID mode packed n s n' s' tx txs k :
  transact GanacheChainAccounts key_file NodeTable ComNodeTable contractAddr chainID fuel comID nodeID mode packed n s =
    Ret (n', s', inr tx) →
  used k s txs → 0 ≤ k → k + Z.of_nat fuel + 1 < 2^63 - 1 → used (k + Z.of_nat fuel + 1) s' (txs ++ [tx]).
Proof.
  intros H [Hs Hu] Hk Hf. unfold transact in H. apply go_bind_Ret in H as (cd & _ & ([s1 key] & Hkey & H)%go_bind_Ret).
  apply myPrivateKey_keeps in Hkey as [Hl _]. apply go_bind_Ret in H as ([from signer] & _ & ([[n1 s2] nonce] & Hn & H)%go_bind_Ret).
  apply go_bind_Ret in H as ([n2 s3] & Hg & H).
  assert (lastNonce s2 = nonce ∧ 0 ≤ nonce < 2^63 + k + 1 ∧ Forall (λ t, Nonce t < nonce) txs) as (Hn2 & Hn0 & Hlt).
  { unfold next_nonce in Hn. rewrite Hl in Hn. case_bool_decide as Hm.
    - destruct (PendingNonceAt n from) as [n3 r] eqn:Hp. apply go_bind_Ret in Hn as (z & Hz & [= <- <- <-]).
      destruct r as [|z']; [done|]. injection Hz as ->. apply pending_small in Hp.
      destruct Hu as [[_ ->]|[Hu _]]; [split_and!; [done|lia|lia|constructor]|unfold MaxUint64 in Hm; lia].
    - destruct Hu as [[? _]|[Hu HF]]; [done|]. injection Hn as <- <- <-. rewrite u64_small by (unfold in_u64; lia). split_and!; [done|lia|lia|].
      eapply Forall_impl; [exact HF|]. simpl. lia. }
  assert (lastNonce s3 = nonce) as Hn3.
  { rewrite <-Hn2. unfold gas_price in Hg. case_bool_decide; [|by injection Hg as _ <-].
    destruct (SuggestGasPrice n1) as [n3 r]. by apply go_bind_Ret in Hg as (p & _ & [= _ <-]). }
  destruct (mustSend_nonce _ _ _ _ _ _ _ _ _ H Hn3) as [Hb Htx]; [lia|lia|]. specialize (Htx tx eq_refl).
  split; [rewrite fmap_app; apply sorted_snoc; [done|]|right; split; [lia|]].
  - apply Forall_fmap. eapply Forall_impl; [exact Hlt|]. simpl. lia.
  - apply Forall_app. split; [|by constructor; [lia|]]. eapply Forall_impl; [exact Hlt|]. simpl. lia.
Qed.

Lemma perform_call_used fuel required shardNum mode c n s n' s' txs0 txs k :
  perform_call GanacheChainAccounts key_file NodeTable ComNodeTable contractAddr chainID fuel required shardNum mode c n s =
    Ret (n', s', txs) →
  used k s txs0 → 0 ≤ k → k + Z.of_nat fuel + 1 < 2^63 - 1 → used (k + Z.of_nat fuel + 1) s' (txs0 ++ txs).
Proof.
  intros H Hu Hk Hf. destruct c as [tb nodeID|comID addrs vrfs h nodeID|genesis addrs]; cbn [perform_call] in H.
  - apply go_bind_Ret in H as ([[n1 s1] r] & H1 & (tx & Ht & [= <- <- <-])%go_bind_Ret). destruct r; [done|]. injection Ht as ->.
    by eapply transact_used.
  - apply go_bind_Ret in H as ([[n1 s1] r] & H1 & (tx & Ht & [= <- <- <-])%go_bind_Ret). destruct r; [done|]. injection Ht as ->.
    by eapply transact_used.
  - apply go_bind_Ret in H as ([[n1 s1] r] & H1 & [= <- <- <-]). rewrite app_nil_r. unfold eth_DeployContract in H1.
    apply go_bind_Ret in H1 as ([s2 key] & Hkey & (auth & _ & H1)%go_bind_Ret). apply myPrivateKey_keeps in Hkey as [Hl _].
    destruct (bind_DeployContract _ _ _ _ _ _) as [n2 [|a]]; cbn [ok_or_exit mbind go_bind] in H1; [done|].
    destruct (WaitDeployed n2 a) as [n3 [|]]; [done|]. injection H1 as <- <- <-. destruct Hu as [Hs Hu]. split; [done|].
    rewrite Hl. destruct Hu as [?|[? ?]]; [by left|right]. split; [lia|done].
Qed.
End sending.

(** C22. No transaction of a process replaces an earlier one: whatever the
    node answers, the transactions that the node took from a process in its
    calls of AddTB and AdjustRecordedAddrs have strictly increasing nonces, as
    long as the nonces the node reports and the number of attempts stay below
    2^63.  (A deployment is not counted: only the booter deploys, and it makes
    no other call.) *)
Theorem nonces_increase `{MI : MapIter} `{EL : EthLib} `{EN : !EthNode} accounts key_file NodeTable ComNodeTable contractAddr chainID
    fuel required shardNum mode (cs : list eth_call) (n n' : node) s' txs :
  (∀ n from n' z, PendingNonceAt n from = (n', inr z) → 0 ≤ z < 2^63) →
  len cs * (Z.of_nat fuel + 1) < 2^63 - 1 →
  performs accounts key_file NodeTable ComNodeTable contractAddr chainID fuel required shardNum mode cs n new_sender = Ret (n', s', txs) →
  StronglySorted Z.lt (Nonce <$> txs).
Proof.
  intros Hp Hlen H.
  assert (∀ k txs0 s n, used k s txs0 → 0 ≤ k → k + len cs * (Z.of_nat fuel + 1) < 2^63 - 1 →
    go_fold (λ r c, '(n, s, txs) ← perform_call accounts key_file NodeTable ComNodeTable contractAddr chainID fuel required shardNum mode c r.1.1 r.1.2;
      Ret (n, s, r.2 ++ txs)) (n, s, txs0) cs = Ret (n', s', txs) → StronglySorted Z.lt (Nonce <$> txs)) as Hgen.
  { clear H Hlen. induction cs as [|c cs IH]; intros k txs0 s n1 Hu Hk Hlen H; cbn [go_fold] in H.
    - injection H as _ _ <-. apply Hu.
    - rewrite len_cons in Hlen. pose proof (len_nonneg cs). apply go_bind_Ret in H as (r & ([[n2 s2] t2] & H1 & [= <-])%go_bind_Ret & H).
      cbn [fst snd] in *. eapply (IH (k + Z.of_nat fuel + 1)); [|lia|lia|exact H].
      eapply perform_call_used; [exact Hp|exact H1|exact Hu|lia|nia]. }
  eapply (Hgen 0 [] new_sender n); [|lia|lia|exact H]. split; [constructor|by left].
Qed.

(** C23. Submitting a beacon ends: a node that calls a nonce too low only below
    some [N], and a price too low only below some [P], takes the transaction
    or refuses it for another reason within [N + P] attempts, if the price it
    suggests is at least 10.  The nonce and the price of the transaction that
    was taken are kept for the next one. *)
Theorem eth_AddTB_ends `{MI : MapIter} `{EL : EthLib} `{EN : !EthNode} accounts key_file NodeTable ComNodeTable contractAddr chainID
    fuel mode tb sigs vrfs seedHeight signers nodeID (n : node) s N P callData s1 k from signer :
  Pack_addTB tb sigs vrfs seedHeight signers = inr callData →
  myPrivateKey accounts key_file NodeTable ComNodeTable (ShardID tb) nodeID mode s = Ret (s1, k) →
  NewKeyedTransactorWithChainID k chainID = inr (from, signer) → (∀ tx, ∃ stx, signer tx = inr stx) →
  (∃ n' z, PendingNonceAt n from = (n', inr z) ∧ 0 ≤ z < 2^64) →
  (∀ n, ∃ n' p, SuggestGasPrice n = (n', inr p) ∧ 10 ≤ p) →
  in_u64 (lastNonce s) → lowestGasPrice s = 0 ∨ 10 ≤ lowestGasPrice s →
  fair_node signer N P → 0 ≤ N < 2^64 → 0 ≤ P → (Z.to_nat (N + P) < fuel)%nat →
  ∃ n' s' r, eth_AddTB accounts key_file NodeTable ComNodeTable contractAddr chainID fuel mode tb sigs vrfs seedHeight signers nodeID n s =
    Ret (n', s', r) ∧
    match r with
    | inr tx => Nonce tx = lastNonce s' ∧ GasPrice tx = lowestGasPrice s' ∧ Data tx = callData ∧ To tx = contractAddr
    | inl err => nonce_error err = false ∧ price_error err = false
    end.
Proof.
  intros Hpack Hkey Hauth Hsig (n1 & z & Hpend & Hz) Hgas Hs Hprice Hfair HN HP Hf.
  unfold eth_AddTB, transact. rewrite Hpack. cbn [ok_or_exit mbind go_bind]. rewrite Hkey. cbn [mbind go_bind].
  rewrite Hauth. cbn [ok_or_exit mbind go_bind]. apply myPrivateKey_keeps in Hkey as [Hl Hpr].
  assert (∃ n2 s2 nonce, next_nonce n s1 from = Ret (n2, s2, nonce) ∧ lastNonce s2 = nonce ∧ 0 ≤ nonce < 2^64 ∧
    lowestGasPrice s2 = lowestGasPrice s) as (n2 & s2 & nonce & -> & Hn2 & Hn0 & Hp2).
  { unfold next_nonce. case_bool_decide as Hm.
    - rewrite Hpend. cbn [ok_or_exit mbind go_bind]. by eexists _, _, _.
    - eexists _, _, _. split; [done|]. split; [done|]. split; [|done]. pose proof (u64_range (lastNonce s1 + 1)) as Hu. by unfold in_u64 in Hu. }
  cbn [mbind go_bind].
  assert (∃ n3 s3, gas_price n2 s2 = Ret (n3, s3) ∧ lastNonce s3 = nonce ∧ 10 ≤ lowestGasPrice s3) as (n3 & s3 & -> & Hn3 & Hp3).
  { unfold gas_price. case_bool_decide as Hm.
    - destruct (Hgas n2) as (n3 & p & -> & Hp). cbn [ok_or_exit mbind go_bind]. by eexists _, _.
    - exists n2, s2. split; [done|]. split; [done|]. rewrite Hp2 in *. destruct Hprice as [E|]; [by rewrite E in Hm|lia]. }
  cbn [mbind go_bind].
  destruct (mustSend_ok contractAddr signer callData N P Hfair Hsig (proj2 HN) fuel n3 s3 nonce Hn3 Hn0 Hp3) as (n' & s' & r & H & (_ & _ & _ & Hr) & _ & _);
    [lia|]. exists n', s', r. split; [done|]. destruct r as [err|tx]; [done|]. destruct Hr as [Hr1 Hr2].
  enough (Data tx = callData ∧ To tx = contractAddr) by done. eapply mustSend_tx; exact H.
Qed.

(** Below a price of 10 the raise by a tenth is nothing: a node that finds the
    price too low is asked again and again with the same one, while the lock
    of all submissions is held. *)
Lemma underpriced_forever `{EL : EthLib} `{EN : !EthNode} contractAddr (signer : Tx → string + SignedTx) callData nonce :
  (∀ tx, ∃ stx, signer tx = inr stx) → (∀ n stx, ∃ n', SendTransaction n stx = (n', Some "transaction underpriced")) →
  ∀ fuel n s, 0 ≤ lowestGasPrice s < 10 → mustSend contractAddr fuel signer callData n s nonce = Halt (Blocked "mustSend").
Proof.
  intros Hsig Hsend fuel. induction fuel as [|fuel IH]; intros n s Hp; [done|]. cbn [mustSend].
  destruct (Hsig (mkTx nonce contractAddr gasLimit (lowestGasPrice s) callData)) as [stx ->]. cbn [ok_or_exit mbind go_bind].
  destruct (Hsend n stx) as [n' ->].
  change (nonce_error "transaction underpriced") with false. change (price_error "transaction underpriced") with true. cbn [mbind].
  rewrite (Z.div_small (lowestGasPrice s) 10) by lia. apply IH. simpl. lia.
Qed.

(** ** The subscription *)
Section subscription.
Context `{EL : EthLib} `{ELL : !EthLibLaws}.
Variable Unmarshal : string → option (string * string).

(** The event a message confirms. *)
Definition confirmation (message : string) : option eth_event :=
  '(heightStr, data) ← Unmarshal message;
  h ← ParseInt heightStr;
  match Unpack_LogMessage data with
  | inr m =>
      match m !! "message", m !! "shardID", m !! "height" with
      | Some (VString s), Some (VUint32 a), Some (VUint64 x) =>
          if bool_decide (s = "addTB") then Some (mkEthEvent s a x (u64 h)) else None
      | _, _, _ => None
      end
  | inl _ => None
  end.
(** A message the process survives. *)
Definition survives (message : string) : Prop :=
  match Unmarshal message with
  | None => True
  | Some (heightStr, data) => is_Some (ParseInt heightStr) ∧
      ∃ m s, Unpack_LogMessage data = inr m ∧ m !! "message" = Some (VString s) ∧
        (s = "addTB" ∨ Contains s "addTB..." = false ∧ Contains s "adjustAddr" = false)
  end.

Lemma on_message_ok message e : on_message Unmarshal message = Ret e ↔ survives message ∧ e = confirmation message.
Proof.
  unfold on_message, survives, confirmation. destruct (Unmarshal message) as [[hs data]|]; [|split; [by intros [= <-]|by intros [_ ->]]].
  cbn [mbind option_bind]. destruct (ParseInt hs) as [h|]; cbn [or_exit mbind go_bind option_bind];
    [|split; [done|by intros [[[? ?] _] _]]]. unfold handleMessage.
  destruct (Unpack_LogMessage data) as [err|m] eqn:EL1.
  - split; [|by intros [(_ & m & s & ? & _) _]]. destruct (Unpack_VerifyMessage data) as [|m] eqn:EV; [done|].
    destruct (VerifyMessage_types data m EV) as (s & b & H1 & H2). rewrite H1. cbn [as_string mbind go_bind]. by rewrite H2.
  - destruct (LogMessage_types data m EL1) as (s & a & x & addr & H1 & H2 & H3 & H4). rewrite H1, H2, H3, H4.
    cbn [as_string as_uint32 as_uint64 as_address mbind go_bind Msg evShardID evHeight]. split.
    + case_bool_decide as Hs; [intros [= <-]; split; [split; [by eexists|]; exists m, s; auto|done]|].
      destruct (Contains s "addTB...") eqn:C1; [done|]. destruct (Contains s "adjustAddr") eqn:C2; [done|]. cbn [orb]. intros [= <-].
      split; [split; [by eexists|]; exists m, s; auto|done].
    + intros [(_ & m' & s' & [= <-] & Hs' & Hok) ->]. rewrite H1 in Hs'. injection Hs' as <-.
      case_bool_decide; [done|]. destruct Hok as [|[-> ->]]; done.
Qed.
End subscription.

(** The subscription delivers exactly the confirmations: the process
    survives the messages of the node if and only if each can be read and is
    no rejection by the contract (it exits otherwise, also on a message of a
    wrong form), and the channel has, in order, one event for each message
    [addTB], with the shard, the height and the Ethereum height it names. *)
Theorem subscribe_spec `{EL : EthLib} `{ELL : !EthLibLaws} Unmarshal messages evs :
  SubscribeEvents Unmarshal messages = Ret evs ↔
  Forall (survives Unmarshal) messages ∧ evs = omap (confirmation Unmarshal) messages.
Proof.
  assert (∀ evs0, go_fold (λ eventChannel message, e ← on_message Unmarshal message;
      Ret (eventChannel ++ match e with Some e => [e] | None => [] end)) evs0 messages = Ret evs ↔
    Forall (survives Unmarshal) messages ∧ evs = evs0 ++ omap (confirmation Unmarshal) messages) as Hgen; [|apply (Hgen [])].
  induction messages as [|m ms IH]; intros evs0; cbn [go_fold].
  - rewrite Forall_nil, app_nil_r. split; [by intros [= <-]|by intros [_ ->]].
  - rewrite Forall_cons, go_bind_Ret. setoid_rewrite go_bind_Ret. split.
    + intros (evs1 & (e & (Hs & ->)%on_message_ok & [= <-]) & [HF ->]%IH). split; [done|]. rewrite <-app_assoc. f_equal.
      simpl. by destruct (confirmation Unmarshal m).
    + intros [[Hs HF] ->]. eexists. split; [eexists; split; [by apply on_message_ok|done]|]. apply IH. split; [done|].
      rewrite <-app_assoc. f_equal. simpl. by destruct (confirmation Unmarshal m).
Qed.

(** ** Whose key

    The keys of the file and the addresses of the table are both listed in
    the order of a range over a map, which differs between processes. *)
Definition rotated_iter : MapIter.
Proof.
  refine {| map_iter := λ K _ _ A m, if decide (size m = 3%nat) then drop 1 (map_to_list m) ++ take 1 (map_to_list m) else map_to_list m |}.
  intros. case_decide; [|done]. rewrite Permutation_app_comm. by rewrite take_drop.
Defined.
Module DemoKeys.
Definition file : option (gmap string string) := Some {[ "x" := "k1"; "y" := "k2"; "z" := "k3" ]}.
Definition table : gmap Z (gmap Z string) := {[ 0 := {[ 0 := "a"; 1 := "b" ]} ]}.
Definition keys_in (MI : MapIter) : go (string * string) :=
  '(m, a) ← GetGethChainPrivateKey file table None "a"; '(_, b) ← GetGethChainPrivateKey file table (Some m) "b"; Ret (a, b).
End DemoKeys.
(** Two processes give two nodes the same account. *)
Lemma key_shared : ∃ a b c,
  DemoKeys.keys_in canonical_iter = Ret (a, b) ∧ DemoKeys.keys_in rotated_iter = Ret (b, c) ∨
  DemoKeys.keys_in canonical_iter = Ret (a, b) ∧ DemoKeys.keys_in rotated_iter = Ret (c, a).
Proof. vm_compute. eexists _, _, _. (left; split; reflexivity) || (right; split; reflexivity). Qed.

(** ** An instance: a node that wants nonce 5 and price 12 *)
Module DemoEth.
#[local] Instance demo_lib : EthLib := {|
  key := string;
  SignedTx := Tx;
  HexToECDSA k := inr k;
  NewKeyedTransactorWithChainID k c := inr ([1], λ tx, inr tx);
  Pack_addTB tb sigs vrfs h signers := inr [ShardID tb; cHeight tb];
  Pack_adjustRecordedAddrs addrs vrfs h := inr [h];
  Pack_getTB s h := inr [s; h];
  Unpack_getTB b := inl "empty";
  Unpack_LogMessage d :=
    if bool_decide (d = "confirm") then inr {[ "message" := VString "addTB"; "shardID" := VUint32 1; "height" := VUint64 7; "addr" := VAddress [] ]}
    else inl "bad";
  Unpack_VerifyMessage d := inl "bad"
|}.
#[local] Instance demo_lib_laws : EthLibLaws.
Proof.
  split; [|done]. intros d m. simpl. case_bool_decide; [|done]. intros [= <-]. by eexists _, _, _, _.
Qed.
#[local] Instance demo_node : EthNode := {|
  node := Z;
  PendingNonceAt n _ := (n, inr 3);
  SuggestGasPrice n := (n, inr 10);
  SendTransaction n tx :=
    if bool_decide (Nonce tx < 5) then (n, Some "nonce too low: next nonce 5")
    else if bool_decide (GasPrice tx < 12) then (n, Some "transaction underpriced")
    else (n + 1, None);
  HeaderByNumber n h := (n, inr ([0], default 0 h));
  CallContract n _ _ := (n, inl "no contract");
  bind_DeployContract n auth g r s a := (n, inr [7]);
  WaitDeployed n a := (n, None)
|}.
Definition tb : TimeBeacon := mkTimeBeacon 0 1 "" "" "".
Definition calls : list eth_call := [AddTB (mkSignedTB tb 0 [] [] []) 0; AdjustRecordedAddrs 0 [] [] 9 0; AddTB (mkSignedTB tb 0 [] [] []) 0].
Definition run := performs (MI := canonical_iter) ["key"] None ∅ ∅ [8] 1337 20 1 1 1 calls 0 new_sender.
Example run_nonces : match run with Ret (_, s, txs) => (lastNonce s, lowestGasPrice s, Nonce <$> txs, GasPrice <$> txs) | Halt _ => (0, 0, [], []) end =
  (7, 12, [5; 6; 7], [12; 12; 12]).
Proof. by vm_compute. Qed.
End DemoEth.

Lemma nonces_increase_witness :
  ∃ n s txs, DemoEth.run = Ret (n, s, txs) ∧ StronglySorted Z.lt (Nonce <$> txs) ∧ length txs = 3%nat.
Proof.
  destruct DemoEth.run as [[[n s] txs]|f] eqn:E; [|vm_compute in E; discriminate E].
  exists n, s, txs. split; [reflexivity|]. split.
  - apply (nonces_increase (MI := canonical_iter) (EN := DemoEth.demo_node) ["key"] None ∅ ∅ [8] 1337 20 1 1 1 DemoEth.calls 0 n s txs);
      [|vm_compute; reflexivity|exact E]. simpl. intros ? ? ? ? [= <- <-]. lia.
  - vm_compute in E. injection E as <- <- <-. reflexivity.
Defined.

Lemma eth_AddTB_ends_witness :
  ∃ n' s' r, eth_AddTB (MI := canonical_iter) (EN := DemoEth.demo_node) ["key"] None ∅ ∅ [8] 1337 20 1 (to_contract DemoEth.tb) [] [] 0 [] 0 0 new_sender =
    Ret (n', s', r) ∧
    match r with
    | inr tx => Nonce tx = lastNonce s' ∧ GasPrice tx = lowestGasPrice s' ∧ Data tx = [0; 1] ∧ To tx = [8]
    | inl err => nonce_error err = false ∧ price_error err = false
    end.
Proof.
  apply (eth_AddTB_ends (MI := canonical_iter) (EN := DemoEth.demo_node) ["key"] None ∅ ∅ [8] 1337 20 1 (to_contract DemoEth.tb) [] [] 0 [] 0 0
    new_sender 5 12 [0; 1] new_sender "key" [1] (λ tx, inr tx)).
  - reflexivity.
  - reflexivity.
  - reflexivity.
  - intros tx. exists tx. reflexivity.
  - exists 0, 3. split; [reflexivity|lia].
  - intros n. exists n, 10. split; [reflexivity|lia].
  - vm_compute. split; [discriminate|reflexivity].
  - left. reflexivity.
  - intros n tx stx n' err [= <-]. simpl. destruct (bool_decide_reflect (Nonce tx < 5)); [intros [= <- <-]; split; [auto|]; intros Hc; discriminate Hc|].
    destruct (bool_decide_reflect (GasPrice tx < 12)); [|discriminate 1]. intros [= <- <-]. split; [intros Hc; discriminate Hc|auto].
  - lia.
  - lia.
  - lia.
Defined.

Lemma subscribe_spec_witness :
  SubscribeEvents (EL := DemoEth.demo_lib) (λ m, Some ("0x10", m)) ["confirm"; "confirm"] =
    Ret [mkEthEvent "addTB" 1 7 16; mkEthEvent "addTB" 1 7 16].
Proof.
  apply (subscribe_spec (ELL := DemoEth.demo_lib_laws)). split; [|reflexivity].
  do 2 (constructor; [split; [eexists; reflexivity|]; eexists _, _; split; [reflexivity|]; split; [reflexivity|left; reflexivity]|]).
  constructor.
Defined.
