(* ===== verification/Client.v ===== *)
(** * The client (src/client/client.go, get.go, send.go).

    A client injects its transactions into the committees, collects their
    receipts, and, when the beacon of the block that contains a receipt is
    confirmed, moves the transaction on: the first half of a cross-shard
    transaction is followed by its second half, and if that is not confirmed
    in time by a rollback.

    [txs] and [txs_map] hold pointers to the same transactions, which
    [sendPendingTxs] updates in place; so the transactions live in a memory
    [mem] and both fields hold addresses in it.  The queues [cross2_txs] and
    [tx_reply] hold values: the program fills them with fresh copies.  The
    three locks make each operation below one step.  [GetTB] has no caller and
    is left out. *)
From S2P Require Import Prelude Utils Core Result Account MultiSign Beacon.
Local Open Scope Z_scope.

Record Client := mkClient {
  exitMode : Z;
  cid : Z;
  rollbackHeight : Z;
  shard_num : Z;
  mem : gmap Z Transaction;
  txs : list Z;
  txs_map : gmap Z Z;
  injectCnt : Z;
  InjectDoneMsgSent : bool;
  tx_reply : list TXReceipt;
  cross1_confirm_height_map : gmap Z Z;
  cross2_txs : list Transaction;
  cross_tx_expired : list Z;
  ctbs : gmap Z (gmap Z ConfirmedTB);
  shard_cur_heights : gmap Z Z;
  tbchain_height : Z
}.

(** Assignments to the fields that change together. *)
Definition set_pool (m : gmap Z Transaction) (l : list Z) (tm : gmap Z Z) (c : Client) : Client :=
  mkClient (exitMode c) (cid c) (rollbackHeight c) (shard_num c) m l tm (injectCnt c)
    (InjectDoneMsgSent c) (tx_reply c) (cross1_confirm_height_map c) (cross2_txs c)
    (cross_tx_expired c) (ctbs c) (shard_cur_heights c) (tbchain_height c).
Definition set_inject (cnt : Z) (sent : bool) (c : Client) : Client :=
  mkClient (exitMode c) (cid c) (rollbackHeight c) (shard_num c) (mem c) (txs c) (txs_map c) cnt
    sent (tx_reply c) (cross1_confirm_height_map c) (cross2_txs c)
    (cross_tx_expired c) (ctbs c) (shard_cur_heights c) (tbchain_height c).
Definition set_queues (rp : list TXReceipt) (c1 : gmap Z Z) (c2 : list Transaction) (ex : list Z)
    (c : Client) : Client :=
  mkClient (exitMode c) (cid c) (rollbackHeight c) (shard_num c) (mem c) (txs c) (txs_map c)
    (injectCnt c) (InjectDoneMsgSent c) rp c1 c2 ex (ctbs c) (shard_cur_heights c) (tbchain_height c).
Definition set_beacons (t : gmap Z (gmap Z ConfirmedTB)) (h : gmap Z Z) (tbh : Z) (c : Client) : Client :=
  mkClient (exitMode c) (cid c) (rollbackHeight c) (shard_num c) (mem c) (txs c) (txs_map c)
    (injectCnt c) (InjectDoneMsgSent c) (tx_reply c) (cross1_confirm_height_map c) (cross2_txs c)
    (cross_tx_expired c) t h tbh.

Definition NewClient (id rollbackHeight shardNum exitMode : Z) : Client :=
  let shards := Z.of_nat <$> seq 0 (Z.to_nat shardNum) in
  mkClient exitMode id rollbackHeight shardNum ∅ [] ∅ 0 false [] ∅ [] []
    (list_to_map ((λ s, (u32 s, ∅)) <$> shards)) (list_to_map ((λ s, (u32 s, 0)) <$> shards)) 0.

(** [shard_cur_heights[sid]]: zero when absent. *)
Definition cur_height (c : Client) (sid : Z) : Z := default 0 (shard_cur_heights c !! sid).

(** [*c.txs_map[txid]]: a nil dereference for an unknown id. *)
Definition load (c : Client) (txid : Z) : go Transaction :=
  p ← deref (txs_map c !! txid); deref (mem c !! p).

(** ** Receiving transactions and receipts *)
Definition Addtxs_rollback (rh : Z) (m : gmap Z Transaction) (p : Z) : go (gmap Z Transaction) :=
  tx ← deref (m !! p); Ret (<[p := set_RollbackHeight (u64 rh) tx]> m).

Definition Addtxs_map (m : gmap Z Transaction) (tm : gmap Z Z) (p : Z) : go (gmap Z Z) :=
  tx ← deref (m !! p); Ret (<[ID tx := p]> tm).

Definition Addtxs (ps : list Z) (c : Client) : go Client :=
  m ← go_fold (Addtxs_rollback (rollbackHeight c)) (mem c) ps;
  let l := txs c ++ ps in
  tm ← go_fold (Addtxs_map m) (txs_map c) l;
  Ret (set_pool m l tm c).

Definition AddTXReceipts (receipts : list TXReceipt) (c : Client) : Client :=
  set_queues (tx_reply c ++ receipts) (cross1_confirm_height_map c) (cross2_txs c)
    (cross_tx_expired c) c.

(** ** Confirmed receipts

    The loop of [processTXReceipts] over the linked list [tx_reply]; the
    accumulator is what it has kept, the two structures it updates, and the
    receipts to record. *)
Record progress := mkProgress {
  kept : list TXReceipt;
  heights1 : gmap Z Z;
  halves2 : list Transaction;
  to_record : gmap Z TXReceipt
}.

Definition process_receipt (c : Client) (acc : progress) (r : TXReceipt) : go progress :=
  match default ∅ (ctbs c !! u32 (rShardID r)) !! rBlockHeight r with
  | None => Ret (mkProgress (kept acc ++ [r]) (heights1 acc) (halves2 acc) (to_record acc))
  | Some tb =>
      let r := set_ConfirmTimeStamp (ConfirmTime tb) r in
      let rec' := <[TxID r := r]> (to_record acc) in
      if bool_decide (TxStatus r = IntraSuccess) then
        Ret (mkProgress (kept acc) (heights1 acc) (halves2 acc) rec')
      else if bool_decide (TxStatus r = CrossTXType1Success) then
        tx ← load c (TxID r);
        let h := cur_height c (u32 (Recipient_sid tx)) in
        let tx := set_ConfirmHeights (tbchain_height c) h
                    (set_TXStatus DefaultStatus (set_TXtype CrossTXType2 tx)) in
        Ret (mkProgress (kept acc) (<[TxID r := h]> (heights1 acc)) (halves2 acc ++ [tx]) rec')
      else if bool_decide (TxStatus r = CrossTXType2Success) then
        match heights1 acc !! TxID r with
        | None => Halt (LogError "tx should be in c.cross1_confirm_height_map, but actually not in.")
        | Some _ => Ret (mkProgress (kept acc) (delete (TxID r) (heights1 acc)) (halves2 acc) rec')
        end
      else Ret (mkProgress (kept acc) (heights1 acc) (halves2 acc) rec')
  end.
Arguments process_receipt : simpl never.

(** [processTXReceipts]; its last call [recordTXReceipts] updates the global
    recorder [res]. *)
Definition processTXReceipts `{MapIter} (c : Client) (res : Result) : go (Client * Result) :=
  p ← go_fold (process_receipt c)
        (mkProgress [] (cross1_confirm_height_map c) (cross2_txs c) ∅) (tx_reply c);
  res ← SetTXReceiptV2 (to_record p) res;
  Ret (set_queues (kept p) (heights1 p) (halves2 p) (cross_tx_expired c) c, res).

(** ** Expiry

    The loop deletes entries of the map it ranges over, which Go allows. *)
Definition expire_step (c : Client) (acc : list Z * gmap Z Z) (kv : Z * Z) : go (list Z * gmap Z Z) :=
  let '(ex, m) := acc in
  let '(txid, confirmHeight) := kv in
  tx ← load c txid;
  if bool_decide (cur_height c (u32 (Recipient_sid tx)) > u64 (confirmHeight + RollbackHeight tx))
  then Ret (ex ++ [txid], delete txid m)
  else Ret (ex, m).
Arguments expire_step : simpl never.

Definition checkExpiredTXs `{MapIter} (c : Client) : go Client :=
  '(ex, m) ← go_fold (expire_step c) ([], cross1_confirm_height_map c)
               (map_iter (cross1_confirm_height_map c));
  Ret (set_queues (tx_reply c) m (cross2_txs c) (cross_tx_expired c ++ ex) c).

(** ** Beacons *)
Definition add_tb (shardID : Z) (acc : gmap Z (gmap Z ConfirmedTB) * gmap Z Z) (tb : ConfirmedTB) :
    go (gmap Z (gmap Z ConfirmedTB) * gmap Z Z) :=
  let '(t, hs) := acc in
  let h := tbHeight (cTimeBeacon tb) in
  match t !! u32 shardID with
  | None => Halt (GoPanic "assignment to entry in nil map")
  | Some m =>
      Ret (<[u32 shardID := <[h := tb]> m]> t,
           <[u32 shardID := u64 (Max (i64 (default 0 (hs !! u32 shardID))) (i64 h))]> hs)
  end.

(** The two nested loops over [tbblock.Tbs]. *)
Definition add_tbs (acc : gmap Z (gmap Z ConfirmedTB) * gmap Z Z) (l : list (list ConfirmedTB)) :
    go (gmap Z (gmap Z ConfirmedTB) * gmap Z Z) :=
  go_fold (λ acc '(i, tbs), go_fold (add_tb (Z.of_nat i)) acc tbs) acc (zip (seq 0 (length l)) l).

Definition AddTBs `{MapIter} (b : TBBlock) (c : Client) (res : Result) : go (Client * Result) :=
  '(t, hs) ← add_tbs (ctbs c, shard_cur_heights c) (Tbs b);
  '(c, res) ← processTXReceipts (set_beacons t hs (Height b) c) res;
  c ← checkExpiredTXs c;
  Ret (c, res).

(** ** Sending

    A message to a committee: its id and the transactions. *)
Abbreviation inject := (Z * list Transaction)%type.

Definition shard_msgs (shardtxs : list (list Transaction)) : list inject :=
  (λ '(i, l), (Z.of_nat i, l)) <$> zip (seq 0 (length shardtxs)) shardtxs.

Definition sendRollbackTxs (maxTxNum2Pack : Z) (c : Client) : go (Z * list inject * Client) :=
  let n := Min maxTxNum2Pack (len (cross_tx_expired c)) in
  if bool_decide (n = 0) then Ret (0, [], c)
  else
    shardtxs ← go_fold (λ acc txid,
        tx ← load c txid;
        let tx := set_TXStatus DefaultStatus (set_TXtype RollbackTXType tx) in
        bucket_step Sender_sid id acc tx)
      (replicate (Z.to_nat (shard_num c)) []) (take (Z.to_nat n) (cross_tx_expired c));
    Ret (n, shard_msgs shardtxs,
         set_queues (tx_reply c) (cross1_confirm_height_map c) (cross2_txs c)
           (drop (Z.to_nat n) (cross_tx_expired c)) c).

Definition sendCross2Txs (maxTxNum2Pack : Z) (c : Client) : go (Z * list inject * Client) :=
  let n := Min maxTxNum2Pack (len (cross2_txs c)) in
  if bool_decide (n = 0) then Ret (0, [], c)
  else
    shardtxs ← go_fold (bucket_step Recipient_sid id)
      (replicate (Z.to_nat (shard_num c)) []) (take (Z.to_nat n) (cross2_txs c));
    Ret (n, shard_msgs shardtxs,
         set_queues (tx_reply c) (cross1_confirm_height_map c) (drop (Z.to_nat n) (cross2_txs c))
           (cross_tx_expired c) c).

(** The body of [sendPendingTxs]: it updates the shared transaction, records
    its broadcast time and files it under its sender's shard. *)
Definition send_pending_step (now : Z) (c : Client)
    (acc : gmap Z Transaction * gmap Z Z * list (list Transaction)) (p : Z) :
    go (gmap Z Transaction * gmap Z Z * list (list Transaction)) :=
  let '(m, bm, shardtxs) := acc in
  tx ← deref (m !! p);
  let ty := if bool_decide (Sender_sid tx = Recipient_sid tx) then IntraTXType else CrossTXType1 in
  let tx := set_Broadcast now (u64 (cid c)) (set_TXtype ty tx) in
  shardtxs ← bucket_step Sender_sid id shardtxs tx;
  Ret (<[p := tx]> m, <[ID tx := Timestamp tx]> bm, shardtxs).
Arguments send_pending_step : simpl never.

Definition sendPendingTxs (now cnt maxTxNum2Pack : Z) (bm : gmap Z Z) (c : Client) :
    go (Z * gmap Z Z * list inject * Client) :=
  if bool_decide (maxTxNum2Pack = 0) then Ret (cnt, bm, [], c)
  else
    let upperBound := Min (cnt + maxTxNum2Pack) (len (txs c)) in
    '(m, bm, shardtxs) ← go_fold (send_pending_step now c)
        (mem c, bm, replicate (Z.to_nat (shard_num c)) [])
        (take (Z.to_nat upperBound - Z.to_nat cnt) (drop (Z.to_nat cnt) (txs c)));
    Ret (upperBound, bm, shard_msgs shardtxs, set_pool m (txs c) (txs_map c) c).

Definition CanStopV1 (c : Client) : bool :=
  bool_decide (len (txs c) = injectCnt c) && bool_decide (len (tx_reply c) = 0) &&
  bool_decide (len (cross_tx_expired c) = 0) && bool_decide (len (cross2_txs c) = 0) &&
  bool_decide (size (cross1_confirm_height_map c) = 0%nat).
Definition CanStopV2 (c : Client) : bool := bool_decide (injectCnt c = len (txs c)).

(** One iteration of the loop of [InjectTXs]: the messages sent, whether the
    completion notice goes out, and whether the loop ends. *)
Definition inject_round (now inject_speed : Z) (bm : gmap Z Z) (c : Client) :
    go (list inject * bool * bool * gmap Z Z * Client) :=
  '(rb, m1, c) ← sendRollbackTxs inject_speed c;
  '(c2, m2, c) ← sendCross2Txs (inject_speed - rb) c;
  '(cnt, bm, m3, c) ← sendPendingTxs now (injectCnt c) (inject_speed - rb - c2) bm c;
  let c := set_inject cnt (InjectDoneMsgSent c) c in
  if CanStopV2 c && negb (InjectDoneMsgSent c) then
    let c := set_inject cnt true c in
    if bool_decide (exitMode c = 1) then Ret (m1 ++ m2 ++ m3, true, true, bm, c)
    else Ret (m1 ++ m2 ++ m3, true, CanStopV1 c, bm, c)
  else Ret (m1 ++ m2 ++ m3, false, CanStopV1 c, bm, c).

(** ** Expiry *)
Definition overdue (c : Client) (txid confirmHeight : Z) : Prop :=
  ∃ tx, load c txid = Ret tx ∧
    cur_height c (u32 (Recipient_sid tx)) > u64 (confirmHeight + RollbackHeight tx).

(** Every waiting transaction is one of the client's. *)
Definition loadable (c : Client) : Prop :=
  map_Forall (λ txid _, returns (load c txid)) (cross1_confirm_height_map c).

Lemma expire_step_Ret c ex m txid ch ex' m' :
  expire_step c (ex, m) (txid, ch) = Ret (ex', m') →
  (overdue c txid ch ∧ ex' = ex ++ [txid] ∧ m' = delete txid m) ∨
  (¬ overdue c txid ch ∧ ex' = ex ∧ m' = m).
Proof.
  unfold expire_step. intros He. apply go_bind_Ret in He as (tx & Hl & He).
  case_bool_decide as Hc; simplify_eq.
  - left. split; [by exists tx|done].
  - right. split; [|done]. intros (tx' & Hl' & ?). congruence.
Qed.

Lemma expire_step_returns c acc kv : returns (load c kv.1) → returns (expire_step c acc kv).
Proof.
  destruct acc as [ex m], kv as [txid ch]. unfold expire_step. simpl. intros [tx ->]. simpl.
  case_bool_decide; eauto with golib.
Qed.

Lemma expire_fold_spec c l ex m ex' m' :
  NoDup l.*1 → go_fold (expire_step c) (ex, m) l = Ret (ex', m') →
  ∃ new, ex' = ex ++ new ∧ NoDup new ∧
    (∀ t, t ∈ new ↔ ∃ ch, (t, ch) ∈ l ∧ overdue c t ch) ∧
    (∀ t, m' !! t = if bool_decide (t ∈ new) then None else m !! t).
Proof.
  revert ex m. induction l as [|[txid ch] l IH]; intros ex m Hnd Hf; simpl in Hf.
  - simplify_eq. exists []. rewrite app_nil_r. split_and!; [done|constructor| |].
    + intros t. split; [by intros ?%elem_of_nil|]. intros (? & ?%elem_of_nil & _). done.
    + intros t. by rewrite bool_decide_false by by intros ?%elem_of_nil.
  - apply NoDup_cons in Hnd as [Hni Hnd]. apply go_bind_Ret in Hf as ([ex1 m1] & Hs & Hf).
    apply (IH ex1 m1) in Hf as (new & -> & Hnew & Hin & Hm); [|done].
    assert (txid ∉ new) as Hfresh.
    { intros (ch' & Hl & _)%Hin. apply Hni, list_elem_of_fmap. by exists (txid, ch'). }
    apply expire_step_Ret in Hs as [(Ho & -> & ->)|(Ho & -> & ->)].
    + exists (txid :: new). rewrite <-app_assoc. split_and!; [done|by constructor| |].
      * intros t. rewrite elem_of_cons, Hin. split; [intros [->|(ch' & ? & ?)]|intros (ch' & [[= -> ->]|?]%elem_of_cons & ?)];
          [exists ch; split; [by left|done]|exists ch'; split; [by right|done]|by left|right; eauto].
      * intros t. rewrite Hm, lookup_delete. repeat case_bool_decide; repeat case_decide; set_solver.
    + exists new. split_and!; [done..| |done].
      intros t. rewrite Hin. split; [intros (ch' & ? & ?); exists ch'; split; [by right|done]|].
      intros (ch' & [[= -> ->]|?]%elem_of_cons & ?); [done|eauto].
Qed.

Section expiry.
Context `{MI : MapIter}.

Lemma checkExpiredTXs_inv c c' :
  checkExpiredTXs c = Ret c' →
  ∃ new, NoDup new ∧ (∀ t, t ∈ new ↔ ∃ ch, cross1_confirm_height_map c !! t = Some ch ∧ overdue c t ch) ∧
    (∀ t, cross1_confirm_height_map c' !! t =
       if bool_decide (t ∈ new) then None else cross1_confirm_height_map c !! t) ∧
    c' = set_queues (tx_reply c) (cross1_confirm_height_map c') (cross2_txs c) (cross_tx_expired c ++ new) c.
Proof.
  unfold checkExpiredTXs. intros Hc. apply go_bind_Ret in Hc as ([ex m] & Hf & Hc). simplify_eq.
  apply expire_fold_spec in Hf as (new & -> & Hnd & Hin & Hm); [|apply NoDup_fst_map_iter].
  exists new. split_and!; [done| |done|done]. intros t. rewrite Hin. by setoid_rewrite elem_of_map_iter.
Qed.

Lemma checkExpiredTXs_returns c : loadable c → returns (checkExpiredTXs c).
Proof.
  intros Hl. unfold checkExpiredTXs. apply returns_bind; [|intros [] _; eauto with golib].
  destruct (go_fold_returns (expire_step c) (λ _, True) ([], cross1_confirm_height_map c)
    (map_iter (cross1_confirm_height_map c))) as (a & Ha & _); [done| |by exists a].
  intros x [t ch] Hin%elem_of_map_iter _. destruct (expire_step_returns c x (t, ch)) as [y Hy]; [by eapply Hl|eauto].
Qed.

(** Expiry: the check comes back when every waiting transaction is the
    client's own, and then moves to the rollback queue exactly the waiting
    transactions whose destination shard has been confirmed strictly past
    their deadline, each once, and removes exactly those from the waiting
    map, whatever the order in which the map is visited. *)
Theorem checkExpiredTXs_spec c :
  loadable c →
  ∃ c' new, checkExpiredTXs c = Ret c' ∧ cross_tx_expired c' = cross_tx_expired c ++ new ∧ NoDup new ∧
    (∀ t, t ∈ new ↔ ∃ ch, cross1_confirm_height_map c !! t = Some ch ∧ overdue c t ch) ∧
    (∀ t, cross1_confirm_height_map c' !! t =
       if bool_decide (t ∈ new) then None else cross1_confirm_height_map c !! t).
Proof.
  intros Hl. destruct (checkExpiredTXs_returns c Hl) as [c' Hc].
  destruct (checkExpiredTXs_inv c c' Hc) as (new & Hnd & Hin & Hm & Heq).
  exists c', new. split_and!; [done| |done..]. by rewrite Heq.
Qed.
End expiry.

(** ** Receipts *)
Definition known_beacon (c : Client) (r : TXReceipt) : option ConfirmedTB :=
  default ∅ (ctbs c !! u32 (rShardID r)) !! rBlockHeight r.

(** The second half made from a committed first half. *)
Definition second_half (c : Client) (tx : Transaction) : Transaction :=
  set_ConfirmHeights (tbchain_height c) (cur_height c (u32 (Recipient_sid tx)))
    (set_TXStatus DefaultStatus (set_TXtype CrossTXType2 tx)).

(** What one receipt does, as a relation. *)
Lemma process_receipt_Ret c acc r acc' :
  process_receipt c acc r = Ret acc' →
  (known_beacon c r = None ∧ kept acc' = kept acc ++ [r] ∧ heights1 acc' = heights1 acc ∧
     halves2 acc' = halves2 acc ∧ to_record acc' = to_record acc) ∨
  (∃ tb, known_beacon c r = Some tb ∧ kept acc' = kept acc ∧
     to_record acc' = <[TxID r := set_ConfirmTimeStamp (ConfirmTime tb) r]> (to_record acc) ∧
     ((TxStatus r = CrossTXType1Success ∧ ∃ tx, load c (TxID r) = Ret tx ∧
         heights1 acc' = <[TxID r := cur_height c (u32 (Recipient_sid tx))]> (heights1 acc) ∧
         halves2 acc' = halves2 acc ++ [second_half c tx]) ∨
      (TxStatus r = CrossTXType2Success ∧ is_Some (heights1 acc !! TxID r) ∧
         heights1 acc' = delete (TxID r) (heights1 acc) ∧ halves2 acc' = halves2 acc) ∨
      (TxStatus r ≠ CrossTXType1Success ∧ TxStatus r ≠ CrossTXType2Success ∧
         heights1 acc' = heights1 acc ∧ halves2 acc' = halves2 acc))).
Proof.
  unfold process_receipt. fold (known_beacon c r). destruct (known_beacon c r) as [tb|]; simpl;
    [|intros [= <-]; by left].
  intros Hp. right. exists tb. split; [done|].
  case_bool_decide as H1; [simplify_eq/=; split_and!; [done..|]; right; right; by rewrite H1|].
  case_bool_decide as H2; [go_inv; split_and!; [done..|]; left; eauto|].
  case_bool_decide as H3.
  - destruct (heights1 acc !! TxID r) eqn:Hh; simplify_eq/=. split_and!; [done..|]. right; left. eauto.
  - simplify_eq/=. split_and!; [done..|]. right; right. done.
Qed.

(** The loop, read per transaction: a transaction of which no receipt is
    confirmed keeps its entry; one whose only pending receipts announce its
    second half loses it as soon as one of them is confirmed. *)
Lemma process_fold_untouched c t l acc acc' :
  (∀ r, r ∈ l → TxID r = t → known_beacon c r = None) →
  go_fold (process_receipt c) acc l = Ret acc' → heights1 acc' !! t = heights1 acc !! t.
Proof.
  intros Ht. apply (go_fold_inv _ (λ a, heights1 a !! t = heights1 acc !! t)); [done|].
  intros x r y Hin Hx Hp. rewrite <-Hx.
  destruct (process_receipt_Ret c x r y Hp) as [(_ & _ & -> & _)|(tb & Hk & _ & _ & Hcase)]; [done|].
  assert (TxID r ≠ t) as Hne by (intros Heq; apply (Ht r Hin) in Heq; congruence).
  destruct Hcase as [(_ & tx & _ & -> & _)|[(_ & _ & -> & _)|(_ & _ & -> & _)]];
    [by rewrite lookup_insert_ne|by rewrite lookup_delete_ne|done].
Qed.

(** While no first half of it arrives, its entry can only disappear. *)
Lemma process_fold_shrinks c t l acc acc' :
  (∀ r, r ∈ l → TxID r = t → TxStatus r = CrossTXType2Success) →
  go_fold (process_receipt c) acc l = Ret acc' →
  heights1 acc' !! t = heights1 acc !! t ∨ heights1 acc' !! t = None.
Proof.
  intros Ht. apply (go_fold_inv _ (λ a, heights1 a !! t = heights1 acc !! t ∨ heights1 a !! t = None)); [by left|].
  intros x r y Hin Hx Hp.
  destruct (process_receipt_Ret c x r y Hp) as [(_ & _ & -> & _)|(tb & _ & _ & _ & Hcase)]; [done|].
  destruct (decide (TxID r = t)) as [Heq|Hne].
  - pose proof (Ht r Hin Heq) as Hs.
    destruct Hcase as [(He & _)|[(_ & _ & -> & _)|(_ & ? & _)]]; [by rewrite Hs in He| |congruence].
    right. rewrite Heq. apply lookup_delete_eq.
  - destruct Hcase as [(_ & tx & _ & -> & _)|[(_ & _ & -> & _)|(_ & _ & -> & _)]];
      [by rewrite lookup_insert_ne|by rewrite lookup_delete_ne|done].
Qed.

Lemma process_fold_finished c t l acc acc' r :
  (∀ r, r ∈ l → TxID r = t → TxStatus r = CrossTXType2Success) →
  r ∈ l → TxID r = t → is_Some (known_beacon c r) →
  go_fold (process_receipt c) acc l = Ret acc' → heights1 acc' !! t = None.
Proof.
  intros Ht Hin Hr Hk. revert acc. induction l as [|r0 l IH]; intros acc Hf; [by apply elem_of_nil in Hin|].
  simpl in Hf. apply go_bind_Ret in Hf as (acc1 & Hp & Hf).
  apply elem_of_cons in Hin as [<-|Hin].
  - destruct (process_receipt_Ret c acc r acc1 Hp) as [(Hn & _)|(tb & _ & _ & _ & Hcase)];
      [rewrite Hn in Hk; by destruct Hk|].
    assert (TxStatus r = CrossTXType2Success) as Hs by (apply Ht; [by left|done]).
    destruct Hcase as [(He & _)|[(_ & _ & Hd & _)|(_ & ? & _)]]; [by rewrite Hs in He| |congruence].
    destruct (process_fold_shrinks c t l acc1 acc') as [->|?]; [intros; apply Ht; [by right|done]|done| |done].
    rewrite Hd, Hr. apply lookup_delete_eq.
  - apply (IH (λ r' H', Ht r' (list_elem_of_further _ _ _ H')) Hin acc1 Hf).
Qed.

Lemma process_fold_spec c l acc acc' :
  go_fold (process_receipt c) acc l = Ret acc' →
  kept acc' = kept acc ++ filter (λ r, known_beacon c r = None) l ∧
  ∃ firsts, halves2 acc' = halves2 acc ++ (second_half c <$> firsts) ∧
    Forall2 (λ r tx, load c (TxID r) = Ret tx)
      (filter (λ r, is_Some (known_beacon c r) ∧ TxStatus r = CrossTXType1Success) l) firsts.
Proof.
  revert acc acc'. induction l as [|r l IH]; intros acc acc' Hl; simpl in Hl.
  { simplify_eq. rewrite !filter_nil, app_nil_r. split; [done|]. exists []. by rewrite app_nil_r. }
  apply go_bind_Ret in Hl as (acc1 & Hr & Hl). apply IH in Hl as (Hk & firsts & Hh & HF).
  rewrite Hk, Hh, !filter_cons.
  destruct (process_receipt_Ret c acc r acc1 Hr) as [(Hn & -> & _ & -> & _)|(tb & Hb & -> & _ & Hcase)].
  - rewrite decide_True, <-app_assoc by done. split; [done|]. exists firsts. split; [done|].
    rewrite decide_False; [done|]. rewrite Hn. by intros [[? ?] _].
  - rewrite (decide_False (P := known_beacon c r = None)) by congruence. split; [done|].
    destruct Hcase as [(Hs & tx & Ht & _ & ->)|[(Hs & _ & _ & ->)|(Hs & _ & _ & ->)]].
    + exists (tx :: firsts). rewrite <-app_assoc. split; [done|]. rewrite decide_True by eauto. by constructor.
    + exists firsts. split; [done|]. rewrite decide_False; [done|]. rewrite Hs. by intros [_ ?].
    + exists firsts. split; [done|]. rewrite decide_False; [done|]. by intros [_ ?].
Qed.

(** C33. Confirmed receipts: a pass over the receipts that comes back keeps
    exactly those whose beacon is not yet known, in order, and queues one
    second half per confirmed first half, in order, copied from the client's
    transaction with its kind, status and deadline base set. *)
Theorem processTXReceipts_spec `{MI : MapIter} c res c' res' :
  processTXReceipts c res = Ret (c', res') →
  tx_reply c' = filter (λ r, known_beacon c r = None) (tx_reply c) ∧
  ∃ firsts, cross2_txs c' = cross2_txs c ++ (second_half c <$> firsts) ∧
    Forall2 (λ r tx, load c (TxID r) = Ret tx)
      (filter (λ r, is_Some (known_beacon c r) ∧ TxStatus r = CrossTXType1Success) (tx_reply c)) firsts.
Proof.
  unfold processTXReceipts. intros Hp. apply go_bind_Ret in Hp as (p & Hf & Hp).
  apply go_bind_Ret in Hp as (res1 & _ & Hp). simplify_eq/=. by apply process_fold_spec in Hf.
Qed.

(** ** What the other operations leave alone *)
Lemma AddTBs_inv `{MI : MapIter} b c res c' res' :
  AddTBs b c res = Ret (c', res') →
  ∃ t hs c2, add_tbs (ctbs c, shard_cur_heights c) (Tbs b) = Ret (t, hs) ∧
    processTXReceipts (set_beacons t hs (Height b) c) res = Ret (c2, res') ∧
    checkExpiredTXs c2 = Ret c'.
Proof.
  unfold AddTBs. intros Ha. apply go_bind_Ret in Ha as ([t hs] & Ht & Ha).
  apply go_bind_Ret in Ha as ([c2 res2] & Hp & Ha). apply go_bind_Ret in Ha as (c3 & Hc & Ha). simplify_eq.
  exists t, hs, c2. done.
Qed.

(** The part of a client's state that sending does not touch, and the
    destination and deadline of its transactions. *)
Record same_waiting (c c' : Client) : Prop := {
  sw_reply : tx_reply c' = tx_reply c;
  sw_map : cross1_confirm_height_map c' = cross1_confirm_height_map c;
  sw_tbs : ctbs c' = ctbs c;
  sw_heights : shard_cur_heights c' = shard_cur_heights c;
  sw_expired : cross_tx_expired c' ⊆ cross_tx_expired c;
  sw_load : ∀ t tx, load c t = Ret tx → ∃ tx', load c' t = Ret tx' ∧
    Recipient_sid tx' = Recipient_sid tx ∧ RollbackHeight tx' = RollbackHeight tx
}.

#[global] Instance same_waiting_refl : Reflexive same_waiting.
Proof. intros c. split; [done..|]. eauto. Qed.
#[global] Instance same_waiting_trans : Transitive same_waiting.
Proof.
  intros c1 c2 c3 [? ? ? ? ? Hl1] [? ? ? ? ? Hl2]. split; try congruence; [set_solver|].
  intros t tx H. destruct (Hl1 t tx H) as (tx1 & H1 & ? & ?). destruct (Hl2 t tx1 H1) as (tx2 & ? & ? & ?).
  exists tx2. split; [done|]. split; congruence.
Qed.

Lemma sendRollbackTxs_waiting n c k ms c' : sendRollbackTxs n c = Ret (k, ms, c') → same_waiting c c'.
Proof.
  unfold sendRollbackTxs. case_bool_decide; [by intros [= _ _ <-]|].
  intros Hs. apply go_bind_Ret in Hs as (? & _ & Hs). simplify_eq. split; simpl; try done; [|eauto].
  intros t Ht. rewrite <-(take_drop (Z.to_nat (Min n (len (cross_tx_expired c)))) (cross_tx_expired c)).
  apply elem_of_app. by right.
Qed.

Lemma sendCross2Txs_waiting n c k ms c' : sendCross2Txs n c = Ret (k, ms, c') → same_waiting c c'.
Proof.
  unfold sendCross2Txs. case_bool_decide; [by intros [= _ _ <-]|].
  intros Hs. apply go_bind_Ret in Hs as (? & _ & Hs). simplify_eq. split; simpl; try done. eauto.
Qed.

(** [sendPendingTxs] writes only kinds, times and client ids. *)
Definition same_route (m m' : gmap Z Transaction) : Prop :=
  ∀ p tx, m !! p = Some tx → ∃ tx', m' !! p = Some tx' ∧
    Recipient_sid tx' = Recipient_sid tx ∧ RollbackHeight tx' = RollbackHeight tx.

Lemma send_pending_route now c l m bm st m' bm' st' :
  go_fold (send_pending_step now c) (m, bm, st) l = Ret (m', bm', st') → same_route m m'.
Proof.
  intros Hf. apply (go_fold_inv _ (λ a, same_route m a.1.1)) in Hf; [done|intros p tx; eauto|].
  intros [[m1 bm1] st1] p [[m2 bm2] st2] _ Hm Hp. simpl in *. unfold send_pending_step in Hp.
  apply go_bind_Ret in Hp as (tx & Htx%deref_Ret & Hp). apply go_bind_Ret in Hp as (st3 & _ & Hp). simplify_eq.
  intros q tq Hq. destruct (Hm q tq Hq) as (tq' & Hq' & ? & ?). rewrite lookup_insert.
  case_decide as Heq; [|eauto]. subst. assert (tq' = tx) as -> by congruence. eexists. split; [done|]. done.
Qed.

Lemma sendPendingTxs_waiting now cnt n bm c k bm' ms c' :
  sendPendingTxs now cnt n bm c = Ret (k, bm', ms, c') → same_waiting c c'.
Proof.
  unfold sendPendingTxs. case_bool_decide; [by intros [= _ _ _ <-]|].
  intros Hs. apply go_bind_Ret in Hs as ([[m bm1] st] & Hf & Hs). simplify_eq.
  apply send_pending_route in Hf. split; simpl; try done. intros t tx Hl. unfold load in *; simpl.
  apply go_bind_Ret in Hl as (p & -> & Hp%deref_Ret). simpl.
  destruct (Hf p tx Hp) as (tx' & -> & ? & ?). eauto.
Qed.

Lemma inject_round_waiting now speed bm c ms d stop bm' c' :
  inject_round now speed bm c = Ret (ms, d, stop, bm', c') → same_waiting c c'.
Proof.
  unfold inject_round. intros Hr. apply go_bind_Ret in Hr as ([[rb m1] c1] & H1%sendRollbackTxs_waiting & Hr).
  apply go_bind_Ret in Hr as ([[k2 m2] c2] & H2%sendCross2Txs_waiting & Hr).
  apply go_bind_Ret in Hr as ([[[cnt bm3] m3] c3] & H3%sendPendingTxs_waiting & Hr).
  trans c1; [done|]. trans c2; [done|]. trans c3; [done|].
  assert (∀ n s, same_waiting c3 (set_inject n s c3)) as Hset by (intros; split; try done; eauto).
  assert (∀ n s n' s', same_waiting c3 (set_inject n s (set_inject n' s' c3))) as Hset2
    by (intros; split; try done; eauto).
  repeat split_guard; simplify_eq; auto.
Qed.

(** ** Sending *)

(** The messages of a batch: one per shard, with the transactions that
    belong there in their order. *)
Definition route (n : Z) (dest : Transaction → Z) (l : list Transaction) : list inject :=
  (λ i, (Z.of_nat i, filter (λ tx, dest tx = Z.of_nat i) l)) <$> seq 0 (Z.to_nat n).

Lemma bucket_route n dest l :
  Forall (λ tx, 0 ≤ dest tx < n) l →
  ∃ st, go_fold (bucket_step dest id) (replicate (Z.to_nat n) []) l = Ret st ∧
    shard_msgs st = route n dest l.
Proof.
  intros HF. destruct (bucket_loop dest (@id Transaction) (replicate (Z.to_nat n) []) l) as (st & Hf & Hl & Hst).
  { eapply Forall_impl; [exact HF|]. intros tx ?. unfold len. rewrite length_replicate. simpl in *. lia. }
  exists st. split; [done|]. rewrite length_replicate in Hl. unfold shard_msgs, route. rewrite Hl.
  apply list_eq. intros i. rewrite !list_lookup_fmap, lookup_zip_with, Hst.
  destruct (decide (i < Z.to_nat n)%nat) as [Hi|Hi].
  - rewrite lookup_seq_lt, lookup_replicate_2 by done. simpl. rewrite list_fmap_id. do 2 f_equal.
    rewrite Forall_forall in HF. apply filter_ext_in. intros tx Htx%HF. lia.
  - by rewrite !lookup_seq_ge by lia.
Qed.

(** A rollback and a first broadcast, as the client makes them. *)
Definition as_rollback (tx : Transaction) : Transaction :=
  set_TXStatus DefaultStatus (set_TXtype RollbackTXType tx).
Definition as_broadcast (now cid : Z) (tx : Transaction) : Transaction :=
  set_Broadcast now (u64 cid)
    (set_TXtype (if bool_decide (Sender_sid tx = Recipient_sid tx) then IntraTXType else CrossTXType1) tx).

Lemma rollback_fold c acc ids rbs :
  Forall2 (λ t tx, load c t = Ret tx) ids rbs →
  go_fold (λ acc txid, tx ← load c txid;
      let tx := set_TXStatus DefaultStatus (set_TXtype RollbackTXType tx) in
      bucket_step Sender_sid id acc tx) acc ids =
  go_fold (bucket_step Sender_sid id) acc (as_rollback <$> rbs).
Proof.
  intros HF. revert acc. induction HF as [|t tx ids rbs Ht _ IH]; intros acc; simpl; [done|].
  rewrite Ht. simpl. fold (as_rollback tx).
  destruct (bucket_step Sender_sid id acc (as_rollback tx)); simpl; [apply IH|done].
Qed.

Lemma as_broadcast_idem now k tx : as_broadcast now k (as_broadcast now k tx) = as_broadcast now k tx.
Proof. done. Qed.

Lemma send_pending_step_eq now c m bm st p tx :
  m !! p = Some tx →
  send_pending_step now c (m, bm, st) p =
    (st' ← bucket_step Sender_sid id st (as_broadcast now (cid c) tx);
     Ret (<[p := as_broadcast now (cid c) tx]> m, <[ID tx := now]> bm, st')).
Proof. intros Hp. unfold send_pending_step. rewrite Hp. done. Qed.

Lemma pending_fold now c ps news m bm st :
  let B := as_broadcast now (cid c) in
  Forall2 (λ p tx, ∃ tx', m !! p = Some tx' ∧ B tx' = B tx) ps news →
  ∀ st', go_fold (bucket_step Sender_sid id) st (B <$> news) = Ret st' →
  ∃ m' bm', go_fold (send_pending_step now c) (m, bm, st) ps = Ret (m', bm', st').
Proof.
  intros B. revert news m bm st. induction ps as [|p ps IH]; intros news m bm st HF st' Hst.
  { apply Forall2_nil_inv_l in HF as ->. simpl in Hst. simplify_eq. by eexists _, _. }
  apply Forall2_cons_inv_l in HF as (tx & news' & (tx' & Hp & Hb) & HF & ->).
  simpl in Hst |- *. rewrite (send_pending_step_eq _ _ _ _ _ _ tx') by done. fold B. rewrite Hb.
  apply go_bind_Ret in Hst as (st1 & -> & Hst). simpl.
  eapply IH; [|exact Hst]. eapply Forall2_impl; [exact HF|]. intros q txq (txq' & Hq & Hbq).
  rewrite lookup_insert. case_decide as Heq; [|eauto]. subst. exists (B tx). split; [done|].
  rewrite <-Hbq, <-Hb. unfold B. rewrite as_broadcast_idem. congruence.
Qed.

(** ** A sending round *)
Record wf_client (c : Client) : Prop := {
  wc_shards : 0 < shard_num c;
  wc_cnt : 0 ≤ injectCnt c ≤ len (txs c);
  wc_txs : Forall (λ p, ∃ tx, mem c !! p = Some tx ∧ 0 ≤ Sender_sid tx < shard_num c) (txs c);
  wc_expired : Forall (λ t, ∃ tx, load c t = Ret tx ∧ 0 ≤ Sender_sid tx < shard_num c) (cross_tx_expired c);
  wc_cross2 : Forall (λ tx, 0 ≤ Recipient_sid tx < shard_num c) (cross2_txs c)
}.

(** Everything the messages of a round bring to a shard. *)
Definition sent_to (i : Z) (ms : list inject) : list Transaction :=
  mjoin ((λ m : inject, if decide (m.1 = i) then m.2 else []) <$> ms).

Lemma sent_to_app i ms ms' : sent_to i (ms ++ ms') = sent_to i ms ++ sent_to i ms'.
Proof. unfold sent_to. by rewrite fmap_app, join_app. Qed.

Lemma sent_to_route n dest l i :
  0 ≤ i < n → sent_to i (route n dest l) = filter (λ tx, dest tx = i) l.
Proof.
  intros Hi. unfold sent_to, route. rewrite <-list_fmap_compose. unfold compose; simpl.
  assert (∀ k a, mjoin ((λ x : nat, if decide (Z.of_nat x = i) then filter (λ tx, dest tx = Z.of_nat x) l else [])
    <$> seq a k) = if decide (Z.of_nat a ≤ i < Z.of_nat (a + k)) then filter (λ tx, dest tx = i) l else []) as Hk.
  { induction k as [|k IH]; intros a; simpl; [by rewrite decide_False by lia|]. rewrite IH.
    destruct (decide (Z.of_nat a = i)) as [<-|Hne].
    - rewrite decide_False, decide_True, app_nil_r by lia. done.
    - do 2 case_decide; done || lia. }
  rewrite Hk, decide_True by lia. done.
Qed.

(** A list of things that can each be resolved. *)
Lemma Forall_resolve {A B} (R : A → B → Prop) (P : B → Prop) l :
  Forall (λ a, ∃ b, R a b ∧ P b) l → ∃ k, Forall2 R l k ∧ Forall P k.
Proof.
  induction 1 as [|a l (b & HR & HP) _ (k & HF & HFP)]; [by exists []|]. exists (b :: k). by split; constructor.
Qed.

Lemma sendRollbackTxs_spec n c :
  wf_client c → 0 ≤ n →
  let k := Min n (len (cross_tx_expired c)) in
  ∃ rbs ms, Forall2 (λ t tx, load c t = Ret tx) (take (Z.to_nat k) (cross_tx_expired c)) rbs ∧
    sendRollbackTxs n c = Ret (k, ms, set_queues (tx_reply c) (cross1_confirm_height_map c)
      (cross2_txs c) (drop (Z.to_nat k) (cross_tx_expired c)) c) ∧
    ∀ i, 0 ≤ i < shard_num c → sent_to i ms = filter (λ tx, Sender_sid tx = i) (as_rollback <$> rbs).
Proof.
  intros Hwf Hn k. destruct (Forall_resolve _ _ _ (Forall_take _ (Z.to_nat k) _ (wc_expired c Hwf)))
    as (rbs & HF & Hsid).
  exists rbs. unfold sendRollbackTxs. fold k. case_bool_decide as Hz.
  - exists []. rewrite Hz in *. apply Forall2_nil_inv_l in HF as ->. split; [constructor|].
    split; [by destruct c|done].
  - destruct (bucket_route (shard_num c) Sender_sid (as_rollback <$> rbs)) as (st & Hst & Hms).
    { apply Forall_fmap. by eapply Forall_impl. }
    exists (shard_msgs st). split; [done|]. rewrite (rollback_fold c _ _ rbs HF), Hst. split; [done|].
    intros i Hi. rewrite Hms. by apply sent_to_route.
Qed.

Lemma sendCross2Txs_spec n c :
  wf_client c → 0 ≤ n →
  let k := Min n (len (cross2_txs c)) in
  ∃ ms, sendCross2Txs n c = Ret (k, ms, set_queues (tx_reply c) (cross1_confirm_height_map c)
      (drop (Z.to_nat k) (cross2_txs c)) (cross_tx_expired c) c) ∧
    ∀ i, 0 ≤ i < shard_num c →
      sent_to i ms = filter (λ tx, Recipient_sid tx = i) (take (Z.to_nat k) (cross2_txs c)).
Proof.
  intros Hwf Hn k. unfold sendCross2Txs. fold k. case_bool_decide as Hz.
  - exists []. rewrite Hz. split; [by destruct c|done].
  - destruct (bucket_route (shard_num c) Recipient_sid (take (Z.to_nat k) (cross2_txs c))) as (st & Hst & Hms).
    { apply Forall_take, Hwf. }
    exists (shard_msgs st). rewrite Hst. split; [done|]. intros i Hi. rewrite Hms. by apply sent_to_route.
Qed.

Lemma sendPendingTxs_spec now n bm c :
  wf_client c → 0 ≤ n →
  let k := Min (injectCnt c + n) (len (txs c)) in
  ∃ news bm' ms m', Forall2 (λ p tx, mem c !! p = Some tx)
      (take (Z.to_nat n) (drop (Z.to_nat (injectCnt c)) (txs c))) news ∧
    sendPendingTxs now (injectCnt c) n bm c = Ret (k, bm', ms, set_pool m' (txs c) (txs_map c) c) ∧
    ∀ i, 0 ≤ i < shard_num c →
      sent_to i ms = filter (λ tx, Sender_sid tx = i) (as_broadcast now (cid c) <$> news).
Proof.
  intros Hwf Hn k. pose proof (wc_cnt c Hwf) as Hcnt.
  destruct (Forall_resolve _ _ _ (Forall_take _ (Z.to_nat n) _ (Forall_drop _ (Z.to_nat (injectCnt c)) _ (wc_txs c Hwf))))
    as (news & HF & Hsid).
  exists news. unfold sendPendingTxs. fold k. case_bool_decide as Hz.
  { subst n. simpl in HF. apply Forall2_nil_inv_l in HF as ->. exists bm, [], (mem c).
    split; [constructor|]. split; [|done]. unfold k. rewrite Min_spec, Z.min_l by lia.
    rewrite Z.add_0_r. by destruct c. }
  assert (take (Z.to_nat k - Z.to_nat (injectCnt c)) (drop (Z.to_nat (injectCnt c)) (txs c)) =
    take (Z.to_nat n) (drop (Z.to_nat (injectCnt c)) (txs c))) as ->.
  { unfold k. rewrite Min_spec. unfold len in *.
    destruct (decide (injectCnt c + n ≤ Z.of_nat (length (txs c)))).
    - f_equal. lia.
    - rewrite !take_ge by (rewrite length_drop; lia). done. }
  destruct (bucket_route (shard_num c) Sender_sid (as_broadcast now (cid c) <$> news)) as (st & Hst & Hms).
  { apply Forall_fmap. by eapply Forall_impl. }
  destruct (pending_fold now c _ news (mem c) bm _ (Forall2_impl _ _ _ _ HF (λ p tx H, ex_intro _ tx (conj H eq_refl))) st Hst)
    as (m' & bm' & ->).
  exists bm', (shard_msgs st), m'. split; [done|]. split; [done|]. intros i Hi. rewrite Hms. by apply sent_to_route.
Qed.

(** A sending round: on a well-formed client it comes back, sends at
    most [speed] transactions taken from the front of the three queues
    (rollbacks first, then second halves, then new ones), each exactly once
    and to the committee responsible for it, and removes exactly those from
    the queues. *)
Theorem inject_round_spec now speed bm c :
  wf_client c → 0 ≤ speed →
  let k1 := Z.min speed (len (cross_tx_expired c)) in
  let k2 := Z.min (speed - k1) (len (cross2_txs c)) in
  let k3 := speed - k1 - k2 in
  ∃ rbs news ms d stop bm' c',
    inject_round now speed bm c = Ret (ms, d, stop, bm', c') ∧
    Forall2 (λ t tx, load c t = Ret tx) (take (Z.to_nat k1) (cross_tx_expired c)) rbs ∧
    Forall2 (λ p tx, mem c !! p = Some tx) (take (Z.to_nat k3) (drop (Z.to_nat (injectCnt c)) (txs c))) news ∧
    (∀ i, 0 ≤ i < shard_num c → sent_to i ms =
       filter (λ tx, Sender_sid tx = i) (as_rollback <$> rbs) ++
       filter (λ tx, Recipient_sid tx = i) (take (Z.to_nat k2) (cross2_txs c)) ++
       filter (λ tx, Sender_sid tx = i) (as_broadcast now (cid c) <$> news)) ∧
    cross_tx_expired c' = drop (Z.to_nat k1) (cross_tx_expired c) ∧
    cross2_txs c' = drop (Z.to_nat k2) (cross2_txs c) ∧
    injectCnt c' = Z.min (injectCnt c + k3) (len (txs c)).
Proof.
  intros Hwf Hs k1 k2 k3.
  destruct (sendRollbackTxs_spec speed c Hwf Hs) as (rbs & m1 & Hrb & H1 & Hs1). rewrite Min_spec in *. fold k1 in Hrb, H1.
  set (c1 := set_queues _ _ _ _ c) in H1.
  assert (wf_client c1) as Hwf1 by (destruct Hwf; split; try done; by apply Forall_drop).
  assert (0 ≤ k1 ≤ speed) as Hk1 by (pose proof (len_nonneg (cross_tx_expired c)); lia).
  destruct (sendCross2Txs_spec (speed - k1) c1 Hwf1) as (m2 & H2 & Hs2); [lia|].
  rewrite Min_spec in *. simpl in H2, Hs2. fold k2 in H2, Hs2.
  match type of H2 with _ = Ret (_, _, ?x) => set (c2 := x) in H2 end.
  assert (wf_client c2) as Hwf2 by (destruct Hwf1; split; try done; by apply Forall_drop).
  assert (0 ≤ k3) as Hk3 by (pose proof (len_nonneg (cross2_txs c)); lia).
  destruct (sendPendingTxs_spec now k3 bm c2 Hwf2 Hk3) as (news & bm' & m3 & m' & Hnew & H3 & Hs3).
  rewrite Min_spec in *. exists rbs, news, (m1 ++ m2 ++ m3).
  unfold inject_round. rewrite H1. simpl. rewrite H2. simpl. fold k3. simpl in H3. rewrite H3. simpl.
  assert (∀ i, 0 ≤ i < shard_num c → sent_to i (m1 ++ m2 ++ m3) = _) as Hsent
    by (intros i Hi; rewrite !sent_to_app, Hs1, Hs2, Hs3 by done; reflexivity).
  repeat split_guard; (eexists _, _, _, _; split; [reflexivity|]); done.
Qed.

(** ** Witnesses: a client with one overdue and one waiting transaction, a
    confirmed and an unconfirmed receipt, and one transaction still to send. *)
Section demo.
#[local] Existing Instance canonical_iter.

Definition cdemo_tx (id s r : Z) : Transaction := mkTransaction 0 id [1] [2] 0 1 0 0 0 0 s r 0 0 3.
Definition cdemo : Client :=
  set_beacons (<[0 := {[ 4 := mkConfirmedTB (mkTimeBeacon 0 4 "" "" "") 50 0 ]}]> {[ 1 := ∅ ]})
    (<[0 := 4]> {[ 1 := 9 ]}) 6
    (set_queues [mkTXReceipt 2 0 CrossTXType1Success 0 4 []; mkTXReceipt 1 0 CrossTXType2Success 1 9 []]
       (<[0 := 5]> {[ 1 := 8 ]}) [set_TXtype CrossTXType2 (cdemo_tx 1 0 1)] [0]
       (set_inject 3 false
         (set_pool (<[10 := cdemo_tx 0 0 1]> (<[11 := cdemo_tx 1 0 1]> (<[12 := cdemo_tx 2 0 1]>
            {[ 13 := cdemo_tx 3 1 1 ]}))) [10; 11; 12; 13]
            (<[0 := 10]> (<[1 := 11]> (<[2 := 12]> {[ 3 := 13 ]}))) (NewClient 0 3 2 1)))).

Lemma checkExpiredTXs_spec_witness :
  ∃ c' new, checkExpiredTXs cdemo = Ret c' ∧ cross_tx_expired c' = cross_tx_expired cdemo ++ new ∧ NoDup new ∧
    (∀ t, t ∈ new ↔ ∃ ch, cross1_confirm_height_map cdemo !! t = Some ch ∧ overdue cdemo t ch) ∧
    (∀ t, cross1_confirm_height_map c' !! t =
       if bool_decide (t ∈ new) then None else cross1_confirm_height_map cdemo !! t).
Proof.
  apply checkExpiredTXs_spec. apply map_Forall_to_list.
  repeat constructor; eexists; vm_compute; reflexivity.
Defined.

Lemma processTXReceipts_spec_witness :
  ∃ c' res', processTXReceipts cdemo (SetTotalTXNum 4 NewResult) = Ret (c', res') ∧
    tx_reply c' = filter (λ r, known_beacon cdemo r = None) (tx_reply cdemo) ∧
    ∃ firsts, cross2_txs c' = cross2_txs cdemo ++ (second_half cdemo <$> firsts) ∧
      Forall2 (λ r tx, load cdemo (TxID r) = Ret tx)
        (filter (λ r, is_Some (known_beacon cdemo r) ∧ TxStatus r = CrossTXType1Success) (tx_reply cdemo)) firsts.
Proof.
  eexists _, _. split; [vm_compute; reflexivity|].
  eapply (processTXReceipts_spec cdemo (SetTotalTXNum 4 NewResult)). vm_compute. reflexivity.
Defined.

Lemma inject_round_spec_witness :
  ∃ rbs news ms d stop bm' c',
    inject_round 60 2 ∅ cdemo = Ret (ms, d, stop, bm', c') ∧
    Forall2 (λ t tx, load cdemo t = Ret tx) (take 1 (cross_tx_expired cdemo)) rbs ∧
    Forall2 (λ p tx, mem cdemo !! p = Some tx) (take 0 (drop 3 (txs cdemo))) news ∧
    (∀ i, 0 ≤ i < 2 → sent_to i ms =
       filter (λ tx, Sender_sid tx = i) (as_rollback <$> rbs) ++
       filter (λ tx, Recipient_sid tx = i) (take 1 (cross2_txs cdemo)) ++
       filter (λ tx, Sender_sid tx = i) (as_broadcast 60 0 <$> news)) ∧
    cross_tx_expired c' = drop 1 (cross_tx_expired cdemo) ∧
    cross2_txs c' = drop 1 (cross2_txs cdemo) ∧
    injectCnt c' = Z.min (3 + 0) 4.
Proof.
  apply (inject_round_spec 60 2 ∅ cdemo); [|lia]. split.
  - reflexivity.
  - by_compute.
  - repeat constructor; eexists; (split; [vm_compute; reflexivity|simpl; lia]).
  - repeat constructor; eexists; (split; [vm_compute; reflexivity|simpl; lia]).
  - repeat constructor; simpl; lia.
Defined.
End demo.
