(* ===== verification/TxPool.v ===== *)
(** * The transaction pool of a committee (src/committee/txpool.go).

    A pool keeps two FIFO queues.  [AddTxs] routes rollbacks to one and
    everything else to the other; [Pending] takes the next block from them,
    rollbacks first, and drops second halves of cross-shard transactions that
    have expired.  Both run under the two mutexes of the pool, so each is one
    atomic step; the pool's back pointer to its committee is the [comID]
    argument of the one operation that reads it. *)
From S2P Require Import Prelude Core.
Local Open Scope Z_scope.

Record TxPool := mkTxPool {
  pending : list Transaction;
  pendingRollback : list Transaction
}.
#[global] Instance TxPool_eq_dec : EqDecision TxPool.
Proof. solve_decision. Defined.

Definition NewTxPool : TxPool := mkTxPool [] [].

Definition SetPending (txs : list Transaction) (p : TxPool) : TxPool :=
  mkTxPool (txs ++ pending p) (pendingRollback p).

Definition SetPendingRollback (txs : list Transaction) (p : TxPool) : TxPool :=
  mkTxPool (pending p) (txs ++ pendingRollback p).

Definition AddTxWithoutLock (p : TxPool) (tx : Transaction) : TxPool :=
  if bool_decide (TXtype tx = RollbackTXType)
  then mkTxPool (pending p) (pendingRollback p ++ [tx])
  else mkTxPool (pending p ++ [tx]) (pendingRollback p).

Definition AddTxs (p : TxPool) (txs : list Transaction) : TxPool :=
  foldl AddTxWithoutLock p txs.

Definition PendingLen (p : TxPool) : Z := len (pending p).
Definition PendingRollbackLen (p : TxPool) : Z := len (pendingRollback p).
Definition Empty (p : TxPool) : bool :=
  bool_decide (PendingLen p = 0) && bool_decide (PendingRollbackLen p = 0).

(** [Reset] marks what is left as dropped, records one receipt per
    transaction id ([table], the argument of [result.SetTXReceiptV2]) and
    returns a new pool. *)
Definition Reset (comID : Z) (p : TxPool) : gmap Z TXReceipt * TxPool :=
  let txs := set_TXStatus Dropped <$> (pending p ++ pendingRollback p) in
  let table := foldl (λ m tx,
    <[ID tx := mkTXReceipt (ID tx) 0 (TXStatus tx) comID 0 []]> m) ∅ txs in
  (table, NewTxPool).

(** The expiry test of [Pending]: both sides are [uint64] sums. *)
Definition expired (parentBlockHeight : Z) (tx : Transaction) : bool :=
  bool_decide (TXtype tx = CrossTXType2) &&
  bool_decide (u64 (u64 parentBlockHeight + 1) > u64 (Cross1ConfirmHeight tx + RollbackHeight tx)).

(** The first loop of [Pending]: [queue] is [pool.pendingRollback[i:]]. *)
Fixpoint rollback_loop (maxBlockSize i : Z) (queue txs : list Transaction) :
    Z * list Transaction * list Transaction :=
  match queue with
  | [] => (i, txs, [])
  | tx :: queue' =>
      if bool_decide (i = maxBlockSize) then (i, txs, queue)
      else rollback_loop maxBlockSize (i + 1) queue' (txs ++ [tx])
  end.

(** The second loop: [queue] is [pool.pending[i:]].  An expired transaction
    advances the queue and widens the budget. *)
Fixpoint pending_loop (parentBlockHeight maxBlockSize i : Z) (queue txs : list Transaction) :
    list Transaction * list Transaction :=
  match queue with
  | [] => (txs, [])
  | tx :: queue' =>
      if bool_decide (i = maxBlockSize) then (txs, queue)
      else if expired parentBlockHeight tx
      then pending_loop parentBlockHeight (i64 (maxBlockSize + 1)) (i + 1) queue' txs
      else pending_loop parentBlockHeight maxBlockSize (i + 1) queue' (txs ++ [tx])
  end.

(** [getTxRelatedAddrs]: the accounts whose state a block needs, in the
    order of a map iteration; an unknown kind ends the process. *)
Definition related_step (addrs : gmap bytes unit) (tx : Transaction) : go (gmap bytes unit) :=
  if bool_decide (TXtype tx = CrossTXType1 ∨ TXtype tx = RollbackTXType)
  then Ret (<[Sender tx := tt]> addrs)
  else if bool_decide (TXtype tx = CrossTXType2)
  then Ret (<[Recipient tx := tt]> addrs)
  else if bool_decide (TXtype tx = IntraTXType)
  then Ret (<[Recipient tx := tt]> (<[Sender tx := tt]> addrs))
  else Halt (LogError "Unknown Txtype").

Definition getTxRelatedAddrs `{MapIter} (txs : list Transaction) : go (list bytes) :=
  addrs ← go_fold related_step ∅ txs;
  Ret (map_iter addrs).*1.

(** [Pending]: the block's transactions, the accounts they touch, and the
    pool that remains. *)
Definition Pending `{MapIter} (maxBlockSize parentBlockHeight : Z) (p : TxPool) :
    go (list Transaction * list bytes * TxPool) :=
  let '(i, txs, rollback') := rollback_loop maxBlockSize 0 (pendingRollback p) [] in
  let maxBlockSize := maxBlockSize - i in
  let '(txs, pending') := pending_loop parentBlockHeight maxBlockSize 0 (pending p) txs in
  addrs ← getTxRelatedAddrs txs;
  Ret (txs, addrs, mkTxPool pending' rollback').

(** ** Specification *)

(** A known transaction kind: the kinds [getTxRelatedAddrs] accepts. *)
Definition known_type (tx : Transaction) : Prop :=
  TXtype tx = IntraTXType ∨ TXtype tx = CrossTXType1 ∨
  TXtype tx = CrossTXType2 ∨ TXtype tx = RollbackTXType.
#[global] Instance known_type_dec tx : Decision (known_type tx).
Proof. unfold known_type. apply _. Defined.

(** The accounts a transaction reads or writes. *)
Definition touches (tx : Transaction) (a : bytes) : Prop :=
  ((TXtype tx = IntraTXType ∨ TXtype tx = CrossTXType1 ∨ TXtype tx = RollbackTXType) ∧
   a = Sender tx) ∨
  ((TXtype tx = IntraTXType ∨ TXtype tx = CrossTXType2) ∧ a = Recipient tx).

(** The queue invariant: rollbacks and only rollbacks are in the rollback
    queue. *)
Definition wf_pool (p : TxPool) : Prop :=
  Forall (λ tx, TXtype tx ≠ RollbackTXType) (pending p) ∧
  Forall (λ tx, TXtype tx = RollbackTXType) (pendingRollback p).

Definition pool_txs (p : TxPool) : list Transaction := pendingRollback p ++ pending p.

(** ** The loops *)
Lemma rollback_loop_spec n i queue txs :
  0 ≤ i ≤ n →
  rollback_loop n i queue txs =
    (i + len (take (Z.to_nat (n - i)) queue), txs ++ take (Z.to_nat (n - i)) queue,
     drop (Z.to_nat (n - i)) queue).
Proof.
  revert i txs. induction queue as [|tx queue IH]; intros i txs Hi; simpl.
  - rewrite !take_nil, drop_nil, app_nil_r. unfold len. simpl. by rewrite Z.add_0_r.
  - case_bool_decide as Heq.
    + subst. rewrite Z.sub_diag. simpl. rewrite app_nil_r. unfold len; simpl. by rewrite Z.add_0_r.
    + rewrite IH by lia. replace (Z.to_nat (n - i)) with (S (Z.to_nat (n - (i + 1)))) by lia.
      simpl. rewrite <-app_assoc. simpl. by rewrite len_cons, Z.add_assoc.
Qed.

Lemma pending_loop_split h n i queue txs :
  0 ≤ i ≤ n → n + len queue < 2^63 →
  ∃ consumed rest,
    queue = consumed ++ rest ∧
    pending_loop h n i queue txs = (txs ++ filter (λ tx, expired h tx = false) consumed, rest) ∧
    len (filter (λ tx, expired h tx = false) consumed) ≤ n - i ∧
    (rest = [] ∨ len (filter (λ tx, expired h tx = false) consumed) = n - i).
Proof.
  revert n i txs. induction queue as [|tx queue IH]; intros n i txs Hi Hn; simpl.
  - exists [], []. rewrite filter_nil, !app_nil_r. unfold len; simpl.
    split_and!; [done|done|lia|by left].
  - rewrite len_cons in Hn. case_bool_decide as Heq.
    + exists [], (tx :: queue). rewrite filter_nil, app_nil_r. unfold len; simpl.
      split_and!; [done|done|lia|right; lia].
    + destruct (expired h tx) eqn:He.
      * rewrite i64_small by (unfold in_i64; pose proof (len_nonneg queue); lia).
        destruct (IH (n + 1) (i + 1) txs) as (c & r & -> & -> & ? & Hr); [lia..|].
        exists (tx :: c), r. rewrite filter_cons_False by congruence.
        split_and!; [done|done|lia|]. destruct Hr; [by left|right; lia].
      * destruct (IH n (i + 1) (txs ++ [tx])) as (c & r & -> & -> & ? & Hr); [lia..|].
        exists (tx :: c), r. rewrite filter_cons_True, len_cons, <-app_assoc by done.
        split_and!; [done|done|lia|]. destruct Hr; [by left|right; lia].
Qed.

(** ** The related accounts *)
Lemma related_step_Ret addrs tx addrs' :
  related_step addrs tx = Ret addrs' →
  known_type tx ∧ ∀ a, is_Some (addrs' !! a) ↔ touches tx a ∨ is_Some (addrs !! a).
Proof.
  unfold related_step, known_type, touches, IntraTXType, CrossTXType1, CrossTXType2, RollbackTXType.
  repeat split_guard; intros ?; go_inv; (split; [naive_solver|]); intros b;
    rewrite ?lookup_insert_is_Some'; naive_solver congruence.
Qed.

Lemma related_step_returns addrs tx : known_type tx → returns (related_step addrs tx).
Proof.
  unfold known_type, related_step. intros Hk.
  repeat split_guard; eauto with golib; naive_solver.
Qed.

Lemma related_fold_Ret addrs txs addrs' :
  go_fold related_step addrs txs = Ret addrs' →
  Forall known_type txs ∧
  ∀ a, is_Some (addrs' !! a) ↔ (∃ tx, tx ∈ txs ∧ touches tx a) ∨ is_Some (addrs !! a).
Proof.
  revert addrs. induction txs as [|tx txs IH]; intros addrs; simpl; intros ?; go_inv.
  - split; [constructor|]. set_solver.
  - destruct (IH x) as [HF Hi]; [done|].
    destruct (related_step_Ret addrs tx x) as [Hk Hx]; [done|].
    split; [by constructor|]. intros a. rewrite Hi, Hx. set_solver.
Qed.

Section with_iter.
Context `{MI : MapIter}.

Lemma getTxRelatedAddrs_Ret txs addrs :
  getTxRelatedAddrs txs = Ret addrs →
  NoDup addrs ∧ Forall known_type txs ∧ ∀ a, a ∈ addrs ↔ ∃ tx, tx ∈ txs ∧ touches tx a.
Proof.
  unfold getTxRelatedAddrs. intros ?. go_inv.
  destruct (related_fold_Ret ∅ txs x) as [HF Hi]; [done|].
  split; [apply NoDup_fst_map_iter|]. split; [done|].
  intros a. rewrite elem_of_map_iter_fst, Hi, lookup_empty, is_Some_alt. naive_solver.
Qed.

Lemma getTxRelatedAddrs_returns txs :
  returns (getTxRelatedAddrs txs) ↔ Forall known_type txs.
Proof.
  split.
  - intros [addrs H]. by apply getTxRelatedAddrs_Ret in H as (? & ? & ?).
  - intros HF. unfold getTxRelatedAddrs. apply returns_bind; [|eauto with golib].
    destruct (go_fold_returns related_step (λ _, True) ∅ txs) as (a & ? & _).
    + done.
    + intros x tx Hin _. rewrite Forall_forall in HF.
      destruct (related_step_returns x tx) as [y ?]; [by apply HF|]. eauto.
    + by exists a.
Qed.
End with_iter.

(** ** Adding transactions *)
Lemma AddTxs_queues p txs :
  AddTxs p txs = mkTxPool
    (pending p ++ filter (λ tx, TXtype tx ≠ RollbackTXType) txs)
    (pendingRollback p ++ filter (λ tx, TXtype tx = RollbackTXType) txs).
Proof.
  unfold AddTxs. revert p. induction txs as [|tx txs IH]; intros p; simpl.
  - rewrite !filter_nil, !app_nil_r. by destruct p.
  - rewrite IH. unfold AddTxWithoutLock. case_bool_decide as Ht; simpl.
    + rewrite filter_cons_False, filter_cons_True by naive_solver.
      by rewrite <-app_assoc.
    + rewrite filter_cons_True, filter_cons_False by naive_solver.
      by rewrite <-app_assoc.
Qed.

Lemma AddTxs_wf p txs : wf_pool p → wf_pool (AddTxs p txs).
Proof.
  rewrite AddTxs_queues. intros [? ?].
  split; simpl; apply Forall_app; split; try done; apply Forall_forall;
    intros tx [? _]%list_elem_of_filter; done.
Qed.

(** Handing over the queues of another well-formed pool (a reconfiguration)
    keeps the invariant. *)
Lemma SetPending_wf p q :
  wf_pool p → wf_pool q →
  wf_pool (SetPendingRollback (pendingRollback q) (SetPending (pending q) p)).
Proof. intros [? ?] [? ?]. by split; apply Forall_app. Qed.

Section pending.
Context `{MI : MapIter}.
Implicit Types p : TxPool.

(** What [Pending] computes, once, for the theorems below. *)
Lemma Pending_unfold n h p :
  0 ≤ n → n + len (pending p) < 2^63 →
  ∃ consumed rest,
    pending p = consumed ++ rest ∧
    let live := filter (λ tx, expired h tx = false) consumed in
    let txs := take (Z.to_nat n) (pendingRollback p) ++ live in
    Pending n h p =
      (addrs ← getTxRelatedAddrs txs;
       Ret (txs, addrs, mkTxPool rest (drop (Z.to_nat n) (pendingRollback p)))) ∧
    len txs ≤ n ∧ (rest = [] ∨ len txs = n).
Proof.
  intros Hn Hlen. unfold Pending.
  rewrite rollback_loop_spec by lia. rewrite Z.sub_0_r, Z.add_0_l. simpl.
  set (rb := take (Z.to_nat n) (pendingRollback p)).
  assert (len rb ≤ n) as Hrb by (unfold len, rb; rewrite length_take; lia).
  pose proof (len_nonneg rb).
  destruct (pending_loop_split h (n - len rb) 0 (pending p) rb) as (c & r & Hp & -> & Hle & Hr);
    [lia..|].
  exists c, r. rewrite len_app. split_and!; [done|done|lia|].
  destruct Hr; [by left|right; lia].
Qed.

Lemma Pending_inv n h p txs addrs p' :
  0 ≤ n → n + len (pending p) < 2^63 →
  Pending n h p = Ret (txs, addrs, p') →
  ∃ consumed,
    pending p = consumed ++ pending p' ∧
    txs = take (Z.to_nat n) (pendingRollback p) ++
          filter (λ tx, expired h tx = false) consumed ∧
    pendingRollback p' = drop (Z.to_nat n) (pendingRollback p) ∧
    getTxRelatedAddrs txs = Ret addrs ∧
    len txs ≤ n ∧ (pending p' = [] ∨ len txs = n).
Proof.
  intros Hn Hlen HP. destruct (Pending_unfold n h p) as (c & r & Hp & HP' & Hle & Hr); [done..|].
  rewrite HP' in HP. go_inv. eauto 10.
Qed.

Lemma Pending_returns n h p :
  0 ≤ n → n + len (pending p) < 2^63 → Forall known_type (pool_txs p) →
  ∃ txs addrs p', Pending n h p = Ret (txs, addrs, p').
Proof.
  intros Hn Hlen HF. destruct (Pending_unfold n h p) as (c & r & Hp & HP & _); [done..|].
  set (txs := take _ _ ++ _) in *.
  destruct (proj2 (getTxRelatedAddrs_returns txs)) as [addrs Ha].
  - rewrite Forall_forall in HF |- *. unfold txs, pool_txs in *. rewrite Hp in HF.
    intros tx [(i & ?%list_elem_of_lookup_2 & _)%elem_of_take
              |[_ ?]%list_elem_of_filter]%elem_of_app; apply HF; set_solver.
  - rewrite Ha in HP. simpl in HP. eauto.
Qed.

(** C36. [Pending] refines its specification: on a pool of known
    transactions it returns, the block is the first [n] rollbacks followed
    by the unexpired transactions of a prefix of the pending queue, the
    rest of both queues stays, the block never exceeds [n], and it is only
    smaller when the pending queue was used up. *)
Theorem Pending_spec n h p :
  0 ≤ n → n + len (pending p) < 2^63 → Forall known_type (pool_txs p) →
  ∃ txs addrs p' consumed,
    Pending n h p = Ret (txs, addrs, p') ∧
    txs = take (Z.to_nat n) (pendingRollback p) ++
          filter (λ tx, expired h tx = false) consumed ∧
    pending p = consumed ++ pending p' ∧
    pendingRollback p' = drop (Z.to_nat n) (pendingRollback p) ∧
    len txs ≤ n ∧ (pending p' = [] ∨ len txs = n).
Proof.
  intros Hn Hlen HF. destruct (Pending_returns n h p) as (txs & addrs & p' & HP); [done..|].
  destruct (Pending_inv n h p txs addrs p') as (c & ? & ? & ? & _ & ? & ?); [done..|].
  by exists txs, addrs, p', c.
Qed.

(** The deadline: no transaction of the block is a second half whose expiry
    height the new block would exceed. *)
Lemma Pending_deadline n h p txs addrs p' tx :
  0 ≤ n → n + len (pending p) < 2^63 → wf_pool p →
  Pending n h p = Ret (txs, addrs, p') →
  tx ∈ txs → TXtype tx = CrossTXType2 →
  u64 (u64 h + 1) ≤ u64 (Cross1ConfirmHeight tx + RollbackHeight tx).
Proof.
  intros Hn Hlen [_ Hrb] HP Hin Ht.
  destruct (Pending_inv n h p txs addrs p') as (c & _ & -> & _); [done..|].
  apply elem_of_app in Hin as [(i & Hin%list_elem_of_lookup_2 & _)%elem_of_take
                              |[He _]%list_elem_of_filter].
  - rewrite Forall_forall in Hrb. apply Hrb in Hin. unfold CrossTXType2, RollbackTXType in *. congruence.
  - unfold expired in He. rewrite bool_decide_true in He by done. simpl in He.
    rewrite bool_decide_eq_false in He. lia.
Qed.

(** Conservation: a transaction of the pool is in the block, still in
    the pool, or an expired second half; none is lost, none duplicated. *)
Theorem Pending_conserves n h p txs addrs p' :
  0 ≤ n → n + len (pending p) < 2^63 →
  Pending n h p = Ret (txs, addrs, p') →
  ∃ dropped, Forall (λ tx, expired h tx = true) dropped ∧
    pool_txs p ≡ₚ txs ++ dropped ++ pool_txs p'.
Proof.
  intros Hn Hlen HP.
  destruct (Pending_inv n h p txs addrs p') as (c & Hp & -> & Hr & _); [done..|].
  exists (filter (λ tx, ¬ expired h tx = false) c). split.
  - apply Forall_forall. intros tx [He _]%list_elem_of_filter. by destruct (expired h tx).
  - unfold pool_txs. rewrite Hp, Hr, <-(filter_app_complement (λ tx, expired h tx = false) c) at 1.
    rewrite <-(take_drop (Z.to_nat n) (pendingRollback p)) at 1. solve_Permutation.
Qed.

Lemma Pending_wf n h p txs addrs p' :
  0 ≤ n → n + len (pending p) < 2^63 → wf_pool p →
  Pending n h p = Ret (txs, addrs, p') → wf_pool p'.
Proof.
  intros Hn Hlen [HA HB] HP.
  destruct (Pending_inv n h p txs addrs p') as (c & Hp & -> & Hr & _); [done..|].
  rewrite Hp in HA. apply Forall_app in HA as [_ HA]. split; [done|].
  rewrite Hr. by apply Forall_drop.
Qed.

(** A block is taken from a non-empty pool: the pool shrinks. *)
Lemma Pending_shrinks n h p txs addrs p' :
  0 < n → n + len (pending p) < 2^63 →
  Pending n h p = Ret (txs, addrs, p') →
  pool_txs p ≠ [] → (length (pool_txs p') < length (pool_txs p))%nat.
Proof.
  intros Hn Hlen HP Hne.
  destruct (Pending_inv n h p txs addrs p') as (c & Hp & Htx & Hr & _ & _ & Hfull); [lia|done..|].
  unfold pool_txs in *. rewrite Hp, Hr, !length_app, length_drop.
  destruct (pendingRollback p) as [|r rb] eqn:Erb; simpl in *; [|lia].
  destruct c as [|t c]; simpl; [|lia]. exfalso.
  destruct Hfull as [Hnil|Hfull].
  - by rewrite Hp, Hnil in Hne.
  - rewrite Htx, take_nil, filter_nil in Hfull. unfold len in Hfull. simpl in Hfull. lia.
Qed.
End pending.

(** [drain]: [k] blocks in a row, at any heights, with no arrivals. *)
Fixpoint drain `{MapIter} (n : Z) (hs : list Z) (p : TxPool) : go TxPool :=
  match hs with
  | [] => Ret p
  | h :: hs => '(_, _, p') ← Pending n h p; drain n hs p'
  end.

Section drain.
Context `{MI : MapIter}.

(** Liveness: with a positive block size and no arrivals, as many
    blocks as there are transactions leave the pool empty; every rollback
    and every unexpired transaction has been selected by then. *)
Theorem drain_empties n hs p :
  0 < n → n + len (pending p) < 2^63 → Forall known_type (pool_txs p) →
  (length (pool_txs p) ≤ length hs)%nat → drain n hs p = Ret NewTxPool.
Proof.
  revert p. induction hs as [|h hs IH]; intros p Hn Hlen HF Hle; simpl.
  - destruct p as [[] []]; simpl in *; unfold pool_txs in Hle; simpl in *; try lia; done.
  - destruct (Pending_returns n h p) as (txs & addrs & p' & HP); [lia|done..|].
    destruct (Pending_inv n h p txs addrs p') as (c & Hc & _ & Hr & _); [lia|done..|].
    rewrite HP. simpl.
    assert (len (pending p') ≤ len (pending p)) as Hle'.
    { rewrite Hc, len_app. pose proof (len_nonneg c). lia. }
    assert (Forall known_type (pool_txs p')) as HF'.
    { unfold pool_txs in *. rewrite Hc in HF. rewrite Hr. rewrite !Forall_app in *.
      destruct HF as (? & ? & ?). split; [by apply Forall_drop|done]. }
    apply IH; [done|lia|done|].
    destruct (decide (pool_txs p = [])) as [Hnil|Hne].
    + assert (length (pool_txs p) = 0%nat) as Hz by (by rewrite Hnil).
      unfold pool_txs in *. rewrite Hc, !length_app in Hz. rewrite Hr, length_app, length_drop. lia.
    + eapply (Pending_shrinks n h p) in HP; [|done..]. simpl in Hle. lia.
Qed.
End drain.

(** ** Witnesses: a pool with a rollback, an expired second half, a live one
    and a transaction inside the shard. *)
Definition demo_tx (ty id : Z) (from to : bytes) (c1 rb : Z) : Transaction :=
  mkTransaction ty id from to 0 7 0 0 0 c1 0 1 0 0 rb.
Definition demo_pool : TxPool :=
  mkTxPool [demo_tx 3 10 [1] [2] 1 2; demo_tx 3 11 [3] [4] 5 9; demo_tx 1 12 [5] [6] 0 0]
           [demo_tx 4 13 [7] [8] 0 0].

Lemma Pending_spec_witness :
  ∃ txs addrs p' consumed,
    @Pending canonical_iter 2 5 demo_pool = Ret (txs, addrs, p') ∧
    txs = take (Z.to_nat 2) (pendingRollback demo_pool) ++
          filter (λ tx, expired 5 tx = false) consumed ∧
    pending demo_pool = consumed ++ pending p' ∧
    pendingRollback p' = drop (Z.to_nat 2) (pendingRollback demo_pool) ∧
    len txs ≤ 2 ∧ (pending p' = [] ∨ len txs = 2).
Proof.
  apply (@Pending_spec canonical_iter 2 5 demo_pool); by_compute.
Defined.

Lemma Pending_conserves_witness :
  ∃ dropped, Forall (λ tx, expired 5 tx = true) dropped ∧
    pool_txs demo_pool ≡ₚ
      [demo_tx 4 13 [7] [8] 0 0; demo_tx 3 11 [3] [4] 5 9] ++ dropped ++
      pool_txs (mkTxPool [demo_tx 1 12 [5] [6] 0 0] []).
Proof.
  eapply (@Pending_conserves canonical_iter 2 5 demo_pool).
  - by_compute.
  - by_compute.
  - vm_compute. reflexivity.
Defined.

Lemma drain_empties_witness :
  @drain canonical_iter 1 [5; 6; 7; 8] demo_pool = Ret NewTxPool.
Proof. apply (@drain_empties canonical_iter); by_compute. Defined.
