(* ===== verification/CrossShard.v ===== *)
(** * Atomicity of cross-shard transactions: the client and the pool of the
    destination committee together.

    The second half of a transaction is packed by the pool of its destination
    ([TxPool.Pending]) only up to a deadline; its rollback is queued by the
    client ([Client.checkExpiredTXs]) only past it.  A step relation covers
    every operation of a client; the theorem is an invariant of its runs. *)
From S2P Require Import Prelude Utils Core Result Account MultiSign Beacon Client TxPool.
Local Open Scope Z_scope.

Section atomicity.
Context `{MI : MapIter}.

Inductive cevent :=
  | Receipts (rs : list TXReceipt)
  | Beacons (b : TBBlock)
  | Round (now inject_speed : Z).

(** The client once it has taken over the beacons of a block, before it
    looks at its receipts. *)
Definition informed (b : TBBlock) (c c1 : Client) : Prop :=
  ∃ t hs, add_tbs (ctbs c, shard_cur_heights c) (Tbs b) = Ret (t, hs) ∧
    c1 = set_beacons t hs (Height b) c.

Inductive cstep (c : Client) : cevent → Client → Prop :=
  | step_receipts rs : cstep c (Receipts rs) (AddTXReceipts rs c)
  | step_beacons b res c' res' : AddTBs b c res = Ret (c', res') → cstep c (Beacons b) c'
  | step_round now speed bm ms d stop bm' c' :
      inject_round now speed bm c = Ret (ms, d, stop, bm', c') → cstep c (Round now speed) c'.

(** Transaction [t], destination shard [s]; its second half was packed at
    height [hb]. *)
Variables (t s hb : Z).

(** What the network provides: the only receipts that still arrive for [t]
    announce its second half, and the client does not learn of a beacon of
    the destination above [hb] before it holds the receipt and the beacon of
    [hb]. *)
Definition timely (c : Client) (e : cevent) : Prop :=
  match e with
  | Receipts rs => ∀ r, r ∈ rs → TxID r = t → TxStatus r = CrossTXType2Success
  | Beacons b => ∀ c1, informed b c c1 → cur_height c1 s > hb →
      is_Some (cross1_confirm_height_map c !! t) →
      ∃ r, r ∈ tx_reply c ∧ TxID r = t ∧ is_Some (known_beacon c1 r)
  | Round _ _ => True
  end.

Inductive crun : Client → list cevent → Client → Prop :=
  | crun_nil c : crun c [] c
  | crun_cons c e c1 es c2 : timely c e → cstep c e c1 → crun c1 es c2 → crun c (e :: es) c2.

(** [t] waits with base [ch] or is settled, and is not up for rollback. *)
Record waiting_or_settled (ch rh : Z) (c : Client) : Prop := {
  ws_expired : t ∉ cross_tx_expired c;
  ws_load : ∃ tx, load c t = Ret tx ∧ u32 (Recipient_sid tx) = s ∧ RollbackHeight tx = rh;
  ws_replies : ∀ r, r ∈ tx_reply c → TxID r = t → TxStatus r = CrossTXType2Success;
  ws_entry : cross1_confirm_height_map c !! t = Some ch ∨ cross1_confirm_height_map c !! t = None
}.

Lemma beacons_step ch rh b c res c' res' :
  hb ≤ u64 (ch + rh) → waiting_or_settled ch rh c → timely c (Beacons b) →
  AddTBs b c res = Ret (c', res') → waiting_or_settled ch rh c'.
Proof.
  intros Hhb [Hex (tx & Hl & Hs & Hrh) Hrep Hent] Ht HA.
  destruct (AddTBs_inv b c res c' res' HA) as (tb & hs & c2 & Htb & Hp & Hc).
  set (c1 := set_beacons tb hs (Height b) c) in *. specialize (Ht c1). unfold processTXReceipts in Hp.
  apply go_bind_Ret in Hp as (p & Hf & Hp). apply go_bind_Ret in Hp as (r2 & _ & Hp). injection Hp as <- <-.
  destruct (checkExpiredTXs_inv _ _ Hc) as (new & _ & Hnew & Hmap & ->). simpl in *. clear Hc HA.
  pose proof (process_fold_shrinks c1 t _ _ _ Hrep Hf) as Hshrink. simpl in Hshrink.
  destruct (process_fold_spec c1 _ _ _ Hf) as [Hkept _]. simpl in Hkept.
  assert (t ∉ new) as Hfresh.
  { intros (ch' & Hch & tx' & Hl' & Hover)%Hnew. simpl in *.
    assert (tx' = tx) as -> by (unfold load in *; simpl in *; congruence).
    assert (ch' = ch ∧ cross1_confirm_height_map c !! t = Some ch) as [-> Hentry]
      by (destruct Hshrink, Hent; split; congruence).
    unfold cur_height in Hover; simpl in Hover. rewrite Hs, Hrh in Hover.
    destruct Ht as (r & Hr & HID & Hk); [by exists tb, hs|unfold cur_height; simpl; lia|by eauto|].
    assert (heights1 p !! t = None); [|congruence].
    by eapply (process_fold_finished c1 t (tx_reply c1) _ p r). }
  split; simpl.
  - rewrite elem_of_app. tauto.
  - by exists tx.
  - intros r Hr. apply Hrep. rewrite Hkept in Hr. by apply list_elem_of_filter in Hr as [_ ?].
  - rewrite Hmap. case_bool_decide; [by right|]. destruct Hshrink, Hent; naive_solver congruence.
Qed.

Lemma cstep_keeps ch rh c e c' :
  hb ≤ u64 (ch + rh) → waiting_or_settled ch rh c → timely c e → cstep c e c' →
  waiting_or_settled ch rh c'.
Proof.
  intros Hhb Hw Ht Hstep. destruct Hstep as [rs|b res c' res' HA|now speed bm ms d stop bm' c' Hr].
  - destruct Hw as [Hex Hl Hrep Hent]. split; try done. simpl.
    intros r [Hr|Hr]%elem_of_app; [by apply Hrep|by apply Ht].
  - by eapply beacons_step.
  - apply inject_round_waiting in Hr as [Hre Hm _ _ Hex' Hl']. destruct Hw as [Hex (tx & Hl & Hs & Hrh) Hrep Hent].
    split; [set_solver| |by rewrite Hre|by rewrite Hm].
    destruct (Hl' t tx Hl) as (tx' & ? & Hs' & Hr'). exists tx'. rewrite Hs', Hr'. done.
Qed.

(** C1. Atomicity of a cross-shard transaction.  Once the pool of the
    destination committee has packed its second half into a block, the
    client never queues its rollback: in every run of the client, with any
    interleaving of receipts, beacon blocks and sending rounds, in which the
    receipt of that block reaches the client before beacons of the
    destination above it, the transaction is never in the rollback queue. *)
Theorem packed_second_half_never_rolled_back n parent p packed addrs p' tx2 ch rh c es c' :
  0 ≤ n → n + len (pending p) < 2^63 → wf_pool p →
  Pending n parent p = Ret (packed, addrs, p') → tx2 ∈ packed → TXtype tx2 = CrossTXType2 →
  Cross1ConfirmHeight tx2 = ch → RollbackHeight tx2 = rh → hb = u64 (u64 parent + 1) →
  waiting_or_settled ch rh c → crun c es c' →
  t ∉ cross_tx_expired c'.
Proof.
  intros Hn Hlen Hwf HP Hin Hty <- <- Hhb Hw Hrun.
  assert (hb ≤ u64 (Cross1ConfirmHeight tx2 + RollbackHeight tx2)) as Hle
    by (rewrite Hhb; by eapply Pending_deadline).
  induction Hrun as [c|c e c1 es c2 Ht Hstep _ IH]; [by destruct Hw|].
  apply IH. by eapply cstep_keeps.
Qed.

(** [tx2] carries the deadline of [tx], whose first half was confirmed at
    [ch]. *)
Definition second_half_of (tx : Transaction) (ch : Z) (tx2 : Transaction) : Prop :=
  Cross1ConfirmHeight tx2 = ch ∧ RollbackHeight tx2 = RollbackHeight tx.

(** C8. The other direction: once the client finds a waiting transaction
    overdue, no later block of the destination can contain its second half.
    Whatever the pool holds, a block built on a parent at least as high as
    the height the client saw confirmed packs no second half with that
    deadline. *)
Theorem overdue_second_half_never_packed n parent p packed addrs p' tx2 c tx ch :
  0 ≤ n → n + len (pending p) < 2^63 → wf_pool p →
  load c t = Ret tx → overdue c t ch →
  cur_height c (u32 (Recipient_sid tx)) ≤ parent → 0 ≤ parent < 2^64 - 1 →
  Pending n parent p = Ret (packed, addrs, p') → tx2 ∈ packed → TXtype tx2 = CrossTXType2 →
  ¬ second_half_of tx ch tx2.
Proof.
  intros Hn Hlen Hwf Hl (tx' & Hl' & Hover) Hcur Hpar HP Hin Hty [Hc Hr].
  assert (tx' = tx) as -> by congruence.
  pose proof (Pending_deadline n parent p packed addrs p' tx2 Hn Hlen Hwf HP Hin Hty) as Hd.
  rewrite Hc, Hr in Hd. rewrite (u64_small parent), u64_small in Hd by (unfold in_u64; lia). lia.
Qed.
End atomicity.

(** ** Witnesses: transaction 11 with base 5 and rollback height 9 waits at a
    client; shard 1 packs its second half at height 6, the receipt arrives,
    then beacons 6 and 20. *)
Section demo.
#[local] Existing Instance canonical_iter.

Definition demo_route : Transaction :=
  mkTransaction CrossTXType1 11 [3] [4] 0 1 0 0 0 0 0 1 0 0 9.
Definition demo_client : Client :=
  set_beacons {[ 1 := ∅ ]} {[ 1 := 5 ]} 3
    (set_queues [] {[ 11 := 5 ]} [] []
      (set_pool {[ 0 := demo_route ]} [0] {[ 11 := 0 ]} (NewClient 0 9 2 1))).
Definition demo_receipt : TXReceipt := mkTXReceipt 11 0 CrossTXType2Success 1 6 [].
Definition demo_conf (h : Z) : ConfirmedTB := mkConfirmedTB (mkTimeBeacon 1 h "" "" "") 77 0.
Definition demo_block : TBBlock := mkTBBlock 77 4 [[]; [demo_conf 6; demo_conf 20]].
Definition demo_result12 : Result := SetTotalTXNum 12 NewResult.
Definition demo_final : Client :=
  match AddTBs demo_block (AddTXReceipts [demo_receipt] demo_client) demo_result12 with
  | Ret (c, _) => c
  | Halt _ => demo_client
  end.

Lemma demo_run : crun 11 1 6 demo_client [Receipts [demo_receipt]; Beacons demo_block] demo_final.
Proof.
  eapply crun_cons; [|apply step_receipts|eapply crun_cons; [| |apply crun_nil]].
  - intros r Hr _. apply list_elem_of_singleton in Hr as ->. reflexivity.
  - intros c1 (t & hs & Ht & ->) _ _. exists demo_receipt. split; [by_compute|]. split; [reflexivity|].
    vm_compute in Ht. injection Ht as <- <-. vm_compute. eauto.
  - eapply (step_beacons _ demo_block demo_result12). vm_compute. reflexivity.
Qed.

Lemma demo_waiting : waiting_or_settled 11 1 5 9 demo_client.
Proof.
  split.
  - by_compute.
  - exists demo_route. split_and!; reflexivity.
  - intros r Hr. by apply elem_of_nil in Hr.
  - left. reflexivity.
Qed.

Lemma packed_second_half_never_rolled_back_witness : 11 ∉ cross_tx_expired demo_final.
Proof.
  eapply (packed_second_half_never_rolled_back 11 1 6 2 5 demo_pool _ _ _ (demo_tx 3 11 [3] [4] 5 9)
    5 9 demo_client [Receipts [demo_receipt]; Beacons demo_block]).
  - lia.
  - by_compute.
  - split; by_compute.
  - vm_compute. reflexivity.
  - by_compute.
  - reflexivity.
  - reflexivity.
  - reflexivity.
  - reflexivity.
  - apply demo_waiting.
  - apply demo_run.
Defined.

Definition demo_late : Client :=
  set_beacons {[ 1 := ∅ ]} {[ 1 := 15 ]} 3 demo_client.

Lemma overdue_second_half_never_packed_witness :
  ∃ packed addrs p' tx2,
    Pending 2 15 (mkTxPool [demo_tx 3 12 [3] [4] 8 9] []) = Ret (packed, addrs, p') ∧
    tx2 ∈ packed ∧ ¬ second_half_of demo_route 5 tx2.
Proof.
  eexists _, _, _, (demo_tx 3 12 [3] [4] 8 9). split; [vm_compute; reflexivity|]. split; [by_compute|].
  eapply (overdue_second_half_never_packed 11 2 15 (mkTxPool [demo_tx 3 12 [3] [4] 8 9] []) _ _ _
    (demo_tx 3 12 [3] [4] 8 9) demo_late demo_route 5).
  - lia.
  - by_compute.
  - split; by_compute.
  - reflexivity.
  - exists demo_route. split; [reflexivity|vm_compute; reflexivity].
  - vm_compute. discriminate.
  - lia.
  - vm_compute. reflexivity.
  - by_compute.
  - reflexivity.
Defined.
End demo.
