(* ===== verification/Exec.v ===== *)
(** * Execution of a block: twice, in two places.

    The committee's worker executes a block on the account states it fetched
    from its shard (src/committee/worker.go: [executeTransactions],
    [executeTransaction] and the helpers they call); the shard executes the
    same block again on its state database (src/shard/shard.go:
    [executeTransactions], [executeTransaction]).  The shard compares the two
    resulting roots, so the two executions must agree. *)
From S2P Require Import Prelude Core TxPool.
Local Open Scope Z_scope.

(** ** The worker's side *)

Definition addBalance (val : Z) (s : StateAccount) : StateAccount :=
  mkStateAccount (aNonce s) (Balance s + val) (aRoot s) (CodeHash s).
Definition subBalance (val : Z) (s : StateAccount) : StateAccount :=
  mkStateAccount (aNonce s) (Balance s - val) (aRoot s) (CodeHash s).
Definition addNonceByOne (s : StateAccount) : StateAccount :=
  mkStateAccount (u64 (aNonce s + 1)) (Balance s) (aRoot s) (CodeHash s).
Definition subNonceByOne (s : StateAccount) : StateAccount :=
  mkStateAccount (u64 (aNonce s - 1)) (Balance s) (aRoot s) (CodeHash s).

(** [addr2State] maps an address to a pointer to its account, and
    [updatedStates] maps the hash of an address to the same pointer.  Every
    address has a pointer of its own ([analyseStates] allocates one per
    entry), so the address stands for its pointer: an update through either
    map is an update of [addr2State], and [updatedStates] only records which
    pointers it holds. *)
Record wstate := mkWstate {
  addr2State : gmap bytes StateAccount;
  updatedStates : gmap bytes bytes
}.

Section exec.
(** [utils.GetHash], Keccak-256 (golang.org/x/crypto). *)
Variable GetHash : bytes → bytes.

(** The account an update through [p] leaves in the store. *)
Definition upd (st : wstate) (a : bytes) (acct : StateAccount) : wstate :=
  mkWstate (<[a := acct]> (addr2State st)) (<[GetHash a := a]> (updatedStates st)).

Definition executeTransaction (st : wstate) (tx : Transaction) : go (wstate * Transaction) :=
  if bool_decide (TXtype tx = IntraTXType) then
    senderState ← deref (addr2State st !! Sender tx);
    let st := upd st (Sender tx) (subBalance (Value tx) (addNonceByOne senderState)) in
    receiverState ← deref (addr2State st !! Recipient tx);
    let st := upd st (Recipient tx) (addBalance (Value tx) receiverState) in
    Ret (st, set_TXStatus IntraSuccess tx)
  else if bool_decide (TXtype tx = CrossTXType1) then
    senderState ← deref (addr2State st !! Sender tx);
    let st := upd st (Sender tx) (subBalance (Value tx) (addNonceByOne senderState)) in
    Ret (st, set_TXStatus CrossTXType1Success tx)
  else if bool_decide (TXtype tx = CrossTXType2) then
    receiverState ← deref (addr2State st !! Recipient tx);
    let st := upd st (Recipient tx) (addBalance (Value tx) receiverState) in
    Ret (st, set_TXStatus CrossTXType2Success tx)
  else if bool_decide (TXtype tx = RollbackTXType) then
    senderState ← deref (addr2State st !! Sender tx);
    let st := upd st (Sender tx) (addBalance (Value tx) (subNonceByOne senderState)) in
    Ret (st, set_TXStatus RollbackSuccess tx)
  else Halt (LogError "Oops, something wrong! Cannot handle tx type").

(** The loop, with the transactions as the loop leaves them. *)
Fixpoint executeTransactions (txs : list Transaction) (st : wstate) :
    go (wstate * list Transaction) :=
  match txs with
  | [] => Ret (st, [])
  | tx :: txs =>
      '(st, tx) ← executeTransaction st tx;
      '(st, txs) ← executeTransactions txs st;
      Ret (st, tx :: txs)
  end.
End exec.

(** ** The shard's side

    [state.StateDB] is go-ethereum's.  What the shard relies on: the
    balance and nonce accessors read back what the mutators wrote, and a
    mutator changes one account only. *)
Class StateDB (DB : Type) := {
  GetNonce : DB → bytes → Z;
  GetBalance : DB → bytes → Z;
  SetNonce : DB → bytes → Z → DB;
  AddBalance : DB → bytes → Z → DB;
  SubBalance : DB → bytes → Z → DB
}.

Class StateDBLaws (DB : Type) `{StateDB DB} := {
  GetNonce_SetNonce : ∀ s a n b,
    GetNonce (SetNonce s a n) b = if decide (b = a) then n else GetNonce s b;
  GetBalance_SetNonce : ∀ s a n b, GetBalance (SetNonce s a n) b = GetBalance s b;
  GetNonce_AddBalance : ∀ s a v b, GetNonce (AddBalance s a v) b = GetNonce s b;
  GetBalance_AddBalance : ∀ s a v b,
    GetBalance (AddBalance s a v) b = GetBalance s b + if decide (b = a) then v else 0;
  GetNonce_SubBalance : ∀ s a v b, GetNonce (SubBalance s a v) b = GetNonce s b;
  GetBalance_SubBalance : ∀ s a v b,
    GetBalance (SubBalance s a v) b = GetBalance s b + if decide (b = a) then -v else 0
}.

Module Shard.
Section shard_exec.
Context {DB : Type} `{StateDB DB}.

Definition executeTransaction (state : DB) (tx : Transaction) : go DB :=
  if bool_decide (TXtype tx = IntraTXType) then
    let state := SetNonce state (Sender tx) (u64 (GetNonce state (Sender tx) + 1)) in
    let state := SubBalance state (Sender tx) (Value tx) in
    Ret (AddBalance state (Recipient tx) (Value tx))
  else if bool_decide (TXtype tx = CrossTXType1) then
    let state := SetNonce state (Sender tx) (u64 (GetNonce state (Sender tx) + 1)) in
    Ret (SubBalance state (Sender tx) (Value tx))
  else if bool_decide (TXtype tx = CrossTXType2) then
    Ret (AddBalance state (Recipient tx) (Value tx))
  else if bool_decide (TXtype tx = RollbackTXType) then
    let state := SetNonce state (Sender tx) (u64 (GetNonce state (Sender tx) - 1)) in
    Ret (AddBalance state (Sender tx) (Value tx))
  else Halt (LogError "Oops, something wrong! Cannot handle tx type").
End shard_exec.
End Shard.

(** ** The effect of one transaction *)

(** Net change of the balance of [a]. *)
Definition delta (tx : Transaction) (a : bytes) : Z :=
  (if decide (TXtype tx = IntraTXType ∨ TXtype tx = CrossTXType1)
   then (if decide (a = Sender tx) then - Value tx else 0) else 0) +
  (if decide (TXtype tx = RollbackTXType)
   then (if decide (a = Sender tx) then Value tx else 0) else 0) +
  (if decide (TXtype tx = IntraTXType ∨ TXtype tx = CrossTXType2)
   then (if decide (a = Recipient tx) then Value tx else 0) else 0).

(** Net change of the nonce of [a], before wrap-around. *)
Definition ndelta (tx : Transaction) (a : bytes) : Z :=
  (if decide (TXtype tx = IntraTXType ∨ TXtype tx = CrossTXType1)
   then (if decide (a = Sender tx) then 1 else 0) else 0) +
  (if decide (TXtype tx = RollbackTXType)
   then (if decide (a = Sender tx) then -1 else 0) else 0).

(** The status a known transaction ends in. *)
Definition success_status (tx : Transaction) : Z :=
  if decide (TXtype tx = IntraTXType) then IntraSuccess
  else if decide (TXtype tx = CrossTXType1) then CrossTXType1Success
  else if decide (TXtype tx = CrossTXType2) then CrossTXType2Success
  else RollbackSuccess.

(** [acct'] is [acct] after the net changes [d] and [n]. *)
Definition moved (acct acct' : StateAccount) (d n : Z) : Prop :=
  Balance acct' = Balance acct + d ∧ u64 (aNonce acct') = u64 (aNonce acct + n) ∧
  aRoot acct' = aRoot acct ∧ CodeHash acct' = CodeHash acct.

Lemma moved_refl acct : moved acct acct 0 0.
Proof. unfold moved. rewrite !Z.add_0_r. done. Qed.

Lemma moved_trans a b c d d' n n' :
  moved a b d n → moved b c d' n' → moved a c (d + d') (n + n').
Proof.
  intros (? & Hn & ? & ?) (? & Hn' & ? & ?). unfold moved. split_and!; [lia| |congruence..].
  rewrite Hn', <-u64_add_l, Hn, u64_add_l. f_equal. lia.
Qed.

(** The four kinds, with the guards of the source decided. *)
Ltac tx_cases Hk :=
  destruct Hk as [Hk|[Hk|[Hk|Hk]]]; rewrite ?Hk;
  unfold IntraTXType, CrossTXType1, CrossTXType2, RollbackTXType in *;
  repeat first [rewrite bool_decide_true by done | rewrite bool_decide_false by done
               |rewrite decide_True by naive_solver | rewrite decide_False by naive_solver];
  simpl.

Lemma insert_moved (m : gmap bytes StateAccount) a acct acct' d n b x :
  m !! a = Some acct → moved acct acct' d n → m !! b = Some x →
  ∃ x', <[a := acct']> m !! b = Some x' ∧
    moved x x' (if decide (b = a) then d else 0) (if decide (b = a) then n else 0).
Proof.
  intros Ha Hm Hb. rewrite lookup_insert. destruct (decide (a = b)) as [->|Hne].
  - rewrite !decide_True by done. simplify_eq. eauto.
  - rewrite !decide_False by done. eauto using moved_refl.
Qed.

Lemma moved_debit acct v : moved acct (subBalance v (addNonceByOne acct)) (- v) 1.
Proof. unfold moved; simpl. rewrite u64_idem. done. Qed.
Lemma moved_credit acct v : moved acct (addBalance v acct) v 0.
Proof. unfold moved; simpl. rewrite Z.add_0_r. done. Qed.
Lemma moved_refund acct v : moved acct (addBalance v (subNonceByOne acct)) v (-1).
Proof. unfold moved; simpl. rewrite u64_idem. done. Qed.

Section worker_facts.
Variable GetHash : bytes → bytes.
Implicit Types st : wstate.

(** One known transaction whose accounts are present executes, moves each
    account by its net change and keeps the set of accounts. *)
Lemma executeTransaction_moves st tx :
  known_type tx → (∀ a, touches tx a → is_Some (addr2State st !! a)) →
  ∃ st', executeTransaction GetHash st tx = Ret (st', set_TXStatus (success_status tx) tx) ∧
    (∀ a acct, addr2State st !! a = Some acct →
       ∃ acct', addr2State st' !! a = Some acct' ∧ moved acct acct' (delta tx a) (ndelta tx a)) ∧
    (∀ a, is_Some (addr2State st' !! a) ↔ is_Some (addr2State st !! a)).
Proof.
  intros Hk Ht. unfold executeTransaction, success_status, delta, ndelta, touches in *.
  tx_cases Hk.
  - destruct (Ht (Sender tx)) as [sa Hs]; [naive_solver|]. rewrite Hs. simpl.
    destruct (Ht (Recipient tx)) as [ra Hr]; [naive_solver|].
    destruct (insert_moved _ _ _ _ _ _ _ _ Hs (moved_debit sa (Value tx)) Hr) as (ra' & Hr' & _).
    rewrite Hr'. simpl. eexists. split_and!; [done|..].
    + intros a acct Ha.
      destruct (insert_moved _ _ _ _ _ _ _ _ Hs (moved_debit sa (Value tx)) Ha) as (x & Hx & Hm).
      destruct (insert_moved _ _ _ _ _ _ _ _ Hr' (moved_credit ra' (Value tx)) Hx) as (y & Hy & Hm').
      exists y. split; [done|]. pose proof (moved_trans _ _ _ _ _ _ _ Hm Hm') as Hmm.
      destruct (decide (a = Recipient tx)), (decide (a = Sender tx)); simpl in *; rewrite ?Z.add_0_r in *; done.
    + intros a. simpl. rewrite !lookup_insert_is_Some'. naive_solver.
  - destruct (Ht (Sender tx)) as [sa Hs]; [naive_solver|]. rewrite Hs. simpl.
    eexists. split_and!; [done|..].
    + intros a acct Ha. rewrite !Z.add_0_r. eapply insert_moved; [done| |done]. apply moved_debit.
    + intros a. simpl. rewrite !lookup_insert_is_Some'. naive_solver.
  - destruct (Ht (Recipient tx)) as [ra Hr]; [naive_solver|]. rewrite Hr. simpl.
    eexists. split_and!; [done|..].
    + intros a acct Ha.
      destruct (insert_moved _ _ _ _ _ _ _ _ Hr (moved_credit ra (Value tx)) Ha) as (x & Hx & Hm).
      exists x. split; [done|]. by destruct (decide (a = Recipient tx)).
    + intros a. simpl. rewrite !lookup_insert_is_Some'. naive_solver.
  - destruct (Ht (Sender tx)) as [sa Hs]; [naive_solver|]. rewrite Hs. simpl.
    eexists. split_and!; [done|..].
    + intros a acct Ha. rewrite !Z.add_0_r. eapply insert_moved; [done| |done]. apply moved_refund.
    + intros a. simpl. rewrite !lookup_insert_is_Some'. naive_solver.
Qed.

(** The whole block. *)
Lemma executeTransactions_moves txs st :
  Forall known_type txs →
  (∀ tx a, tx ∈ txs → touches tx a → is_Some (addr2State st !! a)) →
  ∃ st', executeTransactions GetHash txs st =
      Ret (st', (λ tx, set_TXStatus (success_status tx) tx) <$> txs) ∧
    (∀ a acct, addr2State st !! a = Some acct →
       ∃ acct', addr2State st' !! a = Some acct' ∧
         moved acct acct' (sumZ (λ tx, delta tx a) txs) (sumZ (λ tx, ndelta tx a) txs)) ∧
    (∀ a, is_Some (addr2State st' !! a) ↔ is_Some (addr2State st !! a)).
Proof.
  revert st. induction txs as [|tx txs IH]; intros st HF Ht; simpl.
  - eexists. split_and!; [done| |done]. intros a acct Ha. eauto using moved_refl.
  - inversion_clear HF.
    destruct (executeTransaction_moves st tx) as (st1 & -> & Hm1 & Hd1); [done| |].
    { intros a. apply Ht. by left. }
    simpl. destruct (IH st1) as (st2 & -> & Hm2 & Hd2); [done| |].
    { intros tx' a Hin Ha. rewrite Hd1. apply (Ht tx'); [by right|done]. }
    simpl. eexists. split_and!; [done| |].
    + intros a acct Ha. destruct (Hm1 a acct Ha) as (x & Hx & Hmx).
      destruct (Hm2 a x Hx) as (y & Hy & Hmy). eauto using moved_trans.
    + intros a. by rewrite Hd2, Hd1.
Qed.
End worker_facts.

(** ** Agreement of the two executions *)

(** Every account the worker holds reads the same in the state database. *)
Definition agrees {DB} `{StateDB DB} (m : gmap bytes StateAccount) (s : DB) : Prop :=
  ∀ a acct, m !! a = Some acct → aNonce acct = GetNonce s a ∧ Balance acct = GetBalance s a.

Section agreement.
Variable GetHash : bytes → bytes.
Context {DB : Type} `{StateDBLaws DB}.
Implicit Types (st : wstate) (s : DB).

#[local] Hint Rewrite @GetNonce_SetNonce @GetBalance_SetNonce @GetNonce_AddBalance
  @GetBalance_AddBalance @GetNonce_SubBalance @GetBalance_SubBalance using done : golib_rw.

Lemma agrees_step st tx st' tx' s :
  agrees (addr2State st) s → executeTransaction GetHash st tx = Ret (st', tx') →
  ∃ s', Shard.executeTransaction s tx = Ret s' ∧ agrees (addr2State st') s' ∧
    ∀ a, ¬ touches tx a → GetNonce s' a = GetNonce s a ∧ GetBalance s' a = GetBalance s a.
Proof.
  intros Hag. unfold executeTransaction, Shard.executeTransaction, touches.
  repeat split_guard; intros ?; go_inv; eexists; (split; [done|]); split.
  all: try (intros a Hn; autorewrite with golib_rw; rewrite ?decide_False by naive_solver;
            split; [done|lia]).
  all: intros a acct; simpl in *; intros Hl; autorewrite with golib_rw;
    rewrite !lookup_insert in *; repeat (case_decide; simplify_eq/=);
    repeat match goal with H : addr2State _ !! _ = Some _ |- _ => apply Hag in H as [??] end;
    try match goal with E : Recipient _ = Sender _ |- _ => rewrite E end;
    split; try lia; congruence.
Qed.

(** The executions agree, by induction on the block. *)
Lemma execution_agrees txs st s :
  Forall known_type txs →
  (∀ tx a, tx ∈ txs → touches tx a → is_Some (addr2State st !! a)) →
  agrees (addr2State st) s →
  ∃ st' s', executeTransactions GetHash txs st =
      Ret (st', (λ tx, set_TXStatus (success_status tx) tx) <$> txs) ∧
    go_fold Shard.executeTransaction s txs = Ret s' ∧
    agrees (addr2State st') s' ∧
    ∀ a, addr2State st !! a = None → GetNonce s' a = GetNonce s a ∧ GetBalance s' a = GetBalance s a.
Proof.
  revert st s. induction txs as [|tx txs IH]; intros st s HF Ht Hag; simpl; [by eauto 10|].
  inversion_clear HF.
  destruct (executeTransaction_moves GetHash st tx) as (st1 & He & _ & Hd1); [done| |].
  { intros a. apply Ht. by left. }
  rewrite He. simpl.
  destruct (agrees_step st tx st1 _ s Hag He) as (s1 & -> & Hag1 & Hout1). simpl.
  destruct (IH st1 s1) as (st2 & s2 & -> & -> & Hag2 & Hout2); [done| |done|].
  { intros tx' a Hin Ha. rewrite Hd1. apply (Ht tx'); [by right|done]. }
  simpl. exists st2, s2. split_and!; [done..|].
  intros a Ha. destruct (Hout2 a) as [-> ->].
  { rewrite eq_None_not_Some, Hd1, <-eq_None_not_Some. done. }
  apply Hout1. intros Htch. destruct (Ht tx a) as [? ?]; [by left|done|congruence].
Qed.

(** C5. The two executions of a block agree: started from states that
    agree on the fetched accounts, the worker and the shard both finish,
    they agree on every fetched account afterwards, each transaction
    carries the success status of its kind, and the shard changed no other
    account. *)
Theorem block_execution_agrees txs st s :
  Forall known_type txs →
  (∀ tx a, tx ∈ txs → touches tx a → is_Some (addr2State st !! a)) →
  agrees (addr2State st) s →
  ∃ st' s', executeTransactions GetHash txs st =
      Ret (st', (λ tx, set_TXStatus (success_status tx) tx) <$> txs) ∧
    go_fold Shard.executeTransaction s txs = Ret s' ∧
    agrees (addr2State st') s' ∧
    ∀ a, addr2State st !! a = None → GetNonce s' a = GetNonce s a ∧ GetBalance s' a = GetBalance s a.
Proof. apply execution_agrees. Qed.
End agreement.

(** ** What a block does to the ledger *)

(** Nonces are [uint64] values. *)
Definition wf_accounts (m : gmap bytes StateAccount) : Prop :=
  ∀ a acct, m !! a = Some acct → in_u64 (aNonce acct).

(** The total balance of the accounts a worker holds. *)
Definition total (m : gmap bytes StateAccount) : Z := sumZ (λ p, Balance p.2) (map_to_list m).

(** What a transaction adds to the total. *)
Definition net (tx : Transaction) : Z :=
  if decide (TXtype tx = CrossTXType1) then - Value tx
  else if decide (TXtype tx = CrossTXType2 ∨ TXtype tx = RollbackTXType) then Value tx
  else 0.

(** [total] as a sum over any enumeration of the accounts. *)
Lemma total_dom m l :
  NoDup l → (∀ a, a ∈ l ↔ is_Some (m !! a)) →
  total m = sumZ (λ a, from_option Balance 0 (m !! a)) l.
Proof.
  intros Hl Hd. unfold total.
  assert (l ≡ₚ (map_to_list m).*1) as ->.
  { apply NoDup_Permutation; [done|apply NoDup_fst_map_to_list|].
    intros a. rewrite Hd, list_elem_of_fmap. split.
    - intros [x Hx]. exists (a, x). by rewrite elem_of_map_to_list.
    - intros ([a' x] & -> & Hx%elem_of_map_to_list). simpl. eauto. }
  assert (∀ k, k ⊆ map_to_list m →
    sumZ (λ p, Balance p.2) k = sumZ (λ a, from_option Balance 0 (m !! a)) k.*1) as Hk; [|by apply Hk].
  induction k as [|[a x] k IH]; simpl; intros Hsub; [done|].
  assert (m !! a = Some x) as -> by (apply elem_of_map_to_list, Hsub; by left).
  rewrite IH; [done|]. intros y Hy. apply Hsub. by right.
Qed.

Lemma delta_sum tx l :
  known_type tx → NoDup l → (∀ a, touches tx a → a ∈ l) → sumZ (delta tx) l = net tx.
Proof.
  intros Hk Hl Ht. unfold delta, net, touches in *. rewrite !sumZ_add.
  tx_cases Hk; rewrite ?sumZ_single by naive_solver; rewrite ?sumZ_const0; lia.
Qed.

Lemma sumZ_swap {A B} (f : A → B → Z) l k :
  sumZ (λ x, sumZ (f x) k) l = sumZ (λ y, sumZ (λ x, f x y) l) k.
Proof.
  induction l as [|x l IH]; simpl; [by rewrite sumZ_const0|]. by rewrite sumZ_add, IH.
Qed.

Section ledger.
Variable GetHash : bytes → bytes.
Implicit Types st : wstate.

Lemma executeTransaction_wf st tx st' tx' :
  wf_accounts (addr2State st) → executeTransaction GetHash st tx = Ret (st', tx') →
  wf_accounts (addr2State st').
Proof.
  intros Hwf. unfold executeTransaction.
  repeat split_guard; intros ?; go_inv; intros a acct; rewrite !lookup_insert in *;
    repeat (case_decide; simplify_eq/=); intros ?; simplify_eq/=; eauto with golib.
Qed.

Lemma executeTransactions_wf txs st st' txs' :
  wf_accounts (addr2State st) → executeTransactions GetHash txs st = Ret (st', txs') →
  wf_accounts (addr2State st').
Proof.
  revert st txs'. induction txs as [|tx txs IH]; intros st txs' Hwf; simpl; intros ?; go_inv; [done|].
  destruct x as [st1 tx1]; simpl in *. go_inv. destruct x as [st2 txs2]; go_inv.
  eauto using executeTransaction_wf.
Qed.

(** Two executions with the same net effect end in the same accounts. *)
Lemma executeTransactions_same_net txs txs' st st1 st2 k1 k2 :
  wf_accounts (addr2State st) → Forall known_type txs → Forall known_type txs' →
  (∀ tx a, tx ∈ txs ++ txs' → touches tx a → is_Some (addr2State st !! a)) →
  (∀ a, sumZ (λ tx, delta tx a) txs = sumZ (λ tx, delta tx a) txs') →
  (∀ a, sumZ (λ tx, ndelta tx a) txs = sumZ (λ tx, ndelta tx a) txs') →
  executeTransactions GetHash txs st = Ret (st1, k1) →
  executeTransactions GetHash txs' st = Ret (st2, k2) →
  addr2State st1 = addr2State st2.
Proof.
  intros Hwf Hk Hk' Ht Hd Hn He1 He2.
  pose proof (executeTransactions_wf _ _ _ _ Hwf He1) as Hwf1.
  pose proof (executeTransactions_wf _ _ _ _ Hwf He2) as Hwf2.
  destruct (executeTransactions_moves GetHash txs st) as (x1 & E1 & Hm1 & Hs1); [done|set_solver|].
  destruct (executeTransactions_moves GetHash txs' st) as (x2 & E2 & Hm2 & Hs2); [done|set_solver|].
  rewrite He1 in E1. rewrite He2 in E2. simplify_eq. apply map_eq. intros a.
  destruct (addr2State st !! a) as [acct|] eqn:Ha.
  - destruct (Hm1 a acct Ha) as (y1 & Hy1 & ? & N1 & ? & ?).
    destruct (Hm2 a acct Ha) as (y2 & Hy2 & ? & N2 & ? & ?).
    rewrite Hy1, Hy2. f_equal. rewrite Hd in *. rewrite Hn in N1. rewrite <-N2 in N1.
    rewrite !u64_small in N1 by eauto. destruct y1, y2; simpl in *; congruence.
  - assert (addr2State x1 !! a = None) as ->.
    { rewrite eq_None_not_Some, Hs1, <-eq_None_not_Some. done. }
    symmetry. rewrite eq_None_not_Some, Hs2, <-eq_None_not_Some. done.
Qed.

(** The order of a block's transactions does not matter: executing any
    permutation of it leaves the same accounts. *)
Theorem block_order_irrelevant txs txs' st st1 st2 k1 k2 :
  wf_accounts (addr2State st) → Forall known_type txs →
  (∀ tx a, tx ∈ txs → touches tx a → is_Some (addr2State st !! a)) →
  txs ≡ₚ txs' →
  executeTransactions GetHash txs st = Ret (st1, k1) →
  executeTransactions GetHash txs' st = Ret (st2, k2) →
  addr2State st1 = addr2State st2.
Proof.
  intros Hwf Hk Ht Hp. apply executeTransactions_same_net; [done|done| | | |].
  - by rewrite <-Hp.
  - intros tx a Hin. apply Ht. apply elem_of_app in Hin as [?|?]; [done|by rewrite Hp].
  - intros a. by rewrite Hp.
  - intros a. by rewrite Hp.
Qed.

(** A rollback undoes the first half it answers: after any block, the
    first half of a cross-shard transaction followed by its rollback leaves
    every balance and nonce as the block alone does. *)
Theorem rollback_undoes_cross1 txs tx st st1 st2 k1 k2 :
  wf_accounts (addr2State st) → Forall known_type txs → TXtype tx = CrossTXType1 →
  (∀ t a, t ∈ tx :: txs → touches t a → is_Some (addr2State st !! a)) →
  executeTransactions GetHash txs st = Ret (st1, k1) →
  executeTransactions GetHash (txs ++ [tx; set_TXtype RollbackTXType tx]) st = Ret (st2, k2) →
  addr2State st1 = addr2State st2.
Proof.
  intros Hwf Hk Htx Ht. apply executeTransactions_same_net; [done|done| | | |].
  - apply Forall_app; split; [done|]. unfold known_type. simpl. repeat constructor; naive_solver.
  - intros t a. rewrite !elem_of_app, elem_of_cons, list_elem_of_singleton.
    intros [?|[?|[->| ->]]]; try (apply Ht; set_solver).
    intros Htc. apply (Ht tx); [by left|]. unfold touches in *; simpl in *.
    rewrite Htx. unfold IntraTXType, CrossTXType1, CrossTXType2, RollbackTXType in *. naive_solver.
  - intros a. rewrite sumZ_app. simpl. unfold delta; simpl. rewrite Htx.
    unfold IntraTXType, CrossTXType1, CrossTXType2, RollbackTXType in *.
    repeat case_decide; naive_solver lia.
  - intros a. rewrite sumZ_app. simpl. unfold ndelta; simpl. rewrite Htx.
    unfold IntraTXType, CrossTXType1, CrossTXType2, RollbackTXType in *.
    repeat case_decide; naive_solver lia.
Qed.

(** C30. Conservation of value: a block changes the total balance of the
    accounts involved by exactly the values leaving with first halves and
    arriving with second halves and rollbacks; transactions inside the
    shard change nothing. *)
Theorem block_conserves_value txs st st' k :
  Forall known_type txs →
  (∀ tx a, tx ∈ txs → touches tx a → is_Some (addr2State st !! a)) →
  executeTransactions GetHash txs st = Ret (st', k) →
  total (addr2State st') = total (addr2State st) + sumZ net txs.
Proof.
  intros Hk Ht He.
  destruct (executeTransactions_moves GetHash txs st) as (x & E & Hm & Hs); [done..|].
  rewrite He in E. simplify_eq.
  set (l := (map_to_list (addr2State st)).*1).
  assert (NoDup l) as Hl by apply NoDup_fst_map_to_list.
  assert (∀ a, a ∈ l ↔ is_Some (addr2State st !! a)) as Hd.
  { intros a. unfold l. rewrite list_elem_of_fmap. split.
    - intros ([a' y] & -> & Hy%elem_of_map_to_list). simpl. eauto.
    - intros [y Hy]. exists (a, y). by rewrite elem_of_map_to_list. }
  rewrite (total_dom (addr2State x) l), (total_dom (addr2State st) l); [|done..|];
    [|intros a; by rewrite Hs].
  rewrite (sumZ_ext _ (λ a, from_option Balance 0 (addr2State st !! a) + sumZ (λ tx, delta tx a) txs)).
  - rewrite sumZ_add, sumZ_swap. f_equal. apply sumZ_ext. intros tx Hin.
    apply delta_sum; [|done|]; [by eapply Forall_forall|].
    intros a Hta. apply Hd. by apply (Ht tx).
  - intros a [acct Ha]%Hd. destruct (Hm a acct Ha) as (y & -> & Hb & _). by rewrite Ha.
Qed.

(** What one execution that came back has read. *)
Lemma executeTransaction_needs st tx st' tx' :
  executeTransaction GetHash st tx = Ret (st', tx') →
  known_type tx ∧ (∀ a, touches tx a → is_Some (addr2State st !! a)) ∧
  ∀ a, is_Some (addr2State st' !! a) → is_Some (addr2State st !! a).
Proof.
  unfold executeTransaction, known_type, touches. intros He.
  repeat split_guard; go_inv; simpl in *; (split; [naive_solver|]);
    unfold IntraTXType, CrossTXType1, CrossTXType2, RollbackTXType in *;
    repeat match goal with E : _ !! _ = Some _ |- _ =>
      apply mk_is_Some in E; rewrite ?lookup_insert_is_Some' in E end;
    split; intros b; rewrite ?lookup_insert_is_Some'; intros Hb;
    destruct_or?; destruct_and?; subst; destruct_or?; simplify_eq; congruence.
Qed.

(** The worker's execution comes back exactly when every transaction
    of the block has a known kind and every account it touches was
    fetched; otherwise the process ends. *)
Theorem executeTransactions_returns_iff txs st :
  returns (executeTransactions GetHash txs st) ↔
  Forall known_type txs ∧ ∀ tx a, tx ∈ txs → touches tx a → is_Some (addr2State st !! a).
Proof.
  split; [|intros [??]; edestruct executeTransactions_moves as (? & -> & _); eauto with golib].
  revert st. induction txs as [|tx txs IH]; intros st [[st' k] He]; simpl in He; go_inv.
  { split; [constructor|]. by intros ? ? ?%elem_of_nil. }
  destruct x as [st1 tx1]; go_inv. destruct x as [st2 txs2]; go_inv.
  destruct (IH st1) as [HF Hin]; [by eexists|].
  destruct (executeTransaction_needs st tx st1 tx1) as (? & Ha & Hb); [done|].
  split; [by constructor|]. intros t a [->|?]%elem_of_cons Hta; [by apply Ha|].
  apply Hb. by apply (Hin t).
Qed.
End ledger.

(** ** Witnesses: a state database over a finite map, and a block with a
    transaction of each kind. *)
#[global] Instance map_StateDB : StateDB (gmap bytes (Z * Z)) := {
  GetNonce s a := (default (0, 0) (s !! a)).1;
  GetBalance s a := (default (0, 0) (s !! a)).2;
  SetNonce s a n := <[a := (n, (default (0, 0) (s !! a)).2)]> s;
  AddBalance s a v := <[a := ((default (0, 0) (s !! a)).1, (default (0, 0) (s !! a)).2 + v)]> s;
  SubBalance s a v := <[a := ((default (0, 0) (s !! a)).1, (default (0, 0) (s !! a)).2 - v)]> s
}.
#[global] Instance map_StateDBLaws : StateDBLaws (gmap bytes (Z * Z)).
Proof.
  split; intros s a v b; simpl; rewrite lookup_insert;
    destruct (decide (a = b)) as [->|]; rewrite ?decide_True, ?decide_False by done;
    simpl; try done; lia.
Qed.

Definition demo_acct (n b : Z) : StateAccount := mkStateAccount n b [] [].
Definition demo_block : list Transaction :=
  [demo_tx 1 1 [1] [2] 0 0; demo_tx 2 2 [1] [9] 0 0; demo_tx 3 3 [8] [2] 0 0; demo_tx 4 4 [3] [9] 0 0].
Definition demo_wstate : wstate :=
  mkWstate (<[[1] := demo_acct 4 100]> (<[[2] := demo_acct 0 5]> {[ [3] := demo_acct 1 0 ]})) ∅.
Definition demo_db : gmap bytes (Z * Z) :=
  <[[1] := (4, 100)]> (<[[2] := (0, 5)]> {[ [3] := (1, 0) ]}).

(** The hypothesis that the fetched accounts cover a block, as a test. *)
Definition covers (txs : list Transaction) (m : gmap bytes StateAccount) : bool :=
  forallb (λ tx, bool_decide (is_Some (m !! Sender tx)) && bool_decide (is_Some (m !! Recipient tx))) txs.

Lemma covers_touches txs m :
  covers txs m = true → ∀ tx a, tx ∈ txs → touches tx a → is_Some (m !! a).
Proof.
  unfold covers, touches. rewrite forallb_forall. intros Hc tx a Hin Ht.
  rewrite list_elem_of_In in Hin. apply Hc, andb_true_iff in Hin as [Hs Hr].
  apply bool_decide_eq_true in Hs, Hr. destruct Ht as [[_ ->]|[_ ->]]; done.
Qed.

Definition demo_full : wstate :=
  mkWstate (<[[8] := demo_acct 0 0]> (<[[9] := demo_acct 0 0]> (addr2State demo_wstate))) ∅.

Lemma demo_full_wf : wf_accounts (addr2State demo_full).
Proof.
  change (map_Forall (λ _ acct, in_u64 (aNonce acct)) (addr2State demo_full)).
  apply map_Forall_to_list. unfold in_u64. repeat constructor; simpl; lia.
Qed.

Lemma demo_agrees : agrees (addr2State demo_full) demo_db.
Proof.
  change (map_Forall (λ a acct, aNonce acct = GetNonce demo_db a ∧
    Balance acct = GetBalance demo_db a) (addr2State demo_full)).
  apply map_Forall_to_list. repeat constructor.
Qed.

Lemma block_execution_agrees_witness :
  ∃ st' s', executeTransactions id demo_block demo_full =
      Ret (st', (λ tx, set_TXStatus (success_status tx) tx) <$> demo_block) ∧
    go_fold Shard.executeTransaction demo_db demo_block = Ret s' ∧
    agrees (addr2State st') s' ∧
    ∀ a, addr2State demo_full !! a = None →
      GetNonce s' a = GetNonce demo_db a ∧ GetBalance s' a = GetBalance demo_db a.
Proof.
  apply (block_execution_agrees id demo_block demo_full demo_db).
  - by_compute.
  - apply covers_touches. reflexivity.
  - apply demo_agrees.
Defined.

Lemma block_order_irrelevant_witness :
  ∃ st1 st2 k1 k2, executeTransactions id demo_block demo_full = Ret (st1, k1) ∧
    executeTransactions id (rev demo_block) demo_full = Ret (st2, k2) ∧
    addr2State st1 = addr2State st2.
Proof.
  eexists _, _, _, _. split; [vm_compute; reflexivity|]. split; [vm_compute; reflexivity|].
  eapply (block_order_irrelevant id demo_block (rev demo_block) demo_full).
  - apply demo_full_wf.
  - by_compute.
  - apply covers_touches. reflexivity.
  - apply Permutation_rev.
  - vm_compute; reflexivity.
  - vm_compute; reflexivity.
Defined.

Lemma rollback_undoes_cross1_witness :
  ∃ st1 st2 k1 k2, executeTransactions id demo_block demo_full = Ret (st1, k1) ∧
    executeTransactions id (demo_block ++ [demo_tx 2 5 [1] [9] 0 0;
      set_TXtype RollbackTXType (demo_tx 2 5 [1] [9] 0 0)]) demo_full = Ret (st2, k2) ∧
    addr2State st1 = addr2State st2.
Proof.
  eexists _, _, _, _. split; [vm_compute; reflexivity|]. split; [vm_compute; reflexivity|].
  eapply (rollback_undoes_cross1 id demo_block (demo_tx 2 5 [1] [9] 0 0) demo_full).
  - apply demo_full_wf.
  - by_compute.
  - reflexivity.
  - apply covers_touches. reflexivity.
  - vm_compute; reflexivity.
  - vm_compute; reflexivity.
Defined.

Lemma block_conserves_value_witness :
  ∃ st' k, executeTransactions id demo_block demo_full = Ret (st', k) ∧
    total (addr2State st') = total (addr2State demo_full) + sumZ net demo_block.
Proof.
  eexists _, _. split; [vm_compute; reflexivity|].
  eapply (block_conserves_value id demo_block demo_full).
  - by_compute.
  - apply covers_touches. reflexivity.
  - vm_compute; reflexivity.
Defined.
