(* ===== verification/Pbft.v ===== *)
(** * Consensus inside a committee (src/pbft/pbft.go, messageHandle.go,
    toolFuncs.go, pbftInsideMod_raw.go; [RunPbft] of src/node/node.go).

    One three-phase round per block: the main node proposes, the others
    prepare, commit and reply; the main node ends the round when enough of
    them have replied.  The stage lock makes each handler one step; the
    sequence lock is held from [Propose] to the last reply and is part of the
    state.  Votes are counted in maps keyed by the address at which the
    network layer decoded the sender, so a vote is a pair of that address and
    the [NodeInfo] found there; the address is an argument of the handlers.
    The extra-handling module of the source only has the raw implementation,
    whose methods all return [true].

    Two relations follow the handlers.  [step] is the life of a committee
    between two reconfigurations; votes and quorums are stated over it.
    [era_step] goes on over reconfigurations: it adds [Reset], which
    src/node/reconfig.go calls on the new main node only, members with the
    state they bring along, packets of earlier rounds that are still on their
    way, and the exit branch of [RunPbft]; the sequence lock is treated over
    it. *)
From S2P Require Import Prelude Core.
Local Open Scope Z_scope.

Record PbftRequest := mkPbftRequest { MsgType : string; Msg : bytes; ReqTime : Z }.
#[global] Instance PbftRequest_eq_dec : EqDecision PbftRequest.
Proof. solve_decision. Defined.

Record PrePrepare := mkPrePrepare { ppRequest : PbftRequest; ppDigest : bytes; ppSeqID : Z }.
Record Prepare := mkPrepare { pDigest : bytes; pSeqID : Z; pSender : NodeInfo }.
Record Commit := mkCommit { cDigest : bytes; cSeqID : Z; cSender : NodeInfo }.
Record Reply := mkReply { MessageID : Z; rpSender : NodeInfo; rpResult : bool }.
Record RequestOldMessage := mkRequestOld {
  roStart : Z; roEnd : Z; roServer : NodeInfo; roSender : NodeInfo }.
Record SendOldMessage := mkSendOld {
  soStart : Z; soEnd : Z; OldRequest : list PbftRequest; soReceiver : NodeInfo }.

(** What a handler hands to the message hub. *)
Inductive pbft_msg :=
  | MPrePrepare (m : PrePrepare)
  | MPrepare (m : Prepare)
  | MCommit (m : Commit)
  | MReply (m : Reply)
  | MSendOld (m : SendOldMessage).

(** Votes for a digest: addresses of decoded senders. *)
Abbreviation votes := (gmap bytes (gmap Z NodeInfo)).

Record PbftConsensusNode := mkPbft {
  pNodeInfo : NodeInfo;
  node_nums : Z;
  malicious_nums : Z;
  view : Z;
  sequenceID : Z;
  requestPool : gmap bytes PbftRequest;
  cntPrepareConfirm : votes;
  cntCommitConfirm : votes;
  isCommitBordcast : gmap bytes bool;
  isReply : gmap bytes bool;
  replyCnt : Z;
  gotEnoughReply : gmap Z bool;
  height2Digest : gmap Z bytes;
  sequenceLocked : bool;
  askForLocked : bool;
  OneConsensusDone : Z
}.

Definition NewPbftNode (nodeInfo : NodeInfo) (shardSize : Z) : PbftConsensusNode :=
  mkPbft nodeInfo shardSize (u32 (shardSize - 1) / 3) 0 0 ∅ ∅ ∅ ∅ ∅ 0 ∅ ∅ false false 0.

Definition Reset (p : PbftConsensusNode) : PbftConsensusNode :=
  mkPbft (pNodeInfo p) (node_nums p) (malicious_nums p) (view p) (sequenceID p) ∅ ∅ ∅ ∅ ∅ 0 ∅ ∅
    (sequenceLocked p) (askForLocked p) (OneConsensusDone p).

(** Assignments. *)
Definition set_seq (v : Z) (p : PbftConsensusNode) : PbftConsensusNode :=
  mkPbft (pNodeInfo p) (node_nums p) (malicious_nums p) (view p) v (requestPool p)
    (cntPrepareConfirm p) (cntCommitConfirm p) (isCommitBordcast p) (isReply p) (replyCnt p)
    (gotEnoughReply p) (height2Digest p) (sequenceLocked p) (askForLocked p) (OneConsensusDone p).
Definition set_pools (rp : gmap bytes PbftRequest) (hd : gmap Z bytes) (p : PbftConsensusNode) :
    PbftConsensusNode :=
  mkPbft (pNodeInfo p) (node_nums p) (malicious_nums p) (view p) (sequenceID p) rp
    (cntPrepareConfirm p) (cntCommitConfirm p) (isCommitBordcast p) (isReply p) (replyCnt p)
    (gotEnoughReply p) hd (sequenceLocked p) (askForLocked p) (OneConsensusDone p).
Definition set_votes (pv cv : votes) (cb rp : gmap bytes bool) (p : PbftConsensusNode) :
    PbftConsensusNode :=
  mkPbft (pNodeInfo p) (node_nums p) (malicious_nums p) (view p) (sequenceID p) (requestPool p)
    pv cv cb rp (replyCnt p)
    (gotEnoughReply p) (height2Digest p) (sequenceLocked p) (askForLocked p) (OneConsensusDone p).
Definition set_round (cnt : Z) (ge : gmap Z bool) (sl : bool) (dn : Z) (p : PbftConsensusNode) :
    PbftConsensusNode :=
  mkPbft (pNodeInfo p) (node_nums p) (malicious_nums p) (view p) (sequenceID p) (requestPool p)
    (cntPrepareConfirm p) (cntCommitConfirm p) (isCommitBordcast p) (isReply p) cnt
    ge (height2Digest p) sl (askForLocked p) dn.
Definition set_askFor (v : bool) (p : PbftConsensusNode) : PbftConsensusNode :=
  mkPbft (pNodeInfo p) (node_nums p) (malicious_nums p) (view p) (sequenceID p) (requestPool p)
    (cntPrepareConfirm p) (cntCommitConfirm p) (isCommitBordcast p) (isReply p) (replyCnt p)
    (gotEnoughReply p) (height2Digest p) (sequenceLocked p) v (OneConsensusDone p).

Definition isMain (p : PbftConsensusNode) : bool := bool_decide (nNodeID (pNodeInfo p) = view p).

(** [m[k]] of a map to bool. *)
Definition flag (m : gmap bytes bool) (d : bytes) : bool := default false (m !! d).

(** [set2DMap] on one of the two vote maps. *)
Definition set2DMap (m : votes) (key : bytes) (ptr : Z) (val : NodeInfo) : votes :=
  <[key := <[ptr := val]> (default ∅ (m !! key))]> m.
Definition cnt (m : votes) (key : bytes) : Z := Z.of_nat (size (default ∅ (m !! key))).

(** [SetSequenceID]: takes and releases the sequence lock. *)
Definition SetSequenceID (id : Z) (p : PbftConsensusNode) : go PbftConsensusNode :=
  if sequenceLocked p then Halt (Blocked "sequenceLock") else Ret (set_seq id p).

Section pbft.
(** [getDigest]: the hash of the gob encoding of a request. *)
Variable getDigest : PbftRequest → bytes.

(** [Propose]; [rlp_block] is the encoded block, [now] the clock. *)
Definition Propose (rlp_block : bytes) (now : Z) (p : PbftConsensusNode) :
    go (PbftConsensusNode * list pbft_msg) :=
  if negb (bool_decide (view p = nNodeID (pNodeInfo p))) then Ret (p, [])
  else if sequenceLocked p then Halt (Blocked "sequenceLock")
  else
    let p := set_round (replyCnt p) (gotEnoughReply p) true (OneConsensusDone p) p in
    let r := mkPbftRequest "*block" rlp_block now in
    let digest := getDigest r in
    let p := set_pools (<[digest := r]> (requestPool p))
               (<[sequenceID p := digest]> (height2Digest p)) p in
    Ret (p, [MPrePrepare (mkPrePrepare r digest (sequenceID p))]).

(** [HandlePrePrepare]; the sequence id is taken over first, so the middle
    branch of the source ([p.sequenceID < ppmsg.SeqID]) cannot be reached,
    and is kept all the same. *)
Definition HandlePrePrepare (ppmsg : PrePrepare) (p : PbftConsensusNode) :
    PbftConsensusNode * list pbft_msg :=
  let p := set_seq (ppSeqID ppmsg) p in
  let digest := getDigest (ppRequest ppmsg) in
  let stored := set_pools (<[digest := ppRequest ppmsg]> (requestPool p))
                  (<[ppSeqID ppmsg := digest]> (height2Digest p)) p in
  if negb (bool_decide (digest = ppDigest ppmsg)) then (p, [])
  else if bool_decide (sequenceID p < ppSeqID ppmsg) then (stored, [])
  else (stored, [MPrepare (mkPrepare (ppDigest ppmsg) (ppSeqID ppmsg) (pNodeInfo p))]).

Definition HandlePrepare (ptr : Z) (pmsg : Prepare) (p : PbftConsensusNode) :
    PbftConsensusNode * list pbft_msg :=
  let d := pDigest pmsg in
  match requestPool p !! d with
  | None => (p, [])
  | Some _ =>
      if bool_decide (sequenceID p < pSeqID pmsg) then (p, [])
      else
        let p := set_votes (set2DMap (cntPrepareConfirm p) d ptr (pSender pmsg))
                   (cntCommitConfirm p) (isCommitBordcast p) (isReply p) p in
        let specifiedcnt := u32 (2 * malicious_nums p) in
        let specifiedcnt := if isMain p then specifiedcnt else specifiedcnt - 1 in
        if bool_decide (cnt (cntPrepareConfirm p) d >= specifiedcnt) &&
           negb (flag (isCommitBordcast p) d)
        then (set_votes (cntPrepareConfirm p) (cntCommitConfirm p)
                (<[d := true]> (isCommitBordcast p)) (isReply p) p,
              [MCommit (mkCommit d (pSeqID pmsg) (pNodeInfo p))])
        else (p, [])
  end.

(** [reply] *)
Definition reply (seqID : Z) (digest : bytes) (p : PbftConsensusNode) :
    PbftConsensusNode * list pbft_msg :=
  (set_votes (cntPrepareConfirm p) (cntCommitConfirm p) (isCommitBordcast p)
     (<[digest := true]> (isReply p)) p,
   if isMain p then [] else [MReply (mkReply seqID (pNodeInfo p) true)]).

Definition HandleCommit (ptr : Z) (cmsg : Commit) (p : PbftConsensusNode) :
    PbftConsensusNode * list pbft_msg :=
  let d := cDigest cmsg in
  let p := set_votes (cntPrepareConfirm p) (set2DMap (cntCommitConfirm p) d ptr (cSender cmsg))
             (isCommitBordcast p) (isReply p) p in
  let required_cnt := u32 (2 * malicious_nums p) in
  if bool_decide (cnt (cntCommitConfirm p) d >= required_cnt) && negb (flag (isReply p) d) then
    let '(p, out) := reply (cSeqID cmsg) d p in
    (if isMain p then p else set_seq (u64 (sequenceID p + 1)) p, out)
  else (p, []).

(** [HandleReply]: the unlock of a free mutex is fatal, and a second token on
    the channel would block. *)
Definition HandleReply (rmsg : Reply) (p : PbftConsensusNode) : go PbftConsensusNode :=
  if negb (isMain p) then Ret p
  else match gotEnoughReply p !! MessageID rmsg with
       | Some _ => Ret p
       | None =>
           let n := replyCnt p + 1 in
           if bool_decide (n >= u32 (2 * malicious_nums p)) then
             if bool_decide (OneConsensusDone p >= 1) then Halt (Blocked "OneConsensusDone")
             else if negb (sequenceLocked p) then Halt (GoPanic "sync: unlock of unlocked mutex")
             else Ret (set_round 0 (<[MessageID rmsg := true]> (gotEnoughReply p)) false
                         (OneConsensusDone p + 1) (set_seq (u64 (sequenceID p + 1)) p))
           else Ret (set_round n (gotEnoughReply p) (sequenceLocked p) (OneConsensusDone p) p)
       end.

(** The loop of [HandleRequestOldSeq]; [n] is the number of heights in the
    requested range. *)
Fixpoint old_requests (n : nat) (height : Z) (p : PbftConsensusNode) : list PbftRequest :=
  match n with
  | O => []
  | S n =>
      match height2Digest p !! height with
      | None => []
      | Some d => match requestPool p !! d with
                  | None => []
                  | Some r => r :: old_requests n (height + 1) p
                  end
      end
  end.

Definition HandleRequestOldSeq (rom : RequestOldMessage) (p : PbftConsensusNode) : list pbft_msg :=
  if negb (bool_decide (view p = nNodeID (pNodeInfo p))) then []
  else
    let oldR := old_requests (Z.to_nat (roEnd rom - roStart rom + 1)) (roStart rom) p in
    [MSendOld (mkSendOld (roStart rom) (roEnd rom) oldR (roSender rom))].

(** The loop of [HandleSendOldSeq]. *)
Fixpoint take_over (seq : Z) (rs : list PbftRequest) (p : PbftConsensusNode) :
    PbftConsensusNode * list pbft_msg :=
  match rs with
  | [] => (p, [])
  | r :: rs =>
      let d := getDigest r in
      let p := set_pools (<[d := r]> (requestPool p)) (<[seq := d]> (height2Digest p)) p in
      let '(p, out) := reply seq d p in
      let '(p, out') := take_over (u64 (seq + 1)) rs p in
      (p, out ++ out')
  end.

Definition HandleSendOldSeq (som : SendOldMessage) (p : PbftConsensusNode) :
    go (PbftConsensusNode * list pbft_msg) :=
  let '(p, out) := take_over (soStart som) (OldRequest som) p in
  let p := set_seq (u64 (soEnd som + 1)) p in
  let more :=
    match height2Digest p !! sequenceID p with
    | None => []
    | Some d => match requestPool p !! d with
                | None => []
                | Some r => [MPrepare (mkPrepare (getDigest r) (sequenceID p) (pNodeInfo p))]
                end
    end in
  if askForLocked p then Ret (set_askFor false p, out ++ more)
  else Halt (GoPanic "sync: unlock of unlocked mutex").

(** [RunPbft] up to its [select].  The two branches of the [select] are steps
    of the relations below: taking the token ([step_done], [era_done]) and
    returning on the exit signal ([era_exit]). *)
Definition RunPbft (number : Z) (rlp_block : bytes) (now : Z) (p : PbftConsensusNode) :
    go (PbftConsensusNode * list pbft_msg) :=
  p ← SetSequenceID number p; Propose rlp_block now p.
End pbft.

(** ** A committee

    The nodes, the packets in flight and the next decoding address.  Requests
    for old messages are never sent by the program (the code that would send
    one is commented out), so those handlers take no part here. *)
Abbreviation packet := (Z * pbft_msg)%type.

Record system := mkSystem {
  nodes : Z → PbftConsensusNode;
  net : list packet;
  fresh_ptr : Z
}.

Definition upd_node (f : Z → PbftConsensusNode) (i : Z) (p : PbftConsensusNode) :
    Z → PbftConsensusNode := λ k, if decide (k = i) then p else f k.

(** [sendPbftMsg]: replies go to the main node, the other kinds to every
    other member of the committee. *)
Definition sendPbftMsg (n self : Z) (m : pbft_msg) : list packet :=
  match m with
  | MReply _ => if bool_decide (self = 0) then [] else [(0, m)]
  | MSendOld s => [(nNodeID (soReceiver s), m)]
  | _ => (λ i, (i, m)) <$> filter (λ i, i ≠ self) (Z.of_nat <$> seq 0 (Z.to_nat n))
  end.
Definition send_all (n self : Z) (out : list pbft_msg) : list packet := out ≫= sendPbftMsg n self.
Arguments send_all : simpl never.

Section committee.
Variable getDigest : PbftRequest → bytes.
(** [N] nodes. *)
Variable N : Z.

Definition deliver (ptr : Z) (m : pbft_msg) (p : PbftConsensusNode) :
    go (PbftConsensusNode * list pbft_msg) :=
  match m with
  | MPrePrepare m => Ret (HandlePrePrepare getDigest m p)
  | MPrepare m => Ret (HandlePrepare ptr m p)
  | MCommit m => Ret (HandleCommit ptr m p)
  | MReply m => p' ← HandleReply m p; Ret (p', [])
  | MSendOld m => HandleSendOldSeq getDigest m p
  end.

(** Interleavings: the main node starts a round ([RunPbft] is called in
    sequence, so not before it has taken the token of the last one) or takes
    the token of a finished round; any packet is delivered or lost.  This is
    one life of a committee, from the construction of its nodes to a
    reconfiguration: [Reset] is a step of [era_step] below. *)
Inductive step : system → system → Prop :=
  | step_run s number blk now p' out :
      OneConsensusDone (nodes s 0) = 0 →
      RunPbft getDigest number blk now (nodes s 0) = Ret (p', out) →
      step s (mkSystem (upd_node (nodes s) 0 p') (net s ++ send_all N 0 out) (fresh_ptr s))
  | step_done s :
      OneConsensusDone (nodes s 0) >= 1 →
      step s (mkSystem (upd_node (nodes s) 0
        (set_round (replyCnt (nodes s 0)) (gotEnoughReply (nodes s 0)) (sequenceLocked (nodes s 0))
           (OneConsensusDone (nodes s 0) - 1) (nodes s 0))) (net s) (fresh_ptr s))
  | step_deliver s l1 i m l2 p' out :
      net s = l1 ++ (i, m) :: l2 → deliver (fresh_ptr s) m (nodes s i) = Ret (p', out) →
      step s (mkSystem (upd_node (nodes s) i p') ((l1 ++ l2) ++ send_all N i out) (fresh_ptr s + 1))
  | step_lose s l1 pk l2 :
      net s = l1 ++ pk :: l2 → step s (mkSystem (nodes s) (l1 ++ l2) (fresh_ptr s)).

Definition initial (info : Z → NodeInfo) : system :=
  mkSystem (λ i, NewPbftNode (info i) N) [] 0.

Inductive reachable (info : Z → NodeInfo) : system → Prop :=
  | reach_init : reachable info (initial info)
  | reach_step s s' : reachable info s → step s s' → reachable info s'.

(** ** The invariant *)
Definition commits (l : list packet) : list (Z * Commit) :=
  omap (λ pk : packet, match pk.2 with MCommit m => Some (pk.1, m) | _ => None end) l.
Definition commit_key (im : Z * Commit) : Z * Z * bytes :=
  (im.1, nNodeID (cSender im.2), cDigest im.2).
Definition vote (p : PbftConsensusNode) (d : bytes) (ptr : Z) : option NodeInfo :=
  default ∅ (cntCommitConfirm p !! d) !! ptr.
Definition committed (s : system) (j : Z) (d : bytes) : Prop :=
  flag (isCommitBordcast (nodes s j)) d = true.

(** The messages of a round. *)
Definition ordinary (m : pbft_msg) : Prop := match m with MSendOld _ => False | _ => True end.

(** The sender of a commit for [d] addressed to [i]. *)
Definition good_sender (s : system) (i j : Z) (d : bytes) : Prop :=
  0 ≤ j < N ∧ j ≠ i ∧ committed s j d.

Record inv (s : system) : Prop := {
  inv_id : ∀ i, nNodeID (pNodeInfo (nodes s i)) = i ∧ malicious_nums (nodes s i) = u32 (N - 1) / 3;
  inv_pool : ∀ i d r, requestPool (nodes s i) !! d = Some r → getDigest r = d;
  inv_commit : ∀ i d, committed s i d → is_Some (requestPool (nodes s i) !! d);
  inv_dst : ∀ i m, (i, m) ∈ net s → 0 ≤ i < N ∧ ordinary m;
  inv_net : ∀ i m, (i, m) ∈ commits (net s) →
    good_sender s i (nNodeID (cSender m)) (cDigest m) ∧
    ∀ ptr info, vote (nodes s i) (cDigest m) ptr = Some info → nNodeID info ≠ nNodeID (cSender m);
  inv_uniq : NoDup (commit_key <$> commits (net s));
  inv_vote : ∀ i d ptr info, vote (nodes s i) d ptr = Some info →
    good_sender s i (nNodeID info) d ∧ ptr < fresh_ptr s ∧
    ∀ ptr' info', vote (nodes s i) d ptr' = Some info' → nNodeID info' = nNodeID info → ptr' = ptr;
  inv_reply : ∀ i d, flag (isReply (nodes s i)) d = true →
    u32 (2 * malicious_nums (nodes s i)) ≤ cnt (cntCommitConfirm (nodes s i)) d
}.

(** What a step may do to the acting node, as far as commits go. *)
Record quiet (p p' : PbftConsensusNode) : Prop := {
  q_info : pNodeInfo p' = pNodeInfo p;
  q_f : malicious_nums p' = malicious_nums p;
  q_pool : ∀ d, is_Some (requestPool p !! d) → is_Some (requestPool p' !! d);
  q_digest : (∀ d r, requestPool p !! d = Some r → getDigest r = d) →
             ∀ d r, requestPool p' !! d = Some r → getDigest r = d
}.

Lemma commits_app l k : commits (l ++ k) = commits l ++ commits k.
Proof. apply omap_app. Qed.

Lemma elem_of_commits i m l : (i, m) ∈ commits l ↔ (i, MCommit m) ∈ l.
Proof.
  unfold commits. rewrite list_elem_of_omap. split.
  - intros ([i' m'] & Hin & Heq). simpl in Heq. destruct m'; by simplify_eq.
  - intros Hin. by exists (i, MCommit m).
Qed.

Lemma sendPbftMsg_elem n i j m m' :
  0 ≤ i < n → ordinary m' → (j, m) ∈ sendPbftMsg n i m' → m = m' ∧ 0 ≤ j < n.
Proof.
  intros Hi Ho Hin. unfold sendPbftMsg in Hin. destruct m'; try done.
  4: { case_bool_decide; [by apply elem_of_nil in Hin|].
       apply list_elem_of_singleton in Hin as [= -> ->]. split; [done|lia]. }
  all: apply list_elem_of_fmap in Hin as (k & [= -> ->] & Hin);
    apply list_elem_of_filter in Hin as [? Hin];
    apply list_elem_of_fmap in Hin as (k' & -> & Hin); apply elem_of_seq in Hin; split; [done|lia].
Qed.

Lemma send_all_elem n i j m out :
  0 ≤ i < n → Forall ordinary out → (j, m) ∈ send_all n i out → 0 ≤ j < n ∧ m ∈ out.
Proof.
  intros Hi Hord (m' & Hin & Hm)%list_elem_of_bind. rewrite Forall_forall in Hord.
  apply sendPbftMsg_elem in Hin as [-> ?]; auto.
Qed.

(** Packets of a commit that has just been broadcast. *)
Lemma commits_broadcast i c :
  commits (send_all N i [MCommit c]) =
    (λ j, (j, c)) <$> filter (λ j, j ≠ i) (Z.of_nat <$> seq 0 (Z.to_nat N)).
Proof.
  unfold send_all, commits. simpl. rewrite app_nil_r.
  generalize (filter (λ j, j ≠ i) (Z.of_nat <$> seq 0 (Z.to_nat N))) as l.
  induction l as [|j l IH]; [done|]. rewrite !fmap_cons. simpl. by f_equal.
Qed.

Definition no_commit (m : pbft_msg) : Prop := match m with MCommit _ => False | _ => True end.

Lemma commits_none i out :
  0 ≤ i < N → Forall ordinary out → Forall no_commit out → commits (send_all N i out) = [].
Proof.
  intros Hi Ho HF. destruct (commits (send_all N i out)) as [|[j c] l] eqn:E; [done|].
  assert ((j, c) ∈ commits (send_all N i out)) as Hin%elem_of_commits by (rewrite E; by left).
  apply send_all_elem in Hin as [_ Hin]; [|done..]. rewrite Forall_forall in HF. by apply HF in Hin.
Qed.

(** ** What the handlers do *)
Lemma RunPbft_quiet number blk now p p' out :
  RunPbft getDigest number blk now p = Ret (p', out) →
  quiet p p' ∧ cntCommitConfirm p' = cntCommitConfirm p ∧ isCommitBordcast p' = isCommitBordcast p ∧
  isReply p' = isReply p ∧ Forall ordinary out ∧
  Forall no_commit out.
Proof.
  unfold RunPbft, SetSequenceID, Propose. intros H. destruct (sequenceLocked p) eqn:E; [done|]. simpl in H. rewrite E in H.
  case_bool_decide as Hv; simplify_eq/=; (split; [|split_and!; try done; repeat constructor]); split; simpl; try done.
  - intros d. rewrite lookup_insert_is_Some'. auto.
  - intros Hd d r. rewrite lookup_insert. case_decide; [naive_solver|apply Hd].
Qed.

Lemma HandlePrePrepare_quiet m p :
  let '(p', out) := HandlePrePrepare getDigest m p in
  quiet p p' ∧ cntCommitConfirm p' = cntCommitConfirm p ∧ isCommitBordcast p' = isCommitBordcast p ∧
  isReply p' = isReply p ∧ Forall ordinary out ∧
  Forall no_commit out.
Proof.
  unfold HandlePrePrepare. repeat case_bool_decide; simpl;
    (split; [|split_and!; try done; repeat constructor]); split; simpl; try done.
  all: try (intros d; rewrite lookup_insert_is_Some'; auto).
  all: intros Hd d r; rewrite lookup_insert; case_decide; [naive_solver|apply Hd].
Qed.

Lemma HandleReply_quiet m p p' :
  HandleReply m p = Ret p' →
  quiet p p' ∧ cntCommitConfirm p' = cntCommitConfirm p ∧ isCommitBordcast p' = isCommitBordcast p ∧
  isReply p' = isReply p.
Proof.
  unfold HandleReply. intros H. repeat (split_guard || case_match); simplify_eq/=;
    (split; [split; try done; eauto|done]).
Qed.

Lemma HandlePrepare_effect ptr m p :
  let '(p', out) := HandlePrepare ptr m p in
  quiet p p' ∧ cntCommitConfirm p' = cntCommitConfirm p ∧ isReply p' = isReply p ∧
  requestPool p' = requestPool p ∧
  ((out = [] ∧ isCommitBordcast p' = isCommitBordcast p) ∨
   (out = [MCommit (mkCommit (pDigest m) (pSeqID m) (pNodeInfo p))] ∧
    flag (isCommitBordcast p) (pDigest m) = false ∧ is_Some (requestPool p !! pDigest m) ∧
    isCommitBordcast p' = <[pDigest m := true]> (isCommitBordcast p))).
Proof.
  unfold HandlePrepare. destruct (requestPool p !! pDigest m) eqn:E; [|split_and!; first [done|by left|split; done]].
  repeat split_guard; simpl; (split_and!; [split; done|done..|]); try by left.
  all: right; match goal with H : _ && _ = true |- _ => apply andb_true_iff in H as [_ H]; apply negb_true_iff in H end;
    split_and!; done || by eexists.
Qed.

Lemma HandleCommit_effect ptr m p :
  let '(p', out) := HandleCommit ptr m p in
  quiet p p' ∧ cntCommitConfirm p' = set2DMap (cntCommitConfirm p) (cDigest m) ptr (cSender m) ∧
  isCommitBordcast p' = isCommitBordcast p ∧ requestPool p' = requestPool p ∧
  Forall ordinary out ∧ Forall no_commit out ∧
  (isReply p' = isReply p ∨
   (isReply p' = <[cDigest m := true]> (isReply p) ∧
    u32 (2 * malicious_nums p) ≤ cnt (cntCommitConfirm p') (cDigest m))).
Proof.
  unfold HandleCommit, reply. cbn [cntCommitConfirm malicious_nums isReply set_votes].
  destruct (bool_decide _ && _) eqn:E; [|split_and!; first [done|by left|split; done]].
  apply andb_true_iff in E as [E%bool_decide_eq_true _].
  destruct (isMain _); simpl; split_and!;
    first [done|by split|by repeat constructor|right; split; [done|]; simpl in E |- *; lia].
Qed.

(** A vote map after one more vote. *)
Lemma vote_insert p p' d ptr info d' ptr' :
  cntCommitConfirm p' = set2DMap (cntCommitConfirm p) d ptr info →
  vote p' d' ptr' = if decide (d' = d ∧ ptr' = ptr) then Some info else vote p d' ptr'.
Proof.
  intros Hp. unfold vote. rewrite Hp. unfold set2DMap. rewrite lookup_insert.
  destruct (decide (d = d')) as [->|Hd]; simpl.
  - rewrite lookup_insert. destruct (decide (ptr = ptr')) as [->|]; case_decide; naive_solver.
  - case_decide; naive_solver.
Qed.

(** ** Preservation

    A node step that broadcasts no commit and takes no commit vote. *)
Lemma inv_quiet_step s i p' net' fp :
  inv s → 0 ≤ i < N → quiet (nodes s i) p' →
  cntCommitConfirm p' = cntCommitConfirm (nodes s i) →
  isCommitBordcast p' = isCommitBordcast (nodes s i) → isReply p' = isReply (nodes s i) →
  fresh_ptr s ≤ fp → (∀ j m, (j, m) ∈ net' → 0 ≤ j < N ∧ ordinary m) →
  commits net' `sublist_of` commits (net s) →
  inv (mkSystem (upd_node (nodes s) i p') net' fp).
Proof.
  intros Hi Hr [Qi Qf Qp Qd] Hc Hb Hrp Hfp Hdst Hsub.
  assert (∀ j d, committed (mkSystem (upd_node (nodes s) i p') net' fp) j d ↔ committed s j d) as Hcom.
  { intros j d. unfold committed, upd_node; simpl. case_decide; [|done]. subst. by rewrite Hb. }
  assert (∀ j d ptr, vote (upd_node (nodes s) i p' j) d ptr = vote (nodes s j) d ptr) as Hv.
  { intros j d ptr. unfold vote, upd_node. case_decide; [|done]. subst. by rewrite Hc. }
  assert (∀ k j d, good_sender (mkSystem (upd_node (nodes s) i p') net' fp) k j d ↔ good_sender s k j d) as Hg
    by (intros; unfold good_sender; by rewrite Hcom).
  split; simpl.
  - intros j. unfold upd_node. case_decide; [|apply Hi]. subst. rewrite Qi, Qf. apply Hi.
  - intros j d r. unfold upd_node. case_decide; [|apply (inv_pool s Hi)]. subst. apply Qd, (inv_pool s Hi).
  - intros j d Hj%Hcom. apply (inv_commit s Hi) in Hj. unfold upd_node. case_decide; [|done]. subst. by apply Qp.
  - apply Hdst.
  - intros j m Hin. assert ((j, m) ∈ commits (net s)) as Hin' by by eapply elem_of_sublist.
    destruct (inv_net s Hi j m Hin') as [? Hvs]. rewrite Hg. split; [done|]. intros ptr info. rewrite Hv. apply Hvs.
  - eapply sublist_NoDup; [apply (inv_uniq s Hi)|]. by apply fmap_sublist.
  - intros j d ptr info. rewrite Hv. intros Hvote. destruct (inv_vote s Hi j d ptr info Hvote) as (? & ? & Hu).
    rewrite Hg. split_and!; [done|lia|]. intros ptr' info'. rewrite Hv. apply Hu.
  - intros j d. unfold upd_node. case_decide; [|apply (inv_reply s Hi)]. subst. rewrite Hrp, Qf, Hc. apply (inv_reply s Hi).
Qed.

(** A node that broadcasts its commit for [d]. *)
Lemma inv_broadcast_step s i p' d seq rest fp :
  let c := mkCommit d seq (pNodeInfo (nodes s i)) in
  inv s → 0 ≤ i < N → quiet (nodes s i) p' →
  cntCommitConfirm p' = cntCommitConfirm (nodes s i) → isReply p' = isReply (nodes s i) →
  isCommitBordcast p' = <[d := true]> (isCommitBordcast (nodes s i)) →
  flag (isCommitBordcast (nodes s i)) d = false → is_Some (requestPool p' !! d) →
  fresh_ptr s ≤ fp → (∀ j m, (j, m) ∈ rest → 0 ≤ j < N ∧ ordinary m) →
  commits rest `sublist_of` commits (net s) →
  inv (mkSystem (upd_node (nodes s) i p') (rest ++ send_all N i [MCommit c]) fp).
Proof.
  intros c Hi Hr [Qi Qf Qp Qd] Hc Hrp Hb Hfl Hpool Hfp Hdst Hsub.
  set (s' := mkSystem _ _ _).
  assert (∀ j e, committed s j e → committed s' j e) as Hmono.
  { intros j e. unfold committed, s', upd_node; simpl. case_decide; [|done]. subst. rewrite Hb.
    unfold flag. rewrite lookup_insert. by case_decide. }
  assert (committed s' i d) as Hnew.
  { unfold committed, s', upd_node, flag; simpl. by rewrite decide_True, Hb, lookup_insert_eq. }
  assert (¬ committed s i d) as Hold by (unfold committed; congruence).
  assert (∀ k j e, good_sender s k j e → good_sender s' k j e) as Hg by (intros k j e (? & ? & ?); split; [done|split; [done|auto]]).
  assert (∀ j e ptr, vote (upd_node (nodes s) i p' j) e ptr = vote (nodes s j) e ptr) as Hv.
  { intros j e ptr. unfold vote, upd_node. case_decide; [|done]. subst. by rewrite Hc. }
  assert (nNodeID (cSender c) = i) as Hid by apply (inv_id s Hi).
  split; unfold s'; simpl.
  - intros j. unfold upd_node. case_decide; [|apply Hi]. subst j. rewrite Qi, Qf. apply Hi.
  - intros j e r. unfold upd_node. case_decide; [|apply (inv_pool s Hi)]. subst j. apply Qd, (inv_pool s Hi).
  - intros j e. unfold committed, upd_node; simpl. case_decide; [|apply (inv_commit s Hi)]. subst j. rewrite Hb. unfold flag.
    rewrite lookup_insert. case_decide; [by subst e|]. intros He. by apply Qp, (inv_commit s Hi).
  - intros j m [Hin|Hin]%elem_of_app; [by apply Hdst|].
    apply send_all_elem in Hin as [? ->%list_elem_of_singleton]; [done|done|by repeat constructor].
  - intros j m. rewrite commits_app, commits_broadcast, elem_of_app. intros [Hin|Hin].
    + assert ((j, m) ∈ commits (net s)) as Hin' by by eapply elem_of_sublist.
      destruct (inv_net s Hi j m Hin') as [? Hvs]. split; [by apply Hg|]. intros ptr info. rewrite Hv. apply Hvs.
    + apply list_elem_of_fmap in Hin as (j' & [= -> ->] & [Hne _]%list_elem_of_filter). rewrite Hid.
      split; [split; [done|split; [done|exact Hnew]]|]. intros ptr info. rewrite Hv. intros Hvote Heq.
      apply Hold. destruct (inv_vote s Hi j' d ptr info Hvote) as ((_ & _ & Hcom) & _). by rewrite Heq in Hcom.
  - rewrite commits_app, commits_broadcast, fmap_app. apply NoDup_app. split_and!.
    + eapply sublist_NoDup; [apply (inv_uniq s Hi)|]. by apply fmap_sublist.
    + intros k ([j m] & -> & Hin)%list_elem_of_fmap. rewrite <-list_fmap_compose.
      intros (j' & Heq & _)%list_elem_of_fmap. unfold compose, commit_key in Heq; simpl in Heq.
      injection Heq as -> Hs He. apply Hold.
      assert ((j', m) ∈ commits (net s)) as Hin' by by eapply elem_of_sublist.
      destruct (inv_net s Hi j' m Hin') as [(_ & _ & Hcom) _].
      rewrite Hs, He, (proj1 (inv_id s Hi i)) in Hcom. done.
    + rewrite <-list_fmap_compose. apply NoDup_fmap_2_strong; [by intros x y _ _ [=]|].
      apply NoDup_filter, NoDup_fmap_2; [apply _|apply NoDup_seq].
  - intros j e ptr info. rewrite Hv. intros Hvote. destruct (inv_vote s Hi j e ptr info Hvote) as (? & ? & Hu).
    split_and!; [by apply Hg|lia|]. intros ptr' info'. rewrite Hv. apply Hu.
  - intros j e. unfold upd_node. case_decide; [|apply (inv_reply s Hi)]. subst j. rewrite Hrp, Qf, Hc. apply (inv_reply s Hi).
Qed.

(** The delivery of a commit. *)
Lemma inv_vote_step s i m l1 l2 :
  inv s → net s = l1 ++ (i, MCommit m) :: l2 →
  let '(p', out) := HandleCommit (fresh_ptr s) m (nodes s i) in
  inv (mkSystem (upd_node (nodes s) i p') ((l1 ++ l2) ++ send_all N i out) (fresh_ptr s + 1)).
Proof.
  intros Hi Hnet. pose proof (HandleCommit_effect (fresh_ptr s) m (nodes s i)) as Heff.
  destruct (HandleCommit (fresh_ptr s) m (nodes s i)) as [p' out].
  destruct Heff as ([Qi Qf Qp Qd] & Hc & Hb & Hpool & Hord & Hnoc & Hrp).
  assert (0 ≤ i < N) as Hr by (apply (inv_dst s Hi i (MCommit m)); rewrite Hnet; set_solver).
  assert (commits (net s) = commits l1 ++ (i, m) :: commits l2) as Hcn by (by rewrite Hnet, commits_app).
  assert (commits ((l1 ++ l2) ++ send_all N i out) = commits l1 ++ commits l2) as Hcn'
    by (by rewrite !commits_app, (commits_none i out), app_nil_r).
  destruct (inv_net s Hi i m) as [Hgood Hfresh]; [rewrite Hcn; set_solver|].
  set (s' := mkSystem _ _ _).
  assert (∀ j e, committed s' j e ↔ committed s j e) as Hcom.
  { intros j d. unfold committed, s', upd_node; simpl. case_decide; [|done]. subst. by rewrite Hb. }
  assert (∀ k j d, good_sender s' k j d ↔ good_sender s k j d) as Hg by (intros; unfold good_sender; by rewrite Hcom).
  assert (∀ j d ptr, vote (upd_node (nodes s) i p' j) d ptr =
    if decide (j = i ∧ d = cDigest m ∧ ptr = fresh_ptr s) then Some (cSender m) else vote (nodes s j) d ptr) as Hv.
  { intros j d ptr. unfold upd_node. destruct (decide (j = i)) as [->|]; [|by rewrite decide_False by naive_solver].
    rewrite (vote_insert (nodes s i) p' (cDigest m) (fresh_ptr s) (cSender m)) by done.
    do 2 case_decide; naive_solver. }
  subst s'. split; simpl.
  - intros j. unfold upd_node. case_decide; [|apply Hi]. subst. rewrite Qi, Qf. apply Hi.
  - intros j d r. unfold upd_node. case_decide; [|apply (inv_pool s Hi)]. subst. apply Qd, (inv_pool s Hi).
  - intros j d Hj%Hcom. apply (inv_commit s Hi) in Hj. unfold upd_node. case_decide; [|done]. subst. by rewrite Hpool.
  - intros j m' [Hin|Hin]%elem_of_app.
    + apply (inv_dst s Hi). rewrite Hnet. set_solver.
    + apply send_all_elem in Hin as [? Hin]; [|done..]. split; [done|]. by eapply Forall_forall in Hord.
  - rewrite Hcn'. intros j m' Hin. destruct (inv_net s Hi j m') as [? Hvs]; [rewrite Hcn; set_solver|].
    rewrite Hg. split; [done|]. intros ptr info. rewrite Hv. case_decide as Hd; [|apply Hvs].
    destruct Hd as (-> & Hd & ->). intros [= <-] Heq.
    pose proof (inv_uniq s Hi) as Hnd. rewrite Hcn, fmap_app, fmap_cons in Hnd.
    apply NoDup_app in Hnd as (_ & Hn1 & [Hn2 _]%NoDup_cons).
    assert (commit_key (i, m') = commit_key (i, m)) as Hk by (unfold commit_key; simpl; congruence).
    apply elem_of_app in Hin as [Hin|Hin].
    + apply (Hn1 (commit_key (i, m))); [rewrite <-Hk; by apply list_elem_of_fmap_2|by left].
    + apply Hn2. rewrite <-Hk. by apply list_elem_of_fmap_2.
  - rewrite Hcn'. pose proof (inv_uniq s Hi) as Hnd. rewrite Hcn in Hnd.
    eapply sublist_NoDup; [exact Hnd|]. apply fmap_sublist, sublist_app; [done|]. by apply sublist_cons.
  - intros j d ptr info. rewrite Hv, Hg. case_decide as Hd.
    + destruct Hd as (-> & -> & ->). intros [= <-]. split_and!; [done|lia|].
      intros ptr' info'. rewrite Hv. case_decide as Hd'; [by destruct Hd' as (_ & _ & ->)|].
      intros Hvote Heq. by destruct (Hfresh ptr' info' Hvote).
    + intros Hvote. destruct (inv_vote s Hi j d ptr info Hvote) as (? & ? & Hu). split_and!; [done|lia|].
      intros ptr' info'. rewrite Hv. case_decide as Hd'; [|apply Hu].
      destruct Hd' as (-> & -> & ->). intros [= <-] Heq. by destruct (Hfresh ptr info Hvote).
  - intros j d. unfold upd_node. case_decide; [|apply (inv_reply s Hi)]. subst. rewrite Qf, Hc.
    intros Hfl. assert (∀ k, cnt (cntCommitConfirm (nodes s i)) k ≤
      cnt (set2DMap (cntCommitConfirm (nodes s i)) (cDigest m) (fresh_ptr s) (cSender m)) k) as Hle.
    { intros k. unfold cnt, set2DMap. rewrite lookup_insert. case_decide as Hk; [subst; simpl|lia].
      generalize (default ∅ (cntCommitConfirm (nodes s i) !! cDigest m)) as vs. intros vs.
      rewrite map_size_insert. destruct (vs !! fresh_ptr s); simpl; lia. }
    destruct Hrp as [Hrp|[Hrp Hq]].
    + rewrite Hrp in Hfl. apply (inv_reply s Hi) in Hfl. specialize (Hle d). lia.
    + destruct (decide (d = cDigest m)) as [->|Hne]; [by rewrite Hc in Hq|].
      rewrite Hrp in Hfl. unfold flag in Hfl. rewrite lookup_insert_ne in Hfl by done.
      apply (inv_reply s Hi) in Hfl. specialize (Hle d). lia.
Qed.

Lemma inv_initial info : (∀ i, nNodeID (info i) = i) → inv (initial info).
Proof.
  intros Hid. split; simpl; try done.
  - by intros i m ?%elem_of_nil.
  - by intros i m ?%elem_of_nil.
  - constructor.
Qed.

Lemma inv_lose s net' fp :
  inv s → fresh_ptr s ≤ fp → (∀ j m, (j, m) ∈ net' → 0 ≤ j < N ∧ ordinary m) →
  commits net' `sublist_of` commits (net s) → inv (mkSystem (nodes s) net' fp).
Proof.
  intros Hi Hfp Hdst Hsub. split; simpl; try apply Hi.
  - apply Hdst.
  - intros j m Hin. apply (inv_net s Hi j m). by eapply elem_of_sublist.
  - eapply sublist_NoDup; [apply (inv_uniq s Hi)|]. by apply fmap_sublist.
  - intros j d ptr info Hvote. destruct (inv_vote s Hi j d ptr info Hvote) as (? & ? & ?). split; [done|]. split; [lia|done].
Qed.

Lemma commits_delete l1 pk l2 : commits (l1 ++ l2) `sublist_of` commits (l1 ++ pk :: l2).
Proof.
  change (pk :: l2) with ([pk] ++ l2). rewrite !commits_app. apply sublist_app; [done|]. by apply sublist_inserts_l.
Qed.

Lemma inv_step s s' : 0 < N → inv s → step s s' → inv s'.
Proof.
  intros HN Hi Hstep. destruct Hstep as [s number blk now p' out _ Hrun|s Hd|s l1 i m l2 p' out Hnet Hdel|s l1 pk l2 Hnet].
  - apply RunPbft_quiet in Hrun as (Hq & Hc & Hb & Hr & Ho & Hn).
    apply inv_quiet_step; try done; [|by rewrite commits_app, (commits_none 0 out), app_nil_r by (done || lia)].
    intros j m [?|Hin]%elem_of_app; [by apply (inv_dst s Hi)|].
    apply send_all_elem in Hin as [? Hin]; [|done..]. split; [done|]. by eapply Forall_forall in Ho.
  - apply inv_quiet_step; try done. apply (inv_dst s Hi).
  - assert (0 ≤ i < N ∧ ordinary m) as [Hir Hom] by (apply (inv_dst s Hi); rewrite Hnet; set_solver).
    assert (∀ j m', (j, m') ∈ l1 ++ l2 → 0 ≤ j < N ∧ ordinary m') as Hdst
      by (intros j m' Hin; apply (inv_dst s Hi); rewrite Hnet; set_solver).
    assert (commits (l1 ++ l2) `sublist_of` commits (net s)) as Hsub by (rewrite Hnet; apply commits_delete).
    assert (∀ out, Forall ordinary out → ∀ j m', (j, m') ∈ (l1 ++ l2) ++ send_all N i out → 0 ≤ j < N ∧ ordinary m') as Hdst'.
    { intros o Ho j m' [?|Hin]%elem_of_app; [by apply Hdst|].
      apply send_all_elem in Hin as [? Hin]; [|done..]. split; [done|]. by eapply Forall_forall in Ho. }
    destruct m as [m|m|m|m|m]; simpl in Hdel; [| | | |done].
    + pose proof (HandlePrePrepare_quiet m (nodes s i)) as Heff. injection Hdel as Hdel. rewrite Hdel in Heff.
      destruct Heff as (Hq & Hc & Hb & Hr & Ho & Hn).
      apply inv_quiet_step; try done; [lia|by apply Hdst'|]. by rewrite commits_app, (commits_none i out), app_nil_r.
    + pose proof (HandlePrepare_effect (fresh_ptr s) m (nodes s i)) as Heff. injection Hdel as Hdel. rewrite Hdel in Heff.
      destruct Heff as (Hq & Hc & Hr & Hpool & [[-> Hb]|(-> & Hfl & Hsome & Hb)]).
      * apply inv_quiet_step; try done; [lia|by apply Hdst'|].
        by rewrite commits_app, (commits_none i []), app_nil_r.
      * apply inv_broadcast_step; try done; [by rewrite Hpool|lia].
    + pose proof (inv_vote_step s i m l1 l2 Hi Hnet) as Heff. injection Hdel as Hdel. by rewrite Hdel in Heff.
    + apply go_bind_Ret in Hdel as (p1 & (Hq & Hc & Hb & Hr)%HandleReply_quiet & Hdel). simplify_eq.
      apply inv_quiet_step; try done; [lia|by apply Hdst'|]. by rewrite commits_app, (commits_none i []), app_nil_r.
  - apply inv_lose; [done|lia| |].
    + intros j m Hin. apply (inv_dst s Hi). rewrite Hnet. set_solver.
    + rewrite Hnet. apply commits_delete.
Qed.

Lemma inv_reachable info s : 0 < N → (∀ i, nNodeID (info i) = i) → reachable info s → inv s.
Proof. intros HN Hid. induction 1; [by apply inv_initial|by eapply inv_step]. Qed.

(** C13. A decision rests on a quorum.  In every reachable state of a
    committee between two reconfigurations, under any interleaving, delay, reordering and loss of
    messages, a node that has accepted a digest has the commits of at least
    2f different other members, and each of those has broadcast a commit for
    that digest and holds a request with exactly that digest. *)
Theorem decided_quorum info s i d :
  0 < N → (∀ i, nNodeID (info i) = i) → reachable info s →
  flag (isReply (nodes s i)) d = true →
  ∃ js, NoDup js ∧ u32 (2 * (u32 (N - 1) / 3)) ≤ len js ∧
    ∀ j, j ∈ js → 0 ≤ j < N ∧ j ≠ i ∧ flag (isCommitBordcast (nodes s j)) d = true ∧
      ∃ r, requestPool (nodes s j) !! d = Some r ∧ getDigest r = d.
Proof.
  intros HN Hid Hreach Hrep. pose proof (inv_reachable info s HN Hid Hreach) as Hi.
  set (vs := default ∅ (cntCommitConfirm (nodes s i) !! d)).
  exists ((λ pv : Z * NodeInfo, nNodeID pv.2) <$> map_to_list vs). split; [|split].
  - apply NoDup_fmap_2_strong; [|apply NoDup_map_to_list].
    intros [p1 v1] [p2 v2] H1%elem_of_map_to_list H2%elem_of_map_to_list Heq. simpl in Heq.
    destruct (inv_vote s Hi i d p1 v1 H1) as (_ & _ & Hu). assert (p2 = p1) as -> by by eapply Hu.
    congruence.
  - apply (inv_reply s Hi) in Hrep. rewrite (proj2 (inv_id s Hi i)) in Hrep. unfold cnt in Hrep.
    unfold len. by rewrite length_fmap, length_map_to_list.
  - intros j ([p v] & -> & Hv%elem_of_map_to_list)%list_elem_of_fmap. simpl.
    destruct (inv_vote s Hi i d p v Hv) as ((Hr & Hne & Hc) & _). split; [done|]. split; [done|]. split; [done|].
    destruct (inv_commit s Hi _ d Hc) as [r Hr']. exists r. split; [done|]. by eapply (inv_pool s Hi).
Qed.

(** ** The sequence lock over reconfigurations

    A committee lives from one reconfiguration to the next.  At a
    reconfiguration the members get new numbers or come from other
    committees with the pbft state they had, and the new main node alone is
    [Reset]; packets of earlier rounds are still on their way.  The worker of
    the main node goes through [RunPbft] in three parts: it sets the sequence
    id, proposes, and waits for the token or for its own exit signal.  The
    exit signal comes from Close when the program winds up; a reconfiguration
    begins only after a block is done, so not while the worker waits. *)
Inductive worker_phase := AtRest | Numbered | Waiting | Stopped.
#[global] Instance worker_phase_eq_dec : EqDecision worker_phase.
Proof. solve_decision. Defined.

(** [e_sys] has the packets of the present life and [e_old] those that
    descend from earlier lives or other committees; [e_size] is the number of
    members and [e_cur] the sequence id of the last proposal.  [e_clean] says
    that the main node began this life with its lock free and no token left,
    and has since had no reply from an earlier life. *)
Record era := mkEra {
  e_sys : system; e_old : list packet; e_size : Z; e_phase : worker_phase;
  e_cur : Z; e_clean : bool
}.
Definition e_main (e : era) : PbftConsensusNode := nodes (e_sys e) 0.

(** The main node's worker has done something. *)
Definition with_main (e : era) (p : PbftConsensusNode) (out : list pbft_msg) (ph : worker_phase)
    (cur : Z) : era :=
  mkEra (mkSystem (upd_node (nodes (e_sys e)) 0 p)
           (net (e_sys e) ++ send_all (e_size e) 0 out) (fresh_ptr (e_sys e)))
    (e_old e) (e_size e) ph cur (e_clean e).

(** Taking the token. *)
Definition take_token (p : PbftConsensusNode) : PbftConsensusNode :=
  set_round (replyCnt p) (gotEnoughReply p) (sequenceLocked p) (OneConsensusDone p - 1) p.

(** Member [i] has handled packet [k] of the present life, or of the old
    packets; what it sends belongs with what it has handled. *)
Definition handled (e : era) (k : nat) (i : Z) (p : PbftConsensusNode) (out : list pbft_msg) : era :=
  mkEra (mkSystem (upd_node (nodes (e_sys e)) i p)
           (delete k (net (e_sys e)) ++ send_all (e_size e) i out) (fresh_ptr (e_sys e) + 1))
    (e_old e) (e_size e) (e_phase e) (e_cur e) (e_clean e).
Definition late_reply (i : Z) (m : pbft_msg) : bool :=
  match m with MReply _ => bool_decide (i = 0) | _ => false end.
Definition handled_old (e : era) (k : nat) (i : Z) (m : pbft_msg) (p : PbftConsensusNode)
    (out : list pbft_msg) : era :=
  mkEra (mkSystem (upd_node (nodes (e_sys e)) i p) (net (e_sys e)) (fresh_ptr (e_sys e) + 1))
    (delete k (e_old e) ++ send_all (e_size e) i out) (e_size e) (e_phase e) (e_cur e)
    (e_clean e && negb (late_reply i m)).

(** After a reconfiguration: [size] members with the states [f], of which
    the main one is reset; [renumber] takes the old number of a node of this
    committee to its new one (outside the committee when it has left), and
    [others] are packets on their way to members that came from elsewhere.
    A packet that reaches a node between its renumbering and the [Reset]
    belongs to the history of [f]. *)
Definition reconfigured (e : era) (size : Z) (f : Z → PbftConsensusNode) (renumber : Z → Z)
    (others : list packet) : era :=
  mkEra (mkSystem (upd_node f 0 (Reset (f 0))) [] (fresh_ptr (e_sys e)))
    (((λ pk, (renumber pk.1, pk.2)) <$> (e_old e ++ net (e_sys e))) ++ others)
    size AtRest 0 (negb (sequenceLocked (f 0)) && bool_decide (OneConsensusDone (f 0) = 0)).

Inductive era_step : era → era → Prop :=
  | era_number e number p :
      e_phase e = AtRest → SetSequenceID number (e_main e) = Ret p →
      era_step e (with_main e p [] Numbered (e_cur e))
  | era_propose e blk now p out :
      e_phase e = Numbered → Propose getDigest blk now (e_main e) = Ret (p, out) →
      era_step e (with_main e p out Waiting (sequenceID (e_main e)))
  | era_done e :
      e_phase e = Waiting → OneConsensusDone (e_main e) >= 1 →
      era_step e (with_main e (take_token (e_main e)) [] AtRest (e_cur e))
  | era_exit e :
      e_phase e = Waiting → era_step e (with_main e (e_main e) [] Stopped (e_cur e))
  | era_deliver e k i m p out :
      net (e_sys e) !! k = Some (i, m) →
      deliver (fresh_ptr (e_sys e)) m (nodes (e_sys e) i) = Ret (p, out) →
      era_step e (handled e k i p out)
  | era_deliver_old e k i m p out :
      e_old e !! k = Some (i, m) → 0 ≤ i < e_size e →
      deliver (fresh_ptr (e_sys e)) m (nodes (e_sys e) i) = Ret (p, out) →
      era_step e (handled_old e k i m p out)
  | era_lose e k :
      era_step e (mkEra (mkSystem (nodes (e_sys e)) (delete k (net (e_sys e))) (fresh_ptr (e_sys e)))
        (e_old e) (e_size e) (e_phase e) (e_cur e) (e_clean e))
  | era_lose_old e k :
      era_step e (mkEra (e_sys e) (delete k (e_old e)) (e_size e) (e_phase e) (e_cur e) (e_clean e))
  | era_reconfig e size f renumber others :
      e_phase e ≠ Waiting → 0 < size →
      (∀ i, nNodeID (pNodeInfo (f i)) = i ∧ view (f i) = 0) →
      era_step e (reconfigured e size f renumber others).

Definition first_era (info : Z → NodeInfo) : era :=
  mkEra (initial info) [] N AtRest 0 true.

Inductive era_reachable (info : Z → NodeInfo) : era → Prop :=
  | era_init : era_reachable info (first_era info)
  | era_next e e' : era_reachable info e → era_step e e' → era_reachable info e'.

Definition seq_of (m : pbft_msg) : Z :=
  match m with
  | MPrePrepare m => ppSeqID m
  | MPrepare m => pSeqID m
  | MCommit m => cSeqID m
  | MReply m => MessageID m
  | MSendOld m => soStart m
  end.

(** The fields of the main node that a round turns on. *)
Definition same_round (p p' : PbftConsensusNode) : Prop :=
  gotEnoughReply p' = gotEnoughReply p ∧ sequenceLocked p' = sequenceLocked p ∧
  OneConsensusDone p' = OneConsensusDone p.

Definition member (i : Z) (p : PbftConsensusNode) : Prop :=
  nNodeID (pNodeInfo p) = i ∧ view p = 0.

(** A message that cannot disturb the round of main node [p], whose last
    proposal has the sequence id [cur]. *)
Definition settled (p : PbftConsensusNode) (cur : Z) (m : pbft_msg) : Prop :=
  is_Some (gotEnoughReply p !! seq_of m) ∨ (sequenceLocked p = true ∧ seq_of m = cur).

(** While the lock is free every message of this life belongs to a finished
    round; while it is held, to a finished one or to the current one.  The
    worker at rest has left neither the lock nor a token behind. *)
Record round_inv (e : era) : Prop := {
  ri_member : ∀ i, member i (nodes (e_sys e) i);
  ri_size : 0 < e_size e;
  ri_dst : ∀ i m, (i, m) ∈ net (e_sys e) → 0 ≤ i < e_size e ∧ ordinary m;
  ri_seq : ∀ i m, (i, m) ∈ net (e_sys e) → settled (e_main e) (e_cur e) m;
  ri_token : 0 ≤ OneConsensusDone (e_main e) ≤ 1;
  ri_lock : sequenceLocked (e_main e) = true → OneConsensusDone (e_main e) = 0;
  ri_rest : e_phase e = AtRest ∨ e_phase e = Numbered →
    sequenceLocked (e_main e) = false ∧ OneConsensusDone (e_main e) = 0
}.

Lemma member_main p : member 0 p → isMain p = true.
Proof. intros [Hi Hv]. unfold isMain. by rewrite Hi, Hv. Qed.

Lemma member_not_main i p : i ≠ 0 → member i p → isMain p = false.
Proof. intros Hne [Hi Hv]. unfold isMain. rewrite Hi, Hv. by apply bool_decide_eq_false. Qed.

Lemma settled_same p p' cur m : same_round p p' → settled p cur m → settled p' cur m.
Proof. unfold settled. by intros (-> & -> & _). Qed.

(** ** What a delivery does to a round *)
Lemma take_over_keeps seq rs p :
  let p' := (take_over getDigest seq rs p).1 in
  pNodeInfo p' = pNodeInfo p ∧ view p' = view p ∧ same_round p p'.
Proof.
  revert seq p. induction rs as [|r rs IH]; intros seq p; simpl; [done|].
  match goal with |- context [take_over _ ?s rs ?q] => specialize (IH s q); destruct (take_over getDigest s rs q) end.
  done.
Qed.

(** Only a reply at the main node moves the round. *)
Lemma deliver_keeps ptr m p p' out :
  (∀ r, m = MReply r → isMain p = false) → deliver ptr m p = Ret (p', out) →
  pNodeInfo p' = pNodeInfo p ∧ view p' = view p ∧ same_round p p'.
Proof.
  intros Hr Hd. destruct m as [m|m|m|m|m]; simpl in Hd.
  - unfold HandlePrePrepare in Hd. repeat case_bool_decide; by simplify_eq/=.
  - unfold HandlePrepare in Hd. cbv zeta in Hd. destruct (requestPool p !! pDigest m); [|by simplify_eq].
    case_bool_decide; [by simplify_eq|]. destruct (bool_decide _ && _); by simplify_eq.
  - unfold HandleCommit, reply in Hd. cbv zeta in Hd. destruct (bool_decide _ && _); [|by simplify_eq].
    destruct (isMain _); by simplify_eq.
  - unfold HandleReply in Hd. rewrite (Hr m) in Hd by done. by simplify_eq/=.
  - unfold HandleSendOldSeq in Hd. pose proof (take_over_keeps (soStart m) (OldRequest m) p) as Hk.
    destruct (take_over _ _ _ _) as [q o]. simpl in Hd, Hk. destruct (askForLocked q); by simplify_eq/=.
Qed.

(** The outputs belong to the round of the input. *)
Lemma deliver_out ptr m p p' out m' :
  ordinary m → deliver ptr m p = Ret (p', out) → m' ∈ out → ordinary m' ∧ seq_of m' = seq_of m.
Proof.
  intros Ho Hd Hm'.
  assert (∀ q, m' ∈ [q] → ordinary q → seq_of q = seq_of m → ordinary m' ∧ seq_of m' = seq_of m) as Hone
    by (by intros q ->%list_elem_of_singleton).
  assert (m' ∉ []) as Hnil by apply not_elem_of_nil.
  destruct m as [m|m|m|m|m]; simpl in Hd; try done.
  - unfold HandlePrePrepare in Hd. repeat case_bool_decide; simplify_eq/=; try done; by eapply Hone.
  - unfold HandlePrepare in Hd. cbv zeta in Hd. destruct (requestPool p !! pDigest m); [|by simplify_eq].
    case_bool_decide; [by simplify_eq|]. destruct (bool_decide _ && _); simplify_eq; [by eapply Hone|done].
  - unfold HandleCommit, reply in Hd. cbv zeta in Hd. destruct (bool_decide _ && _); [|by simplify_eq].
    destruct (isMain _); simplify_eq; [done|by eapply Hone].
  - apply go_bind_Ret in Hd as (q & _ & Hd). by simplify_eq.
Qed.

(** One reply at the main node. *)
Lemma HandleReply_main p cur rmsg :
  isMain p = true → (sequenceLocked p = true → OneConsensusDone p = 0) → settled p cur (MReply rmsg) →
  ∃ p', HandleReply rmsg p = Ret p' ∧ pNodeInfo p' = pNodeInfo p ∧ view p' = view p ∧
    (same_round p p' ∨
     (sequenceLocked p = true ∧ MessageID rmsg = cur ∧ sequenceLocked p' = false ∧
      OneConsensusDone p' = 1 ∧
      gotEnoughReply p' = <[MessageID rmsg := true]> (gotEnoughReply p))).
Proof.
  intros Hm Htl Hs. unfold HandleReply. rewrite Hm. simpl. unfold settled in Hs; simpl in Hs.
  destruct (gotEnoughReply p !! MessageID rmsg) eqn:E.
  { exists p. split_and!; [done..|]. by left. }
  destruct Hs as [[? ?]|[Hl Heq]]; [done|]. specialize (Htl Hl).
  case_bool_decide.
  - rewrite bool_decide_false, Hl by lia. simpl. eexists. split; [done|]. split_and!; [done..|].
    right. simpl. rewrite Htl. done.
  - eexists. split; [done|]. split_and!; [done..|]. by left.
Qed.

(** ** The invariant over the steps *)
Lemma round_inv_frame e s old ph clean :
  round_inv e → (∀ i, member i (nodes s i)) → same_round (e_main e) (nodes s 0) →
  (∀ i m, (i, m) ∈ net s → (i, m) ∈ net (e_sys e) ∨
     (0 ≤ i < e_size e ∧ ordinary m ∧ settled (e_main e) (e_cur e) m)) →
  (ph = AtRest ∨ ph = Numbered → e_phase e = AtRest ∨ e_phase e = Numbered) →
  round_inv (mkEra s old (e_size e) ph (e_cur e) clean).
Proof.
  intros [Hm HN Hd Hs Ht Hl Hr] Hm' Hsame Hnet Hph. pose proof Hsame as (_ & Hlk & Htk).
  unfold e_main in *. split; unfold e_main; simpl.
  - done.
  - done.
  - intros i m [Hin|(? & ? & _)]%Hnet; [by apply Hd|done].
  - intros i m Hin. eapply settled_same; [done|]. destruct (Hnet i m Hin) as [?|(_ & _ & ?)]; [by eapply Hs|done].
  - by rewrite Htk.
  - by rewrite Hlk, Htk.
  - rewrite Hlk, Htk. auto.
Qed.

Lemma member_upd f i p :
  (∀ j, member j (f j)) → pNodeInfo p = pNodeInfo (f i) → view p = view (f i) →
  ∀ j, member j (upd_node f i p j).
Proof. intros Hf Hi Hv j. unfold upd_node, member. case_decide; [subst; rewrite Hi, Hv|]; apply Hf. Qed.

Lemma elem_of_delete {A} k (l : list A) x : x ∈ delete k l → x ∈ l.
Proof. rewrite list_elem_of_lookup. intros [j Hj]. rewrite list_lookup_delete in Hj. case_decide; by eapply list_elem_of_lookup_2. Qed.

(** Node [i] is changed in a way that leaves the round alone. *)
Lemma same_round_upd e i p :
  (i = 0 → same_round (e_main e) p) → same_round (e_main e) (upd_node (nodes (e_sys e)) i p 0).
Proof. unfold upd_node. case_decide; [auto|done]. Qed.

Lemma not_late i m p : member i p → late_reply i m = false → ∀ r, m = MReply r → isMain p = false.
Proof. intros Hm Hl r ->. simpl in Hl. apply bool_decide_eq_false in Hl. by eapply member_not_main. Qed.

Lemma handled_net e k i m p out :
  round_inv e → net (e_sys e) !! k = Some (i, m) →
  deliver (fresh_ptr (e_sys e)) m (nodes (e_sys e) i) = Ret (p, out) →
  ∀ j m', (j, m') ∈ net (e_sys (handled e k i p out)) → (j, m') ∈ net (e_sys e) ∨
    (0 ≤ j < e_size e ∧ ordinary m' ∧ settled (e_main e) (e_cur e) m').
Proof.
  intros Hinv Hk%list_elem_of_lookup_2 Hdel j m' [Hj|Hj]%elem_of_app; [left; by eapply elem_of_delete|right].
  destruct (ri_dst e Hinv i m Hk) as [Hi Ho]. pose proof (ri_seq e Hinv i m Hk) as Hset.
  apply send_all_elem in Hj as [Hj Hm']; [|done|apply Forall_forall; intros; by eapply deliver_out].
  eapply deliver_out in Hm' as [? Hsq]; [|done..]. unfold settled in *. by rewrite Hsq.
Qed.

Lemma upd_node_eq f i p : upd_node f i p i = p.
Proof. unfold upd_node. by rewrite decide_True. Qed.
Lemma main_with_main e p out ph cur : e_main (with_main e p out ph cur) = p.
Proof. apply upd_node_eq. Qed.
Lemma main_handled e k p out : e_main (handled e k 0 p out) = p.
Proof. apply upd_node_eq. Qed.
Lemma main_reconfigured e size f renumber others :
  e_main (reconfigured e size f renumber others) = Reset (f 0).
Proof. apply upd_node_eq. Qed.

(** A reply of this life at the main node. *)
Lemma round_inv_reply e k r p :
  round_inv e → net (e_sys e) !! k = Some (0, MReply r) → HandleReply r (e_main e) = Ret p →
  round_inv (handled e k 0 p []).
Proof.
  intros Hinv Hk HR. pose proof Hk as Hin%list_elem_of_lookup_2.
  destruct (HandleReply_main (e_main e) (e_cur e) r (member_main _ (ri_member e Hinv 0)) (ri_lock e Hinv) (ri_seq e Hinv _ _ Hin))
    as (p' & HR' & Hpi & Hvi & Hcase). rewrite HR in HR'. simplify_eq.
  destruct Hcase as [Hsame|(Hlk & Hcur & Hlk' & Htk & Hge)].
  { apply round_inv_frame; simpl; try done; [apply member_upd; [apply Hinv|done..]|].
    intros j m' [Hj%elem_of_delete|Hj%elem_of_nil]%elem_of_app; [by left|done]. }
  assert (∀ j m', (j, m') ∈ delete k (net (e_sys e)) ++ [] → (j, m') ∈ net (e_sys e)) as Hnet
    by (intros j m' [Hj%elem_of_delete|Hj%elem_of_nil]%elem_of_app; done).
  split; rewrite ?main_handled; simpl.
  - apply member_upd; [apply Hinv|done..].
  - apply Hinv.
  - intros j m' ?%Hnet. by apply (ri_dst e Hinv).
  - intros j m' Hj%Hnet. left. rewrite Hge, lookup_insert_is_Some'.
    destruct (ri_seq e Hinv j m' Hj) as [?|[_ ->]]; [by right|by left].
  - lia.
  - by rewrite Hlk'.
  - intros Hph. apply (ri_rest e Hinv) in Hph. destruct Hph. congruence.
Qed.

(** A packet of this life. *)
Lemma round_inv_deliver e k i m p out :
  round_inv e → net (e_sys e) !! k = Some (i, m) →
  deliver (fresh_ptr (e_sys e)) m (nodes (e_sys e) i) = Ret (p, out) → round_inv (handled e k i p out).
Proof.
  intros Hinv Hk Hdel. destruct (late_reply i m) eqn:Hl.
  { destruct m as [| | |r|]; try done. apply bool_decide_eq_true in Hl as ->. simpl in Hdel.
    apply go_bind_Ret in Hdel as (p' & HR & Heq). simplify_eq. by apply (round_inv_reply e k r). }
  destruct (deliver_keeps _ _ _ _ _ (not_late _ _ _ (ri_member e Hinv i) Hl) Hdel) as (Hpi & Hvi & Hsame).
  apply round_inv_frame; simpl; try done.
  - apply member_upd; [apply Hinv|done..].
  - apply same_round_upd. by intros ->.
  - by eapply handled_net.
Qed.

Lemma round_inv_propose e blk now p out :
  round_inv e → e_phase e = Numbered → Propose getDigest blk now (e_main e) = Ret (p, out) →
  round_inv (with_main e p out Waiting (sequenceID (e_main e))).
Proof.
  intros Hinv Hph Hrun. destruct (ri_rest e Hinv (or_intror Hph)) as [El Et].
  destruct (ri_member e Hinv 0) as [Hid Hv]. fold (e_main e) in Hid, Hv. pose proof (ri_size e Hinv) as HN.
  unfold Propose in Hrun. rewrite Hid, Hv, bool_decide_true, El in Hrun by done. simpl in Hrun.
  injection Hrun as <- <-. split; rewrite ?main_with_main; simpl; try done.
  - apply member_upd; [apply Hinv|done..].
  - intros i m [?|Hin]%elem_of_app; [by apply (ri_dst e Hinv)|].
    apply send_all_elem in Hin as [? ->%list_elem_of_singleton]; [done|lia|by repeat constructor].
  - intros i m [Hin|Hin]%elem_of_app.
    + left. destruct (ri_seq e Hinv i m Hin) as [?|[? _]]; [done|congruence].
    + apply send_all_elem in Hin as [? ->%list_elem_of_singleton]; [by right|lia|by repeat constructor].
  - lia.
  - by intros [?|?].
Qed.

Lemma round_inv_done e :
  round_inv e → OneConsensusDone (e_main e) >= 1 →
  round_inv (with_main e (take_token (e_main e)) [] AtRest (e_cur e)).
Proof.
  intros Hinv Ht. pose proof (ri_token e Hinv) as Ht'.
  assert (sequenceLocked (e_main e) = false) as El
    by (destruct (sequenceLocked (e_main e)) eqn:E; [apply (ri_lock e Hinv) in E; lia|done]).
  split; rewrite ?main_with_main; simpl; rewrite ?app_nil_r, ?El; try done.
  - apply member_upd; [apply Hinv|done..].
  - apply Hinv.
  - apply Hinv.
  - intros i m Hin. left. destruct (ri_seq e Hinv i m Hin) as [?|[? _]]; [done|congruence].
  - lia.
  - split; [done|lia].
Qed.

Lemma round_inv_reconfig e size f renumber others :
  0 < size → (∀ i, member i (f i)) → e_clean (reconfigured e size f renumber others) = true →
  round_inv (reconfigured e size f renumber others).
Proof.
  intros HN Hf [Hl%negb_true_iff Ht%bool_decide_eq_true]%andb_true_iff.
  split; rewrite ?main_reconfigured; simpl; rewrite ?Hl; try done.
  - by apply member_upd.
  - by intros i m Hin%elem_of_nil.
  - by intros i m Hin%elem_of_nil.
  - lia.
Qed.

Lemma round_inv_step e e' :
  (e_clean e = true → round_inv e) → era_step e e' → e_clean e' = true → round_inv e'.
Proof.
  intros Hinv Hstep Hc'.
  destruct Hstep as [e number p Hph Hseq|e blk now p out Hph Hp|e Hph Ht|e Hph|e k i m p out Hk Hdel
    |e k i m p out Hk Hi Hdel|e k|e k|e size f renumber others _ HN Hf]; simpl in Hc'.
  - specialize (Hinv Hc'). unfold SetSequenceID in Hseq. destruct (sequenceLocked _); simplify_eq/=.
    apply round_inv_frame; simpl; rewrite ?app_nil_r; try done; [apply member_upd; [apply Hinv|done..]|auto|auto].
  - eapply round_inv_propose; eauto.
  - by apply round_inv_done; auto.
  - specialize (Hinv Hc'). apply round_inv_frame; simpl; rewrite ?app_nil_r; try done;
      [apply member_upd; [apply Hinv|done..]|auto|naive_solver].
  - eapply round_inv_deliver; eauto.
  - apply andb_true_iff in Hc' as [Hc Hlate%negb_true_iff]. specialize (Hinv Hc).
    destruct (deliver_keeps _ _ _ _ _ (not_late _ _ _ (ri_member e Hinv i) Hlate) Hdel) as (Hpi & Hvi & Hsame).
    apply round_inv_frame; simpl; try done; [apply member_upd; [apply Hinv|done..]| |auto].
    apply same_round_upd. by intros ->.
  - specialize (Hinv Hc'). apply round_inv_frame; simpl; try done; [apply Hinv|].
    intros i m ?%elem_of_delete. auto.
  - specialize (Hinv Hc'). apply round_inv_frame; simpl; try done; [apply Hinv|auto].
  - by apply round_inv_reconfig.
Qed.

Lemma round_inv_reachable info e :
  0 < N → (∀ i, nNodeID (info i) = i) → era_reachable info e → e_clean e = true → round_inv e.
Proof.
  intros HN Hid Hreach. induction Hreach as [|e e' Hreach IH Hstep].
  - intros _. split; simpl; try done; try (by intros i m ?%elem_of_nil). intros i. by split; [apply Hid|].
  - by eapply round_inv_step.
Qed.

(** C34. The lock discipline of a round, over any number of reconfigurations.
    Since a [Reset] that found the lock free and no token left, and as long
    as the main node has had no reply from before that [Reset]: a reply of
    the present life is handled to the end (it neither unlocks a free lock,
    which kills the process, nor blocks on a token that nobody has taken),
    and a worker at rest can set the sequence id, and then propose, without
    finding the lock taken.  The two conditions are needed, as
    [late_replies_kill] and [leftover_token_ends_round] show. *)
Theorem reply_never_fails info e :
  0 < N → (∀ i, nNodeID (info i) = i) → era_reachable info e → e_clean e = true →
  (∀ m, (0, MReply m) ∈ net (e_sys e) → returns (HandleReply m (e_main e))) ∧
  (e_phase e = AtRest → ∀ number, returns (SetSequenceID number (e_main e))) ∧
  (e_phase e = Numbered → ∀ blk now, returns (Propose getDigest blk now (e_main e))).
Proof.
  intros HN Hid Hreach Hc. pose proof (round_inv_reachable info e HN Hid Hreach Hc) as Hinv.
  split_and!.
  - intros m Hin. destruct (HandleReply_main (e_main e) _ m (member_main _ (ri_member e Hinv 0)) (ri_lock e Hinv)
      (ri_seq e Hinv _ _ Hin)) as (p' & -> & _). eauto with golib.
  - intros Hph number. unfold SetSequenceID. rewrite (proj1 (ri_rest e Hinv (or_introl Hph))). eauto with golib.
  - intros Hph blk now. unfold Propose. rewrite (proj1 (ri_rest e Hinv (or_intror Hph))).
    destruct (negb _); eauto with golib.
Qed.

(** A schedule that delivers the packets in the order they were sent. *)
Fixpoint fifo (n : nat) (s : system) : system :=
  match n with
  | O => s
  | S n =>
      match net s with
      | [] => s
      | (i, m) :: l2 =>
          match deliver (fresh_ptr s) m (nodes s i) with
          | Ret (p', out) => fifo n (mkSystem (upd_node (nodes s) i p') (l2 ++ send_all N i out) (fresh_ptr s + 1))
          | Halt _ => s
          end
      end
  end.

Lemma fifo_reachable info n s : reachable info s → reachable info (fifo n s).
Proof.
  revert s. induction n as [|n IH]; intros s Hs; simpl; [done|].
  destruct (net s) as [|[i m] l2] eqn:Hnet; [done|].
  destruct (deliver _ m _) as [[p' out]|] eqn:Hd; [|done]. apply IH. eapply reach_step; [done|].
  by apply (step_deliver s [] i m l2).
Qed.

Definition start_round (number : Z) (blk : bytes) (now : Z) (s : system) : system :=
  match RunPbft getDigest number blk now (nodes s 0) with
  | Ret (p', out) => mkSystem (upd_node (nodes s) 0 p') (net s ++ send_all N 0 out) (fresh_ptr s)
  | Halt _ => s
  end.

Lemma start_round_reachable info number blk now s :
  OneConsensusDone (nodes s 0) = 0 → reachable info s → reachable info (start_round number blk now s).
Proof.
  intros Hd Hs. unfold start_round. destruct (RunPbft _ _ _ _ _) as [[p' out]|] eqn:Hr; [|done].
  eapply reach_step; [done|]. by eapply step_run.
Qed.
(** ** Schedules of eras *)
Lemma deliver_member ptr m p p' out :
  deliver ptr m p = Ret (p', out) → pNodeInfo p' = pNodeInfo p ∧ view p' = view p.
Proof.
  intros Hd. destruct m as [m|m|m|m|m].
  4: { simpl in Hd. apply go_bind_Ret in Hd as (q & HR & Hd). simplify_eq. unfold HandleReply in HR.
    destruct (negb _); [by simplify_eq|]. destruct (gotEnoughReply p !! MessageID m); [by simplify_eq|].
    cbv zeta in HR. destruct (bool_decide (replyCnt p + 1 >= _)); [|by simplify_eq].
    destruct (bool_decide _); [done|]. destruct (negb _); by simplify_eq. }
  all: apply deliver_keeps in Hd as (? & ? & _); [done|done].
Qed.

Lemma era_members info e :
  (∀ i, nNodeID (info i) = i) → era_reachable info e → ∀ i, member i (nodes (e_sys e) i).
Proof.
  intros Hid Hreach. induction Hreach as [|e e' Hreach IH Hstep]; [intros i; by split; [apply Hid|]|].
  destruct Hstep as [e number p Hph Hseq|e blk now p out Hph Hp|e Hph Ht|e Hph|e k i m p out Hk Hdel
    |e k i m p out Hk Hi Hdel|e k|e k|e size f renumber others _ HN Hf]; simpl; try done.
  - apply member_upd; [done|..]; unfold SetSequenceID in Hseq; destruct (sequenceLocked _); by simplify_eq.
  - unfold Propose in Hp. destruct (negb _); [simplify_eq; by apply member_upd|].
    destruct (sequenceLocked _); simplify_eq. by apply member_upd.
  - by apply member_upd.
  - by apply member_upd.
  - apply deliver_member in Hdel as [??]. by apply member_upd.
  - apply deliver_member in Hdel as [??]. by apply member_upd.
  - by apply member_upd.
Qed.

(** What a schedule can ask for; what is not possible is skipped.  [Fifo]
    delivers [n] packets of this life in their order, leaving out the replies
    of the members [hold]; [Meet] is a reconfiguration after which the same
    members meet again under the same numbers. *)
Inductive era_act :=
  | Number (number : Z) | Offer (blk : bytes) (now : Z) | Done | Exit
  | Fifo (hold : list Z) (n : nat) | Late (k : nat) | Meet.

Definition held (hold : list Z) (pk : packet) : bool :=
  match pk.2 with MReply r => bool_decide (nNodeID (rpSender r) ∈ hold) | _ => false end.

Fixpoint era_fifo (hold : list Z) (n : nat) (e : era) : era :=
  match n with
  | O => e
  | S n =>
      match list_find (λ pk, held hold pk = false) (net (e_sys e)) with
      | Some (k, (i, m)) =>
          match deliver (fresh_ptr (e_sys e)) m (nodes (e_sys e) i) with
          | Ret (p, out) => era_fifo hold n (handled e k i p out)
          | Halt _ => e
          end
      | None => e
      end
  end.

Definition era_exec (e : era) (a : era_act) : era :=
  match a with
  | Number number =>
      match SetSequenceID number (e_main e) with
      | Ret p => if decide (e_phase e = AtRest) then with_main e p [] Numbered (e_cur e) else e
      | Halt _ => e
      end
  | Offer blk now =>
      match Propose getDigest blk now (e_main e) with
      | Ret (p, out) =>
          if decide (e_phase e = Numbered) then with_main e p out Waiting (sequenceID (e_main e)) else e
      | Halt _ => e
      end
  | Done =>
      if decide (e_phase e = Waiting ∧ OneConsensusDone (e_main e) >= 1)
      then with_main e (take_token (e_main e)) [] AtRest (e_cur e) else e
  | Exit => if decide (e_phase e = Waiting) then with_main e (e_main e) [] Stopped (e_cur e) else e
  | Fifo hold n => era_fifo hold n e
  | Late k =>
      match e_old e !! k with
      | Some (i, m) =>
          match deliver (fresh_ptr (e_sys e)) m (nodes (e_sys e) i) with
          | Ret (p, out) => if decide (0 ≤ i < e_size e) then handled_old e k i m p out else e
          | Halt _ => e
          end
      | None => e
      end
  | Meet =>
      if decide (e_phase e ≠ Waiting ∧ 0 < e_size e)
      then reconfigured e (e_size e) (nodes (e_sys e)) id [] else e
  end.

Lemma era_fifo_reachable info hold n e : era_reachable info e → era_reachable info (era_fifo hold n e).
Proof.
  revert e. induction n as [|n IH]; intros e He; simpl; [done|].
  destruct (list_find _ _) as [[k [i m]]|] eqn:Hf; [|done]. apply list_find_Some in Hf as [Hk _].
  destruct (deliver _ m _) as [[p out]|] eqn:Hd; [|done]. apply IH. eapply era_next; [done|].
  by eapply era_deliver.
Qed.

Lemma era_exec_reachable info e a :
  (∀ i, nNodeID (info i) = i) → era_reachable info e → era_reachable info (era_exec e a).
Proof.
  intros Hid He. destruct a as [number|blk now| | |hold n|k|]; simpl; [..|by apply era_fifo_reachable| |].
  - destruct (SetSequenceID _ _) as [p|] eqn:E; [|done]. destruct (decide _); [|done].
    eapply era_next; [done|]. by eapply era_number.
  - destruct (Propose _ _ _ _) as [[p out]|] eqn:E; [|done]. destruct (decide _); [|done].
    eapply era_next; [done|]. by eapply era_propose.
  - destruct (decide _) as [[??]|]; [|done]. eapply era_next; [done|]. by apply era_done.
  - destruct (decide _); [|done]. eapply era_next; [done|]. by apply era_exit.
  - destruct (e_old e !! k) as [[i m]|] eqn:Ek; [|done].
    destruct (deliver _ _ _) as [[p out]|] eqn:E; [|done]. destruct (decide _); [|done].
    eapply era_next; [done|]. by eapply era_deliver_old.
  - destruct (decide _) as [[??]|]; [|done]. eapply era_next; [done|].
    apply era_reconfig; [done..|]. by apply (era_members info).
Qed.

Definition era_run (info : Z → NodeInfo) (acts : list era_act) : era :=
  foldl era_exec (first_era info) acts.

Lemma era_run_reachable info acts :
  (∀ i, nNodeID (info i) = i) → era_reachable info (era_run info acts).
Proof.
  intros Hid. unfold era_run. assert (era_reachable info (first_era info)) as He by constructor.
  revert He. generalize (first_era info). induction acts as [|a acts IH]; intros e He; simpl; [done|].
  by apply IH, era_exec_reachable.
Qed.
End committee.

(** The votes count decoded messages, not senders: a commit that arrives
    twice from one member, decoded at two addresses, makes a node of a
    committee of four accept the digest although two members are required. *)
Lemma duplicate_commit_counts d info sender ptr1 ptr2 :
  ptr1 ≠ ptr2 →
  let c := mkCommit d 7 sender in
  let p := NewPbftNode info 4 in
  let p1 := (HandleCommit ptr1 c p).1 in
  let p2 := (HandleCommit ptr2 c p1).1 in
  flag (isReply p1) d = false ∧ flag (isReply p2) d = true.
Proof.
  intros Hne c p p1 p2.
  assert (∀ x, flag (<[d := true]> x) d = true) as Hf by (intros; unfold flag; by rewrite lookup_insert_eq).
  assert (p1 = set_votes ∅ {[ d := {[ ptr1 := sender ]} ]} ∅ ∅ p) as Hp1.
  { unfold p1, HandleCommit, set2DMap, cnt; cbn -[u32 size]. rewrite lookup_insert_eq, lookup_empty. cbn -[u32 size].
    rewrite insert_empty, map_size_singleton. rewrite bool_decide_false; [done|]. vm_compute. intros Hc. by apply Hc. }
  split; [by rewrite Hp1|]. unfold p2. rewrite Hp1. unfold HandleCommit, set2DMap, cnt; cbn -[u32 size].
  rewrite !lookup_insert_eq. cbn -[u32 size].
  rewrite map_size_insert, lookup_singleton_eq. simpl (default _ _). rewrite lookup_singleton_ne, map_size_singleton by done.
  rewrite bool_decide_true by (by vm_compute). cbn -[u32 size isMain].
  destruct (isMain _); simpl; apply Hf.
Qed.

(** ** Witnesses: a full round of a committee of four. *)
Definition demo_digest (r : PbftRequest) : bytes := ReqTime r :: Msg r.
Definition demo_nodeinfo (i : Z) : NodeInfo := mkNodeInfo 0 0 i "".
Definition demo_started : system :=
  start_round demo_digest 4 1 [9; 9] 33 (initial 4 demo_nodeinfo).
Definition demo_round : system := fifo demo_digest 4 40 demo_started.

Lemma demo_started_reachable : reachable demo_digest 4 demo_nodeinfo demo_started.
Proof. apply start_round_reachable; [reflexivity|constructor]. Qed.

(** The round ends: the token is there and the lock free again. *)
Lemma demo_round_ends :
  OneConsensusDone (nodes demo_round 0) = 1 ∧ sequenceLocked (nodes demo_round 0) = false ∧
  net demo_round = [].
Proof. split_and!; vm_compute; reflexivity. Qed.

Lemma decided_quorum_witness :
  ∃ js, NoDup js ∧ u32 (2 * (u32 (4 - 1) / 3)) ≤ len js ∧
    ∀ j, j ∈ js → 0 ≤ j < 4 ∧ j ≠ 2 ∧ flag (isCommitBordcast (nodes demo_round j)) [33; 9; 9] = true ∧
      ∃ r, requestPool (nodes demo_round j) !! [33; 9; 9] = Some r ∧ demo_digest r = [33; 9; 9].
Proof.
  apply (decided_quorum demo_digest 4 demo_nodeinfo demo_round 2 [33; 9; 9]).
  - lia.
  - reflexivity.
  - apply fifo_reachable, demo_started_reachable.
  - vm_compute. reflexivity.
Defined.

(** A round of which the reply of member 3 stays on its way, a
    reconfiguration, and a second round up to its replies: the late reply is
    still in flight, and the lock discipline holds. *)
Definition demo_era : era :=
  era_run demo_digest 4 demo_nodeinfo
    [Number 1; Offer [9; 9] 33; Fifo [3] 40; Done; Meet; Number 2; Offer [8; 8] 34; Fifo [1; 2; 3] 40].

Lemma reply_never_fails_witness :
  (0, MReply (mkReply 1 (demo_nodeinfo 3) true)) ∈ e_old demo_era ∧
  (0, MReply (mkReply 2 (demo_nodeinfo 1) true)) ∈ net (e_sys demo_era) ∧
  returns (HandleReply (mkReply 2 (demo_nodeinfo 1) true) (e_main demo_era)).
Proof.
  assert ((0, MReply (mkReply 2 (demo_nodeinfo 1) true)) ∈ net (e_sys demo_era)) as Hin.
  { apply list_elem_of_In. vm_compute. tauto. }
  split; [apply list_elem_of_In; vm_compute; tauto|]. split; [exact Hin|].
  refine (proj1 (reply_never_fails demo_digest 4 demo_nodeinfo demo_era _ _ _ _) _ Hin).
  - lia.
  - reflexivity.
  - apply era_run_reachable. reflexivity.
  - vm_compute. reflexivity.
Defined.

(** Without [e_clean]: [Reset] forgets which rounds have had enough replies,
    so the late replies of two finished rounds are counted as two of the new
    life, and the second unlocks a lock that nobody holds. *)
Example late_replies_kill :
  let e := era_run demo_digest 4 demo_nodeinfo
    [Number 1; Offer [9; 9] 33; Fifo [3] 40; Done; Number 2; Offer [8; 8] 34; Fifo [3] 40; Done; Meet; Late 0] in
  era_reachable demo_digest 4 demo_nodeinfo e ∧
  e_old e = [(0, MReply (mkReply 2 (demo_nodeinfo 3) true))] ∧
  HandleReply (mkReply 2 (demo_nodeinfo 3) true) (e_main e) =
    Halt (GoPanic "sync: unlock of unlocked mutex").
Proof. cbv zeta. split; [by apply era_run_reachable|]. split; vm_compute; reflexivity. Qed.

(** A worker that leaves by its exit signal leaves the token of the round it
    abandoned in the channel, and [Reset] does not drain it: should that node
    ever lead again, its next round is over before any member has seen the
    proposal, and the lock stays held.  The program closes a worker only when
    it winds up, so it relies on no reconfiguration after a close. *)
Example leftover_token_ends_round :
  let e := era_run demo_digest 4 demo_nodeinfo
    [Number 1; Offer [9; 9] 33; Exit; Fifo [] 60; Meet; Number 2; Offer [8; 8] 34; Done] in
  let m := mkPrePrepare (mkPbftRequest "*block" [8; 8] 34) [34; 8; 8] 2 in
  era_reachable demo_digest 4 demo_nodeinfo e ∧
  e_phase e = AtRest ∧ net (e_sys e) = [(1, MPrePrepare m); (2, MPrePrepare m); (3, MPrePrepare m)] ∧
  SetSequenceID 3 (e_main e) = Halt (Blocked "sequenceLock").
Proof. cbv zeta. split; [by apply era_run_reachable|]. split_and!; vm_compute; reflexivity. Qed.
