(* ===== verification/Encoding.v ===== *)
(** * Key encodings of the state trie (src/trie/encoding.go).

    A key is a string of bytes, a string of nibbles with an optional
    terminator (hex), or a compact string of bytes whose first byte holds the
    parity and the terminator.  Slices of bytes are lists; an index out of
    range is a panic, as in the source. *)
From S2P Require Import Prelude.
Local Open Scope Z_scope.

(** [hasTerm] *)
Definition hasTerm (s : bytes) : bool := bool_decide (last s = Some 16).

(** [n0<<4 | n1] on bytes. *)
Definition pack_nibbles (n0 n1 : Z) : Z := Z.lor (u8 (Z.shiftl n0 4)) n1.

(** [decodeNibbles]: fills [bytes] from its start. *)
Fixpoint decodeNibbles (nibbles buf : bytes) : go bytes :=
  match nibbles with
  | [] => Ret buf
  | n0 :: rest =>
      match rest, buf with
      | n1 :: rest, _ :: buf => cons (pack_nibbles n0 n1) <$> decodeNibbles rest buf
      | _, _ => Halt (GoPanic "index out of range")
      end
  end.

(** [hexToCompact]; [HexToCompact] exports it. *)
Definition hexToCompact (hex : bytes) : go bytes :=
  let terminator := if hasTerm hex then 1 else 0 in
  let hex := if hasTerm hex then take (length hex - 1) hex else hex in
  let flag := u8 (Z.shiftl terminator 5) in
  let rest := replicate (length hex / 2)%nat 0 in
  if bool_decide (Z.land (len hex) 1 = 1) then
    h0 ← go_index hex 0;
    cons (Z.lor (Z.lor flag (Z.shiftl 1 4)) h0) <$> decodeNibbles (drop 1 hex) rest
  else cons flag <$> decodeNibbles hex rest.
Definition HexToCompact (hex : bytes) : go bytes := hexToCompact hex.

(** The loop of [hexToCompactInPlace]; [fuel] bounds the iterations, and the
    length of the buffer is enough since [ni] grows by two. *)
Fixpoint inPlace_loop (fuel : nat) (hex : bytes) (hexLen bi ni : Z) : go bytes :=
  if bool_decide (ni < hexLen) then
    match fuel with
    | O => Halt (Blocked "fuel")
    | S fuel =>
        n0 ← go_index hex ni;
        n1 ← go_index hex (ni + 1);
        hex ← go_store hex bi (pack_nibbles n0 n1);
        inPlace_loop fuel hex hexLen (bi + 1) (ni + 2)
    end
  else Ret hex.

(** [hexToCompactInPlace]: the buffer after the call, and the length used. *)
Definition hexToCompactInPlace (hex : bytes) : go (bytes * Z) :=
  let term := hasTerm hex in
  let hexLen := if term then len hex - 1 else len hex in
  let firstByte := if term then Z.shiftl 1 5 else 0 in
  let binLen := hexLen / 2 + 1 in
  let odd := bool_decide (Z.land hexLen 1 = 1) in
  firstByte ← (if odd then h0 ← go_index hex 0;
                 Ret (Z.lor (Z.lor firstByte (Z.shiftl 1 4)) h0)
               else Ret firstByte);
  hex ← inPlace_loop (length hex) hex hexLen 1 (if odd then 1 else 0);
  hex ← go_store hex 0 firstByte;
  Ret (hex, binLen).

(** The loop of [keybytesToHex]. *)
Fixpoint nibbles_of (str : bytes) : bytes :=
  match str with
  | [] => []
  | b :: str => b / 16 :: b `mod` 16 :: nibbles_of str
  end.
Definition keybytesToHex (str : bytes) : bytes := nibbles_of str ++ [16].

(** [compactToHex]; [base] is not empty where its first element is read. *)
Definition compactToHex (compact : bytes) : bytes :=
  if bool_decide (len compact = 0) then compact
  else
    let base := keybytesToHex compact in
    let base0 := hd 0 base in
    let base := if bool_decide (base0 < 2) then take (length base - 1) base else base in
    let chop := 2 - Z.land (hd 0 base) 1 in
    drop (Z.to_nat chop) base.

(** [hexToKeybytes]; [HexToKeybytes] exports it. *)
Definition hexToKeybytes (hex : bytes) : go bytes :=
  let hex := if hasTerm hex then take (length hex - 1) hex else hex in
  if negb (bool_decide (Z.land (len hex) 1 = 0))
  then Halt (GoPanic "can't convert hex key of odd length")
  else decodeNibbles hex (replicate (length hex / 2)%nat 0).
Definition HexToKeybytes (hex : bytes) : go bytes := hexToKeybytes hex.

(** [prefixLen] *)
Fixpoint prefixLen (a b : bytes) : Z :=
  match a, b with
  | x :: a, y :: b => if bool_decide (x = y) then 1 + prefixLen a b else 0
  | _, _ => 0
  end.

(** ** Nibble strings *)
Definition nibble (n : Z) : Prop := 0 ≤ n < 16.
#[global] Instance nibble_dec n : Decision (nibble n).
Proof. unfold nibble. apply _. Defined.

(** A hex key: nibbles, then at most one terminator. *)
Definition hex_key (h : bytes) : Prop := ∃ ns, Forall nibble ns ∧ (h = ns ∨ h = ns ++ [16]).

Lemma pack_nibbles_eq n0 n1 : nibble n0 → nibble n1 → pack_nibbles n0 n1 = 16 * n0 + n1.
Proof.
  unfold nibble, pack_nibbles, u8. intros. rewrite Z.shiftl_mul_pow2, Z.mod_small by lia.
  assert (Z.land (n0 * 2 ^ 4) n1 = 0) as Hl.
  { rewrite <-Z.shiftl_mul_pow2 by lia. apply Z.bits_inj'. intros k Hk.
    rewrite Z.land_spec, Z.shiftl_spec, Z.bits_0 by lia.
    destruct (decide (k < 4)); [rewrite (Z.testbit_neg_r n0) by lia; done|].
    rewrite <-(Z.mod_small n1 (2 ^ 4)), Z.mod_pow2_bits_high, andb_false_r by lia. done. }
  pose proof (Z.add_lor_land (n0 * 2 ^ 4) n1). lia.
Qed.

Lemma odd_land n : bool_decide (Z.land n 1 = 1) = Z.odd n.
Proof.
  change (Z.land n 1) with (Z.land n (Z.ones 1)). rewrite Z.land_ones by lia.
  change (2 ^ 1) with 2. rewrite Zmod_odd. by destruct (Z.odd n).
Qed.

Lemma hasTerm_snoc ns : hasTerm (ns ++ [16]) = true.
Proof. unfold hasTerm. by rewrite last_snoc. Qed.
Lemma hasTerm_nibbles ns : Forall nibble ns → hasTerm ns = false.
Proof.
  intros HF. unfold hasTerm. apply bool_decide_eq_false. intros Hl.
  apply last_Some_elem_of in Hl. rewrite Forall_forall in HF. specialize (HF _ Hl). unfold nibble in HF. lia.
Qed.
Lemma take_snoc (ns : bytes) x : take (length (ns ++ [x]) - 1) (ns ++ [x]) = ns.
Proof. rewrite length_app, Nat.add_sub. apply take_app_length. Qed.

(** Both branches of the terminator test. *)
Lemma strip_term h ns :
  Forall nibble ns → (h = ns ∨ h = ns ++ [16]) →
  (if hasTerm h then take (length h - 1) h else h) = ns.
Proof. intros HF [->| ->]; [by rewrite hasTerm_nibbles|by rewrite hasTerm_snoc, take_snoc]. Qed.

(** ** What [decodeNibbles] and [nibbles_of] compute *)
Fixpoint pack_all (ns : bytes) : bytes :=
  match ns with
  | n0 :: n1 :: ns => pack_nibbles n0 n1 :: pack_all ns
  | _ => []
  end.

Lemma decodeNibbles_pack ns buf :
  length ns = (2 * length buf)%nat → decodeNibbles ns buf = Ret (pack_all ns).
Proof.
  revert ns. induction buf as [|x buf IH]; intros [|a [|b ns]] Hl; simpl in *; try (done || lia).
  rewrite IH by lia. done.
Qed.

Lemma decodeNibbles_half ns k m :
  length ns = (2 * k)%nat → m = (2 * k)%nat ∨ m = S (2 * k) →
  decodeNibbles ns (replicate (m / 2)%nat 0) = Ret (pack_all ns).
Proof.
  intros Hk Hm. apply decodeNibbles_pack. rewrite length_replicate, Hk. f_equal.
  destruct Hm as [->| ->]; [|replace (S (2 * k)) with (1 + k * 2)%nat by lia; by rewrite Nat.div_add by done].
  by rewrite (Nat.mul_comm 2), Nat.div_mul by done.
Qed.

Lemma length_nibbles_of bs : length (nibbles_of bs) = (2 * length bs)%nat.
Proof. induction bs; simpl; lia. Qed.
Lemma nibbles_of_nibble bs : Forall in_u8 bs → Forall nibble (nibbles_of bs).
Proof.
  induction 1 as [|b bs Hb Hbs IH]; simpl; repeat constructor; try done; unfold in_u8 in Hb.
  - apply Z.div_pos; lia.
  - apply Z.div_lt_upper_bound; lia.
  - apply Z.mod_pos_bound; lia.
  - apply Z.mod_pos_bound; lia.
Qed.
Lemma pack_nibbles_of bs : Forall in_u8 bs → pack_all (nibbles_of bs) = bs.
Proof.
  induction 1 as [|b bs Hb Hbs IH]; simpl; [done|]. rewrite IH. f_equal. unfold in_u8 in Hb.
  pose proof (Z.div_mod b 16). pose proof (Z.mod_pos_bound b 16).
  assert (b / 16 < 16) by (apply Z.div_lt_upper_bound; lia). assert (0 ≤ b / 16) by (apply Z.div_pos; lia).
  rewrite pack_nibbles_eq by (unfold nibble; lia). lia.
Qed.

(** An even string of nibbles is the string of some bytes. *)
Lemma nibbles_of_pack n ns :
  length ns = (2 * n)%nat → Forall nibble ns →
  nibbles_of (pack_all ns) = ns ∧ Forall in_u8 (pack_all ns).
Proof.
  revert ns. induction n as [|n IH]; intros [|a [|b ns]] Hl HF; simpl in *; try (done || lia).
  apply Forall_cons in HF as [Ha HF]. apply Forall_cons in HF as [Hb HF].
  destruct (IH ns) as [-> ?]; [lia|done|]. rewrite pack_nibbles_eq by done. unfold nibble in *. split.
  - f_equal; [|f_equal].
    + rewrite (Z.mul_comm 16), Z.div_add_l, Z.div_small by lia. lia.
    + by rewrite (Z.mul_comm 16), Z.add_comm, Z.mod_add, Z.mod_small by lia.
  - constructor; [unfold in_u8; lia|done].
Qed.

(** ** Round trips *)

(** An even string of nibbles is a key. *)
Lemma hexToKeybytes_even ns :
  Forall nibble ns → Nat.Even (length ns) →
  ∃ k, hexToKeybytes (ns ++ [16]) = Ret k ∧ keybytesToHex k = ns ++ [16] ∧ Forall in_u8 k.
Proof.
  intros HF [n Hn]. exists (pack_all ns). unfold hexToKeybytes, keybytesToHex.
  destruct (nibbles_of_pack n ns) as [-> ?]; [done..|]. split_and!; [|done..].
  rewrite (strip_term _ ns) by auto.
  assert (bool_decide (Z.land (len ns) 1 = 0) = true) as ->.
  { apply bool_decide_eq_true. change 1 with (Z.ones 1). rewrite Z.land_ones by lia.
    unfold len. rewrite Hn, Nat2Z.inj_mul, Z.mul_comm. apply Z.mod_mul. done. }
  simpl negb. by rewrite (decodeNibbles_half ns n) by auto.
Qed.

Lemma hexToKeybytes_keybytes str :
  Forall in_u8 str → hexToKeybytes (keybytesToHex str) = Ret str.
Proof.
  intros HF. unfold hexToKeybytes, keybytesToHex.
  destruct (hexToKeybytes_even (nibbles_of str)) as (k & Hk & He & Hu); [by apply nibbles_of_nibble| |].
  { exists (length str). apply length_nibbles_of. }
  unfold hexToKeybytes in Hk. rewrite Hk. f_equal. unfold keybytesToHex in He. apply app_inv_tail in He.
  rewrite <-(pack_nibbles_of k), He by done. by apply pack_nibbles_of.
Qed.

(** Keys survive the trip through their hex form, both ways: bytes
    converted to hex and back are the same bytes, and every even string of
    nibbles with its terminator is the hex form of the bytes it converts
    to. *)
Theorem keybytes_roundtrip :
  (∀ str, Forall in_u8 str → HexToKeybytes (keybytesToHex str) = Ret str) ∧
  (∀ ns, Forall nibble ns → Nat.Even (length ns) →
    ∃ k, HexToKeybytes (ns ++ [16]) = Ret k ∧ keybytesToHex k = ns ++ [16] ∧ Forall in_u8 k).
Proof. split; [apply hexToKeybytes_keybytes|apply hexToKeybytes_even]. Qed.

(** The parity of a string of nibbles, as the code tests it. *)
Lemma parity (ns : bytes) :
  (∃ k, length ns = (2 * k)%nat ∧ bool_decide (Z.land (len ns) 1 = 1) = false) ∨
  (∃ n ns' k, ns = n :: ns' ∧ length ns' = (2 * k)%nat ∧ bool_decide (Z.land (len ns) 1 = 1) = true).
Proof.
  rewrite odd_land. unfold len. destruct (Nat.Even_or_Odd (length ns)) as [[k Hk]|[k Hk]].
  - left. exists k. split; [done|]. rewrite Hk, Nat2Z.inj_mul, Z.odd_mul. done.
  - right. destruct ns as [|n ns]; simpl in Hk; [lia|]. exists n, ns, k. split_and!; [done|lia|].
    simpl length. replace (Z.of_nat (S (length ns))) with (2 * Z.of_nat k + 1) by lia. apply Z.odd_odd.
Qed.

(** [hexToCompact] on both parities. *)
Lemma hexToCompact_eq h ns :
  Forall nibble ns → (h = ns ∨ h = ns ++ [16]) →
  let t := if hasTerm h then 1 else 0 in
  hexToCompact h = Ret
    match bool_decide (Z.land (len ns) 1 = 1), ns with
    | true, n :: ns => pack_nibbles (2 * t + 1) n :: pack_all ns
    | _, _ => pack_nibbles (2 * t) 0 :: pack_all ns
    end.
Proof.
  intros HF Hh t. unfold hexToCompact. rewrite (strip_term _ _ HF Hh).
  destruct (parity ns) as [(k & Hk & ->)|(n & ns' & k & -> & Hk & ->)].
  - rewrite (decodeNibbles_half ns k) by auto. unfold t. destruct (hasTerm h), ns; done.
  - simpl drop. rewrite drop_0, (decodeNibbles_half ns' k) by (simpl; auto). unfold t. destruct (hasTerm h); done.
Qed.

Lemma compactToHex_cons b bs :
  compactToHex (b :: bs) =
    let base := b / 16 :: b `mod` 16 :: nibbles_of bs ++ (if bool_decide (b / 16 < 2) then [] else [16]) in
    drop (Z.to_nat (2 - Z.land (b / 16) 1)) base.
Proof.
  unfold compactToHex. rewrite bool_decide_false by (rewrite len_cons; pose proof (len_nonneg bs); lia).
  unfold keybytesToHex. simpl hd. case_bool_decide; [|done]. rewrite take_snoc. simpl. by rewrite app_nil_r.
Qed.

Lemma hexToCompact_inverse h :
  hex_key h → ∃ c, hexToCompact h = Ret c ∧ compactToHex c = h ∧ Forall in_u8 c.
Proof.
  intros (ns & HF & Hh). rewrite (hexToCompact_eq h ns) by done. eexists. split; [done|].
  assert (h = ns ++ (if hasTerm h then [16] else [])) as Hh'.
  { destruct Hh as [->| ->]; [rewrite hasTerm_nibbles, app_nil_r by done|rewrite hasTerm_snoc]; done. }
  set (t := hasTerm h) in *. clearbody t. subst h. clear Hh.
  destruct (parity ns) as [(k & Hk & ->)|(n & ns' & k & -> & Hk & ->)].
  - destruct (nibbles_of_pack k ns) as [Hp Hu]; [done..|].
    assert (∀ b, pack_nibbles (2 * (if t then 1 else 0)) 0 :: b = (if t then 32 else 0) :: b) as Hb by (by destruct t).
    assert (compactToHex ((if t then 32 else 0) :: pack_all ns) = ns ++ (if t then [16] else [])) as Hc.
    { rewrite compactToHex_cons, Hp. by destruct t. }
    destruct ns; rewrite Hb; (split; [done|constructor; [by destruct t|done]]).
  - apply Forall_cons in HF as [Hn HF]. destruct (nibbles_of_pack k ns') as [Hp Hu]; [done..|]. unfold nibble in Hn.
    rewrite pack_nibbles_eq by (unfold nibble; destruct t; lia).
    rewrite compactToHex_cons, Hp.
    assert ((16 * (2 * (if t then 1 else 0) + 1) + n) / 16 = 2 * (if t then 1 else 0) + 1) as ->.
    { rewrite (Z.mul_comm 16), Z.div_add_l, (Z.div_small n) by lia. lia. }
    assert ((16 * (2 * (if t then 1 else 0) + 1) + n) `mod` 16 = n) as ->.
    { by rewrite (Z.mul_comm 16), Z.add_comm, Z.mod_add, Z.mod_small by lia. }
    split; [by destruct t|]. constructor; [unfold in_u8; destruct t; lia|done].
Qed.

(** The compact form loses nothing: a hex key, with or without
    terminator and of either parity, is what reading its compact form back
    gives. *)
Theorem compact_roundtrip h :
  hex_key h → ∃ c, HexToCompact h = Ret c ∧ compactToHex c = h ∧ Forall in_u8 c.
Proof. apply hexToCompact_inverse. Qed.

(** [prefixLen] is the length of the longest common prefix. *)
Theorem prefixLen_spec a b :
  let n := Z.to_nat (prefixLen a b) in
  0 ≤ prefixLen a b ≤ Z.min (len a) (len b) ∧ take n a = take n b ∧
  ∀ x y, a !! n = Some x → b !! n = Some y → x ≠ y.
Proof.
  revert b. induction a as [|x a IH]; intros [|y b]; simpl; try (by split_and!; unfold len; simpl; try done; lia).
  rewrite !len_cons. case_bool_decide as E.
  - destruct (IH b) as (? & Ht & Hm). rewrite Z2Nat.inj_add by lia. change (Z.to_nat 1) with 1%nat. simpl.
    split_and!; [lia..|by rewrite E, Ht|done].
  - pose proof (len_nonneg a). pose proof (len_nonneg b). simpl. split_and!; try lia; [done|]. intros ? ? [= <-] [= <-]. done.
Qed.

(** ** The in-place variant *)

(** The loop writes the packed nibbles from [bi] on, and never over a nibble
    that is still to be read. *)
Lemma inPlace_loop_spec k : ∀ fuel buf bi ni,
  (k ≤ fuel)%nat → (bi ≤ ni + 1)%nat → (ni + 2 * k ≤ length buf)%nat →
  ∃ buf', inPlace_loop fuel buf (Z.of_nat (ni + 2 * k)) (Z.of_nat bi) (Z.of_nat ni) = Ret buf' ∧
    length buf' = length buf ∧ take bi buf' = take bi buf ∧
    take k (drop bi buf') = pack_all (take (2 * k) (drop ni buf)).
Proof.
  induction k as [|k IH]; intros fuel buf bi ni Hf Hb Hl.
  { exists buf. split_and!; [|done..|by rewrite take_0, Nat.mul_0_r].
    destruct fuel; cbn [inPlace_loop]; by rewrite bool_decide_false by lia. }
  destruct fuel as [|fuel]; [lia|]. cbn [inPlace_loop]. rewrite bool_decide_true by lia.
  destruct (lookup_lt_is_Some_2 buf ni) as [n0 H0]; [lia|].
  destruct (lookup_lt_is_Some_2 buf (ni + 1)) as [n1 H1]; [lia|].
  rewrite (go_index_ok buf (Z.of_nat ni) n0); [|lia|by rewrite Nat2Z.id]. simpl.
  rewrite (go_index_ok buf (Z.of_nat ni + 1) n1); [|lia|by replace (Z.to_nat (Z.of_nat ni + 1)) with (ni + 1)%nat by lia]. simpl.
  rewrite go_store_ok by (unfold len; lia). simpl. rewrite Nat2Z.id.
  set (b1 := <[bi := pack_nibbles n0 n1]> buf).
  replace (Z.of_nat (ni + S (k + S (k + 0)))) with (Z.of_nat ((ni + 2) + 2 * k)) by lia.
  replace (Z.of_nat bi + 1) with (Z.of_nat (bi + 1)) by lia.
  replace (Z.of_nat ni + 2) with (Z.of_nat (ni + 2)) by lia.
  destruct (IH fuel b1 (bi + 1)%nat (ni + 2)%nat) as (buf' & -> & Hlen & Ht & Hd);
    [lia|lia|unfold b1; rewrite length_insert; lia|].
  unfold b1 in *. rewrite length_insert in Hlen.
  assert (buf' !! bi = Some (pack_nibbles n0 n1)) as Hbi.
  { rewrite <-(lookup_take_lt _ (bi + 1)), Ht, lookup_take_lt by lia. apply list_lookup_insert_eq. lia. }
  exists buf'. split_and!; [done..| |].
  - apply list_eq. intros j. destruct (decide (j < bi)%nat); [|rewrite !lookup_take_ge by lia; done].
    rewrite !lookup_take_lt by lia. rewrite <-(lookup_take_lt buf' (bi + 1)), Ht by lia.
    rewrite lookup_take_lt, list_lookup_insert_ne by lia. done.
  - assert (∀ i, drop (ni + 2) (<[bi:=i]> buf) = drop (ni + 2) buf) as Hdi by (intros; apply drop_insert_lt; lia).
    rewrite Hdi in Hd. rewrite Nat.add_1_r in Hd, H1.
    rewrite (drop_S buf' _ bi Hbi), (drop_S buf _ ni H0), (drop_S buf _ (S ni) H1).
    replace (ni + 2)%nat with (S (S ni)) in Hd by lia.
    cbn [take]. replace (k + S (k + 0))%nat with (S (2 * k)) by lia. cbn [take pack_all]. by rewrite Hd.
Qed.

(** The first byte is written last. *)
Lemma store_first (buf : bytes) b k :
  buf ≠ [] → ∃ buf', go_store buf 0 b = Ret buf' ∧ length buf' = length buf ∧
    take (S k) buf' = b :: take k (drop 1 buf).
Proof. destruct buf as [|x buf]; intros; [done|]. exists (b :: buf). split_and!; [|done..]. by rewrite go_store_ok by (rewrite len_cons; pose proof (len_nonneg buf); lia). Qed.

(** The in-place routine the hasher uses computes the same compact key
    as the allocating one: for every non-empty buffer it comes back, and the
    first bytes of the buffer, as many as it reports, are the compact key. *)
Theorem hexToCompactInPlace_equiv hex :
  hex ≠ [] →
  ∃ buf n, hexToCompactInPlace hex = Ret (buf, n) ∧ length buf = length hex ∧
    0 ≤ n ≤ len hex ∧ hexToCompact hex = Ret (take (Z.to_nat n) buf).
Proof.
  intros Hne. unfold hexToCompactInPlace, hexToCompact.
  set (ns := if hasTerm hex then take (length hex - 1) hex else hex).
  assert (ns = take (length ns) hex) as Hns.
  { unfold ns. destruct (hasTerm hex); [rewrite length_take, Nat.min_l by lia; done|by rewrite firstn_all]. }
  assert ((if hasTerm hex then len hex - 1 else len hex) = len ns) as ->.
  { unfold ns, len. destruct (hasTerm hex); [|done]. rewrite length_take. destruct hex; [done|simpl; lia]. }
  assert (length ns ≤ length hex)%nat as Hle by (rewrite Hns, length_take; lia).
  assert (u8 (Z.shiftl (if hasTerm hex then 1 else 0) 5) = (if hasTerm hex then Z.shiftl 1 5 else 0)) as ->
    by (by destruct (hasTerm hex)).
  set (flag := if hasTerm hex then Z.shiftl 1 5 else 0).
  assert (∀ buf : bytes, length buf = length hex → buf ≠ []) as Hbuf by (intros [|] ?; destruct hex; done).
  assert (1 ≤ length hex)%nat as H1 by (destruct hex; simpl; [done|lia]).
  clearbody ns flag.
  destruct (parity ns) as [(k & Hk & ->)|(n & ns' & k & E & Hk & ->)].
  - destruct (inPlace_loop_spec k (length hex) hex 1 0) as (buf & Hl & Hlen & _ & Hp); [lia..|].
    destruct (store_first buf flag k) as (buf' & Hs & Hlen' & Ht); [by apply Hbuf|].
    replace (Z.of_nat (0 + 2 * k)) with (len ns) in Hl by (unfold len; lia).
    change (Z.of_nat 1) with 1 in Hl. change (Z.of_nat 0) with 0 in Hl. rewrite (decodeNibbles_half ns k) by auto. simpl.
    rewrite Hl. simpl. rewrite Hs. simpl. exists buf', (len ns / 2 + 1).
    replace (len ns / 2) with (Z.of_nat k)
      by (unfold len; rewrite Hk; apply (Z.div_unique _ 2 _ 0); lia).
    replace (Z.to_nat (Z.of_nat k + 1)) with (S k) by lia. rewrite Ht, Hp, drop_0, <-Hk, <-Hns.
    split_and!; [done|lia|unfold len; lia..|done].
  - assert (hex = n :: drop 1 hex ∧ take (2 * k) (drop 1 hex) = ns') as [Hh Hd].
    { rewrite E in Hns. destruct hex as [|h hex']; [done|]. simpl in Hns. injection Hns as -> Hns'.
      rewrite Hk in Hns'. simpl drop. by rewrite drop_0. }
    destruct (inPlace_loop_spec k (length hex) hex 1 1) as (buf & Hl & Hlen & _ & Hp); [rewrite E in Hle; simpl in Hle; lia..|].
    destruct (store_first buf (Z.lor (Z.lor flag (Z.shiftl 1 4)) n) k) as (buf' & Hs & Hlen' & Ht); [by apply Hbuf|].
    replace (Z.of_nat (1 + 2 * k)) with (len ns) in Hl by (unfold len; rewrite E; simpl; lia).
    change (Z.of_nat 1) with 1 in Hl. rewrite E in *. simpl drop.
    rewrite drop_0, (decodeNibbles_half ns' k) by (simpl; auto).
    rewrite (go_index_ok hex 0 n) by (done || by rewrite Hh). simpl. rewrite Hl. simpl. rewrite Hs. simpl.
    exists buf', (len (n :: ns') / 2 + 1).
    replace (len (n :: ns') / 2) with (Z.of_nat k)
      by (rewrite len_cons; unfold len; rewrite Hk; apply (Z.div_unique _ 2 _ 1); lia).
    replace (Z.to_nat (Z.of_nat k + 1)) with (S k) by lia. rewrite Ht, Hp, Hd.
    split_and!; [done|lia|unfold len; simpl in Hle; lia..|done].
Qed.

(** ** Witnesses *)
Lemma compact_roundtrip_witness :
  ∃ c, HexToCompact [15; 1; 12; 11; 8; 16] = Ret c ∧ compactToHex c = [15; 1; 12; 11; 8; 16] ∧ Forall in_u8 c.
Proof.
  apply (compact_roundtrip [15; 1; 12; 11; 8; 16]).
  exists [15; 1; 12; 11; 8]. split; [unfold nibble; repeat constructor; lia|by right].
Defined.

Lemma hexToCompactInPlace_equiv_witness :
  ∃ buf n, hexToCompactInPlace [1; 2; 3; 4; 16] = Ret (buf, n) ∧ length buf = 5%nat ∧
    0 ≤ n ≤ 5 ∧ hexToCompact [1; 2; 3; 4; 16] = Ret (take (Z.to_nat n) buf).
Proof. apply (hexToCompactInPlace_equiv [1; 2; 3; 4; 16]). discriminate. Defined.

(** The empty key has a compact form, but the in-place routine has no room
    for it. *)
Lemma hexToCompactInPlace_empty :
  hexToCompact [] = Ret [0] ∧ hexToCompactInPlace [] = Halt (GoPanic "index out of range").
Proof. split; reflexivity. Qed.
