(* ===== verification/Node.v ===== *)
(** * Trie nodes and their wire form (src/trie/node.go, node_enc.go).

    RLP is go-ethereum's package [rlp]: a class states the calls the code
    makes, another what the package documents about them.  Errors of the
    decoder are [None].  The cached hash and the dirty flag of a node, which
    none of these functions reads, are left out. *)
From S2P Require Import Prelude Utils Encoding.
Local Open Scope Z_scope.

(** ** Package [rlp] *)
Inductive rlp_kind := RByte | RString | RList.
#[global] Instance rlp_kind_eq_dec : EqDecision rlp_kind.
Proof. solve_decision. Defined.

Class RLP := {
  WriteBytes : bytes → bytes;       (* EncoderBuffer.WriteBytes *)
  WriteList : bytes → bytes;        (* List ... ListEnd around a payload *)
  EmptyString : bytes;
  Split : bytes → option (rlp_kind * bytes * bytes);
  SplitString : bytes → option (bytes * bytes);
  SplitList : bytes → option (bytes * bytes);
  CountValues : bytes → Z           (* 0 when it reports an error *)
}.

(** A single byte below 128 is its own encoding. *)
Definition string_kind (b : bytes) : rlp_kind :=
  match b with [x] => if bool_decide (x < 128) then RByte else RString | _ => RString end.

(** What the package can represent: bytes, and sizes that fit 64 bits. *)
Definition rlp_ok (b : bytes) : Prop := Forall in_u8 b ∧ len b < 2^64.

Inductive rlp_item `{RLP} : bytes → Prop :=
  | item_string b : rlp_ok b → rlp_item (WriteBytes b)
  | item_list p : rlp_ok p → rlp_item (WriteList p).

Class RLPLaws `{RLP} := {
  EmptyString_eq : EmptyString = WriteBytes [];
  Split_string : ∀ b r, rlp_ok b → Split (WriteBytes b ++ r) = Some (string_kind b, b, r);
  Split_list : ∀ p r, rlp_ok p → Split (WriteList p ++ r) = Some (RList, p, r);
  SplitString_string : ∀ b r, rlp_ok b → SplitString (WriteBytes b ++ r) = Some (b, r);
  SplitList_list : ∀ p r, rlp_ok p → SplitList (WriteList p ++ r) = Some (p, r);
  CountValues_items : ∀ l, Forall rlp_item l → CountValues (concat l) = len l;
  WriteList_longer : ∀ p, (length p < length (WriteList p))%nat;
  WriteList_u8 : ∀ p, rlp_ok p → Forall in_u8 (WriteList p);
  WriteBytes_u8 : ∀ b, rlp_ok b → Forall in_u8 (WriteBytes b)
}.

(** ** Nodes; [NilNode] is the nil interface value. *)
Inductive Node :=
  | NilNode
  | FullNode (Children : list Node)
  | ShortNode (Key : bytes) (Val : Node)
  | HashNode (h : bytes)
  | ValueNode (v : bytes).

Section node_ind.
Variable P : Node → Prop.
Hypothesis Hnil : P NilNode.
Hypothesis Hfull : ∀ cs, Forall P cs → P (FullNode cs).
Hypothesis Hshort : ∀ k v, P v → P (ShortNode k v).
Hypothesis Hhash : ∀ h, P (HashNode h).
Hypothesis Hvalue : ∀ v, P (ValueNode v).

Fixpoint Node_nested_ind (n : Node) : P n :=
  match n with
  | NilNode => Hnil
  | FullNode cs => Hfull cs ((fix go cs : Forall P cs := match cs with
                                | [] => Forall_nil_2 P
                                | c :: cs => Forall_cons_2 P c cs (Node_nested_ind c) (go cs)
                                end) cs)
  | ShortNode k v => Hshort k v (Node_nested_ind v)
  | HashNode h => Hhash h
  | ValueNode v => Hvalue v
  end.
End node_ind.

Section codec.
Context `{RLP}.

(** [encode]: the five methods of the interface; a nil child is written as
    the empty string. *)
Fixpoint encode (n : Node) : bytes :=
  match n with
  | NilNode => EmptyString
  | FullNode cs => WriteList (concat (map encode cs))
  | ShortNode key v => WriteList (WriteBytes key ++ encode v)
  | HashNode h => WriteBytes h
  | ValueNode v => WriteBytes v
  end.
Definition nodeToBytes (n : Node) : bytes := encode n.
Definition NodeToBytes (n : Node) : bytes := nodeToBytes n.

Definition hashLen : Z := 32.

(** [decodeRef]; [dec] is [decodeNode]. *)
Definition decodeRef (dec : bytes → option Node) (buf : bytes) : option (Node * bytes) :=
  '(kind, val, rest) ← Split buf;
  if bool_decide (kind = RList) then
    if bool_decide (len buf - len rest > hashLen) then None
    else n ← dec buf; Some (n, rest)
  else if bool_decide (kind = RString) && bool_decide (len val = 0) then Some (NilNode, rest)
  else if bool_decide (kind = RString) && bool_decide (len val = 32) then Some (HashNode val, rest)
  else None.

Definition decodeShort (dec : bytes → option Node) (elems : bytes) : option Node :=
  '(kbuf, rest) ← SplitString elems;
  let key := compactToHex kbuf in
  if hasTerm key then
    '(val, _) ← SplitString rest;
    Some (ShortNode key (ValueNode val))
  else
    '(r, _) ← decodeRef dec rest;
    Some (ShortNode key r).

(** The loop of [decodeFull]. *)
Fixpoint decode_children (dec : bytes → option Node) (n : nat) (elems : bytes) :
    option (list Node * bytes) :=
  match n with
  | O => Some ([], elems)
  | S n =>
      '(cld, rest) ← decodeRef dec elems;
      '(cs, rest) ← decode_children dec n rest;
      Some (cld :: cs, rest)
  end.

Definition decodeFull (dec : bytes → option Node) (elems : bytes) : option Node :=
  '(cs, elems) ← decode_children dec 16 elems;
  '(val, _) ← SplitString elems;
  Some (FullNode (cs ++ [if bool_decide (len val > 0) then ValueNode val else NilNode])).

(** [decodeNode]; [fuel] bounds the nesting of embedded nodes. *)
Fixpoint decodeNode (fuel : nat) (buf : bytes) : option Node :=
  match fuel with
  | O => None
  | S fuel =>
      if bool_decide (len buf = 0) then None
      else
        '(elems, _) ← SplitList buf;
        let c := CountValues elems in
        if bool_decide (c = 2) then decodeShort (decodeNode fuel) elems
        else if bool_decide (c = 17) then decodeFull (decodeNode fuel) elems
        else None
  end.

Definition MustDecodeNode (fuel : nat) (buf : bytes) : go Node :=
  match decodeNode fuel buf with
  | Some n => Ret n
  | None => Halt (GoPanic "node decode error")
  end.

(** ** Decoding inverts encoding *)

(** The form a node is encoded in: keys compact, children collapsed. *)
Definition compact_of (key : bytes) : bytes :=
  match hexToCompact key with Ret c => c | Halt _ => [] end.
Fixpoint collapse (n : Node) : Node :=
  match n with
  | FullNode cs => FullNode (map collapse cs)
  | ShortNode key v => ShortNode (compact_of key) (collapse v)
  | n => n
  end.
Definition wire (n : Node) : bytes := encode (collapse n).

(** Nesting of embedded nodes. *)
Fixpoint depth (n : Node) : nat :=
  match n with
  | FullNode cs => S (foldr (λ c d, max (depth c) d) 0%nat cs)
  | ShortNode _ v => S (depth v)
  | _ => 0%nat
  end.

Definition is_value (n : Node) : Prop := match n with ValueNode _ => True | _ => False end.
Definition is_slot (n : Node) : Prop :=
  match n with NilNode => True | ValueNode v => v ≠ [] | _ => False end.

(** Well-formed nodes, as the decoder produces them: a full node has sixteen
    references and a slot for a value, a short node a value below a
    terminated key and a reference below another.  A reference is nil, a hash
    of 32 bytes, or a node small enough to be embedded. *)
Fixpoint wf (n : Node) : Prop :=
  match n with
  | NilNode => True
  | HashNode h => Forall in_u8 h ∧ len h = 32
  | ValueNode v => rlp_ok v
  | FullNode cs =>
      rlp_ok (concat (map wire cs)) ∧
      (∃ cs' v, cs = cs' ++ [v] ∧ length cs' = 16%nat ∧ Forall (λ c, ¬ is_value c) cs' ∧ is_slot v) ∧
      foldr (λ c P, (wf c ∧ (depth c ≠ 0%nat → len (wire c) ≤ hashLen)) ∧ P) True cs
  | ShortNode key v =>
      hex_key key ∧ rlp_ok (compact_of key) ∧ rlp_ok (WriteBytes (compact_of key) ++ wire v) ∧
      (hasTerm key = true ↔ is_value v) ∧
      wf v ∧ (depth v ≠ 0%nat → len (wire v) ≤ hashLen)
  end.
Definition wf_node (n : Node) : Prop := wf n ∧ depth n ≠ 0%nat.

Context `{!RLPLaws}.

Lemma compact_of_hex key : hex_key key → compactToHex (compact_of key) = key.
Proof. intros (c & Hc & Hk & _)%hexToCompact_inverse. unfold compact_of. by rewrite Hc. Qed.

Lemma wf_children cs :
  foldr (λ c P, (wf c ∧ (depth c ≠ 0%nat → len (wire c) ≤ hashLen)) ∧ P) True cs →
  Forall (λ c, wf c ∧ (depth c ≠ 0%nat → len (wire c) ≤ hashLen)) cs.
Proof. induction cs as [|c cs IH]; simpl; [constructor|]. intros [? ?]. constructor; auto. Qed.

Lemma depth_children cs d :
  (foldr (λ c d, max (depth c) d) 0%nat cs ≤ d)%nat → Forall (λ c, (depth c ≤ d)%nat) cs.
Proof. induction cs as [|c cs IH]; simpl; intros; constructor; [lia|apply IH; lia]. Qed.

Lemma wire_full cs : wire (FullNode cs) = WriteList (concat (map wire cs)).
Proof. unfold wire. simpl. by rewrite map_map. Qed.

Lemma wire_item c : wf c → rlp_item (wire c).
Proof.
  destruct c as [|cs|k v|h|v].
  - intros _. unfold wire; simpl. rewrite EmptyString_eq. by apply item_string.
  - intros (Hp & _). rewrite wire_full. by apply item_list.
  - intros (_ & _ & Hp & _). by apply item_list.
  - intros [Hh Hl]. apply item_string. split; [done|lia].
  - intros Hv. by apply item_string.
Qed.

(** A reference is read back, and what follows it is left. *)
Lemma decodeRef_wire fuel c r :
  (wf c → depth c ≠ 0%nat → decodeNode fuel (wire c ++ r) = Some c) →
  wf c → (depth c ≠ 0%nat → len (wire c) ≤ hashLen) → ¬ is_value c →
  decodeRef (decodeNode fuel) (wire c ++ r) = Some (c, r).
Proof.
  intros Hdec Hwf Hsz Hv. unfold decodeRef.
  destruct c as [|cs|k v|h|v]; [| | | |by destruct Hv].
  - unfold wire; simpl. by rewrite EmptyString_eq, Split_string by done.
  - rewrite wire_full in *. rewrite Split_list by apply Hwf. simpl.
    rewrite bool_decide_false by (rewrite len_app; pose proof (Hsz ltac:(done)); lia).
    by rewrite Hdec.
  - change (wire (ShortNode k v)) with (WriteList (WriteBytes (compact_of k) ++ wire v)) in *.
    rewrite Split_list by apply Hwf. simpl.
    rewrite bool_decide_false by (rewrite len_app; pose proof (Hsz ltac:(done)); lia).
    by rewrite Hdec.
  - destruct Hwf as [Hu Hl]. unfold wire; simpl. rewrite Split_string by (split; [done|lia]). simpl.
    assert (string_kind h = RString) as -> by (by destruct h as [|? [|? ?]]).
    simpl. rewrite bool_decide_false by lia. by rewrite bool_decide_true by lia.
Qed.

Lemma decode_children_wire fuel cs r :
  Forall (λ c, ∀ r, decodeRef (decodeNode fuel) (wire c ++ r) = Some (c, r)) cs →
  decode_children (decodeNode fuel) (length cs) (concat (map wire cs) ++ r) = Some (cs, r).
Proof.
  induction 1 as [|c cs Hc _ IH]; simpl; [done|]. rewrite <-app_assoc, Hc. simpl. by rewrite IH.
Qed.

Lemma WriteList_nonempty p : WriteList p ≠ [].
Proof. intros Hp. pose proof (WriteList_longer p) as Hl. rewrite Hp in Hl. simpl in Hl. lia. Qed.

Lemma WriteList_len p r : len (WriteList p ++ r) ≠ 0.
Proof.
  pose proof (WriteList_nonempty p). destruct (WriteList p) as [|x l]; [done|].
  simpl. rewrite len_cons. pose proof (len_nonneg (l ++ r)). lia.
Qed.

Lemma decodeNode_wire n : wf n → depth n ≠ 0%nat →
  ∀ fuel r, (depth n ≤ fuel)%nat → decodeNode fuel (wire n ++ r) = Some n.
Proof.
  induction n as [|cs IH|k v IH|h|v] using Node_nested_ind; try done; intros Hwf _ [|fuel] r Hf;
    try (simpl in Hf; lia); cbn [decodeNode].
  - destruct Hwf as (Hp & (cs' & x & -> & Hlen & Hnv & Hx) & Hcs%wf_children).
    assert (Forall (λ c, (depth c ≤ fuel)%nat) (cs' ++ [x])) as Hd by (apply depth_children; simpl in Hf; lia).
    rewrite wire_full, bool_decide_false, SplitList_list by (done || apply WriteList_len). simpl.
    rewrite CountValues_items.
    2:{ apply Forall_map. eapply Forall_impl; [exact Hcs|]. intros c [? _]. by apply wire_item. }
    assert (len (map wire (cs' ++ [x])) = 17) as -> by (unfold len; rewrite length_map, length_app, Hlen; done).
    simpl.
    unfold decodeFull. rewrite map_app, concat_app. cbn [map concat]. rewrite <-Hlen at 1.
    apply Forall_app in Hcs as [Hcs Hx']. apply Forall_app in IH as [IH _]. apply Forall_app in Hd as [Hd _].
    rewrite decode_children_wire.
    + simpl. apply Forall_inv in Hx' as [Hx' _]. destruct x; try done; unfold wire; simpl.
      * rewrite EmptyString_eq, SplitString_string by done. done.
      * rewrite SplitString_string by done. simpl. rewrite bool_decide_true; [done|].
        destruct v; [done|]. rewrite len_cons. pose proof (len_nonneg v). lia.
    + rewrite Forall_forall in *. intros c Hc r'. destruct (Hcs c Hc) as [? ?].
      apply decodeRef_wire; [|done|done|by apply Hnv]. intros. apply IH; auto.
  - destruct Hwf as (Hk & Hc & Hp & Hv & Hwf & Hsz). simpl in Hf.
    change (wire (ShortNode k v)) with (WriteList (WriteBytes (compact_of k) ++ wire v)).
    rewrite bool_decide_false, SplitList_list by (done || apply WriteList_len). simpl.
    pose proof (CountValues_items [WriteBytes (compact_of k); wire v]) as Hcv. simpl in Hcv.
    rewrite app_nil_r in Hcv. rewrite Hcv.
    2:{ apply Forall_cons; split; [by apply item_string|]. apply Forall_singleton. by apply wire_item. }
    cbn. unfold decodeShort. rewrite SplitString_string by done. simpl. rewrite compact_of_hex by done.
    destruct (hasTerm k).
    + destruct v; try (by destruct Hv as [Hv _]; destruct Hv). unfold wire; simpl.
      rewrite <-(app_nil_r (WriteBytes v)), SplitString_string by done. done.
    + rewrite <-(app_nil_r (wire v)), decodeRef_wire; [done| |done..|].
      * intros ? ?. apply IH; [done..|lia].
      * intros Hiv. destruct Hv as [_ Hv]. by apply Hv in Hiv.
Qed.

(** Embedded nodes nest no deeper than the wire form is long. *)
Lemma depth_wire n : (depth n ≤ length (wire n))%nat.
Proof.
  induction n as [|cs IH|k v IH|h|v] using Node_nested_ind; try (simpl; lia).
  - rewrite wire_full. pose proof (WriteList_longer (concat (map wire cs))). cbn [depth].
    assert (foldr (λ c d, max (depth c) d) 0 cs ≤ length (concat (map wire cs)))%nat; [|lia].
    clear -IH. induction IH as [|c cs Hc _ IH]; [done|]. cbn [foldr map concat]. rewrite length_app. lia.
  - change (wire (ShortNode k v)) with (WriteList (WriteBytes (compact_of k) ++ wire v)).
    pose proof (WriteList_longer (WriteBytes (compact_of k) ++ wire v)). rewrite length_app in *. cbn [depth]. lia.
Qed.

(** C37. Decoding inverts encoding: every well-formed node, with embedded
    nodes nested to any depth, is read back from its wire form, whatever
    bytes follow. *)
Theorem node_roundtrip n fuel r :
  wf_node n → (depth n ≤ fuel)%nat → MustDecodeNode fuel (NodeToBytes (collapse n) ++ r) = Ret n.
Proof.
  intros [Hwf Hd] Hf. unfold MustDecodeNode. change (NodeToBytes (collapse n)) with (wire n).
  by rewrite decodeNode_wire.
Qed.
End codec.

(** ** A concrete codec

    The encoding the package documents, for the witnesses: lengths up to 55
    in the first byte, longer ones in as many bytes as they need. *)
Module DemoRLP.
Definition len_bytes (n : Z) : nat := Z.to_nat (Z.log2 n / 8 + 1).
Definition head (off n : Z) : bytes :=
  if bool_decide (n ≤ 55) then [off + n] else off + 55 + Z.of_nat (len_bytes n) :: be_bytes (len_bytes n) n.
Definition put_string (b : bytes) : bytes :=
  match string_kind b with RByte => b | _ => head 128 (len b) ++ b end.
Definition put_list (p : bytes) : bytes := head 192 (len p) ++ p.

(** The content after a first byte [x] of the family [off]. *)
Definition body (off x : Z) (rest : bytes) : bytes * bytes :=
  if bool_decide (x - off ≤ 55) then (take (Z.to_nat (x - off)) rest, drop (Z.to_nat (x - off)) rest)
  else
    let ll := Z.to_nat (x - off - 55) in
    let n := Z.to_nat (be_value (take ll rest)) in
    (take n (drop ll rest), drop n (drop ll rest)).
Definition split (buf : bytes) : option (rlp_kind * bytes * bytes) :=
  match buf with
  | [] => None
  | x :: rest =>
      if bool_decide (x < 128) then Some (RByte, [x], rest)
      else if bool_decide (x < 192) then Some (RString, (body 128 x rest).1, (body 128 x rest).2)
      else Some (RList, (body 192 x rest).1, (body 192 x rest).2)
  end.
Fixpoint count (fuel : nat) (buf : bytes) : Z :=
  match fuel, split buf with
  | S fuel, Some (_, _, rest) => 1 + count fuel rest
  | _, _ => 0
  end.

#[global] Instance demo_rlp : RLP := {
  WriteBytes := put_string;
  WriteList := put_list;
  EmptyString := [128];
  Split := split;
  SplitString b := match split b with Some (RList, _, _) => None | Some (_, c, r) => Some (c, r) | None => None end;
  SplitList b := match split b with Some (RList, c, r) => Some (c, r) | _ => None end;
  CountValues b := count (length b) b
}.

Lemma len_bytes_ok n : 55 < n < 2^64 → n < 2^(8 * Z.of_nat (len_bytes n)) ∧ (1 ≤ len_bytes n ≤ 8)%nat.
Proof.
  intros Hn. unfold len_bytes. pose proof (Z.log2_nonneg n). pose proof (Z.log2_lt_pow2 n 64).
  assert (0 ≤ Z.log2 n / 8 < 8) by (split; [apply Z.div_pos; lia|apply Z.div_lt_upper_bound; lia]).
  rewrite Z2Nat.id by lia. split; [|lia]. apply Z.log2_lt_pow2; [lia|].
  pose proof (Z.div_mod (Z.log2 n) 8). pose proof (Z.mod_pos_bound (Z.log2 n) 8). lia.
Qed.

(** The head of either family names its content. *)
Lemma head_body off b r :
  rlp_ok b → ∃ x h, head off (len b) = x :: h ∧ off ≤ x < off + 64 ∧ Forall in_u8 h ∧
    body off x (h ++ b ++ r) = (b, r).
Proof.
  intros [_ Hl]. unfold head, body. pose proof (len_nonneg b). case_bool_decide.
  - exists (off + len b), []. split_and!; [done|lia..|done|]. rewrite bool_decide_true by lia.
    replace (off + len b - off) with (len b) by lia. unfold len. rewrite Nat2Z.id. simpl.
    by rewrite take_app_length, drop_app_length.
  - destruct (len_bytes_ok (len b)) as [? ?]; [lia|]. set (ll := len_bytes (len b)) in *.
    eexists _, _. split_and!; [done|lia..|apply be_bytes_in_u8|]. rewrite bool_decide_false by lia.
    replace (Z.to_nat (off + 55 + Z.of_nat ll - off - 55)) with ll by lia.
    rewrite take_app_length', drop_app_length' by (by rewrite length_be_bytes).
    rewrite be_value_bytes, Z.mod_small by lia. unfold len. rewrite Nat2Z.id.
    by rewrite take_app_length, drop_app_length.
Qed.

Lemma split_list p r : rlp_ok p → split (put_list p ++ r) = Some (RList, p, r).
Proof.
  intros Hp. destruct (head_body 192 p r Hp) as (x & h & Hh & Hx & _ & Hb). unfold put_list.
  rewrite Hh, <-app_assoc. simpl. rewrite !bool_decide_false by lia. by rewrite Hb.
Qed.

Lemma split_string b r : rlp_ok b → split (put_string b ++ r) = Some (string_kind b, b, r).
Proof.
  intros Hp. destruct (head_body 128 b r Hp) as (x & h & Hh & Hx & _ & Hb). unfold put_string.
  destruct (string_kind b) eqn:E; [| |by destruct b as [|? [|? ?]]; simpl in E; repeat case_bool_decide].
  - destruct b as [|y [|? ?]]; try done. simpl in *. by case_bool_decide.
  - rewrite Hh, <-app_assoc. simpl. rewrite bool_decide_false, bool_decide_true by lia. by rewrite Hb.
Qed.

Lemma string_kind_list b : string_kind b ≠ RList.
Proof. destruct b as [|? [|? ?]]; simpl; try done. by case_bool_decide. Qed.

Lemma item_split b r : rlp_item b → ∃ k c, split (b ++ r) = Some (k, c, r).
Proof. intros [? ?|? ?]; simpl; rewrite ?split_string, ?split_list by done; eauto. Qed.

Lemma item_nonempty b : rlp_item b → b ≠ [].
Proof. intros Hb ->. destruct (item_split [] [] Hb) as (? & ? & Hs). done. Qed.

Lemma count_items l fuel : Forall rlp_item l → (length (concat l) ≤ fuel)%nat → count fuel (concat l) = len l.
Proof.
  intros HF. revert fuel. induction HF as [|b l Hb HF IH]; intros fuel Hf; simpl in *; [by destruct fuel|].
  destruct (item_split b (concat l) Hb) as (k & c & Hs). pose proof (item_nonempty b Hb).
  rewrite length_app in Hf. destruct b as [|x b]; [done|]. destruct fuel as [|fuel]; [simpl in Hf; lia|].
  cbn [count]. rewrite Hs, IH, len_cons by (simpl in Hf; lia). done.
Qed.

Lemma head_u8 off b : rlp_ok b → 0 ≤ off ≤ 192 → Forall in_u8 (head off (len b) ++ b).
Proof.
  intros Hb Hoff. destruct (head_body off b [] Hb) as (x & h & -> & Hx & Hh & _).
  apply Forall_app; split; [constructor; [unfold in_u8; lia|done]|apply Hb].
Qed.

#[global] Instance demo_rlp_laws : RLPLaws.
Proof.
  split; simpl.
  - done.
  - apply split_string.
  - apply split_list.
  - intros b r Hb. rewrite split_string by done. pose proof (string_kind_list b). by destruct (string_kind b).
  - intros p r Hp. by rewrite split_list.
  - intros l HF. by apply count_items.
  - intros p. unfold put_list, head. rewrite length_app. case_bool_decide; simpl; lia.
  - intros p Hp. by apply head_u8.
  - intros b Hb. unfold put_string. destruct (string_kind b); [apply Hb|by apply head_u8..].
Qed.

(** A leaf inside a full node, next to a hash. *)
Definition demo_leaf : Node := ShortNode [3; 16] (ValueNode [7; 200]).
Definition demo_full_node : Node :=
  FullNode ([demo_leaf; HashNode (replicate 32 9)] ++ replicate 14 NilNode ++ [NilNode]).
End DemoRLP.

Lemma rlp_ok_small b : forallb (λ x, bool_decide (0 ≤ x < 2^8)) b = true → len b < 2^64 → rlp_ok b.
Proof. intros Hb Hl. split; [|done]. apply Forall_forall. intros x Hx%list_elem_of_In. rewrite forallb_forall in Hb. by apply Hb, bool_decide_eq_true in Hx. Qed.

Lemma node_roundtrip_witness :
  MustDecodeNode 2 (NodeToBytes (collapse DemoRLP.demo_full_node) ++ [5]) = Ret DemoRLP.demo_full_node.
Proof.
  apply (node_roundtrip DemoRLP.demo_full_node 2 [5]); [|vm_compute; lia].
  split; [|vm_compute; done]. split_and!.
  - apply rlp_ok_small; vm_compute; reflexivity.
  - exists ([DemoRLP.demo_leaf; HashNode (replicate 32 9)] ++ replicate 14 NilNode), NilNode.
    split_and!; [reflexivity..| |exact I]. repeat constructor; intros [].
  - simpl. split_and!; try exact I; try (vm_compute; lia || done).
    all: try (apply rlp_ok_small; vm_compute; reflexivity).
    + exists [3]. split; [repeat constructor; unfold nibble; lia|by right].
Defined.
