(* ===== verification/Rebuild.v ===== *)
(** * The state root of a new block, from Merkle proofs
    (src/committee/worker.go: [analyseStates], [rebuildTrie],
    [rebuildHelper], [getCurrentKey]).

    A committee keeps no state.  From its shard it gets the accounts a block
    touches, each with the trie nodes on the path to it; it executes the
    block on the accounts and hashes the nodes anew, bottom up, which gives
    the root of the updated trie without having that trie.

    [hash2Node] maps hashes to pointers to decoded nodes, and
    [rebuildHelper] writes through them: the map is a store that the calls
    thread through, and a node reached twice is seen as the first visit left
    it. *)
From S2P Require Import Prelude Core Encoding Node.
Local Open Scope Z_scope.

Definition getCurrentKey (prefix nodeKey : bytes) : bytes := prefix ++ nodeKey.

(** [common.BytesToHash]: the last 32 bytes, padded on the left. *)
Definition BytesToHash (b : bytes) : bytes :=
  let b := drop (length b - 32) b in replicate (32 - length b) 0 ++ b.
Lemma BytesToHash_id b : length b = 32%nat → BytesToHash b = b.
Proof. intros Hb. unfold BytesToHash. by rewrite Hb, drop_0, Hb. Qed.

Section rebuild.
Context `{RLP}.
(** [utils.GetHash] and [rlp.EncodeToBytes]. *)
Variable GetHash : bytes → bytes.
Variable EncodeToBytes : StateAccount → option bytes.

Section helper.
Variable updatedStates : gmap bytes StateAccount.

(** [fullNode.Children[i] = x] through the pointer stored for [hash]. *)
Definition store_child (h2n : gmap bytes Node) (hash : bytes) (i : nat) (x : Node) :
    go (gmap bytes Node) :=
  match h2n !! hash with
  | Some (FullNode cs) => Ret (<[hash := FullNode (<[i := x]> cs)]> h2n)
  | _ => Halt (GoPanic "not a full node")
  end.

(** The key of the short node stored for [hash], as it is now. *)
Definition short_key (h2n : gmap bytes Node) (hash : bytes) : go bytes :=
  match h2n !! hash with
  | Some (ShortNode key _) => Ret key
  | _ => Halt (GoPanic "not a short node")
  end.

(** One iteration of the loop over the children of a full node; [rec] is
    [rebuildHelper]. *)
Definition visit_child (rec : bytes → gmap bytes Node → bytes → go (bytes * gmap bytes Node))
    (keyPrefix hash : bytes) (h2n : gmap bytes Node) (ic : nat * Node) : go (gmap bytes Node) :=
  match ic.2 with
  | NilNode => Ret h2n
  | HashNode childHash =>
      '(temp, h2n) ← rec childHash h2n (getCurrentKey keyPrefix [Z.of_nat ic.1]);
      store_child h2n hash ic.1 (HashNode temp)
  | _ => Halt (LogError "fullnode's not nil child is not of HashNode type?! why?")
  end.

(** [fuel] bounds the depth of the recursion. *)
Fixpoint rebuildHelper (fuel : nat) (hash : bytes) (hash2Node : gmap bytes Node)
    (keyPrefix : bytes) : go (bytes * gmap bytes Node) :=
  match fuel with
  | O => Halt (Blocked "fuel")
  | S fuel =>
      match hash2Node !! hash with
      | None => Ret (hash, hash2Node)
      | Some (FullNode children) =>
          h2n ← go_fold (visit_child (rebuildHelper fuel) keyPrefix hash) hash2Node (imap pair children);
          n ← deref (h2n !! hash);
          Ret (GetHash (NodeToBytes n), h2n)
      | Some (ShortNode key val) =>
          let curKey := getCurrentKey keyPrefix key in
          match val with
          | HashNode childHash =>
              '(temp, h2n) ← rebuildHelper fuel childHash hash2Node curKey;
              key ← short_key h2n hash;
              key ← HexToCompact key;
              let n := ShortNode key (HashNode temp) in
              Ret (GetHash (NodeToBytes n), <[hash := n]> h2n)
          | ValueNode v =>
              recoverAddressHash ← HexToKeybytes curKey;
              v ← match updatedStates !! recoverAddressHash with
                  | Some stateAccount => or_exit "rlp encode err" (EncodeToBytes stateAccount)
                  | None => Ret v
                  end;
              key ← HexToCompact key;
              let n := ShortNode key (ValueNode v) in
              Ret (GetHash (NodeToBytes n), <[hash := n]> hash2Node)
          | _ => Halt (LogError "shortnode's val unknown type")
          end
      | Some _ => Halt (LogError "unknown node type")
      end
  end.
End helper.

(** [rebuildTrie]; 65 levels are enough for keys of 32 bytes. *)
Definition rebuildTrie (fuel : nat) (trieRoot : bytes) (hash2Node : gmap bytes Node)
    (updatedStates : gmap bytes StateAccount) : go (bytes * gmap bytes Node) :=
  '(rootHash, hash2Node) ← rebuildHelper updatedStates fuel trieRoot hash2Node [];
  Ret (BytesToHash rootHash, hash2Node).

(** ** The trie the proofs are taken from

    An expanded trie: no hash nodes, every path to a value of the same
    length.  [ref] is what a parent stores for a node. *)
Fixpoint ref (n : Node) : Node :=
  match n with
  | FullNode cs => HashNode (GetHash (encode (FullNode (map ref cs))))
  | ShortNode k v => HashNode (GetHash (encode (ShortNode (compact_of k) (ref v))))
  | n => n
  end.
Definition nhash (n : Node) : bytes := match ref n with HashNode h => h | _ => [] end.
(** A node with its children replaced by references. *)
Definition flat (n : Node) : Node :=
  match n with
  | FullNode cs => FullNode (map ref cs)
  | ShortNode k v => ShortNode k (ref v)
  | n => n
  end.

(** [m] nibbles remain below the node. *)
Fixpoint wf_tree (n : Node) (m : nat) : Prop :=
  match n with
  | FullNode cs =>
      length cs = 17%nat ∧ (1 ≤ m)%nat ∧ cs !! 16%nat = Some NilNode ∧
      foldr (λ c P, (c = NilNode ∨ wf_tree c (m - 1)) ∧ P) True cs
  | ShortNode k (ValueNode _) => ∃ ns, k = ns ++ [16] ∧ Forall nibble ns ∧ length ns = m
  | ShortNode k v => Forall nibble k ∧ (1 ≤ length k ≤ m)%nat ∧ wf_tree v (m - length k)
  | _ => False
  end.

(** The value at a hex key. *)
Fixpoint tree_get (n : Node) (key : bytes) : option bytes :=
  match n with
  | FullNode cs =>
      match key with
      | k :: key => nth (Z.to_nat k) (map (λ c, tree_get c key) cs) None
      | [] => None
      end
  | ShortNode k (ValueNode v) => if decide (k = key) then Some v else None
  | ShortNode k v =>
      if decide (take (length k) key = k) then tree_get v (drop (length k) key) else None
  | _ => None
  end.

Section update.
Variable updatedStates : gmap bytes StateAccount.

(** What a value at the full key [key] becomes. *)
Definition new_value (key v : bytes) : bytes :=
  match hexToKeybytes key with
  | Ret k => match updatedStates !! k with
             | Some a => default v (EncodeToBytes a)
             | None => v
             end
  | Halt _ => v
  end.

(** The updated trie. *)
Fixpoint upd_tree (p : bytes) (n : Node) : Node :=
  match n with
  | FullNode cs =>
      FullNode ((fix go i cs := match cs with
                   | [] => []
                   | c :: cs => upd_tree (p ++ [Z.of_nat i]) c :: go (S i) cs
                   end) 0%nat cs)
  | ShortNode k (ValueNode v) => ShortNode k (ValueNode (new_value (p ++ k) v))
  | ShortNode k v => ShortNode k (upd_tree (p ++ k) v)
  | n => n
  end.
Definition upd_children (p : bytes) : nat → list Node → list Node :=
  fix go i cs := match cs with
                 | [] => []
                 | c :: cs => upd_tree (p ++ [Z.of_nat i]) c :: go (S i) cs
                 end.

(** The hashes of the recorded nodes, from the root down. *)
Fixpoint visited (h2n : gmap bytes Node) (n : Node) : list bytes :=
  match n with
  | FullNode cs =>
      match h2n !! nhash n with Some _ => nhash n :: concat (map (visited h2n) cs) | None => [] end
  | ShortNode k v =>
      match h2n !! nhash n with Some _ => nhash n :: visited h2n v | None => [] end
  | _ => []
  end.

(** The store holds decoded nodes of the trie, and misses a node only where
    nothing below it is to be updated. *)
Fixpoint recorded (h2n : gmap bytes Node) (p : bytes) (n : Node) : Prop :=
  match n with
  | FullNode cs =>
      match h2n !! nhash n with
      | None => upd_tree p n = n
      | Some m => m = flat n ∧
          (fix go i cs := match cs with
                          | [] => True
                          | c :: cs => recorded h2n (p ++ [Z.of_nat i]) c ∧ go (S i) cs
                          end) 0%nat cs
      end
  | ShortNode k v =>
      match h2n !! nhash n with
      | None => upd_tree p n = n
      | Some m => m = flat n ∧ recorded h2n (p ++ k) v
      end
  | _ => True
  end.
Definition recorded_children (h2n : gmap bytes Node) (p : bytes) : nat → list Node → Prop :=
  fix go i cs := match cs with
                 | [] => True
                 | c :: cs => recorded h2n (p ++ [Z.of_nat i]) c ∧ go (S i) cs
                 end.

(** ** Facts about the trie *)
Lemma wf_tree_children m cs :
  foldr (λ c P, (c = NilNode ∨ wf_tree c m) ∧ P) True cs ↔ Forall (λ c, c = NilNode ∨ wf_tree c m) cs.
Proof. induction cs as [|c cs IH]; cbn [foldr]; [by rewrite Forall_nil|]. by rewrite Forall_cons, IH. Qed.

Lemma upd_tree_full p cs : upd_tree p (FullNode cs) = FullNode (upd_children p 0 cs).
Proof. done. Qed.

(** Inner nodes are referred to by their hash, before and after. *)
Lemma wf_tree_ref n m p :
  wf_tree n m → ref n = HashNode (nhash n) ∧ ref (upd_tree p n) = HashNode (nhash (upd_tree p n)).
Proof. destruct n as [|cs|k v|h|v]; try done. intros _. split; [done|]. by destruct v. Qed.

Lemma is_value_dec v : (∃ x, v = ValueNode x) ∨ ¬ is_value v.
Proof. destruct v; try (right; by intros ?). left. eauto. Qed.

Lemma wf_tree_short k v m :
  wf_tree (ShortNode k v) m →
  (∃ x ns, v = ValueNode x ∧ k = ns ++ [16] ∧ Forall nibble ns ∧ length ns = m) ∨
  (¬ is_value v ∧ Forall nibble k ∧ (1 ≤ length k ≤ m)%nat ∧ wf_tree v (m - length k)).
Proof.
  destruct v as [|cs|k' v'|h|x]; intros Hw;
    [right; destruct Hw as (? & [? ?] & ?); split_and!; [by intros ?|done..]..|].
  left. destruct Hw as (ns & ? & ? & ?). by exists x, ns.
Qed.

Lemma upd_tree_short p k v :
  ¬ is_value v → upd_tree p (ShortNode k v) = ShortNode k (upd_tree (p ++ k) v).
Proof. by destruct v. Qed.

Lemma visited_Some h2n n x : x ∈ visited h2n n → is_Some (h2n !! x).
Proof.
  induction n as [|cs IH|k v IH|h|v] using Node_nested_ind; cbn [visited]; try (by intros ?%elem_of_nil).
  - destruct (h2n !! nhash _) eqn:E; [|by intros ?%elem_of_nil]. intros [->|Hin]%elem_of_cons; [eauto|].
    apply elem_of_concat_map in Hin as (c & Hc & Hx).
    rewrite Forall_forall in IH. eauto.
  - destruct (h2n !! nhash _) eqn:E; [|by intros ?%elem_of_nil]. intros [->|Hin]%elem_of_cons; eauto.
Qed.

(** A change elsewhere in the store does not matter to a subtree. *)
Lemma recorded_frame h2n h2n' n :
  (∀ x, x ∈ visited h2n n ∨ h2n !! x = None → h2n' !! x = h2n !! x) →
  visited h2n' n = visited h2n n ∧ ∀ p, recorded h2n p n → recorded h2n' p n.
Proof.
  induction n as [|cs IH|k v IH|h|v] using Node_nested_ind; try done; intros Hag.
  - cbn [visited recorded] in *. destruct (h2n !! nhash (FullNode cs)) eqn:E.
    + rewrite (Hag (nhash (FullNode cs))), E by (left; by left).
      assert (Forall (λ c, visited h2n' c = visited h2n c ∧ ∀ p, recorded h2n p c → recorded h2n' p c) cs) as HF.
      { rewrite Forall_forall in *. intros c Hc. apply IH; [done|]. intros x [Hx|Hx]; [|by apply Hag; right].
        apply Hag. left. right. apply elem_of_concat_map. eauto. }
      split.
      * f_equal. f_equal. apply map_ext_Forall. eapply Forall_impl; [exact HF|]. by intros c [? _].
      * intros p [-> Hr]. split; [done|].
        change (recorded_children h2n p 0 cs) in Hr. change (recorded_children h2n' p 0 cs).
        revert Hr. generalize 0%nat as i. clear -HF.
        induction HF as [|c cs [_ Hc] _ IH]; intros i; [done|]. intros [? ?]. split; [auto|by apply IH].
    + by rewrite (Hag (nhash (FullNode cs))), E by (by right).
  - cbn [visited recorded] in *. destruct (h2n !! nhash (ShortNode k v)) eqn:E.
    + rewrite (Hag (nhash (ShortNode k v))), E by (left; by left).
      destruct IH as [-> Hr]; [intros x [?|?]; apply Hag; [left; by right|by right]|].
      split; [done|]. intros p [? ?]. auto.
    + by rewrite (Hag (nhash (ShortNode k v))), E by (by right).
Qed.

(** ** What a visit computes *)

(** The accounts can be encoded. *)
Hypothesis encodable : ∀ k a, updatedStates !! k = Some a → is_Some (EncodeToBytes a).

(** A visit of [n] at [p] hashes the updated subtree, and touches only the
    entries of its own nodes. *)
Definition rebuilds (fuel : nat) (n : Node) : Prop :=
  ∀ m p h2n, wf_tree n m → Forall nibble p → Nat.Even (length p + m) →
    recorded h2n p n → NoDup (visited h2n n) →
    ∃ h2n', rebuildHelper updatedStates fuel (nhash n) h2n p = Ret (nhash (upd_tree p n), h2n') ∧
      ∀ x, x ∉ visited h2n n → h2n' !! x = h2n !! x.

Lemma rebuild_children fuel hash p m cs : ∀ i h2n done,
  h2n !! hash = Some (FullNode (done ++ map ref cs)) → length done = i →
  (∀ j c, cs !! j = Some c → c ≠ NilNode → (i + j < 16)%nat) →
  Forall (rebuilds fuel) cs → Forall (λ c, c = NilNode ∨ wf_tree c m) cs →
  Forall nibble p → Nat.Even (length p + S m) →
  recorded_children h2n p i cs → NoDup (concat (map (visited h2n) cs)) →
  hash ∉ concat (map (visited h2n) cs) →
  ∃ h2n', go_fold (visit_child (rebuildHelper updatedStates fuel) p hash)
      h2n (imap (λ j c, ((i + j)%nat, c)) (map ref cs)) = Ret h2n' ∧
    h2n' !! hash = Some (FullNode (done ++ map ref (upd_children p i cs))) ∧
    ∀ x, x ≠ hash → x ∉ concat (map (visited h2n) cs) → h2n' !! x = h2n !! x.
Proof.
  induction cs as [|c cs IHcs]; intros i h2n done Hh Hi H16 HR HW Hp He Hrec Hnd Hni.
  { exists h2n. by split_and!. }
  apply Forall_cons in HR as [HRc HR]. apply Forall_cons in HW as [HWc HW].
  destruct Hrec as [Hrc Hrec]. cbn [map concat] in *. apply NoDup_app in Hnd as (Hndc & Hdisj & Hnd).
  rewrite not_elem_of_app in Hni. destruct Hni as [Hnic Hni].
  rewrite imap_cons, Nat.add_0_r. cbn [go_fold].
  rewrite (imap_ext _ (λ j c, ((S i + j)%nat, c))) by (intros; simpl; f_equal; lia).
  assert (∀ j c', cs !! j = Some c' → c' ≠ NilNode → (S i + j < 16)%nat) as H16'.
  { intros j c' Hj Hc'. specialize (H16 (S j) c' Hj Hc'). lia. }
  (* the next index, from a store that differs at the nodes of [c] only *)
  assert (∀ h2n1 x, h2n1 !! hash = Some (FullNode ((done ++ [x]) ++ map ref cs)) →
    (∀ y, y ≠ hash → y ∉ visited h2n c → h2n1 !! y = h2n !! y) →
    recorded_children h2n1 p (S i) cs ∧ map (visited h2n1) cs = map (visited h2n) cs) as Hnext.
  { intros h2n1 x Hx Hag.
    assert (Forall (λ c', visited h2n1 c' = visited h2n c' ∧ ∀ q, recorded h2n q c' → recorded h2n1 q c') cs) as HF.
    { apply Forall_forall. intros c' Hc'. apply recorded_frame. intros y Hy. apply Hag.
      - intros ->. destruct Hy as [Hy|Hy]; [|congruence]. apply Hni, elem_of_concat_map. eauto.
      - destruct Hy as [Hy|Hy]; [|intros [? ?]%visited_Some; congruence].
        intros Hyc. apply (Hdisj y Hyc), elem_of_concat_map. eauto. }
    split; [|apply map_ext_Forall; eapply Forall_impl; [exact HF|by intros ? [? _]]].
    revert Hrec. generalize (S i) as k. clear -HF. induction HF as [|c' cs [_ Hc] _ IH]; intros k; [done|].
    intros [? ?]. split; [auto|by apply IH]. }
  destruct HWc as [->|HWc].
  - cbn [ref] in *. unfold visit_child at 1. simpl mbind. destruct (Hnext h2n NilNode) as [Hr Hv]; [by rewrite <-app_assoc|done|].
    destruct (IHcs (S i) h2n (done ++ [NilNode])) as (h2n' & Hf & Hh' & Hfr);
      [by rewrite <-app_assoc|rewrite length_app; simpl; lia|done..|].
    exists h2n'. split_and!; [done| |done]. rewrite Hh', <-app_assoc. done.
  - destruct (wf_tree_ref c m (p ++ [Z.of_nat i]) HWc) as [Href Href'].
    assert (i < 16)%nat as Hi16 by (specialize (H16 0%nat c eq_refl); rewrite Nat.add_0_r in H16; apply H16; by intros ->).
    destruct (HRc m (p ++ [Z.of_nat i]) h2n) as (h2n1 & Hrun & Hfr1); try done.
    { apply Forall_app; split; [done|]. repeat constructor; lia. }
    { rewrite length_app. simpl. by replace (length p + 1 + m)%nat with (length p + S m)%nat by lia. }
    set (x := HashNode (nhash (upd_tree (p ++ [Z.of_nat i]) c))) in *.
    assert (<[i:=x]> (done ++ map ref (c :: cs)) = (done ++ [x]) ++ map ref cs) as Hins.
    { rewrite <-app_assoc. rewrite insert_app_r_alt, Hi, Nat.sub_diag by lia. done. }
    set (h2n2 := <[hash := FullNode ((done ++ [x]) ++ map ref cs)]> h2n1).
    assert (visit_child (rebuildHelper updatedStates fuel) p hash h2n (i, ref c) = Ret h2n2) as ->.
    { unfold visit_child, getCurrentKey. cbn [fst snd]. rewrite Href, Hrun. simpl mbind.
      unfold store_child. rewrite Hfr1, Hh by done. cbn [map] in Hins. fold x. by rewrite Hins. }
    simpl mbind.
    assert (h2n2 !! hash = Some (FullNode ((done ++ [x]) ++ map ref cs))) as Hh2 by apply lookup_insert_eq.
    assert (∀ y, y ≠ hash → y ∉ visited h2n c → h2n2 !! y = h2n !! y) as Hag2.
    { intros y Hy1 Hy2. unfold h2n2. by rewrite lookup_insert_ne, Hfr1. }
    destruct (Hnext h2n2 x Hh2 Hag2) as [Hr Hv].
    destruct (IHcs (S i) h2n2 (done ++ [x])) as (h2n' & Hf & Hh' & Hfr); try done.
    { rewrite length_app; simpl; lia. } { by rewrite Hv. } { by rewrite Hv. }
    exists h2n'. split_and!; [done| |].
    + rewrite Hh', <-app_assoc. cbn [upd_children map]. by rewrite Href'.
    + intros y Hy1 [Hy2 Hy3]%not_elem_of_app. rewrite Hfr by (rewrite ?Hv; done). by apply Hag2.
Qed.

Lemma slot16_nil cs :
  length cs = 17%nat → cs !! 16%nat = Some NilNode →
  ∀ j c, cs !! j = Some c → c ≠ NilNode → (0 + j < 16)%nat.
Proof.
  intros Hl H16 j c Hj Hc. pose proof (lookup_lt_Some _ _ _ Hj).
  destruct (decide (j = 16%nat)) as [->|]; [congruence|lia].
Qed.

Lemma HexToCompact_compact k : hex_key k → HexToCompact k = Ret (compact_of k).
Proof. intros (c & Hc & _)%hexToCompact_inverse. unfold compact_of, HexToCompact. by rewrite Hc. Qed.

(** The value written into a leaf. *)
Lemma leaf_value q v :
  Forall nibble q → Nat.Even (length q) →
  ∃ k, HexToKeybytes (q ++ [16]) = Ret k ∧
    match updatedStates !! k with
    | Some a => or_exit "rlp encode err" (EncodeToBytes a)
    | None => Ret v
    end = Ret (new_value (q ++ [16]) v).
Proof.
  intros Hq He. destruct (hexToKeybytes_even q Hq He) as (k & Hk & _). exists k. split; [done|].
  unfold new_value. rewrite Hk. destruct (updatedStates !! k) as [a|] eqn:Ha; [|done].
  destruct (encodable k a Ha) as [e ->]. done.
Qed.

Lemma rebuilds_leaf fuel ns v : rebuilds (S fuel) (ShortNode (ns ++ [16]) (ValueNode v)).
Proof.
  intros m p h2n Hwf Hp He Hrec Hnd. set (n := ShortNode _ _) in *. cbn [rebuildHelper].
  destruct Hwf as (ns' & Heq & HF & Hm). apply app_inv_tail in Heq as <-.
  destruct (h2n !! nhash n) as [m'|] eqn:Em.
  - unfold n in Hrec. cbn [recorded] in Hrec. fold n in Hrec. rewrite Em in Hrec. destruct Hrec as [-> _].
    cbn [flat n ref]. unfold getCurrentKey. rewrite app_assoc.
    destruct (leaf_value (p ++ ns) v) as (k & -> & Hv); [by apply Forall_app|by rewrite length_app, Hm|].
    simpl mbind. rewrite Hv. simpl mbind. rewrite HexToCompact_compact by (exists ns; auto). simpl mbind.
    eexists. split; [cbn [upd_tree n]; by rewrite app_assoc|]. intros x Hx. apply lookup_insert_ne.
    intros <-. apply Hx. unfold n. cbn [visited]. fold n. rewrite Em. by left.
  - unfold n in Hrec. cbn [recorded] in Hrec. fold n in Hrec. rewrite Em in Hrec. rewrite Hrec. eauto.
Qed.

Lemma rebuilds_ext fuel k v : ¬ is_value v → rebuilds fuel v → rebuilds (S fuel) (ShortNode k v).
Proof.
  intros Hv IH m p h2n Hwf Hp He Hrec Hnd. set (n := ShortNode k v) in *. cbn [rebuildHelper].
  apply wf_tree_short in Hwf as [(x & ns & -> & _)|(_ & Hk & Hle & Hw)]; [by destruct Hv|].
  assert (visited h2n n = match h2n !! nhash n with Some _ => nhash n :: visited h2n v | None => [] end) as Hvis by done.
  destruct (h2n !! nhash n) as [m'|] eqn:Em.
  - unfold n in Hrec. cbn [recorded] in Hrec. fold n in Hrec. rewrite Em in Hrec. destruct Hrec as [-> Hrec].
    destruct (wf_tree_ref v _ (p ++ k) Hw) as [Href Href']. cbn [flat n]. rewrite Href.
    rewrite Hvis in *. apply NoDup_cons in Hnd as [Hni Hnd].
    destruct (IH (m - length k)%nat (p ++ k) h2n) as (h2n1 & Hrun & Hfr); try done.
    { by apply Forall_app. } { rewrite length_app. by replace (length p + length k + (m - length k))%nat with (length p + m)%nat by lia. }
    unfold getCurrentKey. rewrite Hrun. simpl mbind. unfold short_key. rewrite Hfr, Em by done. cbn [flat n].
    simpl mbind. rewrite HexToCompact_compact by (exists k; auto). simpl mbind.
    eexists. split.
    { assert (nhash (upd_tree p n) = GetHash (encode (ShortNode (compact_of k) (ref (upd_tree (p ++ k) v))))) as ->
        by (unfold n; by rewrite upd_tree_short). by rewrite Href'. }
    intros x [Hx1 Hx2]%not_elem_of_cons. rewrite lookup_insert_ne by done. by apply Hfr.
  - unfold n in Hrec. cbn [recorded] in Hrec. fold n in Hrec. rewrite Em in Hrec. rewrite Hrec. eauto.
Qed.

Lemma rebuilds_full fuel cs : Forall (rebuilds fuel) cs → rebuilds (S fuel) (FullNode cs).
Proof.
  intros IH m p h2n Hwf Hp He Hrec Hnd. set (n := FullNode cs) in *. cbn [rebuildHelper].
  destruct Hwf as (Hlen & Hm & H16 & Hcs%wf_tree_children).
  assert (visited h2n n = match h2n !! nhash n with Some _ => nhash n :: concat (map (visited h2n) cs) | None => [] end) as Hvis by done.
  destruct (h2n !! nhash n) as [m'|] eqn:Em.
  - unfold n in Hrec. cbn [recorded] in Hrec. fold n in Hrec. rewrite Em in Hrec. destruct Hrec as [-> Hrec].
    rewrite Hvis in *. apply NoDup_cons in Hnd as [Hni Hnd].
    destruct (rebuild_children fuel (nhash n) p (m - 1) cs 0 h2n []) as (h2n' & Hrun & Hh' & Hfr); try done.
    { by apply slot16_nil. } { by replace (S (m - 1)) with m by lia. }
    cbn [flat n]. change (imap (λ j c, ((0 + j)%nat, c)) (map ref cs)) with (imap pair (map ref cs)) in Hrun.
    rewrite Hrun. simpl mbind. rewrite Hh'. simpl mbind. exists h2n'. split; [done|].
    intros x [Hx1 Hx2]%not_elem_of_cons. by apply Hfr.
  - unfold n in Hrec. cbn [recorded] in Hrec. fold n in Hrec. rewrite Em in Hrec. rewrite Hrec. eauto.
Qed.

Lemma rebuilds_all n : ∀ fuel, (depth n ≤ fuel)%nat → rebuilds fuel n.
Proof.
  induction n as [|cs IH|k v IH|h|v] using Node_nested_ind; intros [|fuel] Hd; try (by intros m p h2n []);
    cbn [depth] in Hd; try lia.
  - apply rebuilds_full. pose proof (depth_children cs fuel ltac:(lia)) as Hcs. rewrite Forall_forall in *. auto.
  - destruct v as [|cs|k' v'|h|x].
    all: try (apply rebuilds_ext; [by intros ?|apply IH; lia]).
    intros m p h2n Hwf. pose proof Hwf as (ns & -> & _). by apply rebuilds_leaf.
Qed.

(** ** The updated trie *)
Lemma length_upd_children p i cs : length (upd_children p i cs) = length cs.
Proof. revert i. induction cs; intros i; simpl; auto. Qed.
Lemma lookup_upd_children p i cs j :
  upd_children p i cs !! j = upd_tree (p ++ [Z.of_nat (i + j)]) <$> cs !! j.
Proof.
  revert i j. induction cs as [|c cs IH]; intros i [|j]; simpl; try done.
  - by rewrite Nat.add_0_r.
  - rewrite IH. by replace (S i + j)%nat with (i + S j)%nat by lia.
Qed.

Lemma tree_get_full cs k key :
  tree_get (FullNode cs) (k :: key) = cs !! Z.to_nat k ≫= λ c, tree_get c key.
Proof.
  cbn [tree_get]. destruct (cs !! Z.to_nat k) as [c|] eqn:E; simpl.
  - apply nth_lookup_Some. by rewrite list_lookup_fmap, E || rewrite lookup_map, E.
  - apply nth_overflow. rewrite length_map. by apply lookup_ge_None.
Qed.

Lemma tree_get_ext k v key :
  ¬ is_value v →
  tree_get (ShortNode k v) key =
    if decide (take (length k) key = k) then tree_get v (drop (length k) key) else None.
Proof. by destruct v. Qed.

(** Updating changes the values, and only those, by [new_value]. *)
Lemma upd_tree_get n : ∀ p key, Forall in_u8 key →
  tree_get (upd_tree p n) key = new_value (p ++ key) <$> tree_get n key.
Proof.
  induction n as [|cs IH|k v IH|h|v] using Node_nested_ind; intros p key Hu; try done.
  - rewrite upd_tree_full. destruct key as [|x key]; [done|]. rewrite !tree_get_full, lookup_upd_children.
    apply Forall_cons in Hu as [Hx Hu]. unfold in_u8 in Hx.
    destruct (cs !! Z.to_nat x) as [c|] eqn:E; [|done]. simpl. rewrite Z2Nat.id by lia.
    rewrite Forall_lookup in IH. rewrite (IH _ _ E) by done. by rewrite <-app_assoc.
  - destruct (is_value_dec v) as [[x ->]|Hv].
    + simpl. by case_decide; subst.
    + rewrite upd_tree_short, !tree_get_ext by (done || by destruct v as [| |? []| |]).
      case_decide as Ht; [|done]. rewrite IH by (by apply Forall_drop). rewrite <-app_assoc.
      by rewrite <-Ht at 1; rewrite take_drop.
Qed.

Lemma upd_tree_wf n : ∀ p m, wf_tree n m → wf_tree (upd_tree p n) m.
Proof.
  induction n as [|cs IH|k v IH|h|v] using Node_nested_ind; intros p m Hwf; try done.
  - destruct Hwf as (Hl & Hm & H16 & Hcs%wf_tree_children). rewrite upd_tree_full. cbn [wf_tree].
    rewrite length_upd_children, lookup_upd_children, H16. split_and!; [done..|].
    apply wf_tree_children. rewrite Forall_lookup in *. intros j c'. rewrite lookup_upd_children.
    intros (c & Hc & ->)%fmap_Some. destruct (Hcs _ _ Hc) as [->|Hw]; [by left|right; eauto].
  - destruct (wf_tree_short _ _ _ Hwf) as [(x & ns & -> & Hk & HF & Hl)|(Hv & HF & Hl & Hw)].
    + simpl. eauto.
    + rewrite upd_tree_short by done. specialize (IH (p ++ k) _ Hw).
      destruct (upd_tree (p ++ k) v) eqn:E; try done; by split_and!.
Qed.

Lemma wf_tree_depth n : ∀ m, wf_tree n m → (depth n ≤ S m)%nat.
Proof.
  induction n as [|cs IH|k v IH|h|v] using Node_nested_ind; intros m Hwf; try done.
  - destruct Hwf as (_ & Hm & _ & Hcs%wf_tree_children). cbn [depth]. apply le_n_S.
    induction cs as [|c cs IHcs]; cbn [foldr]; [lia|]. apply Forall_cons in IH as [IHc IH].
    apply Forall_cons in Hcs as [Hc Hcs]. apply Nat.max_lub; [|by apply IHcs].
    destruct Hc as [->|Hc]; [simpl; lia|]. apply IHc in Hc. lia.
  - apply wf_tree_short in Hwf as [(x & ns & -> & _)|(_ & _ & Hl & Hw)]; [simpl; lia|].
    apply IH in Hw. cbn [depth]. lia.
Qed.

(** The values sit at full keys. *)
Lemma tree_get_key n : ∀ m key v, wf_tree n m → Forall in_u8 key → tree_get n key = Some v →
  ∃ ns, key = ns ++ [16] ∧ Forall nibble ns ∧ length ns = m.
Proof.
  induction n as [|cs IH|k v' IH|h|v'] using Node_nested_ind; intros m key v Hwf Hu Hg; try done.
  - destruct Hwf as (Hl & Hm & H16 & Hcs%wf_tree_children). destruct key as [|x key]; [done|].
    rewrite tree_get_full in Hg. apply Forall_cons in Hu as [Hx Hu]. unfold in_u8 in Hx.
    destruct (cs !! Z.to_nat x) as [c|] eqn:E; [|done]. simpl in Hg.
    assert (c ≠ NilNode) as Hc by (by intros ->). pose proof (slot16_nil cs Hl H16 _ _ E Hc).
    rewrite Forall_lookup in Hcs, IH. destruct (Hcs _ _ E) as [?|Hw]; [done|].
    destruct (IH _ _ E _ _ _ Hw Hu Hg) as (ns & -> & HF & Hlen). exists (x :: ns).
    split_and!; [done|constructor; [unfold nibble; lia|done]|simpl; lia].
  - destruct (wf_tree_short _ _ _ Hwf) as [(x & ns & -> & -> & HF & Hl)|(Hv & HF & Hl & Hw)].
    + simpl in Hg. case_decide; [subst; eauto|done].
    + rewrite tree_get_ext in Hg by done. case_decide as Ht; [|done].
      destruct (IH _ _ _ Hw (Forall_drop _ _ _ Hu) Hg) as (ns & Hd & HF' & Hlen). exists (k ++ ns).
      split_and!; [|by apply Forall_app|rewrite length_app; lia].
      rewrite <-app_assoc, <-Hd. by rewrite <-Ht at 1; rewrite take_drop.
Qed.

(** Nothing to update, nothing changed. *)
Lemma upd_tree_same n : ∀ m p, wf_tree n m →
  (∀ key v, Forall in_u8 key → tree_get n key = Some v → new_value (p ++ key) v = v) → upd_tree p n = n.
Proof.
  induction n as [|cs IH|k v IH|h|v] using Node_nested_ind; intros m p Hwf Hs; try done.
  - destruct Hwf as (Hl & Hm & H16 & Hcs%wf_tree_children). rewrite upd_tree_full. f_equal.
    apply list_eq. intros j. rewrite lookup_upd_children. destruct (cs !! j) as [c|] eqn:E; [|done]. simpl. f_equal.
    rewrite Forall_lookup in Hcs, IH. destruct (Hcs _ _ E) as [->|Hw]; [done|].
    assert (c ≠ NilNode) as Hc by (by intros ->). pose proof (slot16_nil cs Hl H16 _ _ E Hc).
    eapply IH; [done..|]. intros key v Hu Hg. rewrite <-app_assoc. apply Hs.
    + constructor; [unfold in_u8; lia|done].
    + etrans; [apply (tree_get_full cs (Z.of_nat j) key)|]. by rewrite Nat2Z.id, E.
  - destruct (wf_tree_short _ _ _ Hwf) as [(x & ns & -> & -> & HF & Hl)|(Hv & HF & Hl & Hw)].
    + simpl. rewrite Hs; [done| |simpl; by rewrite decide_True].
      apply Forall_app. split; [eapply Forall_impl; [exact HF|]|repeat constructor; unfold in_u8; lia].
      unfold nibble, in_u8. intros; lia.
    + rewrite upd_tree_short by done. f_equal. eapply IH; [done|]. intros key v0 Hu Hg.
      rewrite <-app_assoc. apply Hs.
      * apply Forall_app. split; [|done]. eapply Forall_impl; [exact HF|]. unfold nibble, in_u8. intros; lia.
      * rewrite tree_get_ext by done. by rewrite take_app_length, decide_True, drop_app_length.
Qed.
End update.
End rebuild.
