(* ===== verification/Trie.v ===== *)
(** * The trie (src/trie/trie.go)

    Lookup, insertion and deletion in a Merkle Patricia trie whose nodes are
    loaded from a database on demand.  The hash a node caches and its dirty
    flag are left out: they decide when a node is hashed again, not what the
    trie holds.  The recursions end because every level consumes part of the
    key; [fuel] counts the calls.

    The abstract view is a finite map: see [entries] and [trie_refines_map]; tries in the form
    the operations keep them are equal when they hold the same entries
    ([canon_unique]). *)
From S2P Require Import Prelude Core Encoding Node Rebuild.
Local Open Scope Z_scope.

(** [MissingNodeError] *)
Record MissingNodeError := mkMissing { NodeHash : bytes; Path : bytes }.
#[global] Instance MissingNodeError_eq_dec : EqDecision MissingNodeError.
Proof. solve_decision. Defined.

(** What the trie asks of its database: [Database.node]. *)
Class NodeStore := store_node : bytes → option Node.

(** Results that can be a [MissingNodeError]. *)
Abbreviation tres A := (go (MissingNodeError + A)).
Definition tok {A} (a : A) : tres A := Ret (inr a).
Definition tbind {A B} (m : tres A) (f : A → tres B) : tres B :=
  match m with Ret (inl e) => Ret (inl e) | Ret (inr a) => f a | Halt e => Halt e end.
Notation "' p <-? m ; k" := (tbind m (λ p, k)) (at level 20, p pattern, m at level 100, k at level 200, only parsing) : stdpp_scope.
Notation "p <-? m ; k" := (tbind m (λ p, k)) (at level 20, m at level 100, k at level 200, only parsing) : stdpp_scope.

Section trie.
Context `{DB : NodeStore}.

Definition resolveHash (n prefix : bytes) : MissingNodeError + Node :=
  let hash := BytesToHash n in
  match store_node hash with Some n => inr n | None => inl (mkMissing hash prefix) end.
Definition resolve (n : Node) (prefix : bytes) : MissingNodeError + Node :=
  match n with HashNode h => resolveHash h prefix | _ => inr n end.

(** [tryGet]: the value, the node with what was loaded, and whether
    something was loaded. *)
Fixpoint tryGet (fuel : nat) (origNode : Node) (key : bytes) (pos : nat) : tres (option bytes * Node * bool) :=
  match fuel with
  | O => Halt (Blocked "fuel")
  | S fuel =>
      match origNode with
      | NilNode => tok (None, NilNode, false)
      | ValueNode v => tok (Some v, origNode, false)
      | ShortNode nKey nVal =>
          if bool_decide (len key - Z.of_nat pos < len nKey) || negb (bool_decide (nKey = take (length nKey) (drop pos key)))
          then tok (None, origNode, false)
          else
            '(value, newnode, didResolve) <-? tryGet fuel nVal key (pos + length nKey);
            tok (value, if didResolve : bool then ShortNode nKey newnode else origNode, didResolve)
      | FullNode cs =>
          k ← go_index key (Z.of_nat pos);
          c ← go_index cs k;
          '(value, newnode, didResolve) <-? tryGet fuel c key (S pos);
          if didResolve : bool
          then cs ← go_store cs k newnode; tok (value, FullNode cs, didResolve)
          else tok (value, origNode, didResolve)
      | HashNode h =>
          child <-? Ret (resolveHash h (take pos key));
          '(value, newnode, _) <-? tryGet fuel child key pos;
          tok (value, newnode, true)
      end
  end.

(** [insert]: whether the subtrie changed, and the subtrie. *)
Fixpoint insert (fuel : nat) (n : Node) (prefix key : bytes) (value : Node) : tres (bool * Node) :=
  match fuel with
  | O => Halt (Blocked "fuel")
  | S fuel =>
      match key with
      | [] =>
          match n with
          | ValueNode v =>
              match value with
              | ValueNode w => tok (negb (bool_decide (v = w)), value)
              | _ => Halt (GoPanic "interface conversion")
              end
          | _ => tok (true, value)
          end
      | k0 :: krest =>
          match n with
          | ShortNode nKey nVal =>
              let matchlen := prefixLen key nKey in
              let m := Z.to_nat matchlen in
              if bool_decide (matchlen = len nKey) then
                '(dirty, nn) <-? insert fuel nVal (prefix ++ take m key) (drop m key) value;
                if dirty : bool then tok (true, ShortNode nKey nn) else tok (false, n)
              else
                i ← go_index nKey matchlen;
                '(_, c) <-? insert fuel NilNode (prefix ++ take (S m) nKey) (drop (S m) nKey) nVal;
                branch ← go_store (replicate 17 NilNode) i c;
                j ← go_index key matchlen;
                '(_, c) <-? insert fuel NilNode (prefix ++ take (S m) key) (drop (S m) key) value;
                branch ← go_store branch j c;
                if bool_decide (matchlen = 0) then tok (true, FullNode branch)
                else tok (true, ShortNode (take m key) (FullNode branch))
          | FullNode cs =>
              c ← go_index cs k0;
              '(dirty, nn) <-? insert fuel c (prefix ++ [k0]) krest value;
              if dirty : bool then cs ← go_store cs k0 nn; tok (true, FullNode cs) else tok (false, n)
          | NilNode => tok (true, ShortNode key value)
          | HashNode h =>
              rn <-? Ret (resolveHash h prefix);
              '(dirty, nn) <-? insert fuel rn prefix key value;
              if dirty : bool then tok (true, nn) else tok (false, rn)
          | ValueNode _ => Halt (GoPanic "invalid Node")
          end
      end
  end.

(** The position of the only child that is left, -2 if there are more, -1 if
    there is none. *)
Definition single_pos (cs : list Node) : Z :=
  foldl (λ pos ic, match ic.2 with
                   | NilNode => pos
                   | _ => if bool_decide (pos = -1) then Z.of_nat ic.1 else -2
                   end) (-1) (imap pair cs).

(** The full node [cs] after a child of it was deleted. *)
Definition reduce (cs : list Node) (prefix : bytes) : tres (bool * Node) :=
  let pos := single_pos cs in
  if bool_decide (0 ≤ pos) then
    c ← go_index cs pos;
    let kept := ShortNode [pos] c in
    if bool_decide (pos ≠ 16) then
      cnode <-? Ret (resolve c prefix);
      match cnode with
      | ShortNode ck cv => tok (true, ShortNode (pos :: ck) cv)
      | _ => tok (true, kept)
      end
    else tok (true, kept)
  else tok (true, FullNode cs).

(** [delete] *)
Fixpoint delete (fuel : nat) (n : Node) (prefix key : bytes) : tres (bool * Node) :=
  match fuel with
  | O => Halt (Blocked "fuel")
  | S fuel =>
      match n with
      | ShortNode nKey nVal =>
          let matchlen := prefixLen key nKey in
          if bool_decide (matchlen < len nKey) then tok (false, n)
          else if bool_decide (matchlen = len key) then tok (true, NilNode)
          else
            '(dirty, child) <-? delete fuel nVal (prefix ++ take (length nKey) key) (drop (length nKey) key);
            if dirty : bool then
              match child with
              | ShortNode ck cv => tok (true, ShortNode (nKey ++ ck) cv)
              | _ => tok (true, ShortNode nKey child)
              end
            else tok (false, n)
      | FullNode cs =>
          match key with
          | [] => Halt (GoPanic "index out of range")
          | k0 :: krest =>
              c ← go_index cs k0;
              '(dirty, nn) <-? delete fuel c (prefix ++ [k0]) krest;
              if dirty : bool then
                cs ← go_store cs k0 nn;
                match nn with NilNode => reduce cs prefix | _ => tok (true, FullNode cs) end
              else tok (false, n)
          end
      | ValueNode _ => tok (true, NilNode)
      | NilNode => tok (false, NilNode)
      | HashNode h =>
          rn <-? Ret (resolveHash h prefix);
          '(dirty, nn) <-? delete fuel rn prefix key;
          if dirty : bool then tok (true, nn) else tok (false, rn)
      end
  end.

(** The trie; the number of calls a key can need. *)
Record Trie := mkTrie { root : Node; unhashed : Z }.
Definition calls (key : bytes) : nat := (2 * length key + 2)%nat.

Definition TryGet (t : Trie) (key : bytes) : go (Trie * (MissingNodeError + option bytes)) :=
  let k := keybytesToHex key in
  r ← tryGet (calls k) (root t) k 0;
  match r with
  | inl err => Ret (t, inl err)
  | inr (value, newroot, didResolve) =>
      Ret (if didResolve : bool then mkTrie newroot (unhashed t) else t, inr value)
  end.

(** A new root, unless a node was missing. *)
Definition set_root (t : Trie) (r : MissingNodeError + bool * Node) : Trie * option MissingNodeError :=
  match r with
  | inl err => (t, Some err)
  | inr (_, n) => (mkTrie n (unhashed t), None)
  end.
Definition TryDelete (t : Trie) (key : bytes) : go (Trie * option MissingNodeError) :=
  let t := mkTrie (root t) (unhashed t + 1) in
  let k := keybytesToHex key in
  r ← delete (calls k) (root t) [] k; Ret (set_root t r).
Definition TryUpdate (t : Trie) (key value : bytes) : go (Trie * option MissingNodeError) :=
  let t := mkTrie (root t) (unhashed t + 1) in
  let k := keybytesToHex key in
  if bool_decide (len value ≠ 0)
  then r ← insert (calls k) (root t) [] k (ValueNode value); Ret (set_root t r)
  else r ← delete (calls k) (root t) [] k; Ret (set_root t r).

(** Without errors: the process ends on a missing node. *)
Definition unhandled {A} (r : go (A * option MissingNodeError)) : go A :=
  '(t, err) ← r; match err with None => Ret t | Some _ => Halt (LogError "Unhandled trie error") end.
Definition Update (t : Trie) (key value : bytes) : go Trie := unhandled (TryUpdate t key value).
Definition Delete (t : Trie) (key : bytes) : go Trie := unhandled (TryDelete t key).
Definition Get (t : Trie) (key : bytes) : go (Trie * option bytes) :=
  '(t, r) ← TryGet t key;
  match r with inr value => Ret (t, value) | inl _ => Halt (LogError "Unhandled trie error") end.

(** [New], with the root [rootHash] of [emptyRoot] or zero for an empty
    trie. *)
Definition New (emptyRoot rootHash : bytes) : MissingNodeError + Trie :=
  if bool_decide (rootHash ≠ replicate 32 0 ∧ rootHash ≠ emptyRoot)
  then match resolveHash rootHash [] with inr n => inr (mkTrie n 0) | inl err => inl err end
  else inr (mkTrie NilNode 0).
End trie.

(** ** What a trie holds *)

(** The hex form of a key: nibbles and the terminator. *)
Definition term_key (k : bytes) : Prop := ∃ ns, k = ns ++ [16] ∧ Forall nibble ns.

Fixpoint tget (n : Node) (key : bytes) : option bytes :=
  match n with
  | FullNode cs =>
      match key with
      | k :: key => nth (Z.to_nat k) (map (λ c, tget c key) cs) None
      | [] => None
      end
  | ShortNode k v => if decide (take (length k) key = k) then tget v (drop (length k) key) else None
  | ValueNode v => if decide (key = []) then Some v else None
  | _ => None
  end.

(** The form the operations keep: full nodes have two children at least,
    values are in the last slot, below a short node is a value or a full
    node. *)
Fixpoint canon (n : Node) : Prop :=
  match n with
  | FullNode cs =>
      length cs = 17%nat ∧
      (∃ i j c d, i ≠ j ∧ cs !! i = Some c ∧ c ≠ NilNode ∧ cs !! j = Some d ∧ d ≠ NilNode) ∧
      (∀ i c, cs !! i = Some c → is_value c → i = 16%nat) ∧
      (∀ c, cs !! 16%nat = Some c → c = NilNode ∨ is_value c) ∧
      foldr (λ c P, (c = NilNode ∨ is_value c ∨ canon c) ∧ P) True cs
  | ShortNode k v =>
      match v with
      | ValueNode _ => term_key k
      | FullNode _ => Forall nibble k ∧ k ≠ [] ∧ canon v
      | _ => False
      end
  | _ => False
  end.
Definition sub (n : Node) : Prop := n = NilNode ∨ canon n.

(** [e'] holds [o] at [key] and otherwise what [e] holds. *)
Definition updated (e e' : Node) (key : bytes) (o : option bytes) : Prop :=
  ∀ k, term_key k → tget e' k = if decide (k = key) then o else tget e k.

(** ** Keys *)
Lemma term_key_cons x k : term_key (x :: k) ↔ (x = 16 ∧ k = []) ∨ (nibble x ∧ term_key k).
Proof.
  split.
  - intros ([|y ns] & Heq & HF); [simplify_eq/=; auto|]. apply Forall_cons in HF as [Hy HF].
    simplify_eq/=. right. split; [done|]. by exists ns.
  - intros [[-> ->]|[Hx (ns & -> & HF)]]; [by exists []|]. exists (x :: ns). split; [done|]. by constructor.
Qed.

Lemma term_key_nil : ¬ term_key [].
Proof. intros ([|? ?] & ? & _); done. Qed.

Lemma term_key_ne k : term_key k → k ≠ [].
Proof. intros Hk ->. by apply term_key_nil in Hk. Qed.

Lemma term_key_app c k : Forall nibble c → term_key (c ++ k) ↔ term_key k.
Proof.
  induction 1 as [|x c Hx HF IH]; [done|]. rewrite <-IH. simpl. rewrite term_key_cons. unfold nibble in Hx.
  split; [intros [[-> _]|[_ ?]]; [lia|done]|auto].
Qed.

Lemma term_key_split c x k : term_key (c ++ x :: k) → Forall nibble c ∧ term_key (x :: k).
Proof.
  induction c as [|y c IH]; [auto|]. simpl. rewrite term_key_cons. intros [[_ ?]|[Hy Hk]]; [by destruct c|].
  apply IH in Hk as [??]. auto.
Qed.

Lemma term_key_prefix k r : term_key k → term_key (k ++ r) → r = [].
Proof.
  induction k as [|x k IH]; [by intros ?%term_key_nil|]. simpl. rewrite !term_key_cons. unfold nibble.
  intros [[-> ->]|[Hx Hk]] [[Hx' Hr]|[Hx' Hr]]; [done|lia|lia|auto].
Qed.

Lemma term_key_keybytes key : Forall in_u8 key → term_key (keybytesToHex key).
Proof. intros Hk. exists (nibbles_of key). split; [done|by apply nibbles_of_nibble]. Qed.

(** How two keys compare: one is a prefix of the other, or they part. *)
Lemma prefixLen_cases a b :
  (∃ r, a = b ++ r ∧ prefixLen a b = len b) ∨ (∃ y r, b = a ++ y :: r ∧ prefixLen a b = len a) ∨
  (∃ c x y a' b', a = c ++ x :: a' ∧ b = c ++ y :: b' ∧ x ≠ y ∧ prefixLen a b = len c).
Proof.
  revert b. induction a as [|x a IH]; intros [|y b]; cbn [prefixLen].
  - left. by exists [].
  - right; left. by exists y, b.
  - left. by exists (x :: a).
  - case_bool_decide as E; [subst y|].
    + destruct (IH b) as [(r & -> & ->)|[(z & r & -> & ->)|(c & z & w & a' & b' & -> & -> & Hne & ->)]].
      * left. exists r. by rewrite len_cons.
      * right; left. exists z, r. by rewrite len_cons.
      * right; right. exists (x :: c), z, w, a', b'. rewrite len_cons. auto.
    + right; right. exists [], x, y, a, b. auto.
Qed.

(** ** Tries in canonical form *)
Lemma canon_children (f : Node → Prop) cs :
  foldr (λ c P, (c = NilNode ∨ is_value c ∨ f c) ∧ P) True cs ↔
  ∀ i c, cs !! i = Some c → c = NilNode ∨ is_value c ∨ f c.
Proof.
  rewrite <-Forall_lookup. induction cs as [|c cs IH]; cbn [foldr]; [by rewrite Forall_nil|]. by rewrite Forall_cons, IH.
Qed.

(** The shape of a full node, child by child. *)
Lemma canon_full cs :
  canon (FullNode cs) ↔ length cs = 17%nat ∧
    (∃ i j c d, i ≠ j ∧ cs !! i = Some c ∧ c ≠ NilNode ∧ cs !! j = Some d ∧ d ≠ NilNode) ∧
    ∀ i c, cs !! i = Some c → if decide (i = 16%nat) then c = NilNode ∨ is_value c else sub c.
Proof.
  cbn [canon]. rewrite canon_children. split.
  - intros (Hl & H2 & Hv & H16 & Hc). split_and!; [done..|]. intros i c Hi. case_decide as E; [subst; auto|].
    destruct (Hc i c Hi) as [?|[?|?]]; [by left| |by right]. destruct E. by eapply Hv.
  - intros (Hl & H2 & Hc). split_and!; [done..| | |].
    + intros i c Hi Hvc. specialize (Hc i c Hi). case_decide; [done|].
      destruct Hc as [->|Hc]; [done|]. by destruct c.
    + intros c Hi. specialize (Hc _ c Hi). by rewrite decide_True in Hc.
    + intros i c Hi. specialize (Hc i c Hi). case_decide; [naive_solver|]. destruct Hc; auto.
Qed.

Lemma tget_full cs x k : tget (FullNode cs) (x :: k) = cs !! Z.to_nat x ≫= λ c, tget c k.
Proof.
  cbn [tget]. destruct (cs !! Z.to_nat x) as [c|] eqn:E; simpl.
  - apply nth_lookup_Some. by rewrite list_lookup_fmap, E || rewrite lookup_map, E.
  - apply nth_overflow. rewrite length_map. by apply lookup_ge_None.
Qed.

(** A short node, unless its key is empty. *)
Definition mk_short (k : bytes) (v : Node) : Node := match k with [] => v | _ => ShortNode k v end.

Lemma prefix_cases (k q : bytes) : (∃ r, q = k ++ r) ∨ take (length k) q ≠ k.
Proof.
  destruct (decide (take (length k) q = k)) as [E|]; [left|by right]. exists (drop (length k) q).
  by rewrite <-E at 1; rewrite take_drop.
Qed.

Lemma tget_mk_short k v q :
  tget (mk_short k v) q = if decide (take (length k) q = k) then tget v (drop (length k) q) else None.
Proof. destruct k; [by rewrite decide_True by done|done]. Qed.

Lemma tget_short_app k v q : tget (mk_short k v) (k ++ q) = tget v q.
Proof. by rewrite tget_mk_short, take_app_length, decide_True, drop_app_length. Qed.

Lemma tget_short_ne k v q : take (length k) q ≠ k → tget (mk_short k v) q = None.
Proof. intros. by rewrite tget_mk_short, decide_False. Qed.

Lemma tget_short_short k1 k2 v q : tget (mk_short (k1 ++ k2) v) q = tget (mk_short k1 (mk_short k2 v)) q.
Proof.
  destruct (prefix_cases k1 q) as [[r ->]|H1].
  - rewrite tget_short_app. destruct (prefix_cases k2 r) as [[r' ->]|H2].
    + by rewrite app_assoc, !tget_short_app.
    + rewrite !tget_short_ne; [done|done|]. rewrite length_app, take_app_add. intros ?%app_inv_head. done.
  - rewrite !tget_short_ne; [done|done|]. intros E. apply H1.
    apply (f_equal (take (length k1))) in E. rewrite take_take, length_app, take_app_length in E.
    by rewrite Nat.min_l in E by lia.
Qed.

Lemma mk_short_ne k v : k ≠ [] → mk_short k v = ShortNode k v.
Proof. by destruct k. Qed.

(** A value below its terminated key. *)
Lemma tget_leaf k v q : term_key k → term_key q →
  tget (mk_short k (ValueNode v)) q = if decide (q = k) then Some v else None.
Proof.
  intros Hk Hq. destruct (prefix_cases k q) as [[r ->]|Hne].
  - rewrite (term_key_prefix k r) by done. rewrite tget_short_app, app_nil_r, decide_True by done. done.
  - rewrite tget_short_ne by done. rewrite decide_False; [done|]. intros ->. apply Hne. apply take_ge. lia.
Qed.

(** ** How an update of a part changes the whole *)
Lemma updated_full cs x c c' key o :
  0 ≤ x → cs !! Z.to_nat x = Some c →
  (∀ k, term_key (x :: k) → tget c' k = if decide (k = key) then o else tget c k) →
  updated (FullNode cs) (FullNode (<[Z.to_nat x := c']> cs)) (x :: key) o.
Proof.
  intros Hx Hc Hu [|y k] Hk; [by apply term_key_nil in Hk|]. rewrite !tget_full.
  destruct (decide (y = x)) as [->|Hne].
  - rewrite list_lookup_insert_eq by (by eapply lookup_lt_Some). rewrite Hc. simpl. rewrite Hu by done.
    destruct (decide (k = key)) as [->|]; [by rewrite decide_True|]. by rewrite decide_False by congruence.
  - rewrite decide_False by congruence. rewrite list_lookup_insert_ne; [done|].
    apply term_key_cons in Hk as [[-> _]|[Hy _]]; unfold nibble in *; lia.
Qed.

Lemma updated_short k v v' key o :
  Forall nibble k → updated v v' key o → updated (mk_short k v) (mk_short k v') (k ++ key) o.
Proof.
  intros HF Hu q Hq. destruct (prefix_cases k q) as [[r ->]|Hne].
  - rewrite !tget_short_app. rewrite Hu by (by apply term_key_app in Hq).
    destruct (decide (r = key)) as [->|]; [by rewrite decide_True|].
    rewrite decide_False; [done|]. intros ?%app_inv_head. done.
  - rewrite !tget_short_ne by done. rewrite decide_False; [done|]. intros ->. by rewrite take_app_length in Hne.
Qed.

(** ** Branching out *)
Definition branch_at (i : nat) (c : Node) (j : nat) (d : Node) : list Node :=
  <[j := d]> (<[i := c]> (replicate 17 NilNode)).

(** What may be put in slot [i] of a full node. *)
Definition in_slot (i : nat) (c : Node) : Prop := if decide (i = 16%nat) then is_value c else canon c.

Lemma in_slot_child i c : in_slot i c → c ≠ NilNode ∧ if decide (i = 16%nat) then c = NilNode ∨ is_value c else sub c.
Proof. unfold in_slot, sub. case_decide; destruct c; naive_solver. Qed.

(** What remains of a short node below a position of its key. *)
Lemma canon_suffix c y b v :
  canon (ShortNode (c ++ y :: b) v) → Forall nibble c ∧ 0 ≤ y < 17 ∧ in_slot (Z.to_nat y) (mk_short b v).
Proof.
  unfold in_slot. destruct v as [|cs|k' v'|h|w]; try done.
  - intros ((HF & [Hy Hb]%Forall_cons)%Forall_app & _ & Hv). unfold nibble in Hy. split_and!; [done|lia..|].
    rewrite decide_False by lia. destruct b; [done|]. split_and!; done.
  - intros [HF Hk]%term_key_split. split; [done|]. apply term_key_cons in Hk as [[-> ->]|[Hy Hb]].
    + split; [lia|]. by rewrite decide_True by lia.
    + unfold nibble in Hy. split; [lia|]. rewrite decide_False by lia.
      destruct b; [by apply term_key_nil in Hb|done].
Qed.

Lemma canon_branch i c j d :
  (i < 17)%nat → (j < 17)%nat → i ≠ j → in_slot i c → in_slot j d → canon (FullNode (branch_at i c j d)).
Proof.
  intros Hi Hj Hne Hc%in_slot_child Hd%in_slot_child. apply canon_full. unfold branch_at.
  split_and!; [by rewrite !length_insert, length_replicate| |].
  - exists i, j, c, d. split_and!; [done| |naive_solver| |naive_solver].
    + rewrite list_lookup_insert_ne, list_lookup_insert_eq by (done || rewrite length_replicate; lia). done.
    + rewrite list_lookup_insert_eq by (rewrite length_insert, length_replicate; lia). done.
  - intros k x Hk. apply list_lookup_insert_Some in Hk as [(-> & -> & _)|[_ Hk]]; [naive_solver|].
    apply list_lookup_insert_Some in Hk as [(-> & -> & _)|[_ Hk]]; [naive_solver|].
    apply lookup_replicate_1 in Hk as [-> _]. unfold sub. destruct (decide (k = 16%nat)); by left.
Qed.

Lemma tget_branch i c j d z r :
  0 ≤ i < 17 → 0 ≤ j < 17 → i ≠ j → 0 ≤ z →
  tget (FullNode (branch_at (Z.to_nat i) c (Z.to_nat j) d)) (z :: r) =
  if decide (z = j) then tget d r else if decide (z = i) then tget c r else None.
Proof.
  intros Hi Hj Hne Hz. rewrite tget_full. unfold branch_at. case_decide as E1; [subst|case_decide as E2; [subst|]].
  - by rewrite list_lookup_insert_eq by (rewrite length_insert, length_replicate; lia).
  - by rewrite list_lookup_insert_ne, list_lookup_insert_eq by (lia || rewrite length_replicate; lia).
  - rewrite !list_lookup_insert_ne by lia. destruct (replicate 17 NilNode !! Z.to_nat z) as [x|] eqn:E; [|done].
    by apply lookup_replicate_1 in E as [-> _].
Qed.

Lemma canon_set_child es i c : canon (FullNode es) → in_slot i c → canon (FullNode (<[i := c]> es)).
Proof.
  intros (Hl & (j & k & d & d' & Hjk & Hj & Hd & Hk & Hd') & Hes)%canon_full [Hc Hs]%in_slot_child. apply canon_full.
  split_and!; [by rewrite length_insert| |].
  - assert (∀ j d, es !! j = Some d → d ≠ NilNode → ∃ d', <[i := c]> es !! j = Some d' ∧ d' ≠ NilNode) as Hn.
    { intros j' x Hx Hxn. destruct (decide (j' = i)) as [->|]; [|exists x; by rewrite list_lookup_insert_ne].
      exists c. by rewrite list_lookup_insert_eq by (by eapply lookup_lt_Some). }
    destruct (Hn j d Hj Hd) as (x & Hx & ?), (Hn k d' Hk Hd') as (y & Hy & ?). by exists j, k, x, y.
  - intros j' x Hx. apply list_lookup_insert_Some in Hx as [(-> & -> & _)|[_ Hx]]; [exact Hs|exact (Hes _ _ Hx)].
Qed.

(** A short node whose key parts from the new one at [c]. *)
Lemma updated_split c x a y b ev v :
  canon (ShortNode (c ++ y :: b) ev) → term_key (c ++ x :: a) → x ≠ y →
  let e' := mk_short c (FullNode (branch_at (Z.to_nat y) (mk_short b ev) (Z.to_nat x) (mk_short a (ValueNode v)))) in
  canon e' ∧ updated (ShortNode (c ++ y :: b) ev) e' (c ++ x :: a) (Some v).
Proof.
  intros Hcan Hkey Hne e'. destruct (canon_suffix _ _ _ _ Hcan) as (HF & Hy & Hsy).
  destruct (canon_suffix c x a (ValueNode v) Hkey) as (_ & Hx & Hsx). split.
  { unfold e'. assert (canon (FullNode (branch_at (Z.to_nat y) (mk_short b ev) (Z.to_nat x) (mk_short a (ValueNode v))))).
    { apply canon_branch; (done || lia). }
    by destruct c. }
  assert (updated (mk_short (y :: b) ev) (FullNode (branch_at (Z.to_nat y) (mk_short b ev) (Z.to_nat x)
    (mk_short a (ValueNode v)))) (x :: a) (Some v)) as Hu.
  { intros [|z r] Hq; [by apply term_key_nil in Hq|].
    assert (0 ≤ z) by (apply term_key_cons in Hq as [[-> _]|[Hz _]]; unfold nibble in *; lia).
    rewrite tget_branch by (done || lia). rewrite (tget_short_short [y] b), (tget_mk_short [y]). simpl.
    rewrite skipn_O. destruct (decide (z = x)) as [->|Hzx].
    - rewrite (decide_False (P := [x] = [y])) by congruence. apply term_key_split in Hkey as [_ Hkey].
      apply term_key_cons in Hq, Hkey. unfold nibble in *.
      destruct Hq as [[-> ->]|[Hq Hr]], Hkey as [[? ->]|[? Ha]]; try lia.
      + by rewrite decide_True.
      + rewrite tget_leaf by done. destruct (decide (r = a)) as [->|]; [by rewrite decide_True|].
        by rewrite decide_False by congruence.
    - rewrite (decide_False (P := z :: r = x :: a)) by congruence.
      destruct (decide (z = y)) as [->|]; [by rewrite decide_True|]. by rewrite decide_False by congruence. }
  intros q Hq. rewrite <-(mk_short_ne (c ++ y :: b) ev) by (by destruct c). rewrite tget_short_short.
  by apply (updated_short c _ _ (x :: a) (Some v) HF Hu).
Qed.

(** ** Tries that are partly in the database *)
Section stored.
Context `{DB : NodeStore}.

(** A node the database can return. *)
Definition inner (n : Node) : Prop := match n with FullNode _ | ShortNode _ _ => True | _ => False end.

Definition is_full (n : Node) : Prop := match n with FullNode _ => True | _ => False end.

(** [e] is [n] with everything loaded. *)
Inductive expands : Node → Node → Prop :=
  | ex_nil : expands NilNode NilNode
  | ex_value v : expands (ValueNode v) (ValueNode v)
  | ex_full cs es : Forall2 expands cs es → expands (FullNode cs) (FullNode es)
  | ex_short k v e : expands v e → expands (ShortNode k v) (ShortNode k e)
  | ex_hash h n e : store_node (BytesToHash h) = Some n → inner n → expands n e → expands (HashNode h) e.

Definition is_hash (n : Node) : bool := match n with HashNode _ => true | _ => false end.
(** The calls a key needs at a node. *)
Definition need (n : Node) (key : bytes) : nat := (2 * length key + if is_hash n then 1 else 0)%nat.

Lemma need_child n key : (need n key ≤ 2 * length key + 1)%nat.
Proof. unfold need. destruct (is_hash n); lia. Qed.

Lemma expands_mk_short k v e : expands v e → expands (mk_short k v) (mk_short k e).
Proof. destruct k; [done|]. by constructor. Qed.

Lemma expands_inner n e : inner n → expands n e → inner e.
Proof. by destruct 2. Qed.

(** Only inner nodes are stored. *)
Lemma expands_outer n e : expands n e → ¬ inner e → n = e.
Proof. destruct 1 as [| | | |h n e _ Hn He]; try done. intros Hi. by destruct (Hi (expands_inner n e Hn He)). Qed.

Lemma expands_branch i c c' j d d' :
  expands c c' → expands d d' → Forall2 expands (branch_at i c j d) (branch_at i c' j d').
Proof. intros. unfold branch_at. do 2 (apply Forall2_insert; [|done]). apply Forall2_replicate. constructor. Qed.

Lemma insert_nil fuel prefix key value :
  (1 ≤ fuel)%nat → insert fuel NilNode prefix key value = tok (true, mk_short key value).
Proof. destruct fuel; [lia|]. by destruct key. Qed.

(** ** Insertion *)
Definition inserts (fuel : nat) (n e : Node) (prefix key v : bytes) : Prop :=
  ∃ d n' e', insert fuel n prefix key (ValueNode v) = tok (d, n') ∧ expands n' e' ∧ canon e' ∧
    updated e e' key (Some v) ∧ (d = false → e' = e) ∧ (is_full e → is_full e').

(** At the end of a key is a value or nothing. *)
Lemma insert_at_end fuel n e prefix v :
  (1 ≤ fuel)%nat → expands n e → e = NilNode ∨ is_value e →
  ∃ d, insert fuel n prefix [] (ValueNode v) = tok (d, ValueNode v) ∧ (d = false → e = ValueNode v).
Proof.
  destruct fuel; [lia|]. intros _ Hex He. rewrite (expands_outer n e Hex) by (destruct He as [->|He]; [intros []|destruct e; try done; intros []]).
  destruct He as [->|He]; [eexists; by split|]. destruct e; try done. cbn [insert]. eexists. split; [done|].
  case_bool_decide; [by subst|done].
Qed.

Lemma insert_short fuel k nv ev prefix key v :
  (∀ n e prefix key, (need n key ≤ fuel)%nat → expands n e → sub e → term_key key → inserts fuel n e prefix key v) →
  (2 * length key ≤ S fuel)%nat → expands nv ev → canon (ShortNode k ev) → term_key key →
  inserts (S fuel) (ShortNode k nv) (ShortNode k ev) prefix key v.
Proof.
  intros IH Hfuel Hex Hcan Hkey.
  destruct key as [|k0 krest] eqn:Hk0; [by apply term_key_nil in Hkey|]. assert (1 ≤ fuel)%nat as Hf1 by (simpl in *; lia).
  unfold inserts. cbn [insert]. rewrite <-Hk0 in Hfuel, Hkey |- *. clear k0 krest Hk0.
  destruct (prefixLen_cases key k) as [(r & -> & ->)|[(y & r & -> & _)|(c & x & y & a & b & -> & -> & Hxy & ->)]].
  - rewrite bool_decide_true by done. unfold len. rewrite Nat2Z.id, take_app_length, drop_app_length.
    destruct (is_value_dec ev) as [[w ->]|Hv].
    + assert (k ≠ []) by (by apply term_key_ne). simpl in Hcan. rewrite (term_key_prefix k r) by done.
      destruct (insert_at_end fuel nv (ValueNode w) (prefix ++ k) v) as (d & -> & Hd); [done..|by right|].
      rewrite app_nil_r. simpl tbind.
      assert (updated (ShortNode k (ValueNode w)) (ShortNode k (ValueNode v)) k (Some v)) as Hu.
      { intros q Hq. rewrite <-!mk_short_ne by done. rewrite !tget_leaf by done. by case_decide. }
      destruct d; [|specialize (Hd eq_refl) as [= ->]; exists false, (ShortNode k nv), (ShortNode k (ValueNode v));
        split_and!; try done; by constructor].
      exists true, (ShortNode k (ValueNode v)), (ShortNode k (ValueNode v)). split_and!; try done. by repeat constructor.
    + assert (Forall nibble k ∧ k ≠ [] ∧ canon ev ∧ is_full ev) as (HF & Hk & Hev & Hfull)
        by (destruct ev; try done; by destruct Hcan as (? & ? & ?)).
      destruct (IH nv ev (prefix ++ k) r) as (d & n' & e' & -> & He' & Hc' & Hu & Hd & Hf').
      { pose proof (need_child nv r). rewrite length_app in Hfuel. destruct k; [done|]. simpl in *. lia. }
      { done. } { by right. } { by apply term_key_app in Hkey. }
      simpl tbind. pose proof (updated_short k _ _ _ _ HF Hu) as Hu'. rewrite !mk_short_ne in Hu' by done.
      destruct d; [|specialize (Hd eq_refl) as ->; exists false, (ShortNode k nv), (ShortNode k ev); split_and!; try done; by constructor].
      exists true, (ShortNode k n'), (ShortNode k e'). split_and!; try done; [by constructor|].
      specialize (Hf' Hfull). by destruct e'.
  - exfalso. apply canon_suffix in Hcan as [HF _]. destruct Hkey as (ns & -> & _).
    apply Forall_app in HF as [_ [H16 _]%Forall_cons]. unfold nibble in H16. lia.
  - rewrite bool_decide_false by (rewrite len_app, len_cons; pose proof (len_nonneg b); lia).
    destruct (updated_split c x a y b ev v Hcan Hkey) as [Hc' Hu]; [done|].
    destruct (canon_suffix c y b ev Hcan) as (_ & Hy & _). destruct (canon_suffix c x a (ValueNode v) Hkey) as (_ & Hx & _).
    assert (∀ z l, go_index (c ++ z :: l) (len c) = Ret z) as Hidx.
    { intros z l. apply (go_index_ok _ _ z); unfold len; [lia|]. by rewrite Nat2Z.id, list_lookup_middle. }
    assert (∀ z l, drop (S (Z.to_nat (len c))) (c ++ z :: l) = l) as Hdrop.
    { intros z l. unfold len. rewrite Nat2Z.id, cons_middle, app_assoc. rewrite drop_app_length' by (rewrite length_app; simpl; lia). done. }
    rewrite !Hidx, !Hdrop, !insert_nil by done. cbv beta iota delta [mbind go_bind tbind tok].
    rewrite go_store_ok by (unfold len; rewrite length_replicate; lia).
    rewrite go_store_ok by (unfold len; rewrite length_insert, length_replicate; lia).
    assert (take (Z.to_nat (len c)) (c ++ x :: a) = c) as -> by (unfold len; by rewrite Nat2Z.id, take_app_length).
    eexists true, (mk_short c _), _. split_and!; [|apply expands_mk_short, ex_full, expands_branch|exact Hc'|exact Hu|done|done].
    + destruct c; [done|]. by rewrite bool_decide_false by (rewrite len_cons; pose proof (len_nonneg c); lia).
    + by apply expands_mk_short.
    + apply expands_mk_short. constructor.
Qed.

(** The position a key selects in a full node, and the child there. *)
Lemma full_child cs es x krest :
  canon (FullNode es) → Forall2 expands cs es → term_key (x :: krest) →
  ∃ c ec, go_index cs x = Ret c ∧ 0 ≤ x < 17 ∧ es !! Z.to_nat x = Some ec ∧ expands c ec ∧
    (∀ c', go_store cs x c' = Ret (<[Z.to_nat x := c']> cs)) ∧
    ((x = 16 ∧ krest = [] ∧ (ec = NilNode ∨ is_value ec)) ∨ (nibble x ∧ term_key krest ∧ sub ec)).
Proof.
  intros (Hl & _ & Hes)%canon_full HF Hk. pose proof (Forall2_length _ _ _ HF) as Hlen.
  assert (0 ≤ x < 17) as Hx by (apply term_key_cons in Hk as [[-> _]|[Hx _]]; unfold nibble in *; lia).
  destruct (lookup_lt_is_Some_2 es (Z.to_nat x)) as [ec Hec]; [lia|].
  destruct (Forall2_lookup_r _ _ _ _ _ HF Hec) as (c & Hc & Hex). exists c, ec.
  split_and!; [apply (go_index_ok cs x c); [lia|done]|lia..|done|done|intros; apply go_store_ok; unfold len; lia|].
  specialize (Hes _ _ Hec). apply term_key_cons in Hk as [[-> ->]|[Hn Hk]].
  - left. rewrite decide_True in Hes by lia. by split_and!.
  - right. unfold nibble in Hn. rewrite decide_False in Hes by lia. by split_and!.
Qed.

Lemma insert_full fuel cs es prefix key v :
  (∀ n e prefix key, (need n key ≤ fuel)%nat → expands n e → sub e → term_key key → inserts fuel n e prefix key v) →
  (2 * length key ≤ S fuel)%nat → Forall2 expands cs es → canon (FullNode es) → term_key key →
  inserts (S fuel) (FullNode cs) (FullNode es) prefix key v.
Proof.
  intros IH Hfuel Hex Hcan Hkey. destruct key as [|x krest]; [by apply term_key_nil in Hkey|].
  destruct (full_child cs es x krest Hcan Hex Hkey) as (c & ec & Hi & Hx & Hec & Hexc & Hst & Hcase).
  unfold inserts. cbn [insert]. rewrite Hi. cbv beta iota delta [mbind go_bind].
  assert (∃ d n' e', insert fuel c (prefix ++ [x]) krest (ValueNode v) = tok (d, n') ∧ expands n' e' ∧
    in_slot (Z.to_nat x) e' ∧ (∀ k, term_key (x :: k) → tget e' k = if decide (k = krest) then Some v else tget ec k) ∧
    (d = false → e' = ec)) as (d & n' & e' & -> & He' & Hs & Hu & Hd).
  { destruct Hcase as [(-> & -> & He)|(Hn & Hk & He)].
    - destruct (insert_at_end fuel c ec (prefix ++ [16]) v) as (d & -> & Hd); [simpl in *; lia|done..|].
      exists d, (ValueNode v), (ValueNode v). split_and!; [done|constructor|done| |by intros ->%Hd].
      intros k [[_ ->]|[Hk _]]%term_key_cons; [done|]. unfold nibble in Hk. lia.
    - destruct (IH c ec (prefix ++ [x]) krest) as (d & n' & e' & -> & He' & Hc & Hu & Hd & _);
        [pose proof (need_child c krest); simpl in *; lia|done..|].
      exists d, n', e'. split_and!; [done|done| | |done].
      + unfold in_slot, nibble in *. by rewrite decide_False by lia.
      + intros k [[-> _]|[_ Hk']]%term_key_cons; [unfold nibble in Hn; lia|by apply Hu]. }
  cbv beta iota delta [tbind tok].
  pose proof (updated_full es x ec e' krest (Some v) ltac:(lia) Hec Hu) as Hup. destruct d.
  - rewrite Hst. exists true, (FullNode (<[Z.to_nat x := n']> cs)), (FullNode (<[Z.to_nat x := e']> es)).
    split_and!; try done; [constructor; by apply Forall2_insert|by apply canon_set_child].
  - specialize (Hd eq_refl) as ->. rewrite list_insert_id in Hup by done.
    exists false, (FullNode cs), (FullNode es). split_and!; try done. by constructor.
Qed.

(** Insertion, whatever part of the trie is loaded. *)
Lemma insert_ok fuel : ∀ n e prefix key v,
  (need n key ≤ fuel)%nat → expands n e → sub e → term_key key → inserts fuel n e prefix key v.
Proof.
  induction fuel as [|fuel IH]; intros n e prefix key v Hfuel Hex Hsub Hkey.
  { unfold need in Hfuel. destruct key; [by apply term_key_nil in Hkey|simpl in Hfuel; lia]. }
  destruct Hex as [|w|cs es Hcs|k nv ev Hv|h m e Hm Hin Hex].
  - destruct key as [|x krest]; [by apply term_key_nil in Hkey|].
    exists true, (ShortNode (x :: krest) (ValueNode v)), (ShortNode (x :: krest) (ValueNode v)).
    split_and!; try done; [by repeat constructor|]. intros q Hq. rewrite <-(mk_short_ne (x :: krest)) by done.
    by rewrite tget_leaf.
  - by destruct Hsub.
  - destruct Hsub as [?|?]; [done|]. apply insert_full; auto. unfold need in Hfuel. simpl in Hfuel. lia.
  - destruct Hsub as [?|?]; [done|]. apply insert_short; auto. unfold need in Hfuel. simpl in Hfuel. lia.
  - destruct key as [|x krest] eqn:Hk0; [by apply term_key_nil in Hkey|]. unfold inserts. cbn [insert].
    rewrite <-Hk0 in Hfuel, Hkey |- *. unfold resolveHash. rewrite Hm. cbv beta iota delta [tbind tok].
    destruct (IH m e prefix key v) as (d & n' & e' & -> & He' & Hc & Hu & Hd & Hf); [|done..|].
    { unfold need in *. destruct m; simpl in *; (done || lia). }
    destruct d; [by exists true, n', e'|]. specialize (Hd eq_refl) as ->. by exists false, m, e.
Qed.

(** ** Lookup *)
Lemma tryGet_ok fuel : ∀ n e pre rest,
  (need n rest < fuel)%nat → expands n e →
  (sub e ∧ term_key rest) ∨ ((e = NilNode ∨ is_value e) ∧ rest = []) →
  ∃ n' d, tryGet fuel n (pre ++ rest) (length pre) = tok (tget e rest, n', d) ∧ expands n' e.
Proof.
  induction fuel as [|fuel IH]; [lia|]. intros n e pre rest Hfuel Hex Hcase.
  assert (drop (length pre) (pre ++ rest) = rest) as Hdrop by apply drop_app_length.
  assert (len (pre ++ rest) - Z.of_nat (length pre) = len rest) as Hlen by (rewrite len_app; unfold len; lia).
  destruct Hex as [|w|cs es Hcs|k nv ev Hv|h m e Hm Hin Hex]; cbn [tryGet].
  - exists NilNode, false. split; [done|constructor].
  - destruct Hcase as [[[?|?] _]|[_ ->]]; try done. exists (ValueNode w), false. split; [done|constructor].
  - destruct Hcase as [[[?|Hcan] Hk]|[[?|?] _]]; try done.
    destruct rest as [|x krest]; [by apply term_key_nil in Hk|].
    destruct (full_child cs es x krest Hcan Hcs Hk) as (c & ec & Hi & Hx & Hec & Hexc & Hst & Hc).
    rewrite (go_index_ok _ _ x) by (lia || by rewrite Nat2Z.id, list_lookup_middle). cbv beta iota delta [mbind go_bind].
    rewrite Hi. destruct (IH c ec (pre ++ [x]) krest) as (n' & d & Ht & He').
    { pose proof (need_child c krest). unfold need in Hfuel. simpl in *. lia. } { done. }
    { destruct Hc as [(_ & -> & ?)|(_ & ? & ?)]; auto. }
    rewrite <-app_assoc, length_app, Nat.add_1_r in Ht. simpl in Ht. rewrite Ht. cbv beta iota delta [tbind tok].
    rewrite tget_full, Hec. simpl. destruct d; [rewrite Hst|]; eexists _, _; (split; [done|]); constructor; [|done].
    rewrite <-(list_insert_id es _ _ Hec). by apply Forall2_insert.
  - destruct Hcase as [[[?|Hcan] Hk]|[[?|?] _]]; try done. rewrite Hlen, Hdrop.
    assert (k ≠ []) as Hk0 by (destruct ev; try done; [by destruct Hcan as (_ & ? & _)|by apply term_key_ne]).
    rewrite <-(mk_short_ne k ev) by done. destruct (prefix_cases k rest) as [[r ->]|Hne].
    + rewrite bool_decide_false by (rewrite len_app; pose proof (len_nonneg r); lia).
      rewrite take_app_length, bool_decide_true by done. simpl orb. cbv iota.
      destruct (IH nv ev (pre ++ k) r) as (n' & d & Ht & He').
      { pose proof (need_child nv r). unfold need in Hfuel. rewrite length_app in Hfuel. destruct k; [done|].
        simpl in *. lia. } { done. }
      { destruct ev as [|es|? ?|?|w]; try done; [left|right].
        - destruct Hcan as (HF & _ & Hcan). split; [by right|by apply term_key_app in Hk].
        - split; [by right|]. by apply (term_key_prefix k). }
      rewrite <-app_assoc, length_app in Ht. rewrite Ht. cbv beta iota delta [tbind tok].
      rewrite tget_short_app, mk_short_ne by done. destruct d; eexists _, _; (split; [done|]); by constructor.
    + rewrite (bool_decide_false (k = take _ _)) by done. rewrite orb_true_r, tget_short_ne, mk_short_ne by done.
      exists (ShortNode k nv), false. split; [done|]. by constructor.
  - unfold resolveHash. rewrite Hm. cbv beta iota delta [tbind tok].
    destruct (IH m e pre rest) as (n' & d & -> & He'); [|done..|].
    { unfold need in *. destruct m; simpl in *; (done || lia). }
    exists n', true. done.
Qed.

(** ** Deletion *)
Lemma single_pos_cases cs :
  (single_pos cs = -1 ∧ Forall (λ c, c = NilNode) cs) ∨
  (single_pos cs = -2 ∧ ∃ i j c d, i ≠ j ∧ cs !! i = Some c ∧ c ≠ NilNode ∧ cs !! j = Some d ∧ d ≠ NilNode) ∨
  (∃ p c, single_pos cs = Z.of_nat p ∧ cs !! p = Some c ∧ c ≠ NilNode ∧
     ∀ i d, cs !! i = Some d → i ≠ p → d = NilNode).
Proof.
  induction cs as [|c cs IH] using rev_ind; [left; by repeat constructor|].
  unfold single_pos. rewrite imap_app, foldl_app. cbn [imap foldl fst snd]. fold (single_pos cs). rewrite Nat.add_0_r.
  assert (∀ i d, cs !! i = Some d → (cs ++ [c]) !! i = Some d) as Happ by (intros; by apply lookup_app_l_Some).
  assert ((cs ++ [c]) !! length cs = Some c) as Hlast by (by apply list_lookup_middle).
  assert (∀ i d, (cs ++ [c]) !! i = Some d → cs !! i = Some d ∨ (i = length cs ∧ d = c)) as Hinv.
  { intros i d Hi. apply lookup_app_Some in Hi as [?|[Hle Hi]]; [by left|right].
    apply list_lookup_singleton_Some in Hi as [? ->]. split; [lia|done]. }
  assert (c = NilNode ∨ c ≠ NilNode) as [->|Hc] by (destruct c; auto).
  - destruct IH as [[-> HF]|[(-> & i & j & d & d' & Hij & Hi & Hd & Hj & Hd')|(p & d & -> & Hp & Hd & Ho)]].
    + left. split; [done|]. apply Forall_app. by repeat constructor.
    + right; left. split; [done|]. exists i, j, d, d'. auto 10.
    + right; right. exists p, d. split_and!; auto. intros i d' [?|[-> ->]]%Hinv; [eauto|done].
  - assert ((match c with NilNode => single_pos cs
             | _ => if bool_decide (single_pos cs = -1) then Z.of_nat (length cs) else -2 end) =
      if bool_decide (single_pos cs = -1) then Z.of_nat (length cs) else -2) as -> by (by destruct c).
    destruct IH as [[-> HF]|[(-> & i & j & d & d' & Hij & Hi & Hd & Hj & Hd')|(p & d & -> & Hp & Hd & Ho)]].
    + right; right. exists (length cs), c. split_and!; auto. intros i d [Hi|[-> _]]%Hinv Hne; [|done].
      rewrite Forall_lookup in HF. eauto.
    + right; left. split; [done|]. exists i, j, d, d'. auto 10.
    + right; left. rewrite bool_decide_false by lia. split; [done|]. exists p, (length cs), d, c.
      split_and!; auto. apply lookup_lt_Some in Hp. lia.
Qed.

Lemma expands_nil c ec : expands c ec → c = NilNode ↔ ec = NilNode.
Proof.
  destruct 1 as [| | | |h n e _ Hn He]; try done. split; [done|]. intros ->. by apply expands_inner in He.
Qed.

Lemma resolve_ok c ec prefix :
  expands c ec → ∃ cn, resolve c prefix = inr cn ∧ expands cn ec ∧ is_hash cn = false.
Proof.
  destruct 1 as [|w|cs es Hcs|k nv ev Hv|h m e Hm Hin Hex]; simpl.
  5: { unfold resolveHash. rewrite Hm. exists m. by destruct m. }
  all: eexists; split_and!; [done|by constructor|done].
Qed.

(** A full node with one child left is a short node. *)
Lemma tget_single es p ec q :
  (∀ i d, es !! i = Some d → i ≠ p → d = NilNode) → es !! p = Some ec → term_key q →
  tget (mk_short [Z.of_nat p] ec) q = tget (FullNode es) q.
Proof.
  intros Ho Hp Hq. destruct q as [|z r]; [by apply term_key_nil in Hq|].
  assert (0 ≤ z) by (apply term_key_cons in Hq as [[-> _]|[Hz _]]; unfold nibble in *; lia).
  rewrite tget_full, tget_mk_short. simpl. rewrite skipn_O. case_decide as E.
  - simplify_eq. by rewrite Nat2Z.id, Hp.
  - destruct (es !! Z.to_nat z) as [d|] eqn:Ez; [|done]. simpl. rewrite (Ho _ _ Ez); [done|]. intros <-.
    apply E. f_equal. lia.
Qed.

Lemma reduce_ok cs es prefix :
  Forall2 expands cs es → length es = 17%nat → (∃ i c, es !! i = Some c ∧ c ≠ NilNode) →
  (∀ i c, es !! i = Some c → if decide (i = 16%nat) then c = NilNode ∨ is_value c else sub c) →
  ∃ n' e', reduce cs prefix = tok (true, n') ∧ expands n' e' ∧ canon e' ∧ is_hash n' = false ∧
    ∀ q, term_key q → tget e' q = tget (FullNode es) q.
Proof.
  intros Hex Hl (i & c & Hi & Hc) Hes. unfold reduce.
  destruct (single_pos_cases cs) as [[_ HF]|[(-> & i' & j & d & d' & Hij & Hi' & Hd & Hj & Hd')|(p & d & -> & Hp & Hd & Ho)]].
  - destruct (Forall2_lookup_r _ _ _ _ _ Hex Hi) as (c' & Hc' & Hec). rewrite Forall_lookup in HF.
    apply HF in Hc'. apply (expands_nil _ _ Hec) in Hc'. done.
  - rewrite bool_decide_false by lia. exists (FullNode cs), (FullNode es). split_and!; try done; [by constructor|].
    apply canon_full. split_and!; [done| |done].
    destruct (Forall2_lookup_l _ _ _ _ _ Hex Hi') as (e1 & ? & H1%expands_nil), (Forall2_lookup_l _ _ _ _ _ Hex Hj) as (e2 & ? & H2%expands_nil).
    exists i', j, e1, e2. rewrite <-H1, <-H2. by split_and!.
  - rewrite bool_decide_true by lia. rewrite (go_index_ok _ _ d) by (lia || by rewrite Nat2Z.id).
    cbv beta iota delta [mbind go_bind]. destruct (Forall2_lookup_l _ _ _ _ _ Hex Hp) as (ed & Hed & Hdd).
    assert (∀ q, term_key q → tget (mk_short [Z.of_nat p] ed) q = tget (FullNode es) q) as Hget.
    { intros q Hq. apply tget_single; [|done..]. intros j e Hj Hne.
      destruct (Forall2_lookup_r _ _ _ _ _ Hex Hj) as (e' & He' & Hee). apply (expands_nil _ _ Hee). eauto. }
    assert (ed ≠ NilNode) as Hedn by (by rewrite <-(expands_nil _ _ Hdd)).
    specialize (Hes p ed Hed). destruct (decide (p = 16%nat)) as [->|Hp16].
    + rewrite bool_decide_false by naive_solver. exists (ShortNode [16] d), (ShortNode [16] ed).
      split_and!; try done; [by constructor|]. destruct Hes as [?|Hv]; [done|]. destruct ed; try done. by exists [].
    + rewrite bool_decide_true by lia. destruct (resolve_ok d ed prefix Hdd) as (cn & -> & Hcn & Hh).
      apply lookup_lt_Some in Hed. assert (nibble (Z.of_nat p)) as Hn by (unfold nibble; lia).
      cbv beta iota delta [tbind tok]. destruct Hes as [?|Hcan]; [done|].
      destruct Hcn as [|w|cs' es' Hcs|k nv ev Hv|h m e Hm Hin _]; try done.
      * exists (ShortNode [Z.of_nat p] d), (ShortNode [Z.of_nat p] (FullNode es')).
        split_and!; try done; [by constructor|]. split_and!; [by apply Forall_singleton|done..].
      * exists (ShortNode (Z.of_nat p :: k) nv), (ShortNode (Z.of_nat p :: k) ev).
        split_and!; try done; [by constructor| |].
        -- destruct ev; try done; [destruct Hcan as (? & ? & ?); split_and!; [by constructor|done..]|].
           apply term_key_cons. by right.
        -- intros q Hq. rewrite <-Hget by done. rewrite <-(mk_short_ne (Z.of_nat p :: k)) by done.
           rewrite (tget_short_short [Z.of_nat p] k), (mk_short_ne k); [done|].
           destruct ev; try done; [by destruct Hcan as (_ & ? & _)|by apply term_key_ne].
Qed.

Definition deletes (fuel : nat) (n e : Node) (prefix key : bytes) : Prop :=
  ∃ d n' e', delete fuel n prefix key = tok (d, n') ∧ expands n' e' ∧ sub e' ∧
    updated e e' key None ∧ (d = false → e' = e) ∧ (d = true → is_hash n' = false) ∧ (is_full e → e' ≠ NilNode).

(** A short node that does not lead to the key. *)
Lemma deletes_none fuel n e prefix key :
  expands n e → sub e → tget e key = None → delete fuel n prefix key = tok (false, n) → deletes fuel n e prefix key.
Proof.
  intros Hex Hsub Hg Hd. exists false, n, e. split_and!; try done; [|by intros ? ->].
  intros q Hq. case_decide; by subst.
Qed.

Lemma delete_short fuel k nv ev prefix key :
  (∀ n e prefix key, (need n key ≤ fuel)%nat → expands n e → sub e → term_key key → deletes fuel n e prefix key) →
  (2 * length key ≤ S fuel)%nat → expands nv ev → canon (ShortNode k ev) → term_key key →
  deletes (S fuel) (ShortNode k nv) (ShortNode k ev) prefix key.
Proof.
  intros IH Hfuel Hex Hcan Hkey.
  assert (k ≠ []) as Hk by (destruct ev; try done; [by destruct Hcan as (_ & ? & _)|by apply term_key_ne]).
  destruct (prefixLen_cases key k) as [(r & -> & Hm)|[(y & r & Hk' & Hm)|(c & x & y & a & b & Ha & Hb & Hxy & Hm)]].
  - unfold deletes. cbn [delete]. rewrite Hm. rewrite bool_decide_false by lia.
    destruct (is_value_dec ev) as [[w ->]|Hv].
    + simpl in Hcan. rewrite (term_key_prefix k r) by done. rewrite app_nil_r, bool_decide_true by done.
      exists true, NilNode, NilNode. split_and!; try done; [constructor|by left|].
      intros q Hq. rewrite <-!mk_short_ne, tget_leaf by done. by case_decide.
    + assert (Forall nibble k ∧ canon ev ∧ is_full ev) as (HF & Hev & Hfull)
        by (destruct ev; try done; by destruct Hcan as (? & ? & ?)).
      apply term_key_app in Hkey as Hr; [|done]. pose proof (term_key_ne _ Hr) as Hr0.
      rewrite bool_decide_false by (rewrite len_app; destruct r; [done|rewrite len_cons; pose proof (len_nonneg r); lia]).
      rewrite take_app_length, drop_app_length.
      destruct (IH nv ev (prefix ++ k) r) as (d & n' & e' & -> & He' & Hs' & Hu & Hd & Hh & Hf).
      { pose proof (need_child nv r). rewrite length_app in Hfuel. destruct k; [done|]. simpl in *. lia. }
      { done. } { by right. } { done. }
      pose proof (updated_short k _ _ _ _ HF Hu) as Hu'. rewrite (mk_short_ne k ev) in Hu' by done.
      cbv beta iota delta [tbind tok]. destruct d; [|specialize (Hd eq_refl) as ->; rewrite mk_short_ne in Hu' by done;
        exists false, (ShortNode k nv), (ShortNode k ev); split_and!; try done; [by constructor|by right]].
      specialize (Hh eq_refl). destruct Hs' as [->|Hc']; [by destruct (Hf Hfull)|].
      destruct He' as [|w|cs' es' Hcs|ck cv ce Hcv|h m e Hm' Hin _]; try done.
      * exists true, (ShortNode k (FullNode cs')), (ShortNode k (FullNode es')). rewrite (mk_short_ne k) in Hu' by done.
        split_and!; try done; [by repeat constructor|by right].
      * exists true, (ShortNode (k ++ ck) cv), (ShortNode (k ++ ck) ce).
        split_and!; try done; [by constructor|right|].
        -- destruct ce; try done; [destruct Hc' as (? & ? & ?); split_and!; [by apply Forall_app|by destruct k|done]|].
           by apply term_key_app.
        -- intros q Hq. rewrite <-Hu' by done. rewrite <-(mk_short_ne (k ++ ck)) by (by destruct k).
           rewrite tget_short_short, (mk_short_ne ck); [done|].
           destruct ce; try done; [by destruct Hc' as (_ & ? & _)|by apply term_key_ne].
  - apply deletes_none; [by constructor|by right| |].
    + rewrite <-mk_short_ne by done. apply tget_short_ne. rewrite Hk'. intros E%(f_equal length).
      rewrite length_take, !length_app in E. simpl in E. lia.
    + cbn [delete]. rewrite Hm, bool_decide_true; [done|]. rewrite Hk', len_app, len_cons. pose proof (len_nonneg r). lia.
  - apply deletes_none; [by constructor|by right| |].
    + rewrite <-mk_short_ne by done. rewrite Ha, Hb, tget_short_short, tget_short_app. apply tget_short_ne. simpl. congruence.
    + cbn [delete]. rewrite Hm, bool_decide_true; [done|]. rewrite Hb, len_app, len_cons. pose proof (len_nonneg b). lia.
Qed.

(** The child of a full node after the deletion below it. *)
Lemma delete_child fuel c ec x prefix krest :
  (∀ n e prefix key, (need n key ≤ fuel)%nat → expands n e → sub e → term_key key → deletes fuel n e prefix key) →
  (2 * length krest + 1 ≤ fuel)%nat → expands c ec →
  (x = 16 ∧ krest = [] ∧ (ec = NilNode ∨ is_value ec)) ∨ (nibble x ∧ term_key krest ∧ sub ec) →
  ∃ d n' e', delete fuel c prefix krest = tok (d, n') ∧ expands n' e' ∧ (d = true → is_hash n' = false) ∧
    (e' = NilNode ∨ in_slot (Z.to_nat x) e') ∧ (d = false → e' = ec) ∧
    (∀ k, term_key (x :: k) → tget e' k = if decide (k = krest) then None else tget ec k).
Proof.
  intros IH Hfuel Hexc [(-> & -> & He)|(Hn & Hk & He)].
  - assert (∀ e k, e = NilNode ∨ is_value e → term_key (16 :: k) → k = []) as Hend.
    { intros e k _ [[_ ->]|[Hk _]]%term_key_cons; [done|]. unfold nibble in Hk. lia. }
    destruct fuel as [|fuel]; [simpl in *; lia|]. rewrite (expands_outer c ec Hexc) by
      (destruct He as [->|He]; [intros []|destruct ec; try done; intros []]).
    destruct He as [->|He]; [exists false, NilNode, NilNode|destruct ec; try done; exists true, NilNode, NilNode];
      (split_and!; try done; [constructor|by left|]; intros k Hk; rewrite (Hend NilNode k) by auto; done).
  - destruct (IH c ec prefix krest) as (d & n' & e' & -> & He' & Hs & Hu & Hd & Hh & _);
      [pose proof (need_child c krest); lia|done..|].
    exists d, n', e'. split_and!; try done.
    + destruct Hs as [->|?]; [by left|right]. unfold in_slot, nibble in *. by rewrite decide_False by lia.
    + intros k [[-> _]|[_ Hk']]%term_key_cons; [unfold nibble in Hn; lia|by apply Hu].
Qed.

Lemma delete_full fuel cs es prefix key :
  (∀ n e prefix key, (need n key ≤ fuel)%nat → expands n e → sub e → term_key key → deletes fuel n e prefix key) →
  (2 * length key ≤ S fuel)%nat → Forall2 expands cs es → canon (FullNode es) → term_key key →
  deletes (S fuel) (FullNode cs) (FullNode es) prefix key.
Proof.
  intros IH Hfuel Hex Hcan Hkey. destruct key as [|x krest]; [by apply term_key_nil in Hkey|].
  destruct (full_child cs es x krest Hcan Hex Hkey) as (c & ec & Hi & Hx & Hec & Hexc & Hst & Hcase).
  destruct (delete_child fuel c ec x (prefix ++ [x]) krest IH) as (d & n' & e' & Hdel & He' & Hh & Hs & Hd & Hu);
    [simpl in *; lia|done..|].
  unfold deletes. cbn [delete]. rewrite Hi. cbv beta iota delta [mbind go_bind].
  rewrite Hdel. cbv beta iota delta [tbind tok].
  pose proof (updated_full es x ec e' krest None ltac:(lia) Hec Hu) as Hup. destruct d.
  2: { specialize (Hd eq_refl) as ->. rewrite list_insert_id in Hup by done.
       exists false, (FullNode cs), (FullNode es). split_and!; try done; [by constructor|by right]. }
  rewrite Hst. assert (Forall2 expands (<[Z.to_nat x:=n']> cs) (<[Z.to_nat x:=e']> es)) as Hex' by (by apply Forall2_insert).
  destruct Hs as [->|Hslot].
  - rewrite (proj2 (expands_nil _ _ He')) in Hex' |- * by done.
    apply canon_full in Hcan as (Hl & (i & j & d & d' & Hij & Hi' & Hd1 & Hj & Hd2) & Hes).
    destruct (reduce_ok _ _ prefix Hex') as (n1 & e1 & -> & He1 & Hc1 & Hh1 & Hg1).
    { by rewrite length_insert. }
    { destruct (decide (i = Z.to_nat x)) as [Heq|]; [exists j, d'|exists i, d]; by rewrite list_lookup_insert_ne by congruence. }
    { intros i' y Hy. apply list_lookup_insert_Some in Hy as [(_ & <- & _)|[_ Hy]]; [|exact (Hes _ _ Hy)].
      unfold sub. destruct (decide _); by left. }
    exists true, n1, e1. split_and!; try done; [by right| |by intros _ ->].
    intros q Hq. by rewrite Hg1, Hup.
  - destruct (in_slot_child _ _ Hslot) as [Hne _].
    exists true, (FullNode (<[Z.to_nat x := n']> cs)), (FullNode (<[Z.to_nat x := e']> es)).
    split_and!; try done; [|by constructor|right; by apply canon_set_child].
    assert (n' ≠ NilNode) by (by rewrite (expands_nil _ _ He')). by destruct n'.
Qed.

Lemma delete_ok fuel : ∀ n e prefix key,
  (need n key ≤ fuel)%nat → expands n e → sub e → term_key key → deletes fuel n e prefix key.
Proof.
  induction fuel as [|fuel IH]; intros n e prefix key Hfuel Hex Hsub Hkey.
  { unfold need in Hfuel. destruct key; [by apply term_key_nil in Hkey|simpl in Hfuel; lia]. }
  destruct Hex as [|w|cs es Hcs|k nv ev Hv|h m e Hm Hin Hex].
  - apply deletes_none; [constructor|by left|done..].
  - by destruct Hsub.
  - destruct Hsub as [?|?]; [done|]. apply delete_full; auto. unfold need in Hfuel. simpl in Hfuel. lia.
  - destruct Hsub as [?|?]; [done|]. apply delete_short; auto. unfold need in Hfuel. simpl in Hfuel. lia.
  - unfold deletes. cbn [delete]. unfold resolveHash. rewrite Hm. cbv beta iota delta [tbind tok].
    destruct (IH m e prefix key) as (d & n' & e' & -> & He' & Hc & Hu & Hd & Hh & Hf); [|done..|].
    { unfold need in *. destruct m; simpl in *; (done || lia). }
    destruct d; [by exists true, n', e'|]. specialize (Hd eq_refl) as ->. by exists false, m, e.
Qed.
End stored.

(** ** A canonical trie is determined by its entries *)
Lemma full_key es i c :
  canon (FullNode es) → (∀ c, es !! i = Some c → canon c → ∃ q w, term_key q ∧ tget c q = Some w) →
  es !! i = Some c → c ≠ NilNode →
  ∃ q w, term_key (Z.of_nat i :: q) ∧ tget (FullNode es) (Z.of_nat i :: q) = Some w.
Proof.
  intros (Hl & _ & Hes)%canon_full IH Hi Hc. specialize (Hes _ _ Hi). pose proof (lookup_lt_Some _ _ _ Hi).
  setoid_rewrite tget_full. rewrite Nat2Z.id, Hi. simpl. destruct (decide (i = 16%nat)) as [->|Hne].
  - destruct Hes as [?|Hv]; [done|]. destruct c as [| | | |v]; try done. exists [], v.
    split; [|done]. apply term_key_cons. by left.
  - destruct Hes as [?|Hv]; [done|]. destruct (IH c Hi Hv) as (q & w & Hq & Hw). exists q, w.
    split; [|done]. apply term_key_cons. right. unfold nibble. split; [lia|done].
Qed.

Lemma canon_inhabited e : canon e → ∃ q w, term_key q ∧ tget e q = Some w.
Proof.
  induction e as [|es IH|k v IH|h|v] using Node_nested_ind; try done; intros Hcan.
  - rewrite Forall_lookup in IH. pose proof Hcan as (_ & (i & j & c & d & _ & Hi & Hc & _) & _)%canon_full.
    destruct (full_key es i c Hcan) as (q & w & Hq & Hw); [by intros c' ? ?; eapply IH|done..|]. eauto.
  - destruct v as [|es|k' v'|h|w]; try done.
    + destruct Hcan as (HF & Hk & Hv). destruct (IH Hv) as (q & w & Hq & Hw). exists (k ++ q), w.
      split; [by apply term_key_app|]. rewrite <-mk_short_ne by done. by rewrite tget_short_app.
    + exists k, w. split; [done|]. rewrite <-mk_short_ne by (by apply term_key_ne). rewrite tget_leaf by done. by rewrite decide_True.
Qed.

(** A full node has keys that part at once. *)
Lemma full_two_keys es :
  canon (FullNode es) → ∃ i j q q' w w', i ≠ j ∧ term_key (i :: q) ∧ term_key (j :: q') ∧
    tget (FullNode es) (i :: q) = Some w ∧ tget (FullNode es) (j :: q') = Some w'.
Proof.
  intros Hcan. pose proof Hcan as (_ & (i & j & c & d & Hij & Hi & Hc & Hj & Hd) & _)%canon_full.
  destruct (full_key es i c Hcan (λ c _, canon_inhabited c) Hi Hc) as (q & w & Hq & Hw).
  destruct (full_key es j d Hcan (λ c _, canon_inhabited c) Hj Hd) as (q' & w' & Hq' & Hw').
  exists (Z.of_nat i), (Z.of_nat j), q, q', w, w'. split_and!; [lia|done..].
Qed.

Lemma short_keys k v q w : tget (ShortNode k v) q = Some w → ∃ r, q = k ++ r ∧ tget v r = Some w.
Proof.
  cbn [tget]. case_decide as E; [|done]. intros Hw. exists (drop (length k) q). split; [|done].
  by rewrite <-E at 1; rewrite take_drop.
Qed.

Lemma common_prefix (k1 k2 : bytes) : ∀ i j q q' r r', i ≠ j →
  k1 ++ i :: q = k2 ++ r → k1 ++ j :: q' = k2 ++ r' → ∃ s, k1 = k2 ++ s.
Proof.
  revert k1. induction k2 as [|x k2 IH]; intros k1 i j q q' r r' Hne H1 H2; [by exists k1|].
  destruct k1 as [|y k1]; simplify_eq/=. destruct (IH k1 i j q q' r r') as [s ->]; [done..|]. by exists s.
Qed.

Lemma canon_short k v :
  canon (ShortNode k v) → k ≠ [] ∧ ((∃ w, v = ValueNode w ∧ term_key k) ∨ (is_full v ∧ canon v ∧ Forall nibble k)).
Proof.
  destruct v as [|es|k' v'|h|w]; try done; intros Hc.
  - destruct Hc as (? & ? & ?). split; [done|by right].
  - split; [by apply term_key_ne|left; eauto].
Qed.

(** A full node and a short node differ. *)
Lemma full_not_short es k v :
  canon (FullNode es) → canon (ShortNode k v) → ¬ (∀ q, term_key q → tget (FullNode es) q = tget (ShortNode k v) q).
Proof.
  intros Hf [Hk _]%canon_short He. destruct (full_two_keys es Hf) as (i & j & q & q' & w & w' & Hij & Hi & Hj & Hw & Hw').
  rewrite He in Hw, Hw' by done. apply short_keys in Hw as (r & Hr & _), Hw' as (r' & Hr' & _).
  destruct k; simplify_eq/=.
Qed.

(** The keys below a full node under [k1] pin [k1] down. *)
Lemma ext_prefix k1 es k2 v :
  canon (FullNode es) → Forall nibble k1 →
  (∀ q, term_key q → tget (ShortNode k1 (FullNode es)) q = tget (ShortNode k2 v) q) → k1 ≠ [] → ∃ s, k1 = k2 ++ s.
Proof.
  intros Hf HF He Hk1. destruct (full_two_keys es Hf) as (i & j & q & q' & w & w' & Hij & Hi & Hj & Hw & Hw').
  pose proof (He (k1 ++ i :: q)) as E1. pose proof (He (k1 ++ j :: q')) as E2.
  rewrite <-(mk_short_ne k1), tget_short_app, Hw in E1 by done. rewrite <-(mk_short_ne k1), tget_short_app, Hw' in E2 by done.
  destruct (short_keys k2 v (k1 ++ i :: q) w) as (r & Hr & _); [symmetry; apply E1; by apply term_key_app|].
  destruct (short_keys k2 v (k1 ++ j :: q') w') as (r' & Hr' & _); [symmetry; apply E2; by apply term_key_app|].
  by eapply common_prefix.
Qed.

(** A leaf holds one key, an extension two at least. *)
Lemma leaf_not_ext k w k2 ds :
  term_key k → Forall nibble k2 → k2 ≠ [] → canon (FullNode ds) →
  ¬ (∀ q, term_key q → tget (ShortNode k (ValueNode w)) q = tget (ShortNode k2 (FullNode ds)) q).
Proof.
  intros Hk HF Hk2 Hc He. destruct (full_two_keys ds Hc) as (i & j & q & q' & x & x' & Hij & Hi & Hj & Hx & Hx').
  assert (∀ a y, term_key a → tget (FullNode ds) a = Some y → k2 ++ a = k) as Hall.
  { intros a y Ha Hy. assert (term_key (k2 ++ a)) as Ht by (by apply term_key_app). specialize (He (k2 ++ a) Ht).
    rewrite <-(mk_short_ne k) in He by (by apply term_key_ne).
    rewrite <-(mk_short_ne k2), tget_short_app, tget_leaf, Hy in He by done. by case_decide. }
  pose proof (Hall _ _ Hi Hx) as E1. pose proof (Hall _ _ Hj Hx') as E2. rewrite <-E1 in E2.
  apply app_inv_head in E2. by simplify_eq.
Qed.

Lemma canon_unique e1 : ∀ e2, sub e1 → sub e2 → (∀ q, term_key q → tget e1 q = tget e2 q) → e1 = e2.
Proof.
  assert (∀ e, sub e → (∀ q, term_key q → tget e q = None) → e = NilNode) as Hnil.
  { intros e [->|(q & w & Hq & Hw)%canon_inhabited] He; [done|]. by rewrite He in Hw. }
  induction e1 as [|es IH|k v IH|h|v] using Node_nested_ind; intros e2 [?|H1] H2 He; try done.
  - symmetry. apply Hnil; [done|]. intros q Hq. by rewrite <-He.
  - destruct H2 as [->|H2]; [by apply Hnil; [right|]|].
    destruct e2 as [|ds|k2 v2|h|v2]; try done; [f_equal|by destruct (full_not_short es k2 v2)].
    apply canon_full in H1 as (Hl1 & _ & H1), H2 as (Hl2 & _ & H2). apply list_eq_same_length with 17%nat; [done..|].
    intros i c d Hi Hc Hd. specialize (H1 _ _ Hc). specialize (H2 _ _ Hd). rewrite Forall_lookup in IH.
    assert (∀ q, term_key (Z.of_nat i :: q) → tget c q = tget d q) as Hcd.
    { intros q Hq. specialize (He _ Hq). rewrite !tget_full, !Nat2Z.id, Hc, Hd in He. done. }
    destruct (decide (i = 16%nat)) as [->|Hne].
    + specialize (Hcd [] ltac:(apply term_key_cons; by left)).
      destruct H1 as [H1|H1], H2 as [H2|H2]; destruct c, d; simplify_eq/=; done.
    + apply (IH i c Hc); [done..|]. intros q Hq. apply Hcd, term_key_cons. right. unfold nibble. split; [lia|done].
  - destruct H2 as [->|H2]; [by apply Hnil; [right|]|].
    destruct e2 as [|ds|k2 v2|h|v2]; try done; [destruct (full_not_short ds k v); try done; intros q Hq; by rewrite He|].
    apply canon_short in H1 as (Hk1 & [(w1 & -> & Hv1)|(Hf1 & Hc1 & HF1)]), H2 as (Hk2 & [(w2 & -> & Hv2)|(Hf2 & Hc2 & HF2)]).
    + specialize (He k Hv1). rewrite <-(mk_short_ne k), <-(mk_short_ne k2), !tget_leaf in He by done.
      rewrite decide_True in He by done. by case_decide; simplify_eq.
    + destruct v2 as [|ds| | |]; try done. by destruct (leaf_not_ext k w1 k2 ds).
    + destruct v as [|es| | |]; try done. destruct (leaf_not_ext k2 w2 k es); try done. intros q Hq. by rewrite He.
    + destruct v as [|es| | |], v2 as [|ds| | |]; try done.
      destruct (ext_prefix k es k2 (FullNode ds)) as [s ->]; [done..|].
      destruct (ext_prefix k2 ds (k2 ++ s) (FullNode es)) as [s' Hs']; [done|done|by intros; rewrite He|done|].
      rewrite <-app_assoc in Hs'. rewrite <-(app_nil_r k2) in Hs' at 1. apply app_inv_head in Hs'. symmetry in Hs'.
      apply app_eq_nil in Hs' as [-> _]. rewrite app_nil_r in *. f_equal. apply IH; [by right..|].
      intros q Hq. specialize (He (k2 ++ q) ltac:(by apply term_key_app)).
      by rewrite <-!(mk_short_ne k2), !tget_short_app in He by done.
Qed.

(** ** Tries with keys of one length *)

(** The two readings of a trie agree where values are below short nodes. *)
Lemma tget_tree_get n : ∀ m key, wf_tree n m → term_key key → tget n key = tree_get n key.
Proof.
  induction n as [|cs IH|k v IH|h|v] using Node_nested_ind; intros m key Hw Hk; try done.
  - destruct key as [|x key]; [done|]. rewrite tget_full, tree_get_full.
    destruct Hw as (Hl & _ & H16 & Hcs%wf_tree_children). destruct (cs !! Z.to_nat x) as [c|] eqn:E; [|done]. simpl.
    rewrite Forall_lookup in IH, Hcs. destruct (Hcs _ _ E) as [->|Hc]; [done|].
    apply term_key_cons in Hk as [[-> ->]|[_ Hk]]; [|by eapply IH]. change (Z.to_nat 16) with 16%nat in E. by assert (c = NilNode) as -> by congruence.
  - destruct (wf_tree_short _ _ _ Hw) as [(x & ns & -> & -> & HF & Hl)|(Hv & HF & Hl & Hwv)].
    + assert (term_key (ns ++ [16])) as Ht by (by exists ns). rewrite <-(mk_short_ne _ (ValueNode x)) by (by apply term_key_ne).
      rewrite tget_leaf, mk_short_ne by (done || by apply term_key_ne).
      cbn [tree_get]. repeat case_decide; simplify_eq; done.
    + rewrite tree_get_ext by done. rewrite <-(mk_short_ne k) by (intros ->; simpl in Hl; lia).
      rewrite tget_mk_short. case_decide as Ht; [|done]. eapply IH; [done|].
      apply (term_key_app k); [done|]. by rewrite <-Ht at 1; rewrite take_drop.
Qed.

(** With keys of one length only, values are never in a full node. *)
Lemma canon_wf_tree e : ∀ m,
  canon e → (∀ q w, term_key q → tget e q = Some w → length q = S m) → wf_tree e m.
Proof.
  induction e as [|es IH|k v IH|h|v] using Node_nested_ind; intros m Hc Hlen; try done.
  - pose proof (full_two_keys es Hc) as (i & j & q & q' & w & w' & Hij & Hi & Hj & Hw & Hw').
    assert (1 ≤ m)%nat as Hm.
    { assert (∀ i q w, i ≠ 16 → term_key (i :: q) → tget (FullNode es) (i :: q) = Some w → (1 ≤ m)%nat) as Hone.
      { intros i' p u Hi' Ht Hu. pose proof (Hlen _ _ Ht Hu) as Hl. apply term_key_cons in Ht as [[? _]|[_ Ht]]; [done|].
        apply term_key_ne in Ht. destruct p; [done|]. simpl in Hl. lia. }
      destruct (decide (i = 16)) as [->|]; [apply (Hone j q' w'); auto|by apply (Hone i q w)]. }
    apply canon_full in Hc as (Hl & _ & Hes). rewrite Forall_lookup in IH.
    destruct (lookup_lt_is_Some_2 es 16) as [c16 H16]; [lia|].
    assert (c16 = NilNode) as ->.
    { pose proof (Hes _ _ H16) as Hs. rewrite decide_True in Hs by done. destruct Hs as [?|Hv]; [done|].
      destruct c16 as [| | | |x]; try done. specialize (Hlen [16] x). rewrite tget_full in Hlen. change (Z.to_nat 16) with 16%nat in Hlen.
      rewrite H16 in Hlen. simpl in Hlen. assert (1 = S m)%nat; [|lia]. apply Hlen; [|done]. by exists []. }
    split_and!; [done|done|done|]. apply wf_tree_children, Forall_lookup. intros x c Hx.
    pose proof (Hes _ _ Hx) as Hs. destruct (decide (x = 16%nat)) as [->|Hne]; [left; congruence|].
    destruct Hs as [?|Hcc]; [by left|right]. apply (IH x c Hx); [done|]. intros p u Hp Hu.
    pose proof (lookup_lt_Some _ _ _ Hx).
    assert (length (Z.of_nat x :: p) = S m); [|simpl in *; lia]. apply (Hlen _ u).
    + apply term_key_cons. right. unfold nibble. split; [lia|done].
    + by rewrite tget_full, Nat2Z.id, Hx.
  - apply canon_short in Hc as [Hk [(w & -> & Ht)|(Hf & Hc & HF)]].
    + destruct Ht as (ns & -> & HF). exists ns. split_and!; [done..|].
      assert (length (ns ++ [16]) = S m); [|rewrite length_app in *; simpl in *; lia].
      apply (Hlen _ w); [by exists ns|]. rewrite <-mk_short_ne, tget_leaf by (done || by exists ns). by rewrite decide_True.
    + assert (∀ q w, term_key q → tget v q = Some w → (length k + length q = S m)%nat) as Hlen'.
      { intros q w Hq Hw. rewrite <-length_app. apply (Hlen _ w); [by apply term_key_app|]. by rewrite <-mk_short_ne, tget_short_app. }
      destruct (canon_inhabited v Hc) as (q & w & Hq & Hw). pose proof (Hlen' q w Hq Hw). pose proof (term_key_ne q Hq).
      assert (wf_tree v (m - length k)) by (apply IH; [done|]; intros p u Hp Hu; specialize (Hlen' p u Hp Hu);
        pose proof (term_key_ne p Hp); destruct k, q, p; simpl in *; done || lia).
      destruct v; try done. split_and!; try done; destruct k, q; simpl in *; done || lia.
Qed.

(** Writing values keeps the form. *)
Lemma upd_tree_canon EncodeToBytes U n : ∀ p, canon n → canon (upd_tree EncodeToBytes U p n).
Proof.
  induction n as [|cs IH|k v IH|h|v] using Node_nested_ind; intros p; try done.
  - intros (Hl & (i & j & c & d & Hij & Hi & Hc & Hj & Hd) & Hcs)%canon_full. rewrite upd_tree_full. apply canon_full.
    assert (∀ c p, c ≠ NilNode → upd_tree EncodeToBytes U p c ≠ NilNode) as Hne by (intros [| |? []| |]; done).
    rewrite length_upd_children. split_and!; [done| |].
    + eexists i, j, _, _. rewrite !lookup_upd_children, Hi, Hj. split_and!; try done; by apply Hne.
    + intros i' c'. rewrite lookup_upd_children. destruct (cs !! i') as [x|] eqn:E; [|done]. intros [= <-].
      specialize (Hcs _ _ E). rewrite Forall_lookup in IH. destruct (decide (i' = 16%nat)).
      * destruct Hcs as [->|Hv]; [by left|right; by destruct x].
      * destruct Hcs as [->|Hv]; [by left|right; by eapply IH].
  - intros [Hk [(w & -> & Ht)|(Hf & Hc & HF)]]%canon_short; [done|]. destruct v; try done.
    rewrite upd_tree_short by (intros []). specialize (IH (p ++ k) Hc). rewrite upd_tree_full in *. done.
Qed.

(** ** The trie as a map *)
Lemma keybytesToHex_inj k1 k2 :
  Forall in_u8 k1 → Forall in_u8 k2 → keybytesToHex k1 = keybytesToHex k2 → k1 = k2.
Proof.
  intros H1 H2 He. pose proof (hexToKeybytes_keybytes k1 H1) as E1. rewrite He, hexToKeybytes_keybytes in E1 by done. by simplify_eq.
Qed.

(** One update of the abstract map: an empty value removes the key. *)
Definition map_update (m : gmap bytes bytes) (kv : bytes * bytes) : gmap bytes bytes :=
  match kv.2 with [] => base.delete kv.1 m | v => <[kv.1 := v]> m end.

Lemma foldl_map_update ops : ∀ m,
  NoDup ops.*1 → Forall (λ kv, kv.2 ≠ []) ops →
  (∀ k v, (k, v) ∈ ops → foldl map_update m ops !! k = Some v) ∧
  (∀ k, k ∉ ops.*1 → foldl map_update m ops !! k = m !! k).
Proof.
  induction ops as [|[k0 v0] ops IH]; intros m Hnd Hne; simpl; [by split; [intros ? ? ?%elem_of_nil|]|].
  apply NoDup_cons in Hnd as [Hn Hnd]. apply Forall_cons in Hne as [Hv Hne].
  destruct (IH (map_update m (k0, v0)) Hnd Hne) as [Hin Hout].
  assert (map_update m (k0, v0) = <[k0 := v0]> m) as Hmu by (by destruct v0). split.
  - intros k v [E|Hk]%elem_of_cons; [|auto]. simplify_eq. rewrite Hout by done. rewrite Hmu. by simplify_map_eq.
  - intros k [Hk Hkn]%not_elem_of_cons. rewrite Hout by done. rewrite Hmu. by simplify_map_eq.
Qed.

(** The canonical trie [e] has exactly the entries of [m]. *)
Definition entries (e : Node) (m : gmap bytes bytes) : Prop :=
  sub e ∧ (∀ k, Forall in_u8 k → tget e (keybytesToHex k) = m !! k) ∧
  (∀ q w, term_key q → tget e q = Some w → ∃ k, Forall in_u8 k ∧ q = keybytesToHex k).

Lemma entries_nil : entries NilNode ∅.
Proof. split_and!; [by left|done..]. Qed.

Lemma entries_unique e1 e2 m : entries e1 m → entries e2 m → e1 = e2.
Proof.
  intros (H1 & Hm1 & Hk1) (H2 & Hm2 & Hk2). apply canon_unique; [done..|]. intros q Hq.
  destruct (tget e1 q) as [w|] eqn:E1; [|destruct (tget e2 q) as [w|] eqn:E2; [|done]].
  - destruct (Hk1 q w Hq E1) as (k & Hk & ->). rewrite Hm1 in E1 by done. by rewrite Hm2.
  - destruct (Hk2 q w Hq E2) as (k & Hk & ->). rewrite Hm2 in E2 by done. rewrite Hm1 in E1 by done. congruence.
Qed.

Lemma entries_updated e e' m k o :
  entries e m → Forall in_u8 k → sub e' → updated e e' (keybytesToHex k) o →
  entries e' (match o with Some v => <[k := v]> m | None => base.delete k m end).
Proof.
  intros (Hs & Hm & Hk) Hu8 Hs' Hu. split_and!; [done| |].
  - intros k' Hk'. rewrite Hu by (by apply term_key_keybytes). rewrite Hm by done.
    destruct (decide (k' = k)) as [->|Hne].
    + rewrite decide_True by done. destruct o; simplify_map_eq; done.
    + rewrite decide_False by (intros ?%keybytesToHex_inj; done). destruct o; simplify_map_eq; done.
  - intros q w Hq Hw. rewrite Hu in Hw by done. case_decide; subst; eauto.
Qed.

Section refinement.
Context `{DB : NodeStore}.

(** The trie [t], part of which may be in the database, holds [m]. *)
Definition holds (t : Trie) (m : gmap bytes bytes) : Prop := ∃ e, expands (root t) e ∧ entries e m.

Lemma calls_need n k : (need n k < calls k)%nat.
Proof. unfold calls. pose proof (need_child n k). lia. Qed.

Lemma TryGet_ok t m k :
  holds t m → Forall in_u8 k → ∃ t', TryGet t k = Ret (t', inr (m !! k)) ∧ holds t' m.
Proof.
  intros (e & Hex & He) Hk. unfold TryGet.
  destruct (tryGet_ok (calls (keybytesToHex k)) (root t) e [] (keybytesToHex k)) as (n' & d & Ht & He').
  { apply calls_need. } { done. } { left. split; [apply He|by apply term_key_keybytes]. }
  simpl in Ht. rewrite Ht. cbv beta iota delta [mbind go_bind tok]. rewrite (proj1 (proj2 He)) by done.
  eexists. split; [done|]. exists e. by destruct d.
Qed.

Lemma TryDelete_ok t m k :
  holds t m → Forall in_u8 k → ∃ t', TryDelete t k = Ret (t', None) ∧ holds t' (base.delete k m).
Proof.
  intros (e & Hex & He) Hk. unfold TryDelete. pose proof (calls_need (root t) (keybytesToHex k)).
  destruct (delete_ok (calls (keybytesToHex k)) (root t) e [] (keybytesToHex k)) as (d & n' & e' & Hd & He' & Hs & Hu & _);
    [lia|done|apply He|by apply term_key_keybytes|].
  cbn [root]. rewrite Hd. eexists. split; [done|]. exists e'. split; [done|]. by apply (entries_updated e e' m k None).
Qed.

Lemma TryUpdate_ok t m k v :
  holds t m → Forall in_u8 k → ∃ t', TryUpdate t k v = Ret (t', None) ∧ holds t' (map_update m (k, v)).
Proof.
  intros Ht Hk. unfold TryUpdate. destruct v as [|b v]; [by apply TryDelete_ok|].
  rewrite bool_decide_true by (rewrite len_cons; pose proof (len_nonneg v); lia). destruct Ht as (e & Hex & He).
  pose proof (calls_need (root t) (keybytesToHex k)).
  destruct (insert_ok (calls (keybytesToHex k)) (root t) e [] (keybytesToHex k) (b :: v))
    as (d & n' & e' & Hd & He' & Hs & Hu & _); [lia|done|apply He|by apply term_key_keybytes|].
  cbn [root]. rewrite Hd. eexists. split; [done|]. exists e'. split; [done|].
  apply (entries_updated e e' m k (Some (b :: v))); try done. by right.
Qed.

(** A sequence of updates. *)
Definition updates (t : Trie) (ops : list (bytes * bytes)) : go Trie := go_fold (λ t kv, Update t kv.1 kv.2) t ops.

Lemma updates_ok ops : ∀ t m,
  holds t m → Forall (λ kv, Forall in_u8 kv.1) ops → ∃ t', updates t ops = Ret t' ∧ holds t' (foldl map_update m ops).
Proof.
  induction ops as [|[k v] ops IH]; intros t m Ht Hops; [by exists t|]. apply Forall_cons in Hops as [Hk Hops].
  destruct (TryUpdate_ok t m k v Ht Hk) as (t1 & H1 & Ht1). destruct (IH t1 _ Ht1 Hops) as (t' & H' & Ht').
  exists t'. split; [|done]. change (updates t ((k, v) :: ops)) with (t1 ← Update t k v; updates t1 ops).
  assert (Update t k v = Ret t1) as -> by (unfold Update; by rewrite H1). exact H'.
Qed.

(** C4. The trie refines a finite map: on a trie that holds [m], whatever part
    of it is still in the database, any sequence of updates succeeds, and
    each later lookup returns what the updated map has for the key; an update
    with an empty value removes the key. *)
Theorem trie_refines_map t m ops k :
  holds t m → Forall (λ kv, Forall in_u8 kv.1) ops → Forall in_u8 k →
  ∃ t' t'', updates t ops = Ret t' ∧ Get t' k = Ret (t'', foldl map_update m ops !! k) ∧
    holds t'' (foldl map_update m ops).
Proof.
  intros Ht Hops Hk. destruct (updates_ok ops t m Ht Hops) as (t' & H' & Ht').
  destruct (TryGet_ok t' _ k Ht' Hk) as (t'' & H'' & Ht''). exists t', t''. split_and!; [done| |done].
  unfold Get. by rewrite H''.
Qed.

(** C35. The trie's form is an invariant: from an empty trie every sequence of
    updates keeps full nodes at two children or more, values in the last
    slot or below a terminated key, and never a short node below another. *)
Theorem updates_canonical ops :
  Forall (λ kv, Forall in_u8 kv.1) ops →
  ∃ t e, updates (mkTrie NilNode 0) ops = Ret t ∧ expands (root t) e ∧ (e = NilNode ∨ canon e).
Proof.
  intros Hops. destruct (updates_ok ops (mkTrie NilNode 0) ∅) as (t & Ht & e & He & Hs & _);
    [exists NilNode; split; [constructor|apply entries_nil]|done|]. by exists t, e.
Qed.

End refinement.

(** A trie in memory: an empty database. *)
Definition no_store : NodeStore := λ _, None.

Lemma expands_no_store n : ∀ e, expands (DB := no_store) n e → n = e.
Proof.
  induction n as [|cs IH|k v IH|h|v] using Node_nested_ind; intros e He; inversion He as [| |? es HF| |]; subst; try done.
  - f_equal. clear He. revert IH. induction HF as [|c e cs es Hc HF IHF]; [done|]. intros [Hce IH]%Forall_cons.
    f_equal; auto.
  - f_equal. auto.
Qed.

(** C9. The trie does not depend on its history: two sequences of updates
    that leave the same entries leave the same root node, hence the same root
    hash, whatever the order of the updates and however often keys were
    overwritten or removed on the way. *)
Theorem trie_history_independent ops1 ops2 :
  Forall (λ kv, Forall in_u8 kv.1) ops1 → Forall (λ kv, Forall in_u8 kv.1) ops2 →
  foldl map_update ∅ ops1 = foldl map_update ∅ ops2 →
  ∃ t1 t2, updates (DB := no_store) (mkTrie NilNode 0) ops1 = Ret t1 ∧
    updates (DB := no_store) (mkTrie NilNode 0) ops2 = Ret t2 ∧ root t1 = root t2.
Proof.
  intros H1 H2 Heq. assert (holds (DB := no_store) (mkTrie NilNode 0) ∅) as H0
    by (exists NilNode; split; [constructor|apply entries_nil]).
  destruct (updates_ok ops1 _ _ H0 H1) as (t1 & Ht1 & e1 & He1%expands_no_store & Hm1).
  destruct (updates_ok ops2 _ _ H0 H2) as (t2 & Ht2 & e2 & He2%expands_no_store & Hm2).
  exists t1, t2. split_and!; [done..|]. rewrite <-Heq in Hm2. rewrite He1, He2. by eapply entries_unique.
Qed.

(** ** Termination on arbitrary nodes *)
Section termination.
Context `{DB : NodeStore}.

(** Every short node has a key; nothing else is asked of the shape. *)
Fixpoint keyed (n : Node) : Prop :=
  match n with
  | FullNode cs => foldr (λ c P, keyed c ∧ P) True cs
  | ShortNode k v => k ≠ [] ∧ keyed v
  | _ => True
  end.
(** The database returns such nodes, and not a hash for a hash. *)
Hypothesis stored : ∀ h n, store_node h = Some n → keyed n ∧ is_hash n = false.

Lemma keyed_children cs : foldr (λ c P, keyed c ∧ P) True cs ↔ Forall keyed cs.
Proof. induction cs as [|c cs IH]; cbn [foldr]; [by rewrite Forall_nil|]. by rewrite Forall_cons, IH. Qed.

Lemma keyed_child cs x c : keyed (FullNode cs) → go_index cs x = Ret c → keyed c.
Proof. cbn [keyed]. rewrite keyed_children, Forall_lookup, go_index_Ret. intros HF [_ Hc]. eauto. Qed.

(** The run ends with a result or a panic. *)
Definition ends {A} (m : go A) : Prop := m ≠ Halt (Blocked "fuel").

Lemma ends_bind {A B} (m : go A) (f : A → go B) : ends m → (∀ a, m = Ret a → ends (f a)) → ends (m ≫= f).
Proof. unfold ends. destruct m; simpl; auto. congruence. Qed.
Lemma ends_tbind {A B} (m : tres A) (f : A → tres B) : ends m → (∀ a, m = tok a → ends (f a)) → ends (tbind m f).
Proof. unfold ends, tbind. destruct m as [[e|a]|h]; simpl; auto; congruence. Qed.
Lemma ends_index {A} (l : list A) i : ends (go_index l i).
Proof. unfold ends, go_index. case_bool_decide; [|done]. by destruct (l !! Z.to_nat i). Qed.
Lemma ends_store {A} (l : list A) i x : ends (go_store l i x).
Proof. unfold ends, go_store. by case_bool_decide. Qed.
Lemma ends_tok {A} (a : A) : ends (tok a).
Proof. done. Qed.
Lemma need_resolved n h key fuel :
  store_node (BytesToHash h) = Some n → (need (HashNode h) key < S fuel)%nat → (need n key < fuel)%nat ∧ keyed n.
Proof. intros Hn Hf. destruct (stored _ _ Hn) as [Hk Hh]. split; [|done]. unfold need in *. rewrite Hh. simpl in *. lia. Qed.

Lemma tryGet_ends fuel : ∀ n key pos,
  keyed n → (need n (drop pos key) < fuel)%nat → ends (tryGet fuel n key pos).
Proof.
  induction fuel as [|fuel IH]; [lia|]. intros n key pos Hk Hf.
  destruct n as [|cs|k v|h|w]; cbn [tryGet]; try done.
  - apply ends_bind; [apply ends_index|]. intros x Hx. apply ends_bind; [apply ends_index|]. intros c Hc.
    apply go_index_Ret in Hx as [_ Hx]. rewrite Nat2Z.id in Hx.
    apply ends_tbind.
    + apply IH; [by eapply keyed_child|]. unfold need in Hf. rewrite (drop_S _ _ _ Hx) in Hf.
      pose proof (need_child c (drop (S pos) key)). simpl in *. lia.
    + intros [[value nn] d] _. destruct d; [|done]. apply ends_bind; [apply ends_store|]. done.
  - destruct (bool_decide _ || _) eqn:E; [done|]. apply orb_false_iff in E as [E1%bool_decide_eq_false _].
    destruct Hk as [Hk Hv]. apply ends_tbind; [|by intros [[value nn] d] _].
    apply IH; [done|]. pose proof (need_child v (drop (pos + length k) key)) as Hn. unfold need in Hf. unfold len in E1.
    rewrite length_drop in Hf, Hn. destruct k; [done|]. simpl in *. lia.
  - unfold resolveHash. destruct (store_node _) as [m|] eqn:Hm; [|done]. simpl.
    destruct (need_resolved m h _ fuel Hm Hf). apply ends_tbind; [by apply IH|]. by intros [[value nn] d] _.
Qed.

Lemma insert_nil_ends fuel prefix key value : (1 ≤ fuel)%nat → ends (insert fuel NilNode prefix key value).
Proof. intros Hf. by rewrite insert_nil. Qed.

Lemma insert_ends fuel : ∀ n prefix key value,
  keyed n → (need n key < fuel)%nat → ends (insert fuel n prefix key value).
Proof.
  induction fuel as [|fuel IH]; [lia|]. intros n prefix key value Hk Hf.
  destruct key as [|x krest] eqn:Ek; [by destruct n, value|].
  cbn [insert]. destruct n as [|cs|k v|h|w]; try done.
  - apply ends_bind; [apply ends_index|]. intros c Hc. apply ends_tbind.
    + apply IH; [by eapply keyed_child|]. unfold need in Hf. pose proof (need_child c krest). simpl in *. lia.
    + intros [[] nn] _; [|done]. apply ends_bind; [apply ends_store|]. done.
  - destruct Hk as [Hk Hv]. rewrite <-Ek in *. case_bool_decide as E.
    + apply ends_tbind; [|by intros [[] nn] _]. apply IH; [done|].
      pose proof (need_child v (drop (Z.to_nat (prefixLen key k)) key)) as Hn. rewrite length_drop, E in Hn.
      rewrite E. unfold need in Hf. unfold len in *. rewrite Nat2Z.id in *. destruct k; [done|]. rewrite Ek in Hf, Hn |- *. simpl in *. lia.
    + assert (1 ≤ fuel)%nat by (unfold need in Hf; rewrite Ek in Hf; simpl in Hf; lia).
      repeat first [ apply ends_bind; [apply ends_index || apply ends_store|intros]
        | apply ends_tbind; [by apply insert_nil_ends|intros [? ?] _] ].
      by case_bool_decide.
  - unfold resolveHash. destruct (store_node _) as [m|] eqn:Hm; [|done]. simpl tbind.
    destruct (need_resolved m h _ fuel Hm Hf). apply ends_tbind; [by apply IH|]. by intros [[] nn] _.
Qed.

Lemma reduce_ends cs prefix : ends (reduce cs prefix).
Proof.
  unfold reduce. case_bool_decide; [|done]. apply ends_bind; [apply ends_index|]. intros c _.
  case_bool_decide; [|done]. apply ends_tbind; [done|]. by intros [] _.
Qed.

Lemma delete_ends fuel : ∀ n prefix key,
  keyed n → (need n key < fuel)%nat → ends (delete fuel n prefix key).
Proof.
  induction fuel as [|fuel IH]; [lia|]. intros n prefix key Hk Hf.
  cbn [delete]. destruct n as [|cs|k v|h|w]; try done.
  - destruct key as [|x krest]; [done|]. apply ends_bind; [apply ends_index|]. intros c Hc. apply ends_tbind.
    + apply IH; [by eapply keyed_child|]. unfold need in Hf. pose proof (need_child c krest). simpl in *. lia.
    + intros [[] nn] _; [|done]. apply ends_bind; [apply ends_store|]. intros cs' _.
      destruct nn; try done. apply reduce_ends.
  - destruct Hk as [Hk Hv]. case_bool_decide as E1; [done|]. case_bool_decide as E2; [done|].
    apply ends_tbind; [|by intros [[] []] _]. apply IH; [done|].
    pose proof (need_child v (drop (length k) key)) as Hn. unfold need in Hf. rewrite length_drop in Hn.
    destruct k; [done|]. destruct key; [done|]. simpl in *. lia.
  - unfold resolveHash. destruct (store_node _) as [m|] eqn:Hm; [|done]. simpl tbind.
    destruct (need_resolved m h _ fuel Hm Hf). apply ends_tbind; [by apply IH|]. by intros [[] nn] _.
Qed.

(** Lookup, update and deletion end on any trie, also a malformed one, and
    for any key: they return or panic within twice the length of the key's
    hex form plus two calls. *)
Theorem trie_ops_end t key value :
  keyed (root t) → ends (TryGet t key) ∧ ends (TryUpdate t key value) ∧ ends (TryDelete t key).
Proof.
  intros Hk. pose proof (calls_need (root t) (keybytesToHex key)) as Hn.
  unfold TryGet, TryUpdate, TryDelete. split_and!; [|case_bool_decide|]; apply ends_bind;
    auto using tryGet_ends, insert_ends, delete_ends; (intros [?|[r ?]] _; [done|by destruct r]).
Qed.
End termination.

(** ** Witnesses *)
Module DemoStore.
(** A trie with one entry, of which only the root hash is loaded. *)
Definition h : bytes := replicate 32 7.
Definition node : Node := ShortNode (keybytesToHex [1]) (ValueNode [9]).
Definition store : NodeStore := λ k, if decide (k = h) then Some node else None.
Definition t : Trie := mkTrie (HashNode h) 0.

Lemma t_holds : holds (DB := store) t {[ [1] := [9] ]}.
Proof.
  assert (term_key (keybytesToHex [1])) as Hk by (apply term_key_keybytes; repeat constructor; unfold in_u8; lia).
  exists node. split; [|split_and!].
  - apply (ex_hash (DB := store) h node); [reflexivity|done|]. constructor. constructor.
  - right. exact Hk.
  - intros k Hu. change node with (mk_short (keybytesToHex [1]) (ValueNode [9])).
    rewrite tget_leaf by (done || by apply term_key_keybytes). destruct (decide (k = [1])) as [->|Hne]; [reflexivity|].
    rewrite decide_False, lookup_singleton_ne by (auto || (intros ?%keybytesToHex_inj; [done|done|repeat constructor; unfold in_u8; lia])). done.
  - intros q w Hq Hw. change node with (mk_short (keybytesToHex [1]) (ValueNode [9])) in Hw.
    rewrite tget_leaf in Hw by done. case_decide; [|done]. exists [1]. split; [repeat constructor; unfold in_u8; lia|done].
Qed.

Definition ops : list (bytes * bytes) := [([2], [5]); ([1], []); ([18], [6])].
Lemma ops_keys : Forall (λ kv, Forall in_u8 kv.1) ops.
Proof. repeat constructor; unfold in_u8; simpl; lia. Qed.
End DemoStore.

Lemma trie_refines_map_witness :
  ∃ t' t'', updates (DB := DemoStore.store) DemoStore.t DemoStore.ops = Ret t' ∧
    Get (DB := DemoStore.store) t' [18] = Ret (t'', Some [6]).
Proof.
  destruct (trie_refines_map (DB := DemoStore.store) DemoStore.t {[ [1] := [9] ]} DemoStore.ops [18])
    as (t' & t'' & H1 & H2 & _).
  - apply DemoStore.t_holds.
  - apply DemoStore.ops_keys.
  - repeat constructor; unfold in_u8; lia.
  - exists t', t''. split; [exact H1|exact H2].
Defined.

Lemma updates_canonical_witness :
  ∃ t e, updates (DB := no_store) (mkTrie NilNode 0) DemoStore.ops = Ret t ∧ expands (DB := no_store) (root t) e ∧
    (e = NilNode ∨ canon e).
Proof. apply updates_canonical. apply DemoStore.ops_keys. Defined.

Lemma trie_history_independent_witness :
  ∃ t1 t2, updates (DB := no_store) (mkTrie NilNode 0) DemoStore.ops = Ret t1 ∧
    updates (DB := no_store) (mkTrie NilNode 0) [([18], [6]); ([2], [5])] = Ret t2 ∧ root t1 = root t2.
Proof.
  apply trie_history_independent.
  - apply DemoStore.ops_keys.
  - repeat constructor; unfold in_u8; simpl; lia.
  - reflexivity.
Defined.

Lemma trie_ops_end_witness :
  ends (TryGet (DB := DemoStore.store) DemoStore.t [1]) ∧
  ends (TryUpdate (DB := DemoStore.store) DemoStore.t [1] [2]) ∧ ends (TryDelete (DB := DemoStore.store) DemoStore.t [1]).
Proof.
  apply (trie_ops_end (DB := DemoStore.store)); [|exact I].
  intros h n. unfold store_node, DemoStore.store. case_decide; [|discriminate]. intros [= <-]. split; [split; [discriminate|exact I]|reflexivity].
Defined.
