(* ===== verification/MerkleProof.v ===== *)
(** * Merkle proofs (src/trie/hasher.go, src/trie/proof.go: [Prove], [get],
    [VerifyProof]; src/committee/proof.go; [getStatusFromShard] of
    src/committee/committee.go).

    The shard proves the accounts it sends; the committee checks every
    account against the root before it uses it.  The trie of the theorems is
    the expanded trie of Rebuild: [nhash] is its root hash, [tree_get] the
    value at a key.  The hash is a parameter, and no theorem assumes it to be
    injective: what is assumed is that the nodes received do not collide
    with nodes of the trie. *)
From S2P Require Import Prelude Core Encoding Node Rebuild.
Local Open Scope Z_scope.

(** [core.ShardSendState] *)
Record ShardSendState := mkShardSendState {
  StatusTrieHash : bytes;
  AccountData : gmap bytes bytes;
  AccountsProofs : gmap bytes (list bytes);
  ssHeight : Z
}.

Section hasher.
Context `{RLP}.
(** [hashData]: Keccak-256. *)
Variable hashData : bytes → bytes.

(** [shortnodeToHash] and [fullnodeToHash]: small nodes stay in their
    parent. *)
Definition nodeToHash (n : Node) (force : bool) : Node :=
  let enc := encode n in
  if bool_decide (len enc < 32) && negb force then n else HashNode (hashData enc).

(** [hash] of the hasher with [hashShortNodeChildren] and
    [hashFullNodeChildren]: the hashed node; the sixteen children are hashed,
    nil ones become empty values, the slot is kept. *)
Fixpoint hash (n : Node) (force : bool) : Node :=
  match n with
  | ShortNode k v =>
      nodeToHash (ShortNode (compact_of k)
        (match v with FullNode _ | ShortNode _ _ => hash v false | _ => v end)) force
  | FullNode cs =>
      nodeToHash (FullNode
        ((fix go i cs := match cs with
            | [] => []
            | c :: cs =>
                (if bool_decide (i < 16)%nat then
                   match c with NilNode => ValueNode [] | _ => hash c false end
                 else c) :: go (S i) cs
            end) 0%nat cs)) force
  | n => n
  end.
Definition hashFullNodeChildren : nat → list Node → list Node :=
  fix go i cs := match cs with
                 | [] => []
                 | c :: cs =>
                     (if bool_decide (i < 16)%nat then
                        match c with NilNode => ValueNode [] | _ => hash c false end
                      else c) :: go (S i) cs
                 end.
Definition hashShortNodeChildren (k : bytes) (v : Node) : Node :=
  ShortNode (compact_of k) (match v with FullNode _ | ShortNode _ _ => hash v false | _ => v end).

(** [proofHash]: the collapsed node and its hash. *)
Definition proofHash (original : Node) : Node * Node :=
  match original with
  | ShortNode k v => (hashShortNodeChildren k v, nodeToHash (hashShortNodeChildren k v) false)
  | FullNode cs =>
      (FullNode (hashFullNodeChildren 0 cs), nodeToHash (FullNode (hashFullNodeChildren 0 cs)) false)
  | n => (n, n)
  end.

(** The first loop of [Prove] on a trie that is loaded: the nodes on the path
    to a hex key.  The branches of the source for a hash node, which is
    resolved from the database, and for a value node with key left, which
    panics, are not reached there and end the path here. *)
Fixpoint path (tn : Node) (key : bytes) : list Node :=
  match tn with
  | ShortNode k v =>
      if bool_decide (key = []) then []
      else tn :: (if decide (take (length k) key = k) then path v (drop (length k) key) else [])
  | FullNode cs =>
      match key with
      | [] => []
      | x :: key => tn :: nth (Z.to_nat x) (map (λ c, path c key) cs) []
      end
  | _ => []
  end.

(** The second loop; [first] is [i == 0], and [fromLevel] is zero in every
    call.  The result is the proof database. *)
Fixpoint put_nodes (first : bool) (nodes : list Node) (db : gmap bytes bytes) : gmap bytes bytes :=
  match nodes with
  | [] => db
  | n :: nodes =>
      let '(n, hn) := proofHash n in
      let enc := nodeToBytes n in
      let db :=
        match hn with
        | HashNode h => <[h := enc]> db
        | _ => if first then <[hashData enc := enc]> db else db
        end in
      put_nodes false nodes db
  end.
Definition Prove (root : Node) (key : bytes) : gmap bytes bytes :=
  put_nodes true (path root (keybytesToHex key)) ∅.

(** [get] with [skipResolved]. *)
Fixpoint get (tn : Node) (key : bytes) : go (bytes * Node) :=
  match tn with
  | ShortNode k v =>
      if decide (take (length k) key = k) then get v (drop (length k) key) else Ret ([], NilNode)
  | FullNode cs =>
      match key with
      | [] => Halt (GoPanic "index out of range")
      | x :: key => nth (Z.to_nat x) (map (λ c, get c key) cs) (Halt (GoPanic "index out of range"))
      end
  | HashNode h => Ret (key, HashNode h)
  | NilNode => Ret (key, NilNode)
  | ValueNode v => Ret ([], ValueNode v)
  end.

(** The result of [VerifyProof]: an error, no value, a value. *)
Inductive verdict := VError | VAbsent | VFound (v : bytes).

(** The loop of [VerifyProof]; [Get] is the proof database. *)
Fixpoint proof_loop (Get : bytes → option bytes) (fuel : nat) (wantHash key : bytes) : go verdict :=
  match fuel with
  | O => Halt (Blocked "fuel")
  | S fuel =>
      match Get wantHash with
      | None => Ret VError
      | Some buf =>
          match decodeNode (length buf) buf with
          | None => Ret VError
          | Some n =>
              '(keyrest, cld) ← get n key;
              match cld with
              | NilNode => Ret VAbsent
              | HashNode h => proof_loop Get fuel h keyrest
              | ValueNode v => Ret (VFound v)
              | _ => Halt (Blocked "loop")
              end
          end
      end
  end.
Definition VerifyProof (Get : bytes → option bytes) (fuel : nat) (rootHash key : bytes) : go verdict :=
  proof_loop Get fuel rootHash (keybytesToHex key).

(** [proofReader.Get] and [Has] *)
Fixpoint proofReader_Get (proof : list bytes) (key : bytes) : option bytes :=
  match proof with
  | [] => None
  | node :: proof => if bool_decide (hashData node = key) then Some node else proofReader_Get proof key
  end.
Definition proofReader_Has (proof : list bytes) (key : bytes) : bool :=
  match proofReader_Get proof key with Some _ => true | None => false end.

(** ** The expanded trie and its hashes *)
Fixpoint subtrees (n : Node) : list Node :=
  match n with
  | FullNode cs => n :: concat (map subtrees cs)
  | ShortNode k v => n :: subtrees v
  | _ => []
  end.

(** Every node has a valid encoding of at least 32 bytes. *)
Definition hashed_nodes (n : Node) : Prop :=
  Forall (λ s, wf_node (flat hashData s) ∧ 32 ≤ len (wire (flat hashData s))) (subtrees n).

Context `{!RLPLaws}.
Abbreviation ref := (ref hashData).
Abbreviation flat := (flat hashData).
Abbreviation nhash := (nhash hashData).

Lemma collapse_ref n : collapse (ref n) = ref n.
Proof. by destruct n. Qed.
Lemma depth_ref n : depth (ref n) = 0%nat.
Proof. by destruct n. Qed.

Lemma depth_flat n m : wf_tree n m → depth (flat n) = 1%nat.
Proof.
  destruct n as [|cs|k v|h|v]; try done; intros _; cbn [flat depth]; [|by rewrite depth_ref].
  f_equal. induction cs as [|c cs IH]; cbn [map foldr]; [done|]. by rewrite depth_ref, IH.
Qed.

(** The hash of a node is the hash of its wire form. *)
Lemma nhash_wire n m : wf_tree n m → nhash n = hashData (wire (flat n)).
Proof.
  destruct n as [|cs|k v|h|v]; try done; intros _; unfold wire; cbn [flat collapse].
  - unfold Rebuild.nhash. cbn [Rebuild.ref]. do 3 f_equal. induction cs; cbn [map]; [done|]. by rewrite collapse_ref; f_equal.
  - unfold Rebuild.nhash. cbn [Rebuild.ref]. by rewrite collapse_ref.
Qed.

Lemma decode_flat n m :
  wf_tree n m → wf_node (flat n) → decodeNode (length (wire (flat n))) (wire (flat n)) = Some (flat n).
Proof.
  intros Hw [Hf Hd]. rewrite <-(app_nil_r (wire (flat n))) at 2. apply decodeNode_wire; [done..|].
  rewrite (depth_flat n m) by done.
  destruct n as [|cs|k v|h|v]; try done; unfold wire; cbn [Rebuild.flat collapse encode].
  - pose proof (WriteList_nonempty (concat (map encode (map collapse (map ref cs))))) as Hne.
    destruct (WriteList _); [done|simpl; lia].
  - pose proof (WriteList_nonempty (WriteBytes (compact_of k) ++ encode (collapse (ref v)))) as Hne.
    destruct (WriteList _); [done|simpl; lia].
Qed.

Lemma subtrees_child cs c : c ∈ cs → ∀ s, s ∈ subtrees c → s ∈ subtrees (FullNode cs).
Proof. intros Hc s Hs. right. apply elem_of_concat_map. eauto. Qed.

Lemma hashed_nodes_child cs c : c ∈ cs → hashed_nodes (FullNode cs) → hashed_nodes c.
Proof. unfold hashed_nodes. rewrite !Forall_forall. eauto using subtrees_child. Qed.
Lemma hashed_nodes_val k v : hashed_nodes (ShortNode k v) → hashed_nodes v.
Proof. unfold hashed_nodes. by intros [_ ?]%Forall_cons_1. Qed.
Lemma hashed_nodes_self n m : wf_tree n m → hashed_nodes n → wf_node (flat n) ∧ 32 ≤ len (wire (flat n)).
Proof. destruct n; try done; intros _; by intros [? _]%Forall_cons_1. Qed.

(** Every subtree is itself an expanded trie. *)
Lemma subtrees_wf n : ∀ m, wf_tree n m → Forall (λ s, ∃ m', wf_tree s m') (subtrees n).
Proof.
  induction n as [|cs IH|k v IH|h|v] using Node_nested_ind; intros m Hw; try done; cbn [subtrees];
    (constructor; [by exists m|]).
  - destruct Hw as (_ & _ & _ & Hcs%wf_tree_children). apply Forall_forall.
    intros s (c & Hc & Hs)%elem_of_concat_map. rewrite Forall_forall in IH, Hcs.
    destruct (Hcs c Hc) as [->|Hw]; [by apply elem_of_nil in Hs|].
    specialize (IH c Hc _ Hw). rewrite Forall_forall in IH. auto.
  - apply wf_tree_short in Hw as [(x & ns & -> & _)|(_ & _ & _ & Hw)]; [constructor|eauto].
Qed.

(** ** The hasher computes the references of the expanded trie *)
Lemma nodeToHash_big n enc force : enc = encode n → 32 ≤ len enc → nodeToHash n force = HashNode (hashData enc).
Proof. intros -> Hl. unfold nodeToHash. by rewrite bool_decide_false by lia. Qed.

Lemma encode_children cs : ∀ i,
  Forall (λ c, c ≠ NilNode → hash c false = ref c) cs → (∀ j c, cs !! j = Some c → c ≠ NilNode → (i + j < 16)%nat) →
  map encode (hashFullNodeChildren i cs) = map encode (map ref cs).
Proof.
  induction cs as [|c cs IH]; intros i HF Hi; cbn [hashFullNodeChildren map]; [done|].
  apply Forall_cons in HF as [Hc HF]. f_equal.
  - specialize (Hi 0%nat c eq_refl). destruct c.
    all: try (case_bool_decide; simpl; by rewrite ?EmptyString_eq).
    all: rewrite bool_decide_true by (assert (i + 0 < 16)%nat by (by apply Hi); lia); by rewrite <-Hc.
  - apply IH; [done|]. intros j c' Hj Hne. specialize (Hi (S j) c' Hj Hne). lia.
Qed.

Lemma hash_ref n : ∀ m force, wf_tree n m → hashed_nodes n → hash n force = ref n.
Proof.
  induction n as [|cs IH|k v IH|h|v] using Node_nested_ind; intros m force Hw Hh; try done.
  - destruct (hashed_nodes_self _ m Hw Hh) as [_ Hl]. unfold wire in Hl. cbn [Rebuild.flat collapse] in Hl.
    destruct Hw as (Hlen & Hm & H16 & Hcs%wf_tree_children).
    cbn [hash Rebuild.ref]. fold (hashFullNodeChildren 0 cs).
    assert (map encode (hashFullNodeChildren 0 cs) = map encode (map ref cs)) as He.
    { apply encode_children; [|by apply slot16_nil]. rewrite Forall_forall in *. intros c Hc Hne.
      destruct (Hcs c Hc) as [->|Hw]; [done|]. eapply IH; eauto using hashed_nodes_child. }
    rewrite (map_ext_Forall collapse id) in Hl by (apply Forall_map, Forall_true; intros; apply collapse_ref).
    rewrite map_id in Hl. rewrite (nodeToHash_big _ (encode (FullNode (map ref cs)))); [done| |done].
    cbn [encode]. by rewrite He.
  - destruct (hashed_nodes_self _ m Hw Hh) as [_ Hl]. unfold wire in Hl. cbn [Rebuild.flat collapse] in Hl.
    rewrite collapse_ref in Hl. cbn [hash Rebuild.ref].
    assert ((match v with FullNode _ | ShortNode _ _ => hash v false | _ => v end) = ref v) as ->.
    { apply wf_tree_short in Hw as [(x & ns & -> & _)|(_ & _ & _ & Hw)]; [done|].
      apply hashed_nodes_val in Hh. destruct v; try done; eapply IH; eauto. }
    by apply nodeToHash_big.
Qed.

(** ** Verification *)

(** A full hex key with [m] nibbles left. *)
Definition key_left (m : nat) (q : bytes) : Prop := ∃ ns, q = ns ++ [16] ∧ Forall nibble ns ∧ length ns = m.

Definition answer (v : option bytes) : verdict := match v with Some v => VFound v | None => VAbsent end.

(** What is stored under the hash of a node of the trie is that node. *)
Definition no_collision (Get : bytes → option bytes) (n : Node) : Prop :=
  ∀ s b, s ∈ subtrees n → Get (nhash s) = Some b → b = wire (flat s).

Lemma no_collision_child Get cs c : c ∈ cs → no_collision Get (FullNode cs) → no_collision Get c.
Proof. intros Hc Hn s b Hs. apply Hn. eauto using subtrees_child. Qed.
Lemma no_collision_val Get k v : no_collision Get (ShortNode k v) → no_collision Get v.
Proof. intros Hn s b Hs. apply Hn. by right. Qed.

Lemma nth_map_lookup {A B} (f : A → B) l i a d : l !! i = Some a → nth i (map f l) d = f a.
Proof. intros Hl. apply nth_lookup_Some. by rewrite list_lookup_fmap, Hl. Qed.

(** One node of the path: what is found there, and what follows. *)
Lemma verify_step Get fuel n m q :
  wf_tree n m → hashed_nodes n → no_collision Get n →
  proof_loop Get (S fuel) (nhash n) q =
    match Get (nhash n) with
    | None => Ret VError
    | Some _ =>
        '(keyrest, cld) ← get (flat n) q;
        match cld with
        | NilNode => Ret VAbsent
        | HashNode h => proof_loop Get fuel h keyrest
        | ValueNode v => Ret (VFound v)
        | _ => Halt (Blocked "loop")
        end
    end.
Proof.
  intros Hw Hh Hn. cbn [proof_loop]. destruct (Get (nhash n)) as [b|] eqn:E; [|done].
  rewrite (Hn n b) by (done || destruct n; done || by left).
  rewrite (decode_flat n m); [done..|]. by eapply hashed_nodes_self.
Qed.

(** The verdict on a trie: an error, or the truth; the truth when the path
    is there. *)
Definition verifies (Get : bytes → option bytes) (fuel : nat) (n : Node) : Prop :=
  ∀ m q, wf_tree n m → hashed_nodes n → no_collision Get n → key_left m q →
    ∃ r, proof_loop Get fuel (nhash n) q = Ret r ∧ (r = VError ∨ r = answer (tree_get n q)) ∧
      ((∀ s, s ∈ path n q → is_Some (Get (nhash s))) → r = answer (tree_get n q)).

Lemma verifies_full Get fuel cs : Forall (verifies Get fuel) cs → verifies Get (S fuel) (FullNode cs).
Proof.
  intros IH m q Hw Hh Hn (ns & -> & Hns & Hlen). rewrite (verify_step _ _ _ m) by done.
  pose proof Hw as (Hl & Hm & H16 & Hcs%wf_tree_children).
  destruct ns as [|x ns]; [simpl in Hlen; lia|]. apply Forall_cons in Hns as [Hx Hns]. unfold nibble in Hx.
  destruct (lookup_lt_is_Some_2 cs (Z.to_nat x)) as [c Hc]; [lia|]. pose proof (list_elem_of_lookup_2 _ _ _ Hc) as Hin.
  change ((x :: ns) ++ [16]) with (x :: ns ++ [16]). rewrite tree_get_full, Hc. simpl mbind.
  cbn [path]. rewrite (nth_map_lookup _ _ _ _ _ Hc).
  destruct (Get (nhash (FullNode cs))) as [b|] eqn:E.
  2:{ exists VError. split_and!; [done|by left|]. intros Hp. destruct (Hp (FullNode cs)); [by left|congruence]. }
  cbn [Rebuild.flat get]. rewrite map_map, (nth_map_lookup _ _ _ _ _ Hc).
  rewrite Forall_forall in Hcs, IH. destruct (Hcs c Hin) as [->|Hwc].
  { exists VAbsent. by split_and!; [|right|]. }
  destruct (wf_tree_ref hashData (λ _, None) ∅ c _ [] Hwc) as [Href _]. rewrite Href. simpl mbind.
  destruct (IH c Hin (m - 1)%nat (ns ++ [16])) as (r & Hr & Hs & Hcomp);
    [done|by eapply hashed_nodes_child|by eapply no_collision_child|exists ns; split_and!; [done..|simpl in Hlen; lia]|].
  exists r. split_and!; [done..|]. intros Hp. apply Hcomp. intros s Hs'. apply Hp. by right.
Qed.

Lemma verifies_short Get fuel k v : verifies Get fuel v → verifies Get (S fuel) (ShortNode k v).
Proof.
  intros IH m q Hw Hh Hn Hq. rewrite (verify_step _ _ _ m) by done.
  assert (q ≠ []) as Hq0 by (destruct Hq as (ns & -> & _); by destruct ns).
  destruct (Get (nhash (ShortNode k v))) as [b|] eqn:E.
  2:{ exists VError. split_and!; [done|by left|]. intros Hp. destruct (Hp (ShortNode k v)); [|congruence].
      cbn [path]. rewrite bool_decide_false by done. by left. }
  pose proof (wf_tree_short _ _ _ Hw) as [(x & ns' & -> & -> & HF & Hl)|(Hv & HF & Hl & Hwv)].
  - destruct Hq as (ns & -> & Hns & Hlen). cbn [Rebuild.flat Rebuild.ref get tree_get].
    rewrite take_ge by (rewrite !length_app; simpl; lia).
    destruct (decide (ns ++ [16] = ns' ++ [16])) as [->|Hne].
    + rewrite decide_True by done. exists (VFound x). by split_and!; [|right|].
    + rewrite decide_False by congruence. exists VAbsent. by split_and!; [|right|].
  - rewrite tree_get_ext by done. cbn [Rebuild.flat get path]. rewrite bool_decide_false by done.
    destruct (wf_tree_ref hashData (λ _, None) ∅ v _ [] Hwv) as [Href _].
    case_decide as Ht; [|exists VAbsent; by split_and!; [|right|]].
    rewrite Href. simpl mbind.
    destruct (IH (m - length k)%nat (drop (length k) q)) as (r & Hr & Hs & Hcomp);
      [done|by eapply hashed_nodes_val|by eapply no_collision_val| |].
    + destruct Hq as (ns & -> & Hns & Hlen). exists (drop (length k) ns).
      rewrite drop_app_le, length_drop, Hlen by lia. split_and!; [done|by apply Forall_drop|done].
    + exists r. split_and!; [done..|]. intros Hp. apply Hcomp. intros s Hs'. apply Hp. by right.
Qed.

Lemma verifies_all Get n : ∀ fuel, (depth n ≤ fuel)%nat → verifies Get fuel n.
Proof.
  induction n as [|cs IH|k v IH|h|v] using Node_nested_ind; intros [|fuel] Hd; try (by intros m q []);
    cbn [depth] in Hd; try lia.
  - apply verifies_full. pose proof (depth_children cs fuel ltac:(lia)) as Hcs. rewrite Forall_forall in *. auto.
  - apply verifies_short, IH. lia.
Qed.

Lemma proofReader_Get_Some proof key b :
  proofReader_Get proof key = Some b → b ∈ proof ∧ hashData b = key.
Proof.
  induction proof as [|x proof IH]; simpl; [done|]. case_bool_decide as E.
  - intros [= ->]. split; [by left|done].
  - intros [? ?]%IH. split; [by right|done].
Qed.
Lemma proofReader_Get_is_Some proof key b :
  b ∈ proof → hashData b = key → is_Some (proofReader_Get proof key).
Proof.
  intros Hb Hk. induction proof as [|x proof IH]; [by apply elem_of_nil in Hb|]. simpl.
  case_bool_decide; [eauto|]. apply elem_of_cons in Hb as [->|?]; [done|auto].
Qed.

(** The received nodes do not collide with nodes of the trie. *)
Definition collision_free (proof : list bytes) (n : Node) : Prop :=
  ∀ b s, b ∈ proof → s ∈ subtrees n → hashData b = nhash s → b = wire (flat s).

Lemma collision_free_reader proof n : collision_free proof n → no_collision (proofReader_Get proof) n.
Proof. intros Hc s b Hs [Hb Hh]%proofReader_Get_Some. eauto. Qed.

(** ** Construction of proofs *)
Lemma path_subtrees n : ∀ q s, s ∈ path n q → s ∈ subtrees n.
Proof.
  induction n as [|cs IH|k v IH|h|v] using Node_nested_ind; intros q s Hs; cbn [path] in Hs;
    try (by apply elem_of_nil in Hs).
  - destruct q as [|x q]; [by apply elem_of_nil in Hs|]. apply elem_of_cons in Hs as [->|Hs]; [by left|].
    destruct (cs !! Z.to_nat x) as [c|] eqn:E.
    + rewrite (nth_map_lookup _ _ _ _ _ E) in Hs. pose proof (list_elem_of_lookup_2 _ _ _ E).
      rewrite Forall_forall in IH. eauto using subtrees_child.
    + rewrite nth_overflow in Hs; [by apply elem_of_nil in Hs|]. rewrite length_map. by apply lookup_ge_None.
  - case_bool_decide; [by apply elem_of_nil in Hs|]. apply elem_of_cons in Hs as [->|Hs]; [by left|].
    case_decide; [right; eauto|by apply elem_of_nil in Hs].
Qed.

Lemma proofHash_spec n m :
  wf_tree n m → hashed_nodes n →
  (proofHash n).2 = HashNode (nhash n) ∧ nodeToBytes (proofHash n).1 = wire (flat n).
Proof.
  intros Hw Hh. pose proof (hash_ref n m false Hw Hh) as Hr.
  destruct (wf_tree_ref hashData (λ _, None) ∅ n _ [] Hw) as [Href _]. rewrite Href in Hr.
  destruct n as [|cs|k v|h|v]; try done; cbn [proofHash fst snd]; (split; [exact Hr|]);
    unfold nodeToBytes, wire; cbn [Rebuild.flat collapse].
  - destruct Hw as (Hl & Hm & H16 & Hcs%wf_tree_children). cbn [encode].
    rewrite (map_ext_Forall collapse id), map_id by (apply Forall_map, Forall_true; intros; apply collapse_ref).
    do 2 f_equal. apply encode_children; [|by apply slot16_nil].
    rewrite Forall_forall in *. intros c Hc Hne.
    destruct (Hcs c Hc) as [->|Hw]; [done|]. eapply hash_ref; eauto using hashed_nodes_child.
  - rewrite collapse_ref. unfold hashShortNodeChildren.
    apply wf_tree_short in Hw as [(x & ns & -> & _)|(_ & _ & _ & Hw)]; [done|].
    apply hashed_nodes_val in Hh. do 2 f_equal. destruct v; try done; eapply hash_ref; eauto.
Qed.

Definition put_node (db : gmap bytes bytes) (s : Node) : gmap bytes bytes := <[nhash s := wire (flat s)]> db.

Lemma put_nodes_spec nodes : ∀ first db,
  Forall (λ s, (∃ m, wf_tree s m) ∧ hashed_nodes s) nodes → put_nodes first nodes db = foldl put_node db nodes.
Proof.
  induction nodes as [|s nodes IH]; intros first db HF; [done|].
  apply Forall_cons in HF as [[[m Hw] Hh] HF]. cbn [put_nodes foldl].
  destruct (proofHash_spec s m Hw Hh) as [H2 H1]. destruct (proofHash s) as [n1 n2]. simpl in *. subst.
  rewrite H1. by apply IH.
Qed.

Lemma put_node_values nodes : ∀ db h e,
  foldl put_node db nodes !! h = Some e → db !! h = Some e ∨ ∃ s, s ∈ nodes ∧ h = nhash s ∧ e = wire (flat s).
Proof.
  induction nodes as [|s nodes IH]; intros db h e; cbn [foldl]; [by left|].
  intros [Hd|(s' & ? & ?)]%IH; [|right; exists s'; split; [by right|done]].
  unfold put_node in Hd. apply lookup_insert_Some in Hd as [[? ?]|[_ ?]]; [|by left].
  right. exists s. split; [by left|done].
Qed.
Lemma put_node_dom nodes : ∀ db s, s ∈ nodes → is_Some (foldl put_node db nodes !! nhash s).
Proof.
  assert (∀ l db h, is_Some (db !! h) → is_Some (foldl put_node db l !! h)) as Hm.
  { induction l as [|s' l IH]; intros db h Hd; cbn [foldl]; [done|]. apply IH.
    unfold put_node. rewrite lookup_insert_is_Some'. auto. }
  induction nodes as [|s' nodes IH]; intros db s Hs; [by apply elem_of_nil in Hs|]. cbn [foldl].
  apply elem_of_cons in Hs as [->|Hs]; [|by apply IH]. apply Hm. unfold put_node. rewrite lookup_insert_eq. eauto.
Qed.

Lemma hashed_nodes_sub n s : s ∈ subtrees n → hashed_nodes n → hashed_nodes s.
Proof.
  induction n as [|cs IH|k v IH|h|v] using Node_nested_ind; intros Hs Hh; try (by apply elem_of_nil in Hs).
  - apply elem_of_cons in Hs as [->|(c & Hc & Hs)%elem_of_concat_map]; [done|].
    rewrite Forall_forall in IH. eauto using hashed_nodes_child.
  - apply elem_of_cons in Hs as [->|Hs]; [done|]. eauto using hashed_nodes_val.
Qed.

(** A proof database holds the wire forms of the nodes on the path. *)
Lemma Prove_spec n m key :
  wf_tree n m → hashed_nodes n →
  (∀ h e, Prove n key !! h = Some e → ∃ s, s ∈ path n (keybytesToHex key) ∧ h = nhash s ∧ e = wire (flat s)) ∧
  (∀ s, s ∈ path n (keybytesToHex key) → is_Some (Prove n key !! nhash s)).
Proof.
  intros Hw Hh. unfold Prove. rewrite put_nodes_spec.
  - split; [|intros s Hs; by apply put_node_dom]. intros h e [He|?]%put_node_values; [by rewrite lookup_empty in He|done].
  - apply Forall_forall. intros s Hs%path_subtrees. split; [|by eapply hashed_nodes_sub].
    pose proof (subtrees_wf n m Hw) as HF. rewrite Forall_forall in HF. auto.
Qed.

(** ** What the committee accepts *)
Context `{MI : MapIter}.

(** [getStatusFromShard]: the check of the response, account by account. *)
Definition check_account (rootHash : bytes) (proofs : gmap bytes (list bytes)) (fuel : nat) (_ : unit)
    (ad : bytes * bytes) : go unit :=
  let '(address, accountData) := ad in
  r ← VerifyProof (proofReader_Get (default [] (proofs !! address))) fuel rootHash (hashData address);
  match r with
  | VError => Halt (LogError "Failed to verify Merkle proof")
  | VAbsent => if bool_decide ([] = accountData) then Ret tt
               else Halt (LogError "Merkle proof verification failed for address")
  | VFound v => if bool_decide (v = accountData) then Ret tt
                else Halt (LogError "Merkle proof verification failed for address")
  end.
Definition getStatusFromShard (fuel : nat) (response : ShardSendState) : go ShardSendState :=
  _ ← go_fold (check_account (StatusTrieHash response) (AccountsProofs response) fuel) tt
        (map_iter (AccountData response));
  Ret response.

(** Digests are 32 bytes. *)
Hypothesis digest : ∀ b, Forall in_u8 (hashData b) ∧ length (hashData b) = 32%nat.

Lemma key_left_digest a : key_left 64 (keybytesToHex (hashData a)).
Proof.
  destruct (digest a) as [Hu Hl]. exists (nibbles_of (hashData a)).
  split_and!; [done|by apply nibbles_of_nibble|by rewrite length_nibbles_of, Hl].
Qed.

(** C21. A committee cannot be fooled about an account: whatever data and
    proofs a response carries, if it is accepted for the root of a trie then
    each account's data is the value the trie holds for it (empty when it
    holds none), unless a received node collides with a node of the trie. *)
Theorem getStatusFromShard_sound fuel n response r :
  wf_tree n 64 → hashed_nodes n → (depth n ≤ fuel)%nat → StatusTrieHash response = nhash n →
  (∀ address, collision_free (default [] (AccountsProofs response !! address)) n) →
  getStatusFromShard fuel response = Ret r →
  r = response ∧
  ∀ address data, AccountData response !! address = Some data →
    data = default [] (tree_get n (keybytesToHex (hashData address))).
Proof.
  intros Hw Hh Hd Hroot Hcf Hret. unfold getStatusFromShard in Hret.
  apply go_bind_Ret in Hret as (? & Hf & [= <-]). split; [done|].
  intros address data Hin%elem_of_map_iter.
  apply list_elem_of_split in Hin as (l1 & l2 & Hl). rewrite Hl, go_fold_app in Hf. cbn [go_fold] in Hf.
  apply go_bind_Ret in Hf as (u & _ & Hf). apply go_bind_Ret in Hf as (u' & Hc & _).
  unfold check_account, VerifyProof in Hc. rewrite Hroot in Hc.
  destruct (verifies_all (proofReader_Get (default [] (AccountsProofs response !! address))) n fuel Hd 64%nat
    (keybytesToHex (hashData address))) as (v & Hv & Hs & _);
    [done..|by apply collision_free_reader|apply key_left_digest|].
  rewrite Hv in Hc. simpl in Hc. destruct Hs as [->| ->]; [done|].
  destruct (tree_get n _); simpl in *; by case_bool_decide.
Qed.

(** An honest response for [n]: for each account its value, and the entries
    of the proof database in some order. *)
Definition honest_response (n : Node) (response : ShardSendState) : Prop :=
  StatusTrieHash response = nhash n ∧
  ∀ address data, AccountData response !! address = Some data →
    data = default [] (tree_get n (keybytesToHex (hashData address))) ∧
    ∀ b, b ∈ default [] (AccountsProofs response !! address) ↔ ∃ h, Prove n (hashData address) !! h = Some b.

(** What a shard answers about the trie [n]: for each address asked for the
    account's data, and the values of the proof database. *)
Definition shard_answer (n : Node) (height : Z) (addrs : list bytes) : ShardSendState :=
  mkShardSendState (nhash n)
    (list_to_map ((λ a, (a, default [] (tree_get n (keybytesToHex (hashData a))))) <$> addrs))
    (list_to_map ((λ a, (a, (map_to_list (Prove n (hashData a))).*2)) <$> addrs)) height.

Lemma lookup_list_to_map_fun {A} (f : bytes → A) addrs a :
  (list_to_map ((λ a, (a, f a)) <$> addrs) : gmap bytes A) !! a = if decide (a ∈ addrs) then Some (f a) else None.
Proof.
  case_decide as Ha.
  - induction addrs as [|b addrs IH]; [by apply elem_of_nil in Ha|]. rewrite fmap_cons. simpl.
    destruct (decide (b = a)) as [->|Hne]; [by rewrite lookup_insert_eq|].
    rewrite lookup_insert_ne by done. apply IH. apply elem_of_cons in Ha as [->|?]; done.
  - apply not_elem_of_list_to_map_1. rewrite <-list_fmap_compose. intros (b & -> & Hb)%list_elem_of_fmap. done.
Qed.

Lemma shard_answer_data n height addrs a :
  is_Some (AccountData (shard_answer n height addrs) !! a) ↔ a ∈ addrs.
Proof.
  cbn [shard_answer AccountData]. rewrite (lookup_list_to_map_fun (λ a, default [] (tree_get n (keybytesToHex (hashData a))))).
  by case_decide; split.
Qed.

Lemma shard_answer_honest n height addrs : honest_response n (shard_answer n height addrs).
Proof.
  split; [done|]. intros a data. cbn [shard_answer AccountData AccountsProofs].
  rewrite (lookup_list_to_map_fun (λ a, default [] (tree_get n (keybytesToHex (hashData a))))).
  rewrite (lookup_list_to_map_fun (λ a, (map_to_list (Prove n (hashData a))).*2)).
  case_decide as Ha; [|done]. intros [= <-]. split; [done|]. intros b. simpl.
  rewrite list_elem_of_fmap. split.
  - intros ([h b'] & -> & Hin%elem_of_map_to_list). eauto.
  - intros [h Hh]. exists (h, b). by rewrite elem_of_map_to_list.
Qed.

(** The nodes of a trie do not collide with each other. *)
Definition distinct_nodes (n : Node) : Prop :=
  ∀ s s', s ∈ subtrees n → s' ∈ subtrees n → nhash s = nhash s' → wire (flat s) = wire (flat s').

Lemma honest_collision_free n response address data :
  wf_tree n 64 → hashed_nodes n → distinct_nodes n → honest_response n response →
  AccountData response !! address = Some data →
  collision_free (default [] (AccountsProofs response !! address)) n ∧
  ∀ s, s ∈ path n (keybytesToHex (hashData address)) →
    is_Some (proofReader_Get (default [] (AccountsProofs response !! address)) (nhash s)).
Proof.
  intros Hw Hh Hdn [_ Hr] Ha. destruct (Hr _ _ Ha) as [_ Hp].
  destruct (Prove_spec n 64 (hashData address) Hw Hh) as [Hv Hd].
  assert (∀ s, s ∈ subtrees n → nhash s = hashData (wire (flat s))) as Hn.
  { intros s Hs. pose proof (subtrees_wf n 64 Hw) as HF. rewrite Forall_forall in HF.
    destruct (HF s Hs) as [m Hm]. by eapply nhash_wire. }
  split.
  - intros b s [h Hb]%Hp Hs Heq. apply Hv in Hb as (s' & Hs'%path_subtrees & _ & ->).
    apply Hdn; [done..|]. by rewrite (Hn s').
  - intros s Hs. destruct (Hd s Hs) as [e He]. pose proof (Hv _ _ He) as (s' & Hs' & Heq & ->).
    apply (proofReader_Get_is_Some _ _ (wire (flat s'))); [apply Hp; eauto|].
    rewrite Heq. symmetry. by apply Hn, path_subtrees with (q := keybytesToHex (hashData address)).
Qed.

Lemma honest_accepted fuel n response :
  wf_tree n 64 → hashed_nodes n → distinct_nodes n → (depth n ≤ fuel)%nat →
  honest_response n response → getStatusFromShard fuel response = Ret response.
Proof.
  intros Hw Hh Hdn Hd Hr. unfold getStatusFromShard.
  destruct (go_fold_returns (check_account (StatusTrieHash response) (AccountsProofs response) fuel)
    (λ _, True) tt (map_iter (AccountData response))) as ([] & -> & _); [done| |done].
  intros [] [address data] Ha%elem_of_map_iter _. exists tt. split; [|done].
  destruct (honest_collision_free n response address data) as [Hcf Hpath]; [done..|].
  destruct Hr as [Hroot Hr]. destruct (Hr _ _ Ha) as [-> _].
  unfold check_account, VerifyProof. rewrite Hroot.
  destruct (verifies_all (proofReader_Get (default [] (AccountsProofs response !! address))) n fuel Hd 64%nat
    (keybytesToHex (hashData address))) as (v & -> & _ & Hc);
    [done..|by apply collision_free_reader|apply key_left_digest|].
  rewrite Hc by done. simpl. destruct (tree_get n _); simpl; by rewrite ?bool_decide_true.
Qed.
(** An honest response is accepted: proofs built by [Prove], in any
    order, make the committee accept the root and every account, present in
    the trie or not. *)
Theorem getStatusFromShard_complete fuel n response :
  wf_tree n 64 → hashed_nodes n → distinct_nodes n → (depth n ≤ fuel)%nat →
  honest_response n response → getStatusFromShard fuel response = Ret response.
Proof. apply honest_accepted. Qed.
End hasher.
