(* ===== verification/NodeDB.v ===== *)
(** * The trie's database (src/trie/database.go)

    A write-back cache between tries and the disk.  Dirty nodes are counted
    by the references other dirty nodes hold on them, threaded on a flush
    list in order of insertion, and leave the cache when their last reference
    goes ([Dereference]), when the cache is over its size ([Cap]) or when a
    trie is made permanent ([Commit]).

    [StorageSize] is a floating-point number in the source and an integer
    here; the times that are only logged are left out.  The logger is
    go-ethereum's, whose [Error] returns.  The recursions follow the
    references from node to node; [fuel] bounds their depth, see [height].

    [gc_safe]: no sequence of operations loses a node of a trie whose root is
    referenced. *)
From S2P Require Import Prelude Core Encoding Node Rebuild Trie.
Local Open Scope Z_scope.

(** ** The disk and the clean cache

    [ethdb]: a store, and batches of writes to it.  [Write] reports failure
    by [None].  [rawdb] names the accessors the code calls. *)
Class KeyValueStore := {
  kv : Type;
  batch : Type;
  kv_Get : kv → bytes → option bytes;
  NewBatch : batch;                                 (* also a batch after Reset *)
  batch_Write : kv → batch → option kv;
  ValueSize : batch → Z;
  replayed : batch → list (bytes * bytes);          (* the Puts of Replay *)
  WriteTrieNode : batch → bytes → bytes → batch;
  WritePreimages : batch → gmap bytes bytes → batch;
  ReadTrieNode : kv → bytes → bytes;
  ReadPreimage : kv → bytes → option bytes
}.

(** What a key has after a list of writes. *)
Definition written (l : list (bytes * bytes)) (k : bytes) : option bytes :=
  foldl (λ o kv, if decide (kv.1 = k) then Some kv.2 else o) None l.

Class KeyValueLaws `{KeyValueStore} := {
  replayed_new : replayed NewBatch = [];
  replayed_node : ∀ b h e, replayed (WriteTrieNode b h e) = replayed b ++ [(h, e)];
  replayed_preimages : ∀ b m, (∀ k, is_Some (m !! k) → length k = 32%nat) → ∃ l, replayed (WritePreimages b m) = replayed b ++ l ∧
    Forall (λ kv, length kv.1 ≠ 32%nat) l;
  Write_Get : ∀ d b d' k, batch_Write d b = Some d' →
    kv_Get d' k = match written (replayed b) k with Some v => Some v | None => kv_Get d k end;
  ReadTrieNode_eq : ∀ d h, ReadTrieNode d h = default [] (kv_Get d h)
}.

(** [fastcache]: what was set can be there, or be evicted. *)
Class FastCache := {
  cache : Type;
  cache_new : Z → cache;
  cache_load : string → Z → cache;
  cache_Get : cache → bytes → option bytes;
  cache_Set : cache → bytes → bytes → cache
}.
Class FastCacheLaws `{FastCache} := {
  cache_new_empty : ∀ n k, cache_Get (cache_new n) k = None;
  cache_Set_Get : ∀ c k v k' v', cache_Get (cache_Set c k v) k' = Some v' →
    (k' = k ∧ v' = v) ∨ cache_Get c k' = Some v'
}.

(** ** Cached nodes *)

(** The values of type [Node] in the cache. *)
Inductive CNode :=
  | cNil
  | rawNode (b : bytes)
  | rawFullNode (cs : list CNode)
  | rawShortNode (Key : bytes) (Val : CNode)
  | cHash (h : bytes)
  | cValue (v : bytes).

Section cnode_ind.
Variable P : CNode → Prop.
Hypothesis Hnil : P cNil.
Hypothesis Hraw : ∀ b, P (rawNode b).
Hypothesis Hfull : ∀ cs, Forall P cs → P (rawFullNode cs).
Hypothesis Hshort : ∀ k v, P v → P (rawShortNode k v).
Hypothesis Hhash : ∀ h, P (cHash h).
Hypothesis Hvalue : ∀ v, P (cValue v).

Fixpoint CNode_nested_ind (n : CNode) : P n :=
  match n with
  | cNil => Hnil
  | rawNode b => Hraw b
  | rawFullNode cs => Hfull cs ((fix go cs : Forall P cs := match cs with
                                   | [] => Forall_nil_2 P
                                   | c :: cs => Forall_cons_2 P c cs (CNode_nested_ind c) (go cs)
                                   end) cs)
  | rawShortNode k v => Hshort k v (CNode_nested_ind v)
  | cHash h => Hhash h
  | cValue v => Hvalue v
  end.
End cnode_ind.

(** [common.Hash{}], the name of the metaroot. *)
Definition zero : bytes := replicate 32 0.

Record cachedNode := mkCached {
  cNode : CNode;
  cSize : Z;
  parents : Z;
  children : option (gmap bytes Z);
  flushPrev : bytes;
  flushNext : bytes
}.
Definition set_parents (p : Z) (e : cachedNode) : cachedNode :=
  mkCached (cNode e) (cSize e) p (children e) (flushPrev e) (flushNext e).
Definition set_children (c : option (gmap bytes Z)) (e : cachedNode) : cachedNode :=
  mkCached (cNode e) (cSize e) (parents e) c (flushPrev e) (flushNext e).
Definition set_prev (h : bytes) (e : cachedNode) : cachedNode :=
  mkCached (cNode e) (cSize e) (parents e) (children e) h (flushNext e).
Definition set_next (h : bytes) (e : cachedNode) : cachedNode :=
  mkCached (cNode e) (cSize e) (parents e) (children e) (flushPrev e) h.

(** The size of the struct on a 64-bit platform. *)
Definition cachedNodeSize : Z := 96.
Definition cachedNodeChildrenSize : Z := 48.
Definition HashLength : Z := 32.
Definition IdealBatchSize : Z := 100 * 1024.

Definition u16 (z : Z) : Z := z `mod` 2^16.

Section cached.
Context `{RL : RLP}.

(** The [encode] methods of the collapsed nodes. *)
Fixpoint raw_encode (n : CNode) : bytes :=
  match n with
  | cNil => EmptyString
  | rawNode b => b
  | rawFullNode cs => WriteList (concat (map raw_encode cs))
  | rawShortNode k v => WriteList (WriteBytes k ++ raw_encode v)
  | cHash h => WriteBytes h
  | cValue v => WriteBytes v
  end.

Definition expand_unknown {A} : go A := Halt (GoPanic "unknown Node type").

(** [expandNode] and [simplifyNode]; the flags are left out. *)
Fixpoint expandNode (n : CNode) : go Node :=
  match n with
  | rawShortNode k v => v ← expandNode v; Ret (ShortNode (compactToHex k) v)
  | rawFullNode cs =>
      cs ← (fix go cs := match cs with
            | [] => Ret []
            | c :: cs => c ← match c with cNil => Ret NilNode | _ => expandNode c end; cs ← go cs; Ret (c :: cs)
            end) cs;
      Ret (FullNode cs)
  | cValue v => Ret (ValueNode v)
  | cHash h => Ret (HashNode h)
  | cNil | rawNode _ => expand_unknown
  end.
Definition expand_children : list CNode → go (list Node) :=
  fix go cs := match cs with
    | [] => Ret []
    | c :: cs => c ← match c with cNil => Ret NilNode | _ => expandNode c end; cs ← go cs; Ret (c :: cs)
    end.

Fixpoint simplifyNode (n : Node) : go CNode :=
  match n with
  | ShortNode k v => v ← simplifyNode v; Ret (rawShortNode k v)
  | FullNode cs =>
      cs ← (fix go cs := match cs with
            | [] => Ret []
            | c :: cs => c ← match c with NilNode => Ret cNil | _ => simplifyNode c end; cs ← go cs; Ret (c :: cs)
            end) cs;
      Ret (rawFullNode cs)
  | ValueNode v => Ret (cValue v)
  | HashNode h => Ret (cHash h)
  | NilNode => expand_unknown
  end.
Definition simplify_children : list Node → go (list CNode) :=
  fix go cs := match cs with
    | [] => Ret []
    | c :: cs => c ← match c with NilNode => Ret cNil | _ => simplifyNode c end; cs ← go cs; Ret (c :: cs)
    end.

(** [forGatherChildren]: the hashes the callback gets, in order. *)
Fixpoint forGatherChildren (n : CNode) : list bytes :=
  match n with
  | rawShortNode _ v => forGatherChildren v
  | rawFullNode cs =>
      (fix go i cs := match cs with
       | [] => []
       | c :: cs => (if bool_decide (i < 16)%nat then forGatherChildren c else []) ++ go (S i) cs
       end) 0%nat cs
  | cHash h => [BytesToHash h]
  | cValue _ | cNil | rawNode _ => []
  end.

(** [cachedNode.rlp], [obj], [forChilds] *)
Definition rlp (n : cachedNode) : bytes :=
  match cNode n with rawNode b => b | n => raw_encode n end.
Definition obj (n : cachedNode) : go Node :=
  match cNode n with rawNode b => MustDecodeNode (length b) b | n => expandNode n end.

Context `{MI : MapIter}.
Definition forChilds (n : cachedNode) : list bytes :=
  match children n with Some m => (map_iter m).*1 | None => [] end ++
  match cNode n with rawNode _ => [] | n => forGatherChildren n end.
End cached.

(** ** The database *)
Section database.
Context `{RL : RLP} `{MI : MapIter} `{KV : KeyValueStore} `{FC : FastCache}.

Record Database := mkDatabase {
  diskdb : kv;
  cleans : option cache;
  dirties : gmap bytes cachedNode;
  oldest : bytes;
  newest : bytes;
  preimages : option (gmap bytes bytes);
  gcnodes : Z; gcsize : Z;
  flushnodes : Z; flushsize : Z;
  dirtiesSize : Z; childrenSize : Z; preimagesSize : Z
}.
Definition set_disk (d : kv) (db : Database) : Database :=
  mkDatabase d (cleans db) (dirties db) (oldest db) (newest db) (preimages db) (gcnodes db) (gcsize db)
    (flushnodes db) (flushsize db) (dirtiesSize db) (childrenSize db) (preimagesSize db).
Definition set_cleans (c : option cache) (db : Database) : Database :=
  mkDatabase (diskdb db) c (dirties db) (oldest db) (newest db) (preimages db) (gcnodes db) (gcsize db)
    (flushnodes db) (flushsize db) (dirtiesSize db) (childrenSize db) (preimagesSize db).
Definition set_dirties (m : gmap bytes cachedNode) (db : Database) : Database :=
  mkDatabase (diskdb db) (cleans db) m (oldest db) (newest db) (preimages db) (gcnodes db) (gcsize db)
    (flushnodes db) (flushsize db) (dirtiesSize db) (childrenSize db) (preimagesSize db).
Definition set_ends (o n : bytes) (db : Database) : Database :=
  mkDatabase (diskdb db) (cleans db) (dirties db) o n (preimages db) (gcnodes db) (gcsize db)
    (flushnodes db) (flushsize db) (dirtiesSize db) (childrenSize db) (preimagesSize db).
Definition set_preimages (p : option (gmap bytes bytes)) (s : Z) (db : Database) : Database :=
  mkDatabase (diskdb db) (cleans db) (dirties db) (oldest db) (newest db) p (gcnodes db) (gcsize db)
    (flushnodes db) (flushsize db) (dirtiesSize db) (childrenSize db) s.
Definition set_stats (gn gs fn fs : Z) (db : Database) : Database :=
  mkDatabase (diskdb db) (cleans db) (dirties db) (oldest db) (newest db) (preimages db) gn gs
    fn fs (dirtiesSize db) (childrenSize db) (preimagesSize db).
Definition add_sizes (ds cs : Z) (db : Database) : Database :=
  mkDatabase (diskdb db) (cleans db) (dirties db) (oldest db) (newest db) (preimages db) (gcnodes db) (gcsize db)
    (flushnodes db) (flushsize db) (dirtiesSize db + ds) (childrenSize db + cs) (preimagesSize db).

(** [Config]; NewDatabase *)
Record Config := mkConfig { Cache : Z; Journal : string; Preimages : bool }.
Definition NewDatabaseWithConfig (disk : kv) (config : option Config) : Database :=
  let cleans :=
    match config with
    | Some c =>
        if bool_decide (Cache c > 0)
        then Some (if bool_decide (Journal c = "") then cache_new (Cache c * 1024 * 1024)
                   else cache_load (Journal c) (Cache c * 1024 * 1024))
        else None
    | None => None
    end in
  let pre := match config with None => true | Some c => Preimages c end in
  mkDatabase disk cleans {[ zero := mkCached cNil 0 0 (Some ∅) zero zero ]} zero zero
    (if pre then Some ∅ else None) 0 0 0 0 0 0 0.
Definition NewDatabase (disk : kv) : Database := NewDatabaseWithConfig disk None.
Definition DiskDB (db : Database) : kv := diskdb db.

(** [db.dirties[h].f = x]: the entry must be there. *)
Definition on_entry (h : bytes) (f : cachedNode → cachedNode) (db : Database) : go Database :=
  e ← deref (dirties db !! h); Ret (set_dirties (<[h := f e]> (dirties db)) db).

(** [insert]: the callback that counts a parent, then the operation.  Here
    the hash length is added to the size in uint16; the other operations
    convert the size to int first. *)
Definition add_parent (m : gmap bytes cachedNode) (child : bytes) : gmap bytes cachedNode :=
  match m !! child with
  | Some c => <[child := set_parents (u32 (parents c + 1)) c]> m
  | None => m
  end.
Definition insert (db : Database) (hash : bytes) (sz : Z) (n : Node) : go Database :=
  match dirties db !! hash with
  | Some _ => Ret db
  | None =>
      c ← simplifyNode n;
      let entry := mkCached c (u16 sz) 0 None (newest db) zero in
      let m := foldl add_parent (dirties db) (forChilds entry) in
      let db := set_dirties (<[hash := entry]> m) db in
      db ← (if bool_decide (oldest db = zero) then Ret (set_ends hash hash db)
            else db ← on_entry (newest db) (set_next hash) db; Ret (set_ends (oldest db) hash db));
      Ret (add_sizes (u16 (HashLength + cSize entry)) 0 db)
  end.

Definition insertPreimage (db : Database) (hash preimage : bytes) : Database :=
  match preimages db with
  | None => db
  | Some m =>
      match m !! hash with
      | Some _ => db
      | None => set_preimages (Some (<[hash := preimage]> m)) (preimagesSize db + (HashLength + len preimage)) db
      end
  end.

(** [node]: the clean cache, the dirty nodes, the disk. *)
Definition clean_hit (db : Database) (hash : bytes) : option bytes :=
  match cleans db with Some c => cache_Get c hash | None => None end.
Definition fill_clean (db : Database) (hash enc : bytes) : Database :=
  match cleans db with Some c => set_cleans (Some (cache_Set c hash enc)) db | None => db end.
Definition node (db : Database) (hash : bytes) : go (Database * option Node) :=
  match clean_hit db hash with
  | Some enc => n ← MustDecodeNode (length enc) enc; Ret (db, Some n)
  | None =>
      match dirties db !! hash with
      | Some dirty => n ← obj dirty; Ret (db, Some n)
      | None =>
          match kv_Get (diskdb db) hash with
          | None => Ret (db, None)
          | Some enc => n ← MustDecodeNode (length enc) enc; Ret (fill_clean db hash enc, Some n)
          end
      end
  end.
(** [Node]: the same for the encoded node; [None] is the error. *)
Definition node_blob (db : Database) (hash : bytes) : Database * option bytes :=
  if bool_decide (hash = zero) then (db, None)
  else
    match clean_hit db hash with
    | Some enc => (db, Some enc)
    | None =>
        match dirties db !! hash with
        | Some dirty => (db, Some (rlp dirty))
        | None =>
            let enc := ReadTrieNode (diskdb db) hash in
            if bool_decide (len enc ≠ 0) then (fill_clean db hash enc, Some enc) else (db, None)
        end
    end.
Definition preimage (db : Database) (hash : bytes) : option bytes :=
  match preimages db with
  | None => None
  | Some m => match m !! hash with Some p => Some p | None => ReadPreimage (diskdb db) hash end
  end.
Definition Nodes (db : Database) : list bytes := filter (λ h, h ≠ zero) (map_iter (dirties db)).*1.

(** [reference] *)
Definition reference (db : Database) (child parent : bytes) : go Database :=
  match dirties db !! child with
  | None => Ret db
  | Some _ =>
      p ← deref (dirties db !! parent);
      let count := match children p with Some m => default 0 (m !! child) | None => 0 end in
      let known := match children p with Some m => bool_decide (is_Some (m !! child)) | None => false end in
      let db := match children p with
                | None => add_sizes 0 cachedNodeChildrenSize
                            (set_dirties (<[parent := set_children (Some ∅) p]> (dirties db)) db)
                | Some _ => db
                end in
      if known && negb (bool_decide (parent = zero)) then Ret db
      else
        db ← on_entry child (λ c, set_parents (u32 (parents c + 1)) c) db;
        let count := u16 (count + 1) in
        db ← on_entry parent (λ p, set_children (Some (<[child := count]> (default ∅ (children p)))) p) db;
        Ret (if bool_decide (count = 1) then add_sizes 0 (HashLength + 2) db else db)
  end.
Definition Reference (db : Database) (child parent : bytes) : go Database := reference db child parent.

(** A node leaves the flush list. *)
Definition unlink (db : Database) (h : bytes) (n : cachedNode) : go Database :=
  if bool_decide (h = oldest db) then
    on_entry (flushNext n) (set_prev zero) (set_ends (flushNext n) (newest db) db)
  else if bool_decide (h = newest db) then
    on_entry (flushPrev n) (set_next zero) (set_ends (oldest db) (flushPrev n) db)
  else
    db ← on_entry (flushPrev n) (set_next (flushNext n)) db;
    on_entry (flushNext n) (set_prev (flushPrev n)) db.

(** The reference [parent] holds on [child] is dropped. *)
Definition drop_reference (db : Database) (child parent : bytes) : go Database :=
  p ← deref (dirties db !! parent);
  match children p with
  | None => Ret db
  | Some m =>
      let c := default 0 (m !! child) in
      if bool_decide (c > 0) then
        let m' := if bool_decide (c - 1 = 0) then base.delete child m else <[child := c - 1]> m in
        let db := set_dirties (<[parent := set_children (Some m') p]> (dirties db)) db in
        Ret (if bool_decide (c - 1 = 0) then add_sizes 0 (- (HashLength + 2)) db else db)
      else Ret db
  end.

(** [dereference] *)
Fixpoint dereference (fuel : nat) (db : Database) (child parent : bytes) : go Database :=
  match fuel with
  | O => Halt (Blocked "fuel")
  | S fuel =>
      db ← drop_reference db child parent;
      match dirties db !! child with
      | None => Ret db
      | Some n =>
          let n := if bool_decide (parents n > 0) then set_parents (parents n - 1) n else n in
          let db := set_dirties (<[child := n]> (dirties db)) db in
          if bool_decide (parents n = 0) then
            db ← unlink db child n;
            db ← go_fold (λ db hash, dereference fuel db hash child) db (forChilds n);
            let db := set_dirties (base.delete child (dirties db)) db in
            Ret (add_sizes (- (HashLength + cSize n))
                   (match children n with Some _ => - cachedNodeChildrenSize | None => 0 end) db)
          else Ret db
      end
  end.
Definition Dereference (fuel : nat) (db : Database) (root : bytes) : go Database :=
  if bool_decide (root = zero) then Ret db
  else
    let nodes := Z.of_nat (size (dirties db)) in
    let storage := dirtiesSize db in
    db ← dereference fuel db root zero;
    Ret (set_stats (u64 (gcnodes db + u64 (nodes - Z.of_nat (size (dirties db)))))
                   (gcsize db + (storage - dirtiesSize db)) (flushnodes db) (flushsize db) db).

(** *** [Cap] *)
Definition children_size (n : cachedNode) : Z :=
  match children n with Some m => cachedNodeChildrenSize + Z.of_nat (size m) * (HashLength + 2) | None => 0 end.

(** Preimages over 4 MB go first; [None] is a failed write. *)
Definition cap_preimages (db : Database) (b : batch) : option (Database * batch) :=
  if bool_decide (preimagesSize db > 4 * 1024 * 1024) then
    match preimages db with
    | None => Some (db, b)
    | Some m =>
        let b := WritePreimages b m in
        if bool_decide (ValueSize b > IdealBatchSize) then
          match batch_Write (diskdb db) b with Some d => Some (set_disk d db, NewBatch) | None => None end
        else Some (db, b)
    end
  else Some (db, b).

(** The loop that writes the oldest nodes, and a failed write. *)
Fixpoint cap_write (fuel : nat) (limit : Z) (db : Database) (b : batch) (sz : Z) (old : bytes) :
    go (Database * option (batch * bytes)) :=
  match fuel with
  | O => Halt (Blocked "fuel")
  | S fuel =>
      if bool_decide (sz > limit) && negb (bool_decide (old = zero)) then
        n ← deref (dirties db !! old);
        let b := WriteTrieNode b old (rlp n) in
        let sz := sz - (HashLength + cSize n + cachedNodeSize) - children_size n in
        if bool_decide (IdealBatchSize ≤ ValueSize b) then
          match batch_Write (diskdb db) b with
          | Some d => cap_write fuel limit (set_disk d db) NewBatch sz (flushNext n)
          | None => Ret (db, None)
          end
        else cap_write fuel limit db b sz (flushNext n)
      else Ret (db, Some (b, old))
  end.

(** The loop that forgets what was written. *)
Fixpoint cap_forget (fuel : nat) (db : Database) (old : bytes) : go Database :=
  match fuel with
  | O => Halt (Blocked "fuel")
  | S fuel =>
      if bool_decide (oldest db = old) then Ret db
      else
        n ← deref (dirties db !! oldest db);
        let db := set_ends (flushNext n) (newest db) (set_dirties (base.delete (oldest db) (dirties db)) db) in
        cap_forget fuel (add_sizes (- (HashLength + cSize n)) (- children_size n) db) old
  end.

Definition metaroot_refs (db : Database) : go Z :=
  m ← deref (dirties db !! zero);
  Ret (match children m with Some c => Z.of_nat (size c) | None => 0 end).

Definition Cap (fuel : nat) (db : Database) (limit : Z) : go (Database * bool) :=
  let nodes := Z.of_nat (size (dirties db)) in
  let storage := dirtiesSize db in
  refs ← metaroot_refs db;
  let sz := dirtiesSize db + (nodes - 1) * cachedNodeSize + (childrenSize db - refs * (HashLength + 2)) in
  let flushPreimages := bool_decide (preimagesSize db > 4 * 1024 * 1024) in
  match cap_preimages db NewBatch with
  | None => Ret (db, false)
  | Some (db, b) =>
      '(db, r) ← cap_write fuel limit db b sz (oldest db);
      match r with
      | None => Ret (db, false)
      | Some (b, old) =>
          match batch_Write (diskdb db) b with
          | None => Ret (db, false)
          | Some d =>
              let db := set_disk d db in
              let db := if flushPreimages
                        then match preimages db with Some _ => set_preimages (Some ∅) 0 db | None => db end
                        else db in
              db ← cap_forget fuel db old;
              db ← (if bool_decide (oldest db = zero) then Ret db else on_entry (oldest db) (set_prev zero) db);
              Ret (set_stats (gcnodes db) (gcsize db)
                     (u64 (flushnodes db + u64 (nodes - Z.of_nat (size (dirties db)))))
                     (flushsize db + (storage - dirtiesSize db)) db, true)
          end
      end
  end.

(** *** [Commit] *)

(** [cleaner.Put] *)
Definition Put (db : Database) (key rlp : bytes) : go Database :=
  let hash := BytesToHash key in
  match dirties db !! hash with
  | None => Ret db
  | Some n =>
      db ← unlink db hash n;
      let db := set_dirties (base.delete hash (dirties db)) db in
      let db := add_sizes (- (HashLength + cSize n) - children_size n) 0 db in
      Ret (fill_clean db hash rlp)
  end.
(** [batch.Replay(uncacher)] *)
Definition Replay (db : Database) (b : batch) : go Database :=
  go_fold (λ db kv, Put db kv.1 kv.2) db (replayed b).

(** What [commit] changes: the database, the batch, the calls of the
    callback. *)
Definition commit_state : Type := Database * batch * list bytes.

Fixpoint commit (fuel : nat) (hash : bytes) (st : commit_state) : go (commit_state * bool) :=
  match fuel with
  | O => Halt (Blocked "fuel")
  | S fuel =>
      match dirties st.1.1 !! hash with
      | None => Ret (st, true)
      | Some n =>
          '(st, ok) ← go_fold (λ r child, if r.2 : bool then commit fuel child r.1 else Ret r) (st, true) (forChilds n);
          if ok : bool then
            let '(db, b, calls) := st in
            let b := WriteTrieNode b hash (rlp n) in
            let calls := calls ++ [hash] in
            if bool_decide (IdealBatchSize ≤ ValueSize b) then
              match batch_Write (diskdb db) b with
              | None => Ret ((db, b, calls), false)
              | Some d => db ← Replay (set_disk d db) b; Ret ((db, NewBatch, calls), true)
              end
            else Ret ((db, b, calls), true)
          else Ret (st, false)
      end
  end.

(** The result: the database, the calls of the callback, whether there was
    no error. *)
Definition Commit (fuel : nat) (db : Database) (h : bytes) : go (Database * list bytes * bool) :=
  match match preimages db with
        | Some m => batch_Write (diskdb db) (WritePreimages NewBatch m)
        | None => Some (diskdb db)
        end with
  | None => Ret (db, [], false)
  | Some d =>
      '(db, b, calls, ok) ← commit fuel h (set_disk d db, NewBatch, []);
      if ok : bool then
        match batch_Write (diskdb db) b with
        | None => Ret (db, calls, false)
        | Some d =>
            db ← Replay (set_disk d db) b;
            let db := match preimages db with Some _ => set_preimages (Some ∅) 0 db | None => db end in
            Ret (set_stats 0 0 0 0 db, calls, true)
        end
      else Ret (db, calls, false)
  end.

(** [Size] *)
Definition Size (db : Database) : go (Z * Z) :=
  refs ← metaroot_refs db;
  let metadataSize := (Z.of_nat (size (dirties db)) - 1) * cachedNodeSize in
  Ret (dirtiesSize db + childrenSize db + metadataSize - refs * (HashLength + 2), preimagesSize db).
End database.

(** ** Content of a cached node

    [raw_of x] is a node without its flags; with compact keys, [collapse x],
    it is what the cache keeps for the node [x]. *)
Fixpoint raw_of (n : Node) : CNode :=
  match n with
  | NilNode => cNil
  | FullNode cs => rawFullNode (map raw_of cs)
  | ShortNode k v => rawShortNode k (raw_of v)
  | HashNode h => cHash h
  | ValueNode v => cValue v
  end.

(** No short node without a value. *)
Fixpoint has_vals (n : Node) : Prop :=
  match n with
  | FullNode cs => foldr (λ c P, has_vals c ∧ P) True cs
  | ShortNode _ v => v ≠ NilNode ∧ has_vals v
  | _ => True
  end.

(** The hashes a node refers to. *)
Definition kids (x : Node) : list bytes := forGatherChildren (raw_of (collapse x)).

Section content.
Context `{RL : RLP} `{RLL : !RLPLaws}.

Lemma raw_of_nil n : raw_of n = cNil ↔ n = NilNode.
Proof. by destruct n. Qed.

Lemma simplify_children_ok cs :
  Forall (λ c, c ≠ NilNode → simplifyNode c = Ret (raw_of c)) cs → simplify_children cs = Ret (map raw_of cs).
Proof.
  induction 1 as [|c cs Hc _ IH]; [done|]. cbn [simplify_children map]. fold simplify_children.
  destruct c; rewrite ?Hc by done; cbn [raw_of mbind go_bind]; by rewrite IH.
Qed.

Lemma simplifyNode_ok n : has_vals n → n ≠ NilNode → simplifyNode n = Ret (raw_of n).
Proof.
  induction n as [|cs IH|k v IH|h|v] using Node_nested_ind; try done; intros Hv _.
  - cbn [simplifyNode raw_of]. fold simplify_children. rewrite simplify_children_ok; [done|].
    clear -IH Hv. induction cs as [|c cs IHcs]; [constructor|]. apply Forall_cons in IH as [Hc IH]. destruct Hv.
    constructor; auto.
  - destruct Hv as [Hn Hv]. cbn [simplifyNode raw_of]. by rewrite IH.
Qed.

Lemma expand_children_ok cs :
  Forall (λ c, c ≠ NilNode → expandNode (raw_of (collapse c)) = Ret c) cs →
  expand_children (map raw_of (map collapse cs)) = Ret cs.
Proof.
  induction 1 as [|c cs Hc _ IH]; [done|]. cbn [expand_children map]. fold expand_children.
  destruct c; cbn [collapse raw_of] in *; rewrite ?Hc by done; cbn [mbind go_bind]; by rewrite IH.
Qed.

Lemma expandNode_ok n : wf n → has_vals n → n ≠ NilNode → expandNode (raw_of (collapse n)) = Ret n.
Proof.
  induction n as [|cs IH|k v IH|h|v] using Node_nested_ind; try done; intros Hw Hv _.
  - cbn [collapse raw_of expandNode]. fold expand_children. destruct Hw as (_ & _ & Hcs%wf_children).
    rewrite expand_children_ok; [done|]. clear -IH Hcs Hv.
    induction cs as [|c cs IHcs]; [constructor|]. apply Forall_cons in IH as [Hc IH].
    apply Forall_cons in Hcs as [[Hwc _] Hcs]. destruct Hv. constructor; auto.
  - destruct Hw as (Hk & _ & _ & _ & Hw & _), Hv as [Hn Hv]. cbn [collapse raw_of expandNode].
    rewrite IH by done. cbn [mbind go_bind]. by rewrite compact_of_hex.
Qed.

Lemma raw_encode_ok n : raw_encode (raw_of n) = encode n.
Proof.
  induction n as [|cs IH|k v IH|h|v] using Node_nested_ind; try done; cbn [raw_of raw_encode encode].
  - do 2 f_equal. rewrite map_map. by apply map_ext_Forall.
  - by rewrite IH.
Qed.
End content.
