(* ===== verification/NodeGC.v ===== *)
(** * No node of a referenced trie is lost (src/trie/database.go)

    The invariant of the trie's database and its preservation by every
    operation: the flush list is a doubly linked list of the dirty nodes, a
    node comes after the nodes it refers to, the count of a node that is only
    in memory covers all references to it, and what is on disk has its
    children there.  [infos] is what matters of the dirty nodes apart from
    the links; [inv] the invariant, during a release of nodes with the nodes
    that are being removed and the references still to be dropped. *)
From S2P Require Import Prelude Core Encoding Node Rebuild Trie NodeDB.
Local Open Scope Z_scope.

(** ** The flush list *)

(** [seg m p l q]: from [prev] pointer [p], if that is known, the nodes [l]
    are linked and the last one points to [q]. *)
Fixpoint seg (m : gmap bytes cachedNode) (p : option bytes) (l : list bytes) (q : bytes) : Prop :=
  match l with
  | [] => True
  | h :: l =>
      ∃ e, m !! h = Some e ∧ match p with Some p => flushPrev e = p | None => True end ∧
        flushNext e = hd q l ∧ seg m (Some h) l q
  end.

Definition links (e e' : cachedNode) : Prop := flushPrev e' = flushPrev e ∧ flushNext e' = flushNext e.

Lemma last_cons_default (h : bytes) l (p : option bytes) :
  match last (h :: l) with Some x => Some x | None => p end = match last l with Some x => Some x | None => Some h end.
Proof. destruct l as [|x l _] using rev_ind; [done|]. by rewrite app_comm_cons, !last_snoc. Qed.

Lemma seg_app m p l1 l2 q :
  seg m p (l1 ++ l2) q ↔ seg m p l1 (hd q l2) ∧ seg m (match last l1 with Some h => Some h | None => p end) l2 q.
Proof.
  revert p. induction l1 as [|h l1 IH]; intros p; [simpl; tauto|]. cbn [app seg]. split.
  - intros (e & He & Hp & Hn & [H1 H2]%IH). split.
    + exists e. split_and!; [done..| |done]. rewrite Hn. by destruct l1.
    + by rewrite last_cons_default.
  - intros [(e & He & Hp & Hn & H1) H2]. exists e. split_and!; [done..| |].
    + rewrite Hn. by destruct l1.
    + apply IH. split; [done|]. by rewrite last_cons_default in H2.
Qed.

(** Entries outside the segment, and fields other than the links, do not
    matter. *)
Lemma seg_ext m m' p l q :
  (∀ h e, h ∈ l → m !! h = Some e → ∃ e', m' !! h = Some e' ∧ links e e') → seg m p l q → seg m' p l q.
Proof.
  revert p. induction l as [|h l IH]; intros p Hm; [done|]. intros (e & He & Hp & Hn & Hs).
  destruct (Hm h e) as (e' & He' & Hp' & Hn'); [by left|done|]. exists e'. rewrite Hp', Hn'. split_and!; [done..|].
  apply IH; [|done]. intros h' e0 Hh'. apply Hm. by right.
Qed.
Lemma seg_out m p l q h e : h ∉ l → seg m p l q → seg (<[h := e]> m) p l q.
Proof.
  intros Hh. apply seg_ext. intros h' e' Hh' He'. exists e'. split; [|done]. rewrite lookup_insert_ne; [done|].
  by intros ->.
Qed.
Lemma seg_free m p l q : seg m p l q → seg m None l q.
Proof. destruct l; [done|]. intros (e & ? & _ & ?). exists e. auto. Qed.
Lemma seg_next m p l a q q' e : a ∉ l → m !! a = Some e →
  seg m p (l ++ [a]) q → seg (<[a := set_next q' e]> m) p (l ++ [a]) q'.
Proof.
  intros Ha He. rewrite !seg_app. intros [H1 (e' & He' & Hp & Hn & _)]. split; [by apply seg_out|].
  assert (e' = e) as -> by congruence. exists (set_next q' e). by rewrite lookup_insert_eq.
Qed.
Lemma seg_prev m b l q p p' e : b ∉ l → m !! b = Some e →
  seg m p (b :: l) q → seg (<[b := set_prev p' e]> m) (Some p') (b :: l) q.
Proof.
  intros Hb He (e' & He' & Hp & Hn & Hs). exists (set_prev p' e). rewrite lookup_insert_eq.
  assert (e' = e) as -> by congruence. split_and!; [done..|]. by apply seg_out.
Qed.

Section flush.
Context `{RL : RLP} `{MI : MapIter} `{KV : KeyValueStore} `{FC : FastCache}.

(** The flush list of the database is [l]. *)
Definition flush_list (db : Database) (l : list bytes) : Prop :=
  NoDup l ∧ zero ∉ l ∧ oldest db = hd zero l ∧ (l ≠ [] → last l = Some (newest db)) ∧
  seg (dirties db) None l zero.

Record info := mkInfo { iNode : CNode; iKids : option (gmap bytes Z); iParents : Z }.
Definition info_of (e : cachedNode) : info := mkInfo (cNode e) (children e) (parents e).
Definition infos (db : Database) : gmap bytes info := info_of <$> dirties db.

(** All but the dirty nodes and the ends of the list. *)
Definition same_rest (db db' : Database) : Prop :=
  diskdb db' = diskdb db ∧ cleans db' = cleans db ∧ preimages db' = preimages db.

#[global] Instance frame_preorder : PreOrder same_rest.
Proof. split; [by intros ?|]. intros ??? (?&?&?) (?&?&?). repeat split; congruence. Qed.

Lemma infos_Some db h e : dirties db !! h = Some e → infos db !! h = Some (info_of e).
Proof. intros He. unfold infos. by rewrite lookup_fmap, He. Qed.
Lemma infos_is_Some db h i : infos db !! h = Some i → ∃ e, dirties db !! h = Some e ∧ i = info_of e.
Proof. unfold infos. rewrite lookup_fmap. destruct (dirties db !! h); naive_solver. Qed.

Lemma on_entry_ok db h f e :
  dirties db !! h = Some e → on_entry h f db = Ret (set_dirties (<[h := f e]> (dirties db)) db).
Proof. intros He. unfold on_entry. by rewrite He. Qed.

(** An entry whose links change keeps its information. *)
Lemma infos_links db h e e' :
  dirties db !! h = Some e → info_of e' = info_of e → infos (set_dirties (<[h := e']> (dirties db)) db) = infos db.
Proof.
  intros He Hi. unfold infos. simpl. rewrite fmap_insert, Hi. apply insert_id. by rewrite lookup_fmap, He.
Qed.

Lemma flush_entry db l h :
  flush_list db l → h ∈ l → ∃ e, dirties db !! h = Some e.
Proof.
  intros (_ & _ & _ & _ & Hs) (l1 & l2 & ->)%list_elem_of_split. apply seg_app in Hs as [_ (e & He & _)]. eauto.
Qed.

(** [unlink] removes the node from the list and changes nothing else. *)
Lemma unlink_ok db l1 h l2 e :
  flush_list db (l1 ++ h :: l2) → dirties db !! h = Some e → is_Some (dirties db !! zero) →
  ∃ db', unlink db h e = Ret db' ∧ flush_list db' (l1 ++ l2) ∧ infos db' = infos db ∧ same_rest db db'.
Proof.
  intros (Hnd & Hz & Ho & Hn & Hs) He [ez Hez].
  assert (NoDup (l1 ++ l2)) as Hnd' by (rewrite <-Permutation_middle in Hnd; by apply NoDup_cons in Hnd as [_ ?]).
  assert (h ∉ l1 ++ l2) as Hh by (rewrite <-Permutation_middle in Hnd; by apply NoDup_cons in Hnd as [? _]).
  assert (zero ∉ l1 ++ l2 ∧ zero ≠ h) as [Hz' Hzh] by set_solver.
  apply seg_app in Hs as [Hs1 Hs2]. unfold unlink. destruct l1 as [|a l1 _] using rev_ind.
  - (* the oldest *)
    simpl in *. rewrite bool_decide_true by done. destruct Hs2 as (e' & He' & _ & Hnx & Hs2).
    assert (e' = e) as -> by congruence.
    assert (∃ e', dirties db !! flushNext e = Some e') as [en Hen].
    { rewrite Hnx. destruct l2 as [|b l2]; [eauto|]. destruct Hs2 as (e' & ? & _). eauto. }
    eexists. split; [by apply on_entry_ok|]. split; [|split; [by eapply (infos_links (set_ends _ _ db))|done]].
    split_and!; [done..| |].
    + destruct l2 as [|b l2]; [done|]. intros _. specialize (Hn ltac:(done)). by rewrite last_cons_cons in Hn.
    + cbn [dirties set_dirties set_ends]. destruct l2 as [|b l2]; [done|]. rewrite Hnx in *. cbn [hd] in *.
      apply (seg_free _ (Some zero)). eapply seg_prev; [|done|done]. by apply NoDup_cons in Hnd' as [? _].
  - (* not the oldest *)
    rewrite <-app_assoc in Hn, Ho, Hz', Hnd', Hh |- *. cbn [app] in *.
    assert (h ≠ oldest db) by (rewrite Ho; destruct l1; set_solver).
    rewrite bool_decide_false by done. rewrite last_snoc in Hs2. destruct Hs2 as (e' & He' & Hpv & Hnx & Hs2).
    assert (e' = e) as -> by congruence.
    assert (∃ ea, dirties db !! flushPrev e = Some ea) as [ea Hea].
    { apply seg_app in Hs1 as [_ (ea & Hea & _)]. rewrite Hpv. eauto. }
    assert (NoDup (l1 ++ [a]) ∧ a ∉ l1 ∧ a ∉ l2) as (_ & Ha & Ha2).
    { rewrite cons_middle, app_assoc in Hnd'. apply NoDup_app in Hnd' as (Hd & ? & _). split; [done|].
      rewrite cons_middle in Hnd. apply NoDup_app in Hd as (_ & Hd & _).
      split; [set_solver|]. set_solver. }
    case_bool_decide as Hnew.
    + (* the newest *)
      assert (l2 = []) as ->.
      { destruct l2 as [|b l2 _] using rev_ind; [done|]. specialize (Hn ltac:(by destruct l1)).
        replace (l1 ++ a :: h :: l2 ++ [b]) with ((l1 ++ a :: h :: l2) ++ [b]) in Hn by (by rewrite <-app_assoc).
        rewrite last_snoc in Hn. simplify_eq. set_solver. }
      eexists. split; [by apply on_entry_ok|]. split; [|split; [by eapply (infos_links (set_ends _ _ db))|done]].
      split_and!; [done..| | |].
      * simpl. rewrite Ho. by destruct l1.
      * intros _. simpl. rewrite last_snoc. by rewrite Hpv.
      * cbn [dirties set_dirties set_ends]. rewrite Hpv in Hea |- *. by eapply seg_next.
    + destruct l2 as [|b l2].
      { exfalso. apply Hnew. specialize (Hn ltac:(by destruct l1)). replace (l1 ++ [a; h]) with ((l1 ++ [a]) ++ [h]) in Hn by (by rewrite <-app_assoc).
        rewrite last_snoc in Hn. by simplify_eq. }
      pose proof Hs2 as (eb & Heb & _).
      assert (b ∉ l1 ++ [a] ∧ b ∉ l2 ∧ a ∉ b :: l2) as (Hb1 & Hb2 & Hab).
      { rewrite cons_middle, app_assoc in Hnd'. apply NoDup_app in Hnd' as (_ & Hd & [Hb _]%NoDup_cons).
        split_and!; [intros Hin; apply (Hd b Hin); by left|done|]. apply Hd, elem_of_app. right. by left. }
      assert (b ≠ a) by (intros ->; apply Hab; by left).
      rewrite Hpv in Hea |- *. cbn [hd] in Hnx. rewrite (on_entry_ok _ _ _ ea) by done. cbn [mbind go_bind]. rewrite Hnx.
      erewrite on_entry_ok by (cbn [dirties set_dirties]; rewrite lookup_insert_ne by done; exact Heb).
      eexists. split; [done|]. split; [|split; [|done]].
      * split_and!; [done..| | |].
        -- simpl. rewrite Ho. by destruct l1.
        -- intros _. specialize (Hn ltac:(by destruct l1)). rewrite !last_app, !last_cons_cons in Hn.
           rewrite last_app, last_cons_cons. exact Hn.
        -- cbn [dirties set_dirties]. rewrite cons_middle, app_assoc, seg_app. split.
           ++ cbn [hd]. apply seg_out; [done|]. by eapply seg_next.
           ++ rewrite last_snoc. apply seg_prev with (p := Some h); [done|by rewrite lookup_insert_ne|]. by apply seg_out.
      * erewrite infos_links; [|cbn [dirties set_dirties]; rewrite lookup_insert_ne by done; exact Heb|done].
        by eapply infos_links.
Qed.

(** The entry of a node that is not in the list, other fields, the sizes. *)
Lemma flush_ext db db' l :
  oldest db' = oldest db → newest db' = newest db →
  (∀ h e, h ∈ l → dirties db !! h = Some e → ∃ e', dirties db' !! h = Some e' ∧ links e e') →
  flush_list db l → flush_list db' l.
Proof. intros Ho Hn Hm (? & ? & ? & ? & ?). rewrite <-Ho, <-Hn in *. split_and!; try done. by eapply seg_ext. Qed.

Lemma flush_set db l h e e' :
  dirties db !! h = Some e → links e e' → flush_list db l → flush_list (set_dirties (<[h := e']> (dirties db)) db) l.
Proof.
  intros He Hl. apply flush_ext; [done..|]. intros h' e0 _ He0. simpl. destruct (decide (h = h')) as [->|Hne].
  - rewrite lookup_insert_eq. exists e'. by simplify_eq.
  - rewrite lookup_insert_ne by done. by exists e0.
Qed.
Lemma flush_delete db l h :
  h ∉ l → flush_list db l → flush_list (set_dirties (base.delete h (dirties db)) db) l.
Proof.
  intros Hh. apply flush_ext; [done..|]. intros h' e0 Hh' He0. simpl. exists e0.
  rewrite lookup_delete_ne by (by intros ->). done.
Qed.

(** The oldest node leaves, its link back stays. *)
Lemma flush_pop db h l e :
  flush_list db (h :: l) → dirties db !! h = Some e →
  flush_list (set_ends (flushNext e) (newest db) (set_dirties (base.delete h (dirties db)) db)) l ∧ flushNext e = hd zero l.
Proof.
  intros (Hnd & Hz & Ho & Hn & (e' & He' & _ & Hnx & Hs)) He. assert (e' = e) as -> by congruence. split; [|done].
  apply NoDup_cons in Hnd as [Hh Hnd]. split_and!; [done|set_solver|done| |].
  - intros Hl. specialize (Hn ltac:(done)). destruct l; [done|]. by rewrite last_cons_cons in Hn.
  - cbn [dirties set_dirties set_ends]. eapply seg_ext; [|by eapply seg_free]. intros h' e0 Hh' He0. exists e0.
    rewrite lookup_delete_ne by (by intros ->). done.
Qed.

(** A new node becomes the newest. *)
Lemma flush_push db l h e :
  flush_list db l → dirties db !! h = Some e → flushNext e = zero → flushPrev e = newest db → h ≠ zero → h ∉ l →
  ∃ db', (if bool_decide (oldest db = zero) then Ret (set_ends h h db)
          else db ← on_entry (newest db) (set_next h) db; Ret (set_ends (oldest db) h db)) = Ret db' ∧
    flush_list db' (l ++ [h]) ∧ infos db' = infos db ∧ same_rest db db'.
Proof.
  intros (Hnd & Hz & Ho & Hn & Hs) He Hnx Hpv Hh0 Hh.
  assert (NoDup (l ++ [h])) as Hnd'.
  { apply NoDup_app. split_and!; [done|set_solver|apply NoDup_singleton]. }
  assert (zero ∉ (l ++ [h])) as Hz' by set_solver.
  destruct l as [|a l _] using rev_ind.
  - rewrite bool_decide_true by done. eexists. split; [done|]. split; [|by split]. split_and!; [done..|].
    exists e. by rewrite Hnx.
  - assert (oldest db ≠ zero) as Ho' by (rewrite Ho; destruct l; set_solver). rewrite bool_decide_false by done.
    specialize (Hn ltac:(by destruct l)). rewrite last_snoc in Hn.
    assert (newest db = a) as Hna by congruence. rewrite Hna in *. apply seg_app in Hs as Hs'. destruct Hs' as [_ (ea & Hea & _)]. rewrite (on_entry_ok _ _ _ ea) by done.
    cbn [mbind go_bind]. eexists. split; [done|]. split; [|split; [by eapply infos_links|done]].
    split_and!; [done..| | |].
    + simpl. rewrite Ho. by destruct l.
    + intros _. by rewrite last_snoc.
    + cbn [dirties set_dirties set_ends]. apply seg_app. split.
      * cbn [hd]. eapply seg_next; [|done|done].
        apply NoDup_app in Hnd as (_ & Hd & _). intros Ha. apply (Hd a Ha). by left.
      * rewrite last_snoc. exists e. rewrite lookup_insert_ne by set_solver. by rewrite Hnx, Hpv.
Qed.
End flush.

(** ** References between dirty nodes *)
Section counts.
Context `{MI : MapIter}.

Definition occurs (h : bytes) (l : list bytes) : Z := sumZ (λ x, if decide (x = h) then 1 else 0) l.

(** What [forChilds] visits, and how many references a node holds on [h]:
    as many as are counted for a child from outside, one for each place in
    the node itself. *)
Definition childs (i : info) : list bytes :=
  match iKids i with Some m => (map_iter m).*1 | None => [] end ++ forGatherChildren (iNode i).
Definition mult (i : info) (h : bytes) : Z :=
  match iKids i with Some m => default 0 (m !! h) | None => 0 end + occurs h (forGatherChildren (iNode i)).
Definition counted (i : info) : Prop := ∀ m c k, iKids i = Some m → m !! c = Some k → 1 ≤ k.
Definition refs (I : gmap bytes info) (h : bytes) : Z := sumZ (λ p, mult p.2 h) (map_to_list I).
Definition live (I : gmap bytes info) (D : gset bytes) : gmap bytes info := filter (λ p, p.1 ∉ D) I.

Lemma forChilds_childs e : forChilds e = childs (info_of e).
Proof. unfold forChilds, childs. f_equal. simpl. by destruct (cNode e). Qed.

Lemma occurs_app h l k : occurs h (l ++ k) = occurs h l + occurs h k.
Proof. apply sumZ_app. Qed.
Lemma occurs_cons h x l : occurs h (x :: l) = (if decide (x = h) then 1 else 0) + occurs h l.
Proof. done. Qed.
Lemma occurs_nonneg h l : 0 ≤ occurs h l.
Proof. apply sumZ_nonneg. intros x _. case_decide; lia. Qed.
Lemma occurs_pos h l : h ∈ l → 1 ≤ occurs h l.
Proof.
  induction 1 as [h l|h x l _ IH]; rewrite occurs_cons.
  - rewrite decide_True by done. pose proof (occurs_nonneg h l). lia.
  - case_decide; lia.
Qed.
Lemma occurs_none h l : h ∉ l → occurs h l = 0.
Proof. induction l as [|x l IH]; [done|]. intros [? ?]%not_elem_of_cons. rewrite occurs_cons, decide_False, IH by auto. done. Qed.
Lemma occurs_NoDup h l : NoDup l → occurs h l ≤ 1.
Proof.
  induction 1 as [|x l Hx _ IH]; [done|]. rewrite occurs_cons. case_decide as E; [|lia]. rewrite <-E, occurs_none by done. lia.
Qed.

Lemma occurs_childs i h : counted i → occurs h (childs i) ≤ mult i h.
Proof.
  intros Hc. unfold childs, mult. rewrite occurs_app. destruct (iKids i) as [m|] eqn:E; [|simpl; lia].
  destruct (m !! h) as [k|] eqn:Ek; simpl.
  - pose proof (Hc m h k E Ek). pose proof (occurs_NoDup h _ (NoDup_fst_map_iter m)). lia.
  - rewrite occurs_none; [lia|]. rewrite elem_of_map_iter_fst, Ek. by intros [].
Qed.
Lemma mult_nonneg i h : counted i → 0 ≤ mult i h.
Proof. intros Hc. pose proof (occurs_childs i h Hc). pose proof (occurs_nonneg h (childs i)). lia. Qed.
Lemma mult_pos i h : counted i → h ∈ childs i → 1 ≤ mult i h.
Proof. intros Hc Hh. pose proof (occurs_childs i h Hc). pose proof (occurs_pos h _ Hh). lia. Qed.

Lemma elem_of_childs i h :
  h ∈ childs i ↔ (∃ m, iKids i = Some m ∧ is_Some (m !! h)) ∨ h ∈ forGatherChildren (iNode i).
Proof.
  unfold childs. rewrite elem_of_app. destruct (iKids i) as [m|].
  - rewrite elem_of_map_iter_fst. naive_solver.
  - rewrite elem_of_nil. naive_solver.
Qed.

Lemma refs_insert I k i h : I !! k = None → refs (<[k := i]> I) h = mult i h + refs I h.
Proof. intros Hk. unfold refs. by rewrite map_to_list_insert. Qed.
Lemma refs_delete I k i h : I !! k = Some i → refs I h = mult i h + refs (base.delete k I) h.
Proof. intros Hk. rewrite <-(insert_delete_id I k i) at 1 by done. apply refs_insert, lookup_delete_eq. Qed.
Lemma refs_replace I k i i' h : I !! k = Some i → refs (<[k := i']> I) h + mult i h = refs I h + mult i' h.
Proof.
  intros Hk. rewrite (refs_delete I k i) by done. rewrite <-insert_delete_eq, refs_insert by apply lookup_delete_eq. lia.
Qed.
Lemma refs_nonneg I h : (∀ k i, I !! k = Some i → counted i) → 0 ≤ refs I h.
Proof. intros Hc. apply sumZ_nonneg. intros [k i] Hi%elem_of_map_to_list. by eapply mult_nonneg, Hc. Qed.
Lemma refs_ge I k i h : (∀ k i, I !! k = Some i → counted i) → I !! k = Some i → mult i h ≤ refs I h.
Proof.
  intros Hc Hk. rewrite (refs_delete I k i) by done.
  pose proof (refs_nonneg (base.delete k I) h) as Hn. ospecialize (Hn _); [|lia].
  intros k' i' [_ Hi]%lookup_delete_Some. eauto.
Qed.


Lemma live_Some I D k i : live I D !! k = Some i ↔ I !! k = Some i ∧ k ∉ D.
Proof. unfold live. by rewrite map_lookup_filter_Some. Qed.
Lemma live_insert I D k i : k ∉ D → live (<[k := i]> I) D = <[k := i]> (live I D).
Proof. intros Hk. unfold live. by rewrite map_filter_insert_True. Qed.
Lemma live_dying I D k i : k ∈ D → live (<[k := i]> I) D = live I D.
Proof.
  intros Hk. apply map_eq. intros k'. apply option_eq. intros i'. rewrite !live_Some.
  destruct (decide (k' = k)) as [->|]; [naive_solver|by rewrite lookup_insert_ne].
Qed.
Lemma live_die I D k : live I ({[k]} ∪ D) = base.delete k (live I D).
Proof.
  apply map_eq. intros k'. apply option_eq. intros i'. rewrite lookup_delete_Some, !live_Some. set_solver.
Qed.
Lemma live_delete I D k : live (base.delete k I) D = base.delete k (live I D).
Proof.
  apply map_eq. intros k'. apply option_eq. intros i'. rewrite lookup_delete_Some, !live_Some, lookup_delete_Some. naive_solver.
Qed.
Lemma live_removed I D k : k ∈ D → live (base.delete k I) (D ∖ {[k]}) = live I D.
Proof.
  intros Hk. apply map_eq. intros k'. apply option_eq. intros i'. rewrite !live_Some, lookup_delete_Some. set_solver.
Qed.
Lemma mult_zero i h : h ∉ childs i → mult i h = 0.
Proof.
  rewrite elem_of_childs. unfold mult. intros Hn. rewrite occurs_none by tauto. destruct (iKids i) as [m|]; [|done].
  destruct (m !! h) eqn:E; [exfalso; apply Hn; left; eauto|done].
Qed.

Lemma refs_zero I h : (∀ p i, I !! p = Some i → h ∉ childs i) → refs I h = 0.
Proof.
  intros Hn. unfold refs. rewrite (sumZ_ext _ (λ _, 0)), sumZ_const0; [done|].
  intros [p i] Hp%elem_of_map_to_list. by eapply mult_zero, Hn.
Qed.

End counts.

(** ** The invariant *)
Section core.
Context `{RL : RLP} `{MI : MapIter} `{KV : KeyValueStore} `{FC : FastCache}.
(** What each hash is the hash of, and how deep nodes nest below it. *)
Variable G : bytes → option Node.
Variable height : bytes → nat.

Definition on_disk (d : kv) (h : bytes) : Prop := is_Some (kv_Get d h).
Definition stored (I : gmap bytes info) (D : gset bytes) (d : kv) (h : bytes) : Prop :=
  (is_Some (I !! h) ∧ h ∉ D) ∨ on_disk d h.

(** [D]: nodes that are being removed.  [pend]: references that are still
    counted but whose holder is being removed. *)
Record core (D : gset bytes) (pend : list bytes) (I : gmap bytes info) (d : kv) (l : list bytes) : Prop := mkCore {
  co_meta : ∃ m, zero ∉ D ∧ iNode <$> I !! zero = Some cNil ∧ I !! zero ≫= iKids = Some m;
  co_list h : h ∈ l ↔ h ≠ zero ∧ is_Some (I !! h) ∧ h ∉ D;
  co_node h i : I !! h = Some i → h ≠ zero → ∃ x, G h = Some x ∧ iNode i = raw_of (collapse x);
  co_counted h i : I !! h = Some i → counted i;
  co_edge p i c : I !! p = Some i → c ∈ childs i → c ≠ zero ∧ (p ≠ zero → (height c < height p)%nat);
  co_closed p i c : I !! p = Some i → p ∉ D → c ∈ childs i → stored I D d c;
  co_order l1 p l2 x c : l = l1 ++ p :: l2 → G p = Some x → c ∈ kids x → on_disk d c ∨ c ∈ l1;
  co_count h i : I !! h = Some i → h ∉ D → ¬ on_disk d h → refs (live I D) h + occurs h pend ≤ iParents i;
  co_parents h i : I !! h = Some i → 0 ≤ iParents i;
  co_disk h x c : on_disk d h → G h = Some x → c ∈ kids x → on_disk d c
}.

Lemma live_counted D pend I d l : core D pend I d l → ∀ k i, live I D !! k = Some i → counted i.
Proof. intros Hc k i [Hi _]%live_Some. by eapply co_counted. Qed.

Lemma stored_insert I D d k i h : stored I D d h → stored (<[k := i]> I) D d h.
Proof.
  intros [[Hh ?]|?]; [|by right]. left. split; [|done]. destruct (decide (h = k)) as [->|];
    [rewrite lookup_insert_eq; eauto|by rewrite lookup_insert_ne].
Qed.

(** An entry that changes in its counters only. *)
Lemma core_parents D pend pend' I d l c i n :
  core D pend I d l → I !! c = Some i → 0 ≤ n →
  (∀ h i, I !! h = Some i → h ∉ D → ¬ on_disk d h → refs (live I D) h + occurs h pend' ≤ (if decide (h = c) then n else iParents i)) →
  core D pend' (<[c := mkInfo (iNode i) (iKids i) n]> I) d l.
Proof.
  intros Hc Hi Hn Hcnt. set (i' := mkInfo _ _ n).
  assert (∀ h j, <[c := i']> I !! h = Some j → ∃ j0, I !! h = Some j0 ∧ iNode j = iNode j0 ∧ iKids j = iKids j0 ∧
    iParents j = if decide (h = c) then n else iParents j0) as Hin.
  { intros h j. destruct (decide (h = c)) as [->|]; [rewrite lookup_insert_eq|rewrite lookup_insert_ne by done];
      intros [= <-] || intros Hj; eauto 10. }
  assert (∀ j j0, iNode j = iNode j0 → iKids j = iKids j0 → childs j = childs j0) as Hch
    by (intros j j0 H1 H2; unfold childs; by rewrite H1, H2).
  assert (∀ h, refs (live (<[c := i']> I) D) h = refs (live I D) h) as Hrefs.
  { intros h. destruct (decide (c ∈ D)); [by rewrite live_dying|]. rewrite live_insert by done.
    pose proof (refs_replace (live I D) c i i' h) as Hr. rewrite live_Some in Hr. specialize (Hr (conj Hi n0)).
    assert (mult i' h = mult i h) by done. lia. }
  destruct Hc as [(m & Hz & Hm1 & Hm2) Hl Hnode Hcn Hedge Hcl Hord Hco Hpar Hdisk]. split; try done.
  - exists m. split_and!; [done|..]; (destruct (decide (zero = c)) as [<-|];
      [rewrite lookup_insert_eq; rewrite Hi in *; done|by rewrite lookup_insert_ne]).
  - intros h. rewrite Hl. destruct (decide (h = c)) as [->|]; [|by rewrite lookup_insert_ne].
    rewrite lookup_insert_eq, Hi. split; intros (?&?&?); eauto.
  - intros h j (j0 & Hj0 & -> & _ & _)%Hin. by apply Hnode.
  - intros h j (j0 & Hj0 & _ & Hk & _)%Hin m' k Hm'. rewrite Hk. by eapply Hcn.
  - intros p j k (j0 & Hj0 & H1 & H2 & _)%Hin. rewrite (Hch j j0) by done. by apply Hedge.
  - intros p j k (j0 & Hj0 & H1 & H2 & _)%Hin. rewrite (Hch j j0) by done. intros. apply stored_insert. by eapply Hcl.
  - intros h j (j0 & Hj0 & _ & _ & ->)%Hin ? ?. rewrite Hrefs. by apply Hcnt.
  - intros h j (j0 & Hj0 & _ & _ & ->)%Hin. case_decide; [done|by eapply Hpar].
Qed.

(** A pending reference to a node is dropped from its count. *)
Lemma core_pop D pend I d l c i :
  core D (c :: pend) I d l → I !! c = Some i → c ∉ D →
  core D pend (<[c := mkInfo (iNode i) (iKids i) (if bool_decide (iParents i > 0) then iParents i - 1 else iParents i)]> I) d l.
Proof.
  intros Hc Hi HD. eapply core_parents; [done..| |].
  - pose proof (co_parents _ _ _ _ _ Hc c i Hi). case_bool_decide; lia.
  - intros h j Hj HjD Hd. pose proof (co_count _ _ _ _ _ Hc h j Hj HjD Hd) as Hcnt. rewrite occurs_cons in Hcnt.
    destruct (decide (h = c)) as [->|Hne]; [|rewrite decide_False in Hcnt by congruence; lia].
    rewrite decide_True in Hcnt by done. simplify_eq.
    pose proof (refs_nonneg (live I D) c (live_counted _ _ _ _ _ Hc)). pose proof (occurs_nonneg c pend).
    case_bool_decide; lia.
Qed.
Lemma core_pop_absent D pend I d l c :
  core D (c :: pend) I d l → I !! c = None ∨ on_disk d c → core D pend I d l.
Proof.
  intros Hc HN. pose proof Hc as [? ? ? ? ? ? ? Hco ? ?]. split; try done. intros h i Hi HD Hd.
  specialize (Hco h i Hi HD Hd). rewrite occurs_cons in Hco. case_decide; [subst; naive_solver|lia].
Qed.

(** A node without references starts to be removed. *)
Lemma core_die D pend I d l1 h l2 i :
  core D pend I d (l1 ++ h :: l2) → NoDup (l1 ++ h :: l2) → I !! h = Some i → h ∉ D → h ≠ zero → iParents i = 0 →
  core ({[h]} ∪ D) (childs i ++ pend) I d (l1 ++ l2).
Proof.
  intros Hc Hnd Hi HD Hh Hp. rewrite <-Permutation_middle in Hnd. apply NoDup_cons in Hnd as [Hhl _].
  assert (∀ p j, I !! p = Some j → p ∉ D → h ∈ childs j → on_disk d h) as Hlast.
  { intros p j Hj HpD Hin. destruct (kv_Get d h) eqn:E; [unfold on_disk; rewrite E; eauto|exfalso].
    assert (¬ on_disk d h) as Hno by (unfold on_disk; rewrite E; by intros []).
    pose proof (co_count _ _ _ _ _ Hc h i Hi HD Hno) as Hcnt. pose proof (occurs_nonneg h pend).
    pose proof (mult_pos j h (co_counted _ _ _ _ _ Hc p j Hj) Hin).
    pose proof (refs_ge (live I D) p j h (live_counted _ _ _ _ _ Hc) ltac:(by apply live_Some)). lia. }
  destruct Hc as [(m & Hz & Hm) Hl Hnode Hcn Hedge Hcl Hord Hco Hpar Hdisk]. split; try done.
  - exists m. split; [set_solver|done].
  - intros h'. specialize (Hl h'). rewrite elem_of_app, elem_of_cons in Hl. rewrite elem_of_app in Hhl |- *.
    rewrite not_elem_of_union, not_elem_of_singleton. destruct (decide (h' = h)) as [->|]; naive_solver.
  - intros p j c Hj [Hne HpD]%not_elem_of_union Hin. destruct (Hcl p j c Hj HpD Hin) as [[? ?]|?]; [|by right].
    destruct (decide (c = h)) as [->|]; [right; eauto|]. left. split; [done|]. set_solver.
  - intros k1 p k2 x c Heq Hx Hin.
    assert (p ∈ l1 ++ h :: l2 ∧ p ≠ h) as [Hpl Hph].
    { assert (p ∈ l1 ++ l2) as Hin' by (rewrite Heq; apply elem_of_app; right; by left).
      split; [|by intros ->]. rewrite elem_of_app, elem_of_cons. apply elem_of_app in Hin' as [?|?]; auto. }
    assert (c = h → on_disk d c) as Hch.
    { intros ->. apply Hl in Hpl as (Hpz & [j Hj] & HpD). apply (Hlast p j Hj HpD), elem_of_childs. right.
      destruct (Hnode p j Hj Hpz) as (x' & Hx' & ->). by simplify_eq. }
    apply app_eq_inv in Heq as [(k & -> & Heq)|(k & -> & ->)].
    + destruct k as [|y k]; simplify_eq/=.
      * rewrite app_nil_r in *. destruct (Hord (k1 ++ [h]) p k2 x c) as [?|[?|Hc]%elem_of_app];
          [by rewrite <-app_assoc|done..|by left|by right|apply list_elem_of_singleton in Hc; auto].
      * destruct (Hord k1 y (k ++ h :: l2) x c) as [?|?]; [by rewrite <-app_assoc|done..|by left|by right].
    + destruct (Hord (l1 ++ h :: k) p k2 x c) as [?|Hc]; [by rewrite <-app_assoc|done..|by left|].
      rewrite elem_of_app, elem_of_cons in Hc. rewrite elem_of_app. destruct Hc as [?|[?|?]]; auto.
  - intros h' j Hj [Hne HhD]%not_elem_of_union Hd. rewrite live_die, occurs_app.
    pose proof (refs_delete (live I D) h i h' ltac:(by apply live_Some)).
    pose proof (occurs_childs i h' ltac:(by eapply Hcn)). specialize (Hco h' j Hj HhD Hd). lia.
Qed.

(** A node that was being removed is gone. *)
Lemma core_removed D pend I d l h :
  core D pend I d l → h ∈ D → core (D ∖ {[h]}) pend (base.delete h I) d l.
Proof.
  intros [(m & Hz & Hm) Hl Hnode Hcn Hedge Hcl Hord Hco Hpar Hdisk] HD.
  assert (∀ c j, base.delete h I !! c = Some j → I !! c = Some j ∧ (c ∉ D ∖ {[h]} → c ∉ D)) as Hin
    by (intros c j [? ?]%lookup_delete_Some; set_solver).
  split; try done; try (by intros ? ? [? ?]%Hin; eauto); try (by intros ? ? ? [? ?]%Hin; eauto).
  - exists m. rewrite lookup_delete_ne by (by intros ->). split; [set_solver|done].
  - intros c. rewrite Hl. destruct (decide (c = h)) as [->|].
    + rewrite lookup_delete_eq. split; [by intros (_ & _ & ?)|by intros (_ & [? ?] & _)].
    + rewrite lookup_delete_ne by done. set_solver.
  - intros p j c [Hj Hp]%Hin Hpd Hc. destruct (Hcl p j c Hj (Hp Hpd) Hc) as [[? ?]|?]; [left|by right].
    rewrite lookup_delete_ne by (by intros ->). set_solver.
  - intros c j [Hj Hc]%Hin HcD. rewrite live_removed by done. auto.
Qed.

(** A node that is on disk leaves the cache. *)
Lemma core_forget D pend I d l1 h l2 :
  core D pend I d (l1 ++ h :: l2) → NoDup (l1 ++ h :: l2) → on_disk d h → core D pend (base.delete h I) d (l1 ++ l2).
Proof.
  intros Hc Hnd Hd. rewrite <-Permutation_middle in Hnd. apply NoDup_cons in Hnd as [Hhl _].
  pose proof (live_counted _ _ _ _ _ Hc) as Hlc.
  assert (h ≠ zero ∧ is_Some (I !! h) ∧ h ∉ D) as (Hz & [i Hi] & HD) by (eapply co_list; [done|set_solver]).
  destruct Hc as [(m & Hm0 & Hm) Hl Hnode Hcn Hedge Hcl Hord Hco Hpar Hdisk].
  assert (∀ c j, base.delete h I !! c = Some j → I !! c = Some j) as Hin by (by intros c j [? ?]%lookup_delete_Some).
  split; try done; try (by intros ? ? ?%Hin; eauto); try (by intros ? ? ? ?%Hin; eauto).
  - exists m. by rewrite lookup_delete_ne by done.
  - intros c. specialize (Hl c). rewrite elem_of_app, elem_of_cons in Hl. rewrite elem_of_app in Hhl |- *.
    destruct (decide (c = h)) as [->|].
    + rewrite lookup_delete_eq. split; [tauto|by intros (_ & [? ?] & _)].
    + rewrite lookup_delete_ne by done. naive_solver.
  - intros p j c Hj%Hin HpD Hc. destruct (Hcl p j c Hj HpD Hc) as [[? ?]|?]; [|by right].
    destruct (decide (c = h)) as [->|]; [by right|left]. by rewrite lookup_delete_ne.
  - intros k1 p k2 x c Heq Hx Hk. apply app_eq_inv in Heq as [(k & -> & Heq)|(k & -> & ->)].
    + destruct k as [|y k]; simplify_eq/=.
      * rewrite app_nil_r in *. destruct (Hord (k1 ++ [h]) p k2 x c) as [?|[?|Hc]%elem_of_app];
          [by rewrite <-app_assoc|done..|by left|by right|apply list_elem_of_singleton in Hc as ->; by left].
      * destruct (Hord k1 y (k ++ h :: l2) x c) as [?|?]; [by rewrite <-app_assoc|done..|by left|by right].
    + destruct (Hord (l1 ++ h :: k) p k2 x c) as [?|Hc]; [by rewrite <-app_assoc|done..|by left|].
      rewrite elem_of_app, elem_of_cons in Hc. rewrite elem_of_app. destruct Hc as [?|[->|?]]; auto.
  - intros c j Hj%Hin HcD Hcd. rewrite live_delete. specialize (Hco c j Hj HcD Hcd).
    pose proof (refs_delete (live I D) h i c ltac:(by apply live_Some)).
    pose proof (mult_nonneg i c ltac:(by eapply Hcn)). lia.
Qed.

(** More is on disk. *)
Lemma core_disk D pend I d d' l :
  core D pend I d l → (∀ h, on_disk d h → on_disk d' h) →
  (∀ h x c, on_disk d' h → G h = Some x → c ∈ kids x → on_disk d' c) → core D pend I d' l.
Proof.
  intros [Hm Hl Hnode Hcn Hedge Hcl Hord Hco Hpar Hdisk] Hd Hd'. split; try done.
  - intros p i c Hi HpD Hc. destruct (Hcl p i c Hi HpD Hc); [by left|right; auto].
  - intros l1 p l2 x c Heq Hx Hc. destruct (Hord l1 p l2 x c Heq Hx Hc); auto.
  - intros h i Hi HD Hno. apply Hco; auto.
Qed.

(** The children from outside of an entry change. *)
Lemma core_kids D pend pend' I d l p i m' :
  core D pend I d l → I !! p = Some i →
  (∀ c k, m' !! c = Some k → 1 ≤ k ∧
     (c ∈ childs i ∨ c ≠ zero ∧ (p ≠ zero → (height c < height p)%nat) ∧ stored I D d c)) →
  (∀ h, let i' := mkInfo (iNode i) (Some m') (iParents i) in
     (if decide (p ∈ D) then 0 else mult i' h - mult i h) + occurs h pend' ≤ occurs h pend) →
  core D pend' (<[p := mkInfo (iNode i) (Some m') (iParents i)]> I) d l.
Proof.
  intros Hc Hi Hm' Hcnt. set (i' := mkInfo _ (Some m') _) in *. cbv zeta in Hcnt.
  assert (∀ h j, <[p := i']> I !! h = Some j → (h = p ∧ j = i') ∨ (h ≠ p ∧ I !! h = Some j)) as Hin.
  { intros h j. destruct (decide (h = p)) as [->|]; [rewrite lookup_insert_eq|rewrite lookup_insert_ne by done]; naive_solver. }
  assert (∀ c, c ∈ childs i' → c ∈ childs i ∨ c ≠ zero ∧ (p ≠ zero → (height c < height p)%nat) ∧ stored I D d c) as Hch.
  { intros c [(m & [= <-] & [k Hk])|Hg]%elem_of_childs; [by eapply Hm'|]. left. apply elem_of_childs. by right. }
  destruct Hc as [(m & Hz & Hm1 & Hm2) Hl Hnode Hcn Hedge Hcl Hord Hco Hpar Hdisk].
  split; try (intros h j [[-> ->]|[_ Hj]]%Hin; [|by eauto]); try done.
  - destruct (decide (zero = p)) as [<-|].
    + exists m'. rewrite lookup_insert_eq. rewrite Hi in Hm1. done.
    + exists m. by rewrite lookup_insert_ne.
  - intros h. rewrite Hl. destruct (decide (h = p)) as [->|]; [|by rewrite lookup_insert_ne].
    rewrite lookup_insert_eq, Hi. split; intros (?&?&?); eauto.
  - intros ?. by apply (Hnode p i).
  - intros m0 c k [= <-] Hk. by eapply Hm'.
  - intros q j c [[-> ->]|[_ Hj]]%Hin Hcj; [|by eapply Hedge]. apply Hch in Hcj as [?|(? & ? & _)]; [|done]. by eapply Hedge.
  - intros q j c [[-> ->]|[_ Hj]]%Hin HqD Hcj; apply stored_insert; [|by eapply Hcl].
    apply Hch in Hcj as [?|(_ & _ & ?)]; [|done]. by eapply Hcl.
  - intros h j Hj HD Hd. assert (refs (live I D) h + occurs h pend ≤ iParents j) as Hle.
    { apply Hin in Hj as [[-> ->]|[_ Hj]]; [by apply (Hco p i)|by apply Hco]. }
    specialize (Hcnt h). case_decide as HpD; [by rewrite live_dying; [lia|]|]. rewrite live_insert by done.
    pose proof (refs_replace (live I D) p i i' h ltac:(by apply live_Some)). lia.
  - by apply (Hpar p i).
Qed.

(** A counted reference goes. *)
Lemma core_drop D pend I d l p i m c k :
  core D pend I d l → I !! p = Some i → iKids i = Some m → m !! c = Some k →
  core D (if decide (p ∈ D) then pend else c :: pend)
    (<[p := mkInfo (iNode i) (Some (if bool_decide (k - 1 = 0) then base.delete c m else <[c := k - 1]> m)) (iParents i)]> I) d l.
Proof.
  intros Hc Hi Hm Hk. pose proof (co_counted _ _ _ _ _ Hc p i Hi) as Hcn. pose proof (Hcn m c k Hm Hk) as Hk1.
  eapply core_kids; [done..| |].
  - intros c' k'. intros Hk'.
    assert (1 ≤ k' ∧ is_Some (m !! c')) as [? ?]; [|split; [done|left; apply elem_of_childs; eauto]].
    case_bool_decide; [apply lookup_delete_Some in Hk' as [_ Hk']; eauto|].
    apply lookup_insert_Some in Hk' as [[-> <-]|[_ Hk']]; [split; [lia|eauto]|eauto].
  - intros h i'. case_decide; [lia|]. rewrite occurs_cons. unfold mult, i'. cbn [iKids iNode]. rewrite Hm.
    assert (default 0 ((if bool_decide (k - 1 = 0) then base.delete c m else <[c:=k - 1]> m) !! h) =
      default 0 (m !! h) - (if decide (c = h) then 1 else 0)) as ->; [|lia].
    destruct (decide (c = h)) as [->|].
    + rewrite Hk. case_bool_decide; [rewrite lookup_delete_eq; simpl; lia|by rewrite lookup_insert_eq].
    + rewrite Z.sub_0_r. by case_bool_decide; [rewrite lookup_delete_ne|rewrite lookup_insert_ne].
Qed.

(** The parents of new references are counted. *)
Definition count_in (I : gmap bytes info) (c : bytes) : gmap bytes info :=
  match I !! c with Some i => <[c := mkInfo (iNode i) (iKids i) (u32 (iParents i + 1))]> I | None => I end.

Lemma core_incr D pend I d l c :
  core D pend I d l → (∀ i, I !! c = Some i → iParents i + 1 < 2^32) → core D (c :: pend) (count_in I c) d l.
Proof.
  intros Hc Hb. unfold count_in. destruct (I !! c) as [i|] eqn:E.
  - pose proof (co_parents _ _ _ _ _ Hc c i E). specialize (Hb i eq_refl). rewrite u32_small by (unfold in_u32; lia).
    eapply core_parents; [done..|lia|]. intros h j Hj HD Hd. pose proof (co_count _ _ _ _ _ Hc h j Hj HD Hd).
    rewrite occurs_cons. destruct (decide (h = c)) as [->|]; [rewrite decide_True by done; simplify_eq; lia|].
    rewrite decide_False by congruence. lia.
  - destruct Hc as [? ? ? ? ? ? ? Hco ? ?]. split; try done. intros h i Hi HD Hd. rewrite occurs_cons, decide_False by congruence.
    by apply Hco.
Qed.
Lemma incr_bound I c n h i :
  (∀ h i, I !! h = Some i → 0 ≤ iParents i ∧ iParents i + Z.of_nat (S n) < 2^32) → count_in I c !! h = Some i →
  0 ≤ iParents i ∧ iParents i + Z.of_nat n < 2^32.
Proof.
  intros Hb. unfold count_in. destruct (I !! c) as [j|] eqn:E; [|intros Hi; specialize (Hb h i Hi); lia].
  destruct (decide (h = c)) as [->|]; [rewrite lookup_insert_eq|rewrite lookup_insert_ne by done].
  - intros [= <-]. simpl. specialize (Hb c j E). rewrite u32_small by (unfold in_u32; lia). lia.
  - intros Hi. specialize (Hb h i Hi). lia.
Qed.
Lemma core_incrs D d l ks : ∀ pend I,
  core D pend I d l → (∀ h i, I !! h = Some i → 0 ≤ iParents i ∧ iParents i + len ks < 2^32) →
  core D (reverse ks ++ pend) (foldl count_in I ks) d l.
Proof.
  induction ks as [|c ks IH]; intros pend I Hc Hb; [done|]. rewrite reverse_cons, <-app_assoc. cbn [app foldl].
  apply IH; [|intros h i; by apply incr_bound].
  apply core_incr; [done|]. intros i Hi. specialize (Hb c i Hi). rewrite len_cons in Hb. pose proof (len_nonneg ks). lia.
Qed.
Lemma incrs_bound ks n h : ∀ I i,
  (∀ h i, I !! h = Some i → 0 ≤ iParents i ∧ iParents i + Z.of_nat (length ks + n) < 2^32) → foldl count_in I ks !! h = Some i →
  iParents i + Z.of_nat n < 2^32.
Proof.
  induction ks as [|c ks IH]; intros I i Hb Hi; [by apply (Hb h)|]. apply (IH (count_in I c)); [|done].
  intros h' i' Hi'. apply (incr_bound I c _ h' i'); [|done]. intros. by apply (Hb h0).
Qed.
Lemma incr_lookup I c h : iNode <$> count_in I c !! h = iNode <$> I !! h ∧ (is_Some (count_in I c !! h) ↔ is_Some (I !! h)).
Proof.
  unfold count_in. destruct (I !! c) as [j|] eqn:E; [|done].
  destruct (decide (h = c)) as [->|]; [rewrite lookup_insert_eq, E; split; [done|by split; eauto]|by rewrite lookup_insert_ne].
Qed.
Lemma incrs_lookup ks h : ∀ I, is_Some (foldl count_in I ks !! h) ↔ is_Some (I !! h).
Proof. induction ks as [|c ks IH]; intros I; [done|]. simpl. rewrite IH. apply incr_lookup. Qed.

Hypothesis G_kids : ∀ h x c, G h = Some x → c ∈ kids x → c ≠ zero ∧ (height c < height h)%nat.

(** A new node is added; the references it holds were counted. *)
Lemma core_add I d l h x :
  core ∅ (reverse (kids x)) I d l → I !! h = None → h ≠ zero → G h = Some x →
  (∀ c, c ∈ kids x → stored I ∅ d c) →
  core ∅ [] (<[h := mkInfo (raw_of (collapse x)) None 0]> I) d (l ++ [h]).
Proof.
  intros Hc Hh Hz Hx Hst. set (i := mkInfo _ _ 0).
  assert (childs i = kids x) as Hch by done.
  assert (∀ c j, <[h := i]> I !! c = Some j → (c = h ∧ j = i) ∨ (c ≠ h ∧ I !! c = Some j)) as Hin.
  { intros c j. destruct (decide (c = h)) as [->|]; [rewrite lookup_insert_eq|rewrite lookup_insert_ne by done]; naive_solver. }
  destruct Hc as [(m & Hz0 & Hm) Hl Hnode Hcn Hedge Hcl Hord Hco Hpar Hdisk].
  split; try (intros c j [[-> ->]|[_ Hj]]%Hin; [|by eauto]); try done.
  - exists m. by rewrite lookup_insert_ne.
  - intros c. rewrite elem_of_app, Hl, list_elem_of_singleton. destruct (decide (c = h)) as [->|].
    + rewrite lookup_insert_eq. split; [eauto|by right].
    + rewrite lookup_insert_ne by done. naive_solver.
  - eauto.
  - intros p j c [[-> ->]|[_ Hj]]%Hin Hcj; [|by eapply Hedge]. rewrite Hch in Hcj.
    destruct (G_kids h x c Hx Hcj). done.
  - intros p j c [[-> ->]|[_ Hj]]%Hin HpD Hcj; apply stored_insert; [rewrite Hch in Hcj; auto|by eapply Hcl].
  - intros l1 p l2 y c Heq Hy Hcy. destruct l2 as [|b l2 _] using rev_ind.
    + apply app_inj_tail in Heq as [-> ->]. simplify_eq. destruct (Hst c Hcy) as [[Hic _]|?]; [|by left]. right. apply Hl.
      split_and!; [by apply (G_kids p x)|done|set_solver].
    + rewrite app_comm_cons, app_assoc in Heq. apply app_inj_tail in Heq as [-> ->]. by eapply Hord.
  - intros c j Hj HD Hd. change (occurs c []) with 0. unfold live in *. rewrite map_filter_insert_True by set_solver.
    rewrite refs_insert by (by rewrite map_lookup_filter, Hh).
    assert (mult i c = occurs c (reverse (kids x))) as -> by (unfold occurs; by rewrite reverse_Permutation).
    apply Hin in Hj as [[-> ->]|[_ Hj]]; [|specialize (Hco c j Hj HD Hd); lia].
    rewrite occurs_none, refs_zero; [done| |].
    + intros p j [Hp _]%map_lookup_filter_Some Hhj. destruct (Hcl p j h Hp ltac:(set_solver) Hhj) as [[[? ?] _]|?]; congruence.
    + rewrite elem_of_reverse. intros Hhk. destruct (G_kids h x h Hx Hhk). lia.
Qed.

(** A new reference to [c] from [p] was counted and is entered. *)
Lemma core_enter pend I d l p i c :
  core ∅ (c :: pend) I d l → I !! p = Some i → is_Some (I !! c) → c ≠ zero → (p ≠ zero → (height c < height p)%nat) →
  let m := default ∅ (iKids i) in
  default 0 (m !! c) + 1 < 2^16 →
  core ∅ pend (<[p := mkInfo (iNode i) (Some (<[c := u16 (default 0 (m !! c) + 1)]> m)) (iParents i)]> I) d l.
Proof.
  intros Hc Hi Hcs Hz Hh m Hb. pose proof (co_counted _ _ _ _ _ Hc p i Hi) as Hcn.
  assert (∀ c' k, m !! c' = Some k → 1 ≤ k ∧ iKids i = Some m) as Hm.
  { intros c' k. unfold m. destruct (iKids i) as [m0|] eqn:E; [|done]. simpl. intros Hk. split; [by eapply Hcn|done]. }
  assert (0 ≤ default 0 (m !! c)) as Hpos.
  { destruct (m !! c) eqn:E; [|done]. apply Hm in E as [? _]. simpl. lia. }
  assert (u16 (default 0 (m !! c) + 1) = default 0 (m !! c) + 1) as -> by (apply Z.mod_small; lia).
  eapply core_kids; [done..| |].
  - intros c' k [[-> <-]|[_ Hk]]%lookup_insert_Some.
    + split; [lia|]. right. split_and!; [done..|]. left. split; [done|set_solver].
    + apply Hm in Hk as Hk'. destruct Hk' as [? ?]. split; [done|]. left. apply elem_of_childs. eauto.
  - intros h i'. rewrite decide_False by set_solver. rewrite occurs_cons. unfold mult, i'. cbn [iKids iNode].
    assert (match iKids i with Some m => default 0 (m !! h) | None => 0 end = default 0 (m !! h)) as ->.
    { unfold m. by destruct (iKids i). }
    destruct (decide (c = h)) as [->|]; [rewrite lookup_insert_eq; simpl; lia|rewrite lookup_insert_ne by done; lia].
Qed.
End core.
