(* ===== verification/NodeSafe.v ===== *)
(** * Operations of the trie's database preserve its invariant

    [inv] for a database; every operation returns, on every input it allows,
    and keeps [inv]; [gc_safe] and [commit_persists] follow. *)
From S2P Require Import Prelude Core Encoding Node Rebuild Trie NodeDB NodeGC.
Local Open Scope Z_scope.

Section ops.
Context `{RL : RLP} `{RLL : !RLPLaws} `{MI : MapIter} `{KV : KeyValueStore} `{KVL : !KeyValueLaws}
  `{FC : FastCache} `{FCL : !FastCacheLaws}.
(** What each hash is the hash of, and how deep nodes nest below it: at most
    [F]. *)
Variable G : bytes → option Node.
Variable height : bytes → nat.
Variable F : nat.
Hypothesis G_ok : ∀ h x, G h = Some x → wf_node x ∧ has_vals x ∧ length h = 32%nat ∧ h ≠ zero.
Hypothesis G_kids : ∀ h x c, G h = Some x → c ∈ kids x → c ≠ zero ∧ (height c < height h)%nat.
Hypothesis height_F : ∀ h, (height h < F)%nat.

Abbreviation core := (core G height).

(** What is stored under a hash, on disk or in the clean cache, is the node
    of that hash; preimages are kept under hashes. *)
Definition keys32 (m : option (gmap bytes bytes)) : Prop := ∀ p k, m = Some p → is_Some (p !! k) → length k = 32%nat.
Definition content_ok (db : Database) : Prop :=
  (∀ h x v, G h = Some x → kv_Get (diskdb db) h = Some v → v = wire x) ∧
  (∀ h x v, G h = Some x → clean_hit db h = Some v → v = wire x) ∧ keys32 (preimages db).
Record inv (D : gset bytes) (pend : list bytes) (db : Database) (l : list bytes) : Prop := mkInv {
  inv_flush : flush_list db l;
  inv_core : core D pend (infos db) (diskdb db) l;
  inv_content : content_ok db
}.

Lemma content_frame db db' : same_rest db db' → content_ok db → content_ok db'.
Proof. unfold content_ok, clean_hit. by intros (-> & -> & ->). Qed.

(** An entry whose links and place stay. *)
Lemma inv_set D pend pend' db l h e e' :
  dirties db !! h = Some e → links e e' → inv D pend db l →
  core D pend' (<[h := info_of e']> (infos db)) (diskdb db) l →
  inv D pend' (set_dirties (<[h := e']> (dirties db)) db) l.
Proof.
  intros He Hl [Hf _ Hcn] Hc. split; [by eapply flush_set| |done]. unfold infos in *. simpl. by rewrite fmap_insert.
Qed.
Lemma inv_sizes D pend db l a b : inv D pend db l → inv D pend (add_sizes a b db) l.
Proof. by intros [? ? ?]. Qed.
Lemma inv_stats D pend db l a b c d : inv D pend db l → inv D pend (set_stats a b c d db) l.
Proof. by intros [? ? ?]. Qed.

Definition same_dom (db db' : Database) : Prop := ∀ h, is_Some (dirties db' !! h) ↔ is_Some (dirties db !! h).

Lemma same_dom_set db h e e' : dirties db !! h = Some e → same_dom db (set_dirties (<[h := e']> (dirties db)) db).
Proof.
  intros He h'. simpl. destruct (decide (h' = h)) as [->|]; [rewrite lookup_insert_eq, He|rewrite lookup_insert_ne by done];
    split; eauto.
Qed.

Lemma infos_dom db h : is_Some (infos db !! h) ↔ is_Some (dirties db !! h).
Proof. unfold infos. rewrite lookup_fmap, fmap_is_Some. done. Qed.

(** *** [drop_reference] *)
Lemma drop_reference_ok D pend db l c p e :
  inv D pend db l → dirties db !! p = Some e →
  ∃ db', drop_reference db c p = Ret db' ∧ same_rest db db' ∧ same_dom db db' ∧
    inv D (if decide (p ∈ D) then pend
           else match children e ≫= (.!! c) with Some _ => c :: pend | None => pend end) db' l.
Proof.
  intros Hi He. pose proof (infos_Some db p e He) as Hie. unfold drop_reference. rewrite He. cbn [deref mbind go_bind].
  destruct (children e) as [m|] eqn:Em; [|exists db; split_and!; try done; simpl; by destruct (decide _)].
  cbn [mbind option_bind]. destruct (m !! c) as [k|] eqn:Ek; simpl.
  - pose proof (co_counted _ _ _ _ _ _ _ (inv_core _ _ _ _ Hi) p _ Hie m c k Em Ek) as Hk.
    rewrite bool_decide_true by lia. eexists. split; [done|].
    set (m' := if bool_decide (k - 1 = 0) then base.delete c m else <[c := k - 1]> m). set (e' := set_children (Some m') e).
    assert (inv D (if decide (p ∈ D) then pend else c :: pend) (set_dirties (<[p := e']> (dirties db)) db) l) as Hi'.
    { eapply inv_set; [done..|]. by apply (core_drop _ _ _ _ _ _ _ p _ m c k (inv_core _ _ _ _ Hi) Hie Em Ek). }
    pose proof (same_dom_set db p e e' He) as Hd.
    case_bool_decide; (split_and!; [done|exact Hd|try apply inv_sizes; exact Hi']).
  - exists db. split_and!; try done. by destruct (decide _).
Qed.

(** *** [dereference] *)

(** The body of [dereference], after the reference was dropped. *)
Definition release (fuel : nat) (db : Database) (child : bytes) : go Database :=
  match dirties db !! child with
  | None => Ret db
  | Some n =>
      let n := if bool_decide (parents n > 0) then set_parents (parents n - 1) n else n in
      let db := set_dirties (<[child := n]> (dirties db)) db in
      if bool_decide (parents n = 0) then
        db ← unlink db child n;
        db ← go_fold (λ db hash, dereference fuel db hash child) db (forChilds n);
        let db := set_dirties (base.delete child (dirties db)) db in
        Ret (add_sizes (- (HashLength + cSize n))
               (match children n with Some _ => - cachedNodeChildrenSize | None => 0 end) db)
      else Ret db
  end.
Lemma dereference_S fuel db child parent :
  dereference (S fuel) db child parent = db ← drop_reference db child parent; release fuel db child.
Proof. done. Qed.

(** The nodes that are being removed stay where they are until it is their
    turn. *)
Definition keeps (D : gset bytes) (db db' : Database) : Prop :=
  same_rest db db' ∧ ∀ h, h ∈ D → is_Some (dirties db !! h) → is_Some (dirties db' !! h).

#[local] Instance keeps_preorder D : PreOrder (keeps D).
Proof. split; [by intros ?|]. intros x y z [? ?] [? ?]. split; [by etrans|auto]. Qed.

Definition releases (fuel : nat) : Prop := ∀ D pend db l c,
  inv D (c :: pend) db l → (height c ≤ fuel)%nat → c ≠ zero → (∀ h, h ∈ D → (height c < height h)%nat) →
  ∃ db' l', release fuel db c = Ret db' ∧ inv D pend db' l' ∧ keeps D db db'.

Lemma inv_zero D pend db l : inv D pend db l → is_Some (dirties db !! zero).
Proof.
  intros [_ [(m & _ & _ & Hm) _ _ _ _ _ _ _ _ _] _]. apply infos_dom. destruct (infos db !! zero); [eauto|done].
Qed.
Lemma inv_in_list D pend db l h e :
  inv D pend db l → dirties db !! h = Some e → h ∉ D → h ≠ zero → h ∈ l.
Proof. intros [_ Hc _] He HD Hz. eapply co_list; [done|]. split_and!; [done| |done]. apply infos_dom. eauto. Qed.

(** The loop over the children of a node that is being removed. *)
Lemma releases_children fuel D pend c ks : ∀ db l,
  (∀ k, k ∈ ks → (height k < height c)%nat ∧ k ≠ zero) → (height c ≤ fuel)%nat →
  (∀ f, fuel = S f → releases f) → c ∈ D → (∀ h, h ∈ D → (height c ≤ height h)%nat) → is_Some (dirties db !! c) →
  inv D (ks ++ pend) db l →
  ∃ db' l', go_fold (λ db hash, dereference fuel db hash c) db ks = Ret db' ∧ inv D pend db' l' ∧ keeps D db db'.
Proof.
  induction ks as [|k ks IH]; intros db l Hks Hf Hrel HcD HD [e He] Hi; [by exists db, l|].
  destruct (Hks k) as [Hk Hkz]; [by left|]. destruct fuel as [|f]; [lia|]. specialize (Hrel f eq_refl) as Hr.
  cbn [go_fold]. rewrite dereference_S.
  destruct (drop_reference_ok D (k :: ks ++ pend) db l k c e) as (db1 & H1 & Hfr1 & Hd1 & Hi1); [done..|].
  rewrite decide_True in Hi1 by done. rewrite H1. cbn [mbind go_bind].
  destruct (Hr D (ks ++ pend) db1 l k) as (db2 & l2 & H2 & Hi2 & Hk2); [done|lia|done| |].
  { intros h Hh. specialize (HD h Hh). lia. }
  assert (is_Some (dirties db1 !! c)) as Hc1 by (apply Hd1; eauto).
  rewrite H2. cbn [mbind go_bind]. destruct (IH db2 l2) as (db' & l' & H' & Hi' & Hk');
    [intros; apply Hks; by right|done..|by apply Hk2|done|].
  exists db', l'. split_and!; [done..|]. etrans; [|done]. etrans; [|done]. split; [done|]. intros h _. by apply Hd1.
Qed.

Lemma dirty_kids D pend db l h e c :
  inv D pend db l → dirties db !! h = Some e → h ≠ zero → c ∈ forChilds e → (height c < height h)%nat ∧ c ≠ zero.
Proof.
  intros [_ Hc _] He Hz Hin. rewrite forChilds_childs in Hin.
  destruct (co_edge _ _ _ _ _ _ _ Hc h _ c (infos_Some db h e He) Hin). auto.
Qed.

Lemma release_ok fuel : releases fuel.
Proof.
  induction fuel as [fuel IH] using lt_wf_ind. intros D pend db l c Hi Hf Hz HD. unfold release.
  assert (c ∉ D) as HcD by (intros Hin; specialize (HD c Hin); lia).
  destruct (dirties db !! c) as [e|] eqn:He.
  2:{ exists db, l. split; [done|]. split; [|reflexivity]. destruct Hi as [? Hc ?]. split; [done| |done].
      eapply core_pop_absent; [done|]. left. unfold infos. by rewrite lookup_fmap, He. }
  set (n := if bool_decide (parents e > 0) then set_parents (parents e - 1) e else e). cbv zeta.
  pose proof (infos_Some db c e He) as Hie. set (db1 := set_dirties (<[c := n]> (dirties db)) db).
  assert (info_of n = mkInfo (cNode e) (children e) (if bool_decide (parents e > 0) then parents e - 1 else parents e)) as Hn
    by (unfold n; by case_bool_decide).
  assert (inv D pend db1 l) as Hi1.
  { eapply inv_set; [done| |done|]; [unfold n; by case_bool_decide|]. rewrite Hn.
    exact (core_pop _ _ _ _ _ _ _ c _ (inv_core _ _ _ _ Hi) Hie HcD). }
  assert (dirties db1 !! c = Some n) as Hn1 by (simpl; by rewrite lookup_insert_eq).
  pose proof (same_dom_set db c e n He) as Hd1.
  assert (keeps D db db1) as Hk1 by (split; [done|intros h _ Hh; by apply (Hd1 h)]).
  clearbody n. destruct (bool_decide_reflect (parents n = 0)) as [Hp|Hp]; [|by exists db1, l].
  (* the node goes *)
  destruct (list_elem_of_split l c) as (l1 & l2 & ->); [by eapply inv_in_list|].
  destruct (unlink_ok db1 l1 c l2 n) as (db2 & H2 & Hf2 & Hin2 & Hfr2); [apply Hi1|done|by eapply inv_zero|].
  rewrite H2. cbn [mbind go_bind].
  assert (inv ({[c]} ∪ D) (forChilds n ++ pend) db2 (l1 ++ l2)) as Hi2.
  { split; [done| |by eapply content_frame, Hi1]. rewrite Hin2, forChilds_childs, (proj1 Hfr2).
    apply core_die; [apply Hi1|apply Hi1|by apply infos_Some|done..]. }
  assert (is_Some (dirties db2 !! c)) as Hc2 by (apply infos_dom; rewrite Hin2; apply infos_dom; eauto).
  destruct (releases_children fuel ({[c]} ∪ D) pend c (forChilds n) db2 (l1 ++ l2)) as (db3 & l3 & H3 & Hi3 & Hk3);
    [|done|intros f ->; apply IH; lia|set_solver| |done|done|].
  { intros k Hk. by apply (dirty_kids D pend db1 (l1 ++ c :: l2) c n). }
  { intros h [->%elem_of_singleton|Hh]%elem_of_union; [done|]. specialize (HD h Hh). lia. }
  rewrite H3. cbn [mbind go_bind]. eexists _, l3. split; [done|].
  assert (c ∉ l3) as Hc3 by (intros Hin; eapply co_list in Hin as (_ & _ & Hin); [|apply Hi3]; set_solver).
  split.
  - apply inv_sizes. destruct Hi3 as [Hfl Hco Hct]. split; [by apply flush_delete| |done].
    unfold infos. simpl. rewrite fmap_delete. replace D with (({[c]} ∪ D) ∖ {[c]}) by set_solver.
    apply core_removed; [done|set_solver].
  - split; [etrans; [apply Hfr2|apply Hk3]|]. intros h HhD Hh. simpl. rewrite lookup_delete_ne by (by intros ->).
    apply Hk3; [set_solver|]. apply infos_dom. rewrite Hin2. by apply infos_dom, Hd1.
Qed.

(** The root holds a reference that is counted, or there is nothing to
    lose. *)
Definition rooted (db : Database) (r : bytes) : Prop :=
  (∃ e m k, dirties db !! zero = Some e ∧ children e = Some m ∧ m !! r = Some k).

Lemma Dereference_ok db l r :
  inv ∅ [] db l → rooted db r ∨ dirties db !! r = None ∨ on_disk (diskdb db) r →
  ∃ db' l', Dereference (S F) db r = Ret db' ∧ inv ∅ [] db' l' ∧ same_rest db db'.
Proof.
  intros Hi Hr. unfold Dereference. case_bool_decide as Hz; [by exists db, l|].
  destruct (inv_zero _ _ _ _ Hi) as [e He]. rewrite dereference_S.
  destruct (drop_reference_ok ∅ [] db l r zero e Hi He) as (db1 & H1 & Hfr1 & Hd1 & Hi1).
  rewrite H1. cbn [mbind go_bind]. rewrite decide_False in Hi1 by set_solver.
  assert (inv ∅ [r] db1 l) as Hi1'.
  { destruct (children e ≫= (.!! r)) as [k|] eqn:Ek; [done|]. destruct Hi1 as [? Hco ?]. split; [done| |done].
    destruct Hco as [? ? ? ? ? ? ? Hco ? ?]. split; try done. intros h i Hh HD Hno.
    rewrite occurs_cons. rewrite decide_False; [by apply Hco|]. intros <-.
    destruct Hr as [(e' & m & k & He' & Hm & Hk)|[Hr|Hr]].
    - rewrite He in He'. injection He' as <-. rewrite Hm in Ek. simpl in Ek. congruence.
    - apply infos_is_Some in Hh as (e1 & Hh & _). assert (is_Some (dirties db !! r)) as [? ?] by (apply Hd1; eauto). congruence.
    - apply Hno. by rewrite (proj1 Hfr1). }
  destruct (release_ok F ∅ [] db1 l r Hi1') as (db2 & l2 & H2 & Hi2 & Hk2); [|done|set_solver|].
  { pose proof (height_F r). lia. }
  rewrite H2. cbn [mbind go_bind]. eexists _, l2. split; [done|]. split; [by apply inv_stats|]. etrans; [done|apply Hk2].
Qed.

(** *** [insert] and [reference] *)
Definition available (db : Database) (h : bytes) : Prop := is_Some (dirties db !! h) ∨ on_disk (diskdb db) h.

Lemma available_stored db h : available db h ↔ stored (infos db) ∅ (diskdb db) h.
Proof.
  unfold available, stored. rewrite infos_dom. split; [intros [?|?]; [left|by right]|intros [[? _]|?]; [by left|by right]].
  split; [done|apply not_elem_of_empty].
Qed.

Lemma has_vals_collapse n : has_vals n → has_vals (collapse n).
Proof.
  induction n as [|cs IH|k v IH|h|v] using Node_nested_ind; try done.
  - cbn [collapse has_vals]. induction IH as [|c cs Hc _ IHcs]; [done|]. simpl. intros [? ?]. auto.
  - cbn [collapse has_vals]. intros [? ?]. split; [by destruct v|auto].
Qed.

Lemma add_parents_infos ks : ∀ m : gmap bytes cachedNode, info_of <$> foldl add_parent m ks = foldl count_in (info_of <$> m) ks.
Proof.
  induction ks as [|c ks IH]; intros m; [done|]. simpl. rewrite IH. f_equal. unfold add_parent, count_in. rewrite lookup_fmap.
  destruct (m !! c); simpl; [by rewrite fmap_insert|done].
Qed.
Lemma add_parents_links ks h e : ∀ m : gmap bytes cachedNode,
  m !! h = Some e → ∃ e', foldl add_parent m ks !! h = Some e' ∧ links e e'.
Proof.
  revert e. induction ks as [|c ks IH]; intros e m He; [by exists e|]. simpl.
  assert (∃ e1, add_parent m c !! h = Some e1 ∧ links e e1) as (e1 & H1 & Hl1).
  { unfold add_parent. destruct (m !! c) as [ec|] eqn:E; [|by exists e]. destruct (decide (h = c)) as [->|].
    - rewrite lookup_insert_eq. eexists. split; [done|]. by simplify_eq.
    - rewrite lookup_insert_ne by done. by exists e. }
  destruct (IH e1 _ H1) as (e' & He' & [Hp Hn]). exists e'. split; [done|]. destruct Hl1. split; congruence.
Qed.

(** The counts of parents can grow by [n]. *)
Definition room (n : Z) (db : Database) : Prop := ∀ h e, dirties db !! h = Some e → parents e + n < 2^32.

Lemma insert_room db db2 l h e ks a :
  inv ∅ [] db l → parents e = 0 → 0 ≤ a → room (len ks + a) db →
  infos db2 = infos (set_dirties (<[h := e]> (foldl add_parent (dirties db) ks)) db) → room a db2.
Proof.
  intros Hi He Ha Hr Hi2 k ek Hk. apply infos_Some in Hk. rewrite Hi2 in Hk. unfold infos in Hk. simpl in Hk.
  assert (∀ h i, infos db !! h = Some i → 0 ≤ iParents i ∧ iParents i + Z.of_nat (length ks + Z.to_nat a) < 2^32) as Hb.
  { intros h' i Hh'. pose proof (co_parents _ _ _ _ _ _ _ (inv_core _ _ _ _ Hi) h' i Hh').
    apply infos_is_Some in Hh' as (e' & He' & ->). specialize (Hr h' e' He'). unfold len in Hr. simpl in *. lia. }
  rewrite fmap_insert, add_parents_infos in Hk. destruct (decide (k = h)) as [->|].
  - rewrite lookup_insert_eq in Hk. injection Hk as _ _ Hk. destruct (inv_zero _ _ _ _ Hi) as [z Hz].
    apply infos_Some in Hz. specialize (Hb zero _ Hz). assert (parents ek = 0) by congruence. lia.
  - rewrite lookup_insert_ne in Hk by done. apply (incrs_bound ks (Z.to_nat a)) in Hk; [simpl in Hk; lia|done].
Qed.

Lemma db_insert_ok db l h sz x :
  inv ∅ [] db l → G h = Some x → (∀ c, c ∈ kids x → available db c) → room (len (kids x)) db →
  ∃ db' l', insert db h sz (collapse x) = Ret db' ∧ inv ∅ [] db' l' ∧ same_rest db db' ∧ available db' h ∧
    (∀ c, available db c → available db' c) ∧ (∀ a, 0 ≤ a → room (len (kids x) + a) db → room a db').
Proof.
  intros Hi Hx Hk Hr. destruct (G_ok h x Hx) as ([Hw Hd] & Hv & _ & Hz). unfold insert.
  destruct (dirties db !! h) as [e|] eqn:He; [exists db, l; split_and!; try done; [left; eauto|intros a Ha Hra k ek Hek; specialize (Hra k ek Hek); pose proof (len_nonneg (kids x)); lia]|].
  rewrite simplifyNode_ok by (by apply has_vals_collapse || by destruct x). cbn [mbind go_bind].
  set (e := mkCached (raw_of (collapse x)) (u16 sz) 0 None (newest db) zero).
  assert (forChilds e = kids x) as -> by (by rewrite forChilds_childs).
  set (m := foldl add_parent (dirties db) (kids x)).
  assert (infos db !! h = None) as Hni by (unfold infos; by rewrite lookup_fmap, He).
  assert (core ∅ [] (infos (set_dirties (<[h := e]> m) db)) (diskdb db) (l ++ [h])) as Hc.
  { unfold infos. simpl. rewrite fmap_insert. unfold m. rewrite add_parents_infos.
    eapply (core_add G height G_kids); [|eapply eq_None_not_Some; rewrite incrs_lookup; by apply eq_None_not_Some|done..|].
    - rewrite <-(app_nil_r (reverse _)). apply core_incrs; [apply Hi|]. intros k i Hki.
      pose proof (co_parents _ _ _ _ _ _ _ (inv_core _ _ _ _ Hi) k i Hki). split; [done|].
      apply infos_is_Some in Hki as (ek & Hek & ->). specialize (Hr k ek Hek). simpl in *. lia.
    - intros c Hc. apply Hk, available_stored in Hc as [[Hc ?]|?]; [left|by right]. by rewrite incrs_lookup. }
  assert (h ∉ l) as Hhl.
  { intros Hin. eapply co_list in Hin as (_ & [? ?] & _); [|apply Hi]. congruence. }
  assert (flush_list (set_dirties (<[h := e]> m) db) l) as Hf.
  { eapply flush_ext; [| | |apply Hi]; [done..|]. intros k ek Hkl Hek. simpl. rewrite lookup_insert_ne by (by intros ->).
    by apply add_parents_links. }
  destruct (flush_push (set_dirties (<[h := e]> m) db) l h e) as (db2 & H2 & Hf2 & Hi2 & Hfr2); [done| |done..|].
  { simpl. by rewrite lookup_insert_eq. }
  rewrite H2. cbn [mbind go_bind]. eexists _, (l ++ [h]). split; [done|].
  assert (∀ c, is_Some (dirties db2 !! c) ↔ c = h ∨ is_Some (dirties db !! c)) as Hdom.
  { intros c. rewrite <-infos_dom, Hi2, infos_dom. simpl. rewrite lookup_insert_is_Some', <-infos_dom. unfold infos.
    rewrite <-(incrs_lookup (kids x)), <-add_parents_infos, lookup_fmap, fmap_is_Some. naive_solver. }
  split; [|split; [exact Hfr2|split; [|split]]].
  - apply inv_sizes. split; [done| |by eapply (content_frame db), Hi]. by rewrite Hi2, (proj1 Hfr2).
  - left. apply Hdom. auto.
  - intros c [Hca|Hca]; [left; apply Hdom; auto|right; simpl; by rewrite (proj1 Hfr2)].
  - intros a Ha Hra. by apply (insert_room db db2 l h e (kids x)).
Qed.

Lemma reference_ok db l c p :
  inv ∅ [] db l → c ≠ zero → p = zero ∨ (is_Some (dirties db !! p) ∧ (height c < height p)%nat) →
  (∀ e, dirties db !! c = Some e → parents e + 1 < 2^32) →
  (∀ e m k, dirties db !! p = Some e → children e = Some m → m !! c = Some k → k + 1 < 2^16) →
  ∃ db', reference db c p = Ret db' ∧ inv ∅ [] db' l ∧ same_rest db db' ∧ same_dom db db' ∧
    (is_Some (dirties db !! c) → p = zero → rooted db' c).
Proof.
  intros Hi Hz Hp Hpar Hcnt. unfold reference. destruct (dirties db !! c) as [ec|] eqn:Hec.
  2:{ exists db. split_and!; try done; by intros [? ?]. }
  assert (∃ e, dirties db !! p = Some e) as [e He].
  { destruct Hp as [->|[[e He] _]]; [|by exists e]. by eapply inv_zero. }
  rewrite He. cbn [deref mbind go_bind]. pose proof (infos_Some db p e He) as Hie.
  assert (c ≠ p) as Hcp by (intros ->; destruct Hp as [?|[_ ?]]; [done|lia]).
  set (db1 := match children e with None => _ | Some _ => db end).
  set (m := default ∅ (children e)). set (e1 := set_children (Some m) e).
  assert (default 0 (m !! c) + 1 < 2^16) as Hb.
  { unfold m. destruct (children e) as [m0|] eqn:Em; cbn [default from_option id]; [|rewrite lookup_empty; simpl; lia].
    destruct (m0 !! c) as [k0|] eqn:Ek; [exact (Hcnt e m0 k0 He Em Ek)|simpl; lia]. }
  assert (match children e with Some m => default 0 (m !! c) | None => 0 end = default 0 (m !! c)) as ->
    by (unfold m; by destruct (children e)).
  assert (inv ∅ [] db1 l ∧ dirties db1 !! p = Some e1 ∧ same_rest db db1 ∧ same_dom db db1 ∧ dirties db1 !! c = Some ec)
    as (Hi1 & He1 & Hfr1 & Hd1 & Hec1).
  { unfold db1, e1, m. destruct (children e) as [m0|] eqn:Em.
    - split_and!; try done. rewrite He. f_equal. destruct e; simpl in *. by rewrite Em.
    - split_and!; try done.
      + apply inv_sizes. eapply inv_set; [done..|].
        apply (core_kids G height ∅ [] [] _ _ _ p (info_of e) ∅ (inv_core _ _ _ _ Hi) Hie); [done|].
        intros h i'. rewrite decide_False by set_solver. unfold mult, i'. cbn [iKids iNode info_of].
        rewrite Em, lookup_empty. change (occurs h []) with 0. simpl. lia.
      + simpl. by rewrite lookup_insert_eq.
      + by eapply same_dom_set.
      + simpl. by rewrite lookup_insert_ne. }
  clearbody db1. clear Hie. pose proof (infos_Some db1 p e1 He1) as Hie. pose proof (infos_Some db1 c ec Hec1) as Hiec.
  destruct (_ && _) eqn:Hknown.
  { exists db1. split_and!; try done. intros _ ->. apply andb_true_iff in Hknown as [_ Hk].
    by rewrite bool_decide_true in Hk. }
  rewrite (on_entry_ok _ _ _ ec) by done. cbn [mbind go_bind].
  erewrite on_entry_ok by (cbn [dirties set_dirties]; rewrite lookup_insert_ne by done; exact He1). cbn [mbind go_bind].
  set (k := u16 (default 0 (m !! c) + 1)).
  change (default ∅ (children e1)) with m.
  set (db2 := set_dirties (<[p := set_children (Some (<[c := k]> m)) e1]> _) _).
  assert (inv ∅ [] db2 l) as Hi2.
  { set (ec' := set_parents (u32 (parents ec + 1)) ec).
    assert (inv ∅ [c] (set_dirties (<[c := ec']> (dirties db1)) db1) l) as Hi1'.
    { eapply inv_set; [done..|]. pose proof (core_incr G height ∅ [] (infos db1) (diskdb db1) l c (inv_core _ _ _ _ Hi1)) as Hinc.
      unfold count_in in Hinc. rewrite Hiec in Hinc. apply Hinc. intros i [= <-]. by apply Hpar. }
    eapply inv_set; [cbn [dirties set_dirties]; rewrite lookup_insert_ne by done; exact He1|done|exact Hi1'|].
    apply (core_enter G height G_kids [] _ _ l p (info_of e1) c (inv_core _ _ _ _ Hi1')).
    - apply infos_Some. simpl. by rewrite lookup_insert_ne.
    - apply infos_dom. simpl. rewrite lookup_insert_eq. eauto.
    - done.
    - intros. by destruct Hp as [?|[_ ?]].
    - exact Hb. }
  assert (same_dom db db2) as Hd2.
  { intros h. rewrite <-(Hd1 h). unfold db2. simpl. rewrite !lookup_insert_is_Some'. split; [intros [<-|[<-|?]]; eauto|auto]. }
  assert (rooted db2 c ∨ p ≠ zero) as Hroot.
  { destruct (decide (p = zero)) as [->|]; [left|by right]. unfold db2. exists (set_children (Some (<[c := k]> m)) e1), (<[c := k]> m), k.
    simpl. by rewrite !lookup_insert_eq. }
  exists (if bool_decide (k = 1) then add_sizes 0 (HashLength + 2) db2 else db2).
  clear Hknown. split; [done|]. split; [case_bool_decide; [by apply inv_sizes|exact Hi2]|].
  case_bool_decide; (split; [exact Hfr1|split; [exact Hd2|naive_solver]]).
Qed.

(** *** Writing to disk *)
Lemma written_Some l k v : written l k = Some v → (k, v) ∈ l.
Proof.
  unfold written. induction l as [|[k' v'] l IH] using rev_ind; [done|]. rewrite foldl_app. simpl. case_decide as E.
  - intros [= ->]. rewrite E. apply elem_of_app. right. by left.
  - intros ?. apply elem_of_app. auto.
Qed.
Lemma written_None l k : written l k = None → k ∉ l.*1.
Proof.
  unfold written. induction l as [|[k' v'] l IH] using rev_ind; [by intros _ ?%elem_of_nil|]. rewrite foldl_app, fmap_app. simpl.
  case_decide as E; [done|]. intros ?%IH. rewrite elem_of_app, list_elem_of_singleton. intros [?|?]; [done|congruence].
Qed.

Definition in_batch (b : batch) (h : bytes) : Prop := h ∈ (replayed b).*1.

(** The nodes in a batch are what their hashes say, and their children are
    on disk or in the batch. *)
Definition batch_ok (d : kv) (b : batch) : Prop := ∀ h v, (h, v) ∈ replayed b → length h = 32%nat →
  ∃ x, G h = Some x ∧ v = wire x ∧ ∀ c, c ∈ kids x → on_disk d c ∨ in_batch b c.

Lemma batch_ok_new d : batch_ok d NewBatch.
Proof. intros h v. rewrite replayed_new. by intros ?%elem_of_nil. Qed.
Lemma batch_ok_mono d d' b : batch_ok d b → (∀ h, on_disk d h → on_disk d' h) → batch_ok d' b.
Proof. intros Hb Hd h v Hin Hl. destruct (Hb h v Hin Hl) as (x & ? & ? & Hc). exists x. split_and!; [done..|]. naive_solver. Qed.
Lemma in_batch_node b h e k : in_batch (WriteTrieNode b h e) k ↔ in_batch b k ∨ k = h.
Proof. unfold in_batch. rewrite replayed_node, fmap_app, elem_of_app. simpl. by rewrite list_elem_of_singleton. Qed.
Lemma batch_ok_node d b h x :
  batch_ok d b → G h = Some x → (∀ c, c ∈ kids x → on_disk d c ∨ in_batch b c) → batch_ok d (WriteTrieNode b h (wire x)).
Proof.
  intros Hb Hx Hk h' v. rewrite replayed_node, elem_of_app, list_elem_of_singleton. setoid_rewrite in_batch_node.
  intros [Hin|[= -> ->]] Hl; [|exists x; split_and!; [done..|]; naive_solver].
  destruct (Hb h' v Hin Hl) as (y & ? & ? & Hc). exists y. split_and!; [done..|]. naive_solver.
Qed.
Lemma batch_ok_preimages d b m : keys32 (Some m) → batch_ok d b → batch_ok d (WritePreimages b m) ∧ ∀ h, in_batch b h → in_batch (WritePreimages b m) h.
Proof.
  intros H32m. destruct (replayed_preimages b m) as (l & Hl & HF); [intros k; by apply (H32m m)|]. unfold batch_ok, in_batch. rewrite Hl. rewrite Forall_forall in HF.
  setoid_rewrite fmap_app. setoid_rewrite elem_of_app. intros Hb. split; [|auto].
  intros h v [Hin|Hin] H32; [|by apply HF in Hin]. destruct (Hb h v Hin H32) as (x & ? & ? & Hc). exists x.
  split_and!; [done..|]. naive_solver.
Qed.

Lemma write_ok D pend db l b d :
  inv D pend db l → batch_ok (diskdb db) b → batch_Write (diskdb db) b = Some d →
  inv D pend (set_disk d db) l ∧ (∀ h, on_disk (diskdb db) h → on_disk d h) ∧ (∀ h, in_batch b h → on_disk d h).
Proof.
  intros [Hf Hc (Hct1 & Hct2 & Hpre)] Hb Hw. pose proof (λ k, Write_Get _ _ _ k Hw) as Hg.
  assert (∀ h, on_disk (diskdb db) h → on_disk d h) as Hm
    by (intros h; unfold on_disk; rewrite Hg; destruct (written _ h); eauto).
  assert (∀ h, in_batch b h → on_disk d h) as Hin.
  { intros h Hh. unfold on_disk. rewrite Hg. destruct (written (replayed b) h) eqn:E; [eauto|].
    by apply written_None in E. }
  split; [|by split]. split; [done| |split; [|by split]].
  - eapply core_disk; [done..|]. intros h x c Hh Hx Hk. unfold on_disk in Hh. rewrite Hg in Hh.
    destruct (written (replayed b) h) as [v|] eqn:E.
    + apply written_Some in E. destruct (G_ok h x Hx) as (_ & _ & Hl & _).
      destruct (Hb h v E Hl) as (y & Hy & _ & Hyc). simplify_eq. destruct (Hyc c Hk); auto.
    + apply Hm. eapply co_disk; [exact Hc|exact Hh|done..].
  - intros h x v Hx. simpl. rewrite Hg. destruct (written (replayed b) h) as [w|] eqn:E; [|by apply Hct1].
    intros [= <-]. apply written_Some in E. destruct (G_ok h x Hx) as (_ & _ & Hl & _).
    destruct (Hb h w E Hl) as (y & Hy & -> & _). by simplify_eq.
Qed.

(** A dirty node's encoding is that of the node of its hash. *)
Lemma dirty_rlp D pend db l h e :
  inv D pend db l → dirties db !! h = Some e → h ≠ zero → ∃ x, G h = Some x ∧ rlp e = wire x ∧ cNode e = raw_of (collapse x).
Proof.
  intros [_ Hc _] He Hz. destruct (co_node _ _ _ _ _ _ _ Hc h _ (infos_Some db h e He) Hz) as (x & Hx & Hn).
  simpl in Hn. exists x. split_and!; [done| |done]. unfold rlp, wire. rewrite Hn, <-raw_encode_ok. by destruct (collapse x).
Qed.

(** *** [Cap] *)

(** Only the disk has changed, and only by more nodes. *)
Definition disk_step (db db' : Database) : Prop :=
  db' = set_disk (diskdb db') db ∧ ∀ h, on_disk (diskdb db) h → on_disk (diskdb db') h.
#[local] Instance disk_step_preorder : PreOrder disk_step.
Proof.
  split; [by intros []|]. intros x y z [Hy ?] [Hz ?]. split; [|auto]. rewrite Hz, Hy. done.
Qed.
Lemma disk_step_set db d : (∀ h, on_disk (diskdb db) h → on_disk d h) → disk_step db (set_disk d db).
Proof. by split. Qed.

Definition covered (db : Database) (b : batch) (h : bytes) : Prop := on_disk (diskdb db) h ∨ in_batch b h.

Lemma cap_write_ok fuel limit : ∀ db b sz l1 l2,
  (length l2 < fuel)%nat → inv ∅ [] db (l1 ++ l2) → batch_ok (diskdb db) b → (∀ h, h ∈ l1 → covered db b h) →
  ∃ db' r, cap_write fuel limit db b sz (hd zero l2) = Ret (db', r) ∧ inv ∅ [] db' (l1 ++ l2) ∧ disk_step db db' ∧
    match r with
    | None => True
    | Some (b', old) => ∃ k1 k2, l1 ++ l2 = k1 ++ k2 ∧ old = hd zero k2 ∧ batch_ok (diskdb db') b' ∧ ∀ h, h ∈ k1 → covered db' b' h
    end.
Proof.
  induction fuel as [|fuel IH]; intros db b sz l1 l2 Hf Hi Hb Hcov; [lia|]. cbn [cap_write].
  destruct (_ && _) eqn:Hg; [|by exists db, (Some (b, hd zero l2)); split_and!; [..|exists l1, l2]].
  apply andb_true_iff in Hg as [_ Hg]. rewrite negb_true_iff, bool_decide_eq_false in Hg.
  destruct l2 as [|h l2]; [done|]. cbn [hd] in *.
  destruct (flush_entry db (l1 ++ h :: l2) h) as [e He]; [apply Hi|set_solver|]. rewrite He. cbn [deref mbind go_bind].
  destruct (dirty_rlp _ _ _ _ _ _ Hi He Hg) as (x & Hx & Hr & _). rewrite Hr.
  assert (flushNext e = hd zero l2) as ->.
  { destruct (inv_flush _ _ _ _ Hi) as (_ & _ & _ & _ & Hs). apply seg_app in Hs as [_ (e' & He' & _ & Hn & _)]. by simplify_eq. }
  assert (∀ c, c ∈ kids x → covered db b c) as Hk.
  { intros c Hc. destruct (co_order _ _ _ _ _ _ _ (inv_core _ _ _ _ Hi) l1 h l2 x c) as [?|?]; [done..|by left|auto]. }
  set (b1 := WriteTrieNode b h (wire x)).
  assert (batch_ok (diskdb db) b1) as Hb1 by by apply batch_ok_node.
  assert (∀ k, k ∈ l1 ++ [h] → covered db b1 k) as Hcov1.
  { unfold covered, b1. setoid_rewrite in_batch_node. intros k [Hk'%Hcov| ->%list_elem_of_singleton]%elem_of_app; [|auto].
    destruct Hk'; auto. }
  rewrite cons_middle, app_assoc in Hi |- *. case_bool_decide.
  - destruct (batch_Write (diskdb db) b1) as [d|] eqn:Hw; [|by exists db, None].
    destruct (write_ok _ _ _ _ _ _ Hi Hb1 Hw) as (Hi1 & Hm & Hin).
    destruct (IH (set_disk d db) NewBatch (sz - (HashLength + cSize e + cachedNodeSize) - children_size e) (l1 ++ [h]) l2)
      as (db' & r & H' & Hi' & Hs' & Hr'); [simpl in Hf; lia|done|apply batch_ok_new|..].
    { intros k Hkl. left. simpl. destruct (Hcov1 k Hkl); auto. }
    exists db', r. split_and!; [done|done| |done]. etrans; [by apply (disk_step_set db d)|done].
  - destruct (IH db b1 (sz - (HashLength + cSize e + cachedNodeSize) - children_size e) (l1 ++ [h]) l2)
      as (db' & r & H' & Hi' & Hs' & Hr'); [simpl in Hf; lia|done..|]. exists db', r. by split_and!.
Qed.

Lemma cap_forget_ok fuel : ∀ db l1 l2,
  (length l1 < fuel)%nat → inv ∅ [] db (l1 ++ l2) → (∀ h, h ∈ l1 → on_disk (diskdb db) h) →
  ∃ db', cap_forget fuel db (hd zero l2) = Ret db' ∧ inv ∅ [] db' l2 ∧ same_rest db db'.
Proof.
  induction fuel as [|fuel IH]; intros db l1 l2 Hf Hi Hd; [lia|]. cbn [cap_forget].
  pose proof (inv_flush _ _ _ _ Hi) as (Hnd & Hz & Ho & _ & _).
  destruct l1 as [|h l1]; [rewrite bool_decide_true by done; by exists db|].
  rewrite Ho. cbn [app hd] in *. apply NoDup_cons in Hnd as [Hh _]. rewrite bool_decide_false.
  2:{ intros ->. destruct l2 as [|b l2]; [apply Hz; by left|]. apply Hh, elem_of_app. right. by left. }
  destruct (flush_entry db (h :: l1 ++ l2) h) as [e He]; [apply Hi|by left|]. rewrite He. cbn [deref mbind go_bind].
  destruct (flush_pop db h (l1 ++ l2) e (inv_flush _ _ _ _ Hi) He) as [Hf1 _].
  destruct (IH (add_sizes (- (HashLength + cSize e)) (- children_size e)
    (set_ends (flushNext e) (newest db) (set_dirties (base.delete h (dirties db)) db))) l1 l2) as (db' & H' & Hi' & Hfr').
  - simpl in Hf. lia.
  - apply inv_sizes. split; [done| |exact (inv_content _ _ _ _ Hi)]. unfold infos. simpl. rewrite fmap_delete.
    apply (core_forget G height ∅ [] _ _ []); [apply Hi|apply Hi|]. apply Hd. by left.
  - intros k Hk. apply Hd. by right.
  - exists db'. split_and!; [done|done|apply Hfr'..].
Qed.

Lemma inv_preimages D pend db l m s : inv D pend db l → keys32 m → inv D pend (set_preimages m s db) l.
Proof. by intros [? ? (? & ? & _)] ?. Qed.
Lemma keys32_empty : keys32 (Some ∅).
Proof. intros p k [= <-]. rewrite lookup_empty. by intros []. Qed.

(** The list is no longer than the cache. *)
Lemma flush_length D pend db l : inv D pend db l → (length l < size (dirties db))%nat.
Proof.
  intros Hi. destruct (inv_zero _ _ _ _ Hi) as [ez Hz]. pose proof (inv_flush _ _ _ _ Hi) as (Hnd & Hzl & _).
  assert (length (zero :: l) ≤ size (dom (dirties db)))%nat as Hle; [|rewrite size_dom in Hle; simpl in Hle; lia].
  rewrite <-(size_list_to_set (C := gset bytes)) by (by apply NoDup_cons). apply subseteq_size. intros h.
  rewrite elem_of_list_to_set, elem_of_cons, elem_of_dom. intros [->|Hh]; [eauto|].
  eapply co_list in Hh as (_ & Hh & _); [|apply Hi]. by apply infos_dom.
Qed.

(** Setting the back link of the oldest node. *)
Lemma clear_prev_ok D pend db l :
  inv D pend db l →
  ∃ db', (if bool_decide (oldest db = zero) then Ret db else on_entry (oldest db) (set_prev zero) db) = Ret db' ∧
    inv D pend db' l ∧ same_rest db db'.
Proof.
  intros Hi. case_bool_decide as Ho; [by exists db|].
  pose proof (inv_flush _ _ _ _ Hi) as (Hnd & Hz & Ho' & Hn & Hs). destruct l as [|h l]; [done|]. simpl in Ho'. rewrite Ho' in *.
  destruct (flush_entry db (h :: l) h) as [e He]; [apply Hi|by left|]. rewrite (on_entry_ok _ _ _ e) by done.
  eexists. split; [done|]. split; [|done]. split; [| |exact (inv_content _ _ _ _ Hi)].
  - split_and!; [done..|]. cbn [dirties set_dirties]. apply NoDup_cons in Hnd as [? _].
    apply (seg_free _ (Some zero)). by eapply seg_prev.
  - erewrite infos_links by done. apply Hi.
Qed.

Lemma cap_preimages_ok db l :
  inv ∅ [] db l → ∃ r, cap_preimages db NewBatch = r ∧
    match r with
    | None => True
    | Some (db', b) => inv ∅ [] db' l ∧ disk_step db db' ∧ batch_ok (diskdb db') b
    end.
Proof.
  intros Hi. eexists. split; [done|]. unfold cap_preimages. pose proof (batch_ok_new (diskdb db)) as Hb0.
  case_bool_decide; [|done]. destruct (preimages db) as [m|] eqn:Em; [|done].
  destruct (batch_ok_preimages _ _ m ltac:(rewrite <-Em; apply Hi) Hb0) as [Hb _]. case_bool_decide; [|done].
  destruct (batch_Write _ _) as [d|] eqn:Hw; [|done]. destruct (write_ok _ _ _ _ _ _ Hi Hb Hw) as (Hi1 & Hm & _).
  split_and!; [done|by apply disk_step_set..|apply batch_ok_new].
Qed.

Lemma Cap_ok fuel db l limit :
  inv ∅ [] db l → (size (dirties db) ≤ fuel)%nat →
  ∃ db' ok l', Cap fuel db limit = Ret (db', ok) ∧ inv ∅ [] db' l' ∧ (∀ h, on_disk (diskdb db) h → on_disk (diskdb db') h).
Proof.
  intros Hi Hf. unfold Cap, metaroot_refs. destruct (inv_zero _ _ _ _ Hi) as [ez Hz]. rewrite Hz. cbn [deref mbind go_bind].
  destruct (cap_preimages_ok db l Hi) as (r & -> & Hr). destruct r as [[db1 b1]|]; [|by exists db, false, l].
  destruct Hr as (Hi1 & [Hs1 Hm1] & Hb1). pose proof (flush_length _ _ _ _ Hi) as Hlen.
  assert (oldest db1 = hd zero l) as -> by apply Hi1.
  edestruct (cap_write_ok fuel limit db1 b1) with (l1 := @nil bytes) (l2 := l) as (db2 & r & -> & Hi2 & [Hs2 Hm2] & Hr2);
    [lia|done..|by intros h ?%elem_of_nil|]. simpl in Hi2. cbn [mbind go_bind].
  destruct r as [[b2 old]|]; [|exists db2, false, l; auto]. destruct Hr2 as (k1 & k2 & Hk & -> & Hb2 & Hcov). simpl in Hk.
  destruct (batch_Write (diskdb db2) b2) as [d|] eqn:Hw; [|exists db2, false, l; auto].
  destruct (write_ok _ _ _ _ _ _ Hi2 Hb2 Hw) as (Hi3 & Hm3 & Hin3).
  set (db3 := set_disk d db2) in *. set (db4 := if bool_decide (preimagesSize db > _) then _ else db3).
  assert (inv ∅ [] db4 l ∧ diskdb db4 = d) as [Hi4 Hd4].
  { unfold db4. case_bool_decide; [|done]. destruct (preimages db3); [split; [apply inv_preimages, keys32_empty; exact Hi3|done]|done]. }
  clearbody db4. rewrite Hk in Hi4, Hlen. rewrite length_app in Hlen.
  destruct (cap_forget_ok fuel db4 k1 k2) as (db5 & -> & Hi5 & Hfr5); [lia|done| |].
  { intros h Hh. rewrite Hd4. destruct (Hcov h Hh); auto. }
  cbn [mbind go_bind]. destruct (clear_prev_ok _ _ _ _ Hi5) as (db6 & -> & Hi6 & Hfr6). cbn [mbind go_bind].
  eexists _, true, k2. split; [done|]. split; [by apply inv_stats|]. simpl.
  rewrite (proj1 Hfr6), (proj1 Hfr5), Hd4. auto.
Qed.

(** *** [Commit] *)
Lemma fill_clean_ok D pend db l h x :
  inv D pend db l → G h = Some x → inv D pend (fill_clean db h (wire x)) l.
Proof.
  intros [Hf Hc (Hd & Hcl & Hpre)] Hx. unfold fill_clean. destruct (cleans db) as [c|] eqn:Ec; [|by split].
  split; [done..|]. split; [done|]. split; [|done]. intros k y v Hy. unfold clean_hit. simpl. intros [[-> ->]|Hg]%cache_Set_Get.
  - by simplify_eq.
  - eapply Hcl; [done|]. unfold clean_hit. by rewrite Ec.
Qed.
Lemma fill_clean_disk db h v : diskdb (fill_clean db h v) = diskdb db ∧ dirties (fill_clean db h v) = dirties db.
Proof. unfold fill_clean. by destruct (cleans db). Qed.

(** A batch of nodes only. *)
Definition nodes_only (b : batch) : Prop := Forall (λ kv, length kv.1 = 32%nat) (replayed b).

Lemma Put_ok db l h x :
  inv ∅ [] db l → G h = Some x → on_disk (diskdb db) h →
  ∃ db' l', Put db h (wire x) = Ret db' ∧ inv ∅ [] db' l' ∧ diskdb db' = diskdb db ∧
    (∀ k, available db k → available db' k).
Proof.
  intros Hi Hx Hd. destruct (G_ok h x Hx) as (_ & _ & Hl & Hz). unfold Put. rewrite BytesToHash_id by done.
  destruct (dirties db !! h) as [e|] eqn:He; [|by exists db, l].
  destruct (list_elem_of_split l h) as (l1 & l2 & ->); [eapply inv_in_list; [done..|set_solver|done]|].
  destruct (unlink_ok db l1 h l2 e) as (db1 & H1 & Hf1 & Hin1 & Hfr1); [apply Hi|done|by eapply inv_zero|].
  rewrite H1. cbn [mbind go_bind]. eexists _, (l1 ++ l2). split; [done|].
  pose proof (inv_flush _ _ _ _ Hi) as (Hnd & _). split.
  - apply fill_clean_ok; [|done]. apply inv_sizes. split.
    + apply flush_delete; [|done]. rewrite <-Permutation_middle in Hnd. by apply NoDup_cons in Hnd as [? _].
    + unfold infos. simpl. rewrite fmap_delete. change (core ∅ [] (base.delete h (infos db1)) (diskdb db1) (l1 ++ l2)).
      rewrite Hin1, (proj1 Hfr1). by apply core_forget; [apply Hi|..].
    + by eapply (content_frame db), Hi.
  - assert (diskdb (fill_clean (add_sizes (- (HashLength + cSize e) - children_size e) 0
      (set_dirties (base.delete h (dirties db1)) db1)) h (wire x)) = diskdb db) as Hdd
      by (rewrite (proj1 (fill_clean_disk _ _ _)); apply Hfr1).
    split; [done|]. intros k [Hk|Hk]; [|right; by rewrite Hdd]. destruct (decide (k = h)) as [->|]; [right; by rewrite Hdd|left].
    rewrite (proj2 (fill_clean_disk _ _ _)). simpl. rewrite lookup_delete_ne by done. apply infos_dom. rewrite Hin1. by apply infos_dom.
Qed.

Lemma Replay_ok b : ∀ db l, 
  inv ∅ [] db l → nodes_only b → batch_ok (diskdb db) b → (∀ h, in_batch b h → on_disk (diskdb db) h) →
  ∃ db' l', Replay db b = Ret db' ∧ inv ∅ [] db' l' ∧ diskdb db' = diskdb db ∧
    (∀ k, available db k → available db' k).
Proof.
  unfold Replay, nodes_only, batch_ok, in_batch. intros db l Hi Hn Hb.
  assert (∀ h v, (h, v) ∈ replayed b → ∃ x, G h = Some x ∧ v = wire x) as Hg.
  { intros h v Hin. rewrite Forall_forall in Hn. destruct (Hb h v Hin (Hn _ Hin)) as (x & ? & ? & _). eauto. }
  clear Hn Hb. revert db l Hi. induction (replayed b) as [|[h v] kvs IH]; intros db l Hi Hd; [by exists db, l|].
  destruct (Hg h v) as (x & Hx & ->); [by left|]. cbn [go_fold fst snd].
  destruct (Put_ok db l h x Hi Hx) as (db1 & l1 & -> & Hi1 & Hd1 & Hs1); [apply Hd; by left|]. cbn [mbind go_bind].
  destruct (IH ltac:(intros; apply Hg; by right) db1 l1 Hi1) as (db' & l' & H' & Hi' & Hd' & Hs').
  { intros k Hk. rewrite Hd1. apply Hd. by right. }
  exists db', l'. split_and!; [done|done|congruence|auto].
Qed.

Record committing (st : commit_state) (l : list bytes) : Prop := mkCommitting {
  cm_inv : inv ∅ [] st.1.1 l;
  cm_batch : batch_ok (diskdb st.1.1) st.1.2;
  cm_nodes : nodes_only st.1.2
}.
Definition advances (st st' : commit_state) : Prop :=
  (∀ h, covered st.1.1 st.1.2 h → covered st'.1.1 st'.1.2 h) ∧ (∀ h, on_disk (diskdb st.1.1) h → on_disk (diskdb st'.1.1) h) ∧
  (∀ h, available st.1.1 h → available st'.1.1 h).
#[local] Instance progress_preorder : PreOrder advances.
Proof. split; [by intros ?|]. intros ??? (?&?&?) (?&?&?). split_and!; auto. Qed.

(** A node that is neither on its way to disk nor in the cache is not
    there; committing [h] takes it and what it refers to. *)
Definition commits (fuel : nat) : Prop := ∀ h st l, (height h < fuel)%nat → h ≠ zero → committing st l →
  ∃ st' ok l', commit fuel h st = Ret (st', ok) ∧ committing st' l' ∧ advances st st' ∧
    (ok = true → available st.1.1 h → covered st'.1.1 st'.1.2 h).

Lemma commit_children fuel (IH : commits fuel) ks : ∀ st ok0 l,
  (∀ k, k ∈ ks → (height k < fuel)%nat ∧ k ≠ zero) → committing st l →
  ∃ st' ok l', go_fold (λ (r : commit_state * bool) child, if r.2 then commit fuel child r.1 else Ret r) (st, ok0) ks = Ret (st', ok) ∧
    committing st' l' ∧ advances st st' ∧ (ok = true → ok0 = true ∧ ∀ k, k ∈ ks → available st.1.1 k → covered st'.1.1 st'.1.2 k).
Proof.
  induction ks as [|k ks IHk]; intros st ok0 l Hks Hc.
  { exists st, ok0, l. split; [done|]. split; [done|]. split; [reflexivity|]. split; [done|]. by intros k ?%elem_of_nil. }
  cbn [go_fold snd fst]. destruct (Hks k) as [Hh Hz]; [by left|]. destruct ok0.
  - destruct (IH k st l Hh Hz Hc) as (st1 & ok1 & l1 & -> & Hc1 & Hp1 & Hcov1). cbn [mbind go_bind].
    destruct (IHk st1 ok1 l1 ltac:(intros; apply Hks; by right) Hc1) as (st' & ok & l' & H' & Hc' & Hp' & Hcov').
    exists st', ok, l'. split; [done|]. split; [done|]. split; [by etrans|].
    intros Hok. destruct (Hcov' Hok) as [Hok1 Hrest]. split; [done|]. intros k' [->|Hk']%elem_of_cons Hav.
    + apply Hp'. by apply Hcov1.
    + apply Hrest; [done|]. by apply Hp1.
  - cbn [mbind go_bind]. destruct (IHk st false l ltac:(intros; apply Hks; by right) Hc) as (st' & ok & l' & H' & Hc' & Hp' & Hcov').
    exists st', ok, l'. split; [done|]. split; [done|]. split; [done|]. intros Hok. by destruct (Hcov' Hok).
Qed.

Lemma commit_state_ok fuel : commits fuel.
Proof.
  induction fuel as [|fuel IH]; intros h st l Hh Hz Hc; [lia|]. cbn [commit].
  destruct (dirties st.1.1 !! h) as [e|] eqn:He.
  2:{ exists st, true, l. split; [done|]. split; [done|]. split; [reflexivity|]. intros _ [[? ?]|?]; [congruence|by left]. }
  pose proof (cm_inv _ _ Hc) as Hi. pose proof (infos_Some _ _ _ He) as Hie.
  destruct (dirty_rlp _ _ _ _ _ _ Hi He Hz) as (x & Hx & Hr & Hn).
  destruct (commit_children fuel IH (forChilds e) st true l) as (st1 & ok1 & l1 & -> & Hc1 & Hp1 & Hcov1); [|done|].
  { intros k Hk. destruct (dirty_kids _ _ _ _ _ _ k Hi He Hz Hk). split; [lia|done]. }
  cbn [mbind go_bind]. destruct ok1; [|exists st1, false, l1; done]. destruct (Hcov1 eq_refl) as [_ Hkids].
  assert (∀ c, c ∈ kids x → covered st1.1.1 st1.1.2 c) as Hk.
  { intros c Hck. apply Hkids; [rewrite forChilds_childs; apply elem_of_childs; right; simpl; by rewrite Hn|].
    apply available_stored. eapply co_closed; [apply Hi|exact Hie|set_solver|].
    apply elem_of_childs. right. simpl. by rewrite Hn. }
  destruct st1 as [[db1 b1] calls]. cbn [fst snd] in *. rewrite Hr. set (b2 := WriteTrieNode b1 h (wire x)).
  destruct Hc1 as [Hi1 Hb1 Hn1]. cbn [fst snd] in *.
  assert (batch_ok (diskdb db1) b2) as Hb2 by by apply batch_ok_node.
  assert (nodes_only b2) as Hn2.
  { unfold nodes_only, b2. rewrite replayed_node. apply Forall_app. split; [done|]. apply Forall_singleton. by eapply G_ok. }
  assert (advances st (db1, b2, calls ++ [h])) as Hp2.
  { etrans; [exact Hp1|]. split_and!; [|done..]. cbn [fst snd]. unfold covered, b2. setoid_rewrite in_batch_node. naive_solver. }
  assert (in_batch b2 h) as Hh2 by (apply in_batch_node; by right).
  case_bool_decide.
  - destruct (batch_Write (diskdb db1) b2) as [d|] eqn:Hw.
    2:{ exists (db1, b2, calls ++ [h]), false, l1. split; [done|]. by split. }
    destruct (write_ok _ _ _ _ _ _ Hi1 Hb2 Hw) as (Hi2 & Hm2 & Hin2).
    destruct (Replay_ok b2 (set_disk d db1) l1 Hi2 Hn2) as (db3 & l3 & -> & Hi3 & Hd3 & Hav3);
      [by eapply batch_ok_mono|done|]. cbn [mbind go_bind]. simpl in Hd3.
    exists (db3, NewBatch, calls ++ [h]), true, l3. split; [done|]. split; [|split].
    + split; cbn [fst snd]; [done|apply batch_ok_new|]. unfold nodes_only. by rewrite replayed_new.
    + etrans; [exact Hp2|]. unfold advances, covered. cbn [fst snd]. rewrite Hd3. split_and!; [naive_solver|done|].
      intros k Hk'. apply Hav3. destruct Hk' as [?|?]; [by left|right; simpl; auto].
    + intros _ _. left. cbn [fst snd]. rewrite Hd3. auto.
  - exists (db1, b2, calls ++ [h]), true, l1. split; [done|]. split; [by split|]. split; [done|]. intros _ _. by right.
Qed.

Lemma Commit_ok db l h :
  inv ∅ [] db l → h ≠ zero →
  ∃ db' calls ok l', Commit F db h = Ret (db', calls, ok) ∧ inv ∅ [] db' l' ∧
    (∀ k, available db k → available db' k) ∧ (ok = true → available db h → on_disk (diskdb db') h).
Proof.
  intros Hi Hz. unfold Commit.
  assert (∃ r, match preimages db with
               | Some m => batch_Write (diskdb db) (WritePreimages NewBatch m)
               | None => Some (diskdb db)
               end = r ∧ match r with
               | Some d => inv ∅ [] (set_disk d db) l ∧ ∀ k, on_disk (diskdb db) k → on_disk d k
               | None => True
               end) as (r & -> & Hr).
  { eexists. split; [done|]. destruct (preimages db) as [m|] eqn:Em; [|by destruct db].
    destruct (batch_ok_preimages _ _ m ltac:(rewrite <-Em; apply Hi) (batch_ok_new (diskdb db))) as [Hb _].
    destruct (batch_Write _ _) as [d|] eqn:Hw; [|done]. by destruct (write_ok _ _ _ _ _ _ Hi Hb Hw) as (? & ? & _). }
  destruct r as [d|]; [|by exists db, [], false, l]. destruct Hr as [Hi1 Hm1].
  destruct (commit_state_ok F h (set_disk d db, NewBatch, []) l) as (st & ok & l2 & -> & [Hi2 Hb2 Hn2] & (_ & Hd2 & Ha2) & Hcov2);
    [done|done|split; [done|apply batch_ok_new|unfold nodes_only; cbn [fst snd]; by rewrite replayed_new]|].
  assert (∀ k, available db k → available st.1.1 k) as Hav.
  { intros k Hk. apply Ha2. destruct Hk as [?|?]; [by left|right; simpl; auto]. }
  destruct st as [[db2 b2] calls]. cbn [fst snd mbind go_bind] in *.
  destruct ok; [|by exists db2, calls, false, l2].
  destruct (batch_Write (diskdb db2) b2) as [d3|] eqn:Hw; [|by exists db2, calls, false, l2].
  destruct (write_ok _ _ _ _ _ _ Hi2 Hb2 Hw) as (Hi3 & Hm3 & Hin3).
  destruct (Replay_ok b2 (set_disk d3 db2) l2 Hi3 Hn2) as (db4 & l4 & -> & Hi4 & Hd4 & Hav4);
    [by eapply batch_ok_mono|done|]. cbn [mbind go_bind]. simpl in Hd4.
  eexists _, calls, true, l4. split; [done|].
  set (db5 := match preimages db4 with Some _ => set_preimages (Some ∅) 0 db4 | None => db4 end).
  assert (inv ∅ [] db5 l4 ∧ diskdb db5 = d3 ∧ dirties db5 = dirties db4) as (Hi5 & Hd5 & Hdi5)
    by (unfold db5; destruct (preimages db4); split_and!; try done; by apply inv_preimages, keys32_empty).
  split; [by apply inv_stats|]. split.
  - intros k Hk%Hav. unfold available. simpl. rewrite Hd5, Hdi5, <-Hd4. apply Hav4.
    destruct Hk as [?|?]; [by left|right; simpl; auto].
  - intros _ Hk. simpl. rewrite Hd5. destruct (Hcov2 eq_refl) as [?|?]; [|auto..].
    destruct Hk as [?|?]; [by left|right; simpl; auto].
Qed.
End ops.
