(* ===== verification/NodeStore.v ===== *)
(** * The database under a trie: nothing referenced is lost, and what is
    committed can be reopened

    [Database.node] makes the database a store for tries ([db_store]).  The
    operations of the database form a step relation; [gc_safe],
    [commit_persists] and [db_ops_succeed] are about its runs. *)
From S2P Require Import Prelude Core Encoding Node Rebuild Trie NodeDB NodeGC NodeSafe.
Local Open Scope Z_scope.

(** What the disk has to satisfy when it is opened: the nodes on it are what
    their hashes say, and none of their children is missing. *)
Definition disk_ok {RL : RLP} {KV : KeyValueStore} (G : bytes → option Node) (d : kv) : Prop :=
  (∀ h x v, G h = Some x → kv_Get d h = Some v → v = wire x) ∧
  (∀ h x c, on_disk d h → G h = Some x → c ∈ kids x → on_disk d c).

Section store.
Context `{RL : RLP} `{RLL : !RLPLaws} `{MI : MapIter} `{KV : KeyValueStore} `{KVL : !KeyValueLaws}
  `{FC : FastCache} `{FCL : !FastCacheLaws}.

(** A database as a store of nodes. *)
Definition db_store (db : Database) : NodeStore :=
  λ h, match node db h with Ret (_, o) => o | Halt _ => None end.

(** ** Steps *)
Inductive op :=
  | OpInsert (hash : bytes) (sz : Z) (x : Node)
  | OpPreimage (hash preimage : bytes)
  | OpRead (hash : bytes)
  | OpReference (child parent : bytes)
  | OpDereference (root : bytes)
  | OpCap (limit : Z)
  | OpCommit (root : bytes).

Variable F : nat.

Definition run (o : op) (db : Database) : go Database :=
  match o with
  | OpInsert h sz x => insert db h sz (collapse x)
  | OpPreimage h p => Ret (insertPreimage db h p)
  | OpRead h => fst <$> node db h
  | OpReference c p => Reference db c p
  | OpDereference r => Dereference (S F) db r
  | OpCap limit => fst <$> Cap (size (dirties db)) db limit
  | OpCommit h => (λ r, r.1.1) <$> Commit F db h
  end.

Variable G : bytes → option Node.
Variable height : bytes → nat.

(** Nodes are inserted after their children; what is dereferenced was
    referenced; counters do not overflow. *)
Definition allowed (o : op) (db : Database) : Prop :=
  match o with
  | OpInsert h _ x => G h = Some x ∧ (∀ c, c ∈ kids x → available db c) ∧ room (len (kids x)) db
  | OpPreimage h _ => length h = 32%nat
  | OpCap _ => True
  | OpRead h => is_Some (G h)
  | OpReference c p =>
      c ≠ zero ∧ (p = zero ∨ (is_Some (dirties db !! p) ∧ (height c < height p)%nat)) ∧
      (∀ e, dirties db !! c = Some e → parents e + 1 < 2^32) ∧
      (∀ e m k, dirties db !! p = Some e → children e = Some m → m !! c = Some k → k + 1 < 2^16)
  | OpDereference r => rooted db r ∨ dirties db !! r = None ∨ on_disk (diskdb db) r
  | OpCommit h => h ≠ zero
  end.

Definition step (db db' : Database) : Prop := ∃ o, allowed o db ∧ run o db = Ret db'.

Hypothesis G_ok : ∀ h x, G h = Some x → wf_node x ∧ has_vals x ∧ length h = 32%nat ∧ h ≠ zero.
Hypothesis G_kids : ∀ h x c, G h = Some x → c ∈ kids x → c ≠ zero ∧ (height c < height h)%nat.
Hypothesis G_closed : ∀ h x c, G h = Some x → c ∈ kids x → is_Some (G c).
Hypothesis height_F : ∀ h, (height h < F)%nat.

Abbreviation inv := (inv G height).

(** A freshly opened database. *)
Lemma inv_open d : disk_ok G d → inv ∅ [] (NewDatabase d) [].
Proof.
  intros [H1 H2].
  assert (∀ h i, infos (NewDatabase d) !! h = Some i → h = zero ∧ i = mkInfo cNil (Some ∅) 0) as Hin.
  { unfold infos. simpl. rewrite map_fmap_singleton. by intros h i [<- <-]%lookup_singleton_Some. }
  split.
  - split_and!; try done; [constructor|by intros ?%elem_of_nil].
  - split.
    + exists ∅. split; [apply not_elem_of_empty|]. unfold infos. simpl. by rewrite map_fmap_singleton, lookup_singleton_eq.
    + intros h. split; [by intros ?%elem_of_nil|]. intros (Hz & [i Hi] & _). by apply Hin in Hi as [? _].
    + intros h i [-> _]%Hin. done.
    + intros h i [_ ->]%Hin m c k [= <-]. by rewrite lookup_empty.
    + intros p i c [_ ->]%Hin [(m & [= <-] & [? Hk])|Hk]%elem_of_childs; [by rewrite lookup_empty in Hk|by apply elem_of_nil in Hk].
    + intros p i c [_ ->]%Hin _ [(m & [= <-] & [? Hk])|Hk]%elem_of_childs; [by rewrite lookup_empty in Hk|by apply elem_of_nil in Hk].
    + intros l1 p l2 x c Heq. by destruct l1.
    + intros h i Hi _ _. pose proof (Hin h i Hi) as [-> ->]. change (occurs zero []) with 0. rewrite refs_zero; [done|].
      intros p j [[_ ->]%Hin _]%live_Some. rewrite elem_of_childs. intros [(m & [= <-] & [? Hk])|Hk]; [by rewrite lookup_empty in Hk|by apply elem_of_nil in Hk].
    + by intros h i [_ ->]%Hin.
    + done.
  - split; [done|]. split; [done|]. apply keys32_empty.
Qed.

(** ** Reading *)
Lemma decode_ok x : wf_node x → MustDecodeNode (length (wire x)) (wire x) = Ret x.
Proof.
  intros [Hw Hd]. unfold MustDecodeNode. rewrite <-(app_nil_r (wire x)) at 2.
  by rewrite decodeNode_wire by (done || apply depth_wire).
Qed.

Lemma inv_disk_ok D pend db l : inv D pend db l → disk_ok G (diskdb db).
Proof. intros [_ Hc (Hd & _)]. split; [done|]. intros h x c. by eapply co_disk. Qed.

(** A hash is read as the node it names, if anything is read for it, and
    something is if it is available. *)
Lemma node_spec db l h x :
  inv ∅ [] db l → G h = Some x →
  ∃ db' o, node db h = Ret (db', o) ∧ inv ∅ [] db' l ∧ (o = Some x ∨ o = None ∧ ¬ available db h) ∧
    (∀ k, available db k → available db' k).
Proof.
  intros Hi Hx. destruct (G_ok h x Hx) as (Hw & Hv & _ & Hz). destruct (inv_content _ _ _ _ _ _ Hi) as (Hd & Hcl & _).
  unfold node. destruct (clean_hit db h) as [v|] eqn:Ec.
  { rewrite (Hcl h x v Hx Ec), decode_ok by done. exists db, (Some x). split; [done|]. split; [done|]. split; [by left|done]. }
  destruct (dirties db !! h) as [e|] eqn:He.
  { destruct (dirty_rlp G height _ _ _ _ _ _ Hi He Hz) as (y & Hy & _ & Hn). simplify_eq. unfold obj. rewrite Hn.
    destruct Hw as [Hw Hdep]. exists db, (Some x). split; [|split; [done|split; [by left|done]]].
    pose proof (expandNode_ok x Hw Hv ltac:(by intros ->)) as Hex.
    destruct x; try done; cbn [collapse raw_of] in Hex |- *; by rewrite Hex. }
  destruct (kv_Get (diskdb db) h) as [v|] eqn:Ev.
  - rewrite (Hd h x v Hx Ev), decode_ok by done. exists (fill_clean db h (wire x)), (Some x). split; [done|]. split; [|split; [by left|]].
    + by apply (fill_clean_ok G height).
    + intros k. unfold available. by rewrite (proj1 (fill_clean_disk _ _ _)), (proj2 (fill_clean_disk _ _ _)).
  - exists db, None. split; [done|]. split; [done|]. split; [|done]. right. split; [done|]. unfold available, on_disk. rewrite He, Ev.
    by intros [[? ?]|[? ?]].
Qed.

Lemma db_store_spec db l h x n : inv ∅ [] db l → G h = Some x → db_store db h = Some n → n = x.
Proof.
  intros Hi Hx. unfold db_store. destruct (node_spec db l h x Hi Hx) as (db' & o & -> & _ & [->|[-> _]] & _); congruence.
Qed.
Lemma db_store_available db l h x : inv ∅ [] db l → G h = Some x → available db h → db_store db h = Some x.
Proof.
  intros Hi Hx Ha. unfold db_store. by destruct (node_spec db l h x Hi Hx) as (db' & o & -> & _ & [->|[_ ?]] & _).
Qed.

(** ** Everything below an available node is available *)
Lemma available_kids db l h x c :
  inv ∅ [] db l → G h = Some x → available db h → c ∈ kids x → available db c.
Proof.
  intros Hi Hx [[e He]|Hd] Hc.
  - destruct (G_ok h x Hx) as (_ & _ & _ & Hz). apply available_stored.
    destruct (dirty_rlp G height _ _ _ _ _ _ Hi He Hz) as (y & Hy & _ & Hn). simplify_eq.
    eapply co_closed; [apply Hi|by apply infos_Some|apply not_elem_of_empty|]. apply elem_of_childs. right. simpl. by rewrite Hn.
  - right. by eapply co_disk; [apply Hi|..].
Qed.

Lemma kids_full cs i c k : cs !! i = Some c → (i < 16)%nat → k ∈ kids c → k ∈ kids (FullNode cs).
Proof.
  intros Hi Hlt Hk. unfold kids. cbn [collapse raw_of forGatherChildren].
  match goal with |- _ ∈ ?g 0%nat _ => set (go := g) end.
  assert (∀ l j, l !! i = Some (raw_of (collapse c)) → (i + j < 16)%nat → k ∈ go j l) as Hgo; cycle 1.
  { apply Hgo; [|lia]. by rewrite !list_lookup_fmap, Hi. }
  clear Hi Hlt. induction i as [|i IH]; intros [|y l] j Hl Hj; try done; cbn [go]; apply elem_of_app.
  - injection Hl as ->. left. by rewrite bool_decide_true by lia.
  - right. apply IH; [done|lia].
Qed.

(** ** A trie that was resolved stays as it is while its root is available *)
Lemma expands_stable db1 l1 db2 l2 : inv ∅ [] db1 l1 → inv ∅ [] db2 l2 → ∀ n h x e, (height h < n)%nat →
  G h = Some x → available db2 h → expands (DB := db_store db1) x e → expands (DB := db_store db2) x e.
Proof.
  intros Hi1 Hi2 n. induction n as [|n IHn]; intros h x e Hn Hx Ha; [lia|].
  assert (∀ c, c ∈ kids x → is_Some (G c) ∧ available db2 c ∧ (height c < n)%nat) as Hk.
  { intros c Hc. split; [by eapply G_closed|]. split; [by eapply available_kids|]. destruct (G_kids h x c Hx Hc). lia. }
  destruct (G_ok h x Hx) as ([Hw _] & _). clear Hx Hn Ha h. revert e Hk Hw.
  induction x as [|cs IH|k v IH|h|v] using Node_nested_ind; intros e Hk Hw He; inversion He as [| |? es HF| |? y ? Hy Hin Hye];
    subst; try by constructor.
  - constructor. destruct Hw as (_ & (cs' & sl & -> & Hlen & _ & Hsl) & Hcs%wf_children).
    apply Forall2_app_inv_l in HF as (es' & es2 & HF & HF2 & ->). apply Forall2_app.
    + apply Forall2_same_length_lookup_2; [by eapply Forall2_length|]. intros i c e Hc Hec.
      assert ((cs' ++ [sl]) !! i = Some c) as Hci by by apply lookup_app_l_Some.
      apply (proj1 (Forall_lookup _ _) IH i c Hci); [|by apply (proj1 (Forall_lookup _ _) Hcs i c Hci)|exact (Forall2_lookup_lr _ _ _ _ _ _ HF Hc Hec)].
      intros c' Hc'. apply Hk. eapply kids_full; [done| |done]. apply lookup_lt_Some in Hc. lia.
    + destruct es2 as [|e2 [|]]; inversion HF2 as [|? ? ? ? He2 Hnil]; subst; [|by inversion Hnil]. constructor; [|constructor].
      destruct sl; try done; inversion He2; subst; constructor.
  - constructor. destruct Hw as (_ & _ & _ & _ & Hw & _). by apply IH.
  - destruct (Hk (BytesToHash h)) as ([x Hx] & Hav & Hlt); [by left|].
    assert (y = x) as -> by exact (db_store_spec db1 l1 _ x y Hi1 Hx Hy).
    econstructor; [exact (db_store_available db2 l2 _ x Hi2 Hx Hav)|done|]. by eapply IHn.
Qed.

(** ** Runs *)
Lemma run_ok o db l :
  inv ∅ [] db l → allowed o db → ∃ db' l', run o db = Ret db' ∧ inv ∅ [] db' l'.
Proof.
  intros Hi Ha. destruct o as [h sz x|h p|h|c p|r|limit|h]; cbn [run allowed] in *.
  - destruct Ha as (Hx & Hk & Hr).
    destruct (db_insert_ok G height G_ok G_kids db l h sz x Hi Hx Hk Hr) as (db' & l' & H' & Hi' & _). by exists db', l'.
  - eexists _, l. split; [done|]. unfold insertPreimage. destruct (preimages db) as [m|] eqn:Em; [|done].
    destruct (m !! h); [done|]. apply inv_preimages; [done|]. intros m' k [= <-].
    destruct (decide (k = h)) as [->|]; [done|]. rewrite lookup_insert_ne by done.
    apply (proj2 (proj2 (inv_content _ _ _ _ _ _ Hi)) m k Em).
  - destruct Ha as [x Hx]. destruct (node_spec db l h x Hi Hx) as (db' & o & -> & Hi' & _). by exists db', l.
  - destruct Ha as (Hz & Hp & Hpar & Hcnt).
    edestruct (reference_ok G height F G_ok G_kids height_F db l c p) as (db' & H' & Hi' & _); [done..|]. by exists db', l.
  - edestruct (Dereference_ok G height F G_ok G_kids height_F db l r) as (db' & l' & H' & Hi' & _); [done..|]. by exists db', l'.
  - edestruct (Cap_ok G height F G_ok G_kids height_F (size (dirties db)) db l limit) as (db' & ok & l' & H' & Hi' & _); [done..|].
    rewrite H'. by exists db', l'.
  - edestruct (Commit_ok G height F G_ok G_kids height_F db l h) as (db' & calls & ok & l' & H' & Hi' & _); [done..|].
    rewrite H'. by exists db', l'.
Qed.

Lemma steps_inv db db' l : rtc step db db' → inv ∅ [] db l → ∃ l', inv ∅ [] db' l'.
Proof.
  intros Hs. revert l. induction Hs as [db|db db1 db' (o & Ha & Hr) _ IH]; intros l Hi; [by exists l|].
  destruct (run_ok o db l Hi Ha) as (db2 & l2 & Hr2 & Hi2). rewrite Hr in Hr2. injection Hr2 as <-. by apply (IH l2).
Qed.

Lemma rooted_available db l r : inv ∅ [] db l → rooted db r → available db r.
Proof.
  intros Hi (e & m & k & He & Hm & Hk). apply available_stored. eapply co_closed; [apply Hi|by apply infos_Some|apply not_elem_of_empty|].
  apply elem_of_childs. left. simpl. eauto.
Qed.

(** The root of a trie, resolved in one database and available in another. *)
Lemma root_stable db1 l1 db2 l2 r e :
  inv ∅ [] db1 l1 → inv ∅ [] db2 l2 → is_Some (G r) → available db2 r →
  expands (DB := db_store db1) (HashNode r) e → expands (DB := db_store db2) (HashNode r) e.
Proof.
  intros Hi1 Hi2 [x Hx] Ha He. inversion He as [| | | |? y ? Hy Hin Hye]; subst.
  destruct (G_ok r x Hx) as (_ & _ & Hl & _). rewrite BytesToHash_id in Hy by done.
  assert (y = x) as -> by exact (db_store_spec db1 l1 _ x y Hi1 Hx Hy).
  econstructor; [|done|by eapply (expands_stable db1 l1 db2 l2)].
  rewrite BytesToHash_id by done. exact (db_store_available db2 l2 _ x Hi2 Hx Ha).
Qed.
(** A trie that was committed reads the same from the disk. *)
Lemma commit_reads db l h e db' calls :
  inv ∅ [] db l → is_Some (G h) → available db h → expands (DB := db_store db) (HashNode h) e →
  Commit F db h = Ret (db', calls, true) →
  expands (DB := db_store (NewDatabase (diskdb db'))) (HashNode h) e ∧ disk_ok G (diskdb db').
Proof.
  intros Hi [x Hx] Ha He Hc. destruct (G_ok h x Hx) as (_ & _ & _ & Hz).
  edestruct (Commit_ok G height F G_ok G_kids height_F db l h) as (db1 & calls1 & ok & l1 & Hc1 & Hi1 & _ & Hdisk); [done..|].
  rewrite Hc in Hc1. injection Hc1 as <- <- <-. pose proof (inv_disk_ok _ _ _ _ Hi1) as Hd1. split; [|done].
  apply (root_stable db l _ []); [done|by apply inv_open|by exists x| |done].
  right. by apply Hdisk.
Qed.
End store.

(** ** The theorems *)
Section theorems.
Context `{RL : RLP} `{RLL : !RLPLaws} `{MI : MapIter} `{KV : KeyValueStore} `{KVL : !KeyValueLaws}
  `{FC : FastCache} `{FCL : !FastCacheLaws}.
Variable F : nat.
Variable G : bytes → option Node.
Variable height : bytes → nat.
Hypothesis G_ok : ∀ h x, G h = Some x → wf_node x ∧ has_vals x ∧ length h = 32%nat ∧ h ≠ zero.
Hypothesis G_kids : ∀ h x c, G h = Some x → c ∈ kids x → c ≠ zero ∧ (height c < height h)%nat.
Hypothesis G_closed : ∀ h x c, G h = Some x → c ∈ kids x → is_Some (G c).
Hypothesis height_F : ∀ h, (height h < F)%nat.
Abbreviation step := (step F G height).

(** C6. Garbage collection is safe: a trie that could be read at some point
    of a run reads the same at every later point at which its root is
    referenced or on disk, whatever was inserted, referenced, dereferenced,
    flushed or committed in between, and whether the writes to disk failed. *)
Theorem gc_safe d db1 db2 r e :
  disk_ok G d → rtc step (NewDatabase d) db1 → rtc step db1 db2 → is_Some (G r) →
  rooted db2 r ∨ on_disk (diskdb db2) r →
  expands (DB := db_store db1) (HashNode r) e → expands (DB := db_store db2) (HashNode r) e.
Proof.
  intros Hd H1 H2 Hr Hroot He.
  destruct (steps_inv F G height G_ok G_kids height_F _ _ _ H1 (inv_open G height d Hd)) as [l1 Hi1].
  destruct (steps_inv F G height G_ok G_kids height_F _ _ _ H2 Hi1) as [l2 Hi2].
  apply (root_stable F G height G_ok G_kids G_closed height_F db1 l1 db2 l2); [done..| |done].
  destruct Hroot; [by eapply (rooted_available G height)|by right].
Qed.

(** A committed trie survives a restart: when [Commit] of its root reports
    no error, a database opened on the disk as it is then reads the same
    trie, and what is on that disk is complete again. *)
Theorem commit_persists d db h e db' calls :
  disk_ok G d → rtc step (NewDatabase d) db → is_Some (G h) → available db h →
  expands (DB := db_store db) (HashNode h) e → Commit F db h = Ret (db', calls, true) →
  expands (DB := db_store (NewDatabase (diskdb db'))) (HashNode h) e ∧ disk_ok G (diskdb db').
Proof.
  intros Hd Hs. destruct (steps_inv F G height G_ok G_kids height_F _ _ _ Hs (inv_open G height d Hd)) as [l Hi].
  by apply (commit_reads F G height G_ok G_kids G_closed height_F db l).
Qed.

(** C14. No operation of the database panics or runs out of fuel: in every
    state a run can reach, every operation that is allowed there returns. *)
Theorem db_ops_succeed d db o :
  disk_ok G d → rtc step (NewDatabase d) db → allowed G height o db → ∃ db', run F o db = Ret db' ∧ step db db'.
Proof.
  intros Hd Hs Ha. destruct (steps_inv F G height G_ok G_kids height_F _ _ _ Hs (inv_open G height d Hd)) as [l Hi].
  destruct (run_ok F G height G_ok G_kids height_F o db l Hi Ha) as (db' & _ & Hr & _). exists db'. split; [done|]. by exists o.
Qed.
End theorems.

(** ** An instance

    A store in memory, a cache that keeps everything, and a branch node that
    refers twice to one leaf. *)
Module DemoDB.
#[local] Instance demo_kv : KeyValueStore := {|
  kv := gmap bytes bytes;
  batch := list (bytes * bytes);
  kv_Get d k := d !! k;
  NewBatch := [];
  batch_Write d b := Some (foldl (λ d kv, <[kv.1 := kv.2]> d) d b);
  ValueSize b := sumZ (λ kv, len kv.1 + len kv.2) b;
  replayed b := b;
  WriteTrieNode b h e := b ++ [(h, e)];
  WritePreimages b m := b ++ map (λ kv, (0 :: kv.1, kv.2)) (map_to_list m);
  ReadTrieNode d h := default [] (d !! h);
  ReadPreimage d h := d !! (0 :: h)
|}.
#[local] Instance demo_kv_laws : KeyValueLaws.
Proof.
  split; simpl; try done.
  - intros b m Hm. eexists. split; [done|]. apply Forall_map, Forall_forall. intros [k v] Hk%elem_of_map_to_list. simpl.
    rewrite (Hm k) by eauto. done.
  - intros d b d' k [= <-]. unfold written. induction b as [|[k' v'] b IH] using rev_ind; [done|]. rewrite !foldl_app. simpl.
    case_decide as E; [subst; by rewrite lookup_insert_eq|]. by rewrite lookup_insert_ne.
Qed.
#[local] Instance demo_cache : FastCache := {|
  cache := gmap bytes bytes;
  cache_new _ := ∅;
  cache_load _ _ := ∅;
  cache_Get c k := c !! k;
  cache_Set c k v := <[k := v]> c
|}.
#[local] Instance demo_cache_laws : FastCacheLaws.
Proof.
  split; simpl; [done|]. intros c k v k' v'. destruct (decide (k' = k)) as [->|];
    [rewrite lookup_insert_eq; intros [= ->]; by left|rewrite lookup_insert_ne by done; by right].
Qed.
#[local] Existing Instance canonical_iter.

Definition leaf_hash : bytes := replicate 32 7.
Definition root_hash : bytes := replicate 32 9.
Definition leaf : Node := ShortNode (replicate 5 1 ++ [16]) (ValueNode (replicate 40 3)).
Definition branch_of (c : Node) : Node :=
  FullNode (<[3%nat := c]> (<[8%nat := c]> (replicate 17 NilNode))).
Definition branch : Node := branch_of (HashNode leaf_hash).
Definition G (h : bytes) : option Node :=
  if decide (h = root_hash) then Some branch else if decide (h = leaf_hash) then Some leaf else None.
Definition height (h : bytes) : nat := if decide (h = root_hash) then 1%nat else 0%nat.

Lemma G_cases h x : G h = Some x → (h = root_hash ∧ x = branch) ∨ (h = leaf_hash ∧ x = leaf).
Proof. unfold G. intros. repeat case_decide; naive_solver. Qed.

Lemma rlp_ok_dec b : bool_decide (Forall (λ x, 0 ≤ x < 2^8) b) && bool_decide (len b < 2^64) = true → rlp_ok b.
Proof. intros [H1%bool_decide_eq_true_1 H2%bool_decide_eq_true_1]%andb_true_iff. by split. Qed.

Lemma leaf_ok : wf_node leaf ∧ has_vals leaf.
Proof.
  split; [|done]. split; [|done]. unfold leaf. cbn [wf]. split_and!.
  - exists (replicate 5 1). split; [apply Forall_replicate; by unfold nibble|by right].
  - apply rlp_ok_dec. by vm_compute.
  - apply rlp_ok_dec. by vm_compute.
  - by vm_compute.
  - apply rlp_ok_dec. by vm_compute.
  - done.
Qed.
Lemma branch_ok : wf_node branch ∧ has_vals branch.
Proof.
  split; [|vm_compute; tauto]. split; [|done]. change branch with (FullNode (<[3%nat := HashNode leaf_hash]> (<[8%nat := HashNode leaf_hash]> (replicate 17 NilNode)))).
  cbn [wf]. split_and!.
  - apply rlp_ok_dec. by vm_compute.
  - exists (<[3%nat := HashNode leaf_hash]> (<[8%nat := HashNode leaf_hash]> (replicate 16 NilNode))), NilNode.
    split_and!; [done|done| |done]. repeat constructor; by intros [].
  - assert (Forall in_u8 leaf_hash ∧ len leaf_hash = 32) by (split; [apply Forall_replicate; by unfold in_u8|done]).
    assert (Forall (λ c, c = NilNode ∨ c = HashNode leaf_hash)
      (<[3%nat := HashNode leaf_hash]> (<[8%nat := HashNode leaf_hash]> (replicate 17 NilNode)))) as HF
      by (do 2 (apply Forall_insert; [|by right]); apply Forall_replicate; by left).
    induction HF as [|c cs Hc _ IH]; [done|]. split; [|done]. by destruct Hc as [->| ->].
Qed.
Lemma G_ok h x : G h = Some x → wf_node x ∧ has_vals x ∧ length h = 32%nat ∧ h ≠ zero.
Proof.
  intros [[-> ->]|[-> ->]]%G_cases; (split; [apply branch_ok || apply leaf_ok|split; [apply branch_ok || apply leaf_ok|done]]).
Qed.
Lemma G_kids h x c : G h = Some x → c ∈ kids x → c ≠ zero ∧ (height c < height h)%nat.
Proof.
  intros [[-> ->]|[-> ->]]%G_cases.
  - change (kids branch) with [leaf_hash; leaf_hash]. intros [->|[->|Hc]%elem_of_cons]%elem_of_cons; [split; [done|vm_compute; lia]..|].
    by apply elem_of_nil in Hc.
  - change (kids leaf) with (@nil bytes). by intros ?%elem_of_nil.
Qed.
Lemma G_closed h x c : G h = Some x → c ∈ kids x → is_Some (G c).
Proof.
  intros [[-> ->]|[-> ->]]%G_cases.
  - change (kids branch) with [leaf_hash; leaf_hash]. intros [->|[->|Hc]%elem_of_cons]%elem_of_cons; [by eexists..|].
    by apply elem_of_nil in Hc.
  - change (kids leaf) with (@nil bytes). by intros ?%elem_of_nil.
Qed.
Lemma height_F h : (height h < 2)%nat.
Proof. unfold height. case_decide; lia. Qed.
Lemma disk_ok_empty : disk_ok G ∅.
Proof. split; [done|]. intros h x c [? Hh]. done. Qed.

(** A run: the leaf, the branch, a reference to it. *)
Definition ops1 : list op := [OpInsert leaf_hash 48 leaf; OpInsert root_hash 70 branch; OpReference root_hash zero].
Definition runs (db : Database) (l : list op) : Database :=
  foldl (λ db o, match run 2 o db with Ret db => db | Halt _ => db end) db l.
Definition db1 : Database := runs (NewDatabase ∅) ops1.

Lemma room_dec n (db : Database) : bool_decide (map_Forall (λ _ e, parents e + n < 2^32) (dirties db)) = true → room n db.
Proof. intros H%bool_decide_eq_true_1. exact H. Qed.
Lemma counts_dec (db : Database) (c p : bytes) :
  bool_decide (map_Forall (λ _ e, parents e + 1 < 2^32 ∧
    map_Forall (λ _ k, k + 1 < 2^16) (default ∅ (children e))) (dirties db)) = true →
  (∀ e, dirties db !! c = Some e → parents e + 1 < 2^32) ∧
  (∀ e m k, dirties db !! p = Some e → children e = Some m → m !! c = Some k → k + 1 < 2^16).
Proof.
  intros H%bool_decide_eq_true_1. split; [intros e He; by apply (H c e He)|]. intros e m k He Hm Hk.
  destruct (H p e He) as [_ H']. rewrite Hm in H'. by apply (H' c k).
Qed.
Lemma step_run o db : allowed G height o db → (match run 2 o db with Ret _ => true | Halt _ => false end) = true →
  step 2 G height db (runs db [o]).
Proof. intros Ha Hr. exists o. split; [done|]. simpl. by destruct (run 2 o db). Qed.

Lemma ops1_steps : rtc (step 2 G height) (NewDatabase ∅) db1.
Proof.
  eapply rtc_l; [|eapply rtc_l; [|eapply rtc_once]].
  - apply (step_run (OpInsert leaf_hash 48 leaf)); [|by vm_compute]. split; [done|]. split; [|by apply room_dec; vm_compute].
    change (kids leaf) with (@nil bytes). by intros c ?%elem_of_nil.
  - apply (step_run (OpInsert root_hash 70 branch)); [|by vm_compute]. split; [done|]. split; [|by apply room_dec; vm_compute].
    change (kids branch) with [leaf_hash; leaf_hash]. intros c [->|[->|Hc]%elem_of_cons]%elem_of_cons; [left; by eexists..|].
    by apply elem_of_nil in Hc.
  - apply (step_run (OpReference root_hash zero)); [|by vm_compute]. split; [done|]. split; [by left|].
    apply counts_dec. by vm_compute.
Qed.

Definition loaded : Node := branch_of leaf.
Lemma db1_expands : expands (DB := db_store db1) (HashNode root_hash) loaded.
Proof.
  assert (expands (DB := db_store db1) (HashNode leaf_hash) leaf) as Hl.
  { apply (ex_hash (DB := db_store db1) leaf_hash leaf); [by vm_compute|done|]. repeat constructor. }
  apply (ex_hash (DB := db_store db1) root_hash branch); [by vm_compute|done|]. constructor.
  do 2 (apply Forall2_insert; [|done]). apply Forall2_replicate. constructor.
Qed.

Lemma db1_has_root : is_Some (dirties db1 !! root_hash).
Proof. apply (bool_decide_eq_true_1 _). by vm_compute. Qed.

(** A second reference and its removal, then everything goes to disk. *)
Definition db2 : Database := runs (runs (runs db1 [OpReference root_hash zero]) [OpDereference root_hash]) [OpCap 0].

(** Facts about the states of the run, by evaluation to a truth value. *)
Lemma rooted_dec (db : Database) r :
  match dirties db !! zero ≫= children with Some m => bool_decide (is_Some (m !! r)) | None => false end = true → rooted db r.
Proof.
  unfold rooted. destruct (dirties db !! zero) as [e|] eqn:He; [|done]. simpl. destruct (children e) as [m|] eqn:Em; [|done].
  intros [k Hk]%bool_decide_eq_true_1. eauto 10.
Qed.
Lemma ret_dec {A} (m : go A) (d : A) : match m with Ret _ => true | Halt _ => false end = true →
  m = Ret (match m with Ret r => r | Halt _ => d end).
Proof. by destruct m. Qed.
Lemma ops2_steps : rtc (step 2 G height) db1 db2.
Proof.
  eapply rtc_l; [|eapply rtc_l; [|eapply rtc_once]].
  - apply (step_run (OpReference root_hash zero)); [|by vm_compute]. split; [done|]. split; [by left|].
    apply counts_dec. by vm_compute.
  - apply (step_run (OpDereference root_hash)); [|by vm_compute]. left. apply rooted_dec. by vm_compute.
  - apply (step_run (OpCap 0)); [done|by vm_compute].
Qed.
Definition committed : Database * list bytes * bool :=
  match Commit 2 db1 root_hash with Ret r => r | Halt _ => (db1, [], false) end.
Lemma committed_ok : Commit 2 db1 root_hash = Ret (committed.1.1, committed.1.2, true).
Proof.
  assert (committed.2 = true) as <- by by vm_compute. rewrite <-!surjective_pairing. apply ret_dec. by vm_compute.
Qed.

(** What [Put] takes off for the children of a node it takes off the wrong
    sum: after the commit of a node with a reference to another trie, the
    nodes are gone, [dirtiesSize] is negative and [childrenSize] positive.
    Their sum, which [Size] and [Cap] use, is right. *)
Definition after_commit : Database :=
  runs db1 [OpReference leaf_hash root_hash; OpCommit root_hash; OpDereference root_hash].
Lemma Put_misplaces_size :
  (size (dirties after_commit), dirtiesSize after_commit, childrenSize after_commit) = (1%nat, -82, 82).
Proof. by vm_compute. Qed.
End DemoDB.

Lemma gc_safe_witness :
  dirties (KV := DemoDB.demo_kv) DemoDB.db2 !! DemoDB.root_hash = None ∧
  expands (DB := db_store (KV := DemoDB.demo_kv) (FC := DemoDB.demo_cache) DemoDB.db2)
    (HashNode DemoDB.root_hash) DemoDB.loaded.
Proof.
  split; [by vm_compute|].
  apply (gc_safe (MI := canonical_iter) (KVL := DemoDB.demo_kv_laws) (FCL := DemoDB.demo_cache_laws) 2 DemoDB.G DemoDB.height DemoDB.G_ok
    DemoDB.G_kids DemoDB.G_closed DemoDB.height_F ∅ DemoDB.db1 DemoDB.db2).
  - exact DemoDB.disk_ok_empty.
  - exact DemoDB.ops1_steps.
  - exact DemoDB.ops2_steps.
  - by eexists.
  - left. apply DemoDB.rooted_dec. by vm_compute.
  - exact DemoDB.db1_expands.
Defined.

Lemma commit_persists_witness :
  ∃ db' calls,
    Commit (MI := canonical_iter) (KV := DemoDB.demo_kv) (FC := DemoDB.demo_cache) 2 DemoDB.db1 DemoDB.root_hash =
      Ret (db', calls, true) ∧
    expands (DB := db_store (KV := DemoDB.demo_kv) (FC := DemoDB.demo_cache)
        (NewDatabase (KV := DemoDB.demo_kv) (FC := DemoDB.demo_cache) (diskdb db')))
      (HashNode DemoDB.root_hash) DemoDB.loaded ∧
    disk_ok (KV := DemoDB.demo_kv) DemoDB.G (diskdb db').
Proof.
  exists DemoDB.committed.1.1, DemoDB.committed.1.2. split; [exact DemoDB.committed_ok|].
  apply (commit_persists (MI := canonical_iter) (KVL := DemoDB.demo_kv_laws) (FCL := DemoDB.demo_cache_laws) 2 DemoDB.G
    DemoDB.height DemoDB.G_ok DemoDB.G_kids DemoDB.G_closed DemoDB.height_F ∅ DemoDB.db1 DemoDB.root_hash DemoDB.loaded
    _ DemoDB.committed.1.2).
  - exact DemoDB.disk_ok_empty.
  - exact DemoDB.ops1_steps.
  - by eexists.
  - left. apply DemoDB.db1_has_root.
  - exact DemoDB.db1_expands.
  - exact DemoDB.committed_ok.
Defined.

Lemma db_ops_succeed_witness :
  ∃ db', run (MI := canonical_iter) (KV := DemoDB.demo_kv) (FC := DemoDB.demo_cache) 2
    (OpDereference DemoDB.root_hash) DemoDB.db1 = Ret db'.
Proof.
  edestruct (db_ops_succeed (MI := canonical_iter) (KVL := DemoDB.demo_kv_laws) (FCL := DemoDB.demo_cache_laws) 2 DemoDB.G
    DemoDB.height DemoDB.G_ok DemoDB.G_kids DemoDB.height_F ∅ DemoDB.db1 (OpDereference DemoDB.root_hash)) as (db' & Hr & _).
  - exact DemoDB.disk_ok_empty.
  - exact DemoDB.ops1_steps.
  - left. apply DemoDB.rooted_dec. by vm_compute.
  - by exists db'.
Defined.
