(* ===== verification/Committer.v ===== *)
(** * From a trie in memory to its database (src/trie/committer.go, the
    caching hasher of src/trie/hasher.go, [Hash] and [Commit] of
    src/trie/trie.go)

    Here nodes carry what [Trie] leaves out: the hash they cache and the
    dirty flag.  [hashc] computes the hashes that are missing, [commit_node]
    writes the dirty nodes to the database, children first, and leaves the
    hash of the root.  [commit_reopen] composes the trie, the committer and
    the database: a trie that is committed, flushed and opened again holds
    the same entries. *)
From S2P Require Import Prelude Core Encoding Node Rebuild Trie MerkleProof NodeDB NodeGC NodeSafe NodeStore.
Local Open Scope Z_scope.

(** ** Nodes with their flags *)
Record nodeFlag := mkFlag { fHash : option bytes; dirty : bool }.
Inductive LNode :=
  | LNil
  | LFull (Children : list LNode) (flags : nodeFlag)
  | LShort (Key : bytes) (Val : LNode) (flags : nodeFlag)
  | LHash (h : bytes)
  | LValue (v : bytes).

Section lnode_ind.
Variable P : LNode → Prop.
Hypothesis Hnil : P LNil.
Hypothesis Hfull : ∀ cs fl, Forall P cs → P (LFull cs fl).
Hypothesis Hshort : ∀ k v fl, P v → P (LShort k v fl).
Hypothesis Hhash : ∀ h, P (LHash h).
Hypothesis Hvalue : ∀ v, P (LValue v).

Fixpoint LNode_nested_ind (n : LNode) : P n :=
  match n with
  | LNil => Hnil
  | LFull cs fl => Hfull cs fl ((fix go cs : Forall P cs := match cs with
                                   | [] => Forall_nil_2 P
                                   | c :: cs => Forall_cons_2 P c cs (LNode_nested_ind c) (go cs)
                                   end) cs)
  | LShort k v fl => Hshort k v fl (LNode_nested_ind v)
  | LHash h => Hhash h
  | LValue v => Hvalue v
  end.
End lnode_ind.

(** The node without its flags. *)
Fixpoint strip (n : LNode) : Node :=
  match n with
  | LNil => NilNode
  | LFull cs _ => FullNode (map strip cs)
  | LShort k v _ => ShortNode k (strip v)
  | LHash h => HashNode h
  | LValue v => ValueNode v
  end.

(** The methods [cache]; on a nil interface the call panics. *)
Definition node_cache (n : LNode) : go (option bytes * bool) :=
  match n with
  | LNil => Halt (GoPanic "nil pointer dereference")
  | LFull _ fl | LShort _ _ fl => Ret (fHash fl, dirty fl)
  | LHash _ | LValue _ => Ret (None, true)
  end.

Section committer.
Context `{RL : RLP} `{MI : MapIter} `{KV : KeyValueStore} `{FC : FastCache}.
Variable hashData : bytes → bytes.
Variable emptyRoot : bytes.

(** ** The hasher *)
Definition hash_of (n : Node) : option bytes := match n with HashNode h => Some h | _ => None end.
Definition cached_hash (n : LNode) : option bytes :=
  match n with LFull _ fl | LShort _ _ fl => fHash fl | _ => None end.

(** [hash]: the hashed node and the node with the hashes it computed. *)
Fixpoint hashc (n : LNode) (force : bool) : Node * LNode :=
  match cached_hash n with
  | Some h => (HashNode h, n)
  | None =>
      match n with
      | LShort k v fl =>
          let r := match v with LFull _ _ | LShort _ _ _ => hashc v false | _ => (strip v, v) end in
          let hashed := nodeToHash hashData (ShortNode (compact_of k) r.1) force in
          (hashed, LShort k r.2 (mkFlag (hash_of hashed) (dirty fl)))
      | LFull cs fl =>
          let rs := (fix go i cs := match cs with
                     | [] => []
                     | c :: cs =>
                         (if bool_decide (i < 16)%nat then
                            match c with LNil => (ValueNode [], LNil) | _ => hashc c false end
                          else (strip c, c)) :: go (S i) cs
                     end) 0%nat cs in
          let hashed := nodeToHash hashData (FullNode rs.*1) force in
          (hashed, LFull rs.*2 (mkFlag (hash_of hashed) (dirty fl)))
      | n => (strip n, n)
      end
  end.
Definition hashc_children : nat → list LNode → list (Node * LNode) :=
  fix go i cs := match cs with
    | [] => []
    | c :: cs =>
        (if bool_decide (i < 16)%nat then
           match c with LNil => (ValueNode [], LNil) | _ => hashc c false end
         else (strip c, c)) :: go (S i) cs
    end.

(** ** The committer *)

(** [estimateSize] *)
Fixpoint estimateSize (n : LNode) : go Z :=
  match n with
  | LShort k v _ => s ← estimateSize v; Ret (3 + len k + s)
  | LFull cs _ =>
      (fix go i cs := match cs with
       | [] => Ret 3
       | c :: cs =>
           if bool_decide (i < 16)%nat then
             s ← go (S i) cs;
             match c with LNil => Ret (s + 1) | _ => e ← estimateSize c; Ret (s + e) end
           else Ret 3
       end) 0%nat cs
  | LValue v => Ret (1 + len v)
  | LHash h => Ret (1 + len h)
  | LNil => Halt (GoPanic "Node type")
  end.

(** [leaf]: what goes through the channel. *)
Record leaf := mkLeaf { leaf_size : Z; leaf_hash : bytes; leaf_node : LNode }.
(** The database and, when there is a channel, what was sent on it. *)
Record com_state := mkCom { com_db : Database; com_ch : option (list leaf) }.

(** [store] *)
Definition store (n : LNode) (st : com_state) : go (LNode * com_state) :=
  '(hash, _) ← node_cache n;
  match hash with
  | None => Ret (n, st)
  | Some h =>
      size ← estimateSize n;
      match com_ch st with
      | Some l => Ret (LHash h, mkCom (com_db st) (Some (l ++ [mkLeaf size (BytesToHash h) n])))
      | None => db ← insert (com_db st) (BytesToHash h) size (strip n); Ret (LHash h, mkCom db None)
      end
  end.
Definition is_lhash (n : LNode) : bool := match n with LHash _ => true | _ => false end.
(** The node of a stored child counts. *)
Definition stored_result (r : LNode * com_state) (committed : Z) : LNode * Z * com_state :=
  (r.1, if is_lhash r.1 then committed + 1 else committed, r.2).

(** [commit], with [commitChildren]. *)
Fixpoint commit_node (n : LNode) (st : com_state) : go (LNode * Z * com_state) :=
  '(hash, dirty) ← node_cache n;
  match hash, dirty with
  | Some h, false => Ret (LHash h, 0, st)
  | _, _ =>
      match n with
      | LShort k v fl =>
          '(v, committed, st) ← match v with LFull _ _ => commit_node v st | _ => Ret (v, 0, st) end;
          k ← hexToCompact k;
          r ← store (LShort k v fl) st;
          Ret (stored_result r committed)
      | LFull cs fl =>
          '(cs, committed, st) ← (fix go i cs st := match cs with
              | [] => Ret ([], 0, st)
              | c :: cs =>
                  '(c, n, st) ← (if bool_decide (i < 16)%nat then
                                   match c with LNil | LHash _ => Ret (c, 0, st) | _ => commit_node c st end
                                 else Ret (c, 0, st));
                  '(cs, m, st) ← go (S i) cs st;
                  Ret (c :: cs, n + m, st)
              end) 0%nat cs st;
          r ← store (LFull cs fl) st;
          Ret (stored_result r committed)
      | LHash h => Ret (n, 0, st)
      | _ => Halt (GoPanic "invalid Node")
      end
  end.
Definition commitChildren : nat → list LNode → com_state → go (list LNode * Z * com_state) :=
  fix go i cs st := match cs with
    | [] => Ret ([], 0, st)
    | c :: cs =>
        '(c, n, st) ← (if bool_decide (i < 16)%nat then
                         match c with LNil | LHash _ => Ret (c, 0, st) | _ => commit_node c st end
                       else Ret (c, 0, st));
        '(cs, m, st) ← go (S i) cs st;
        Ret (c :: cs, n + m, st)
    end.

(** [commitLoop]: the insertions, and the calls of [onleaf] with the value
    and the hash of its node. *)
Definition leaf_value (n : LNode) : go (option bytes) :=
  match n with
  | LShort _ (LValue v) _ => Ret (Some v)
  | LFull cs _ =>
      match cs !! 16%nat with
      | Some LNil | None => Ret None
      | Some (LValue v) => Ret (Some v)
      | Some _ => Halt (GoPanic "interface conversion")
      end
  | _ => Ret None
  end.
Definition commitLoop (db : Database) (ch : list leaf) : go (Database * list (bytes * bytes)) :=
  go_fold (λ r item,
    db ← insert r.1 (leaf_hash item) (leaf_size item) (strip (leaf_node item));
    v ← leaf_value (leaf_node item);
    Ret (db, r.2 ++ match v with Some v => [(v, leaf_hash item)] | None => [] end)) (db, []) ch.

(** [Commit] of the committer. *)
Definition Commit_root (n : LNode) (st : com_state) : go (bytes * Z * com_state) :=
  '(h, committed, st) ← commit_node n st;
  match h with LHash h => Ret (h, committed, st) | _ => Halt (GoPanic "interface conversion") end.

(** *** The trie: [hashRoot], [Hash], [Commit], [Reset] *)
Record LTrie := mkLTrie { lroot : LNode; lunhashed : Z }.
Definition hashRoot (t : LTrie) : Node * LTrie :=
  match lroot t with
  | LNil => (HashNode emptyRoot, t)
  | n => let r := hashc n true in (r.1, mkLTrie r.2 0)
  end.
Definition Hash (t : LTrie) : go (bytes * LTrie) :=
  let '(h, t) := hashRoot t in
  match h with HashNode h => Ret (BytesToHash h, t) | _ => Halt (GoPanic "interface conversion") end.

(** The result: the root hash, how many nodes were committed, the trie, the
    database, the calls of [onleaf] if there is one. *)
Definition Trie_Commit (t : LTrie) (db : Database) (onleaf : bool) : go (bytes * Z * LTrie * Database * list (bytes * bytes)) :=
  match lroot t with
  | LNil => Ret (emptyRoot, 0, t, db, [])
  | _ =>
      '(rootHash, t) ← Hash t;
      '(_, dirty) ← node_cache (lroot t);
      if negb dirty then Ret (rootHash, 0, t, db, [])
      else
        '(h, committed, st) ← Commit_root (lroot t) (mkCom db (if onleaf then Some [] else None));
        '(db, calls) ← match com_ch st with Some ch => commitLoop (com_db st) ch | None => Ret (com_db st, []) end;
        Ret (rootHash, committed, mkLTrie (LHash h) (lunhashed t), db, calls)
  end.
Definition Reset (t : LTrie) : LTrie := mkLTrie LNil 0.

(** ** The hashes a node caches *)

(** A cached hash is that of the node; only the root's is forced. *)
Fixpoint coherent (force : bool) (n : LNode) : Prop :=
  (∀ h, cached_hash n = Some h → hash hashData (strip n) force = HashNode h) ∧
  match n with
  | LFull cs _ => foldr (λ c P, coherent false c ∧ P) True cs
  | LShort _ v _ => coherent false v
  | _ => True
  end.

Lemma coherent_children cs : foldr (λ c P, coherent false c ∧ P) True cs ↔ Forall (coherent false) cs.
Proof. induction cs as [|c cs IH]; simpl; [by rewrite Forall_nil|by rewrite Forall_cons, IH]. Qed.

Definition hashes_well (n : LNode) : Prop := ∀ force, coherent force n →
  (hashc n force).1 = hash hashData (strip n) force ∧ strip (hashc n force).2 = strip n ∧ coherent force (hashc n force).2.

Lemma hashc_children_well cs : ∀ i, Forall hashes_well cs → Forall (coherent false) cs →
  (hashc_children i cs).*1 = hashFullNodeChildren hashData i (map strip cs) ∧
  map strip (hashc_children i cs).*2 = map strip cs ∧ Forall (coherent false) (hashc_children i cs).*2.
Proof.
  induction cs as [|c cs IH]; intros i HF Hc; [done|]. apply Forall_cons in HF as [H1 HF]. apply Forall_cons in Hc as [Hc1 Hc].
  destruct (IH (S i) HF Hc) as (IH1 & IH2 & IH3). destruct (H1 false Hc1) as (E1 & E2 & E3).
  assert (hashc_children i (c :: cs) =
    (if bool_decide (i < 16)%nat then match c with LNil => (ValueNode [], LNil) | _ => hashc c false end else (strip c, c))
      :: hashc_children (S i) cs) as -> by done.
  assert (hashFullNodeChildren hashData i (map strip (c :: cs)) =
    (if bool_decide (i < 16)%nat then match strip c with NilNode => ValueNode [] | _ => hash hashData (strip c) false end else strip c)
      :: hashFullNodeChildren hashData (S i) (map strip cs)) as -> by done.
  set (p := if bool_decide (i < 16)%nat then match c with LNil => (ValueNode [], LNil) | _ => hashc c false end else (strip c, c)).
  assert (p.1 = (if bool_decide (i < 16)%nat then match strip c with NilNode => ValueNode [] | _ => hash hashData (strip c) false end
    else strip c) ∧ strip p.2 = strip c ∧ coherent false p.2) as (F1 & F2 & F3)
    by (unfold p; case_bool_decide; [by destruct c|done]).
  cbn [fmap list_fmap map]. split_and!; [by f_equal|by f_equal|by constructor].
Qed.

Lemma hashc_well n : hashes_well n.
Proof.
  induction n as [|cs fl IH|k v fl IH|h|v] using LNode_nested_ind; intros force Hc; try done.
  - destruct Hc as [Hh Hcs%coherent_children]. cbn [hashc cached_hash] in *. destruct (fHash fl) as [h|] eqn:E.
    { split; [by rewrite (Hh h)|]. split; [done|]. split; [intros h' Hn; apply Hh; cbn in Hn; congruence|]. by apply coherent_children. }
    fold hashc_children. destruct (hashc_children_well cs 0 IH Hcs) as (E1 & E2 & E3).
    change (hash hashData (strip (LFull cs fl)) force) with
      (nodeToHash hashData (FullNode (hashFullNodeChildren hashData 0 (map strip cs))) force).
    rewrite E1. cbn [fst snd strip]. rewrite E2. split_and!; [done|done|]. split; [|by apply coherent_children].
    cbn [cached_hash fHash strip]. intros h Hn. rewrite E2.
    change (hash hashData (FullNode (map strip cs)) force) with
      (nodeToHash hashData (FullNode (hashFullNodeChildren hashData 0 (map strip cs))) force).
    by destruct (nodeToHash _ _ _); simplify_eq/=.
  - destruct Hc as [Hh Hv]. cbn [hashc cached_hash] in *. destruct (fHash fl) as [h|] eqn:E.
    { split; [by rewrite (Hh h)|]. split; [done|]. split; [intros h' Hn; apply Hh; cbn in Hn; congruence|done]. }
    destruct (IH false Hv) as (E1 & E2 & E3).
    set (r := match v with LFull _ _ | LShort _ _ _ => hashc v false | _ => (strip v, v) end).
    assert (r.1 = match strip v with FullNode _ | ShortNode _ _ => hash hashData (strip v) false | _ => strip v end ∧
      strip r.2 = strip v ∧ coherent false r.2) as (F1 & F2 & F3) by (unfold r; by destruct v).
    change (hash hashData (strip (LShort k v fl)) force) with (nodeToHash hashData (ShortNode (compact_of k)
      (match strip v with FullNode _ | ShortNode _ _ => hash hashData (strip v) false | _ => strip v end)) force).
    rewrite F1. cbn [fst snd strip]. rewrite F2. split_and!; [done|done|]. split; [|done].
    cbn [cached_hash fHash strip]. intros h Hn. rewrite F2.
    change (hash hashData (ShortNode k (strip v)) force) with (nodeToHash hashData (ShortNode (compact_of k)
      (match strip v with FullNode _ | ShortNode _ _ => hash hashData (strip v) false | _ => strip v end)) force).
    by destruct (nodeToHash _ _ _); simplify_eq/=.
Qed.
End committer.

(** ** What the committer saves *)

(** A node as its parent sees it, and a node over its children as it sees
    them: where a hash is cached, the hash stands for the node. *)
Fixpoint refd (n : LNode) : Node :=
  match cached_hash n with
  | Some h => HashNode h
  | None =>
      match n with
      | LFull cs _ => FullNode (map refd cs)
      | LShort k v _ => ShortNode k (refd v)
      | n => strip n
      end
  end.
Definition body (n : LNode) : Node :=
  match n with
  | LFull cs _ => FullNode (map refd cs)
  | LShort k v _ => ShortNode k (refd v)
  | n => strip n
  end.
Definition is_dirty (n : LNode) : bool := match n with LFull _ fl | LShort _ _ fl => dirty fl | _ => true end.
Definition is_lvalue (n : LNode) : bool := match n with LValue _ => true | _ => false end.
Definition stored_node (n : LNode) : Prop := match n with LFull _ _ | LShort _ _ _ | LHash _ => True | _ => False end.

(** How many references saving the nodes adds at most. *)
Fixpoint cost (n : LNode) : Z :=
  match cached_hash n with Some _ => len (kids (body n)) | None => 0 end +
  match n with
  | LFull cs _ => foldr (λ c s, cost c + s) 0 cs
  | LShort _ v _ => cost v
  | _ => 0
  end.

Lemma refd_body n : refd n = match cached_hash n with Some h => HashNode h | None => body n end.
Proof. by destruct n. Qed.
Lemma cost_nonneg n : 0 ≤ cost n.
Proof.
  induction n as [|cs fl IH|k v fl IH|h|v] using LNode_nested_ind; cbn [cost]; try done.
  - assert (0 ≤ foldr (λ c s, cost c + s) 0 cs) by (induction IH; simpl; lia).
    destruct (cached_hash _); unfold len; lia.
  - destruct (cached_hash _); unfold len; lia.
Qed.

(** A child of a full node refers to what the node refers to, and the other
    way around. *)
Lemma elem_of_kids_full cs h : h ∈ kids (FullNode cs) → ∃ i c, cs !! i = Some c ∧ (i < 16)%nat ∧ h ∈ kids c.
Proof.
  unfold kids. cbn [collapse raw_of forGatherChildren].
  match goal with |- _ ∈ ?g 0%nat _ → _ => set (go := g) end.
  assert (∀ j, h ∈ go j (map raw_of (map collapse cs)) →
    ∃ i c, cs !! i = Some c ∧ (i + j < 16)%nat ∧ h ∈ forGatherChildren (raw_of (collapse c))) as Hgo; cycle 1.
  { intros (i & c & ? & ? & ?)%Hgo. exists i, c. split_and!; [done|lia|done]. }
  induction cs as [|c cs IH]; intros j; cbn [map go]; [by intros ?%elem_of_nil|].
  intros [Hc|Hc]%elem_of_app.
  - case_bool_decide; [|by apply elem_of_nil in Hc]. by exists 0%nat, c.
  - apply IH in Hc as (i & d & Hi & Hj & Hk). exists (S i), d. split_and!; [done|lia|done].
Qed.

Section saving.
Context `{RL : RLP} `{RLL : !RLPLaws} `{MI : MapIter} `{KV : KeyValueStore} `{KVL : !KeyValueLaws}
  `{FC : FastCache} `{FCL : !FastCacheLaws}.
Variable F : nat.
Variable G : bytes → option Node.
Variable height : bytes → nat.
Hypothesis G_ok : ∀ h x, G h = Some x → wf_node x ∧ has_vals x ∧ length h = 32%nat ∧ h ≠ zero.
Hypothesis G_kids : ∀ h x c, G h = Some x → c ∈ kids x → c ≠ zero ∧ (height c < height h)%nat.
Hypothesis G_closed : ∀ h x c, G h = Some x → c ∈ kids x → is_Some (G c).
Hypothesis height_F : ∀ h, (height h < F)%nat.
Abbreviation inv := (inv G height).
Abbreviation step := (step F G height).

(** A trie that can be saved in [db]: a cached hash is the hash of the node,
    what is clean or not loaded is in the database, and the nodes have the
    form the trie gives them. *)
Fixpoint savable (db : Database) (n : LNode) : Prop :=
  (∀ h, cached_hash n = Some h → G h = Some (body n) ∧ (is_dirty n = false → available db h)) ∧
  match n with
  | LFull cs _ =>
      (∃ cs' sl, cs = cs' ++ [sl] ∧ length cs' = 16%nat ∧ Forall (λ c, is_lvalue c = false) cs' ∧
         (sl = LNil ∨ is_lvalue sl = true)) ∧
      foldr (λ c P, savable db c ∧ P) True cs
  | LShort k v _ => hex_key k ∧ match v with LFull _ _ | LHash _ | LValue _ => True | _ => False end ∧ savable db v
  | LHash h => length h = 32%nat ∧ is_Some (G h) ∧ available db h
  | _ => True
  end.

Lemma savable_children db cs : foldr (λ c P, savable db c ∧ P) True cs ↔ Forall (savable db) cs.
Proof. induction cs as [|c cs IH]; simpl; [by rewrite Forall_nil|by rewrite Forall_cons, IH]. Qed.

(** The database after nodes were inserted. *)
Record grows (db db' : Database) : Prop := mkGrows {
  grows_steps : rtc step db db';
  grows_available : ∀ h, available db h → available db' h
}.
#[local] Instance grows_preorder : PreOrder grows.
Proof. split; [done|]. intros x y z [? ?] [? ?]. split; [by etrans|auto]. Qed.

Lemma savable_grows db db' n : grows db db' → savable db n → savable db' n.
Proof.
  intros [_ Hg]. induction n as [|cs fl IH|k v fl IH|h0|v] using LNode_nested_ind; try done; cbn [savable]; intros [H1 H2];
    (split; [intros h Hh; destruct (H1 h Hh); auto|]).
  - destruct H2 as [H2 H3%savable_children]. split; [done|]. apply savable_children. rewrite Forall_forall in *. auto.
  - naive_solver.
  - naive_solver.
Qed.

(** What saving a node does, [r] being what is left of it: it refers to the
    database for everything that has a hash. *)
Definition saved (n : LNode) (a : Z) (db : Database) (r : LNode) (db' : Database) : Prop :=
  strip r = collapse (refd n) ∧ (∃ s, estimateSize r = Ret s) ∧ grows db db' ∧ (∃ l', inv ∅ [] db' l') ∧
  room a db' ∧ ∀ h, h ∈ kids (refd n) → available db' h.

Lemma kids_hash h : length h = 32%nat → kids (HashNode h) = [h].
Proof. intros ?. unfold kids. simpl. by rewrite BytesToHash_id. Qed.

Lemma saved_hash n h a db db' l :
  cached_hash n = Some h → G h = Some (body n) → grows db db' → inv ∅ [] db' l → room a db' → available db' h →
  saved n a db (LHash h) db'.
Proof.
  intros Hh Hx Hg Hi Hr Ha. unfold saved. destruct (G_ok _ _ Hx) as (_ & _ & Hl & _). rewrite refd_body, Hh, kids_hash by done.
  split_and!; [done|by eexists|done|by exists l|done|]. by intros k ->%list_elem_of_singleton.
Qed.

Lemma store_ok n r db l a s :
  cached_hash r = cached_hash n → stored_node r → is_lhash r = false → strip r = collapse (body n) → estimateSize r = Ret s →
  (∀ h, cached_hash n = Some h → G h = Some (body n)) → inv ∅ [] db l → 0 ≤ a →
  (∀ h, h ∈ kids (body n) → available db h) →
  room (match cached_hash n with Some _ => len (kids (body n)) | None => 0 end + a) db →
  ∃ r' db', store r (mkCom db None) = Ret (r', mkCom db' None) ∧ saved n a db r' db'.
Proof.
  intros Hc Hs Hlh Hr He Hx Hi Ha Hk Hroom. unfold store.
  assert (∃ d, node_cache r = Ret (cached_hash n, d)) as [d ->] by (rewrite <-Hc; destruct r; try done; by eexists).
  cbn [mbind go_bind]. destruct (cached_hash n) as [h|] eqn:Hh.
  2:{ exists r, db. split; [done|]. unfold saved. rewrite refd_body, Hh. split_and!; eauto. reflexivity. }
  specialize (Hx h eq_refl). destruct (G_ok h _ Hx) as (_ & _ & Hlen & _). rewrite He. cbn [mbind go_bind com_ch com_db].
  rewrite BytesToHash_id, Hr by done.
  assert (room (len (kids (body n))) db) as Hroom0 by (intros k e Hke; specialize (Hroom k e Hke); lia).
  destruct (db_insert_ok G height G_ok G_kids db l h s (body n) Hi Hx Hk Hroom0) as (db' & l' & H' & Hi' & _ & Hav & Hm & Hrm).
  rewrite H'. cbn [mbind go_bind]. exists (LHash h), db'. split; [done|]. eapply saved_hash; [done|done| |done|by apply Hrm|done].
  split; [|done]. apply rtc_once. by exists (OpInsert h s (body n)).
Qed.

Definition commits (n : LNode) : Prop := ∀ db l a, savable db n → inv ∅ [] db l → 0 ≤ a → room (cost n + a) db →
  stored_node n → ∃ r k db', commit_node n (mkCom db None) = Ret (r, k, mkCom db' None) ∧ saved n a db r db'.

(** A child of a full node. *)
Definition commitChild (c : LNode) (st : com_state) : go (LNode * Z * com_state) :=
  match c with LNil | LHash _ => Ret (c, 0, st) | _ => commit_node c st end.
Lemma room_weaken a b db : room a db → b ≤ a → room b db.
Proof. intros Hr Hle h e He. specialize (Hr h e He). lia. Qed.

Lemma saved_same n a db l :
  inv ∅ [] db l → room a db → strip n = collapse (refd n) → (∃ s, estimateSize n = Ret s) →
  (∀ h, h ∈ kids (refd n) → available db h) → saved n a db n db.
Proof. intros. unfold saved. split_and!; eauto. reflexivity. Qed.

Lemma commitChild_ok c db l a :
  commits c → savable db c → is_lvalue c = false → inv ∅ [] db l → 0 ≤ a → room (cost c + a) db →
  ∃ r k db', commitChild c (mkCom db None) = Ret (r, k, mkCom db' None) ∧
    (c = LNil ∧ r = LNil ∧ db' = db ∨ c ≠ LNil ∧ r ≠ LNil ∧ saved c a db r db').
Proof.
  intros Hc Hs Hv Hi Ha Hr. destruct c as [|cs fl|k v fl|h|v]; try done.
  - exists LNil, 0, db. split; [done|]. by left.
  - destruct (Hc db l a Hs Hi Ha Hr) as (r & k & db' & H' & Hsv); [done|]. exists r, k, db'. split; [done|]. right.
    split_and!; [done| |done]. intros ->. by destruct Hsv as (_ & [? ?] & _).
  - destruct (Hc db l a Hs Hi Ha Hr) as (r & k' & db' & H' & Hsv); [done|]. exists r, k', db'. split; [done|]. right.
    split_and!; [done| |done]. intros ->. by destruct Hsv as (_ & [? ?] & _).
  - exists (LHash h), 0, db. split; [done|]. right. split_and!; [done..|]. destruct Hs as (_ & Hl & _ & Hav).
    apply (saved_same (LHash h) a db l); [done..|by eexists|]. cbn [refd cached_hash strip]. rewrite kids_hash by done.
    by intros k ->%list_elem_of_singleton.
Qed.
(** The node is clean and has its hash, or it is looked at. *)
Lemma clean_or (fl : nodeFlag) :
  (∃ h, fHash fl = Some h ∧ dirty fl = false) ∨
  ∀ A (x : bytes → A) (y : A), match fHash fl, dirty fl with Some h, false => x h | _, _ => y end = y.
Proof. destruct fl as [[h|] []]; [by right|left; by exists h|by right..]. Qed.

Lemma saved_after n a db db1 r db' : grows db db1 → saved n a db1 r db' → saved n a db r db'.
Proof. intros Hg (H1 & H2 & H3 & H4). split; [done|]. split; [done|]. split; [by etrans|done]. Qed.

(** The loop of [estimateSize] over the children. *)
Lemma estimate_full cs fl :
  Forall (λ c, c = LNil ∨ ∃ s, estimateSize c = Ret s) (take 16 cs) → ∃ s, estimateSize (LFull cs fl) = Ret s.
Proof.
  cbn [estimateSize]. match goal with |- _ → ∃ s, ?g 0%nat cs = _ => set (go := g) end.
  assert (∀ i, Forall (λ c, c = LNil ∨ ∃ s, estimateSize c = Ret s) (take (16 - i) cs) → ∃ s, go i cs = Ret s) as Hgo;
    [|exact (Hgo 0%nat)].
  induction cs as [|c cs IH]; intros i HF; [by eexists|]. cbn [go]. fold go. case_bool_decide as Hi; [|by eexists].
  replace (16 - i)%nat with (S (16 - S i)) in HF by lia. cbn [take] in HF. apply Forall_cons in HF as [Hc HF].
  destruct (IH (S i) HF) as [s ->]. cbn [mbind go_bind]. destruct Hc as [->|[e He]]; [by eexists|].
  rewrite He. cbn [mbind go_bind]. destruct c; by eexists.
Qed.

Lemma commitChildren_ok cs : ∀ i db l a,
  Forall commits cs → Forall (savable db) cs → (∀ j c, cs !! j = Some c → (i + j < 16)%nat → is_lvalue c = false) →
  (∀ j c, cs !! j = Some c → (16 ≤ i + j)%nat → c = LNil ∨ is_lvalue c = true) →
  inv ∅ [] db l → 0 ≤ a → room (foldr (λ c s, cost c + s) 0 cs + a) db →
  ∃ rs k db', commitChildren i cs (mkCom db None) = Ret (rs, k, mkCom db' None) ∧ grows db db' ∧
    (∃ l', inv ∅ [] db' l') ∧ room a db' ∧ map strip rs = map collapse (map refd cs) ∧
    Forall (λ c, c = LNil ∨ ∃ s, estimateSize c = Ret s) (take (16 - i) rs) ∧
    (∀ j c h, cs !! j = Some c → (i + j < 16)%nat → h ∈ kids (refd c) → available db' h).
Proof.
  induction cs as [|c cs IH]; intros i db l a HC HS Hv Hslot Hi Ha Hr.
  { exists [], 0, db. split_and!; try done; [by exists l|by rewrite take_nil]. }
  apply Forall_cons in HC as [Hc HC], HS as [Hs HS]. cbn [foldr] in Hr.
  assert (0 ≤ foldr (λ c s, cost c + s) 0 cs) as Hnn.
  { clear. induction cs as [|c cs IH]; simpl; [lia|]. pose proof (cost_nonneg c). lia. }
  assert (∃ r k db1 l1, (if bool_decide (i < 16)%nat then commitChild c (mkCom db None) else Ret (c, 0, mkCom db None)) =
      Ret (r, k, mkCom db1 None) ∧ grows db db1 ∧ inv ∅ [] db1 l1 ∧ room (foldr (λ c s, cost c + s) 0 cs + a) db1 ∧
      strip r = collapse (refd c) ∧ ((i < 16)%nat → r = LNil ∨ ∃ s, estimateSize r = Ret s) ∧
      ∀ h, (i < 16)%nat → h ∈ kids (refd c) → available db1 h)
    as (r & k & db1 & l1 & H1 & Hg1 & Hi1 & Hr1 & Hst1 & Hes1 & Hk1).
  { case_bool_decide as Hlt.
    - destruct (commitChild_ok c db l (foldr (λ c s, cost c + s) 0 cs + a)) as (r & k & db1 & H1 & Hsv); [done|done| |done|lia| |].
      { apply (Hv 0%nat); [done|lia]. }
      { by rewrite Z.add_assoc. }
      exists r, k, db1. destruct Hsv as [(-> & -> & ->)|(_ & _ & Hst & Hes & Hg & [l1 Hi1] & Hr1 & Hk)].
      + exists l. split_and!; try done; [by left|by intros h _ ?%elem_of_nil].
      + exists l1. split_and!; try done; [by right|by auto].
    - exists c, 0, db, l. pose proof (cost_nonneg c). split_and!; try done; [eapply room_weaken; [exact Hr|lia]|].
      destruct (Hslot 0%nat c) as [->|Hvc]; [done|lia|done|]. by destruct c. }
  destruct (IH (S i) db1 l1 a HC) as (rs & m & db' & H' & Hg' & Hi' & Hr' & Hst' & Hes' & Hk'); [|..|done|done|done|].
  { eapply Forall_impl; [exact HS|]. intros d. by apply savable_grows. }
  { intros j d Hj Hlt. apply (Hv (S j)); [done|lia]. }
  { intros j d Hj Hlt. apply (Hslot (S j)); [done|lia]. }
  exists (r :: rs), (k + m), db'.
  assert (commitChildren i (c :: cs) (mkCom db None) =
    '(c, n, st) ← (if bool_decide (i < 16)%nat then commitChild c (mkCom db None) else Ret (c, 0, mkCom db None));
    '(cs, m, st) ← commitChildren (S i) cs st; Ret (c :: cs, n + m, st)) as -> by done.
  rewrite H1. cbn [mbind go_bind]. rewrite H'. cbn [mbind go_bind]. split_and!; try done; [by etrans| | |].
  - cbn [map]. by rewrite Hst1, Hst'.
  - destruct (decide (i < 16)%nat) as [Hlt|]; [|by replace (16 - i)%nat with 0%nat by lia].
    replace (16 - i)%nat with (S (16 - S i)) by lia. constructor; auto.
  - intros [|j] d h Hd Hlt Hh; [injection Hd as <-; apply Hg', Hk1; [lia|done]|].
    apply (Hk' j d); [done|lia|done].
Qed.

(** A clean node is there already. *)
Lemma clean_saved n h db l a :
  cached_hash n = Some h → is_dirty n = false → savable db n → inv ∅ [] db l → room (cost n + a) db →
  ∃ r k db', Ret (LHash h, 0, mkCom db None) = Ret (r, k, mkCom db' None) ∧ saved n a db r db'.
Proof.
  intros Hc Hd Hs Hi Hr.
  assert (G h = Some (body n) ∧ available db h) as [Hx Hav] by (destruct n; try done; destruct Hs as [Hh _]; naive_solver).
  exists (LHash h), 0, db. split; [done|]. eapply saved_hash; [done..|reflexivity|done| |done].
  eapply room_weaken; [done|]. pose proof (cost_nonneg n). lia.
Qed.

Lemma commit_full_ok cs fl : Forall commits cs → commits (LFull cs fl).
Proof.
  intros IH db l a Hs Hi Ha Hr Hst. pose proof Hs as Hs0.
  destruct Hs as [Hh [(cs' & sl & Hcs & Hlen & Hnv & Hsl) Hsc%savable_children]].
  cbn [commit_node node_cache mbind go_bind]. fold commitChildren.
  pose proof (Hh : ∀ h, fHash fl = Some h → _) as Hh'. cbn [is_dirty] in Hh'.
  destruct (clean_or fl) as [(h & Hf & Hd)|Hm]; [rewrite Hf, Hd; by apply (clean_saved _ h db l)|].
  rewrite Hm. clear Hm.
  destruct (commitChildren_ok cs 0 db l (match fHash fl with Some _ => len (kids (body (LFull cs fl))) | None => 0 end + a))
    as (rs & k & db1 & H1 & Hg1 & [l1 Hi1] & Hr1 & Hst1 & Hes1 & Hk1); [done..| | |done| | |].
  { intros j c Hj Hlt. rewrite Hcs, lookup_app_l in Hj by lia. by apply (proj1 (Forall_lookup _ _) Hnv j c). }
  { intros j c Hj Hge. rewrite Hcs, lookup_app_r in Hj by lia. destruct (j - length cs')%nat; [by injection Hj as <-|done]. }
  { destruct (fHash fl); [unfold len|]; lia. }
  { eapply room_weaken; [exact Hr|]. cbn [cost cached_hash]. lia. }
  rewrite H1. cbn [mbind go_bind].
  destruct (estimate_full rs fl Hes1) as [s Hs].
  destruct (store_ok (LFull cs fl) (LFull rs fl) db1 l1 a s) as (r & db' & H2 & Hsv); [done..| |done| |done|done| |exact Hr1|].
  { cbn [strip body collapse]. by rewrite Hst1. }
  { intros h Hf. by apply Hh'. }
  { intros h (i & c & Hc & Hlt & Hk)%elem_of_kids_full. rewrite list_lookup_fmap in Hc.
    destruct (cs !! i) as [c'|] eqn:Hci; [injection Hc as <-|done]. by apply (Hk1 i c' h). }
  rewrite H2. cbn [mbind go_bind]. eexists _, _, db'. split; [done|]. by eapply saved_after.
Qed.

Lemma commit_short_ok k v fl : commits v → commits (LShort k v fl).
Proof.
  intros IH db l a Hs Hi Ha Hr Hst. pose proof Hs as Hs0.
  destruct Hs as [Hh (Hkey & Hkind & Hsv)]. cbn [commit_node node_cache mbind go_bind].
  pose proof (Hh : ∀ h, fHash fl = Some h → _) as Hh'. cbn [is_dirty] in Hh'.
  destruct (clean_or fl) as [(h & Hf & Hd)|Hm]; [rewrite Hf, Hd; by apply (clean_saved _ h db l)|].
  rewrite Hm. clear Hm.
  set (b := match fHash fl with Some _ => len (kids (body (LShort k v fl))) | None => 0 end + a).
  assert (0 ≤ b) as Hb by (unfold b; destruct (fHash fl); [unfold len|]; lia).
  assert (room (cost v + b) db) as Hrv by (eapply room_weaken; [exact Hr|]; cbn [cost cached_hash]; lia).
  assert (∃ r m db1, match v with LFull _ _ => commit_node v (mkCom db None) | _ => Ret (v, 0, mkCom db None) end =
    Ret (r, m, mkCom db1 None) ∧ saved v b db r db1) as (r & m & db1 & H1 & Hs1 & [s Hes] & Hg1 & [l1 Hi1] & Hr1 & Hk1).
  { destruct v as [|cs fl'|k' v' fl'|h|v']; try done.
    - by apply (IH db l b).
    - eexists _, _, db. split; [done|]. destruct Hsv as (_ & Hl & _ & Hav). eapply saved_same; [done| |done|by eexists|].
      + eapply room_weaken; [done|]. pose proof (cost_nonneg (LHash h)). lia.
      + cbn [refd cached_hash strip]. rewrite kids_hash by done. by intros k' ->%list_elem_of_singleton.
    - eexists _, _, db. split; [done|]. eapply saved_same; [done| |done|by eexists|by intros ? ?%elem_of_nil].
      eapply room_weaken; [done|]. pose proof (cost_nonneg (LValue v')). lia. }
  rewrite H1. cbn [mbind go_bind]. destruct (hexToCompact_inverse k Hkey) as (c & Hc & _ & _).
  rewrite Hc. cbn [mbind go_bind].
  destruct (store_ok (LShort k v fl) (LShort c r fl) db1 l1 a (3 + len c + s)) as (r' & db' & H2 & Hsv'); [done..| | | |done|done| |exact Hr1|].
  { cbn [strip body collapse]. unfold compact_of. by rewrite Hc, Hs1. }
  { cbn [estimateSize]. by rewrite Hes. }
  { intros h Hf. by apply Hh'. }
  { intros h. exact (Hk1 h). }
  rewrite H2. cbn [mbind go_bind]. eexists _, _, db'. split; [done|]. by eapply saved_after.
Qed.

Lemma commit_node_ok n : commits n.
Proof.
  induction n as [|cs fl IH|k v fl IH|h|v] using LNode_nested_ind; [by intros ? ? ? ? ? ? ?|by apply commit_full_ok|by apply commit_short_ok| |by intros ? ? ? ? ? ? ?].
  intros db l a Hs Hi Ha Hr Hst. exists (LHash h), 0, db. split; [done|]. destruct Hs as (_ & Hl & _ & Hav).
  apply (saved_same (LHash h) a db l); [done..|by eexists|]. cbn [refd cached_hash strip]. rewrite kids_hash by done.
  by intros k ->%list_elem_of_singleton.
Qed.
(** ** What is saved reads as it was *)
Lemma refd_of_body db l n e :
  inv ∅ [] db l → (∀ h, cached_hash n = Some h → G h = Some (body n) ∧ inner (body n)) →
  (∀ h, h ∈ kids (refd n) → available db h) →
  ((∀ h, h ∈ kids (body n) → available db h) → expands (DB := db_store db) (body n) e) →
  expands (DB := db_store db) (refd n) e.
Proof.
  intros Hi Hh Ha He. rewrite refd_body in *. destruct (cached_hash n) as [h|]; [|by apply He].
  destruct (Hh h eq_refl) as [Hx Hin]. destruct (G_ok h _ Hx) as (_ & _ & Hl & _).
  assert (available db h) as Hah by (apply Ha; rewrite kids_hash by done; by left).
  econstructor; [rewrite BytesToHash_id by done; by eapply (db_store_available G height)|done|].
  apply He. intros k. by apply (available_kids G height G_ok db l h).
Qed.

Lemma refd_expands db1 l1 db2 l2 n : inv ∅ [] db1 l1 → inv ∅ [] db2 l2 → savable db2 n → ∀ e,
  expands (DB := db_store db1) (strip n) e → (∀ h, h ∈ kids (refd n) → available db2 h) →
  expands (DB := db_store db2) (refd n) e.
Proof.
  intros Hi1 Hi2. induction n as [|cs fl IH|k v fl IH|h|v] using LNode_nested_ind; intros Hs e He Ha.
  - inversion He; subst. constructor.
  - destruct Hs as [Hh [(cs' & sl & Hcs & Hlen & _ & Hsl) Hsc%savable_children]]. inversion He as [| |? es HF| |]; subst e.
    apply (refd_of_body db2 l2 (LFull cs fl)); [done|intros h Hf; by destruct (Hh h Hf)|done|]. intros Hk. constructor.
    apply Forall2_same_length_lookup_2; [rewrite length_fmap; apply Forall2_length in HF; by rewrite length_map in HF|].
    intros i r e Hr Hei. rewrite list_lookup_fmap in Hr. destruct (cs !! i) as [c|] eqn:Hci; [injection Hr as <-|done].
    apply (proj1 (Forall_lookup _ _) IH i c Hci); [by apply (proj1 (Forall_lookup _ _) Hsc i c Hci)| |].
    { eapply (Forall2_lookup_lr _ _ _ i); [exact HF| |done]. by rewrite list_lookup_fmap, Hci. }
    destruct (decide (i < 16)%nat) as [Hlt|].
    + intros h Hk'. apply Hk. eapply kids_full; [|done|done]. by rewrite list_lookup_fmap, Hci.
    + rewrite Hcs, lookup_app_r in Hci by lia. destruct (i - length cs')%nat; [injection Hci as <-|done].
      intros h. destruct Hsl as [->|Hsl]; [by intros ?%elem_of_nil|]. destruct sl; try done. by intros ?%elem_of_nil.
  - destruct Hs as [Hh (_ & _ & Hv)]. inversion He as [| | |? ? e' Hve|]; subst.
    apply (refd_of_body db2 l2 (LShort k v fl)); [done|intros h Hf; by destruct (Hh h Hf)|done|]. intros Hk. constructor.
    by apply IH.
  - destruct Hs as (_ & Hl & HG & Hav). by apply (root_stable F G height G_ok G_kids G_closed height_F db1 l1 db2 l2).
  - inversion He; subst. constructor.
Qed.
End saving.

(** ** With a callback

    The nodes go through a channel, and [commitLoop] inserts them. *)
Section channel.
Context `{RL : RLP} `{MI : MapIter} `{KV : KeyValueStore} `{FC : FastCache}.

(** The slot of a full node is empty or has a value. *)
Definition slot_ok (cs : list LNode) : Prop :=
  match cs !! 16%nat with Some LNil | Some (LValue _) | None => True | Some _ => False end.
Fixpoint slots_ok (n : LNode) : Prop :=
  match n with
  | LFull cs _ => slot_ok cs ∧ foldr (λ c P, slots_ok c ∧ P) True cs
  | LShort _ v _ => slots_ok v
  | _ => True
  end.

Definition queues (db db' : Database) (ch : list leaf) : Prop := ∃ calls, commitLoop db ch = Ret (db', calls).

(** What [f] does to the database without a channel, the loop does with what
    [f] sends on one. *)
Definition mirrors {A} (f : com_state → go (A * com_state)) : Prop := ∀ db a st, f (mkCom db None) = Ret (a, st) →
  ∃ db' items, st = mkCom db' None ∧ queues db db' items ∧
    ∀ db0 ch, f (mkCom db0 (Some ch)) = Ret (a, mkCom db0 (Some (ch ++ items))).

Lemma commitLoop_calls ch : ∀ db calls0 db' calls, commitLoop db ch = Ret (db', calls) →
  go_fold (λ r item,
    db ← insert r.1 (leaf_hash item) (leaf_size item) (strip (leaf_node item));
    v ← leaf_value (leaf_node item);
    Ret (db, r.2 ++ match v with Some v => [(v, leaf_hash item)] | None => [] end)) (db, calls0) ch = Ret (db', calls0 ++ calls).
Proof.
  unfold commitLoop. induction ch as [|it ch IH] using rev_ind; intros db calls0 db' calls.
  - intros [= <- <-]. by rewrite app_nil_r.
  - rewrite !go_fold_app, !go_bind_Ret. intros ([db1 c1] & H1 & H2). exists (db1, calls0 ++ c1).
    split; [by apply IH|]. cbn [go_fold] in *. rewrite !go_bind_Ret in *. destruct H2 as (r2 & (db2 & Hi & H2)%go_bind_Ret & [= ->]).
    apply go_bind_Ret in H2 as (v & Hv & [= <- <-]). eexists. split; [|done]. cbn [fst snd] in *. rewrite Hi. cbn [mbind go_bind].
    rewrite Hv. cbn [mbind go_bind]. by rewrite app_assoc.
Qed.
Lemma queues_app db1 db2 db3 a b : queues db1 db2 a → queues db2 db3 b → queues db1 db3 (a ++ b).
Proof.
  intros [c1 H1] [c2 H2]. exists (c1 ++ c2). unfold commitLoop in *. rewrite go_fold_app, H1. cbn [mbind go_bind].
  by apply commitLoop_calls.
Qed.

Lemma mirrors_ret {A} (a : A) : mirrors (λ st, Ret (a, st)).
Proof. intros db a' st [= <- <-]. exists db, []. split; [done|]. split; [by exists []|]. intros. by rewrite app_nil_r. Qed.
Lemma mirrors_halt {A} e : mirrors (λ st, Halt e : go (A * com_state)).
Proof. by intros db a st [=]. Qed.
Lemma mirrors_bind {A B} (f : com_state → go (A * com_state)) (g : A → com_state → go (B * com_state)) :
  mirrors f → (∀ a st st', f st = Ret (a, st') → mirrors (g a)) → mirrors (λ st, f st ≫= λ r, g r.1 r.2).
Proof.
  intros Hf Hg db b st ([a st1] & H1 & H2)%go_bind_Ret. destruct (Hf db a st1 H1) as (db1 & i1 & -> & Hq1 & Hc1).
  destruct (Hg _ _ _ H1 db1 b st H2) as (db2 & i2 & -> & Hq2 & Hc2). exists db2, (i1 ++ i2). split; [done|].
  split; [by eapply queues_app|]. intros db0 ch. rewrite Hc1. cbn [mbind go_bind fst snd]. by rewrite Hc2, app_assoc.
Qed.
Lemma mirrors_ext {A} (f g : com_state → go (A * com_state)) : (∀ st, f st = g st) → mirrors f → mirrors g.
Proof.
  intros Heq Hf db a st Hg. rewrite <-Heq in Hg. destruct (Hf db a st Hg) as (db' & i & ? & ? & Hc). exists db', i.
  split_and!; [done..|]. intros. by rewrite <-Heq.
Qed.

Lemma store_mirrors n : (∃ v, leaf_value n = Ret v) → mirrors (store n).
Proof.
  intros [v Hv] db a st. unfold store. destruct (node_cache n) as [[hash d]|] eqn:Ec; [|done]. cbn [mbind go_bind].
  destruct hash as [h|]; [|intros [= <- <-]; exists db, []; split; [done|]; split; [by exists []|intros; by rewrite app_nil_r]].
  destruct (estimateSize n) as [sz|] eqn:Es; [|done]. cbn [mbind go_bind com_ch com_db]. intros (x & Hx & [= <- <-])%go_bind_Ret.
  exists x, [mkLeaf sz (BytesToHash h) n]. split; [done|]. split; [|done]. eexists. unfold commitLoop. cbn [go_fold fst leaf_hash leaf_size leaf_node].
  rewrite Hx. cbn [mbind go_bind]. by rewrite Hv.
Qed.

Lemma store_result_mirrors n k :
  (∃ v, leaf_value n = Ret v) → mirrors (λ st, r ← store n st; Ret (stored_result r k)).
Proof.
  intros Hv. eapply mirrors_ext;
    [|apply (mirrors_bind _ (λ a st, Ret ((a, if is_lhash a then k + 1 else k), st)) (store_mirrors n Hv)); intros; apply mirrors_ret].
  intros st. cbn beta. by destruct (store n st) as [[]|].
Qed.

Lemma commitChildren_mirrors cs : ∀ i,
  Forall (λ c, slots_ok c → mirrors (commit_node c)) cs → foldr (λ c P, slots_ok c ∧ P) True cs → mirrors (commitChildren i cs).
Proof.
  induction cs as [|c cs IH]; intros i HF Hs; [by eapply mirrors_ext, mirrors_ret|].
  apply Forall_cons in HF as [Hc HF]. destruct Hs as [Hs1 Hs].
  assert (mirrors (λ st, if bool_decide (i < 16)%nat then
    match c with LNil | LHash _ => Ret (c, 0, st) | _ => commit_node c st end else Ret (c, 0, st))) as H1.
  { case_bool_decide; [|apply mirrors_ret]. specialize (Hc Hs1). destruct c; (apply mirrors_ret || exact Hc). }
  eapply mirrors_ext; [|apply (mirrors_bind _ (λ x st, '(cs, m, st) ← commitChildren (S i) cs st; Ret (x.1 :: cs, x.2 + m, st)) H1)].
  - intros st. cbn [commitChildren]. fold commitChildren. cbn beta. by destruct (if bool_decide _ then _ else _) as [[[]]|].
  - intros x _ _ _. eapply mirrors_ext;
      [|apply (mirrors_bind _ (λ y st, Ret ((x.1 :: y.1, x.2 + y.2), st)) (IH (S i) HF Hs)); intros; apply mirrors_ret].
    intros st. cbn beta. by destruct (commitChildren (S i) cs st) as [[[]]|].
Qed.

(** The slot is not touched. *)
Lemma commitChildren_slot cs : ∀ i st rs k st' j, commitChildren i cs st = Ret ((rs, k), st') → (16 ≤ i + j)%nat → rs !! j = cs !! j.
Proof.
  induction cs as [|c cs IH]; intros i st rs k st' j; cbn [commitChildren]; [by intros [= <- _ _]|]. fold commitChildren.
  intros ([[r n] st1] & H1 & ([[rs' m] st2] & H2 & [= <- _ _])%go_bind_Ret)%go_bind_Ret Hj.
  destruct j as [|j]; [rewrite bool_decide_false in H1 by lia; by injection H1 as <-|].
  apply (IH _ _ _ _ _ j H2). lia.
Qed.

Lemma commit_mirrors n : slots_ok n → mirrors (commit_node n).
Proof.
  induction n as [|cs fl IH|k v fl IH|h|v] using LNode_nested_ind; intros Hs.
  - by intros db a st [=].
  - destruct Hs as [Hslot Hsc]. pose proof (commitChildren_mirrors cs 0 IH Hsc) as H1.
    destruct (clean_or fl) as [(h & Hf & Hd)|Hm].
    { eapply mirrors_ext; [|apply (mirrors_ret (LHash h, 0))]. intros st. cbn [commit_node node_cache mbind go_bind]. by rewrite Hf, Hd. }
    eapply mirrors_ext; [|apply (mirrors_bind _ (λ x st, r ← store (LFull x.1 fl) st; Ret (stored_result r x.2)) H1)].
    + intros st. cbn [commit_node node_cache mbind go_bind]. fold commitChildren. rewrite Hm. by destruct (commitChildren 0 cs st) as [[[]]|].
    + intros [rs m] st st' Hr. apply store_result_mirrors. cbn [leaf_value fst]. rewrite (commitChildren_slot _ _ _ _ _ _ 16 Hr) by lia.
      unfold slot_ok in Hslot. destruct (cs !! 16%nat) as [[]|]; try done; by eexists.
  - specialize (IH Hs). destruct (clean_or fl) as [(h & Hf & Hd)|Hm].
    { eapply mirrors_ext; [|apply (mirrors_ret (LHash h, 0))]. intros st. cbn [commit_node node_cache mbind go_bind]. by rewrite Hf, Hd. }
    assert (mirrors (λ st, match v with LFull _ _ => commit_node v st | _ => Ret (v, 0, st) end)) as H1
      by (destruct v; (apply mirrors_ret || exact IH)).
    eapply mirrors_ext; [|apply (mirrors_bind _ (λ x st, k ← hexToCompact k; r ← store (LShort k x.1 fl) st; Ret (stored_result r x.2)) H1)].
    + intros st. cbn [commit_node node_cache mbind go_bind]. rewrite Hm. by destruct (match v with LFull _ _ => _ | _ => _ end) as [[[]]|].
    + intros [r m] _ _ _. cbn [fst snd]. destruct (hexToCompact k) as [c|]; [|apply mirrors_halt]. cbn [mbind go_bind].
      apply store_result_mirrors. destruct r; by eexists.
  - apply (mirrors_ret (LHash h, 0)).
  - by intros db a st [=].
Qed.
End channel.

(** ** The theorems *)
Section theorems.
Context `{RL : RLP} `{RLL : !RLPLaws} `{MI : MapIter} `{KV : KeyValueStore} `{KVL : !KeyValueLaws}
  `{FC : FastCache} `{FCL : !FastCacheLaws}.
Variable hashData : bytes → bytes.
Variable emptyRoot : bytes.

(** The hash of the root is cached after [Hash]. *)
Lemma hashc_forced n : (∃ h, n = LHash h) ∨ (match n with LFull _ _ | LShort _ _ _ => True | _ => False end) →
  ∃ h, (hashc hashData n true).1 = HashNode h ∧ stored_node (hashc hashData n true).2 ∧
    refd (hashc hashData n true).2 = HashNode h.
Proof.
  intros [[h ->]|Hn]; [by exists h|]. destruct n as [|cs fl|k v fl|h|v]; try done; cbn [hashc cached_hash];
    (destruct (fHash fl) as [h|] eqn:E; [exists h; split_and!; [done|done|]; cbn [refd cached_hash snd]; by rewrite E|]);
    unfold nodeToHash; rewrite andb_false_r; by eexists.
Qed.

Lemma strip_hash r h : strip r = HashNode h → r = LHash h.
Proof. destruct r; simpl; congruence. Qed.

Variable F : nat.
Variable G : bytes → option Node.
Variable height : bytes → nat.
Hypothesis G_ok : ∀ h x, G h = Some x → wf_node x ∧ has_vals x ∧ length h = 32%nat ∧ h ≠ zero.
Hypothesis G_kids : ∀ h x c, G h = Some x → c ∈ kids x → c ≠ zero ∧ (height c < height h)%nat.
Hypothesis G_closed : ∀ h x c, G h = Some x → c ∈ kids x → is_Some (G c).
Hypothesis height_F : ∀ h, (height h < F)%nat.

(** The trie with its hashes. *)
Abbreviation hashed t := (hashc hashData (lroot t) true).2.

Lemma savable_root db n h : stored_node n → savable G db n → refd n = HashNode h → length h = 32%nat ∧ is_Some (G h).
Proof.
  rewrite refd_body. intros Hst Hs Hr. destruct n as [|cs fl|k v fl|h'|v]; try done; cbn [cached_hash body strip] in Hr.
  - destruct Hs as [Hs _]. destruct (fHash fl) as [h'|] eqn:E; [|done]. injection Hr as ->.
    destruct (Hs h) as [Hx _]; [done|]. split; [by apply (G_ok h _ Hx)|eauto].
  - destruct Hs as [Hs _]. destruct (fHash fl) as [h'|] eqn:E; [|done]. injection Hr as ->.
    destruct (Hs h) as [Hx _]; [done|]. split; [by apply (G_ok h _ Hx)|eauto].
  - injection Hr as ->. by destruct Hs as (_ & ? & ? & _).
Qed.

(** A node that is not dirty is in the database, and saving it does
    nothing. *)
Lemma commit_clean n h db : stored_node n → refd n = HashNode h → is_dirty n = false →
  commit_node n (mkCom db None) = Ret (LHash h, 0, mkCom db None).
Proof.
  intros Hst Hr Hd. destruct n as [|cs fl|k v fl|h'|v]; try done; cbn [refd cached_hash is_dirty] in *;
    destruct (fHash fl) as [h'|] eqn:E; simplify_eq; cbn [commit_node node_cache mbind go_bind]; by rewrite E, Hd.
Qed.

(** [Commit] of a trie without a callback. *)
Lemma Trie_Commit_ok t db l :
  inv G height ∅ [] db l → stored_node (lroot t) → savable G db (hashed t) → room (cost (hashed t)) db →
  ∃ h k t' db' l', Trie_Commit hashData emptyRoot t db false = Ret (h, k, t', db', []) ∧
    (hashc hashData (lroot t) true).1 = HashNode h ∧ is_Some (G h) ∧ h ≠ zero ∧
    refd (hashed t) = HashNode h ∧ grows F G height db db' ∧ inv G height ∅ [] db' l' ∧
    savable G db' (hashed t) ∧ available db' h.
Proof.
  intros Hi Hst Hs Hr.
  destruct (hashc_forced (lroot t)) as (h & Hh & Hst2 & Hrf); [destruct (lroot t); naive_solver|].
  destruct (savable_root db _ h Hst2 Hs Hrf) as [Hl [x Hx]]. destruct (G_ok h x Hx) as (_ & _ & _ & Hz).
  assert (∃ h', node_cache (hashed t) = Ret (h', is_dirty (hashed t))) as [h' Hc] by (destruct (hashed t); try done; by eexists).
  assert (Hash hashData emptyRoot t = Ret (h, mkLTrie (hashed t) 0)) as HH.
  { unfold Hash, hashRoot. destruct (lroot t); try done; rewrite Hh; by rewrite BytesToHash_id. }
  destruct (commit_node_ok F G height G_ok G_kids (hashed t) db l 0) as (r & k & db' & Hcm & Hsv); [done..|by rewrite Z.add_0_r|done|].
  pose proof Hsv as (Hstr & _ & Hg & [l' Hi'] & _ & Hav). rewrite Hrf in Hstr, Hav. apply strip_hash in Hstr as ->.
  rewrite kids_hash in Hav by done.
  assert (Trie_Commit hashData emptyRoot t db false =
    if negb (is_dirty (hashed t)) then Ret (h, 0, mkLTrie (hashed t) 0, db, [])
    else Ret (h, k, mkLTrie (LHash h) 0, db', [])) as ->.
  { assert (∀ A (x y : A), match lroot t with LNil => x | _ => y end = y) as Hnn by (intros; by destruct (lroot t)).
    unfold Trie_Commit. rewrite Hnn, HH. cbn [mbind go_bind lroot lunhashed]. rewrite Hc. cbn [mbind go_bind].
    destruct (is_dirty _); [|done]. cbn [negb]. unfold Commit_root. by rewrite Hcm. }
  destruct (is_dirty (hashed t)) eqn:Hd; cbn [negb].
  - exists h, k, (mkLTrie (LHash h) 0), db', l'. split_and!; try done; [by eapply savable_grows|apply Hav; by left].
  - rewrite (commit_clean _ h db Hst2 Hrf Hd) in Hcm. injection Hcm as _ <-.
    exists h, 0, (mkLTrie (hashed t) 0), db, l. split_and!; try done; apply Hav; by left.
Qed.

(** C7. From memory to disk and back: [Commit] of a trie returns the Merkle
    root of the trie and leaves its nodes in the database; once [Commit] of
    the database for that root reports no error, a database opened on that
    disk gives, with [New], a trie that holds the same entries.  So does the
    database before. *)
Theorem commit_reopen d db t m :
  disk_ok G d → rtc (step F G height) (NewDatabase d) db → G emptyRoot = None →
  stored_node (lroot t) → coherent hashData true (lroot t) →
  savable G db (hashed t) → room (cost (hashed t)) db →
  holds (DB := db_store db) (mkTrie (strip (lroot t)) 0) m →
  ∃ h k t' db', Trie_Commit hashData emptyRoot t db false = Ret (h, k, t', db', []) ∧
    hash hashData (strip (lroot t)) true = HashNode h ∧ rtc (step F G height) db db' ∧
    (∃ t2, New (DB := db_store db') emptyRoot h = inr t2 ∧ holds (DB := db_store db') t2 m) ∧
    ∀ db2 calls, NodeDB.Commit F db' h = Ret (db2, calls, true) →
      ∃ t2, New (DB := db_store (NewDatabase (diskdb db2))) emptyRoot h = inr t2 ∧
        holds (DB := db_store (NewDatabase (diskdb db2))) t2 m.
Proof.
  intros Hd Hsteps HGe Hst Hco Hs Hr (e & He & Hent).
  destruct (steps_inv F G height G_ok G_kids height_F _ _ _ Hsteps (inv_open G height d Hd)) as [l Hi].
  destruct (Trie_Commit_ok t db l) as (h & k & t' & db' & l' & HC & Hh & HG & Hz & Hrf & Hg & Hi' & Hs' & Hav); [done..|].
  destruct (hashc_well hashData (lroot t) true Hco) as (E1 & E2 & _).
  exists h, k, t', db'. split; [done|]. split; [by rewrite <-E1|]. split; [apply Hg|].
  assert (∀ S : NodeStore, expands (DB := S) (HashNode h) e → ∃ t2, New (DB := S) emptyRoot h = inr t2 ∧ holds (DB := S) t2 m) as Hopen.
  { intros S HS. unfold New. rewrite bool_decide_true by (split; [done|intros ->; destruct HG; congruence]).
    inversion HS as [| | | |? n ? Hn _ Hne]; subst. unfold resolveHash. rewrite Hn. eexists. split; [done|]. by exists e. }
  assert (expands (DB := db_store db') (HashNode h) e) as Hex.
  { rewrite <-Hrf. apply (refd_expands F G height G_ok G_kids G_closed height_F db l db' l'); [done..|by rewrite E2|].
    rewrite Hrf, kids_hash; [by intros ? ->%list_elem_of_singleton|]. destruct HG as [x Hx]. by apply (G_ok h x Hx). }
  split; [by apply Hopen|]. intros db2 calls Hc2. apply Hopen.
  by apply (commit_reads F G height G_ok G_kids G_closed height_F db' l' h e db2 calls).
Qed.
End theorems.

(** A callback changes nothing in the database: with [onleaf], where the
    nodes go through the channel to [commitLoop], [Commit] gives the same
    root, number of nodes, trie and database as without. *)
Theorem commit_channel `{RL : RLP} `{MI : MapIter} `{KV : KeyValueStore} `{FC : FastCache} (hashData : bytes → bytes)
    (emptyRoot : bytes) (t : LTrie) (db : Database) h k t' db' calls0 :
  slots_ok (hashc hashData (lroot t) true).2 →
  Trie_Commit hashData emptyRoot t db false = Ret (h, k, t', db', calls0) →
  ∃ calls, Trie_Commit hashData emptyRoot t db true = Ret (h, k, t', db', calls).
Proof.
  intros Hs. unfold Trie_Commit.
  assert (lroot t = LNil ∨ ∀ A (x y : A), match lroot t with LNil => x | _ => y end = y) as [->|Hnn]
    by (destruct (lroot t); auto); [intros [= <- <- <- <- <-]; by eexists|].
  rewrite !Hnn. destruct (Hash hashData emptyRoot t) as [[h1 t1]|] eqn:HH; [|done].
  assert (lroot t1 = (hashc hashData (lroot t) true).2) as Ht1.
  { unfold Hash, hashRoot in HH. destruct (lroot t); [by specialize (Hnn bool true false)|..];
      destruct (hashc _ _ _) as [[] ?]; simplify_eq/=; done. }
  rewrite <-Ht1 in Hs. clear Ht1 HH Hnn. cbn [mbind go_bind]. destruct (node_cache (lroot t1)) as [[o d]|]; [|done]. cbn [mbind go_bind].
  destruct d; cbn [negb]; [|intros [= <- <- <- <- <-]; by eexists]. unfold Commit_root.
  destruct (commit_node (lroot t1) (mkCom db None)) as [[[c m] st]|] eqn:Hc; [|done].
  destruct (commit_mirrors (lroot t1) Hs db _ _ Hc) as (db1 & items & -> & [calls Hq] & Hch). rewrite Hch.
  cbn [mbind go_bind]. destruct c; cbn [mbind go_bind]; try done. cbn [com_ch com_db mbind go_bind].
  intros [= <- <- <- <- <-]. cbn [app]. rewrite Hq. by eexists.
Qed.

(** ** An instance: the branch of [DemoDB], in memory *)
Module DemoCommit.
Import DemoDB.
#[local] Existing Instances canonical_iter demo_kv demo_kv_laws demo_cache demo_cache_laws.
Abbreviation fresh := (mkFlag None true).
Definition lleaf : LNode := LShort (replicate 5 1 ++ [16]) (LValue (replicate 40 3)) fresh.
Definition lbranch : LNode := LFull (<[3%nat := lleaf]> (<[8%nat := lleaf]> (replicate 17 LNil))) fresh.
Definition hashData (b : bytes) : bytes := if decide (b = wire leaf) then leaf_hash else root_hash.
Definition t : LTrie := mkLTrie lbranch 2.
Definition ops : list (bytes * bytes) := [([49; 17; 17], replicate 40 3); ([129; 17; 17], replicate 40 3)].
Definition m : gmap bytes bytes := foldl map_update ∅ ops.

Lemma t_hashed : (hashc hashData (lroot t) true).2 =
  LFull (<[3%nat := LShort (replicate 5 1 ++ [16]) (LValue (replicate 40 3)) (mkFlag (Some leaf_hash) true)]>
    (<[8%nat := LShort (replicate 5 1 ++ [16]) (LValue (replicate 40 3)) (mkFlag (Some leaf_hash) true)]> (replicate 17 LNil)))
    (mkFlag (Some root_hash) true).
Proof. by vm_compute. Qed.
Lemma t_entries : entries loaded m.
Proof.
  assert (holds (DB := no_store) (mkTrie NilNode 0) ∅) as H0
    by (exists NilNode; split; [constructor|apply entries_nil]).
  destruct (updates_ok (DB := no_store) ops (mkTrie NilNode 0) ∅ H0) as (t' & Ht & e & He & Hent).
  { repeat constructor; unfold in_u8; lia. }
  apply expands_no_store in He as <-.
  assert (root t' = loaded) as <-; [|done].
  assert (match updates (DB := no_store) (mkTrie NilNode 0) ops with Ret t' => root t' | Halt _ => NilNode end = loaded) as Hl
    by (by vm_compute). by rewrite Ht in Hl.
Qed.
Lemma t_holds_m S : holds (DB := S) (mkTrie (strip (lroot t)) 0) m.
Proof.
  exists loaded. split; [|apply t_entries]. change (strip (lroot t)) with loaded. constructor.
  do 2 (apply Forall2_insert; [|repeat constructor]). apply Forall2_replicate. constructor.
Qed.
Lemma t_savable : savable G (NewDatabase ∅) (hashc hashData (lroot t) true).2.
Proof.
  rewrite t_hashed.
  assert (savable G (NewDatabase ∅) (LShort (replicate 5 1 ++ [16]) (LValue (replicate 40 3)) (mkFlag (Some leaf_hash) true))) as Hl.
  { split; [by intros h [= <-]|]. split; [|split; [done|split; [by intros h|done]]].
    exists (replicate 5 1). split; [apply Forall_replicate; by unfold nibble|by right]. }
  split; [by intros h [= <-]|]. split.
  - eexists (<[3%nat := _]> (<[8%nat := _]> (replicate 16 LNil))), LNil. split_and!; [by vm_compute|done| |by left]. repeat constructor.
  - apply savable_children. do 2 (apply Forall_insert; [|done]). apply Forall_replicate. split; [by intros h|done].
Qed.
End DemoCommit.

Lemma commit_reopen_witness :
  ∃ h k t' db', Trie_Commit DemoCommit.hashData (MI := canonical_iter) (KV := DemoDB.demo_kv) (FC := DemoDB.demo_cache) (replicate 32 5) DemoCommit.t
      (NewDatabase ∅) false = Ret (h, k, t', db', []) ∧
    ∃ t2, New (DB := db_store db') (replicate 32 5) h = inr t2 ∧ holds (DB := db_store db') t2 DemoCommit.m.
Proof.
  destruct (commit_reopen (MI := canonical_iter) (KV := DemoDB.demo_kv) (KVL := DemoDB.demo_kv_laws) (FC := DemoDB.demo_cache) (FCL := DemoDB.demo_cache_laws)
    DemoCommit.hashData (replicate 32 5) 2 DemoDB.G DemoDB.height DemoDB.G_ok DemoDB.G_kids DemoDB.G_closed DemoDB.height_F
    ∅ (NewDatabase ∅) DemoCommit.t DemoCommit.m) as (h & k & t' & db' & H1 & _ & _ & H2 & _).
  - exact DemoDB.disk_ok_empty.
  - apply rtc_refl.
  - reflexivity.
  - exact I.
  - split; [intros h; done|]. apply coherent_children. repeat constructor; by intros h.
  - exact DemoCommit.t_savable.
  - rewrite DemoCommit.t_hashed. eapply room_weaken; [|apply Z.le_refl]. apply DemoDB.room_dec. by vm_compute.
  - apply DemoCommit.t_holds_m.
  - exists h, k, t', db'. split; [exact H1|exact H2].
Defined.

Lemma commit_channel_witness :
  ∃ h k t' db' calls, Trie_Commit DemoCommit.hashData (MI := canonical_iter) (KV := DemoDB.demo_kv) (FC := DemoDB.demo_cache) (replicate 32 5) DemoCommit.t
      (NewDatabase ∅) true = Ret (h, k, t', db', calls).
Proof.
  assert (match Trie_Commit DemoCommit.hashData (MI := canonical_iter) (KV := DemoDB.demo_kv) (FC := DemoDB.demo_cache) (replicate 32 5) DemoCommit.t
    (NewDatabase ∅) false with Ret _ => true | Halt _ => false end = true) as Hr by (by vm_compute).
  destruct (Trie_Commit _ _ _ _ false) as [[[[[h k] t'] db'] c]|] eqn:E; [|discriminate Hr].
  destruct (commit_channel (MI := canonical_iter) (KV := DemoDB.demo_kv) (FC := DemoDB.demo_cache) DemoCommit.hashData (replicate 32 5) DemoCommit.t
    (NewDatabase ∅) h k t' db' c) as [calls Hc]; [vm_compute; tauto|exact E|]. exists h, k, t', db', calls. exact Hc.
Defined.
