(* ===== verification/Iterator.v ===== *)
(** * Iteration over a trie (src/trie/iterator.go; [NodeIterator],
    [TryGetNode], [resolveBlob] of src/trie/trie.go)

    The node iterator keeps a stack of nodes, loads nodes as it comes to them
    and remembers at each of them the child to go on with.  Its abstract view
    is the list of what it has still to visit, a suffix of the pre-order
    [walk] of the expanded trie: [Next] takes the first element off it, or
    the first that is not below the current node ([next_refines]); [seek]
    drops what is before a key.  [iterate_all]: the key-value iterator yields
    the entries of the map the trie holds, in order.

    The stack is a list with its top first.  [it_trie] is the trie behind the
    pointer: an iterator is used on a trie that nobody updates meanwhile. *)
From S2P Require Import Prelude Core Encoding Node Rebuild Trie MerkleProof NodeDB NodeStore Committer.
Local Open Scope Z_scope.

(** ** The interface [NodeIterator] *)

(** [ethdb.KeyValueReader], its [Get]. *)
Abbreviation resolver := (bytes → option bytes).

Inductive it_error :=
  | IteratorEnd
  | SeekError (key : bytes) (err : it_error)
  | Missing (err : MissingNodeError).

Class NodeIterator (I : Type) := {
  ni_Next : I → bool → go (bool * I);
  ni_Error : I → option it_error;
  ni_Hash : I → bytes;
  ni_Parent : I → bytes;
  ni_Path : I → bytes;
  ni_NodeBlob : I → option bytes * I;
  ni_Leaf : I → bool;
  ni_LeafKey : I → go bytes;
  ni_LeafBlob : I → go bytes;
  ni_LeafProof : I → go (list bytes);
  ni_AddResolver : I → resolver → go I
}.

(** ** [Iterator], the key-value iterator *)
Section Iterator.
Context {I : Type} `{NI : NodeIterator I}.

Record Iterator := mkIterator { nodeIt : I; it_Key : bytes; it_Value : bytes; it_Err : option it_error }.
Definition NewIterator (it : I) : Iterator := mkIterator it [] [] None.

(** [Next]; [fuel] bounds the nodes that are not leaves it passes. *)
Fixpoint Iterator_Next (fuel : nat) (it : Iterator) : go (bool * Iterator) :=
  match fuel with
  | O => Halt (Blocked "fuel")
  | S fuel =>
      '(more, n) ← ni_Next (nodeIt it) true;
      if more : bool then
        if ni_Leaf n then
          key ← ni_LeafKey n; value ← ni_LeafBlob n;
          Ret (true, mkIterator n key value (it_Err it))
        else Iterator_Next fuel (mkIterator n (it_Key it) (it_Value it) (it_Err it))
      else Ret (false, mkIterator n [] [] (ni_Error n))
  end.
Definition Iterator_Prove (it : Iterator) : go (list bytes) := ni_LeafProof (nodeIt it).

(** A caller's loop over all entries. *)
Fixpoint iterate (fuel : nat) (it : Iterator) : go (list (bytes * bytes) * Iterator) :=
  match fuel with
  | O => Halt (Blocked "fuel")
  | S fuel =>
      '(more, it) ← Iterator_Next fuel it;
      if more : bool then '(l, it') ← iterate fuel it; Ret ((it_Key it, it_Value it) :: l, it')
      else Ret ([], it)
  end.
End Iterator.
Arguments Iterator : clear implicits.

(** ** [nodeIterator] *)

(** A decoded node: the outermost node gets the hash, those embedded in it
    none ([decodeNode] and [expandNode] with a hash). *)
Fixpoint embedded (n : Node) : LNode :=
  match n with
  | NilNode => LNil
  | FullNode cs => LFull (map embedded cs) (mkFlag None false)
  | ShortNode k v => LShort k (embedded v) (mkFlag None false)
  | HashNode h => LHash h
  | ValueNode v => LValue v
  end.
Definition decoded (hash : bytes) (n : Node) : LNode :=
  match n with
  | FullNode cs => LFull (map embedded cs) (mkFlag (Some hash) false)
  | ShortNode k v => LShort k (embedded v) (mkFlag (Some hash) false)
  | n => embedded n
  end.

Record nodeIteratorState := mkState {
  st_hash : bytes;
  st_Node : LNode;
  st_parent : bytes;
  st_index : Z;
  st_pathlen : nat
}.
Definition set_index (i : Z) (s : nodeIteratorState) : nodeIteratorState :=
  mkState (st_hash s) (st_Node s) (st_parent s) i (st_pathlen s).

Record nodeIterator := mkNodeIterator {
  it_trie : LTrie;
  it_stack : list nodeIteratorState;
  it_path : bytes;
  it_err : option it_error;
  it_resolver : option resolver
}.
Definition set_stack (stack : list nodeIteratorState) (path : bytes) (it : nodeIterator) : nodeIterator :=
  mkNodeIterator (it_trie it) stack path (it_err it) (it_resolver it).
Definition set_err (err : option it_error) (it : nodeIterator) : nodeIterator :=
  mkNodeIterator (it_trie it) (it_stack it) (it_path it) err (it_resolver it).

(** [common.BytesToHash] of a cached hash, which may be nil. *)
Definition cached_or_zero (h : option bytes) : bytes := BytesToHash (default [] h).

(** [findChild]: the next child that is not nil. *)
Fixpoint first_child (cs : list LNode) (index : nat) : option (nat * LNode) :=
  match cs with
  | [] => None
  | LNil :: cs => first_child cs (S index)
  | c :: _ => Some (index, c)
  end.
Definition findChild (cs : list LNode) (index : nat) (path ancestor : bytes) : option (nodeIteratorState * bytes * nat) :=
  match first_child (drop index cs) index with
  | Some (i, child) =>
      Some (mkState (cached_or_zero (cached_hash child)) child ancestor (-1) (length path), path ++ [u8 (Z.of_nat i)], i)
  | None => None
  end.

(** The short node's child, if it has not been visited. *)
Definition short_child (parent : nodeIteratorState) (k : bytes) (v : LNode) (path ancestor : bytes) :
    go (nodeIteratorState * option (nodeIteratorState * bytes)) :=
  if bool_decide (st_index parent < 0) then
    '(hash, _) ← node_cache v;
    Ret (parent, Some (mkState (cached_or_zero hash) v ancestor (-1) (length path), path ++ k))
  else Ret (parent, None).

(** [nextChild]: the parent, and the child with its path, if any. *)
Definition nextChild (parent : nodeIteratorState) (path ancestor : bytes) :
    go (nodeIteratorState * option (nodeIteratorState * bytes)) :=
  match st_Node parent with
  | LFull cs _ =>
      match findChild cs (Z.to_nat (st_index parent + 1)) path ancestor with
      | Some (state, p, index) => Ret (set_index (Z.of_nat index - 1) parent, Some (state, p))
      | None => Ret (parent, None)
      end
  | LShort k v _ => short_child parent k v path ancestor
  | _ => Ret (parent, None)
  end.

(** The loop of [nextChildAt]: the last child before the key, [best] being
    before it.  There are fewer steps than children. *)
Fixpoint closest (fuel : nat) (cs : list LNode) (path ancestor key : bytes) (best : nodeIteratorState * bytes * nat) :
    go (nodeIteratorState * bytes * nat) :=
  match fuel with
  | O => Halt (Blocked "fuel")
  | S fuel =>
      match findChild cs (S best.2) path ancestor with
      | Some next => if bytes_less next.1.2 key then closest fuel cs path ancestor key next else Ret best
      | None => Ret best
      end
  end.
Definition nextChildAt (key : bytes) (parent : nodeIteratorState) (path ancestor : bytes) :
    go (nodeIteratorState * option (nodeIteratorState * bytes)) :=
  match st_Node parent with
  | LFull cs _ =>
      match findChild cs (Z.to_nat (st_index parent + 1)) path ancestor with
      | None => Ret (parent, None)
      | Some child =>
          '(state, p, index) ← (if bytes_less child.1.2 key then closest (length cs) cs path ancestor key child else Ret child);
          Ret (set_index (Z.of_nat index - 1) parent, Some (state, p))
      end
  | LShort k v _ => short_child parent k v path ancestor
  | _ => Ret (parent, None)
  end.

(** [pop] *)
Definition pop (it : nodeIterator) : go nodeIterator :=
  match it_stack it with
  | [] => Halt (GoPanic "index out of range")
  | last :: stack => Ret (set_stack stack (take (st_pathlen last) (it_path it)) it)
  end.
(** [push]; [counted] is whether there is a parent whose index moves on. *)
Definition push (state : nodeIteratorState) (counted : bool) (path : bytes) (it : nodeIterator) : nodeIterator :=
  let stack := match it_stack it with
               | parent :: stack => (if counted then set_index (st_index parent + 1) parent else parent) :: stack
               | [] => []
               end in
  set_stack (state :: stack) path it.

Section nodeIterator.
Context `{RL : RLP} `{DB : NodeStore}.
Variable hashData : bytes → bytes.
Variable emptyRoot : bytes.
(** [Database.Node] of the trie's database. *)
Variable Database_Node : bytes → option bytes.

Definition it_Hash (it : nodeIterator) : bytes := match it_stack it with [] => zero | s :: _ => st_hash s end.
Definition it_Parent (it : nodeIterator) : bytes := match it_stack it with [] => zero | s :: _ => st_parent s end.
Definition it_Leaf (it : nodeIterator) : bool := hasTerm (it_path it).
Definition it_LeafKey (it : nodeIterator) : go bytes :=
  match it_stack it with
  | s :: _ => match st_Node s with LValue _ => hexToKeybytes (it_path it) | _ => Halt (GoPanic "not at leaf") end
  | [] => Halt (GoPanic "not at leaf")
  end.
Definition it_LeafBlob (it : nodeIterator) : go bytes :=
  match it_stack it with
  | s :: _ => match st_Node s with LValue v => Ret v | _ => Halt (GoPanic "not at leaf") end
  | [] => Halt (GoPanic "not at leaf")
  end.

(** The loop of [LeafProof], from the root down; [first] is [i == 0]. *)
Fixpoint proof_blobs (first : bool) (items : list Node) : list bytes :=
  match items with
  | [] => []
  | item :: items =>
      let '(n, hashed) := proofHash hashData item in
      (if first || is_hash hashed then [nodeToBytes n] else []) ++ proof_blobs false items
  end.
Definition it_LeafProof (it : nodeIterator) : go (list bytes) :=
  match it_stack it with
  | s :: stack =>
      match st_Node s with
      | LValue _ => Ret (proof_blobs true (map (λ s, strip (st_Node s)) (rev stack)))
      | _ => Halt (GoPanic "not at leaf")
      end
  | [] => Halt (GoPanic "not at leaf")
  end.

(** [resolveHash] and [resolveBlob], first from the resolver, then from the
    trie's database. *)
Definition from_resolver (it : nodeIterator) (hash : bytes) : option bytes :=
  get ← it_resolver it; blob ← get hash; if bool_decide (0 < len blob) then Some blob else None.
Definition resolveHash (it : nodeIterator) (hash path : bytes) : MissingNodeError + LNode :=
  match from_resolver it hash ≫= λ blob, decodeNode (length blob) blob with
  | Some n => inr (decoded hash n)
  | None =>
      match Trie.resolveHash hash path with
      | inl err => inl err
      | inr n => inr (decoded (BytesToHash hash) n)
      end
  end.
Definition Trie_resolveBlob (n prefix : bytes) : MissingNodeError + bytes :=
  let hash := BytesToHash n in
  match Database_Node hash with
  | Some blob => if bool_decide (len blob ≠ 0) then inr blob else inl (mkMissing hash prefix)
  | None => inl (mkMissing hash prefix)
  end.
Definition resolveBlob (it : nodeIterator) (hash path : bytes) : MissingNodeError + bytes :=
  match from_resolver it hash with
  | Some blob => inr blob
  | None => Trie_resolveBlob hash path
  end.
Definition it_NodeBlob (it : nodeIterator) : option bytes * nodeIterator :=
  if bool_decide (it_Hash it = zero) then (None, it)
  else match resolveBlob it (it_Hash it) (it_path it) with
       | inl err => (None, set_err (Some (Missing err)) it)
       | inr blob => (Some blob, it)
       end.
Definition it_Error (it : nodeIterator) : option it_error :=
  match it_err it with
  | Some IteratorEnd => None
  | Some (SeekError _ err) => Some err
  | err => err
  end.

(** [resolve] of a state. *)
Definition resolve (it : nodeIterator) (path : bytes) (st : nodeIteratorState) : it_error + nodeIteratorState :=
  match st_Node st with
  | LHash hash =>
      match resolveHash it hash path with
      | inl err => inl (Missing err)
      | inr resolved => inr (mkState (BytesToHash hash) resolved (st_parent st) (st_index st) (st_pathlen st))
      end
  | _ => inr st
  end.

(** The next state, whether its parent's index moves on, and its path. *)
Abbreviation peeked := (it_error + nodeIteratorState * bool * bytes)%type.

(** [init] *)
Definition init (it : nodeIterator) : go (nodeIterator * peeked) :=
  '(root, t) ← Hash hashData emptyRoot (it_trie it);
  let it := mkNodeIterator t (it_stack it) (it_path it) (it_err it) (it_resolver it) in
  let state := mkState (if bool_decide (root ≠ emptyRoot) then root else zero) (lroot t) zero (-1) 0 in
  Ret (it, match resolve it [] state with inl err => inl err | inr state => inr (state, false, []) end).

(** The loop of [peek] and [peekSeek], [next] being [nextChild] or
    [nextChildAt]. *)
Definition ancestor_of (parent : nodeIteratorState) : bytes :=
  if bool_decide (st_hash parent = zero) then st_parent parent else st_hash parent.
Fixpoint peek_loop (next : nodeIteratorState → bytes → bytes → go (nodeIteratorState * option (nodeIteratorState * bytes)))
    (stack : list nodeIteratorState) (path : bytes) (it : nodeIterator) : go (nodeIterator * peeked) :=
  match stack with
  | [] => Ret (set_stack [] path it, inl IteratorEnd)
  | parent :: rest =>
      '(parent, child) ← next parent path (ancestor_of parent);
      match child with
      | Some (state, p) =>
          let it := set_stack (parent :: rest) path it in
          Ret (it, match resolve it p state with inl err => inl err | inr state => inr (state, true, p) end)
      | None => peek_loop next rest (take (st_pathlen parent) path) it
      end
  end.
Definition peek (it : nodeIterator) (descend : bool) : go (nodeIterator * peeked) :=
  match it_stack it with
  | [] => init it
  | _ =>
      it ← (if descend then Ret it else pop it);
      peek_loop nextChild (it_stack it) (it_path it) it
  end.
Definition peekSeek (it : nodeIterator) (seekKey : bytes) : go (nodeIterator * peeked) :=
  match it_stack it with
  | [] => init it
  | _ =>
      it ← (if decide (it_path it `prefix_of` seekKey) then Ret it else pop it);
      peek_loop (nextChildAt seekKey) (it_stack it) (it_path it) it
  end.

(** [seek]; the depth of the stack grows with the key, so [fuel] is its
    length and some ([seek_ok]). *)
Fixpoint seek_loop (fuel : nat) (prefix key : bytes) (it : nodeIterator) : go (option it_error * nodeIterator) :=
  match fuel with
  | O => Halt (Blocked "fuel")
  | S fuel =>
      '(it, r) ← peekSeek it key;
      match r with
      | inl IteratorEnd => Ret (Some IteratorEnd, it)
      | inl err => Ret (Some (SeekError prefix err), it)
      | inr (state, counted, path) =>
          if bytes_less path key then seek_loop fuel prefix key (push state counted path it) else Ret (None, it)
      end
  end.
Definition seek (it : nodeIterator) (prefix : bytes) : go (option it_error * nodeIterator) :=
  let key := keybytesToHex prefix in
  let key := take (length key - 1) key in
  seek_loop (length key + 3) prefix key it.

(** [newNodeIterator] *)
Definition newNodeIterator (t : LTrie) (start : bytes) : go nodeIterator :=
  '(h, t) ← Hash hashData emptyRoot t;
  if bool_decide (h = emptyRoot) then Ret (mkNodeIterator t [] [] (Some IteratorEnd) None)
  else '(err, it) ← seek (mkNodeIterator t [] [] None None) start; Ret (set_err err it).

(** [Next] *)
Definition next_step (it : nodeIterator) (descend : bool) : go (bool * nodeIterator) :=
  '(it, r) ← peek it descend;
  match r with
  | inl err => Ret (false, set_err (Some err) it)
  | inr (state, counted, path) => Ret (true, push state counted path (set_err None it))
  end.
Definition it_Next (it : nodeIterator) (descend : bool) : go (bool * nodeIterator) :=
  match it_err it with
  | Some IteratorEnd => Ret (false, it)
  | Some (SeekError key _) =>
      '(err, it) ← seek it key;
      match err with
      | Some err => Ret (false, set_err (Some err) it)
      | None => next_step (set_err None it) descend
      end
  | _ => next_step it descend
  end.
Definition it_AddResolver (it : nodeIterator) (r : resolver) : nodeIterator :=
  mkNodeIterator (it_trie it) (it_stack it) (it_path it) (it_err it) (Some r).

#[export] Instance nodeIterator_NodeIterator : NodeIterator nodeIterator := {|
  ni_Next := it_Next; ni_Error := it_Error; ni_Hash := it_Hash; ni_Parent := it_Parent; ni_Path := it_path;
  ni_NodeBlob := it_NodeBlob; ni_Leaf := it_Leaf; ni_LeafKey := it_LeafKey; ni_LeafBlob := it_LeafBlob;
  ni_LeafProof := it_LeafProof; ni_AddResolver := λ it r, Ret (it_AddResolver it r)
|}.
End nodeIterator.

(** ** The order of visits

    [walk p e]: the nodes of the expanded trie [e] at path [p], each with its
    path, parents first. *)
Fixpoint walk (p : bytes) (e : Node) : list (bytes * Node) :=
  match e with
  | NilNode => []
  | FullNode cs =>
      (p, e) :: (fix go i cs := match cs with
                                | [] => []
                                | c :: cs => walk (p ++ [Z.of_nat i]) c ++ go (S i) cs
                                end) 0%nat cs
  | ShortNode k v => (p, e) :: walk (p ++ k) v
  | _ => [(p, e)]
  end.
Definition walk_children (p : bytes) : nat → list Node → list (bytes * Node) :=
  fix go i cs := match cs with
                 | [] => []
                 | c :: cs => walk (p ++ [Z.of_nat i]) c ++ go (S i) cs
                 end.
(** What is left below a node whose index is [ix]. *)
Definition rest_of (p : bytes) (e : Node) (ix : Z) : list (bytes * Node) :=
  match e with
  | FullNode cs => walk_children p (Z.to_nat (ix + 1)) (drop (Z.to_nat (ix + 1)) cs)
  | ShortNode k v => if bool_decide (ix < 0) then walk (p ++ k) v else []
  | _ => []
  end.
(** A node an iterator can stand on. *)
Definition shaped (e : Node) : Prop := canon e ∨ is_value e.

Lemma walk_rest p e : e ≠ NilNode → walk p e = (p, e) :: rest_of p e (-1).
Proof. by destruct e. Qed.

Lemma walk_children_drop p i k es :
  walk_children p i es = walk_children p i (take k es) ++ walk_children p (i + k) (drop k es).
Proof.
  revert i k. induction es as [|c es IH]; intros i [|k]; cbn [take drop]; rewrite ?Nat.add_0_r; try done.
  change (walk (p ++ [Z.of_nat i]) c ++ walk_children p (S i) es = (walk (p ++ [Z.of_nat i]) c ++ walk_children p (S i) (take k es)) ++ walk_children p (i + S k) (drop k es)).
  rewrite (IH (S i) k), app_assoc. by replace (S i + k)%nat with (i + S k)%nat by lia.
Qed.

Lemma elem_of_walk_children x p i cs :
  x ∈ walk_children p i cs ↔ ∃ j c, cs !! j = Some c ∧ x ∈ walk (p ++ [Z.of_nat (i + j)]) c.
Proof.
  revert i. induction cs as [|c cs IH]; intros i; cbn [walk_children].
  - split; [by intros ?%elem_of_nil|by intros (j & c & [=] & _)].
  - rewrite elem_of_app. fold (walk_children p (S i) cs). rewrite IH. split.
    + intros [Hx|(j & d & Hj & Hx)]; [exists 0%nat, c; by rewrite Nat.add_0_r|]. exists (S j), d. by rewrite <-Nat.add_succ_comm.
    + intros ([|j] & d & Hj & Hx); [left; injection Hj as ->; by rewrite Nat.add_0_r in Hx|]. right. exists j, d. by rewrite Nat.add_succ_comm.
Qed.

Lemma shaped_full es : shaped (FullNode es) → length es = 17%nat ∧ ∀ i c, es !! i = Some c → c = NilNode ∨ shaped c.
Proof.
  intros [(Hl & _ & Hc)%canon_full|[]]. split; [done|]. intros i c Hi. specialize (Hc i c Hi). unfold shaped.
  case_decide; [naive_solver|]. destruct Hc; auto.
Qed.
Lemma shaped_short k v : shaped (ShortNode k v) → k ≠ [] ∧ shaped v.
Proof.
  intros [[Hk [(w & -> & _)|(_ & Hv & _)]]%canon_short|[]]; (split; [done|]); [by right|by left].
Qed.
Lemma shaped_nil e : shaped e → e ≠ NilNode.
Proof. by intros [?|?] ->. Qed.

Lemma walk_prefix e : ∀ p x, x ∈ walk p e → ∃ s, x.1 = p ++ s.
Proof.
  induction e as [|cs IH|k v IH|h|v] using Node_nested_ind; intros p x; cbn [walk].
  - by intros ?%elem_of_nil.
  - fold (walk_children p 0 cs). intros [->|(j & c & Hj & Hx)%elem_of_walk_children]%elem_of_cons; [exists []; by rewrite app_nil_r|].
    rewrite Forall_lookup in IH. destruct (IH j c Hj _ _ Hx) as [s ->]. exists ([Z.of_nat (0 + j)] ++ s). by rewrite app_assoc.
  - intros [->|Hx]%elem_of_cons; [exists []; by rewrite app_nil_r|]. destruct (IH _ _ Hx) as [s ->]. exists (k ++ s). by rewrite app_assoc.
  - intros ->%list_elem_of_singleton. exists []. by rewrite app_nil_r.
  - intros ->%list_elem_of_singleton. exists []. by rewrite app_nil_r.
Qed.
(** A path below the children from [i] on. *)
Lemma walk_children_path p i cs x : x ∈ walk_children p i cs → ∃ j s, (i ≤ j)%nat ∧ x.1 = p ++ Z.of_nat j :: s.
Proof.
  intros (j & c & _ & [s Hs]%walk_prefix)%elem_of_walk_children. exists (i + j)%nat, s. split; [lia|]. by rewrite Hs, <-app_assoc.
Qed.
Lemma rest_prefix p e ix x : shaped e → x ∈ rest_of p e ix → ∃ s, s ≠ [] ∧ x.1 = p ++ s.
Proof.
  intros Hs. destruct e as [|cs|k v|h|v]; cbn [rest_of]; try by intros ?%elem_of_nil.
  - intros (j & s & _ & Hx)%walk_children_path. by exists (Z.of_nat j :: s).
  - case_bool_decide; [|by intros ?%elem_of_nil]. intros (s & Hx)%walk_prefix. apply shaped_short in Hs as [Hk _].
    exists (k ++ s). split; [by destruct k|]. by rewrite app_assoc.
Qed.

Abbreviation path_less := (λ a b : bytes, bytes_less a b = true).

Lemma walk_sorted e : shaped e → ∀ p, StronglySorted path_less (walk p e).*1.
Proof.
  induction e as [|cs IH|k v IH|h|v] using Node_nested_ind; intros Hs p; try by repeat constructor.
  - cbn [walk]. fold (walk_children p 0 cs). constructor.
    2:{ apply Forall_forall. intros q (x & -> & Hx)%list_elem_of_fmap. apply walk_children_path in Hx as (j & s & _ & ->). by apply bytes_less_longer. }
    apply shaped_full in Hs as [_ Hs]. rewrite Forall_lookup in IH. assert (∀ i, StronglySorted path_less (walk_children p i cs).*1) as Hgo; [|exact (Hgo 0%nat)]. revert Hs IH. clear.
    induction cs as [|c cs IHc]; intros Hs IH i; [constructor|]. cbn [walk_children]. fold (walk_children p (S i) cs). rewrite fmap_app.
    apply StronglySorted_app. split_and!.
    + intros q q' (x & -> & [s ->]%walk_prefix)%list_elem_of_fmap (y & -> & (j & s' & Hj & ->)%walk_children_path)%list_elem_of_fmap.
      rewrite <-app_assoc. apply bytes_less_branch. lia.
    + destruct (Hs 0%nat c eq_refl) as [->|Hc]; [constructor|]. by apply (IH 0%nat c).
    + apply IHc; [intros j; apply (Hs (S j))|intros j; apply (IH (S j))].
  - apply shaped_short in Hs as [Hk Hv]. cbn [walk]. constructor; [by apply IH|].
    apply Forall_forall. intros q (x & -> & [s ->]%walk_prefix)%list_elem_of_fmap. rewrite <-app_assoc. apply bytes_less_longer. by destruct k.
Qed.

(** Leaves are at terminated keys and have the value the trie holds there,
    inner nodes at strings of nibbles; every value has its leaf. *)
Lemma walk_entry e : shaped e → ∀ p q n, (q, n) ∈ walk p e →
  match n with
  | ValueNode v => ∃ k, q = p ++ k ∧ (if decide (k = []) then is_value e else term_key k) ∧ tget e k = Some v
  | FullNode _ | ShortNode _ _ => ∃ ns, q = p ++ ns ∧ Forall nibble ns
  | _ => False
  end.
Proof.
  induction e as [|cs IH|k v IH|h|v] using Node_nested_ind; intros Hs p q n; try by destruct Hs.
  - cbn [walk]. fold (walk_children p 0 cs). intros [[= -> ->]|(j & c & Hj & Hx)%elem_of_walk_children]%elem_of_cons; [exists []; by rewrite app_nil_r|].
    rewrite Forall_lookup in IH. destruct Hs as [Hs|[]]. pose proof Hs as (Hl & _ & Hc)%canon_full. specialize (Hc j c Hj).
    assert (shaped c) as Hsc by (unfold shaped; case_decide; [destruct Hc as [->|?]; [by apply elem_of_nil in Hx|by right]|destruct Hc as [->|?]; [by apply elem_of_nil in Hx|by left]]).
    specialize (IH j c Hj Hsc _ _ _ Hx). pose proof (lookup_lt_Some _ _ _ Hj). destruct n as [|ds|k' v'|h|w]; try done.
    + destruct IH as (ns & -> & Hns). exists (Z.of_nat j :: ns). split; [by rewrite <-app_assoc|]. constructor; [|done].
      case_decide as Hj16; [|unfold nibble; lia]. destruct Hc as [->|Hc]; [by apply elem_of_nil in Hx|]. destruct c; try done. by apply list_elem_of_singleton in Hx as [= _ ?].
    + destruct IH as (ns & -> & Hns). exists (Z.of_nat j :: ns). split; [by rewrite <-app_assoc|]. constructor; [|done].
      case_decide as Hj16; [|unfold nibble; lia]. destruct Hc as [->|Hc]; [by apply elem_of_nil in Hx|]. destruct c; try done. by apply list_elem_of_singleton in Hx as [= _ ?].
    + destruct IH as (k & -> & Hk & Hw). exists (Z.of_nat j :: k). split; [by rewrite <-app_assoc|]. split.
      * rewrite decide_False by done. apply term_key_cons. destruct (decide (j = 16%nat)) as [->|Hne].
        -- left. split; [done|]. destruct Hc as [->|Hc]; [done|]. destruct c; try done. cbn [tget] in Hw. by case_decide.
        -- right. split; [unfold nibble; lia|]. case_decide; [|done]. subst. destruct Hc as [->|Hc]; [done|]. by destruct c.
      * rewrite tget_full, Nat2Z.id, Hj. done.
  - cbn [walk]. intros [[= -> ->]|Hx]%elem_of_cons; [exists []; by rewrite app_nil_r|]. pose proof (shaped_short _ _ Hs) as [Hk Hv].
    destruct Hs as [Hs|[]]. apply canon_short in Hs as [_ Hs]. specialize (IH Hv _ _ _ Hx).
    destruct Hs as [(w & -> & Hkt)|(Hf & Hcv & Hkn)].
    + apply list_elem_of_singleton in Hx as [= -> ->]. exists k. split; [done|]. rewrite decide_False by done. split; [done|].
      cbn [tget]. rewrite decide_True by (by rewrite firstn_all). by rewrite drop_all, decide_True.
    + destruct n as [|ds|k' v'|h|w]; try done.
      * destruct IH as (ns & -> & Hns). exists (k ++ ns). split; [by rewrite app_assoc|]. by apply Forall_app.
      * destruct IH as (ns & -> & Hns). exists (k ++ ns). split; [by rewrite app_assoc|]. by apply Forall_app.
      * destruct IH as (k' & -> & Hk' & Hw). exists (k ++ k'). split; [by rewrite app_assoc|].
        rewrite decide_False in Hk' by (intros ->; by destruct v). rewrite decide_False by (by destruct k).
        split; [by apply term_key_app|]. rewrite <-mk_short_ne by done. by rewrite tget_short_app.
  - cbn [walk]. intros [= -> ->]%list_elem_of_singleton. exists []. rewrite app_nil_r. by rewrite decide_True.
Qed.

Lemma walk_value e : ∀ p k v, term_key k ∨ k = [] → tget e k = Some v → (p ++ k, ValueNode v) ∈ walk p e.
Proof.
  induction e as [|cs IH|k' v' IH|h|w] using Node_nested_ind; intros p k v Hk Hv; try done.
  - destruct k as [|x k]; [done|]. destruct Hk as [Hk|]; [|done]. rewrite tget_full in Hv.
    destruct (cs !! Z.to_nat x) as [c|] eqn:Hc; [|done]. right. fold (walk_children p 0 cs). apply elem_of_walk_children.
    exists (Z.to_nat x), c. split; [done|]. rewrite Forall_lookup in IH. apply term_key_cons in Hk.
    assert (0 ≤ x) as Hx by (unfold nibble in Hk; lia). rewrite Nat.add_0_l, Z2Nat.id by done.
    replace (p ++ x :: k) with ((p ++ [x]) ++ k) by (by rewrite <-app_assoc). apply (IH _ _ Hc); [|done]. destruct Hk as [[_ ->]|[_ ?]]; auto.
  - apply short_keys in Hv as (r & -> & Hv). right. rewrite app_assoc. apply IH; [|done].
    destruct Hk as [(ns & Hns & HF)|Hk]; [|right; by destruct k']. destruct (decide (r = [])) as [->|Hr]; [by right|]. left.
    destruct (exists_last Hr) as (r' & y & ->). rewrite app_assoc in Hns. apply app_inj_tail in Hns as [<- ->].
    exists r'. split; [done|]. by apply Forall_app in HF as [_ ?].
  - cbn [tget] in Hv. case_decide; [|done]. subst. rewrite app_nil_r. injection Hv as ->. by left.
Qed.

(** ** Finding the next child *)
Section stack.
Context `{DB : NodeStore}.

(** The state [s] stands on the node [e]. *)
Record loaded (s : nodeIteratorState) (e : Node) : Prop := mkLoaded {
  ld_expands : expands (strip (st_Node s)) e;
  ld_shaped : shaped e;
  ld_there : is_lhash (st_Node s) = false
}.

(** The child of a node at a piece of path. *)
Definition child_of (e : Node) (suf : bytes) (ec : Node) : Prop :=
  match e with
  | FullNode es => ∃ j, suf = [Z.of_nat j] ∧ es !! j = Some ec
  | ShortNode k v => suf = k ∧ ec = v
  | _ => False
  end.

Definition lchildren (n : LNode) : list LNode :=
  match n with LFull cs _ => cs | LShort _ v _ => [v] | _ => [] end.

(** [c] at [p] is the child [ec] of the node [e] at [path]; between the index
    of [s] and that of [s'] are the nodes [sk], after the child [rest]. *)
Record found (s : nodeIteratorState) (e : Node) (path : bytes) (s' c : nodeIteratorState) (p : bytes)
    (sk : list (bytes * Node)) (ec : Node) (rest : list (bytes * Node)) : Prop := mkFound {
  fd_node : st_Node c ∈ lchildren (st_Node s);
  fd_expands : expands (strip (st_Node c)) ec;
  fd_shaped : shaped ec;
  fd_fresh : st_index c = -1;
  fd_pathlen : st_pathlen c = length path;
  fd_path : ∃ suf, suf ≠ [] ∧ p = path ++ suf ∧ child_of e suf ec;
  fd_parent : ∃ i, -1 ≤ i ∧ s' = set_index i s;
  fd_skipped : rest_of path e (st_index s) = sk ++ walk p ec ++ rest;
  fd_next : rest_of path e (st_index s') = walk p ec ++ rest;
  fd_rest : rest_of path e (st_index s' + 1) = rest;
  fd_apart : ∀ x, x ∈ rest → ¬ p `prefix_of` x.1
}.

Lemma first_child_ok cs es i : Forall2 (λ c e, expands (strip c) e) cs es →
  match first_child cs i with
  | None => ∀ p, walk_children p i es = []
  | Some (j, c) => ∃ e, (i ≤ j)%nat ∧ cs !! (j - i)%nat = Some c ∧ es !! (j - i)%nat = Some e ∧ e ≠ NilNode ∧
      ∀ p, walk_children p i es = walk (p ++ [Z.of_nat j]) e ++ walk_children p (S j) (drop (S j - i) es)
  end.
Proof.
  intros HF. revert i. induction HF as [|c e cs es Hc HF IH]; intros i; [done|]. cbn [first_child].
  assert (c ≠ LNil → match (match c with LNil => first_child cs (S i) | _ => Some (i, c) end) with Some (j, d) => j = i ∧ d = c | None => False end)
    as Hhere by (by destruct c).
  assert (e = NilNode ∨ e ≠ NilNode) as [->|Hne] by (destruct e; auto).
  - assert (c = LNil) as -> by (pose proof (expands_nil _ _ Hc) as [_ Hn]; specialize (Hn eq_refl); by destruct c).
    specialize (IH (S i)). destruct (first_child cs (S i)) as [[j d]|]; [|done]. destruct IH as (e & Hj & H1 & H2 & H3 & H4).
    exists e. replace (j - i)%nat with (S (j - S i)) by lia. split_and!; [lia|done..|]. intros p.
    replace (S j - i)%nat with (S (S j - S i)) by lia. apply H4.
  - assert (c ≠ LNil) as Hcn by (intros ->; by inversion Hc; subst).
    specialize (Hhere Hcn). destruct (match c with LNil => _ | _ => _ end) as [[j d]|]; [|done]. destruct Hhere as [-> ->].
    exists e. rewrite Nat.sub_diag. split_and!; [done..|]. intros p. by rewrite Nat.sub_succ_l, Nat.sub_diag by done.
Qed.

(** The state [c] at [p] is for child [j], which is [ec]. *)
Record child_at (cs : list LNode) (es : list Node) (path : bytes) (c : nodeIteratorState) (p : bytes) (j : nat) (ec : Node) : Prop := mkChildAt {
  ch_node : st_Node c ∈ cs;
  ch_bound : (j < 17)%nat;
  ch_lookup : es !! j = Some ec;
  ch_there : ec ≠ NilNode;
  ch_expands : expands (strip (st_Node c)) ec;
  ch_index : st_index c = -1;
  ch_pathlen : st_pathlen c = length path;
  ch_path : p = path ++ [Z.of_nat j]
}.

Lemma findChild_ok cs es i path anc :
  Forall2 expands (map strip cs) es → length es = 17%nat →
  match findChild cs i path anc with
  | None => walk_children path i (drop i es) = []
  | Some (c, p, j) => ∃ ec, (i ≤ j)%nat ∧ child_at cs es path c p j ec ∧
      walk_children path i (drop i es) = walk p ec ++ walk_children path (S j) (drop (S j) es)
  end.
Proof.
  intros HF Hl. rewrite Forall2_fmap_l in HF. apply (Forall2_drop _ _ _ i) in HF as HFd. unfold findChild.
  pose proof (first_child_ok _ _ i HFd) as Hf. destruct (first_child (drop i cs) i) as [[j c]|]; [|done].
  destruct Hf as (ec & Hij & Hc & Hec & Hne & Hw). rewrite lookup_drop in Hc. rewrite lookup_drop in Hec. replace (i + (j - i))%nat with j in * by lia.
  pose proof (lookup_lt_Some _ _ _ Hec). exists ec. rewrite u8_small by (unfold in_u8; lia). split_and!; [done| |].
  - split; try (done || lia); [by eapply list_elem_of_lookup_2|]. by apply (Forall2_lookup_lr _ _ _ _ _ _ HF Hc Hec).
  - rewrite Hw, drop_drop. by replace (i + (S j - i))%nat with (S j) by lia.
Qed.

(** The node behind a state, by its form. *)
Lemma loaded_full s cs fl e : st_Node s = LFull cs fl → loaded s e →
  ∃ es, e = FullNode es ∧ Forall2 expands (map strip cs) es ∧ length es = 17%nat ∧ ∀ i c, es !! i = Some c → c = NilNode ∨ shaped c.
Proof.
  intros Hs [He Hsh _]. rewrite Hs in He. inversion He; subst. eexists. split_and!; [done..| |]; by apply shaped_full in Hsh as [??].
Qed.
Lemma loaded_short s k v fl e : st_Node s = LShort k v fl → loaded s e →
  ∃ ev, e = ShortNode k ev ∧ expands (strip v) ev ∧ k ≠ [] ∧ shaped ev.
Proof.
  intros Hs [He Hsh _]. rewrite Hs in He. inversion He; subst. eexists. split_and!; [done..| |]; by apply shaped_short in Hsh as [??].
Qed.
Lemma loaded_value s e : loaded s e → (∀ cs fl, st_Node s ≠ LFull cs fl) → (∀ k v fl, st_Node s ≠ LShort k v fl) →
  ∃ v, st_Node s = LValue v ∧ e = ValueNode v.
Proof.
  intros [He Hsh Hh] H1 H2. destruct (st_Node s) as [|cs fl|k v fl|h|v] eqn:E; try done; [| | |].
  - inversion He; subst. by apply shaped_nil in Hsh.
  - by destruct (H1 cs fl).
  - by destruct (H2 k v fl).
  - inversion He; subst. by exists v.
Qed.

(** What a full node's next child leaves. *)
Lemma found_full s cs fl es path c p j ec sk :
  st_Node s = LFull cs fl → length es = 17%nat → (∀ i c, es !! i = Some c → c = NilNode ∨ shaped c) → child_at cs es path c p j ec →
  rest_of path (FullNode es) (st_index s) = sk ++ walk p ec ++ walk_children path (S j) (drop (S j) es) →
  found s (FullNode es) path (set_index (Z.of_nat j - 1) s) c p sk ec (walk_children path (S j) (drop (S j) es)).
Proof.
  intros Hs Hl Hsh [Hnode Hj Hec Hne Hx Hi Hpl ->] Hsk. split; try done.
  - by rewrite Hs.
  - by destruct (Hsh j ec Hec).
  - exists [Z.of_nat j]. split_and!; [done..|]. by exists j.
  - exists (Z.of_nat j - 1). split; [lia|done].
  - cbn [rest_of set_index st_index]. replace (Z.to_nat (Z.of_nat j - 1 + 1)) with j by lia. by rewrite (drop_S _ _ _ Hec).
  - cbn [rest_of set_index st_index]. by replace (Z.to_nat (Z.of_nat j - 1 + 1 + 1)) with (S j) by lia.
  - intros x (j' & s' & Hj' & ->)%walk_children_path [s0 Hs0]. rewrite <-app_assoc in Hs0. apply app_inv_head in Hs0.
    injection Hs0 as ? _. lia.
Qed.

(** A short node's only child. *)
Lemma short_child_ok s k v fl e path anc :
  st_Node s = LShort k v fl → loaded s e → -1 ≤ st_index s →
  ∃ r, short_child s k v path anc = Ret r ∧
    match r.2 with
    | None => r.1 = s ∧ rest_of path e (st_index s) = []
    | Some (c, p) => ∃ ec, found s e path r.1 c p [] ec []
    end.
Proof.
  intros Hs Hl Hix. destruct (loaded_short _ _ _ _ _ Hs Hl) as (ev & -> & Hv & Hk & Hsv). unfold short_child.
  case_bool_decide as Hi; [|eexists; split; [done|]; split; [done|]; cbn [rest_of]; by rewrite bool_decide_eq_false_2].
  assert (∃ h d, node_cache v = Ret (h, d)) as (h & d & ->)
    by (destruct v; eauto; cbn [strip] in Hv; inversion Hv; subst; by apply shaped_nil in Hsv).
  eexists. split; [done|]. exists ev. split; try done.
  - rewrite Hs. by left.
  - by exists k.
  - exists (st_index s). split; [lia|]. by destruct s.
  - cbn [rest_of]. rewrite bool_decide_eq_true_2 by done. by rewrite app_nil_r.
  - cbn [rest_of fst]. rewrite bool_decide_eq_true_2 by done. by rewrite app_nil_r.
  - cbn [rest_of fst]. by rewrite bool_decide_eq_false_2 by lia.
  - by intros x ?%elem_of_nil.
Qed.

Lemma nextChild_ok s e path anc : loaded s e → -1 ≤ st_index s →
  ∃ r, nextChild s path anc = Ret r ∧
    match r.2 with
    | None => r.1 = s ∧ rest_of path e (st_index s) = []
    | Some (c, p) => ∃ ec rest, found s e path r.1 c p [] ec rest
    end.
Proof.
  intros Hl Hi. unfold nextChild. destruct (st_Node s) as [|cs fl|k v fl|h|v] eqn:E.
  - destruct (loaded_value s e Hl) as (v & Hv & _); [congruence..|]. congruence.
  - destruct (loaded_full _ _ _ _ E Hl) as (es & -> & HF & H17 & Hsh).
    pose proof (findChild_ok cs es (Z.to_nat (st_index s + 1)) path anc HF H17) as Hf.
    destruct (findChild _ _ _ _) as [[[c p] j]|]; [|by eexists]. destruct Hf as (ec & _ & Hch & Hw).
    eexists. split; [done|]. exists ec. eexists. by eapply found_full.
  - destruct (short_child_ok s k v fl e path anc E Hl Hi) as (r & -> & Hr). exists r. split; [done|].
    destruct r.2 as [[c p]|]; [|done]. destruct Hr as [ec Hr]. by exists ec, [].
  - destruct Hl as [_ _ Hh]. by rewrite E in Hh.
  - destruct (loaded_value s e Hl) as (w & _ & ->); [congruence..|]. by eexists.
Qed.

(** ** The child closest to a key *)
Definition before (key : bytes) (x : bytes * Node) : Prop := bytes_less x.1 key = true.
#[local] Instance before_dec key x : Decision (before key x).
Proof. unfold before. apply _. Defined.

(** What is below a child whose next sibling is before the key, or at it. *)
Lemma before_sibling key path j j' ec : (j < j')%nat → bytes_less (path ++ [Z.of_nat j']) key = true →
  Forall (before key) (walk (path ++ [Z.of_nat j]) ec).
Proof.
  intros Hj Hk. apply Forall_forall. intros x [s Hs]%walk_prefix. unfold before. rewrite Hs, <-app_assoc.
  eapply bytes_less_trans; [|exact Hk]. apply bytes_less_branch. lia.
Qed.
Lemma not_before_siblings key path j cs : bytes_less (path ++ [Z.of_nat j]) key = false →
  ∀ x, x ∈ walk_children path j cs → ¬ before key x.
Proof.
  intros Hk x (j' & s & Hj & Hx)%walk_children_path. unfold before. rewrite Hx. apply not_true_iff_false.
  eapply bytes_le_trans; [exact Hk|]. destruct (decide (j = j')) as [<-|Hne].
  - change (path ++ Z.of_nat j :: s) with (path ++ [Z.of_nat j] ++ s). rewrite app_assoc. apply bytes_less_prefix.
  - apply bytes_less_asym, bytes_less_branch. lia.
Qed.

Lemma closest_ok fuel cs es path anc key : Forall2 expands (map strip cs) es → length es = 17%nat → ∀ c p j ec,
  child_at cs es path c p j ec → bytes_less p key = true → (17 ≤ fuel + j)%nat →
  ∃ c' p' j' ec' sk, closest fuel cs path anc key (c, p, j) = Ret (c', p', j') ∧ child_at cs es path c' p' j' ec' ∧
    walk p ec ++ walk_children path (S j) (drop (S j) es) = sk ++ walk p' ec' ++ walk_children path (S j') (drop (S j') es) ∧
    Forall (before key) sk ∧ ∀ x, x ∈ walk_children path (S j') (drop (S j') es) → ¬ before key x.
Proof.
  intros HF Hl. induction fuel as [|fuel IH]; intros c p j ec Hch Hp Hf; [pose proof (ch_bound _ _ _ _ _ _ _ Hch); lia|].
  cbn [closest snd]. pose proof (findChild_ok cs es (S j) path anc HF Hl) as Hn.
  destruct (findChild cs (S j) path anc) as [[[c' p'] j']|].
  2:{ exists c, p, j, ec, []. rewrite Hn. split_and!; try done. by intros x ?%elem_of_nil. }
  destruct Hn as (ec' & Hj & Hch' & Hw). cbn [fst snd]. destruct (bytes_less p' key) eqn:Hp'.
  - destruct (IH c' p' j' ec' Hch' Hp') as (c2 & p2 & j2 & ec2 & sk & H1 & H2 & H3 & H4 & H5); [lia|].
    exists c2, p2, j2, ec2, (walk p ec ++ sk). split_and!; [done..| | |done].
    + by rewrite Hw, <-app_assoc, H3.
    + apply Forall_app. split; [|done]. destruct Hch as [_ _ _ _ _ _ _ ->]. eapply before_sibling; [exact Hj|].
      by destruct Hch' as [_ _ _ _ _ _ _ <-].
  - exists c, p, j, ec, []. split_and!; try done. rewrite Hw. destruct Hch' as [_ _ Hec' _ _ _ _ ->].
    intros x [[s Hs]%walk_prefix|Hx]%elem_of_app.
    + unfold before. rewrite Hs. apply not_true_iff_false. eapply bytes_le_trans; [exact Hp'|]. apply bytes_less_prefix.
    + apply (not_before_siblings key path j' (drop j' es) Hp'). rewrite (drop_S _ _ _ Hec'). cbn [walk_children]. apply elem_of_app. by right.
Qed.

Lemma nextChildAt_ok key s e path anc : loaded s e → -1 ≤ st_index s →
  ∃ r, nextChildAt key s path anc = Ret r ∧
    match r.2 with
    | None => r.1 = s ∧ rest_of path e (st_index s) = []
    | Some (c, p) => ∃ sk ec rest, found s e path r.1 c p sk ec rest ∧ Forall (before key) sk ∧
        (bytes_less p key = true → ∀ x, x ∈ rest → ¬ before key x)
    end.
Proof.
  intros Hl Hi. unfold nextChildAt. destruct (st_Node s) as [|cs fl|k v fl|h|v] eqn:E.
  - destruct (loaded_value s e Hl) as (v & Hv & _); [congruence..|]. congruence.
  - destruct (loaded_full _ _ _ _ E Hl) as (es & -> & HF & H17 & Hsh).
    pose proof (findChild_ok cs es (Z.to_nat (st_index s + 1)) path anc HF H17) as Hf.
    destruct (findChild _ _ _ _) as [[[c p] j]|]; [|by eexists]. destruct Hf as (ec & _ & Hch & Hw). cbn [fst snd].
    destruct (bytes_less p key) eqn:Hp.
    + destruct (closest_ok (length cs) cs es path anc key HF H17 c p j ec Hch Hp) as (c' & p' & j' & ec' & sk & H1 & H2 & H3 & H4 & H5).
      { apply Forall2_length in HF. rewrite length_map in HF. lia. }
      rewrite H1. eexists. split; [done|]. exists sk, ec', (walk_children path (S j') (drop (S j') es)). split_and!; [|done|done]. eapply found_full; [done..|].
      cbn [rest_of]. by rewrite Hw, H3.
    + eexists. split; [done|]. exists [], ec, (walk_children path (S j) (drop (S j) es)). split_and!; [by eapply found_full|done|congruence].
  - destruct (short_child_ok s k v fl e path anc E Hl Hi) as (r & -> & Hr). exists r. split; [done|].
    destruct r.2 as [[c p]|]; [|done]. destruct Hr as [ec Hr]. exists [], ec, []. split_and!; [done..|]. by intros _ x ?%elem_of_nil.
  - destruct Hl as [_ _ Hh]. by rewrite E in Hh.
  - destruct (loaded_value s e Hl) as (w & _ & ->); [congruence..|]. by eexists.
Qed.

(** ** The stack *)
Context `{RL : RLP}.
Variable hashData : bytes → bytes.
Variable emptyRoot : bytes.

Lemma strip_embedded n : strip (embedded n) = n.
Proof.
  induction n as [|cs IH|k v IH|h|v] using Node_nested_ind; cbn [embedded strip]; try done; [|by rewrite IH].
  f_equal. rewrite map_map. induction IH as [|c cs Hc _ IH]; cbn [map]; [done|]. by rewrite Hc, IH.
Qed.
Lemma strip_decoded h n : strip (decoded h n) = n.
Proof. rewrite <-(strip_embedded n) at 2. by destruct n. Qed.

(** What the resolver returns is what the database has. *)
Definition resolver_ok (it : nodeIterator) : Prop :=
  ∀ get h blob n n', it_resolver it = Some get → get h = Some blob → decodeNode (length blob) blob = Some n →
    store_node (BytesToHash h) = Some n' → n = n'.

Lemma resolve_state_ok it p c ec : resolver_ok it → expands (strip (st_Node c)) ec → shaped ec →
  ∃ c', resolve it p c = inr c' ∧ loaded c' ec ∧ st_index c' = st_index c ∧ st_pathlen c' = st_pathlen c ∧
    (c' = c ∨ ∃ h, store_node h = Some (strip (st_Node c'))).
Proof.
  intros Hr Hx Hs. unfold resolve. destruct (st_Node c) as [|cs fl|k v fl|h|v] eqn:E; try (exists c; split_and!; [done| |done|done|by left]; split; by rewrite ?E).
  cbn [strip] in Hx. inversion Hx as [| | | |h' n e' Hn Hi Hex]; subst.
  assert (∀ hh, loaded (mkState (BytesToHash h) (decoded hh n) (st_parent c) (st_index c) (st_pathlen c)) ec) as Hl
    by (intros hh; split; cbn [st_Node]; [by rewrite strip_decoded|done|by destruct n]).
  unfold resolveHash. destruct (from_resolver it h ≫= _) as [n'|] eqn:Ef.
  - apply bind_Some in Ef as (blob & Hb & Hd). unfold from_resolver in Hb.
    destruct (it_resolver it) as [get|] eqn:Eg; [|done]. cbn in Hb. destruct (get h) as [b|] eqn:Egh; [|done]. cbn in Hb.
    case_bool_decide; [|done]. injection Hb as ->. assert (n' = n) as -> by (by eapply Hr). eexists. split_and!; [done|apply Hl|done|done|].
    right. eexists. cbn [st_Node]. by rewrite strip_decoded.
  - unfold Trie.resolveHash. rewrite Hn. eexists. split_and!; [done|apply Hl|done|done|]. right. eexists. cbn [st_Node]. by rewrite strip_decoded.
Qed.

(** The stack is at [path], and the nodes of [rem] are still to come. *)
Inductive stacked : list nodeIteratorState → bytes → list (bytes * Node) → Prop :=
  | stacked_nil : stacked [] [] []
  | stacked_cons s fs path e r :
      loaded s e → -1 ≤ st_index s → stacked fs (take (st_pathlen s) path) r → (∀ x, x ∈ r → ¬ path `prefix_of` x.1) →
      stacked (s :: fs) path (rest_of path e (st_index s) ++ r).

Lemma stacked_set_index s fs path e r i :
  loaded s e → -1 ≤ i → stacked fs (take (st_pathlen s) path) r → (∀ x, x ∈ r → ¬ path `prefix_of` x.1) →
  stacked (set_index i s :: fs) path (rest_of path e i ++ r).
Proof. intros [H1 H2 H3] Hi Hr Ha. by apply (stacked_cons (set_index i s)). Qed.

Lemma stacked_found s e fs path r s' c p sk ec rest :
  loaded s e → stacked fs (take (st_pathlen s) path) r → (∀ x, x ∈ r → ¬ path `prefix_of` x.1) →
  found s e path s' c p sk ec rest →
  stacked (s' :: fs) path (walk p ec ++ rest ++ r) ∧
  stacked (set_index (st_index s' + 1) s' :: fs) (take (st_pathlen c) p) (rest ++ r) ∧
  ∀ x, x ∈ rest ++ r → ¬ p `prefix_of` x.1.
Proof.
  intros Hl Hst Ha [_ Hx Hsh Hci Hpl (suf & Hsuf & -> & _) (i & Hi & ->) Hsk Hn Hrest Hap]. split_and!.
  - rewrite app_assoc, <-Hn. by apply stacked_set_index.
  - rewrite Hpl, take_app_length. cbn [set_index st_index] in *. rewrite <-Hrest.
    apply (stacked_set_index s fs path e r (i + 1)); [done|lia|done..].
  - intros x [Hx'|Hx']%elem_of_app; [by apply Hap|]. intros [q Hq]. apply (Ha x Hx'). exists (suf ++ q). by rewrite app_assoc.
Qed.

(** The abstract position: before the root, or on the stack. *)
Definition position (e : Node) (it : nodeIterator) (rem : list (bytes * Node)) : Prop :=
  match it_stack it with
  | [] => it_path it = [] ∧ rem = walk [] e
  | _ => stacked (it_stack it) (it_path it) rem
  end.

(** The trie holds [e], and what it caches are its hashes; it does not have
    the hash of the empty trie. *)
Record trie_ok (e : Node) (t : LTrie) : Prop := mkTrieOk {
  tr_coherent : coherent hashData true (lroot t);
  tr_expands : expands (strip (lroot t)) e;
  tr_canon : canon e;
  tr_hash : ∃ h, hash hashData (strip (lroot t)) true = HashNode h ∧ BytesToHash h ≠ emptyRoot
}.
Lemma Hash_ok e t : trie_ok e t → ∃ h t', Hash hashData emptyRoot t = Ret (h, t') ∧ h ≠ emptyRoot ∧ trie_ok e t' ∧ strip (lroot t') = strip (lroot t).
Proof.
  intros [Hc Hx Hcan (h & Hh & Hne)]. destruct (hashc_well hashData (lroot t) true Hc) as (E1 & E2 & E3).
  unfold Hash, hashRoot. destruct (lroot t) as [|cs fl|k v fl|h0|v] eqn:E; [inversion Hx; by subst| | | |inversion Hx; by subst];
    rewrite E1, Hh; (eexists _, _; split; [done|]; split; [done|]; split; [|done]; split; cbn [lroot]; [done|by rewrite E2|done|rewrite E2; by exists h]).
Qed.

(** The iterators [peek] and [seek] turn [it] into. *)
Record same_iterator (it it' : nodeIterator) : Prop := mkSame {
  same_trie : ∀ e, trie_ok e (it_trie it) → trie_ok e (it_trie it');
  same_err : it_err it' = it_err it;
  same_resolver : it_resolver it' = it_resolver it;
  same_strip : strip (lroot (it_trie it')) = strip (lroot (it_trie it))
}.

(** The state [c] at [p] that was found stands for [n]; what is not below it
    comes after, [below]. *)
Record ready (e : Node) (it : nodeIterator) (c : nodeIteratorState) (counted : bool) (p : bytes) (n : Node)
    (below : list (bytes * Node)) : Prop := mkReady {
  rd_loaded : loaded c n;
  rd_index : st_index c = -1;
  rd_position : position e it ((p, n) :: rest_of p n (-1) ++ below);
  rd_stack : ∃ fs, it_stack (push c counted p it) = c :: fs ∧ stacked fs (take (st_pathlen c) p) below;
  rd_apart : ∀ x, x ∈ below → ¬ p `prefix_of` x.1
}.
Lemma ready_pushed e it c counted p n below :
  ready e it c counted p n below → stacked (it_stack (push c counted p it)) p (rest_of p n (-1) ++ below).
Proof. intros [Hl Hi _ (fs & -> & Hfs) Ha]. rewrite <-Hi. by apply stacked_cons; [|lia|..]. Qed.

Definition steps_to (P : bytes * Node → Prop) (next : nodeIteratorState → bytes → bytes → go (nodeIteratorState * option (nodeIteratorState * bytes))) : Prop :=
  ∀ s e path anc, loaded s e → -1 ≤ st_index s → ∃ r, next s path anc = Ret r ∧
    match r.2 with
    | None => r.1 = s ∧ rest_of path e (st_index s) = []
    | Some (c, p) => ∃ sk ec rest, found s e path r.1 c p sk ec rest ∧ Forall P sk
    end.

Definition peek_result (P : bytes * Node → Prop) (e0 : Node) (it : nodeIterator) (rem : list (bytes * Node))
    (res : nodeIterator * (it_error + nodeIteratorState * bool * bytes)) : Prop :=
  same_iterator it res.1 ∧
  match res.2 with
  | inl err => err = IteratorEnd ∧ Forall P rem
  | inr (c, counted, p) => ∃ sk n below, rem = sk ++ (p, n) :: rest_of p n (-1) ++ below ∧ Forall P sk ∧
      ready e0 res.1 c counted p n below
  end.

Lemma peek_step e0 it s fs path e r s' c p sk ec rest :
  resolver_ok it → loaded s e → stacked fs (take (st_pathlen s) path) r → (∀ x, x ∈ r → ¬ path `prefix_of` x.1) →
  found s e path s' c p sk ec rest →
  let it' := set_stack (s' :: fs) path it in
  ∃ c', resolve it' p c = inr c' ∧ ready e0 it' c' true p ec (rest ++ r) ∧
    rest_of path e (st_index s) ++ r = sk ++ (p, ec) :: rest_of p ec (-1) ++ rest ++ r.
Proof.
  intros Hr Hl Hst Ha Hf it'. pose proof (fd_shaped _ _ _ _ _ _ _ _ _ Hf) as Hsh.
  destruct (resolve_state_ok it' p c ec Hr (fd_expands _ _ _ _ _ _ _ _ _ Hf) Hsh) as (c' & -> & Hc' & Hi' & Hp' & _).
  destruct (stacked_found s e fs path r s' c p sk ec rest Hl Hst Ha Hf) as (H1 & H2 & H3).
  pose proof (walk_rest p ec (shaped_nil _ Hsh)) as Hw. rewrite Hw in H1. exists c'. split_and!; [done| |].
  - split; [done|by rewrite Hi'; apply Hf|done| |done]. exists (set_index (st_index s' + 1) s' :: fs). split; [done|]. by rewrite Hp'.
  - rewrite (fd_skipped _ _ _ _ _ _ _ _ _ Hf), Hw. by rewrite <-!app_assoc.
Qed.

Lemma peek_loop_ok P next e0 it : steps_to P next → resolver_ok it → ∀ stack path rem, stacked stack path rem →
  ∃ res, peek_loop next stack path it = Ret res ∧ peek_result P e0 it rem res.
Proof.
  intros Hnext Hr stack path rem Hs. induction Hs as [|s fs path e r Hl Hi Hst IH Ha]; [by eexists|]. cbn [peek_loop].
  destruct (Hnext s e path (ancestor_of s) Hl Hi) as ([s' [[c p]|]] & -> & Hc); cbn [mbind go_bind fst snd] in *.
  - destruct Hc as (sk & ec & rest & Hf & HP). destruct (peek_step e0 it s fs path e r s' c p sk ec rest Hr Hl Hst Ha Hf) as (c' & -> & Hrd & ->).
    eexists. split; [done|]. split; [done|]. by exists sk, ec, (rest ++ r).
  - destruct Hc as [-> ->]. exact IH.
Qed.

Lemma init_ok e it : it_stack it = [] → it_path it = [] → trie_ok e (it_trie it) → resolver_ok it →
  ∃ it' c, init hashData emptyRoot it = Ret (it', inr (c, false, [])) ∧ same_iterator it it' ∧ ready e it' c false [] e [] ∧
    it_stack (push c false [] it') = [c] ∧ st_pathlen c = 0%nat ∧
    (strip (st_Node c) = strip (lroot (it_trie it)) ∨ ∃ h, store_node h = Some (strip (st_Node c))).
Proof.
  intros Hs Hp Ht Hr. destruct (Hash_ok e (it_trie it) Ht) as (h & t' & Hh & Hne & Ht' & Hsame). unfold init. rewrite Hh. cbn [mbind go_bind].
  set (it' := mkNodeIterator t' (it_stack it) (it_path it) (it_err it) (it_resolver it)).
  set (st := mkState _ _ _ _ _). destruct Ht' as [Hc' Hx' Hcan' Hh'].
  destruct (resolve_state_ok it' [] st e) as (c' & -> & Hl & Hi & Hpl & Hnode); [done|done|by left|].
  assert (it_stack (push c' false [] it') = [c']) as Hst by (unfold push; cbn [it_stack it']; by rewrite Hs).
  exists it', c'. split_and!; [done| | |done|done|].
  3: { destruct Hnode as [->|[h' Hn]]; [left; exact Hsame|right; by exists h']. }
  - split; [|done|done|exact Hsame]. intros e' He'. destruct (Hash_ok e' (it_trie it) He') as (h2 & t2 & Hh2 & _ & Ht2 & _). rewrite Hh in Hh2. by injection Hh2 as <- <-.
  - split; [done|done| | |by intros x ?%elem_of_nil].
    + unfold position. cbn [it_stack it' it_path]. rewrite Hs, app_nil_r. split; [done|]. symmetry. apply walk_rest, shaped_nil, Hl.
    + exists []. split; [done|]. rewrite take_nil. constructor.
Qed.

(** ** [Next] takes the first node off the rest *)
Lemma stacked_below s fs path rem : stacked (s :: fs) path rem →
  ∃ r, stacked fs (take (st_pathlen s) path) r ∧ filter (λ x, ¬ path `prefix_of` x.1) rem = r.
Proof.
  inversion 1 as [|s' fs' path' e r Hl Hi Hst Ha]; subst. exists r. split; [done|]. rewrite filter_app.
  rewrite filter_none, filter_all; [done|done|]. intros x (q & _ & Hx)%rest_prefix; [|by destruct Hl]. intros []. by exists q.
Qed.

(** What is to come when the nodes below the current one are skipped. *)
Definition dropped (descend : bool) (it : nodeIterator) (rem : list (bytes * Node)) : list (bytes * Node) :=
  if descend then rem
  else match it_stack it with [] => rem | _ => filter (λ x, ¬ it_path it `prefix_of` x.1) rem end.

Definition nothing (x : bytes * Node) : Prop := False.
Lemma nothing_skipped (sk : list (bytes * Node)) : Forall nothing sk → sk = [].
Proof. by destruct 1. Qed.

Lemma steps_nextChild : steps_to nothing nextChild.
Proof.
  intros s e path anc Hl Hi. destruct (nextChild_ok s e path anc Hl Hi) as (r & -> & Hr). exists r. split; [done|].
  destruct r.2 as [[c p]|]; [|done]. destruct Hr as (ec & rest & Hf). by exists [], ec, rest.
Qed.
Lemma steps_nextChildAt key : steps_to (before key) (nextChildAt key).
Proof.
  intros s e path anc Hl Hi. destruct (nextChildAt_ok key s e path anc Hl Hi) as (r & -> & Hr). exists r. split; [done|].
  destruct r.2 as [[c p]|]; [|done]. destruct Hr as (sk & ec & rest & Hf & HP & _). by exists sk, ec, rest.
Qed.

Lemma peek_ok e it rem d : trie_ok e (it_trie it) → resolver_ok it → position e it rem →
  ∃ res, peek hashData emptyRoot it d = Ret res ∧ peek_result nothing e it (dropped d it rem) res.
Proof.
  intros Ht Hr Hp. unfold peek, dropped, position in *. destruct (it_stack it) as [|s fs] eqn:Es.
  { destruct Hp as [Hp ->]. destruct (init_ok e it Es Hp Ht Hr) as (it' & c & H1 & H2 & H3 & _). eexists. split; [exact H1|]. split; [done|].
    exists [], e, []. split_and!; [|done|done]. transitivity (walk [] e); [by destruct d|].
    rewrite app_nil_r. apply walk_rest, shaped_nil, H3. }
  destruct d; cbn [mbind go_bind].
  - rewrite Es. by apply peek_loop_ok; [apply steps_nextChild|..].
  - unfold pop. rewrite Es. cbn [mbind go_bind set_stack it_stack it_path].
    destruct (stacked_below _ _ _ _ Hp) as (r & Hst & ->).
    destruct (peek_loop_ok nothing nextChild e (set_stack fs (take (st_pathlen s) (it_path it)) it) steps_nextChild Hr _ _ _ Hst)
      as (res & H1 & [[] H2]). by exists res.
Qed.

(** An iterator without errors that has [rem] to visit. *)
Definition iterates (e : Node) (it : nodeIterator) (rem : list (bytes * Node)) : Prop :=
  trie_ok e (it_trie it) ∧ resolver_ok it ∧
  (it_err it = Some IteratorEnd ∧ rem = [] ∨ it_err it = None ∧ position e it rem).
(** It stands on the node [n] at [p]. *)
Definition stands (it : nodeIterator) (p : bytes) (n : Node) : Prop :=
  it_path it = p ∧ ∃ s fs, it_stack it = s :: fs ∧ loaded s n.

Lemma Next_ok e it rem d : iterates e it rem →
  ∃ it', match dropped d it rem with
         | [] => it_Next hashData emptyRoot it d = Ret (false, it') ∧ iterates e it' [] ∧ it_Error it' = None
         | (p, n) :: rem' => it_Next hashData emptyRoot it d = Ret (true, it') ∧ iterates e it' rem' ∧ stands it' p n
         end.
Proof.
  intros (Ht & Hr & [[He ->]|[He Hp]]); unfold it_Next; rewrite He.
  - exists it. assert (dropped d it [] = []) as -> by (unfold dropped; by destruct d, (it_stack it)).
    cbv beta iota. split_and!; [done|split_and!; [done..|by left]|]. unfold it_Error. by rewrite He.
  - unfold next_step. destruct (peek_ok e it rem d Ht Hr Hp) as ([it' r] & -> & [Hst Hse Hsr _] & Hres). cbn [mbind go_bind fst snd] in *.
    destruct r as [err|[[c counted] p]].
    + destruct Hres as [-> ->%nothing_skipped]. eexists. cbv beta iota. split_and!; [done|split_and!; [by apply Hst| |by left]|done].
      intros get h blob n n' Hg. cbn [set_err it_resolver] in Hg. rewrite Hsr in Hg. by apply Hr.
    + destruct Hres as (sk & n & below & -> & ->%nothing_skipped & Hrd). pose proof (ready_pushed _ _ _ _ _ _ _ Hrd) as Hpush.
      pose proof (rd_loaded _ _ _ _ _ _ _ Hrd) as Hl. eexists. cbv beta iota. split_and!; [done|split_and!|].
      * by apply Hst.
      * intros get h blob n0 n' Hg. cbn in Hg. rewrite Hsr in Hg. by apply Hr.
      * right. split; [done|]. exact Hpush.
      * split; [done|]. by eexists _, _.
Qed.

(** ** [seek] drops what is before the key *)
Abbreviation peekSeek := (peekSeek hashData emptyRoot).
Abbreviation seek_loop := (seek_loop hashData emptyRoot).

Lemma sorted_from key p n (rem : list (bytes * Node)) :
  StronglySorted path_less ((p, n) :: rem).*1 → bytes_less p key = false → ∀ x, x ∈ (p, n) :: rem → ¬ before key x.
Proof.
  intros [HF _]%StronglySorted_cons Hp x Hx. unfold before. apply not_true_iff_false. apply elem_of_cons in Hx as [->|Hx]; [done|].
  eapply bytes_le_trans; [exact Hp|]. apply bytes_less_asym. rewrite Forall_forall in HF. apply HF. by apply list_elem_of_fmap_2.
Qed.

(** Nothing before the key is left: the next state is found as it is. *)
Lemma peek_past e0 it fs path r key : resolver_ok it → stacked fs path r → (∀ x, x ∈ r → ¬ before key x) →
  ∃ it' x, peek_loop (nextChildAt key) fs path it = Ret (it', x) ∧ same_iterator it it' ∧
    (x = inl IteratorEnd ∧ r = [] ∨ ∃ c counted p, x = inr (c, counted, p) ∧ bytes_less p key = false ∧ position e0 it' r).
Proof.
  intros Hr Hst Hk. destruct (peek_loop_ok (before key) (nextChildAt key) e0 it (steps_nextChildAt key) Hr _ _ _ Hst)
    as ([it' x] & -> & Hs & Hx). exists it', x. split_and!; [done..|]. cbn [fst snd] in *.
  destruct x as [err|[[c counted] p]].
  - destruct Hx as [-> HF]. left. split; [done|]. destruct r as [|y r]; [done|]. apply Forall_cons in HF as [Hy _].
    destruct (Hk y); [by left|done].
  - destruct Hx as (sk & n & below & -> & HF & Hrd). right. exists c, counted, p.
    assert (sk = []) as -> by (destruct sk as [|y sk]; [done|]; apply Forall_cons in HF as [Hy _]; destruct (Hk y); [by left|done]).
    split_and!; [done| |apply Hrd]. apply not_true_iff_false. apply (Hk (p, n)). by left.
Qed.

(** The outcome of a search for [key] among [rem]. *)
Definition sought (e0 : Node) (key : bytes) (it : nodeIterator) (rem : list (bytes * Node)) (res : option it_error * nodeIterator) : Prop :=
  same_iterator it res.2 ∧ ∃ sk rem', rem = sk ++ rem' ∧ Forall (before key) sk ∧ (∀ x, x ∈ rem' → ¬ before key x) ∧
    (res.1 = Some IteratorEnd ∧ rem' = [] ∨ res.1 = None ∧ position e0 res.2 rem').

Lemma sought_past e0 key it sk r fs path it0 fuel prefix state :
  resolver_ok it0 → stacked fs path r → Forall (before key) sk → (∀ x, x ∈ r → ¬ before key x) → same_iterator it it0 →
  peekSeek state key = peek_loop (nextChildAt key) fs path it0 →
  ∃ res, seek_loop (S fuel) prefix key state = Ret res ∧ sought e0 key it (sk ++ r) res.
Proof.
  intros Hr Hst Hsk Hk [S1 S2 S3 S4] Hp. destruct (peek_past e0 it0 fs path r key Hr Hst Hk) as (it' & x & Hx & [T1 T2 T3 T4] & Hcase).
  cbn [Iterator.seek_loop]. rewrite Hp, Hx. cbn [mbind go_bind].
  destruct Hcase as [[-> ->]|(c & counted & p & -> & Hpk & Hpos)].
  - eexists. split; [done|]. split; [split; naive_solver congruence|]. exists sk, []. split_and!; [done..|by left].
  - rewrite Hpk. eexists. split; [done|]. split; [split; naive_solver congruence|]. exists sk, r. split_and!; [done..|by right].
Qed.

(** The calls needed from a node at [path]. *)
Definition seek_need (key path : bytes) : nat :=
  if decide (path `prefix_of` key) then (length key - length path + 2)%nat else 1%nat.

Lemma seek_loop_ok e0 key prefix fuel : ∀ it s fs e r,
  it_stack it = s :: fs → loaded s e → -1 ≤ st_index s → stacked fs (take (st_pathlen s) (it_path it)) r →
  (∀ x, x ∈ r → ¬ it_path it `prefix_of` x.1) → (∀ x, x ∈ r → ¬ before key x) → bytes_less (it_path it) key = true →
  StronglySorted path_less (rest_of (it_path it) e (st_index s) ++ r).*1 → resolver_ok it → (seek_need key (it_path it) ≤ fuel)%nat →
  ∃ res, seek_loop fuel prefix key it = Ret res ∧ sought e0 key it (rest_of (it_path it) e (st_index s) ++ r) res.
Proof.
  induction fuel as [|fuel IH]; intros it s fs e r Es Hl Hi Hst Ha Hk Hlt Hsort Hr Hf; unfold seek_need in Hf; [case_decide; lia|].
  case_decide as Hpre.
  2:{ eapply (sought_past e0 key it _ r fs _ (set_stack fs (take (st_pathlen s) (it_path it)) it)); try done.
      - apply Forall_forall. intros x (q & _ & Hx)%rest_prefix; [|apply Hl]. unfold before. rewrite Hx. by apply bytes_less_extend.
      - unfold Iterator.peekSeek, pop. rewrite Es, decide_False by done. done. }
  destruct (nextChildAt_ok key s e (it_path it) (ancestor_of s) Hl Hi) as ([s' o] & Hn & Hc). cbn [fst snd] in Hc.
  assert (peekSeek it key = peek_loop (nextChildAt key) (s :: fs) (it_path it) it) as Hpk
    by (unfold Iterator.peekSeek; rewrite Es, decide_True by done; cbn [mbind go_bind]; by rewrite Es).
  destruct o as [[c p]|].
  2:{ destruct Hc as [-> Hrest]. rewrite Hrest. eapply (sought_past e0 key it [] r fs _ it); try done.
      rewrite Hpk. cbn [peek_loop]. by rewrite Hn. }
  destruct Hc as (sk & ec & rest & Hfd & HP & Hafter).
  destruct (peek_step e0 it s fs (it_path it) e r s' c p sk ec rest Hr Hl Hst Ha Hfd) as (c' & Hres & Hrd & Heq).
  set (it1 := set_stack (s' :: fs) (it_path it) it) in *. rewrite Heq in Hsort |- *.
  rewrite fmap_app in Hsort. apply StronglySorted_app in Hsort as (_ & _ & Hsort).
  cbn [Iterator.seek_loop]. rewrite Hpk. cbn [peek_loop]. rewrite Hn. cbn [mbind go_bind]. fold it1. rewrite Hres.
  destruct (bytes_less p key) eqn:Hp.
  2:{ eexists. split; [done|]. split; [done|]. exists sk. eexists. split_and!; [done..| |].
      - by apply sorted_from.
      - right. split; [done|]. apply Hrd. }
  destruct Hrd as [Hl' Hi' _ (fs' & Hfs' & Hst') Hap']. set (it2 := push c' true p it1) in *.
  destruct (IH it2 c' fs' ec (rest ++ r)) as (res & H1 & [H2 (sk' & rem' & H3 & H4 & H5 & H6)]); try done; [lia| | | |].
  - intros x [Hx|Hx]%elem_of_app; [by apply Hafter|by apply Hk].
  - rewrite Hi'. by apply StronglySorted_cons in Hsort as [_ ?].
  - unfold seek_need. case_decide as Hpre'; [|lia]. destruct (fd_path _ _ _ _ _ _ _ _ _ Hfd) as (suf & Hsuf & -> & _).
    change (it_path it2) with (it_path it ++ suf) in *. apply prefix_length in Hpre'. rewrite length_app in *.
    destruct suf; [done|]. cbn [length] in *. lia.
  - rewrite H1. exists res. split; [done|]. rewrite Hi' in H3. change (it_path it2) with p in H3. split; [by destruct H2|].
    exists (sk ++ (p, ec) :: sk'), rem'. split_and!; [| |done|done].
    + rewrite H3. by rewrite <-app_assoc.
    + apply Forall_app. split; [done|]. by constructor.
Qed.

Lemma seek_ok e it start :
  it_stack it = [] → it_path it = [] → trie_ok e (it_trie it) → resolver_ok it →
  ∃ res, seek hashData emptyRoot it start = Ret res ∧ sought e (take (length (keybytesToHex start) - 1) (keybytesToHex start)) it (walk [] e) res.
Proof.
  intros Hs Hp Ht Hr. unfold seek. set (key := take _ _). 
  assert (∃ f, (length key + 3 = S f)%nat ∧ (length key + 2 ≤ f)%nat) as (f & -> & Hf) by (exists (length key + 2)%nat; lia).
  cbn [Iterator.seek_loop]. unfold Iterator.peekSeek at 1. rewrite Hs.
  destruct (init_ok e it Hs Hp Ht Hr) as (it' & c & -> & [S1 S2 S3 S4] & Hrd & Hone & _). cbn [mbind go_bind].
  assert (walk [] e = ([], e) :: rest_of [] e (-1)) as Hw by (apply walk_rest, shaped_nil, Hrd). destruct (bytes_less [] key) eqn:Hk.
  2:{ eexists. split; [done|]. split; [done|]. exists [], (walk [] e). assert (key = []) as -> by (by destruct key).
      split_and!; [done|done|intros x _; unfold before; by destruct (x.1)|]. right. split; [done|]. rewrite Hw. destruct Hrd as [_ _ Hpos _ _].
      by rewrite app_nil_r in Hpos. }
  destruct Hrd as [Hl Hi _ (fs & Hfs & Hst) Hap]. rewrite Hone in Hfs. injection Hfs as <-.
  destruct (seek_loop_ok e key start f (push c false [] it') c [] e []) as (res & H1 & [[H2 H2' H2'' H2s] (sk & rem' & H3 & H4 & H5 & H6)]);
    try done; [lia|by intros x ?%elem_of_nil..| | | |].
  - cbn [push set_stack it_path]. rewrite app_nil_r, Hi. pose proof (walk_sorted e (ld_shaped _ _ Hl) []) as Hso. rewrite Hw in Hso.
    by apply StronglySorted_cons in Hso as [_ ?].
  - intros get h blob n n' Hg. cbn in Hg. rewrite S3 in Hg. by apply Hr.
  - unfold seek_need. cbn [push set_stack it_path]. rewrite decide_True by apply prefix_nil. simpl. lia.
  - rewrite H1. exists res. split; [done|]. rewrite Hi, app_nil_r in H3. cbn in H2, H2', H2'', H2s, H3. split; [split|].
    + intros e' He'. by apply H2, S1.
    + by rewrite H2', S2.
    + by rewrite H2'', S3.
    + by rewrite H2s, S4.
    + exists (([], e) :: sk), rem'. split_and!; [by rewrite Hw, H3|by constructor|done..].
Qed.

(** A new iterator has to visit what is not before its start. *)
Lemma newNodeIterator_ok e t start :
  trie_ok e t →
  ∃ it, newNodeIterator hashData emptyRoot t start = Ret it ∧
    iterates e it (filter (λ x, ¬ before (nibbles_of start) x) (walk [] e)) ∧ it_resolver it = None ∧
    strip (lroot (it_trie it)) = strip (lroot t).
Proof.
  intros Ht. destruct (Hash_ok e t Ht) as (h & t' & Hh & Hne & Ht' & Hsame). unfold newNodeIterator. rewrite Hh. cbn [mbind go_bind].
  rewrite bool_decide_eq_false_2 by done.
  set (it0 := mkNodeIterator t' [] [] None None).
  assert (∀ it, it_resolver it = None → resolver_ok it) as Hnone by (intros it Hit get ? ? ? ? Hg; congruence).
  destruct (seek_ok e it0 start) as ([o it] & -> & [[S1 S2 S3 S4] (sk & rem & Hw & Hsk & Hrem & Hcase)]); [done..|by apply Hnone|].
  cbn [mbind go_bind fst snd] in *. unfold keybytesToHex in Hsk, Hrem. rewrite take_snoc in Hsk, Hrem.
  eexists. split; [done|]. rewrite Hw, filter_app, (filter_none _ sk), (filter_all _ rem); cbn [app]; [|done|].
  2:{ intros x Hx. rewrite Forall_forall in Hsk. specialize (Hsk x Hx). tauto. }
  split; [|split; [by cbn; rewrite S3|by cbn; rewrite S4]]. split_and!; [by apply S1|by apply Hnone; cbn; rewrite S3|].
  destruct Hcase as [[-> ->]|[-> Hpos]]; [by left|by right].
Qed.

(** ** A sequence of calls of [Next] *)
Abbreviation it_Next := (it_Next hashData emptyRoot).

(** The paths visited, and whether they are leaves, until [Next] fails. *)
Fixpoint visits (it : nodeIterator) (ds : list bool) : go (list (bytes * bool) * nodeIterator) :=
  match ds with
  | [] => Ret ([], it)
  | d :: ds =>
      '(more, it) ← it_Next it d;
      if more : bool then '(l, it') ← visits it ds; Ret ((it_path it, it_Leaf it) :: l, it') else Ret ([], it)
  end.
(** The same on the list of what is left: what is below the last node is
    skipped when the call asks for it. *)
Fixpoint spec_visits (last : bytes) (rem : list (bytes * Node)) (ds : list bool) : list (bytes * Node) :=
  match ds with
  | [] => []
  | d :: ds =>
      match (if d : bool then rem else filter (λ x, ¬ last `prefix_of` x.1) rem) with
      | [] => []
      | x :: rem => x :: spec_visits x.1 rem ds
      end
  end.
Definition is_leaf (n : Node) : bool := match n with ValueNode _ => true | _ => false end.

(** Nodes of the walk of a trie: only leaves have a terminated path. *)
Lemma walk_hasTerm e q n : canon e → (q, n) ∈ walk [] e → hasTerm q = is_leaf n.
Proof.
  intros He Hq. pose proof (walk_entry e (or_introl He) [] q n Hq) as Hn. destruct n as [|cs|k v|h|v]; try done.
  - destruct Hn as (ns & -> & Hns). by apply hasTerm_nibbles.
  - destruct Hn as (ns & -> & Hns). by apply hasTerm_nibbles.
  - destruct Hn as (k & -> & Hk & _). case_decide; [by destruct e|]. destruct Hk as (ns & -> & _). apply hasTerm_snoc.
Qed.

Lemma dropped_sub d it rem : dropped d it rem ⊆ rem.
Proof. unfold dropped. destruct d; [done|]. destruct (it_stack it); [done|]. intros x [_ ?]%list_elem_of_filter. done. Qed.

Lemma visits_ok e ds : ∀ it rem s fs, canon e → iterates e it rem → rem ⊆ walk [] e → it_stack it = s :: fs →
  ∃ it', visits it ds = Ret ((λ x, (x.1, is_leaf x.2)) <$> spec_visits (it_path it) rem ds, it').
Proof.
  induction ds as [|d ds IH]; intros it rem s fs He Hit Hsub Hs; [by eexists|]. cbn [visits spec_visits].
  destruct (Next_ok e it rem d Hit) as [it' Hn]. assert (dropped d it rem = if d then rem else filter (λ x, ¬ it_path it `prefix_of` x.1) rem) as Hd
    by (unfold dropped; by rewrite Hs).
  pose proof (dropped_sub d it rem) as Hds. rewrite Hd in Hn, Hds. destruct (if d then rem else _) as [|[p n] rem'].
  - destruct Hn as (-> & _). by eexists.
  - destruct Hn as (-> & Hit' & <- & s' & fs' & Hs' & Hl). cbn [mbind go_bind fst].
    destruct (IH it' rem' s' fs' He Hit') as (it2 & ->); [|done|]; [by intros x Hx; apply Hsub, Hds; right|]. cbn [mbind go_bind].
    exists it2. unfold it_Leaf. rewrite (walk_hasTerm e _ n He) by (apply Hsub, Hds; by left). done.
Qed.

(** C20. The node iterator refines a list: started at a key on any trie, loaded or
    not, and asked for nodes until the end, it visits the nodes of the loaded
    trie in pre-order from the key on; a call that does not descend skips
    exactly the nodes below the current one; leaves are recognised as
    leaves. *)
Theorem next_refines e t start ds :
  trie_ok e t →
  ∃ it it', newNodeIterator hashData emptyRoot t start = Ret it ∧
    visits it (true :: ds) = Ret ((λ x, (x.1, is_leaf x.2)) <$>
      spec_visits [] (filter (λ x, ¬ before (nibbles_of start) x) (walk [] e)) (true :: ds), it').
Proof.
  intros Ht. destruct (newNodeIterator_ok e t start Ht) as (it & -> & Hit & _). exists it.
  assert (filter (λ x, ¬ before (nibbles_of start) x) (walk [] e) ⊆ walk [] e) as Hsub by (by intros x [_ ?]%list_elem_of_filter).
  revert Hit Hsub. generalize (filter (λ x, ¬ before (nibbles_of start) x) (walk [] e)). intros rem Hit Hsub.
  destruct (Next_ok e it rem true Hit) as [it' Hn]. cbn [visits spec_visits dropped] in *. destruct rem as [|[p n] rem'].
  - destruct Hn as (-> & _). by eexists.
  - destruct Hn as (-> & Hit' & <- & s' & fs' & Hs' & Hl). cbn [mbind go_bind fst]. pose proof (tr_canon _ _ Ht) as He.
    destruct (visits_ok e ds it' rem' s' fs' He Hit') as (it2 & ->); [|done|]; [by intros x Hx; apply Hsub; right|]. cbn [mbind go_bind].
    exists it2. split; [done|]. unfold it_Leaf. rewrite (walk_hasTerm e _ n He) by (apply Hsub; by left). done.
Qed.

(** ** The key-value iterator *)
Variable Database_Node : bytes → option bytes.
#[local] Existing Instance nodeIterator_NodeIterator.
Abbreviation KVIterator := (@Iterator nodeIterator).
Abbreviation NI := (nodeIterator_NodeIterator hashData emptyRoot Database_Node).
Abbreviation kv_Next := (Iterator_Next (NI := NI)).
Abbreviation kv_iterate := (iterate (NI := NI)).

(** The leaves to come. *)
Definition leaves (rem : list (bytes * Node)) : list (bytes * bytes) :=
  omap (λ x, match x.2 with ValueNode v => Some (x.1, v) | _ => None end) rem.
Lemma elem_of_leaves rem q v : (q, v) ∈ leaves rem ↔ (q, ValueNode v) ∈ rem.
Proof.
  unfold leaves. rewrite list_elem_of_omap. split.
  - intros ([q' n] & Hx & Hn). cbn in Hn. destruct n; naive_solver.
  - intros Hx. by exists (q, ValueNode v).
Qed.

(** An entry and its leaf. *)
Definition kv_leaf (kv x : bytes * bytes) : Prop := Forall in_u8 kv.1 ∧ x = (keybytesToHex kv.1, kv.2).

Lemma leaf_here e m it q v : entries e m → (q, ValueNode v) ∈ walk [] e → stands it q (ValueNode v) →
  ∃ k, it_LeafKey it = Ret k ∧ it_LeafBlob it = Ret v ∧ kv_leaf (k, v) (q, v).
Proof.
  intros (Hs & Hm & Hk) Hq (<- & s & fs & Hst & Hl). assert (canon e) as He by (destruct Hs as [->|He]; [by apply elem_of_nil in Hq|done]).
  pose proof (walk_entry e (or_introl He) [] _ _ Hq) as (k & Heq & Hkt & Hw). cbn [app] in Heq. rewrite Heq in *.
  case_decide; [by destruct e|]. destruct (Hk k v Hkt Hw) as (kb & Hu8 & ->). exists kb.
  assert (st_Node s = LValue v) as Hnode.
  { destruct Hl as [Hx _ Hh]. destruct (st_Node s); cbn [strip] in Hx; try done; inversion Hx; by subst. }
  unfold it_LeafKey, it_LeafBlob. rewrite Hst, Hnode, Heq. split_and!; [|done|done]. by apply hexToKeybytes_keybytes.
Qed.

Lemma kv_Next_ok e m rem : entries e m → canon e → ∀ I, iterates e (nodeIt I) rem → rem ⊆ walk [] e → it_Err I = None →
  ∃ I', it_Err I' = None ∧
    match leaves rem with
    | [] => ∀ fuel, (length rem < fuel)%nat → kv_Next fuel I = Ret (false, I')
    | x :: ls => (∀ fuel, (length rem < fuel)%nat → kv_Next fuel I = Ret (true, I')) ∧ kv_leaf (it_Key I', it_Value I') x ∧
        ∃ rem', iterates e (nodeIt I') rem' ∧ leaves rem' = ls ∧ (length rem' < length rem)%nat ∧ rem' ⊆ rem
    end.
Proof.
  intros Hm He. induction rem as [|[p n] rem IH]; intros I Hit Hsub Herr.
  - destruct (Next_ok e (nodeIt I) [] true Hit) as (it' & Hn & _ & Hnone). eexists. split; [|intros [|fuel] Hf; [lia|]; cbn [Iterator_Next ni_Next nodeIterator_NodeIterator]; rewrite Hn; reflexivity].
    done.
  - destruct (Next_ok e (nodeIt I) ((p, n) :: rem) true Hit) as (it' & Hn & Hit' & Hst). cbn [dropped] in Hn.
    assert ((p, n) ∈ walk [] e) as Hin by (apply Hsub; by left). assert (it_Leaf it' = is_leaf n) as Hleaf.
    { unfold it_Leaf. destruct Hst as [-> _]. by apply (walk_hasTerm e). }
    assert (rem ⊆ walk [] e) as Hsub' by (intros x Hx; apply Hsub; by right).
    destruct (is_leaf n) eqn:El.
    + destruct n as [| | | |v]; try done. destruct (leaf_here e m it' p v Hm Hin Hst) as (k & Hk & Hv & Hkv).
      exists (mkIterator it' k v (it_Err I)). split; [done|]. cbn. split_and!.
      * intros [|fuel] Hf; [lia|]. cbn [Iterator_Next ni_Next nodeIterator_NodeIterator]. rewrite Hn. cbn [mbind go_bind ni_Leaf ni_LeafKey ni_LeafBlob nodeIterator_NodeIterator].
        rewrite Hleaf, Hk, Hv. done.
      * done.
      * exists rem. split_and!; [exact Hit'|done|lia|intros x Hx; by right].
    + assert (leaves ((p, n) :: rem) = leaves rem) as -> by (by destruct n).
      destruct (IH (mkIterator it' (it_Key I) (it_Value I) (it_Err I)) Hit' Hsub' Herr) as (I' & HI' & HI).
      assert (∀ fuel, (length ((p, n) :: rem) < fuel)%nat → ∃ f, (length rem < f)%nat ∧ kv_Next fuel I = kv_Next f (mkIterator it' (it_Key I) (it_Value I) (it_Err I))) as Hstep.
      { intros [|fuel] Hf; [lia|]. exists fuel. split; [simpl in Hf; lia|]. cbn [Iterator_Next ni_Next nodeIterator_NodeIterator]. rewrite Hn. cbn [mbind go_bind ni_Leaf nodeIterator_NodeIterator]. by rewrite Hleaf. }
      exists I'. split; [done|]. destruct (leaves rem) as [|x ls].
      * intros fuel (f & Hf & ->)%Hstep. by apply HI.
      * destruct HI as (H1 & H2 & rem' & H3 & H4 & H5 & H6). split_and!; [intros fuel (f & Hf & ->)%Hstep; by apply H1|done|].
        exists rem'. split_and!; [done..|simpl; lia|]. intros y Hy. right. by apply H6.
Qed.

Lemma kv_iterate_ok e m : entries e m → canon e → ∀ k rem I, (length rem ≤ k)%nat → iterates e (nodeIt I) rem → rem ⊆ walk [] e → it_Err I = None →
  ∃ kvs I', Forall2 kv_leaf kvs (leaves rem) ∧ it_Err I' = None ∧ ∀ fuel, (length rem + 2 ≤ fuel)%nat → kv_iterate fuel I = Ret (kvs, I').
Proof.
  intros Hm He k. induction k as [|k IH]; intros rem I Hk Hit Hsub Herr;
    (destruct (kv_Next_ok e m rem Hm He I Hit Hsub Herr) as (I' & HI' & HI); destruct (leaves rem) as [|x ls] eqn:El;
     [exists [], I'; split_and!; [constructor|done|]; intros [|fuel] Hf; [lia|]; cbn [iterate]; by rewrite HI by lia|]);
    destruct HI as (H1 & H2 & rem' & H3 & H4 & H5 & H6); [lia|].
  destruct (IH rem' I') as (kvs & I2 & Hkvs & HI2 & Hall); [lia|done|by etrans|done|].
  exists ((it_Key I', it_Value I') :: kvs), I2. split_and!; [constructor; [done|by rewrite <-H4]|done|].
  intros [|fuel] Hf; [lia|]. cbn [iterate]. rewrite H1 by lia. cbn [mbind go_bind]. by rewrite Hall by lia.
Qed.

(** ** All entries *)
Definition with_resolver (r : option resolver) (it : nodeIterator) : nodeIterator :=
  match r with Some get => it_AddResolver it get | None => it end.
(** A resolver never has anything else under a hash than the database. *)
Definition agrees (r : option resolver) : Prop :=
  ∀ get h blob n n', r = Some get → get h = Some blob → decodeNode (length blob) blob = Some n → store_node (BytesToHash h) = Some n' → n = n'.

Lemma hash_forced n e : expands n e → canon e → ∃ h, hash hashData n true = HashNode h.
Proof.
  destruct 1 as [| |cs es|k v ev|h]; try done; intros _; [| |by eexists]; cbn [hash]; unfold nodeToHash; rewrite andb_false_r; by eexists.
Qed.

Lemma leaves_cons q n rem : leaves ((q, n) :: rem) = match n with ValueNode v => (q, v) :: leaves rem | _ => leaves rem end.
Proof. by destruct n. Qed.
Lemma leaves_filter key rem : leaves (filter (λ x, ¬ before key x) rem) = filter (λ kv, bytes_less kv.1 key = false) (leaves rem).
Proof.
  induction rem as [|[q n] rem IH]; [done|]. destruct (decide (before key (q, n))) as [Hb|Hb].
  - rewrite filter_cons_False by tauto. rewrite leaves_cons. destruct n; try exact IH. rewrite filter_cons_False; [exact IH|].
    unfold before in Hb. cbn in *. by rewrite Hb.
  - rewrite filter_cons_True by done. rewrite !leaves_cons. destruct n; try exact IH. rewrite filter_cons_True; [by rewrite IH|].
    by apply not_true_iff_false.
Qed.
Lemma leaves_paths rem : (leaves rem).*1 `sublist_of` rem.*1.
Proof. induction rem as [|[q n] rem IH]; [done|]. destruct n; cbn; [by constructor..|by apply sublist_skip]. Qed.

Lemma iterates_resolver e it rem r : iterates e it rem → it_resolver it = None → agrees r → iterates e (with_resolver r it) rem.
Proof.
  intros (Ht & Hr & Hcase) Hn Ha. destruct r as [get|]; [|done]. split_and!; [done| |done].
  intros get' h blob n n' Hg. cbn in Hg. by apply Ha.
Qed.

Lemma kv_leaf_paths kvs ls : Forall2 kv_leaf kvs ls → keybytesToHex <$> kvs.*1 = ls.*1.
Proof. induction 1 as [|kv x kvs ls [_ ->] _ IH]; [done|]. cbn. by f_equal. Qed.
Lemma kv_leaf_elem kvs ls k v : Forall2 kv_leaf kvs ls → (k, v) ∈ kvs ↔ Forall in_u8 k ∧ (keybytesToHex k, v) ∈ ls.
Proof.
  induction 1 as [|[k' v'] x kvs ls [Hu ->] HF IH]; [set_solver|]. rewrite !elem_of_cons, IH. cbn [fst snd] in *. split.
  - intros [[= -> ->]|[? ?]]; [by split; [|left]|by split; [|right]].
  - intros [Hk [Heq|?]]; [left|by right]. injection Heq as Heq ->. f_equal. by apply keybytesToHex_inj.
Qed.

Lemma fmap_filter_sorted (P : bytes * Node → Prop) `{∀ x, Decision (P x)} rem :
  StronglySorted path_less rem.*1 → StronglySorted path_less (filter P rem).*1.
Proof.
  induction rem as [|x rem IH]; [done|]. intros [Hx Hs]%StronglySorted_cons. rewrite filter_cons. case_decide; [|by apply IH].
  apply StronglySorted_cons. split; [|by apply IH]. rewrite Forall_forall in *. intros y (z & -> & [_ Hz]%list_elem_of_filter)%list_elem_of_fmap.
  apply Hx. by apply list_elem_of_fmap_2.
Qed.
Lemma leaves_sorted rem : StronglySorted path_less rem.*1 → StronglySorted path_less (leaves rem).*1.
Proof.
  induction rem as [|[q n] rem IH]; [done|]. intros [Hx Hs]%StronglySorted_cons. rewrite leaves_cons. destruct n; try by apply IH.
  apply StronglySorted_cons. split; [|by apply IH]. rewrite Forall_forall in *. intros y ([q' w] & -> & Hz%elem_of_leaves)%list_elem_of_fmap.
  apply Hx. by apply (list_elem_of_fmap_2 fst _ (q', ValueNode w)).
Qed.

(** The leaves of the walk of a trie are the entries of its map. *)
Lemma walk_leaves e m k v : entries e m → canon e → Forall in_u8 k → (keybytesToHex k, ValueNode v) ∈ walk [] e ↔ m !! k = Some v.
Proof.
  intros (_ & Hm & _) He Hk. rewrite <-Hm by done. split.
  - intros (q & -> & _ & Hw)%(walk_entry e (or_introl He)). done.
  - intros Hw. apply (walk_value e []); [|done]. left. by apply term_key_keybytes.
Qed.

(** C18. Iteration is complete, sound and ordered: on a trie that holds a map,
    however much of it is loaded and whatever a faithful resolver
    short-circuits, the key-value iterator started at a key ends without an
    error and yields exactly the entries of the map whose hex path is not
    before the start, each once, with its key and value, in increasing order
    of paths. *)
Theorem iterate_all t m start r :
  coherent hashData true (lroot t) → holds (mkTrie (strip (lroot t)) 0) m →
  (∀ h, hash hashData (strip (lroot t)) true = HashNode h → BytesToHash h ≠ emptyRoot) → length emptyRoot = 32%nat → agrees r →
  ∃ it kvs it' F, newNodeIterator hashData emptyRoot t start = Ret it ∧
    (∀ fuel, (F ≤ fuel)%nat → kv_iterate fuel (NewIterator (with_resolver r it)) = Ret (kvs, it')) ∧ it_Err it' = None ∧
    StronglySorted path_less (keybytesToHex <$> kvs.*1) ∧
    ∀ k v, (k, v) ∈ kvs ↔ Forall in_u8 k ∧ m !! k = Some v ∧ bytes_less (keybytesToHex k) (nibbles_of start) = false.
Proof.
  intros Hc (e & Hex & Hm) Hh Hlen Hr. cbn [root] in Hex. pose proof Hm as ([->|He] & Hmk & _).
  { assert (lroot t = LNil) as Hnil by (inversion Hex as [| | | |h n e' Hst Hin He' E]; subst; [by destruct (lroot t)|by apply expands_inner in He']).
    eexists _, [], _, 2%nat. split_and!.
    - unfold newNodeIterator, Hash, hashRoot. rewrite Hnil. cbn [mbind go_bind]. rewrite BytesToHash_id, bool_decide_eq_true_2 by done. done.
    - intros [|[|fuel]] Hf; [lia..|]. by destruct r.
    - by destruct r.
    - constructor.
    - intros k v. split; [by intros ?%elem_of_nil|]. intros (Hk & Hv & _). rewrite <-Hmk in Hv by done. done. }
  assert (trie_ok e t) as Ht by (destruct (hash_forced _ _ Hex He) as [h E]; split; [done..|]; exists h; auto).
  destruct (newNodeIterator_ok e t start Ht) as (it & Hit & Hi & Hn & _). set (rem := filter _ _) in Hi.
  assert (rem ⊆ walk [] e) as Hsub by (by intros x [_ ?]%list_elem_of_filter).
  destruct (kv_iterate_ok e m Hm He (length rem) rem (NewIterator (with_resolver r it))) as (kvs & I' & Hkvs & HI' & Hall);
    [done|by apply iterates_resolver|done|done|].
  exists it, kvs, I', (length rem + 2)%nat. split_and!; [done..| |].
  - rewrite (kv_leaf_paths _ _ Hkvs). apply leaves_sorted, fmap_filter_sorted, walk_sorted. by left.
  - intros k v. rewrite (kv_leaf_elem _ _ k v Hkvs). unfold rem. rewrite leaves_filter, list_elem_of_filter, elem_of_leaves.
    split; [intros (Hk & Hl & Hw)|intros (Hk & Hw & Hl)]; split_and!; try done; by apply (walk_leaves e m).
Qed.
End stack.

(** ** An example: a trie of which nothing is loaded *)
Module DemoIterator.
Import DemoDB DemoCommit.
Definition demo_store : NodeStore := G.
Definition t : LTrie := mkLTrie (LHash root_hash) 0.
Definition emptyRoot : bytes := replicate 32 5.

Lemma root_expands : expands (DB := demo_store) (HashNode root_hash) loaded.
Proof.
  assert (expands (DB := demo_store) (HashNode leaf_hash) leaf) as Hl by (by apply (ex_hash leaf_hash leaf); [vm_compute; reflexivity|done|repeat constructor]).
  apply (ex_hash root_hash branch); [vm_compute; reflexivity|done|]. constructor.
  do 2 (apply Forall2_insert; [|exact Hl]). apply Forall2_replicate. constructor.
Qed.
Lemma loaded_canon : canon loaded.
Proof. destruct t_entries as ([Hn|Hc] & _); [discriminate Hn|done]. Qed.
Lemma t_ok : trie_ok (DB := demo_store) hashData emptyRoot loaded t.
Proof. split; [by split|exact root_expands|exact loaded_canon|]. exists root_hash. split; [done|by vm_compute]. Qed.
Lemma demo_holds : holds (DB := demo_store) (mkTrie (strip (lroot t)) 0) m.
Proof. exists loaded. split; [exact root_expands|exact t_entries]. Qed.
End DemoIterator.

Lemma next_refines_witness :
  ∃ it it', newNodeIterator (DB := DemoIterator.demo_store) DemoCommit.hashData DemoIterator.emptyRoot DemoIterator.t [65] = Ret it ∧
    visits (DB := DemoIterator.demo_store) DemoCommit.hashData DemoIterator.emptyRoot it [true; true; false] =
      Ret ([([8], false); ([8; 1; 1; 1; 1; 1; 16], true)], it').
Proof.
  destruct (next_refines (DB := DemoIterator.demo_store) DemoCommit.hashData DemoIterator.emptyRoot DemoDB.loaded DemoIterator.t [65] [true; false]
    DemoIterator.t_ok) as (it & it' & H1 & H2).
  exists it, it'. split; [exact H1|]. rewrite H2. f_equal.
Defined.

Lemma iterate_all_witness :
  ∃ it kvs it' F, newNodeIterator (DB := DemoIterator.demo_store) DemoCommit.hashData DemoIterator.emptyRoot DemoIterator.t [] = Ret it ∧
    (∀ fuel, (F ≤ fuel)%nat → iterate (NI := nodeIterator_NodeIterator (DB := DemoIterator.demo_store) DemoCommit.hashData DemoIterator.emptyRoot (λ _, None))
       fuel (NewIterator (it_AddResolver it (λ _, Some [1]))) = Ret (kvs, it')) ∧
    ([49; 17; 17], replicate 40 3) ∈ kvs.
Proof.
  destruct (iterate_all (DB := DemoIterator.demo_store) DemoCommit.hashData DemoIterator.emptyRoot (λ _, None) DemoIterator.t DemoCommit.m [] (Some (λ _, Some [1])))
    as (it & kvs & it' & F & H1 & H2 & _ & _ & H3).
  - by split.
  - exact DemoIterator.demo_holds.
  - intros h [= <-]. by vm_compute.
  - reflexivity.
  - intros get h blob n n' [= <-] [= <-] Hd. by vm_compute in Hd.
  - exists it, kvs, it', F. split; [exact H1|]. split; [exact H2|]. apply H3. split; [repeat constructor; unfold in_u8; lia|]. split; by vm_compute.
Defined.
