(* ===== verification/LeafProof.v ===== *)
(** * Proofs from an iterator (src/trie/iterator.go: [LeafProof])

    The stack of an iterator that stands on a leaf holds the nodes on the path
    to it.  [chain] is that invariant of the stack; by it the blobs
    [LeafProof] collects are the proof [Prove] of proof.go writes for the key
    of the leaf. *)
From S2P Require Import Prelude Core Encoding Node Rebuild Trie MerkleProof NodeDB NodeStore Committer Iterator.
Local Open Scope Z_scope.

(** Hashes in a node are hashes. *)
Fixpoint whole (n : Node) : Prop :=
  match n with
  | FullNode cs => foldr (λ c P, whole c ∧ P) True cs
  | ShortNode _ v => whole v
  | HashNode h => length h = 32%nat
  | _ => True
  end.
Lemma whole_children cs : foldr (λ c P, whole c ∧ P) True cs ↔ Forall whole cs.
Proof. induction cs as [|c cs IH]; simpl; [by rewrite Forall_nil|by rewrite Forall_cons, IH]. Qed.

(** A database addressed by content. *)
Record addressed {RL : RLP} {DB : NodeStore} (hashData : bytes → bytes) : Prop := mkAddressed {
  ad_hash : ∀ h n, length h = 32%nat → store_node h = Some n → hash hashData n false = HashNode h;
  ad_whole : ∀ h n, store_node h = Some n → whole n
}.

Section proof.
Context `{DB : NodeStore} `{RL : RLP}.
Variable hashData : bytes → bytes.
Variable emptyRoot : bytes.
Hypothesis DB_addressed : addressed hashData.

(** ** A partly loaded node hashes as the loaded one *)
Lemma slot_child es i c : canon (FullNode es) → es !! i = Some c → (16 ≤ i)%nat → c = NilNode ∨ is_value c.
Proof.
  intros (Hl & _ & Hc)%canon_full Hi Hge. pose proof (lookup_lt_Some _ _ _ Hi). assert (i = 16%nat) as -> by lia.
  by apply (Hc 16%nat).
Qed.
Lemma sub_child es i c : shaped (FullNode es) → es !! i = Some c → c = NilNode ∨ shaped c.
Proof. intros [_ Hs]%shaped_full Hi. by apply (Hs i). Qed.

Definition hashes_as (e : Node) : Prop := shaped e → ∀ n, whole n → expands n e → hash hashData n false = hash hashData e false.

Lemma children_hash cs es i :
  Forall2 expands cs es → Forall whole cs → Forall hashes_as es → (∀ j c, es !! j = Some c → c = NilNode ∨ shaped c) →
  (∀ j c, es !! j = Some c → (16 ≤ i + j)%nat → c = NilNode ∨ is_value c) →
  hashFullNodeChildren hashData i cs = hashFullNodeChildren hashData i es.
Proof.
  intros HF. revert i. induction HF as [|c e cs es Hc HF IH]; intros i Hw He Hs Hslot; [done|].
  apply Forall_cons in Hw as [Hwc Hw], He as [Hec He]. cbn [hashFullNodeChildren]. f_equal.
  - case_bool_decide as Hi.
    + destruct (Hs 0%nat e eq_refl) as [->|Hse].
      * assert (c = NilNode) as -> by (by apply (expands_nil c NilNode)). done.
      * specialize (Hec Hse c Hwc Hc). pose proof (shaped_nil _ Hse). assert (c ≠ NilNode) by (by intros ->; inversion Hc; subst).
        by destruct c, e.
    + assert (¬ inner e) as Hne by (destruct (Hslot 0%nat e eq_refl ltac:(lia)) as [->|]; [by intros []|intros Hin; by destruct e]).
      by apply expands_outer.
  - apply IH; [done..| |]; intros j d Hj; [by apply (Hs (S j))|]. intros Hge. apply (Hslot (S j)); [done|lia].
Qed.

Lemma hash_expands e : hashes_as e.
Proof.
  assert (∀ e, (∀ n, inner n → whole n → expands n e → hash hashData n false = hash hashData e false) →
    ∀ n, whole n → expands n e → hash hashData n false = hash hashData e false) as Hred.
  { intros e' Hin n Hw Hx. destruct n as [|cs|k v|h|v]; try (by apply Hin); inversion Hx as [| | | |h' n e2 Hn Hi Hex]; subst; try done.
    rewrite <-(Hin n Hi); [|by eapply ad_whole; [apply DB_addressed|]|done]. cbn [whole] in Hw. rewrite BytesToHash_id in Hn by done.
    by rewrite (ad_hash _ DB_addressed h n). }
  induction e as [|es IH|k v IH|h|v] using Node_nested_ind; intros Hs; apply Hred; intros n Hi Hw Hx; inversion Hx; subst; try done.
  - cbn [hash]. fold (hashFullNodeChildren hashData 0 cs) (hashFullNodeChildren hashData 0 es).
    rewrite (children_hash cs es 0); [done|done|by apply whole_children|done|by intros j c; apply sub_child|].
    intros j c Hj Hge. destruct Hs as [Hs|[]]. by eapply slot_child.
  - cbn [hash]. pose proof (shaped_short _ _ Hs) as [_ Hsv]. specialize (IH Hsv v0 Hw ltac:(done)).
    assert (match v0 with FullNode _ | ShortNode _ _ => hash hashData v0 false | _ => v0 end =
      match v with FullNode _ | ShortNode _ _ => hash hashData v false | _ => v end) as ->; [|done].
    destruct Hsv as [Hc|Hv]; [|destruct v; try done; inversion H1; subst; done || by apply expands_inner in H1].
    destruct v0, v; try done; inversion H1; subst; done.
Qed.

(** [Prove] treats a loaded node and the same node with unloaded children
    alike. *)
Lemma proofHash_expands s e : loaded s e → whole (strip (st_Node s)) → proofHash hashData (strip (st_Node s)) = proofHash hashData e.
Proof.
  intros Hl Hw. destruct (st_Node s) as [|cs fl|k v fl|h|v] eqn:E.
  - destruct (loaded_value s e Hl) as (v & Hv & _); congruence.
  - destruct (loaded_full _ _ _ _ E Hl) as (es & -> & HF & H17 & Hsh). cbn [strip proofHash]. cbn [strip whole] in Hw. apply whole_children in Hw.
    rewrite (children_hash (map strip cs) es 0); [done|done|done| |done|].
    + apply Forall_true. intros; apply hash_expands.
    + intros j c Hj Hge. destruct Hl as [_ [Hs|[]] _]. by eapply slot_child.
  - destruct (loaded_short _ _ _ _ _ E Hl) as (ev & -> & Hv & Hk & Hsv). cbn [strip proofHash]. unfold hashShortNodeChildren. cbn [strip whole] in Hw.
    pose proof (hash_expands ev Hsv _ Hw Hv) as Heq.
    assert (match strip v with FullNode _ | ShortNode _ _ => hash hashData (strip v) false | _ => strip v end =
      match ev with FullNode _ | ShortNode _ _ => hash hashData ev false | _ => ev end) as ->; [|done].
    destruct Hsv as [Hc|Hev]; destruct (strip v), ev; try done; inversion Hv; subst; try done.
  - destruct Hl as [_ _ Hh]. by rewrite E in Hh.
  - destruct (loaded_value s e Hl) as (w & Hn & ->); [congruence..|]. rewrite E in Hn. by injection Hn as ->.
Qed.

(** ** The stack is the path from the root *)
Variable e0 : Node.

(** The state stands on [e], and its hashes are hashes. *)
Definition standing (s : nodeIteratorState) (e : Node) : Prop :=
  loaded s e ∧ whole (strip (st_Node s)) ∧ -1 ≤ st_index s.

(** [chain stack path ns e]: the top of the stack is [e], and above it are,
    from the root down, [ns]. *)
Inductive chain : list nodeIteratorState → bytes → list Node → Node → Prop :=
  | chain_root s : standing s e0 → st_pathlen s = 0%nat → chain [s] [] [] e0
  | chain_child s' s fs path suf ns e ec :
      chain (s :: fs) path ns e → child_of e suf ec → standing s' ec → st_pathlen s' = length path →
      chain (s' :: s :: fs) (path ++ suf) (ns ++ [e]) ec.

Lemma chain_set_index s fs path ns e i : chain (s :: fs) path ns e → -1 ≤ i → chain (set_index i s :: fs) path ns e.
Proof.
  inversion 1 as [s0 ([H1 H2 H3] & H4 & H5) Hpl|s' s2 fs2 p suf ns2 e2 ec Hc Hch ([H1 H2 H3] & H4 & H5) Hpl]; subst; intros Hi.
  - by apply chain_root.
  - by apply chain_child.
Qed.
Lemma chain_top s fs path ns e : chain (s :: fs) path ns e → standing s e.
Proof. by inversion 1. Qed.
Lemma chain_nodes stack path ns e : chain stack path ns e → ∃ s fs, stack = s :: fs ∧ standing s e ∧ Forall2 standing (rev fs) ns.
Proof.
  induction 1 as [s Hs|s' s fs path suf ns e ec Hc (s0 & fs0 & [= <- <-] & Hs & HF) Hch Hs' Hpl].
  - by exists s, [].
  - exists s', (s :: fs). split_and!; [done..|]. cbn [rev]. apply Forall2_app; [done|]. by constructor.
Qed.

(** The path the proof is made of. *)
Lemma path_child e suf ec q : shaped e → child_of e suf ec → MerkleProof.path e (suf ++ q) = e :: MerkleProof.path ec q.
Proof.
  destruct e as [|es|k v|h|v]; try done; intros Hs; cbn [child_of].
  - intros (j & -> & Hj). cbn [app MerkleProof.path]. f_equal. apply nth_lookup_Some. by rewrite Nat2Z.id, list_lookup_fmap, Hj.
  - intros [-> ->]. apply shaped_short in Hs as [Hk _]. cbn [MerkleProof.path].
    rewrite bool_decide_eq_false_2 by (by destruct k). rewrite take_app_length, decide_True, drop_app_length by done. done.
Qed.
Lemma chain_path stack path ns e : chain stack path ns e → ∀ q, MerkleProof.path e0 (path ++ q) = ns ++ MerkleProof.path e q.
Proof.
  induction 1 as [s Hs|s' s fs path suf ns e ec Hc IH Hch Hs' Hpl]; intros q; [done|].
  rewrite <-(assoc_L (++)), IH, <-(assoc_L (++)). cbn [app]. f_equal. apply path_child; [|done]. apply chain_top in Hc as [[] _]. done.
Qed.

(** An iterator on the path from the root. *)
Definition on_chain (it : nodeIterator) : Prop :=
  match it_stack it with [] => True | _ => ∃ ns e, chain (it_stack it) (it_path it) ns e end.

Lemma whole_child n c : whole (strip n) → c ∈ lchildren n → whole (strip c).
Proof.
  destruct n as [|cs fl|k v fl|h|v]; cbn [lchildren strip whole]; try by intros _ ?%elem_of_nil.
  - rewrite whole_children, Forall_map, Forall_forall. auto.
  - by intros ? ->%list_elem_of_singleton.
Qed.

Lemma chain_found it s fs path ns e s' c p sk ec rest :
  resolver_ok it → chain (s :: fs) path ns e → found s e path s' c p sk ec rest →
  chain (s' :: fs) path ns e ∧
  match resolve it p c with
  | inl _ => True
  | inr c' => chain (c' :: set_index (st_index s' + 1) s' :: fs) p (ns ++ [e]) ec
  end.
Proof.
  intros Hr Hc Hf. pose proof (chain_top _ _ _ _ _ Hc) as (Hl & Hw & Hi).
  destruct Hf as [Hn Hx Hsh Hci Hpl (suf & _ & -> & Hch) (i & Hi' & ->) _ _ _ _]. split; [by apply chain_set_index|].
  destruct (resolve_state_ok it (path ++ suf) c ec Hr Hx Hsh) as (c' & -> & Hl' & Hci' & Hpl' & Hnode). cbn [set_index st_index].
  apply (chain_child c' _ fs path suf ns e ec); [by apply (chain_set_index s fs path ns e (i + 1)); [|lia]|done| |by rewrite Hpl'].
  split_and!; [done| |lia]. destruct Hnode as [->|[h Hh]]; [by eapply whole_child|by eapply ad_whole; [apply DB_addressed|]].
Qed.

Lemma chain_loop P next it it' x : steps_to P next → resolver_ok it → ∀ stack path ns e, chain stack path ns e →
  peek_loop next stack path it = Ret (it', x) →
  on_chain it' ∧ match x with inl _ => True | inr (c, counted, p) => on_chain (push c counted p it') end.
Proof.
  intros Hnext Hr stack path ns e Hc.
  assert (∀ s fs path ns e, chain (s :: fs) path ns e →
    (peek_loop next fs (take (st_pathlen s) path) it = Ret (it', x) → on_chain it' ∧ match x with inl _ => True | inr (c, counted, p) => on_chain (push c counted p it') end) →
    peek_loop next (s :: fs) path it = Ret (it', x) →
    on_chain it' ∧ match x with inl _ => True | inr (c, counted, p) => on_chain (push c counted p it') end) as Hstep; cycle 1.
  { induction Hc as [s Hs Hpl|s' s fs path suf ns e ec Hc IH Hch Hs' Hpl].
    - apply (Hstep s [] [] [] e0); [by constructor|]. cbn [peek_loop]. intros [= <- <-]. done.
    - apply (Hstep s' (s :: fs) (path ++ suf) (ns ++ [e]) ec); [by constructor|]. by rewrite Hpl, take_app_length. }
  intros s fs path' ns' e' Hc' Hnone. pose proof (chain_top _ _ _ _ _ Hc') as (Hl & Hw & Hi). cbn [peek_loop].
  destruct (Hnext s e' path' (ancestor_of s) Hl Hi) as ([s' [[c p]|]] & -> & Hf); cbn [mbind go_bind fst snd] in *.
  - destruct Hf as (sk & ec & rest & Hf & _). destruct (chain_found (set_stack (s' :: fs) path' it) s fs path' ns' e' s' c p sk ec rest Hr Hc' Hf) as [H1 H2].
    intros [= <- <-]. split; [by exists ns', e'|]. destruct (resolve _ p c) as [|c']; [done|]. by exists (ns' ++ [e']), ec.
  - destruct Hf as [-> _]. exact Hnone.
Qed.

(** ** The chain is kept *)
Record sound (it : nodeIterator) : Prop := mkSound {
  so_trie : trie_ok hashData emptyRoot e0 (it_trie it);
  so_whole : whole (strip (lroot (it_trie it)));
  so_resolver : resolver_ok it;
  so_start : it_stack it = [] → it_path it = []
}.
Lemma sound_same it it' : sound it → same_iterator hashData emptyRoot it it' → (it_stack it' = [] → it_path it' = []) → sound it'.
Proof.
  intros [H1 H2 H3 H4] [S1 S2 S3 S4] Hp. split; [by apply S1|by rewrite S4| |done].
  intros get h blob n n' Hg. rewrite S3 in Hg. by apply H3.
Qed.

Lemma loop_same next it it' x : ∀ stack path, peek_loop next stack path it = Ret (it', x) → same_iterator hashData emptyRoot it it'.
Proof.
  induction stack as [|s fs IH]; intros path; cbn [peek_loop]; [by intros [= <- <-]|].
  destruct (next s path (ancestor_of s)) as [[s' [[c p]|]]|]; cbn [mbind go_bind]; [|apply IH|done]. by intros [= <- <-].
Qed.

Abbreviation chained it' x :=
  (on_chain it' ∧ match x with inl _ => True | inr (c, counted, p) => on_chain (push c counted p it') end).

Lemma init_chain it it' x : it_stack it = [] → sound it → init hashData emptyRoot it = Ret (it', x) → chained it' x ∧ same_iterator hashData emptyRoot it it'.
Proof.
  intros Hs [Ht Hw Hr Hp]. destruct (init_ok hashData emptyRoot e0 it Hs (Hp Hs) Ht Hr) as (it1 & c & -> & Hsame & Hrd & Hst & Hpl & Hnode).
  intros [= <- <-]. split; [|done]. assert (it_stack it1 = []) as Hs1.
  { unfold push in Hst. destruct (it_stack it1) as [|s fs]; [done|]. cbn [set_stack it_stack] in Hst. by injection Hst. }
  unfold on_chain. rewrite Hst, Hs1. split; [done|]. exists [], e0. cbn [push set_stack it_path]. apply chain_root; [|done].
  split_and!; [apply Hrd| |by rewrite (rd_index _ _ _ _ _ _ _ Hrd)].
  destruct Hnode as [->|[h Hh]]; [done|by eapply ad_whole; [apply DB_addressed|]].
Qed.

Lemma pop_chain s fs path ns e it : chain (s :: fs) path ns e → on_chain (set_stack fs (take (st_pathlen s) path) it) ∧ (fs = [] → take (st_pathlen s) path = []).
Proof.
  unfold on_chain. cbn [set_stack it_stack it_path]. inversion 1 as [|? ? ? path0 suf ? ? ? Hc Hch Hst Hpl]; subst; [by rewrite take_nil|].
  rewrite Hpl, take_app_length. split; [by eexists _, _|done].
Qed.

(** One step of [peek] or [peekSeek], [keep] being whether the top stays. *)
Lemma peek_chain P next it it' x (keep : bool) : steps_to P next → on_chain it → sound it →
  match it_stack it with
  | [] => init hashData emptyRoot it
  | _ => it ← (if keep then Ret it else pop it); peek_loop next (it_stack it) (it_path it) it
  end = Ret (it', x) → chained it' x ∧ same_iterator hashData emptyRoot it it'.
Proof.
  intros Hnext Hc Hso. unfold on_chain in Hc. destruct (it_stack it) as [|s fs] eqn:Es; [by apply init_chain|]. destruct Hc as (ns & e & Hc).
  destruct keep; cbn [mbind go_bind].
  - rewrite Es. intros Hp. split; [by eapply chain_loop; [..|exact Hp]; [done|apply Hso|]|by eapply loop_same].
  - unfold pop. rewrite Es. cbn [mbind go_bind set_stack it_stack it_path]. intros Hp.
    assert (same_iterator hashData emptyRoot it it') as Hsame by (apply loop_same in Hp; by destruct Hp). split; [|done].
    destruct (pop_chain s fs (it_path it) ns e it Hc) as [Hpc Hnil]. unfold on_chain in Hpc. cbn [set_stack it_stack it_path] in Hpc.
    destruct fs as [|s2 fs2].
    + cbn [peek_loop] in Hp. by injection Hp as <- <-.
    + destruct Hpc as (ns' & e' & Hc'). eapply chain_loop; [done| |exact Hc'|exact Hp]. by destruct Hso.
Qed.

Lemma seek_chain prefix key fuel : ∀ it o it', on_chain it → sound it →
  seek_loop hashData emptyRoot fuel prefix key it = Ret (o, it') → on_chain it'.
Proof.
  induction fuel as [|fuel IH]; intros it o it' Hc Hso; [done|]. cbn [seek_loop]. unfold peekSeek.
  destruct (match it_stack it with [] => _ | _ => _ end) as [[it1 x]|] eqn:Hp; [|done].
  assert (chained it1 x ∧ same_iterator hashData emptyRoot it it1) as [[H1 H2] Hsame].
  { apply (peek_chain (before key) (nextChildAt key) it it1 x (bool_decide (it_path it `prefix_of` key))); [apply steps_nextChildAt|done|done|].
    rewrite <-Hp. destruct (it_stack it); [done|]. by case_bool_decide; case_decide. }
  cbn [mbind go_bind]. destruct x as [err|[[c counted] p]]; [by destruct err; intros [= <- <-]|].
  destruct (bytes_less p key); [|by intros [= <- <-]]. apply IH; [done|].
  eapply sound_same; [exact Hso|by destruct Hsame|]. done.
Qed.

(** What holds of an iterator from its creation on. *)
Definition inv (it : nodeIterator) : Prop :=
  ∃ rem, iterates hashData emptyRoot e0 it rem ∧ rem ⊆ walk [] e0 ∧ on_chain it ∧ whole (strip (lroot (it_trie it))).

Lemma new_inv t start it : trie_ok hashData emptyRoot e0 t → whole (strip (lroot t)) →
  newNodeIterator hashData emptyRoot t start = Ret it → inv it.
Proof.
  intros Ht Hw Hnew. destruct (newNodeIterator_ok hashData emptyRoot e0 t start Ht) as (it1 & Hnew1 & Hit & _ & Hst).
  rewrite Hnew in Hnew1. injection Hnew1 as <-. eexists. split; [exact Hit|]. split; [by intros x [_ ?]%list_elem_of_filter|].
  split; [|by rewrite Hst]. unfold newNodeIterator in Hnew. destruct (Hash_ok hashData emptyRoot e0 t Ht) as (h & t' & Hh & Hne & Ht' & Hsame).
  rewrite Hh in Hnew. cbn [mbind go_bind] in Hnew. rewrite bool_decide_eq_false_2 in Hnew by done.
  destruct (seek _ _ _ _) as [[o it1]|] eqn:Hseek; [|done]. injection Hnew as <-.
  apply (seek_chain _ _ _ _ _ it1) in Hseek; [done..|]. split; cbn [it_trie]; [done|by rewrite Hsame|by intros ? ? ? ? ? ?|done].
Qed.

Lemma Next_inv it d it' : inv it → it_Next hashData emptyRoot it d = Ret (true, it') →
  inv it' ∧ ∃ q n, (q, n) ∈ walk [] e0 ∧ stands it' q n.
Proof.
  intros (rem & Hit & Hsub & Hc & Hw) Hn. destruct (Next_ok hashData emptyRoot e0 it rem d Hit) as (it2 & Hok).
  pose proof (dropped_sub d it rem) as Hds. destruct (dropped d it rem) as [|[p n] rem'].
  { destruct Hok as [Hn' _]. congruence. }
  destruct Hok as (Hn' & Hit' & Hst). rewrite Hn in Hn'. injection Hn' as <-.
  split; [|exists p, n; split; [apply Hsub, Hds; by left|done]]. exists rem'. split; [done|]. split; [by intros x Hx; apply Hsub, Hds; right|].
  destruct Hit as (Ht & Hr & [[He _]|[He Hpos]]); [unfold it_Next in Hn; by rewrite He in Hn|].
  assert (sound it) as Hso by (split; [done..|]; unfold position in Hpos; intros Hs; rewrite Hs in Hpos; tauto).
  unfold it_Next, next_step in Hn. rewrite He in Hn. destruct (peek hashData emptyRoot it d) as [[it1 x]|] eqn:Hp; [|done].
  apply (peek_chain nothing nextChild it it1 x d steps_nextChild Hc Hso) in Hp as [[H1 H2] Hsame].
  cbn [mbind go_bind] in Hn. destruct x as [|[[c counted] p2]]; [done|]. injection Hn as <-. split; [exact H2|].
  cbn [push set_stack it_trie set_err]. by rewrite (same_strip _ _ _ _ Hsame).
Qed.

(** ** The proof *)
Lemma put_nodes_blobs ns : ∀ first db, Forall inner ns →
  put_nodes hashData first ns db = foldl (λ db b, <[hashData b := b]> db) db (proof_blobs hashData first ns).
Proof.
  induction ns as [|n ns IH]; intros first db Hin; [done|]. apply Forall_cons in Hin as [Hn Hin]. cbn [put_nodes proof_blobs].
  destruct (proofHash hashData n) as [n' hn] eqn:E. rewrite foldl_app, IH by done. f_equal.
  assert (is_hash hn = true → hn = HashNode (hashData (encode n'))) as Hh.
  { destruct n as [|cs|k v|h|v]; try done; cbn [proofHash] in E; injection E as <- <-; unfold nodeToHash; by case_match. }
  destruct hn as [| | |h|]; cbn [is_hash orb]; try (by destruct first).
  specialize (Hh eq_refl). injection Hh as ->. by rewrite orb_true_r.
Qed.
Lemma proof_blobs_ext ns ns' first : Forall2 (λ n n', proofHash hashData n = proofHash hashData n') ns ns' →
  proof_blobs hashData first ns = proof_blobs hashData first ns'.
Proof. intros HF. revert first. induction HF as [|n n' ns ns' Hn _ IH]; intros first; [done|]. cbn [proof_blobs]. by rewrite Hn, IH. Qed.
Lemma chain_inner stack path ns e : chain stack path ns e → Forall inner ns.
Proof. induction 1 as [|s' s fs path suf ns e ec Hc IH Hch]; [done|]. apply Forall_app. split; [done|]. constructor; [by destruct e|done]. Qed.

Lemma LeafProof_chain it s fs q v :
  on_chain it → it_stack it = s :: fs → it_path it = q → loaded s (ValueNode v) →
  ∃ blobs, it_LeafProof hashData it = Ret blobs ∧
    foldl (λ db b, <[hashData b := b]> db) ∅ blobs = put_nodes hashData true (MerkleProof.path e0 q) ∅.
Proof.
  unfold on_chain, it_LeafProof. intros Hc Hs Hq Hl. rewrite Hs in *. destruct Hc as (ns & e & Hc). rewrite Hq in Hc.
  destruct (chain_nodes _ _ _ _ Hc) as (s' & fs' & [= <- <-] & (Hl' & _) & HF).
  destruct (loaded_value s _ Hl) as (w & Hw & Hv); [|by intros k v' fl E; destruct (loaded_short _ _ _ _ _ E Hl) as (? & ? & _)|].
  { intros cs fl E. by destruct (loaded_full _ _ _ _ E Hl) as (? & ? & _). }
  destruct (loaded_value s _ Hl') as (w' & Hw' & ->); [congruence..|]. rewrite Hw. eexists. split; [done|].
  pose proof (chain_path _ _ _ _ Hc []) as Hp. cbn [MerkleProof.path] in Hp. rewrite !app_nil_r in Hp. rewrite Hp, put_nodes_blobs by (by eapply chain_inner).
  f_equal. apply proof_blobs_ext. clear -HF DB_addressed. induction HF as [|s n ss ns (Hl & Hw & _) HF IH]; [done|]. constructor; [|done].
  by apply proofHash_expands.
Qed.
End proof.

Section leaf_proof.
Context `{DB : NodeStore} `{RL : RLP}.
Variable hashData : bytes → bytes.
Variable emptyRoot : bytes.

Definition next_of (it it' : nodeIterator) : Prop := ∃ d, it_Next hashData emptyRoot it d = Ret (true, it').

(** At every leaf that any sequence of calls of [Next] reaches, descending or
    not, in a trie that is loaded from a database addressed by content, the
    iterator gives the key and the value of an entry of the map the trie
    holds, and [LeafProof] gives the blobs that [Prove] writes for this key:
    the two ways to prove an entry agree. *)
Theorem leaf_proof_spec t e m start it it1 it2 :
  addressed hashData → coherent hashData true (lroot t) → whole (strip (lroot t)) → expands (strip (lroot t)) e → entries e m →
  (∀ h, hash hashData (strip (lroot t)) true = HashNode h → BytesToHash h ≠ emptyRoot) → e ≠ NilNode →
  newNodeIterator hashData emptyRoot t start = Ret it → rtc next_of it it1 → next_of it1 it2 → it_Leaf it2 = true →
  ∃ k v blobs, it_LeafKey it2 = Ret k ∧ it_LeafBlob it2 = Ret v ∧ m !! k = Some v ∧ it_LeafProof hashData it2 = Ret blobs ∧
    foldl (λ db b, <[hashData b := b]> db) ∅ blobs = Prove hashData e k.
Proof.
  intros Had Hco Hwh Hex Hm Hh Hne Hnew Hrtc [d Hn] Hleaf. pose proof Hm as ([->|He] & _ & _); [done|].
  assert (trie_ok hashData emptyRoot e t) as Ht by (destruct (hash_forced hashData _ _ Hex He) as [h E]; split; [done..|]; exists h; auto).
  assert (inv hashData emptyRoot e it1) as Hinv.
  { assert (inv hashData emptyRoot e it) as H0 by (by eapply new_inv). clear Hnew Hn. induction Hrtc as [|x y z [d' Hd] _ IH]; [done|].
    apply IH. by destruct (Next_inv hashData emptyRoot Had e x d' y H0 Hd). }
  destruct (Next_inv hashData emptyRoot Had e it1 d it2 Hinv Hn) as [(rem & _ & _ & Hc & _) (q & n & Hq & Hst)].
  assert (∃ v, n = ValueNode v) as [v ->].
  { destruct Hst as [Hp _]. unfold it_Leaf in Hleaf. rewrite Hp, (walk_hasTerm e q n He Hq) in Hleaf. destruct n; try done. by eexists. }
  destruct (leaf_here e m it2 q v Hm Hq Hst) as (k & Hk & Hv & Hu8 & Hqk). destruct Hst as (Hp & s & fs & Hs & Hl).
  destruct (LeafProof_chain hashData Had e it2 s fs q v Hc Hs Hp Hl) as (blobs & Hb & Hfold).
  exists k, v, blobs. cbn [fst snd] in *. injection Hqk as ->. split_and!; try done. by apply (walk_leaves e m k v Hm He Hu8).
Qed.
End leaf_proof.

(** ** An example *)
Module DemoLeafProof.
Import DemoDB DemoCommit DemoIterator.
#[local] Existing Instance demo_store.

Lemma store_addressed : addressed (DB := demo_store) hashData.
Proof.
  split; intros h n; [intros _|]; unfold store_node, demo_store, G; repeat case_decide; subst; intros [= <-]; try (by vm_compute).
Qed.
Definition result {A} (d : A) (m : go A) : A := match m with Ret a => a | Halt _ => d end.
Definition dummy : nodeIterator := mkNodeIterator t [] [] None None.
Definition it : nodeIterator := result dummy (newNodeIterator (DB := demo_store) hashData emptyRoot t []).
Definition next (i : nodeIterator) : nodeIterator := (result (false, i) (it_Next (DB := demo_store) hashData emptyRoot i true)).2.

Lemma it_new : newNodeIterator (DB := demo_store) hashData emptyRoot t [] = Ret it.
Proof. by vm_compute. Qed.
Lemma next_ok i : it_Next (DB := demo_store) hashData emptyRoot i true = Ret (true, next i) → next_of (DB := demo_store) hashData emptyRoot i (next i).
Proof. by exists true. Qed.
Lemma reach_leaf : rtc (next_of (DB := demo_store) hashData emptyRoot) it (next (next it)).
Proof. eapply rtc_l; [|apply rtc_once]; apply next_ok; by vm_compute. Qed.
End DemoLeafProof.

Lemma leaf_proof_spec_witness :
  ∃ k v blobs, it_LeafKey (DemoLeafProof.next (DemoLeafProof.next (DemoLeafProof.next DemoLeafProof.it))) = Ret k ∧ DemoCommit.m !! k = Some v ∧
    foldl (λ db b, <[DemoCommit.hashData b := b]> db) ∅ blobs = Prove DemoCommit.hashData DemoDB.loaded k.
Proof.
  destruct (leaf_proof_spec (DB := DemoIterator.demo_store) DemoCommit.hashData DemoIterator.emptyRoot DemoIterator.t DemoDB.loaded DemoCommit.m []
    DemoLeafProof.it (DemoLeafProof.next (DemoLeafProof.next DemoLeafProof.it)) (DemoLeafProof.next (DemoLeafProof.next (DemoLeafProof.next DemoLeafProof.it))))
    as (k & v & blobs & H1 & _ & H2 & _ & H3).
  - exact DemoLeafProof.store_addressed.
  - by split.
  - reflexivity.
  - exact DemoIterator.root_expands.
  - exact DemoCommit.t_entries.
  - intros h [= <-]. by vm_compute.
  - discriminate.
  - exact DemoLeafProof.it_new.
  - exact DemoLeafProof.reach_leaf.
  - apply DemoLeafProof.next_ok. by vm_compute.
  - by vm_compute.
  - exists k, v, blobs. split; [exact H1|]. split; [exact H2|exact H3].
Defined.
