(* ===== verification/Heap.v ===== *)
(** * Package container/heap of the Go library

    The array heap, as the library has it, on a list: [Init], [Push], [Pop]
    with [up] and [down].  The result of each is a permutation in heap order,
    so the first element is a least one ([heap_first]).  The comparison may
    be any Go function that is a strict weak order on the elements. *)
From S2P Require Import Prelude.

Section heap.
Context {A : Type}.
Variable less : A → A → go bool.

Definition at_ (h : list A) (i : nat) : go A := match h !! i with Some a => Ret a | None => Halt (GoPanic "index out of range") end.
Definition Less (h : list A) (i j : nat) : go bool := a ← at_ h i; b ← at_ h j; less a b.
Definition Swap (h : list A) (i j : nat) : list A :=
  match h !! i, h !! j with Some a, Some b => <[i := b]> (<[j := a]> h) | _, _ => h end.

Fixpoint up (fuel j : nat) (h : list A) : go (list A) :=
  match fuel with
  | O => Halt (Blocked "fuel")
  | S fuel =>
      let i := (j - 1) / 2 in
      if bool_decide (i = j) then Ret h
      else b ← Less h j i; if b : bool then up fuel i (Swap h i j) else Ret h
  end.
Fixpoint down (fuel i n : nat) (h : list A) : go (list A) :=
  match fuel with
  | O => Halt (Blocked "fuel")
  | S fuel =>
      let j1 := 2 * i + 1 in
      if bool_decide (n ≤ j1) then Ret h
      else
        j ← (if bool_decide (j1 + 1 < n) then b ← Less h (j1 + 1) j1; Ret (if b : bool then j1 + 1 else j1) else Ret j1);
        b ← Less h j i; if b : bool then down fuel j n (Swap h i j) else Ret h
  end.

(** [for i := n/2 - 1; i >= 0; i--] *)
Fixpoint init_from (i n : nat) (h : list A) : go (list A) :=
  match i with O => Ret h | S i => h ← down (S n) i n h; init_from i n h end.
Definition Init (h : list A) : go (list A) := init_from (length h / 2) (length h) h.
Definition Push (h : list A) (x : A) : go (list A) := up (S (length h)) (length h) (h ++ [x]).
Definition Pop (h : list A) : go (A * list A) :=
  let n := length h - 1 in
  h ← down (S n) 0 n (Swap h 0 n);
  x ← at_ h n; Ret (x, take n h).

(** ** Order *)
Variable good : A → Prop.
Variable lt : A → A → bool.
Hypothesis less_ok : ∀ a b, good a → good b → less a b = Ret (lt a b).
Hypothesis lt_asym : ∀ a b, good a → good b → lt a b = true → lt b a = false.
(** Not less is transitive. *)
Hypothesis le_trans : ∀ a b c, good a → good b → good c → lt b a = false → lt c b = false → lt c a = false.

Definition le (a b : A) : Prop := lt b a = false.
(** The pairs of parent and child with a parent from [s] on and a child below
    [n] are in order, but those below [i]. *)
Definition parent (j : nat) : nat := (j - 1) / 2.
Definition ordered_but (ex : nat → Prop) (s n : nat) (h : list A) : Prop :=
  ∀ j a b, 0 < j < n → s ≤ parent j → ¬ ex j → h !! parent j = Some a → h !! j = Some b → le a b.
Definition ordered : nat → nat → list A → Prop := ordered_but (λ _, False).

Lemma parent_lt j : 0 < j → parent j < j.
Proof. intros. unfold parent. apply Nat.Div0.div_lt_upper_bound; lia. Qed.
Lemma parent_child i j : 0 < j → parent j = i ↔ j = 2 * i + 1 ∨ j = 2 * i + 2.
Proof. intros. unfold parent. pose proof (Nat.div_mod_eq (j - 1) 2). pose proof (Nat.mod_upper_bound (j - 1) 2). lia. Qed.

Lemma Less_ok h i j a b : Forall good h → h !! i = Some a → h !! j = Some b → Less h i j = Ret (lt a b).
Proof.
  intros Hg Ha Hb. unfold Less, at_. rewrite Ha, Hb. cbn. rewrite Forall_lookup in Hg. apply less_ok; eauto.
Qed.
Lemma Swap_lookup h i j a b k : h !! i = Some a → h !! j = Some b →
  Swap h i j !! k = if decide (k = i) then Some b else if decide (k = j) then Some a else h !! k.
Proof.
  intros Ha Hb. unfold Swap. rewrite Ha, Hb. pose proof (lookup_lt_Some _ _ _ Ha). pose proof (lookup_lt_Some _ _ _ Hb).
  destruct (decide (k = i)) as [->|Hi]; [by rewrite list_lookup_insert_eq by (by rewrite length_insert)|]. rewrite list_lookup_insert_ne by done.
  destruct (decide (k = j)) as [->|Hj]; [by rewrite list_lookup_insert_eq|]. by rewrite list_lookup_insert_ne.
Qed.
Lemma Swap_length h i j : length (Swap h i j) = length h.
Proof. unfold Swap. destruct (h !! i), (h !! j); by rewrite ?length_insert. Qed.
Lemma Swap_perm h i j : Swap h i j ≡ₚ h.
Proof.
  destruct (h !! i) as [a|] eqn:Ha; [|unfold Swap; by rewrite Ha]. destruct (h !! j) as [b|] eqn:Hb; [|unfold Swap; by rewrite Ha, Hb].
  apply Permutation_inj. split; [apply Swap_length|]. exists (λ k, if decide (k = i) then j else if decide (k = j) then i else k). split.
  - intros x y. repeat case_decide; congruence.
  - intros k. rewrite (Swap_lookup h i j a b) by done. repeat case_decide; congruence.
Qed.
Lemma Swap_good h i j : Forall good h → Forall good (Swap h i j).
Proof. by rewrite Swap_perm. Qed.
Lemma good_at h i a : Forall good h → h !! i = Some a → good a.
Proof. rewrite Forall_lookup. eauto. Qed.
Lemma le_refl_good a : good a → le a a.
Proof. intros Ha. unfold le. destruct (lt a a) eqn:E; [|done]. by rewrite (lt_asym a a Ha Ha E) in E. Qed.

(** The child that [down] compares is the lesser one. *)
Definition lesser_child (h : list A) (i n j : nat) : Prop :=
  parent j = i ∧ 0 < j < n ∧ ∀ k a b, parent k = i → 0 < k < n → h !! j = Some a → h !! k = Some b → le a b.
Lemma choose_child h i n : Forall good h → n ≤ length h → 2 * i + 1 < n →
  ∃ j, (if bool_decide (2 * i + 1 + 1 < n) then b ← Less h (2 * i + 1 + 1) (2 * i + 1); Ret (if b : bool then 2 * i + 1 + 1 else 2 * i + 1) else Ret (2 * i + 1)) = Ret j ∧
    lesser_child h i n j.
Proof.
  intros Hg Hn Hj. destruct (lookup_lt_is_Some_2 h (2 * i + 1)) as [a Ha]; [lia|].
  assert (∀ k, 0 < k → parent k = i → k = 2 * i + 1 ∨ k = 2 * i + 1 + 1) as Hk by (intros k H0 Hk%parent_child; lia).
  assert (parent (2 * i + 1) = i ∧ parent (2 * i + 1 + 1) = i) as [Hp1 Hp2] by (split; apply parent_child; lia).
  case_bool_decide as E.
  - destruct (lookup_lt_is_Some_2 h (2 * i + 1 + 1)) as [b Hb]; [lia|]. rewrite (Less_ok h _ _ b a Hg Hb Ha). cbn [mbind go_bind].
    pose proof (good_at _ _ _ Hg Ha). pose proof (good_at _ _ _ Hg Hb). eexists. split; [done|].
    destruct (lt b a) eqn:Elt; (split; [done|split; [lia|]]); intros k x y Hpk Hkn Hx Hy; destruct (Hk k ltac:(lia) Hpk) as [-> | ->]; simplify_eq; auto using le_refl_good, lt_asym.
    all: by unfold le; auto.
  - eexists. split; [done|]. split; [done|split; [lia|]]. intros k x y Hpk Hkn Hx Hy. destruct (Hk k ltac:(lia) Hpk) as [-> | ->]; [|lia]. simplify_eq. eapply le_refl_good, good_at; eauto.
Qed.

(** What a step of either loop leaves alone. *)
Definition moved (n : nat) (h h' : list A) : Prop := h' ≡ₚ h ∧ ∀ k, n ≤ k → h' !! k = h !! k.
Lemma moved_swap n h h' i j : i < n → j < n → moved n (Swap h i j) h' → moved n h h'.
Proof.
  intros Hi Hj [Hp Hk]. split; [by rewrite Hp, Swap_perm|]. intros k Hnk. rewrite Hk by done.
  destruct (h !! i) as [a|] eqn:Ha; [|unfold Swap; by rewrite Ha]. destruct (h !! j) as [b|] eqn:Hb; [|unfold Swap; by rewrite Ha, Hb].
  rewrite (Swap_lookup h i j a b) by done. by rewrite !decide_False by lia.
Qed.

(** [down]: in order but for the children of [i], which are not less than
    the parent of [i]. *)
Lemma down_ok fuel : ∀ i n s h, n - i < fuel → n ≤ length h → s ≤ i → Forall good h →
  ordered_but (λ j, parent j = i) s n h →
  (∀ j a b, 0 < i → s ≤ parent i → parent j = i → 0 < j < n → h !! parent i = Some a → h !! j = Some b → le a b) →
  ∃ h', down fuel i n h = Ret h' ∧ moved n h h' ∧ ordered s n h'.
Proof.
  induction fuel as [|fuel IH]; intros i n s h Hf Hn Hs Hg Ho Hgp; [lia|]. cbn [down]. case_bool_decide as E.
  { exists h. split_and!; [done|by split|]. intros j a b Hj Hsj _. apply Ho; [done..|]. intros Hp%parent_child; lia. }
  destruct (choose_child h i n Hg Hn) as (j & Hc & Hpj & Hj & Hmin); [lia|]. rewrite Hc. cbn [mbind go_bind]. pose proof (parent_lt j) as Hpl.
  destruct (lookup_lt_is_Some_2 h i) as [a Ha]; [lia|]. destruct (lookup_lt_is_Some_2 h j) as [b Hb]; [lia|].
  pose proof (good_at _ _ _ Hg Ha) as Hga. pose proof (good_at _ _ _ Hg Hb) as Hgb. rewrite (Less_ok h j i b a Hg Hb Ha). cbn [mbind go_bind].
  destruct (lt b a) eqn:Elt.
  - destruct (IH j n s (Swap h i j)) as (h' & -> & Hm & Ho'); [lia|by rewrite Swap_length|lia|by apply Swap_good| | |].
    + intros k x y Hk Hsk Hne. rewrite !(Swap_lookup h i j a b) by done. pose proof (parent_lt k ltac:(lia)).
      destruct (decide (parent k = i)) as [Hpk|Hpk].
      * rewrite (decide_False (P := k = i)) by lia. intros [= <-]. destruct (decide (k = j)) as [Ek|Ek]; [intros [= <-]; by apply lt_asym|]. intros Hy. by apply (Hmin k).
      * destruct (decide (parent k = j)) as [|_]; [done|]. intros Hx. destruct (decide (k = i)) as [->|Hki]; [intros [= <-]; apply (Hgp j); (done || lia)|].
        rewrite decide_False by (intros ->; congruence). by apply Ho.
    + intros k x y _ Hsj Hpk Hk. rewrite !(Swap_lookup h i j a b) by done. pose proof (parent_lt k ltac:(lia)). rewrite Hpj, decide_True by done. intros [= <-].
      rewrite !decide_False by lia. intros Hy. apply (Ho k); [done|lia|lia|congruence|done].
    + exists h'. split_and!; [done| |done]. apply (moved_swap n h h' i j); [lia|lia|done].
  - exists h. split_and!; [done|by split|]. intros k x y Hk Hsk _ Hx Hy. destruct (decide (parent k = i)) as [Hpk|Hpk]; [|by apply (Ho k)].
    rewrite Hpk in Hx. assert (x = a) as -> by congruence. apply (le_trans a b y); [done|done|by eapply good_at|done|]. by apply (Hmin k).
Qed.

(** [up]: in order but for [j] and its parent; the parent of [j] is not
    greater than the children of [j]. *)
Lemma up_ok fuel : ∀ j n h, j < fuel → j < n → n = length h → Forall good h →
  ordered_but (λ k, k = j) 0 n h →
  (∀ k a b, 0 < j → parent k = j → 0 < k < n → h !! parent j = Some a → h !! k = Some b → le a b) →
  ∃ h', up fuel j h = Ret h' ∧ h' ≡ₚ h ∧ ordered 0 n h'.
Proof.
  induction fuel as [|fuel IH]; intros j n h Hf Hj Hn Hg Ho Hgp; [lia|]. cbn [up]. fold (parent j). case_bool_decide as E.
  { exists h. split_and!; [done..|]. intros k x y Hk Hsk _. apply Ho; [done..|]. intros ->. pose proof (parent_lt j). lia. }
  assert (0 < j) as Hj0 by (destruct j; [done|lia]). pose proof (parent_lt j Hj0) as Hpj. set (i := parent j) in *.
  destruct (lookup_lt_is_Some_2 h i) as [a Ha]; [lia|]. destruct (lookup_lt_is_Some_2 h j) as [b Hb]; [lia|].
  pose proof (good_at _ _ _ Hg Ha) as Hga. pose proof (good_at _ _ _ Hg Hb) as Hgb. rewrite (Less_ok h j i b a Hg Hb Ha). cbn [mbind go_bind].
  destruct (lt b a) eqn:Elt.
  - destruct (IH i n (Swap h i j)) as (h' & -> & Hm & Ho'); [lia|lia|by rewrite Swap_length|by apply Swap_good| | |].
    + intros k x y Hk Hsk Hne. rewrite !(Swap_lookup h i j a b) by done. pose proof (parent_lt k ltac:(lia)). rewrite (decide_False (P := k = i)) by done.
      destruct (decide (parent k = i)) as [Hpk|Hpk].
      * intros [= <-]. destruct (decide (k = j)) as [Ek|Ek]; [intros [= <-]; by apply lt_asym|]. intros Hy.
        assert (le a y) as Hay by (apply (Ho k); [done|lia|done|by rewrite Hpk|done]).
        apply (le_trans b a y); [done|done|by eapply good_at|by apply lt_asym|done].
      * rewrite (decide_False (P := k = j)) by (intros ->; done). case_decide as Epj.
        -- intros [= <-] Hy. by apply (Hgp k).
        -- intros Hx Hy. apply (Ho k); [done|lia|by intros ->|done|done].
    + intros k x y Hi0 Hpk Hk. rewrite !(Swap_lookup h i j a b) by done. pose proof (parent_lt k ltac:(lia)). pose proof (parent_lt i Hi0).
      rewrite !(decide_False (P := parent i = _)) by lia. rewrite (decide_False (P := k = i)) by lia. intros Hx.
      assert (le x a) as Hxa by (apply (Ho i); [lia|lia|lia|done|done]). destruct (decide (k = j)) as [Ek|Ek]; [intros [= <-]; done|].
      intros Hy. apply (le_trans x a y); [by eapply good_at|done|by eapply good_at|done|]. apply (Ho k); [done|lia|done|by rewrite Hpk|done].
    + exists h'. split_and!; [done| |done]. by rewrite Hm, Swap_perm.
  - exists h. split_and!; [done..|]. intros k x y Hk Hsk _ Hx Hy. destruct (decide (k = j)) as [->|Hkj]; [|by apply (Ho k)]. fold i in Hx. by simplify_eq.
Qed.

(** ** The operations *)
Definition is_heap (h : list A) : Prop := ordered 0 (length h) h ∧ Forall good h.

(** The first element is a least one. *)
Lemma heap_first h a b : is_heap h → h !! 0 = Some a → b ∈ h → le a b.
Proof.
  intros [Ho Hg] Ha [j Hb]%list_elem_of_lookup. revert b Hb. induction j as [j IH] using lt_wf_ind. intros b Hb.
  destruct (decide (j = 0)) as [->|Hj]; [simplify_eq; by eapply le_refl_good, good_at|]. pose proof (parent_lt j ltac:(lia)). pose proof (lookup_lt_Some _ _ _ Hb).
  destruct (lookup_lt_is_Some_2 h (parent j)) as [c Hc]; [lia|]. apply (le_trans a c b); [by eapply good_at..| |].
  - by apply (IH (parent j)).
  - apply (Ho j); [lia|lia|tauto|done|done].
Qed.

Lemma init_from_ok i : ∀ h, i ≤ length h → Forall good h → ordered i (length h) h →
  ∃ h', init_from i (length h) h = Ret h' ∧ h' ≡ₚ h ∧ is_heap h'.
Proof.
  induction i as [|i IH]; intros h Hi Hg Ho; [exists h; by split_and!|]. cbn [init_from].
  destruct (down_ok (S (length h)) i (length h) i h) as (h1 & -> & [Hp _] & Ho1); [lia|done|done|done| | |].
  - intros k x y Hk Hsk Hne. apply Ho; [done| |tauto]. lia.
  - intros j a b H0 Hs. pose proof (parent_lt i H0). lia.
  - cbn [mbind go_bind]. rewrite <-(Permutation_length Hp) in Ho1 |- *. destruct (IH h1) as (h' & -> & Hp' & Hh); [|by rewrite Hp|done|].
    + rewrite (Permutation_length Hp). lia.
    + exists h'. split_and!; [done|by rewrite Hp'|done].
Qed.
Lemma Init_ok h : Forall good h → ∃ h', Init h = Ret h' ∧ h' ≡ₚ h ∧ is_heap h'.
Proof.
  intros Hg. apply init_from_ok; [apply Nat.Div0.div_le_upper_bound; lia|done|].
  intros j a b Hj Hs. exfalso. unfold parent in Hs. pose proof (Nat.div_mod_eq (length h) 2). pose proof (Nat.mod_upper_bound (length h) 2).
  pose proof (Nat.div_mod_eq (j - 1) 2). pose proof (Nat.mod_upper_bound (j - 1) 2). lia.
Qed.
Lemma Push_ok h x : is_heap h → good x → ∃ h', Push h x = Ret h' ∧ h' ≡ₚ x :: h ∧ is_heap h'.
Proof.
  intros [Ho Hg] Hx. assert (Forall good (h ++ [x])) as Hg' by (by apply Forall_app_2; [|apply Forall_singleton]).
  destruct (up_ok (S (length h)) (length h) (S (length h)) (h ++ [x])) as (h' & Hup & Hp & Ho'); [lia|lia|rewrite length_app; cbn; lia|done| | |].
  - intros k a b Hk Hs Hne. pose proof (parent_lt k ltac:(lia)). rewrite !lookup_app_l by lia. apply (Ho k); [lia|lia|tauto].
  - intros k a b _ Hpk Hk. pose proof (parent_lt k ltac:(lia)). lia.
  - exists h'. assert (length h' = S (length h)) as Hl by (rewrite (Permutation_length Hp), length_app; cbn; lia). split; [exact Hup|].
    split; [by rewrite Hp, Permutation_app_comm|]. split; [by rewrite Hl|by rewrite Hp].
Qed.
Lemma Pop_ok h a : is_heap h → h !! 0 = Some a → ∃ h', Pop h = Ret (a, h') ∧ h ≡ₚ a :: h' ∧ is_heap h'.
Proof.
  intros [Ho Hg] Ha. pose proof (lookup_lt_Some _ _ _ Ha) as Hl. unfold Pop. set (n := length h - 1).
  destruct (lookup_lt_is_Some_2 h n) as [z Hz]; [lia|].
  destruct (down_ok (S n) 0 n 0 (Swap h 0 n)) as (h' & -> & [Hp Hk] & Ho'); [lia|rewrite Swap_length; lia|lia|by apply Swap_good| |lia|].
  - intros k x y Hkn _ Hne. rewrite !(Swap_lookup h 0 n a z) by done. pose proof (parent_lt k ltac:(lia)). rewrite !decide_False by lia. apply (Ho k); [lia|lia|tauto].
  - cbn [mbind go_bind]. assert (h' !! n = Some a) as Hn.
    { rewrite Hk by lia. rewrite (Swap_lookup h 0 n a z) by done. destruct (decide (n = 0)) as [E|E]; [rewrite E in Hz; congruence|by rewrite decide_True]. }
    unfold at_. rewrite Hn. cbn [mbind go_bind]. assert (h' = take n h' ++ [a]) as Hsplit.
    { rewrite <-(take_S_r h' n a Hn). rewrite take_ge; [done|]. rewrite (Permutation_length Hp), Swap_length. lia. }
    assert (h ≡ₚ a :: take n h') as Hperm. { rewrite <-(Swap_perm h 0 n), <-Hp, Hsplit at 1. by rewrite Permutation_app_comm. }
    assert (length (take n h') = n) as Hlt by (rewrite length_take, (Permutation_length Hp), Swap_length; lia).
    exists (take n h'). split_and!; [done|done|]. split.
    + rewrite Hlt. intros k x y Hkn Hsk _. pose proof (parent_lt k ltac:(lia)). rewrite !lookup_take_lt by lia. apply (Ho' k); [lia|lia|tauto].
    + rewrite Hperm in Hg. by apply Forall_cons in Hg as [_ Hg].
Qed.
End heap.
