(* ===== verification/MultiIterator.v ===== *)
(** * Iterators over several tries (src/trie/iterator.go: [compareNodes],
    [differenceIterator], [nodeIteratorHeap], [unionIterator])

    Both work on iterators of any kind.  What they need of one is stated by
    [presents]: it stands on an item and has a list of items to come, in
    strictly increasing order; a move without descent skips the items below.
    [difference_all]: the difference iterator visits the items of [b] that
    [a] does not have.  [union_all]: the union iterator visits every item of
    its iterators once, in order.  For both, items with the same path and the
    same hash have the same items below. *)
From S2P Require Import Prelude Core Encoding Node Rebuild Trie MerkleProof NodeDB NodeStore Committer Iterator Heap.
Local Open Scope Z_scope.

Definition compareNodes {A B} `{NodeIterator A} `{NodeIterator B} (a : A) (b : B) : go Z :=
  let cmp := bytes_compare (ni_Path a) (ni_Path b) in
  if bool_decide (cmp ≠ 0) then Ret cmp
  else if ni_Leaf a && negb (ni_Leaf b) then Ret (-1)
  else if ni_Leaf b && negb (ni_Leaf a) then Ret 1
  else
    let cmp := bytes_compare (ni_Hash a) (ni_Hash b) in
    if bool_decide (cmp ≠ 0) then Ret cmp
    else if ni_Leaf a && ni_Leaf b then x ← ni_LeafBlob a; y ← ni_LeafBlob b; Ret (bytes_compare x y)
    else Ret 0.

(** ** [differenceIterator] *)
Section difference.
Context {A B : Type} `{NA : NodeIterator A} `{NB : NodeIterator B}.

Record differenceIterator := mkDifference { di_a : A; di_b : B; di_eof : bool; di_count : Z }.
Definition NewDifferenceIterator (a : A) (b : B) : go differenceIterator :=
  '(_, a) ← ni_Next a true; Ret (mkDifference a b false 0).

(** The loop; every turn moves [a]. *)
Fixpoint difference_loop (fuel : nat) (it : differenceIterator) : go (bool * differenceIterator) :=
  match fuel with
  | O => Halt (Blocked "fuel")
  | S fuel =>
      let '(mkDifference a b eof count) := it in
      cmp ← compareNodes a b;
      if bool_decide (cmp = -1) then
        '(more, a) ← ni_Next a true;
        if more : bool then difference_loop fuel (mkDifference a b eof (count + 1)) else Ret (true, mkDifference a b true count)
      else if bool_decide (cmp = 1) then Ret (true, it)
      else
        let hasHash := bool_decide (ni_Hash a = zero) in
        '(more, b) ← ni_Next b hasHash;
        if negb more then Ret (false, mkDifference a b eof count)
        else
          '(more, a) ← ni_Next a hasHash;
          if negb more then Ret (true, mkDifference a b true (count + 1))
          else difference_loop fuel (mkDifference a b eof (count + 2))
  end.
Definition difference_Next (fuel : nat) (it : differenceIterator) (_ : bool) : go (bool * differenceIterator) :=
  let '(mkDifference a b eof count) := it in
  '(more, b) ← ni_Next b true;
  if negb more then Ret (false, mkDifference a b eof count)
  else if eof then Ret (true, mkDifference a b eof (count + 1))
  else difference_loop fuel (mkDifference a b eof (count + 1)).
Definition difference_Error (it : differenceIterator) : option it_error :=
  match ni_Error (di_a it) with Some err => Some err | None => ni_Error (di_b it) end.

(** The methods that ask [b]. *)
Definition difference_iterator (fuel : nat) : NodeIterator differenceIterator := {|
  ni_Next := difference_Next fuel;
  ni_Error := difference_Error;
  ni_Hash it := ni_Hash (di_b it);
  ni_Parent it := ni_Parent (di_b it);
  ni_Path it := ni_Path (di_b it);
  ni_NodeBlob it := let '(blob, b) := ni_NodeBlob (di_b it) in (blob, mkDifference (di_a it) b (di_eof it) (di_count it));
  ni_Leaf it := ni_Leaf (di_b it);
  ni_LeafKey it := ni_LeafKey (di_b it);
  ni_LeafBlob it := ni_LeafBlob (di_b it);
  ni_LeafProof it := ni_LeafProof (di_b it);
  ni_AddResolver _ _ := Halt (GoPanic "not implemented")
|}.
End difference.
Arguments differenceIterator : clear implicits.

(** ** [unionIterator] *)
Section union.
Context {I : Type} `{NI : NodeIterator I}.

Definition iter_less (a b : I) : go bool := cmp ← compareNodes a b; Ret (bool_decide (cmp < 0)).
Record unionIterator := mkUnion { ui_items : list I; ui_count : Z }.
Definition NewUnionIterator (iters : list I) : go unionIterator := h ← Init iter_less iters; Ret (mkUnion h 0).

(** The methods that ask the first of the heap. *)
Definition first_of {T} (f : I → go T) (it : unionIterator) : go T := i ← at_ (ui_items it) 0; f i.
Definition union_Hash := first_of (λ i, Ret (ni_Hash i)).
Definition union_Parent := first_of (λ i, Ret (ni_Parent i)).
Definition union_Leaf := first_of (λ i, Ret (ni_Leaf i)).
Definition union_LeafKey := first_of ni_LeafKey.
Definition union_LeafBlob := first_of ni_LeafBlob.
Definition union_LeafProof := first_of ni_LeafProof.
Definition union_Path := first_of (λ i, Ret (ni_Path i)).
Definition union_NodeBlob (it : unionIterator) : go (option bytes * unionIterator) :=
  i ← at_ (ui_items it) 0; let '(blob, i) := ni_NodeBlob i in Ret (blob, mkUnion (<[0%nat := i]> (ui_items it)) (ui_count it)).
Definition union_AddResolver (it : unionIterator) (r : resolver) : go unionIterator := Halt (GoPanic "not implemented").

(** Whether the first of the heap is skipped with [least]. *)
Definition skips (descend : bool) (least next : I) : go bool :=
  if negb descend && bool_decide (ni_Path least `prefix_of` ni_Path next) then Ret true
  else cmp ← compareNodes least next; Ret (bool_decide (cmp = 0)).
Fixpoint skip_loop (fuel : nat) (descend : bool) (least : I) (h : list I) (count : Z) : go (list I * Z) :=
  match fuel with
  | O => Halt (Blocked "fuel")
  | S fuel =>
      match h with
      | [] => Ret (h, count)
      | next :: _ =>
          b ← skips descend least next;
          if negb b then Ret (h, count)
          else
            '(skipped, h) ← Pop iter_less h;
            '(more, skipped) ← ni_Next skipped (bool_decide (ni_Hash skipped = zero));
            if more : bool then h ← Push iter_less h skipped; skip_loop fuel descend least h (count + 1)
            else skip_loop fuel descend least h count
      end
  end.
Definition union_Next (fuel : nat) (it : unionIterator) (descend : bool) : go (bool * unionIterator) :=
  let '(mkUnion h count) := it in
  match h with
  | [] => Ret (false, it)
  | _ =>
      '(least, h) ← Pop iter_less h;
      '(h, count) ← skip_loop fuel descend least h count;
      '(more, least) ← ni_Next least descend;
      '(h, count) ← (if more : bool then h ← Push iter_less h least; Ret (h, count + 1) else Ret (h, count));
      Ret (bool_decide (h ≠ []), mkUnion h count)
  end.
Fixpoint first_error (items : list I) : option it_error :=
  match items with [] => None | i :: items => match ni_Error i with Some err => Some err | None => first_error items end end.
Definition union_Error (it : unionIterator) : option it_error := first_error (ui_items it).
End union.
Arguments unionIterator : clear implicits.

(** ** Items

    What [compareNodes] sees: the path, 0 for a leaf and 1 for another node,
    the hash, and the blob of a leaf. *)
Abbreviation item := (bytes * (Z * (bytes * bytes)))%type.
Definition i_path (x : item) : bytes := x.1.
Definition i_leaf (x : item) : bool := bool_decide (x.2.1 = 0).
Definition i_hash (x : item) : bytes := x.2.2.1.
Definition i_blob (x : item) : bytes := x.2.2.2.
Definition item_ok (x : item) : Prop := x.2.1 = 0 ∨ x.2.1 = 1 ∧ i_blob x = [].

(** Comparisons: a sign that is zero on equal values only. *)
Record comparison {T} (cmp : T → T → Z) : Prop := mkComparison {
  cmp_range a b : cmp a b = -1 ∨ cmp a b = 0 ∨ cmp a b = 1;
  cmp_eq a b : cmp a b = 0 ↔ a = b;
  cmp_anti a b : cmp b a = - cmp a b;
  cmp_trans a b c : cmp a b = -1 → cmp b c = -1 → cmp a c = -1
}.
Definition lex {S T} (f : S → S → Z) (g : T → T → Z) (a b : S * T) : Z :=
  if bool_decide (f a.1 b.1 ≠ 0) then f a.1 b.1 else g a.2 b.2.
Lemma lex_comparison {S T} (f : S → S → Z) (g : T → T → Z) : comparison f → comparison g → comparison (lex f g).
Proof.
  intros Hf Hg. split.
  - intros a b. unfold lex. case_bool_decide; [apply (cmp_range f Hf)|apply (cmp_range g Hg)].
  - intros [a1 a2] [b1 b2]. unfold lex. cbn. case_bool_decide as E.
    + split; [done|]. intros [= -> ->]. by rewrite (proj2 (cmp_eq f Hf b1 b1)) in E.
    + rewrite (cmp_eq g Hg). assert (a1 = b1) as -> by (apply (cmp_eq f Hf); lia). naive_solver.
  - intros a b. unfold lex. rewrite (cmp_anti f Hf a.1 b.1), (cmp_anti g Hg a.2 b.2). repeat case_bool_decide; lia.
  - intros [a1 a2] [b1 b2] [c1 c2]. unfold lex. cbn.
    destruct (decide (f a1 b1 = 0)) as [E1|E1], (decide (f b1 c1 = 0)) as [E2|E2].
    + apply (cmp_eq f Hf) in E1, E2. subst. rewrite !bool_decide_eq_false_2 by (rewrite (proj2 (cmp_eq f Hf c1 c1)); auto). apply (cmp_trans g Hg).
    + apply (cmp_eq f Hf) in E1. subst. intros _. by rewrite !bool_decide_eq_true_2.
    + apply (cmp_eq f Hf) in E2. subst. rewrite !bool_decide_eq_true_2 by done. by intros ? _.
    + rewrite (bool_decide_eq_true_2 _ E1), (bool_decide_eq_true_2 _ E2). intros Hab Hbc. pose proof (cmp_trans f Hf _ _ _ Hab Hbc) as Hac.
      by rewrite bool_decide_eq_true_2 by lia.
Qed.
Lemma bytes_comparison : comparison bytes_compare.
Proof.
  split.
  - intros a b. unfold bytes_compare. destruct (bytes_less a b), (bytes_less b a); auto.
  - apply bytes_compare_0.
  - intros a b. unfold bytes_compare. destruct (bytes_less a b) eqn:E1, (bytes_less b a) eqn:E2; try done. by rewrite (bytes_less_asym _ _ E1) in E2.
  - intros a b c. unfold bytes_compare. destruct (bytes_less a b) eqn:E1; [|by destruct (bytes_less b a)]. destruct (bytes_less b c) eqn:E2; [|by destruct (bytes_less c b)].
    by rewrite (bytes_less_trans a b c).
Qed.
Lemma sgn_comparison : comparison (λ a b, Z.sgn (a - b)).
Proof. split; intros; lia. Qed.
Definition item_cmp : item → item → Z := lex bytes_compare (lex (λ a b, Z.sgn (a - b)) (lex bytes_compare bytes_compare)).
Lemma item_comparison : comparison item_cmp.
Proof. repeat apply lex_comparison; apply bytes_comparison || apply sgn_comparison. Qed.
Definition item_lt (x y : item) : Prop := item_cmp x y = -1.
#[global] Instance item_lt_dec : RelDecision item_lt.
Proof. intros x y. unfold item_lt. apply _. Defined.

Lemma item_lt_trans x y z : item_lt x y → item_lt y z → item_lt x z.
Proof. apply (cmp_trans _ item_comparison). Qed.
Lemma item_lt_irrefl x : ¬ item_lt x x.
Proof. unfold item_lt. by rewrite (proj2 (cmp_eq _ item_comparison x x)). Qed.
Lemma item_cmp_cases x y : item_lt x y ∧ item_cmp x y = -1 ∨ x = y ∧ item_cmp x y = 0 ∨ item_lt y x ∧ item_cmp x y = 1.
Proof.
  pose proof (cmp_range _ item_comparison x y) as [E|[E|E]]; [by left|right; left; split; [by apply (cmp_eq _ item_comparison)|done]|].
  right; right. split; [|done]. unfold item_lt. by rewrite (cmp_anti _ item_comparison x y), E.
Qed.
Lemma item_lt_path x y : item_lt x y → bytes_less (i_path y) (i_path x) = false.
Proof.
  unfold item_lt, item_cmp, lex, i_path. case_bool_decide as E; [|intros _; assert (x.1 = y.1) as -> by (apply bytes_compare_0; lia); apply bytes_less_irrefl].
  unfold bytes_compare. destruct (bytes_less x.1 y.1) eqn:E1; [intros _; by apply bytes_less_asym|]. by destruct (bytes_less y.1 x.1).
Qed.

(** ** What an iterator presents *)

(** [it] stands on [x]: before its first move on [start]. *)
Definition start : item := ([], (1, (zero, []))).
Definition stands_on {I} `{NodeIterator I} (it : I) (x : item) : Prop :=
  ni_Path it = i_path x ∧ ni_Leaf it = i_leaf x ∧ ni_Hash it = i_hash x ∧ (i_leaf x = true → ni_LeafBlob it = Ret (i_blob x)) ∧ item_ok x.
(** The items to come after a move. *)
Definition below (x y : item) : Prop := i_path x `prefix_of` i_path y.
#[global] Instance below_dec : RelDecision below.
Proof. intros x y. unfold below. apply _. Defined.
Definition after (descend : bool) (x : item) (rem : list item) : list item := if descend then rem else filter (λ y, ¬ below x y) rem.
(** Moves without descent are made from items with a hash only. *)
Class Presents (I : Type) `{NodeIterator I} (presents : I → item → list item → Prop) : Prop := {
  presents_stands it x rem : presents it x rem → stands_on it x;
  presents_sorted it x rem : presents it x rem → StronglySorted item_lt (x :: rem);
  presents_Next it x rem d : presents it x rem → (d = true ∨ i_hash x ≠ zero) →
    ∃ it', match after d x rem with
           | [] => ni_Next it d = Ret (false, it')
           | y :: rem' => ni_Next it d = Ret (true, it') ∧ presents it' y rem'
           end
}.

Lemma compareNodes_ok {A B} `{NodeIterator A} `{NodeIterator B} (a : A) (b : B) x y :
  stands_on a x → stands_on b y → compareNodes a b = Ret (item_cmp x y).
Proof.
  intros (Hp & Hl & Hh & Hb & Hx) (Hp' & Hl' & Hh' & Hb' & Hy). unfold compareNodes, item_cmp, lex. rewrite Hp, Hp', Hl, Hl', Hh, Hh'.
  destruct x as [p [l [h v]]], y as [p' [l' [h' v']]]. unfold i_path, i_leaf, i_hash, i_blob, item_ok in *. cbn [fst snd] in *.
  clear Hl Hl'. destruct (bool_decide (bytes_compare p p' ≠ 0)); [done|].
  destruct Hx as [->|[-> Hv]], Hy as [->|[-> Hv']]; cbn -[bytes_compare]; [|done|done|]; destruct (bool_decide (bytes_compare h h' ≠ 0)); try done.
  - by rewrite Hb, Hb' by done.
  - cbn in Hv, Hv'. by subst.
Qed.

Lemma sorted_gt x y xs : StronglySorted item_lt (x :: xs) → y ∈ xs → item_lt x y.
Proof. intros [HF _]%StronglySorted_cons Hy. rewrite Forall_forall in HF. by apply HF. Qed.
Lemma sorted_above x y z xs : item_lt x y → StronglySorted item_lt (y :: xs) → z ∈ y :: xs → item_lt x z.
Proof. intros Hxy Hs [->|Hz]%elem_of_cons; [done|]. eapply item_lt_trans; [done|]. by eapply sorted_gt. Qed.
Lemma elem_of_after d x z rem : z ∈ after d x rem ↔ z ∈ rem ∧ (d = true ∨ ¬ below x z).
Proof. unfold after. destruct d; [naive_solver|]. rewrite list_elem_of_filter. naive_solver. Qed.
Lemma length_after d x rem : (length (after d x rem) ≤ length rem)%nat.
Proof. unfold after. destruct d; [done|]. apply length_filter. Qed.

Lemma sorted_filter {T} (R : T → T → Prop) (P : T → Prop) `{∀ x, Decision (P x)} (l : list T) : StronglySorted R l → StronglySorted R (filter P l).
Proof.
  induction 1 as [|x l _ IH HF]; [constructor|]. rewrite filter_cons. case_decide; [|done]. constructor; [done|].
  rewrite Forall_forall in HF |- *. intros y [_ Hy]%list_elem_of_filter. auto.
Qed.
Lemma filter_within {T} (P Q : T → Prop) `{∀ x, Decision (P x)} `{∀ x, Decision (Q x)} (l : list T) :
  (∀ x, x ∈ l → P x → Q x) → filter P (filter Q l) = filter P l.
Proof.
  induction l as [|x l IH]; intros Hl; [done|]. rewrite (filter_cons Q), (filter_cons P x l). assert (∀ y, y ∈ l → P y → Q y) as Hl' by (intros; apply Hl; [by right|done]).
  destruct (decide (Q x)) as [Hq|Hq]; [rewrite filter_cons; by rewrite IH|]. rewrite IH by done. rewrite decide_False; [done|]. intros Hp. apply Hq, Hl; [left|done].
Qed.

(** What is seen of the item an iterator stands on. *)
Definition seen (x : item) : bytes * bool * bytes := (i_path x, i_leaf x, i_hash x).
(** The items met by moving to the end. *)
Fixpoint visit {I} `{NodeIterator I} (n : nat) (it : I) : go (list (bytes * bool * bytes)) :=
  match n with
  | O => Halt (Blocked "fuel")
  | S n => '(more, it) ← ni_Next it true;
           if more : bool then l ← visit n it; Ret ((ni_Path it, ni_Leaf it, ni_Hash it) :: l) else Ret []
  end.

(** ** The difference *)
Section difference_ok.
Context {A B : Type} `{NA : NodeIterator A} `{NB : NodeIterator B}.
Variable presents_a : A → item → list item → Prop.
Variable presents_b : B → item → list item → Prop.
Context `{PA : !Presents A presents_a} `{PB : !Presents B presents_b}.

(** All items of the two, and that equal hashes mean equal items below. *)
Variable As Bs : list item.
Hypothesis same_below : ∀ x y, x ∈ As → x ∈ Bs → i_hash x ≠ zero → y ∈ Bs → below x y → y ∈ As.

(** Enough for the items of [a]. *)
Variable fuel : nat.

Abbreviation news := (filter (λ y : item, y ∉ As)).

(** What is to come of [b] is in [As] if [a] still has it. *)
Definition synced (xs ys : list item) : Prop := (∀ z, z ∈ ys → z ∈ As ↔ z ∈ xs) ∧ xs ⊆ As ∧ ys ⊆ Bs.
(** The state between calls: [ys] is what comes after the item of [b]. *)
Definition differs (it : differenceIterator A B) (ys : list item) : Prop :=
  (∃ y, presents_b (di_b it) y ys) ∧ ys ⊆ Bs ∧
    if di_eof it then ∀ z, z ∈ ys → z ∉ As
    else ∃ x xs, presents_a (di_a it) x xs ∧ synced (x :: xs) ys ∧ (length xs < fuel)%nat.
Definition moved_to (r : go (bool * differenceIterator A B)) (zs : list item) : Prop :=
  match zs with
  | [] => ∃ it, r = Ret (false, it)
  | z :: zs => ∃ it ys, r = Ret (true, it) ∧ stands_on (di_b it) z ∧ differs it ys ∧ zs = news ys
  end.

Lemma news_after d y ys : y ∈ As → y :: ys ⊆ Bs → (d = true ∨ i_hash y ≠ zero) → news (after d y ys) = news ys.
Proof.
  intros Hy HB Hd. unfold after. destruct d; [done|]. destruct Hd as [?|Hd]; [done|].
  apply filter_within. intros z Hz Hn Hb. apply Hn. apply (same_below y z); [done|apply HB; left|done|apply HB; by right|done].
Qed.
Lemma synced_after d x xs ys : synced (x :: xs) (x :: ys) → StronglySorted item_lt (x :: ys) → synced (after d x xs) (after d x ys).
Proof.
  intros (Hs & HA & HB) Ho. split; [|split].
  - intros z [Hz Hd]%elem_of_after. rewrite elem_of_after. rewrite Hs by (by right). rewrite elem_of_cons.
    assert (z ≠ x) by (intros ->; eapply item_lt_irrefl, sorted_gt; eauto). tauto.
  - intros z [Hz _]%elem_of_after. apply HA. by right.
  - intros z [Hz _]%elem_of_after. apply HB. by right.
Qed.
Lemma synced_drop x xs y ys : synced (x :: xs) (y :: ys) → item_lt x y → StronglySorted item_lt (y :: ys) → synced xs (y :: ys).
Proof.
  intros (Hs & HA & HB) Hlt Ho. split; [|split; [|done]].
  - intros z Hz. rewrite (Hs z Hz), elem_of_cons. assert (z ≠ x); [|tauto]. intros ->. eapply item_lt_irrefl, sorted_above; eauto.
  - intros z Hz. apply HA. by right.
Qed.
Lemma synced_tail xs y ys : synced xs (y :: ys) → synced xs ys.
Proof. intros (Hs & HA & HB). split; [|split; [done|]]; [intros z Hz; apply Hs; by right|intros z Hz; apply HB; by right]. Qed.

Lemma difference_loop_ok f : ∀ a b count x xs y ys,
  (length xs < f)%nat → (length xs < fuel)%nat → presents_a a x xs → presents_b b y ys → synced (x :: xs) (y :: ys) →
  moved_to (difference_loop f (mkDifference a b false count)) (news (y :: ys)).
Proof.
  induction f as [|f IH]; intros a b count x xs y ys Hf Hff Ha Hb Hs; [lia|]. cbn [difference_loop].
  pose proof (presents_sorted _ _ _ Ha) as Hsa. pose proof (presents_sorted _ _ _ Hb) as Hsb.
  pose proof (presents_stands _ _ _ Ha) as Hta. pose proof (presents_stands _ _ _ Hb) as Htb.
  rewrite (compareNodes_ok a b x y) by done. cbn [mbind go_bind]. destruct (item_cmp_cases x y) as [[Hlt ->]|[[-> ->]|[Hlt ->]]].
  - rewrite bool_decide_eq_true_2 by done. destruct (presents_Next a x xs true Ha) as [a' Hn]; [by left|]. cbn [after] in Hn.
    pose proof (synced_drop _ _ _ _ Hs Hlt Hsb) as Hs'. destruct xs as [|x' xs].
    + rewrite Hn. cbn [mbind go_bind]. assert (∀ z, z ∈ y :: ys → z ∉ As) as Hno by (intros z Hz; rewrite (proj1 Hs' z Hz); apply not_elem_of_nil).
      rewrite filter_cons_True by (apply Hno; left). eexists _, ys. split; [done|]. split; [done|]. split; [|done]. split; [by exists y|]. split.
      * intros z Hz. apply Hs'. by right.
      * cbn. intros z Hz. apply Hno. by right.
    + destruct Hn as [-> Ha']. cbn [mbind go_bind]. cbn in Hf, Hff. apply (IH a' b _ x' xs y ys); [lia|lia|done|done|done].
  - rewrite bool_decide_eq_false_2, bool_decide_eq_false_2 by done. destruct Hta as (_ & _ & Hh & _). rewrite Hh. set (d := bool_decide (i_hash y = zero)).
    assert (d = true ∨ i_hash y ≠ zero) as Hd by (unfold d; case_bool_decide; auto).
    assert (y ∈ As) as Hy by (apply Hs; left). rewrite filter_cons_False by tauto. rewrite <-(news_after d y ys) by (done || apply Hs).
    pose proof (synced_after d y xs ys Hs Hsb) as Hs'. pose proof (length_after d y xs) as Hl.
    destruct (presents_Next b y ys d Hb Hd) as [b' Hnb]. destruct (after d y ys) as [|y' ys'] eqn:Eb; [rewrite Hnb; by eexists|].
    destruct Hnb as [-> Hb']. cbn [mbind go_bind negb]. destruct (presents_Next a y xs d Ha Hd) as [a' Hna]. pose proof (presents_stands _ _ _ Hb') as Htb'.
    destruct (after d y xs) as [|x' xs'] eqn:Ea.
    + rewrite Hna. cbn [mbind go_bind negb]. assert (∀ z, z ∈ y' :: ys' → z ∉ As) as Hno by (intros z Hz; rewrite (proj1 Hs' z Hz); apply not_elem_of_nil).
      rewrite filter_cons_True by (apply Hno; left). eexists _, ys'. split; [done|]. split; [done|]. split; [|done]. split; [by exists y'|]. split.
      * intros z Hz. apply Hs'. by right.
      * cbn. intros z Hz. apply Hno. by right.
    + destruct Hna as [-> Ha']. cbn [mbind go_bind negb]. cbn in Hl. apply (IH a' b' _ x' xs' y' ys'); [lia|lia|done|done|done].
  - rewrite bool_decide_eq_false_2, bool_decide_eq_true_2 by done. rewrite filter_cons_True.
    + eexists _, ys. split; [done|]. split; [done|]. split; [|done]. split; [by exists y|]. split; [intros z Hz; apply Hs; by right|].
      cbn. exists x, xs. split_and!; [done|by eapply synced_tail|done].
    + rewrite (proj1 Hs y) by left. intros Hy. eapply item_lt_irrefl, sorted_above; eauto.
Qed.
Lemma difference_Next_ok it ys d : differs it ys → moved_to (difference_Next fuel it d) (news ys).
Proof.
  intros ([y Hb] & HB & Hc). destruct it as [a b eof count]. cbn [di_a di_b di_eof] in *. cbn [difference_Next].
  destruct (presents_Next b y ys true Hb) as [b' Hn]; [by left|]. cbn [after] in Hn. destruct ys as [|y' ys]; [rewrite Hn; by eexists|].
  destruct Hn as [-> Hb']. cbn [mbind go_bind negb]. pose proof (presents_stands _ _ _ Hb'). destruct eof.
  - rewrite filter_cons_True by (apply Hc; left). eexists _, ys. split; [done|]. split; [done|]. split; [|done]. split; [by exists y'|].
    split; [intros z Hz; apply HB; by right|]. cbn. intros z Hz. apply Hc. by right.
  - destruct Hc as (x & xs & Ha & Hs & Hl). by apply (difference_loop_ok fuel a b' _ x xs).
Qed.
Lemma difference_visit n : ∀ it ys, differs it ys → (length (news ys) < n)%nat →
  visit (H := difference_iterator fuel) n it = Ret (seen <$> news ys).
Proof.
  induction n as [|n IH]; intros it ys Hit Hl; [lia|]. cbn [visit ni_Next difference_iterator].
  pose proof (difference_Next_ok it ys true Hit) as Hm. destruct (news ys) as [|z zs]; cbn [moved_to] in Hm.
  - by destruct Hm as [it' ->].
  - destruct Hm as (it' & ys' & -> & (Hp & Hlf & Hh & _) & Hit' & ->). cbn [mbind go_bind]. cbn in Hl. rewrite (IH it' ys') by (done || lia).
    cbn. by rewrite Hp, Hlf, Hh.
Qed.
End difference_ok.

(** The difference iterator visits the items of [b] that [a], which has
    items, does not have, in their order. *)
Theorem difference_all {A B} `{NA : NodeIterator A} `{NB : NodeIterator B} presents_a presents_b
    `{PA : !Presents A presents_a} `{PB : !Presents B presents_b} a b x xs y ys fuel :
  presents_a a x xs → presents_b b y ys → xs ≠ [] → (length xs ≤ fuel)%nat →
  (∀ x z, x ∈ xs → x ∈ ys → i_hash x ≠ zero → z ∈ ys → below x z → z ∈ xs) →
  ∃ it, NewDifferenceIterator a b = Ret it ∧
    visit (H := difference_iterator fuel) (S (length ys)) it = Ret (seen <$> filter (λ z, z ∉ xs) ys).
Proof.
  intros Ha Hb Hne Hf Hsame. unfold NewDifferenceIterator. destruct (presents_Next a x xs true Ha) as [a' Hn]; [by left|]. cbn [after] in Hn.
  destruct xs as [|x' xs]; [done|]. destruct Hn as [-> Ha']. cbn [mbind go_bind]. eexists. split; [done|].
  apply (difference_visit presents_a presents_b (x' :: xs) ys Hsame fuel).
  - split; [by exists y|]. split; [done|]. cbn. exists x', xs. split_and!; [done|by split_and!|cbn in Hf; lia].
  - apply Nat.lt_succ_r, length_filter.
Qed.

(** ** The union *)
Section union_ok.
Context {I : Type} `{NI : NodeIterator I}.
Variable presents : I → item → list item → Prop.
Context `{PI : !Presents I presents}.
Abbreviation pres := (λ (i : I) (p : item * list item), presents i p.1 p.2).

(** *** The heap of iterators *)
Definition standing (i : I) : Prop := ∃ p, pres i p.
Definition iter_lt (a b : I) : bool := match compareNodes a b with Ret c => bool_decide (c < 0) | Halt _ => false end.
Lemma iter_lt_item a b x y : stands_on a x → stands_on b y → iter_lt a b = bool_decide (item_lt x y).
Proof.
  intros Ha Hb. unfold iter_lt. rewrite (compareNodes_ok a b x y) by done. apply bool_decide_ext. unfold item_lt.
  destruct (cmp_range _ item_comparison x y) as [E|[E|E]]; lia.
Qed.
Lemma standing_on i : standing i → ∃ x, stands_on i x.
Proof. intros [p Hp]. exists p.1. by eapply presents_stands. Qed.
Lemma iter_less_ok a b : standing a → standing b → iter_less a b = Ret (iter_lt a b).
Proof.
  intros [x Hx]%standing_on [y Hy]%standing_on. unfold iter_less, iter_lt. by rewrite (compareNodes_ok a b x y).
Qed.
Lemma item_lt_asym x y : item_lt x y → ¬ item_lt y x.
Proof. intros H1 H2. eapply item_lt_irrefl, item_lt_trans; eauto. Qed.
Lemma iter_lt_asym a b : standing a → standing b → iter_lt a b = true → iter_lt b a = false.
Proof.
  intros [x Hx]%standing_on [y Hy]%standing_on. rewrite (iter_lt_item a b x y), (iter_lt_item b a y x) by done.
  intros Hlt%bool_decide_eq_true_1. apply bool_decide_eq_false_2. by apply item_lt_asym.
Qed.
Lemma iter_le_trans a b c : standing a → standing b → standing c → iter_lt b a = false → iter_lt c b = false → iter_lt c a = false.
Proof.
  intros [x Hx]%standing_on [y Hy]%standing_on [z Hz]%standing_on. rewrite (iter_lt_item b a y x), (iter_lt_item c b z y), (iter_lt_item c a z x) by done.
  rewrite !bool_decide_eq_false. intros H1 H2 H3. destruct (item_cmp_cases x y) as [[Hlt _]|[[-> _]|[Hlt _]]]; [|done|done].
  apply H2. by eapply item_lt_trans.
Qed.
Abbreviation heap_of := (is_heap standing iter_lt).

Lemma heap_min i h p : heap_of (i :: h) → pres i p → ∀ j q, j ∈ i :: h → pres j q → ¬ item_lt q.1 p.1.
Proof.
  intros Hh Hp j q Hj Hq. pose proof (heap_first standing iter_lt iter_lt_asym iter_le_trans _ i j Hh eq_refl Hj) as Hle. unfold le in Hle.
  rewrite (iter_lt_item j i q.1 p.1 (presents_stands _ _ _ Hq) (presents_stands _ _ _ Hp)) in Hle. by apply bool_decide_eq_false_1 in Hle.
Qed.

(** *** The items of all *)
Definition all_items (ps : list (item * list item)) : list item := concat (map (λ p, p.1 :: p.2) ps).
Definition size (ps : list (item * list item)) : nat := length (all_items ps).
Lemma elem_of_all z ps : z ∈ all_items ps ↔ ∃ p, p ∈ ps ∧ z ∈ p.1 :: p.2.
Proof.
  unfold all_items. induction ps as [|p ps IH]; cbn [map concat].
  - split; [by intros ?%elem_of_nil|by intros (p & ?%elem_of_nil & _)].
  - rewrite elem_of_app, IH. split; [intros [Hz|(q & Hq & Hz)]; [exists p; by split; [left|]|exists q; by split; [right|]]|].
    intros (q & [->|Hq]%elem_of_cons & Hz); [by left|right; by exists q].
Qed.
#[global] Instance size_proper : Proper ((≡ₚ) ==> (=)) size.
Proof. intros ps ps' Hp. unfold size, all_items. apply Permutation_length. by rewrite Hp. Qed.
Lemma size_cons p ps : size (p :: ps) = (S (length p.2) + size ps)%nat.
Proof. unfold size, all_items. cbn [map concat]. by rewrite length_app. Qed.

(** The full lists; where hashes are equal, so are the items below. *)
Variable Fs : list (list item).
Hypothesis same_below : ∀ f g x y, f ∈ Fs → g ∈ Fs → x ∈ f → x ∈ g → i_hash x ≠ zero → y ∈ f → below x y → y ∈ g.
(** Of a full list, nothing below an item that is still there is missing. *)
Definition intact (p : item * list item) : Prop :=
  StronglySorted item_lt (p.1 :: p.2) ∧ ∃ f, f ∈ Fs ∧ p.1 :: p.2 ⊆ f ∧ ∀ z y, z ∈ p.1 :: p.2 → y ∈ f → below z y → item_lt z y → y ∈ p.2.

Lemma intact_after d x rem y rem' : intact (x, rem) → after d x rem = y :: rem' → intact (y, rem').
Proof.
  intros [Hs (f & Hf & Hsub & Hall)] Ha. cbn [fst snd] in *.
  assert (∀ z, z ∈ y :: rem' ↔ z ∈ rem ∧ (d = true ∨ ¬ below x z)) as Hz by (intros z; rewrite <-Ha; apply elem_of_after).
  assert (StronglySorted item_lt (y :: rem')) as Hs'.
  { rewrite <-Ha. apply StronglySorted_cons in Hs as [_ Hs]. unfold after. destruct d; [done|]. by apply sorted_filter. }
  split; [done|]. exists f. cbn [fst snd]. split_and!; [done|intros z [Hz' _]%Hz; apply Hsub; by right|].
  intros z w [Hzr Hd]%Hz Hw Hb Hlt. assert (item_lt x z) as Hxz by (by eapply sorted_gt).
  assert (w ∈ rem) as Hwr by (apply (Hall z w); [by right|done..]).
  assert (w ∈ y :: rem') as Hin.
  { apply Hz. split; [done|]. destruct Hd as [->|Hd]; [by left|]. right. intros Hxw. unfold below in *.
    destruct (prefix_weak_total _ _ _ Hxw Hb) as [?|Hzx]; [done|]. apply item_lt_path in Hxz. destruct Hzx as [t Ht]. rewrite Ht in Hxz.
    destruct t as [|t0 t]; [apply Hd; rewrite Ht, app_nil_r; done|]. by rewrite bytes_less_longer in Hxz. }
  apply elem_of_cons in Hin as [->|Hin]; [|done]. exfalso. assert (z ∈ y :: rem') as [->|Hzr']%elem_of_cons by (by apply Hz); [by eapply item_lt_irrefl|].
  eapply item_lt_asym; [exact Hlt|]. by eapply sorted_gt.
Qed.

(** A heap [h] of iterators that present [ps]. *)
Definition holds_items (h : list I) (ps : list (item * list item)) : Prop := heap_of h ∧ Forall2 pres h ps ∧ Forall intact ps.
Abbreviation POP := (Pop_ok iter_less standing iter_lt iter_less_ok iter_lt_asym iter_le_trans).
Abbreviation PUSH := (Push_ok iter_less standing iter_lt iter_less_ok iter_lt_asym iter_le_trans).
Lemma holds_pop i h ps : holds_items (i :: h) ps →
  ∃ h' p ps', Pop iter_less (i :: h) = Ret (i, h') ∧ pres i p ∧ intact p ∧ ps ≡ₚ p :: ps' ∧ holds_items h' ps' ∧ Forall (λ q, ¬ item_lt q.1 p.1) ps'.
Proof.
  intros (Hh & HF & Hok). destruct (POP (i :: h) i Hh eq_refl) as (h' & Hpop & Hperm & Hh').
  destruct (Permutation_Forall2 Hperm HF) as (ps' & Hps & HF'). destruct ps' as [|p ps']; [by inversion HF'|].
  apply Forall2_cons in HF' as [Hp HF']. rewrite Hps in Hok. apply Forall_cons in Hok as [Hpok Hok].
  exists h', p, ps'. split_and!; [done|done|done|done|by split_and!|]. apply Forall_forall. intros q Hq.
  apply list_elem_of_lookup in Hq as [k Hk]. destruct (Forall2_lookup_r _ _ _ _ _ HF' Hk) as (j & Hj & Hjq).
  apply (heap_min i h p Hh Hp j q); [|done]. rewrite Hperm. right. by eapply list_elem_of_lookup_2.
Qed.
Lemma holds_push i p h ps : pres i p → intact p → holds_items h ps →
  ∃ h' ps', Push iter_less h i = Ret h' ∧ ps' ≡ₚ p :: ps ∧ holds_items h' ps'.
Proof.
  intros Hp Hpok (Hh & HF & Hok). destruct (PUSH h i Hh) as (h' & Hpush & Hperm & Hh'); [by exists p|].
  assert (Forall2 pres (i :: h) (p :: ps)) as HF1 by (by constructor).
  destruct (Permutation_Forall2 (symmetry Hperm) HF1) as (ps' & Hps & HF').
  exists h', ps'. split_and!; [done|done|]. split_and!; [done|done|]. rewrite <-Hps. by constructor.
Qed.

(** *** [Next] *)

(** [x] is gone, and what else is gone [least] has. *)
Definition skipped_to (x : item) (rest : list item) (ps ps' : list (item * list item)) : Prop :=
  (∀ z, z ∈ all_items ps' → z ∈ all_items ps ∧ item_lt x z) ∧
  (∀ z, z ∈ all_items ps → z = x ∨ z ∈ all_items ps' ∨ z ∈ rest).

(** An item that is skipped with its iterator is below [x]: [least] has it. *)
Lemma skipped_below x rem rest d z : intact (x, rem) → intact (x, rest) → (d = true ∨ i_hash x ≠ zero) → z ∈ rem → z ∈ after d x rem ∨ z ∈ rest.
Proof.
  intros [Hs (f & Hf & Hsub & _)] [_ (g & Hg & Hsub' & Hall)] Hd Hz. cbn [fst snd] in *. rewrite elem_of_after. destruct (decide (below x z)) as [Hb|Hb]; [|auto].
  destruct Hd as [->|Hd]; [auto|]. right. apply (Hall x z); [left| |done|by eapply sorted_gt].
  apply (same_below f g x z); [done|done|apply Hsub; left|apply Hsub'; left|done|apply Hsub; by right|done].
Qed.
Lemma all_items_perm z ps ps' : ps ≡ₚ ps' → z ∈ all_items ps ↔ z ∈ all_items ps'.
Proof. intros Hp. rewrite !elem_of_all. by setoid_rewrite Hp. Qed.
Lemma all_items_cons z p ps : z ∈ all_items (p :: ps) ↔ z = p.1 ∨ z ∈ p.2 ∨ z ∈ all_items ps.
Proof. unfold all_items. cbn [map concat]. rewrite elem_of_app, elem_of_cons. tauto. Qed.
Lemma item_above x z ps : Forall intact ps → Forall (λ q, item_lt x q.1) ps → z ∈ all_items ps → item_lt x z.
Proof.
  rewrite elem_of_all, !Forall_forall. intros Hok Hx (q & Hq & Hz). eapply sorted_above; [by apply Hx|apply (Hok q Hq)|done].
Qed.
Lemma not_lt_trans x y z : item_lt x y → ¬ item_lt z y → item_lt x z.
Proof. intros Hxy Hzy. destruct (item_cmp_cases z y) as [[? _]|[[-> _]|[Hyz _]]]; [done|done|]. by eapply item_lt_trans. Qed.

Lemma skip_loop_ok f least x rest : presents least x rest → intact (x, rest) →
  ∀ h ps count, (size ps < f)%nat → holds_items h ps → Forall (λ q, ¬ item_lt q.1 x) ps →
  ∃ h' ps' count', skip_loop f true least h count = Ret (h', count') ∧ holds_items h' ps' ∧ skipped_to x rest ps ps' ∧ (size ps' ≤ size ps)%nat.
Proof.
  intros Hl Hlok. induction f as [|f IH]; intros h ps count Hf Hh Hmin; [lia|]. cbn [skip_loop]. destruct h as [|i h].
  { exists [], ps, count. pose proof Hh as (_ & HF & _). apply Forall2_nil_inv_l in HF as ->. split_and!; [done|done| |done]. split; intros z ?%elem_of_nil; done. }
  destruct (holds_pop i h ps Hh) as (h1 & [y rem] & ps1 & Hpop & Hp & Hpok & Hperm & Hh1 & Hmin1). cbn [fst snd] in *. rewrite Hperm in Hmin.
  apply Forall_cons in Hmin as [Hxy Hmin]. cbn [fst] in Hxy. unfold skips. cbn [negb andb]. rewrite Hpop. pose proof (presents_stands _ _ _ Hp) as Hst.
  rewrite (compareNodes_ok least i x y) by (done || by eapply presents_stands). cbn [mbind go_bind].
  destruct (item_cmp_cases x y) as [[Hlt ->]|[[-> ->]|[Hlt _]]]; [| |done].
  - rewrite bool_decide_eq_false_2 by done. cbn [negb]. exists (i :: h), ps, count. split_and!; [done|done| |done]. split; [|auto].
    intros z Hz. split; [done|]. apply (all_items_perm z _ _ Hperm) in Hz. eapply item_above; [| |exact Hz].
    + rewrite <-Hperm. apply Hh.
    + constructor; [done|]. eapply Forall_impl; [exact Hmin1|]. intros q Hq. by eapply not_lt_trans.
  - rewrite bool_decide_eq_true_2 by done. cbn [negb mbind go_bind]. destruct Hst as (_ & _ & -> & _). set (d := bool_decide (i_hash y = zero)).
    assert (d = true ∨ i_hash y ≠ zero) as Hd by (unfold d; case_bool_decide; auto).
    assert (size ps = S (length rem) + size ps1)%nat as Hsz by (rewrite Hperm; apply size_cons).
    assert (∀ ps2, (∀ z, z ∈ all_items ps2 ↔ z ∈ after d y rem ∨ z ∈ all_items ps1) → (size ps2 < size ps)%nat → ∀ h2 c2, holds_items h2 ps2 → Forall (λ q, ¬ item_lt q.1 y) ps2 →
      ∃ h' ps' count', skip_loop f true least h2 c2 = Ret (h', count') ∧ holds_items h' ps' ∧ skipped_to y rest ps ps' ∧ (size ps' ≤ size ps)%nat) as Hgo.
    { intros ps2 Hps2 Hsz2 h2 c2 Hh2 Hmin2. destruct (IH h2 ps2 c2) as (h' & ps' & count' & Hs & Hh' & [H1 H2] & Hsz'); [lia|done|done|].
      exists h', ps', count'. split_and!; [done|done| |lia]. split; intros z; rewrite (all_items_perm z _ _ Hperm), all_items_cons; cbn [fst snd].
      - intros [Hz Hlt]%H1. split; [|done]. apply Hps2 in Hz as [[Hz _]%elem_of_after|Hz]; auto.
      - intros [->|[Hz|Hz]]; [auto| |apply H2, Hps2; by right].
        destruct (skipped_below y rem rest d z Hpok Hlok Hd Hz) as [Hz'|Hz']; [apply H2, Hps2; by left|auto]. }
    destruct (presents_Next i y rem d Hp Hd) as [i' Hn]. pose proof (length_after d y rem) as Hla. destruct (after d y rem) as [|y' rem'] eqn:Ea.
    + rewrite Hn. cbn [mbind go_bind]. apply (Hgo ps1); [|lia|done|done]. intros z. split; [auto|]. intros [?%elem_of_nil|?]; done.
    + destruct Hn as [-> Hp']. cbn [mbind go_bind]. assert (intact (y', rem')) as Hok' by (by eapply intact_after).
      destruct (holds_push i' (y', rem') h1 ps1 Hp' Hok' Hh1) as (h2 & ps2 & -> & Hperm2 & Hh2). cbn [mbind go_bind]. apply (Hgo ps2); [| |done|].
      * intros z. rewrite (all_items_perm z _ _ Hperm2), all_items_cons, elem_of_cons. cbn. tauto.
      * rewrite Hperm2, size_cons. cbn in Hla |- *. lia.
      * rewrite Hperm2. constructor; [|done]. cbn. apply item_lt_asym. apply (sorted_gt y y' rem); [apply Hpok|].
        assert (y' ∈ after d y rem) as [? _]%elem_of_after by (rewrite Ea; left). done.
Qed.

(** A move: the least item is gone from all of them. *)
Lemma union_Next_ok f i h ps count : (size ps < f)%nat → holds_items (i :: h) ps →
  ∃ x h' ps' count', stands_on i x ∧ x ∈ all_items ps ∧ (∀ z, z ∈ all_items ps → z = x ∨ item_lt x z) ∧
    union_Next f (mkUnion (i :: h) count) true = Ret (bool_decide (h' ≠ []), mkUnion h' count') ∧ holds_items h' ps' ∧
    (size ps' < size ps)%nat ∧ ∀ z, z ∈ all_items ps' ↔ z ∈ all_items ps ∧ item_lt x z.
Proof.
  intros Hf Hh. destruct (holds_pop i h ps Hh) as (h1 & [x rest] & ps1 & Hpop & Hp & Hpok & Hperm & Hh1 & Hmin). cbn [fst snd] in *.
  assert (size ps = S (length rest) + size ps1)%nat as Hsz by (rewrite Hperm; apply size_cons).
  destruct (skip_loop_ok f i x rest Hp Hpok h1 ps1 count) as (h2 & ps2 & c2 & Hskip & Hh2 & [H1 H2] & Hsz2); [lia|done|done|].
  assert (∀ z, z ∈ rest → item_lt x z) as Hrest by (intros z Hz; eapply sorted_gt; [apply Hpok|done]).
  assert (∀ z, z ∈ rest ∨ z ∈ all_items ps2 ↔ z ∈ all_items ps ∧ item_lt x z) as Hall.
  { intros z. rewrite (all_items_perm z _ _ Hperm), all_items_cons. cbn [fst snd]. split.
    - intros [Hz|Hz]; [auto|]. apply H1 in Hz as [? ?]. auto.
    - intros [[->|[Hz|Hz]] Hlt]; [by apply item_lt_irrefl in Hlt|auto|]. apply H2 in Hz as [->|[?|?]]; [by apply item_lt_irrefl in Hlt|auto|auto]. }
  exists x. cbn [union_Next]. rewrite Hpop. cbn [mbind go_bind]. rewrite Hskip. cbn [mbind go_bind].
  destruct (presents_Next i x rest true Hp) as [i' Hn]; [by left|]. cbn [after] in Hn.
  assert (stands_on i x ∧ x ∈ all_items ps ∧ ∀ z, z ∈ all_items ps → z = x ∨ item_lt x z) as (Hx1 & Hx2 & Hx3).
  { split_and!; [by eapply presents_stands|apply (all_items_perm x _ _ Hperm), all_items_cons; by left|].
    intros z. rewrite (all_items_perm z _ _ Hperm), all_items_cons. cbn [fst snd]. intros [->|[Hz|Hz]]; [auto|auto|].
    apply H2 in Hz as [->|[Hz|Hz]]; [auto| |auto]. right. by apply H1. }
  destruct rest as [|y rest].
  - rewrite Hn. cbn [mbind go_bind]. exists h2, ps2, c2. split_and!; [done|done|done|done|done|lia|]. intros z. rewrite <-Hall, elem_of_nil. tauto.
  - destruct Hn as [-> Hp']. cbn [mbind go_bind]. assert (intact (y, rest)) as Hok' by (by eapply (intact_after true)).
    destruct (holds_push i' (y, rest) h2 ps2 Hp' Hok' Hh2) as (h3 & ps3 & -> & Hperm3 & Hh3). cbn [mbind go_bind].
    exists h3, ps3, (c2 + 1). split_and!; [done|done|done|done|done|rewrite Hperm3, size_cons; cbn in Hsz |- *; lia|].
    intros z. rewrite <-Hall, (all_items_perm z _ _ Hperm3), all_items_cons, elem_of_cons. cbn. tauto.
Qed.

(** Moving to the end. *)
Fixpoint union_visit (n f : nat) (it : unionIterator I) : go (list (bytes * bool * bytes)) :=
  match n with
  | O => Halt (Blocked "fuel")
  | S n => '(more, it) ← union_Next f it true;
           if more : bool then p ← union_Path it; l ← union_Leaf it; h ← union_Hash it; r ← union_visit n f it; Ret ((p, l, h) :: r) else Ret []
  end.
Lemma union_visit_ok n f : ∀ i h ps count, (size ps < f)%nat → (size ps ≤ n)%nat → holds_items (i :: h) ps →
  ∃ x L, stands_on i x ∧ union_visit n f (mkUnion (i :: h) count) = Ret (seen <$> L) ∧ StronglySorted item_lt (x :: L) ∧ ∀ z, z ∈ x :: L ↔ z ∈ all_items ps.
Proof.
  induction n as [|n IH]; intros i h ps count Hf Hn Hh.
  { destruct (union_Next_ok f i h ps count Hf Hh) as (x & _ & _ & _ & _ & Hx & _). unfold size in Hn. destruct (all_items ps); [by apply elem_of_nil in Hx|cbn in Hn; lia]. }
  destruct (union_Next_ok f i h ps count Hf Hh) as (x & h' & ps' & c' & Hst & Hx & Hmin & Hnext & Hh' & Hsz & Hall).
  exists x. cbn [union_visit]. rewrite Hnext. cbn [mbind go_bind]. destruct h' as [|i' h'].
  - exists []. rewrite bool_decide_eq_false_2 by (intros Hne; done). split_and!; [done|done|by repeat constructor|].
    intros z. rewrite list_elem_of_singleton. split; [by intros ->|]. intros Hz. destruct (Hmin z Hz) as [?|Hlt]; [done|].
    destruct Hh' as (_ & HF & _). apply Forall2_nil_inv_l in HF as ->. by destruct (proj1 (elem_of_nil z) (proj2 (Hall z) (conj Hz Hlt))).
  - rewrite bool_decide_eq_true_2 by done. destruct (IH i' h' ps' c') as (x' & L & Hst' & Hv & Hs & HL); [lia|lia|done|].
    pose proof Hst' as (Hp & Hlf & Hhh & _). unfold union_Path, union_Leaf, union_Hash, first_of, at_. cbn [ui_items lookup list_lookup mbind go_bind].
    rewrite Hv, Hp, Hlf, Hhh. cbn [mbind go_bind]. exists (x' :: L). split_and!; [done|done| |].
    + apply StronglySorted_cons. split; [|done]. apply Forall_forall. intros z Hz. by apply HL, Hall in Hz as [_ ?].
    + intros z. rewrite elem_of_cons, HL, Hall. split; [intros [->|[? _]]; done|]. intros Hz. destruct (Hmin z Hz); auto.
Qed.
End union_ok.

(** Before the first move. *)
Abbreviation at_start := (λ rem : list item, (start, rem)).
Lemma size_start rems : size (at_start <$> rems) = (length rems + length (concat rems))%nat.
Proof. induction rems as [|r rems IH]; [done|]. cbn [fmap list_fmap]. rewrite size_cons, IH. cbn. rewrite length_app. lia. Qed.
Lemma elem_of_start z rems : z ∈ all_items (at_start <$> rems) ↔ rems ≠ [] ∧ z = start ∨ ∃ rem, rem ∈ rems ∧ z ∈ rem.
Proof.
  rewrite elem_of_all. split.
  - intros (p & (rem & -> & Hr)%list_elem_of_fmap & [->|Hz]%elem_of_cons); [left; split; [by intros ->; apply elem_of_nil in Hr|done]|right; by exists rem].
  - intros [[Hne ->]|(rem & Hr & Hz)].
    + destruct rems as [|r rems]; [done|]. exists (start, r). split; [left|left].
    + exists (start, rem). split; [by apply (list_elem_of_fmap_2 at_start)|by right].
Qed.
Lemma start_intact rems rem : StronglySorted item_lt (start :: rem) → rem ∈ rems → intact (cons start <$> rems) (start, rem).
Proof.
  intros Hs Hr. split; [done|]. exists (start :: rem). split_and!; [by apply (list_elem_of_fmap_2 (cons start))|done|].
  intros z y Hz Hy _ Hlt. apply elem_of_cons in Hy as [->|Hy]; [|done]. exfalso. apply elem_of_cons in Hz as [->|Hz]; [by eapply item_lt_irrefl|].
  eapply item_lt_asym; [exact Hlt|by eapply sorted_gt].
Qed.

(** The union iterator visits every item that one of its iterators has, each
    once and in order. *)
Theorem union_all {I} `{NI : NodeIterator I} presents `{PI : !Presents I presents} (iters : list I) (rems : list (list item)) f :
  Forall2 (λ i rem, presents i start rem) iters rems → iters ≠ [] → (length rems + length (concat rems) < f)%nat →
  (∀ r r' x y, r ∈ rems → r' ∈ rems → x ∈ r → x ∈ r' → i_hash x ≠ zero → y ∈ r → below x y → y ∈ r') →
  ∃ it L, NewUnionIterator iters = Ret it ∧ union_visit f f it = Ret (seen <$> L) ∧ StronglySorted item_lt L ∧
    ∀ z, z ∈ L ↔ ∃ rem, rem ∈ rems ∧ z ∈ rem.
Proof.
  intros HF Hne Hf Hsame. set (ps := at_start <$> rems).
  assert (∀ rem, rem ∈ rems → StronglySorted item_lt (start :: rem)) as Hsorted.
  { intros rem [k Hk]%list_elem_of_lookup. destruct (Forall2_lookup_r _ _ _ _ _ HF Hk) as (i & _ & Hi). by eapply presents_sorted. }
  assert (Forall2 (λ i p, presents i p.1 p.2) iters ps) as HF' by (unfold ps; by apply Forall2_fmap_r).
  assert (Forall (standing presents) iters) as Hst.
  { apply Forall_lookup. intros k i Hk. destruct (Forall2_lookup_l _ _ _ _ _ HF' Hk) as (p & _ & Hp). by exists p. }
  destruct (Init_ok iter_less (standing presents) iter_lt (iter_less_ok presents) (iter_lt_asym presents) (iter_le_trans presents) iters Hst) as (h & Hinit & Hperm & Hheap).
  destruct (Permutation_Forall2 (symmetry Hperm) HF') as (ps' & Hps & HFp). unfold NewUnionIterator. rewrite Hinit. cbn [mbind go_bind].
  destruct h as [|i h]; [by apply Permutation_nil_l in Hperm|].
  assert (holds_items presents (cons start <$> rems) (i :: h) ps') as Hh.
  { split_and!; [done|done|]. rewrite <-Hps. unfold ps. apply Forall_fmap, Forall_forall. intros rem Hr. apply start_intact; auto. }
  assert (size ps' = length rems + length (concat rems))%nat as Hsz by (rewrite <-Hps; apply size_start).
  assert (∀ F G x y, F ∈ cons start <$> rems → G ∈ cons start <$> rems → x ∈ F → x ∈ G → i_hash x ≠ zero → y ∈ F → below x y → y ∈ G) as Hsame'.
  { intros F G x y (r & -> & Hr)%list_elem_of_fmap (r' & -> & Hr')%list_elem_of_fmap Hx Hx' Hhash Hy Hb. apply elem_of_cons in Hy as [->|Hy]; [left|].
    apply elem_of_cons in Hx as [->|Hx]; [done|]. apply elem_of_cons in Hx' as [->|Hx']; [done|]. right. by apply (Hsame r r' x y). }
  destruct (union_visit_ok presents (cons start <$> rems) Hsame' f f i h ps' 0) as (x & L & _ & Hv & Hs & HL); [lia|lia|done|].
  assert (∀ z, z ∈ x :: L ↔ rems ≠ [] ∧ z = start ∨ ∃ rem, rem ∈ rems ∧ z ∈ rem) as HL'
    by (intros z; rewrite HL, <-(all_items_perm z _ _ Hps); apply elem_of_start).
  assert (rems ≠ []) as Hrne by (intros ->; by apply Forall2_nil_inv_r in HF).
  assert (∀ z rem, rem ∈ rems → z ∈ rem → item_lt start z) as Hgt by (intros z rem Hr Hz; by eapply sorted_gt; [apply Hsorted|]).
  assert (x = start) as ->.
  { assert (start ∈ x :: L) as [?|Hin]%elem_of_cons by (apply HL'; by left); [done|]. pose proof (sorted_gt _ _ _ Hs Hin) as Hlt.
    assert (x ∈ x :: L) as [[_ ?]|(rem & Hr & Hz)]%HL' by left; [done|]. by destruct (item_lt_asym _ _ Hlt (Hgt x rem Hr Hz)). }
  eexists _, L. split_and!; [done|done|by apply StronglySorted_cons in Hs as [_ ?]|]. intros z. split.
  - intros Hz. assert (z ∈ start :: L) as [[_ ->]|?]%HL' by (by right); [|done]. by destruct (item_lt_irrefl start (sorted_gt _ _ _ Hs Hz)).
  - intros (rem & Hr & Hz). assert (z ∈ start :: L) as [->|?]%elem_of_cons by (apply HL'; right; by exists rem); [|done].
    by destruct (item_lt_irrefl start (Hgt start rem Hr Hz)).
Qed.

(** ** An instance: iterators over lists *)
Module DemoMulti.
Record listIter := mkList { li_at : item; li_rest : list item }.
(** Before the first item there is nothing to skip. *)
Definition list_Next (it : listIter) (d : bool) : go (bool * listIter) :=
  match after (d || bool_decide (li_at it = start)) (li_at it) (li_rest it) with [] => Ret (false, mkList (li_at it) []) | y :: r => Ret (true, mkList y r) end.
#[global] Instance list_iterator : NodeIterator listIter := {
  ni_Next := list_Next;
  ni_Error _ := None;
  ni_Hash it := i_hash (li_at it);
  ni_Parent _ := zero;
  ni_Path it := i_path (li_at it);
  ni_NodeBlob it := (None, it);
  ni_Leaf it := i_leaf (li_at it);
  ni_LeafKey it := if i_leaf (li_at it) then Ret (i_path (li_at it)) else Halt (GoPanic "not at leaf");
  ni_LeafBlob it := if i_leaf (li_at it) then Ret (i_blob (li_at it)) else Halt (GoPanic "not at leaf");
  ni_LeafProof _ := Ret [];
  ni_AddResolver it _ := Ret it
}.
Definition list_presents (it : listIter) (x : item) (rem : list item) : Prop :=
  it = mkList x rem ∧ StronglySorted item_lt (x :: rem) ∧ Forall item_ok (x :: rem).
#[global] Instance list_Presents : Presents listIter list_presents.
Proof.
  split.
  - intros it x rem (-> & _ & [Hx _]%Forall_cons). unfold stands_on. cbn. split_and!; [done..| |done]. by intros ->.
  - by intros it x rem (_ & Hs & _).
  - intros it x rem d (-> & Hs & Hok) Hd. cbn. unfold list_Next. cbn.
    assert (d || bool_decide (x = start) = d) as -> by (destruct Hd as [->|Hx]; [done|]; rewrite bool_decide_eq_false_2; [by destruct d|by intros ->]).
    destruct (after d x rem) as [|y r] eqn:Ea; [by eexists|].
    eexists. split; [done|]. split; [done|]. assert (∀ z, z ∈ y :: r → z ∈ x :: rem) as Hsub by (intros z Hz; rewrite <-Ea in Hz; apply elem_of_after in Hz as [? _]; by right).
    split; [|rewrite Forall_forall in Hok |- *; auto]. rewrite <-Ea. apply StronglySorted_cons in Hs as [_ Hs]. unfold after. destruct d; [done|]. by apply sorted_filter.
Qed.

(** A root with a subtree that both have, and a leaf that only one has. *)
Definition h1 : bytes := replicate 32 1.
Definition h2 : bytes := replicate 32 2.
Definition sub_hash : bytes := replicate 32 9.
Definition subtree : list item := [([3], (1, (sub_hash, []))); ([3; 4; 16], (0, (zero, [7])))].
Definition xs : list item := ([], (1, (h1, []))) :: subtree.
Definition ys : list item := ([], (1, (h2, []))) :: subtree ++ [([5; 16], (0, (zero, [8])))].
Definition a : listIter := mkList start xs.
Definition b : listIter := mkList start ys.
End DemoMulti.

Example difference_demo :
  (it ← NewDifferenceIterator DemoMulti.a DemoMulti.b; visit (H := difference_iterator 9) 9 it) = Ret [([], false, DemoMulti.h2); ([5; 16], true, zero)].
Proof. vm_compute. reflexivity. Qed.
Example union_demo :
  (it ← NewUnionIterator [DemoMulti.b; DemoMulti.a]; union_visit 12 12 it) =
  Ret [([], false, DemoMulti.h1); ([], false, DemoMulti.h2); ([3], false, DemoMulti.sub_hash); ([3; 4; 16], true, zero); ([5; 16], true, zero)].
Proof. vm_compute. reflexivity. Qed.
(** The hypotheses of [union_all] at these iterators. *)
Example union_all_demo :
  ∃ it L, NewUnionIterator [DemoMulti.a] = Ret it ∧ union_visit 12 12 it = Ret (seen <$> L) ∧ StronglySorted item_lt L ∧
    ∀ z, z ∈ L ↔ ∃ rem, rem ∈ [DemoMulti.xs] ∧ z ∈ rem.
Proof.
  apply (union_all DemoMulti.list_presents); [|done|by vm_compute; lia|by intros r r' x y ->%list_elem_of_singleton ->%list_elem_of_singleton].
  constructor; [|constructor]. split; [done|]. split; [|repeat constructor; unfold item_ok; cbn; tauto].
  repeat constructor; by vm_compute.
Qed.
(** A first move that does not descend loses the other iterators: every path
    has the empty path of the start as a prefix. *)
Example first_skip_drains :
  (it ← NewUnionIterator [DemoMulti.a; DemoMulti.b]; '(more, it) ← union_Next 12 it false; Ret (more, length (ui_items it))) = Ret (true, 1%nat).
Proof. vm_compute. reflexivity. Qed.
