(* ===== verification/SecureTrie.v ===== *)
(** * Nodes by path, and tries with hashed keys (src/trie/trie.go:
    [TryGetNode]; src/trie/secure_trie.go)

    [TryGetNode] returns the encoded node at a path from the database.  A
    secure trie stores a value under the hash of its key and remembers the
    keys themselves: [secure_refines_map]. *)
From S2P Require Import Prelude Core Encoding Node Rebuild Trie MerkleProof NodeDB NodeStore Committer Iterator LeafProof.
Local Open Scope Z_scope.

(** ** [TryGetNode] *)
Inductive get_err := NonConsensus | NotFound | MissingNode (err : MissingNodeError).

Section nodes.
Context `{DB : NodeStore} `{RL : RLP}.
Variable hashData : bytes → bytes.
(** [Database.Node]; [None] is its error. *)
Variable Database_Node : bytes → option bytes.

(** [tryGetNode]: the item, the node with what was loaded, how many nodes
    were resolved, and the error. *)
Fixpoint tryGetNode (fuel : nat) (origNode : LNode) (path : bytes) (pos : nat) :
    go (option bytes * LNode * nat * option get_err) :=
  match fuel with
  | O => Halt (Blocked "fuel")
  | S fuel =>
      match origNode with
      | LNil => Ret (None, LNil, 0%nat, None)
      | _ =>
          if bool_decide (len path ≤ Z.of_nat pos) then
            match (match origNode with LHash h => Some h | _ => cached_hash origNode end) with
            | None => Ret (None, origNode, 0%nat, Some NonConsensus)
            | Some h =>
                let blob := Database_Node (BytesToHash h) in
                Ret (blob, origNode, 1%nat, match blob with Some _ => None | None => Some NotFound end)
            end
          else
            match origNode with
            | LShort k v fl =>
                if bool_decide (len path - Z.of_nat pos < len k) || negb (bool_decide (k = take (length k) (drop pos path)))
                then Ret (None, origNode, 0%nat, None)
                else
                  '(item, newnode, resolved, err) ← tryGetNode fuel v path (pos + length k);
                  Ret (item, if bool_decide (err = None ∧ (0 < resolved)%nat) then LShort k newnode fl else origNode, resolved, err)
            | LFull cs fl =>
                x ← go_index path (Z.of_nat pos);
                c ← go_index cs x;
                '(item, newnode, resolved, err) ← tryGetNode fuel c path (S pos);
                if bool_decide (err = None ∧ (0 < resolved)%nat)
                then cs ← go_store cs x newnode; Ret (item, LFull cs fl, resolved, err)
                else Ret (item, origNode, resolved, err)
            | LHash h =>
                match Trie.resolveHash h (take pos path) with
                | inl err => Ret (None, origNode, 1%nat, Some (MissingNode err))
                | inr child =>
                    '(item, newnode, resolved, err) ← tryGetNode fuel (decoded (BytesToHash h) child) path pos;
                    Ret (item, newnode, S resolved, err)
                end
            | _ => Ret (None, LNil, 0%nat, None)
            end
      end
  end.

(** [TryGetNode]: the item, how many nodes were resolved, the error, and the
    trie. *)
Definition TryGetNode (t : LTrie) (path : bytes) : go (option bytes * nat * option get_err * LTrie) :=
  let hex := compactToHex path in
  '(item, newroot, resolved, err) ← tryGetNode (calls hex) (lroot t) hex 0;
  match err with
  | Some err => Ret (None, resolved, Some err, t)
  | None => Ret (item, resolved, None, if bool_decide (0 < resolved)%nat then mkLTrie newroot (lunhashed t) else t)
  end.
End nodes.
#[global] Instance get_err_eq_dec : EqDecision get_err.
Proof. solve_decision. Defined.

Section nodes_ok.
Context `{DB : NodeStore} `{RL : RLP}.
Variable hashData : bytes → bytes.
Variable Database_Node : bytes → option bytes.
Hypothesis DB_addressed : addressed hashData.

(** What the hash of a node is does not depend on how much of it is loaded. *)
Lemma hash_loaded n e force : inner (strip n) → expands (strip n) e → shaped e → whole (strip n) →
  hash hashData (strip n) force = hash hashData e force.
Proof.
  intros Hi Hx Hs Hw. assert (proofHash hashData (strip n) = proofHash hashData e) as Hp.
  { apply (proofHash_expands hashData DB_addressed (mkState [] n [] 0 0)); [|done]. split; [done|done|by destruct n]. }
  assert (inner e) as Hie by (by eapply expands_inner).
  assert (∀ x, inner x → hash hashData x force = nodeToHash hashData (proofHash hashData x).1 force) as Hh by (by intros [] ?).
  by rewrite !Hh, Hp by done.
Qed.
Lemma hash_force n h force : inner n → hash hashData n false = HashNode h → hash hashData n force = HashNode h.
Proof.
  intros Hi Hh. destruct force; [|done]. assert (∀ f, hash hashData n f = nodeToHash hashData (proofHash hashData n).1 f) as Hn by (by destruct n).
  rewrite Hn in *. unfold nodeToHash in *. rewrite andb_false_r. rewrite andb_true_r in Hh. case_bool_decide; [|done].
  destruct n; by simplify_eq/=.
Qed.
Lemma coherent_embedded n : coherent hashData false (embedded n).
Proof.
  induction n as [|cs IH|k v IH|h|v] using Node_nested_ind; try by split.
  split; [done|]. apply coherent_children. by apply Forall_map.
Qed.
Lemma coherent_decoded h n force : inner n → hash hashData n false = HashNode h → coherent hashData force (decoded h n).
Proof.
  intros Hi Hh. pose proof (hash_force n h force Hi Hh) as Hf. pose proof (strip_decoded h n) as Hs.
  destruct n as [|cs|k v|h'|v]; try done; cbn [decoded] in *; (split; [intros h2 [= <-]; by rewrite Hs|]).
  - apply coherent_children. apply Forall_map, Forall_true. intros. apply coherent_embedded.
  - apply coherent_embedded.
Qed.

(** What is found at [rest] below the node [e] at [pre]. *)
Definition found_node (e : Node) (pre rest : bytes) (item : option bytes) (err : option get_err) : Prop :=
  match err with
  | None =>
      match item with
      | None => ∀ n, (pre ++ rest, n) ∉ walk pre e
      | Some b => ∃ n h, (pre ++ rest, n) ∈ walk pre e ∧
          hash hashData n (bool_decide (pre ++ rest = [])) = HashNode h ∧ Database_Node (BytesToHash h) = Some b
      end
  | Some NonConsensus => ∃ n, (pre ++ rest, n) ∈ walk pre e
  | Some NotFound => ∃ n h, (pre ++ rest, n) ∈ walk pre e ∧
      hash hashData n (bool_decide (pre ++ rest = [])) = HashNode h ∧ Database_Node (BytesToHash h) = None
  | Some (MissingNode _) => False
  end.

(** The same below a child. *)
Lemma found_child e ec pre s rest item err :
  (∀ n, (pre ++ s ++ rest, n) ∈ walk (pre ++ s) ec ↔ (pre ++ s ++ rest, n) ∈ walk pre e) →
  found_node ec (pre ++ s) rest item err → found_node e pre (s ++ rest) item err.
Proof.
  intros Hw. unfold found_node. rewrite <-(assoc_L (++)). destruct err as [[]|]; [| |done|destruct item]; setoid_rewrite Hw; done.
Qed.
Lemma walk_full_child es pre x ec rest n : es !! Z.to_nat x = Some ec → 0 ≤ x →
  (pre ++ [x] ++ rest, n) ∈ walk (pre ++ [x]) ec ↔ (pre ++ [x] ++ rest, n) ∈ walk pre (FullNode es).
Proof.
  intros Hec Hx. cbn [walk]. fold (walk_children pre 0 es). rewrite elem_of_cons, elem_of_walk_children. split.
  - intros Hw. right. exists (Z.to_nat x), ec. by rewrite Nat.add_0_l, Z2Nat.id.
  - intros [[= Hp _]|(j & c & Hj & Hw)].
    + exfalso. apply (f_equal length) in Hp. rewrite length_app in Hp. simpl in Hp. lia.
    + pose proof (walk_prefix _ _ _ Hw) as [s Hs]. cbn [fst] in Hs. rewrite <-app_assoc in Hs. apply app_inv_head in Hs. injection Hs as -> _.
      rewrite Nat.add_0_l, Nat2Z.id in *. simplify_eq. done.
Qed.
Lemma walk_short_child k v pre rest n : k ≠ [] →
  (pre ++ k ++ rest, n) ∈ walk (pre ++ k) v ↔ (pre ++ k ++ rest, n) ∈ walk pre (ShortNode k v).
Proof.
  intros Hk. cbn [walk]. rewrite elem_of_cons. split; [by right|]. intros [[= Hp _]|?]; [|done].
  exfalso. apply (f_equal length) in Hp. rewrite !length_app in Hp. destruct k; [done|simpl in Hp; lia].
Qed.

Definition path_elem (x : Z) : Prop := 0 ≤ x < 17.

(** The node is there, and where its hash is, if it has one. *)
Lemma here_ok fuel n e pre :
  expands (strip n) e → shaped e → whole (strip n) → coherent hashData (bool_decide (pre = [])) n → n ≠ LNil →
  ∃ item k err, tryGetNode Database_Node (S fuel) n (pre ++ []) (length pre) = Ret (item, n, k, err) ∧
    found_node e pre [] item err ∧ (is_lhash n = true → whole (strip n)).
Proof.
  intros Hx Hs Hw Hc Hn. cbn [tryGetNode]. rewrite app_nil_r. unfold found_node. rewrite app_nil_r.
  rewrite bool_decide_eq_true_2 by (unfold len; lia).
  assert ((pre, e) ∈ walk pre e) as Hin by (rewrite walk_rest by (by apply shaped_nil); by left).
  set (oh := match n with LHash h => Some h | _ => cached_hash n end).
  assert (∀ h, oh = Some h → hash hashData e (bool_decide (pre = [])) = HashNode h) as Hoh.
  { subst oh. intros h Hh. destruct n as [|cs fl|k v fl|h'|v]; try done.
    - rewrite <-(hash_loaded (LFull cs fl)); [by apply (proj1 Hc)|done..].
    - rewrite <-(hash_loaded (LShort k v fl)); [by apply (proj1 Hc)|done..].
    - injection Hh as ->. pose proof (hash_expands hashData DB_addressed e Hs (HashNode h) Hw Hx) as He. cbn [hash] in He.
      apply hash_force; [|done]. inversion Hx as [| | | |? n0 ? ? Hi Hex]; subst. by eapply expands_inner. }
  assert (∃ item k err, match oh with
      | Some h => Ret (Database_Node (BytesToHash h), n, 1%nat, match Database_Node (BytesToHash h) with Some _ => None | None => Some NotFound end)
      | None => Ret (None, n, 0%nat, Some NonConsensus) end = Ret (item, n, k, err) ∧
    match err with
    | None => match item with None => ∀ n, (pre, n) ∉ walk pre e
              | Some b => ∃ n h, (pre, n) ∈ walk pre e ∧ hash hashData n (bool_decide (pre = [])) = HashNode h ∧ Database_Node (BytesToHash h) = Some b end
    | Some NonConsensus => ∃ n, (pre, n) ∈ walk pre e
    | Some NotFound => ∃ n h, (pre, n) ∈ walk pre e ∧ hash hashData n (bool_decide (pre = [])) = HashNode h ∧ Database_Node (BytesToHash h) = None
    | Some (MissingNode _) => False end) as (item & k & err & H1 & H2).
  { destruct oh as [h|]; [|by exists None, 0%nat, (Some NonConsensus); split; [|exists e]].
    destruct (Database_Node (BytesToHash h)) as [b|] eqn:Eb; eexists _, _, _; (split; [done|]); exists e, h; auto. }
  exists item, k, err. split_and!; [|done|done]. rewrite <-H1. by destruct n.
Qed.

Definition gets (fuel : nat) (n : LNode) (e : Node) (pre rest : bytes) : Prop :=
  ∃ item n' k err, tryGetNode Database_Node fuel n (pre ++ rest) (length pre) = Ret (item, n', k, err) ∧
    (err = None → (0 < k)%nat ∨ inner (strip n) → expands (strip n') e) ∧ found_node e pre rest item err.

Lemma not_below e pre rest : shaped e → (∀ s n, (pre ++ s, n) ∈ walk pre e → s ≠ rest) → found_node e pre rest None None.
Proof. intros Hs Hno n Hin. by apply (Hno rest n). Qed.

Lemma get_below fuel n e pre x rest :
  (∀ n e pre rest, (2 * length rest + (if is_lhash n then 1 else 0) < fuel)%nat → expands (strip n) e → (e = NilNode ∨ shaped e) → whole (strip n) →
    coherent hashData (bool_decide (pre = [])) n → Forall path_elem rest → gets fuel n e pre rest) →
  (2 * length (x :: rest) + (if is_lhash n then 1 else 0) < S fuel)%nat → expands (strip n) e → shaped e → whole (strip n) →
  coherent hashData (bool_decide (pre = [])) n → Forall path_elem (x :: rest) → gets (S fuel) n e pre (x :: rest).
Proof.
  intros IH Hf Hx Hs Hw Hc Hr. unfold gets. cbn [tryGetNode].
  assert (bool_decide (len (pre ++ x :: rest) ≤ Z.of_nat (length pre)) = false) as Hlt
    by (apply bool_decide_eq_false; rewrite len_app, len_cons; pose proof (len_nonneg rest); unfold len in *; lia).
  assert (drop (length pre) (pre ++ x :: rest) = x :: rest) as Hdrop by apply drop_app_length.
  destruct n as [|cs fl|k v fl|h|v]; rewrite ?Hlt; clear Hlt.
  - inversion Hx; subst. by apply shaped_nil in Hs.
  - assert (loaded (mkState [] (LFull cs fl) [] 0 0) e) as Hl by (by split).
    destruct (loaded_full (mkState [] (LFull cs fl) [] 0 0) cs fl e ltac:(done) Hl) as (es & -> & HF & H17 & Hsh).
    apply Forall_cons in Hr as [Hx0 Hr]. unfold path_elem in Hx0.
    rewrite (go_index_ok _ _ x) by (lia || by rewrite Nat2Z.id, list_lookup_middle). cbn [mbind go_bind].
    destruct (lookup_lt_is_Some_2 es (Z.to_nat x)) as [ec Hec]; [lia|]. rewrite Forall2_fmap_l in HF.
    destruct (Forall2_lookup_r _ _ _ _ _ HF Hec) as (c & Hcc & Hexc). cbn in Hexc.
    rewrite (go_index_ok _ _ c) by (lia || done). cbn [mbind go_bind].
    destruct Hc as [_ Hcs%coherent_children]. cbn [strip whole] in Hw. apply whole_children in Hw. rewrite Forall_map in Hw.
    destruct (IH c ec (pre ++ [x]) rest) as (item & n' & k & err & Hg & Hex & Hfound); [simpl in Hf; destruct (is_lhash c); lia|done|by apply (Hsh (Z.to_nat x))| | |done|].
    { by apply (Forall_lookup_1 _ _ _ _ Hw Hcc). }
    { rewrite bool_decide_eq_false_2 by (by destruct pre). by apply (Forall_lookup_1 _ _ _ _ Hcs Hcc). }
    rewrite <-app_assoc, length_app, Nat.add_1_r in Hg. cbn [app] in Hg. rewrite Hg. cbn [mbind go_bind].
    assert (found_node (FullNode es) pre ([x] ++ rest) item err) as Hfn.
    { eapply found_child; [|exact Hfound]. intros n. apply walk_full_child; [done|lia]. }
    case_bool_decide as Hk.
    + rewrite go_store_ok by (unfold len; apply lookup_lt_Some in Hcc; lia). cbn [mbind go_bind]. eexists _, _, _, _. split_and!; [done| |done].
      intros He _. cbn [strip]. constructor. rewrite <-(list_insert_id es _ _ Hec), list_fmap_insert.
      apply Forall2_insert; [by rewrite Forall2_fmap_l|]. apply Hex; [done|]. left. tauto.
    + eexists _, _, _, _. by split_and!.
  - assert (loaded (mkState [] (LShort k v fl) [] 0 0) e) as Hl by (by split).
    destruct (loaded_short (mkState [] (LShort k v fl) [] 0 0) k v fl e ltac:(done) Hl) as (ev & -> & Hv & Hk & Hsv).
    assert (len (pre ++ x :: rest) - Z.of_nat (length pre) = len (x :: rest)) as -> by (rewrite len_app; unfold len; lia). rewrite Hdrop.
    destruct (prefix_cases k (x :: rest)) as [[r Hr0]|Hne].
    + rewrite Hr0 in *. rewrite bool_decide_eq_false_2 by (rewrite len_app; pose proof (len_nonneg r); lia).
      rewrite take_app_length, bool_decide_eq_true_2 by done. cbn [negb orb].
      destruct Hc as [_ Hcv]. apply Forall_app in Hr as [_ Hr].
      destruct (IH v ev (pre ++ k) r) as (item & n' & j & err & Hg & Hex & Hfound); [|done|by right|done| |done|].
      { rewrite length_app in Hf. destruct k; [done|]. simpl in Hf. destruct (is_lhash v); lia. }
      { rewrite bool_decide_eq_false_2; [done|]. by destruct pre, k. }
      rewrite <-app_assoc, length_app in Hg. rewrite Hg. cbn [mbind go_bind].
      eexists _, _, _, _. split_and!; [done| |].
      * intros He _. case_bool_decide as Hj; [|done]. cbn [strip]. constructor. apply Hex; [done|]. left. tauto.
      * eapply found_child; [|exact Hfound]. intros n. by apply walk_short_child.
    + rewrite (bool_decide_eq_false_2 (k = take _ _)) by done. cbn [negb]. rewrite orb_true_r. eexists _, _, _, _. split_and!; [done|done|].
      apply not_below; [done|]. intros s n Hin Heq. subst s. cbn [walk] in Hin. apply elem_of_cons in Hin as [[= Hp _]|Hin].
      * apply (f_equal length) in Hp. rewrite length_app in Hp. simpl in Hp. lia.
      * apply walk_prefix in Hin as [s Hin]. cbn [fst] in Hin. rewrite <-app_assoc in Hin. apply app_inv_head in Hin. apply Hne. rewrite Hin. apply take_app_length.
  - inversion Hx as [| | | |h' n0 e' Hst Hi Hex]; subst. unfold Trie.resolveHash. rewrite Hst. cbn [whole strip] in Hw.
    rewrite BytesToHash_id in * by done. destruct DB_addressed as [Hh1 Hh2]. specialize (Hh1 h n0 Hw Hst).
    destruct (IH (decoded h n0) e pre (x :: rest)) as (item & n' & j & err & Hg & Hex' & Hfound); [| |by right| | |done|].
    { simpl in Hf |- *. destruct n0; simpl; (done || lia). }
    { by rewrite strip_decoded. } { rewrite strip_decoded. by eapply Hh2. } { by apply coherent_decoded. }
    rewrite Hg. cbn [mbind go_bind]. eexists _, _, _, _. split_and!; [done| |done].
    intros He _. apply Hex'; [done|]. right. by rewrite strip_decoded.
  - inversion Hx; subst. eexists _, _, _, _. split_and!; [done|by intros _ [?|[]]; lia|]. apply not_below; [done|].
    intros s n Hin%list_elem_of_singleton. injection Hin as Hp _. intros ->. apply (f_equal length) in Hp. rewrite length_app in Hp. simpl in Hp. lia.
Qed.

Lemma tryGetNode_ok fuel : ∀ n e pre rest,
  (2 * length rest + (if is_lhash n then 1 else 0) < fuel)%nat → expands (strip n) e → (e = NilNode ∨ shaped e) → whole (strip n) →
  coherent hashData (bool_decide (pre = [])) n → Forall path_elem rest → gets fuel n e pre rest.
Proof.
  induction fuel as [|fuel IH]; intros n e pre rest Hf Hx Hs Hw Hc Hr; [lia|].
  destruct Hs as [->|Hs].
  { assert (n = LNil) as -> by (pose proof (proj2 (expands_nil _ _ Hx) eq_refl); by destruct n).
    eexists _, _, _, _. split_and!; [done|done|]. intros n' Hn'. by apply elem_of_nil in Hn'. }
  assert (n ≠ LNil) as Hn by (intros ->; inversion Hx; subst; by apply shaped_nil in Hs).
  destruct rest as [|x rest]; [|by apply get_below].
  destruct (here_ok fuel n e pre Hx Hs Hw Hc Hn) as (item & k & err & Hg & Hfd & _). by exists item, n, k, err.
Qed.

Lemma compactToHex_elems path : Forall in_u8 path → Forall path_elem (compactToHex path).
Proof.
  intros Hp. assert (Forall path_elem (keybytesToHex path)) as Hk.
  { apply Forall_app. split; [|by repeat constructor]. induction Hp as [|b path Hb _ IH]; [constructor|].
    unfold in_u8 in Hb. cbn [nibbles_of]. unfold path_elem. repeat constructor; [..|exact IH].
    all: try (apply Z.div_pos; lia); try (apply Z.div_lt_upper_bound; lia); pose proof (Z.mod_pos_bound b 16); lia. }
  assert (∀ n l, Forall path_elem l → Forall path_elem (drop n l)) as Hdrop by (intros; by apply Forall_drop).
  unfold compactToHex. destruct path as [|b path]; [done|].
  rewrite bool_decide_eq_false_2 by (rewrite len_cons; pose proof (len_nonneg path); lia). apply Hdrop.
  case_bool_decide; [by apply Forall_take|done].
Qed.

(** [TryGetNode] answers about the loaded trie, whatever part of it is in the
    database: no item only if no node is at the path, an item only if it is
    what the database has under the hash of the node at the path, and an
    error only if that node has no hash of its own or the database does not
    have it; no node on the way is missing, the call ends, and the trie holds
    the same nodes afterwards. *)
Theorem TryGetNode_spec t e path :
  expands (strip (lroot t)) e → e = NilNode ∨ canon e → whole (strip (lroot t)) → coherent hashData true (lroot t) → Forall in_u8 path →
  ∃ item k err t', TryGetNode Database_Node t path = Ret (item, k, err, t') ∧ (err ≠ None → item = None) ∧
    found_node e [] (compactToHex path) item err ∧ expands (strip (lroot t')) e.
Proof.
  intros Hx He Hw Hc Hp.
  destruct (tryGetNode_ok (calls (compactToHex path)) (lroot t) e [] (compactToHex path)) as (item & n' & k & err & Hg & Hex & Hf);
    [unfold calls; destruct (is_lhash _); lia|done|destruct He; [by left|by right; left]|done|done|by apply compactToHex_elems|].
  unfold TryGetNode. cbn [app length] in Hg. rewrite Hg. cbn [mbind go_bind]. destruct err as [err|].
  - eexists _, _, _, _. split_and!; [done..| |done]. unfold found_node in *. by destruct err.
  - eexists _, _, _, _. split_and!; [done..|]. case_bool_decide; [|done]. apply Hex; [done|]. by left.
Qed.
End nodes_ok.

(** ** The secure trie

    [self] is the address of the object, [secKeyCacheOwner] the address it
    keeps; the address in a copy is that of the original.  The buffer of
    [hashKey] is overwritten by the next call only after the trie has copied
    what it keeps of the key. *)
Record SecureTrie := mkSecureTrie {
  self : nat;
  strie : Trie;
  secKeyCache : gmap bytes bytes;
  secKeyCacheOwner : option nat
}.

Section secure.
Context `{DB : NodeStore}.
Variable hashData : bytes → bytes.

Definition hashKey (key : bytes) : bytes := hashData key.
Definition NewSecure (addr : nat) (emptyRoot root : bytes) : MissingNodeError + SecureTrie :=
  match New emptyRoot root with
  | inl err => inl err
  | inr t => inr (mkSecureTrie addr t ∅ None)
  end.
(** The object with the cache it owns. *)
Definition getSecKeyCache (t : SecureTrie) : SecureTrie :=
  if bool_decide (secKeyCacheOwner t = Some (self t)) then t
  else mkSecureTrie (self t) (strie t) ∅ (Some (self t)).
Definition set_trie (tr : Trie) (t : SecureTrie) : SecureTrie := mkSecureTrie (self t) tr (secKeyCache t) (secKeyCacheOwner t).
Definition set_cache (c : gmap bytes bytes) (t : SecureTrie) : SecureTrie := mkSecureTrie (self t) (strie t) c (secKeyCacheOwner t).

Definition STryGet (t : SecureTrie) (key : bytes) : go (SecureTrie * (MissingNodeError + option bytes)) :=
  '(tr, r) ← TryGet (strie t) (hashKey key); Ret (set_trie tr t, r).
Definition STryUpdate (t : SecureTrie) (key value : bytes) : go (SecureTrie * option MissingNodeError) :=
  let hk := hashKey key in
  '(tr, err) ← TryUpdate (strie t) hk value;
  let t := set_trie tr t in
  match err with
  | Some err => Ret (t, Some err)
  | None => let t := getSecKeyCache t in Ret (set_cache (<[hk := key]> (secKeyCache t)) t, None)
  end.
Definition STryDelete (t : SecureTrie) (key : bytes) : go (SecureTrie * option MissingNodeError) :=
  let hk := hashKey key in
  let t := getSecKeyCache t in
  let t := set_cache (base.delete hk (secKeyCache t)) t in
  '(tr, err) ← TryDelete (strie t) hk; Ret (set_trie tr t, err).
(** [TryUpdateAccount]; [encoded] is the account in RLP, [None] the error. *)
Definition STryUpdateAccount (t : SecureTrie) (key : bytes) (encoded : option bytes) : go (SecureTrie * bool) :=
  match encoded with
  | None => Ret (t, false)
  | Some data => '(t, err) ← STryUpdate t key data; Ret (t, bool_decide (err = None))
  end.

Definition SGet (t : SecureTrie) (key : bytes) : go (SecureTrie * option bytes) :=
  '(t, r) ← STryGet t key;
  match r with inr value => Ret (t, value) | inl _ => Halt (LogError "Unhandled trie error") end.
Definition SUpdate (t : SecureTrie) (key value : bytes) : go SecureTrie := unhandled (STryUpdate t key value).
Definition SDelete (t : SecureTrie) (key : bytes) : go SecureTrie := unhandled (STryDelete t key).

(** [GetKey]; [preimage] is the database's. *)
Definition GetKey (preimage : bytes → option bytes) (t : SecureTrie) (shaKey : bytes) : SecureTrie * option bytes :=
  let t := getSecKeyCache t in
  (t, match secKeyCache t !! shaKey with Some key => Some key | None => preimage (BytesToHash shaKey) end).

(** The preimages [Commit] writes before it commits the trie. *)
Definition SCommit_preimages `{MI : MapIter} `{KV : KeyValueStore} `{FC : FastCache} (t : SecureTrie) (db : Database) : SecureTrie * Database :=
  let t := getSecKeyCache t in
  if bool_decide (0 < size (secKeyCache t))%nat then
    (set_cache ∅ t,
     match preimages db with
     | Some _ => foldl (λ db kv, insertPreimage db (BytesToHash kv.1) kv.2) db (map_iter (secKeyCache t))
     | None => db
     end)
  else (t, db).
(** [Copy] is made at a new address and does not become the owner of the
    cache, whose map it shares with the original: it makes its own before it
    reads or writes one.  A run below goes on with the latest copy. *)
Definition SCopy (addr : nat) (t : SecureTrie) : SecureTrie := mkSecureTrie addr (strie t) (secKeyCache t) (secKeyCacheOwner t).

(** ** What it holds *)
Inductive secure_op := SecUpdate (key value : bytes) | SecDelete (key : bytes) | SecGet (key : bytes) | SecGetKey (shaKey : bytes) | SecCopy (addr : nat).
Definition sec_run (preimage : bytes → option bytes) (t : SecureTrie) (o : secure_op) : go SecureTrie :=
  match o with
  | SecUpdate k v => SUpdate t k v
  | SecDelete k => SDelete t k
  | SecGet k => fst <$> SGet t k
  | SecGetKey k => Ret (GetKey preimage t k).1
  | SecCopy a => Ret (SCopy a t)
  end.
Definition sec_map (m : gmap bytes bytes) (o : secure_op) : gmap bytes bytes :=
  match o with
  | SecUpdate k v => map_update m (hashKey k, v)
  | SecDelete k => base.delete (hashKey k) m
  | _ => m
  end.

Hypothesis hashData_u8 : ∀ b, Forall in_u8 (hashData b).

(** The cache has keys under their hashes. *)
Definition sec_ok (t : SecureTrie) (m : gmap bytes bytes) : Prop :=
  holds (strie t) m ∧ ∀ hk k, secKeyCache t !! hk = Some k → hashKey k = hk.

Lemma getSecKeyCache_ok t m : sec_ok t m → sec_ok (getSecKeyCache t) m.
Proof. intros [Ht Hc]. unfold getSecKeyCache. case_bool_decide; [done|]. split; [done|]. intros hk k. cbn. by rewrite lookup_empty. Qed.

Lemma sec_step preimage t m o : sec_ok t m → ∃ t', sec_run preimage t o = Ret t' ∧ sec_ok t' (sec_map m o).
Proof.
  intros Hok. pose proof Hok as [Ht Hc]. destruct o as [k v|k|k|k|a]; cbn [sec_run sec_map].
  - unfold SUpdate, STryUpdate. destruct (TryUpdate_ok (strie t) m (hashKey k) v Ht (hashData_u8 k)) as (t' & -> & Ht'). cbn [mbind go_bind unhandled].
    eexists. split; [done|]. assert (sec_ok (set_trie t' t) (map_update m (hashKey k, v))) as [Hg1 Hg2]%getSecKeyCache_ok by (by split).
    split; [done|]. intros hk k'. cbn [set_cache secKeyCache]. intros [[<- <-]|[_ Hk]]%lookup_insert_Some; [done|by apply Hg2].
  - unfold SDelete, STryDelete. destruct (getSecKeyCache_ok t m Hok) as [Hg1 Hg2].
    destruct (TryDelete_ok (strie (getSecKeyCache t)) m (hashKey k) Hg1 (hashData_u8 k)) as (t' & Hd & Ht'). cbn [set_cache strie]. rewrite Hd. cbn [mbind go_bind unhandled].
    eexists. split; [done|]. split; [done|]. intros hk k'. cbn [set_trie set_cache secKeyCache]. intros [_ Hk]%lookup_delete_Some. by apply Hg2.
  - unfold SGet, STryGet. destruct (TryGet_ok (strie t) m (hashKey k) Ht (hashData_u8 k)) as (t' & -> & Ht'). cbn. eexists. split; [done|]. by split.
  - eexists. split; [done|]. by apply getSecKeyCache_ok.
  - eexists. split; [done|]. by split.
Qed.

(** C31. A secure trie refines the map of hashed keys: every sequence of updates,
    deletions, reads and copies, each going on with the latest copy, succeeds,
    a read of a key afterwards returns
    what the map has for its hash, and whatever [GetKey] returns for a hash is
    a key with this hash, if the database has preimages under their hashes
    only. *)
Theorem secure_refines_map preimage t m ops key shaKey :
  sec_ok t m → (∀ h k, preimage h = Some k → hashKey k = h) → length shaKey = 32%nat →
  ∃ t', go_fold (sec_run preimage) t ops = Ret t' ∧ (snd <$> SGet t' key = Ret (foldl sec_map m ops !! hashKey key)) ∧
    ∀ k, (GetKey preimage t' shaKey).2 = Some k → hashKey k = shaKey.
Proof.
  intros Hok Hp Hlen. revert t m Hok. induction ops as [|o ops IH]; intros t m Hok; cbn [go_fold foldl].
  - exists t. split; [done|]. split.
    + unfold SGet, STryGet. destruct Hok as [Ht _]. by destruct (TryGet_ok (strie t) m (hashKey key) Ht (hashData_u8 key)) as (t' & -> & _).
    + intros k. cbn [GetKey snd]. destruct (secKeyCache (getSecKeyCache t) !! shaKey) as [k'|] eqn:E; [|by rewrite BytesToHash_id by done; apply Hp].
      intros [= <-]. by apply (proj2 (getSecKeyCache_ok t m Hok)).
  - destruct (sec_step preimage t m o Hok) as (t1 & -> & Ht1). cbn [mbind go_bind]. by apply IH.
Qed.
End secure.

(** ** Examples *)
Lemma TryGetNode_spec_witness :
  ∃ k err t', TryGetNode (DB := DemoIterator.demo_store) (λ _, Some [1; 2]) DemoIterator.t [24] = Ret (Some [1; 2], k, err, t') ∧
    expands (DB := DemoIterator.demo_store) (strip (lroot t')) DemoDB.loaded ∧
    ∃ n h, ([8], n) ∈ walk [] DemoDB.loaded ∧ MerkleProof.hash DemoCommit.hashData n false = HashNode h.
Proof.
  destruct (TryGetNode_spec (DB := DemoIterator.demo_store) DemoCommit.hashData (λ _, Some [1; 2]) DemoLeafProof.store_addressed DemoIterator.t DemoDB.loaded [24])
    as (item & k & err & t' & H1 & H2 & H3 & H4).
  - exact DemoIterator.root_expands.
  - right. exact DemoIterator.loaded_canon.
  - reflexivity.
  - by split.
  - repeat constructor; unfold in_u8; lia.
  - assert (item = Some [1; 2] ∧ err = None) as [-> ->].
    { assert (match TryGetNode (DB := DemoIterator.demo_store) (λ _, Some [1; 2]) DemoIterator.t [24] with
        | Ret (i, _, e, _) => i = Some [1; 2] ∧ e = None | _ => False end) as Hv by (by vm_compute). by rewrite H1 in Hv. }
    exists k, None, t'. split; [exact H1|]. split; [exact H4|]. destruct H3 as (n & h & Hw & Hh & _). exists n, h. split; [exact Hw|exact Hh].
Defined.

Definition demo_key_hash (b : bytes) : bytes := if decide (b = [1]) then replicate 32 1 else replicate 32 2.
Definition demo_preimage (h : bytes) : option bytes := if decide (h = replicate 32 1) then Some [1] else None.
Lemma secure_refines_map_witness :
  ∃ t', go_fold (sec_run (DB := no_store) demo_key_hash demo_preimage) (mkSecureTrie 0 (mkTrie NilNode 0) ∅ None)
      [SecUpdate [1] [9]; SecUpdate [5] [7]; SecCopy 1; SecGetKey (replicate 32 2); SecDelete [5]] = Ret t' ∧
    snd <$> SGet (DB := no_store) demo_key_hash t' [1] = Ret (Some [9]).
Proof.
  destruct (secure_refines_map (DB := no_store) demo_key_hash) with (preimage := demo_preimage) (t := mkSecureTrie 0 (mkTrie NilNode 0) ∅ None)
    (m := ∅ : gmap bytes bytes) (ops := [SecUpdate [1] [9]; SecUpdate [5] [7]; SecCopy 1; SecGetKey (replicate 32 2); SecDelete [5]])
    (key := [1]) (shaKey := replicate 32 1) as (t' & H1 & H2 & _).
  - intros b. unfold demo_key_hash. case_decide; apply Forall_replicate; unfold in_u8; lia.
  - split; [exists NilNode; split; [constructor|apply entries_nil]|done].
  - intros h k. unfold demo_preimage. case_decide as E; [|done]. subst h. intros [= <-]. by vm_compute.
  - done.
  - exists t'. split; [exact H1|]. rewrite H2. f_equal.
Defined.
