(* ===== verification/Sync.v ===== *)
(** * Downloading a trie (src/trie/sync.go)

    The scheduler asks for nodes by hash, keeps a node back until everything
    below it has arrived, and hands complete nodes to the database.  The
    requests are shared through pointers, so they live in a heap; a request
    counts the pending requests that name it as a parent.
    [sync_never_gaps]: at every moment of a download the database has, with a
    node, all nodes below it, and when nothing is pending the whole trie is
    there. *)
From S2P Require Import Prelude Core Encoding Node Rebuild Trie NodeDB NodeStore.
Local Open Scope Z_scope.

(** ** The priority queue (go-ethereum's common/prque) *)
Class PrQue := {
  prque : Type;
  prque_New : prque;
  prque_Push : prque → bytes → Z → prque;
  prque_Peek : prque → option (bytes * Z);
  prque_Pop : prque → prque;
  prque_Size : prque → nat
}.
Class PrQueLaws `{PrQue} : Prop := {
  prque_Peek_Size q : is_Some (prque_Peek q) ↔ prque_Size q ≠ 0%nat;
  prque_Pop_Size q : is_Some (prque_Peek q) → prque_Size q = S (prque_Size (prque_Pop q))
}.

(** The trie nodes and contract codes of a database ([rawdb]). *)
Record SyncStore := mkStore { db_nodes : gmap bytes bytes; db_codes : gmap bytes bytes }.

(** ** Requests *)

(** What a leaf callback does: it may add tries and codes below the node, and
    it may fail. *)
Inductive sync_call :=
  | CallSubTrie (root path parent : bytes) (callback : option nat)
  | CallCodeEntry (hash path parent : bytes).

Record request := mkRequest {
  rq_path : bytes;
  rq_hash : bytes;
  rq_data : option bytes;
  rq_code : bool;
  rq_parents : list nat;
  rq_deps : Z;
  rq_callback : option nat
}.
Definition set_data (d : option bytes) (r : request) : request :=
  mkRequest (rq_path r) (rq_hash r) d (rq_code r) (rq_parents r) (rq_deps r) (rq_callback r).
Definition set_parents (ps : list nat) (r : request) : request :=
  mkRequest (rq_path r) (rq_hash r) (rq_data r) (rq_code r) ps (rq_deps r) (rq_callback r).
Definition set_deps (n : Z) (r : request) : request :=
  mkRequest (rq_path r) (rq_hash r) (rq_data r) (rq_code r) (rq_parents r) n (rq_callback r).

Definition maxFetchesPerDepth : Z := 16384.

(** [newSyncPath] *)
Definition newSyncPath (path : bytes) : go (list bytes) :=
  if bool_decide (len path < 64) then c ← hexToCompact path; Ret [c]
  else k ← hexToKeybytes (take 64 path); c ← hexToCompact (drop 64 path); Ret [k; c].

(** The priority of a request: its depth, then its path in reverse order. *)
Fixpoint prio_bits (i : Z) (path : bytes) (prio : Z) : Z :=
  match path with
  | x :: path => if bool_decide (i < 14) then prio_bits (i + 1) path (Z.lor prio (i64 (Z.shiftl (u8 (15 - x)) (52 - i * 4)))) else prio
  | [] => prio
  end.
Definition priority (path : bytes) : Z := prio_bits 0 path (i64 (Z.shiftl (len path) 56)).
Definition prio_depth (prio : Z) : Z := Z.shiftr prio 56.

Section sync.
Context `{PQ : PrQue} `{RL : RLP} `{MI : MapIter}.
Variables emptyRoot emptyState : bytes.
(** The callbacks, by name: the paths, the hex path, the leaf and the hash of
    its node; whether it fails. *)
Variable callbacks : nat → list bytes → bytes → bytes → bytes → list sync_call * bool.

Record Sync := mkSync {
  memNodes : gmap bytes bytes;
  memCodes : gmap bytes bytes;
  heap : gmap nat request;
  nodeReqs : gmap bytes nat;
  codeReqs : gmap bytes nat;
  queue : prque;
  fetches : gmap Z Z
}.
Definition set_heap (h : gmap nat request) (s : Sync) : Sync :=
  mkSync (memNodes s) (memCodes s) h (nodeReqs s) (codeReqs s) (queue s) (fetches s).
Definition hasNode (s : Sync) (h : bytes) : bool := bool_decide (is_Some (memNodes s !! h)).
Definition hasCode (s : Sync) (h : bytes) : bool := bool_decide (is_Some (memCodes s !! h)).
Definition HasTrieNode (db : SyncStore) (h : bytes) : bool := bool_decide (is_Some (db_nodes db !! h)).
Definition HasCodeWithPrefix (db : SyncStore) (h : bytes) : bool := bool_decide (is_Some (db_codes db !! h)).

(** [schedule] *)
Definition schedule (req : request) (s : Sync) : Sync :=
  match (if rq_code req then codeReqs s else nodeReqs s) !! rq_hash req with
  | Some old => set_heap (alter (λ r, set_parents (rq_parents r ++ rq_parents req) r) old (heap s)) s
  | None =>
      let a := fresh (dom (heap s)) in
      mkSync (memNodes s) (memCodes s) (<[a := req]> (heap s))
        (if rq_code req then nodeReqs s else <[rq_hash req := a]> (nodeReqs s))
        (if rq_code req then <[rq_hash req := a]> (codeReqs s) else codeReqs s)
        (prque_Push (queue s) (rq_hash req) (priority (rq_path req))) (fetches s)
  end.

(** The link to a designated parent: its dependency is counted. *)
Definition link_parent (parent : bytes) (req : request) (s : Sync) : go (request * Sync) :=
  if bool_decide (parent ≠ zero) then
    match nodeReqs s !! parent with
    | None => Halt (GoPanic "ancestor not found")
    | Some a => Ret (set_parents (rq_parents req ++ [a]) req, set_heap (alter (λ r, set_deps (rq_deps r + 1) r) a (heap s)) s)
    end
  else Ret (req, s).

Definition AddSubTrie (db : SyncStore) (root path parent : bytes) (callback : option nat) (s : Sync) : go Sync :=
  if bool_decide (root = emptyRoot) || hasNode s root || HasTrieNode db root then Ret s
  else '(req, s) ← link_parent parent (mkRequest path root None false [] 0 callback) s; Ret (schedule req s).
Definition AddCodeEntry (db : SyncStore) (hash path parent : bytes) (s : Sync) : go Sync :=
  if bool_decide (hash = emptyState) || hasCode s hash || HasCodeWithPrefix db hash then Ret s
  else '(req, s) ← link_parent parent (mkRequest path hash None true [] 0 None) s; Ret (schedule req s).

Definition NewSync (root : bytes) (db : SyncStore) (callback : option nat) : go Sync :=
  AddSubTrie db root [] zero callback (mkSync ∅ ∅ ∅ ∅ ∅ prque_New ∅).

(** [Missing]: hashes and paths of nodes, hashes of codes.  Every iteration
    takes an item off the queue. *)
Fixpoint missing_loop (fuel : nat) (max : Z) (nodes : list bytes) (paths : list (list bytes)) (codes : list bytes) (s : Sync) :
    go (list bytes * list (list bytes) * list bytes * Sync) :=
  match prque_Peek (queue s) with
  | Some (hash, prio) =>
      if bool_decide (max = 0 ∨ len nodes + len codes < max) then
        let depth := prio_depth prio in
        if bool_decide (default 0 (fetches s !! depth) > maxFetchesPerDepth) then Ret (nodes, paths, codes, s)
        else
          match fuel with
          | O => Halt (Blocked "fuel")
          | S fuel =>
              let s := mkSync (memNodes s) (memCodes s) (heap s) (nodeReqs s) (codeReqs s) (prque_Pop (queue s))
                         (<[depth := default 0 (fetches s !! depth) + 1]> (fetches s)) in
              match nodeReqs s !! hash with
              | Some a =>
                  req ← deref (heap s !! a); p ← newSyncPath (rq_path req);
                  missing_loop fuel max (nodes ++ [hash]) (paths ++ [p]) codes s
              | None => missing_loop fuel max nodes paths (codes ++ [hash]) s
              end
          end
      else Ret (nodes, paths, codes, s)
  | None => Ret (nodes, paths, codes, s)
  end.
Definition Missing (max : Z) (s : Sync) := missing_loop (prque_Size (queue s)) max [] [] [] s.

(** [commit]; every call removes a pending request, which bounds [fuel]. *)
Definition uncount_fetch (req : request) (s : Sync) : gmap Z Z :=
  <[len (rq_path req) := default 0 (fetches s !! len (rq_path req)) - 1]> (fetches s).
Definition into_membatch (req : request) (s : Sync) : Sync :=
  let data := default [] (rq_data req) in
  if rq_code req
  then mkSync (memNodes s) (<[rq_hash req := data]> (memCodes s)) (heap s) (nodeReqs s) (base.delete (rq_hash req) (codeReqs s)) (queue s) (uncount_fetch req s)
  else mkSync (<[rq_hash req := data]> (memNodes s)) (memCodes s) (heap s) (base.delete (rq_hash req) (nodeReqs s)) (codeReqs s) (queue s) (uncount_fetch req s).
Fixpoint commit (fuel : nat) (a : nat) (s : Sync) : go Sync :=
  match fuel with
  | O => Halt (Blocked "fuel")
  | S fuel =>
      req ← deref (heap s !! a);
      go_fold (λ s parent,
        r ← deref (heap s !! parent);
        let s := set_heap (<[parent := set_deps (rq_deps r - 1) r]> (heap s)) s in
        if bool_decide (rq_deps r - 1 = 0) then commit fuel parent s else Ret s) (into_membatch req s) (rq_parents req)
  end.
Definition Pending (s : Sync) : Z := Z.of_nat (size (nodeReqs s)) + Z.of_nat (size (codeReqs s)).
Definition pendings (s : Sync) : nat := (size (nodeReqs s) + size (codeReqs s))%nat.

(** [children] *)
Definition child_list (path : bytes) (object : Node) : go (list (bytes * Node)) :=
  match object with
  | ShortNode key val => Ret [(path ++ (if hasTerm key then take (length key - 1) key else key), val)]
  | FullNode cs => Ret (imap (λ i c, (path ++ [u8 (Z.of_nat i)], c)) cs ≫= λ x, match x.2 with NilNode => [] | _ => [x] end)
  | _ => Halt (GoPanic "unknown Node")
  end.
(** The paths a callback gets. *)
Definition leaf_paths (path : bytes) : go (list bytes) :=
  if bool_decide (len path = 2 * HashLength) then k ← hexToKeybytes path; Ret [k]
  else if bool_decide (len path = 4 * HashLength)
  then k1 ← hexToKeybytes (take 64 path); k2 ← hexToKeybytes (drop 64 path); Ret [k1; k2]
  else Ret [].
Definition do_call (db : SyncStore) (s : Sync) (c : sync_call) : go Sync :=
  match c with
  | CallSubTrie root path parent cb => AddSubTrie db root path parent cb s
  | CallCodeEntry hash path parent => AddCodeEntry db hash path parent s
  end.
(** One child: the new requests, whether the callback failed. *)
Definition child_step (db : SyncStore) (a : nat) (req : request) (acc : Sync * list request * bool) (c : bytes * Node) :
    go (Sync * list request * bool) :=
  let '(s, requests, failed) := acc in
  if failed : bool then Ret acc
  else
    match c.2 with
    | ValueNode v =>
        match rq_callback req with
        | Some cb =>
            paths ← leaf_paths c.1;
            let '(calls, err) := callbacks cb paths c.1 v (rq_hash req) in
            s ← go_fold (do_call db) s calls;
            Ret (s, requests, err)
        | None => Ret acc
        end
    | HashNode h =>
        let hash := BytesToHash h in
        if hasNode s hash || HasTrieNode db hash then Ret acc
        else Ret (s, requests ++ [mkRequest c.1 hash None false [a] 0 (rq_callback req)], false)
    | _ => Ret acc
    end.
Definition children (db : SyncStore) (a : nat) (req : request) (object : Node) (s : Sync) : go (Sync * list request * bool) :=
  cs ← child_list (rq_path req) object;
  go_fold (child_step db a req) (s, [], false) cs.

(** [Process] *)
Inductive sync_err := ErrNotRequested | ErrAlreadyProcessed | ErrDecode | ErrCallback.
Definition set_req_data (a : nat) (d : bytes) (s : Sync) : Sync := set_heap (alter (set_data (Some d)) a (heap s)) s.
(** The request for a hash whose data has not come. *)
Definition waiting (s : Sync) (reqs : gmap bytes nat) (hash : bytes) : option (nat * request) :=
  a ← reqs !! hash; r ← heap s !! a; match rq_data r with None => Some (a, r) | Some _ => None end.
Definition fill_code (hash data : bytes) (s : Sync) : go (Sync * bool) :=
  match waiting s (codeReqs s) hash with
  | Some (a, _) => s ← commit (S (pendings s)) a (set_req_data a data s); Ret (s, true)
  | None => Ret (s, false)
  end.
(** The part after a node's data is accepted: its children are requested. *)
Definition fill_node (db : SyncStore) (a : nat) (object : Node) (s : Sync) : go (Sync * option sync_err) :=
  req ← deref (heap s !! a);
  '(s, requests, failed) ← children db a req object s;
  if failed : bool then Ret (s, Some ErrCallback)
  else
    req ← deref (heap s !! a);
    if bool_decide (requests = [] ∧ rq_deps req = 0) then s ← commit (S (pendings s)) a s; Ret (s, None)
    else
      let s := set_heap (<[a := set_deps (rq_deps req + len requests) req]> (heap s)) s in
      Ret (foldl (λ s child, schedule child s) s requests, None).
Definition Process (db : SyncStore) (hash data : bytes) (s : Sync) : go (Sync * option sync_err) :=
  if bool_decide (nodeReqs s !! hash = None ∧ codeReqs s !! hash = None) then Ret (s, Some ErrNotRequested)
  else
    '(s, filled) ← fill_code hash data s;
    match waiting s (nodeReqs s) hash with
    | Some (a, _) =>
        match decodeNode (length data) data with
        | None => Ret (s, Some ErrDecode)
        | Some object => fill_node db a object (set_req_data a data s)
        end
    | None => Ret (s, if filled : bool then None else Some ErrAlreadyProcessed)
    end.

(** [Commit]: what is written to the batch, in the order of the maps. *)
Definition Commit (s : Sync) : list (bytes * bytes) * list (bytes * bytes) * Sync :=
  (map_iter (memNodes s), map_iter (memCodes s), mkSync ∅ ∅ (heap s) (nodeReqs s) (codeReqs s) (queue s) (fetches s)).

(** ** The invariant *)

(** The nodes a node refers to by hash. *)
Definition ref_hash (c : Node) : list bytes := match c with HashNode h => [BytesToHash h] | _ => [] end.
Definition child_hashes (n : Node) : list bytes :=
  match n with ShortNode _ v => ref_hash v | FullNode cs => cs ≫= ref_hash | _ => [] end.
(** [h] is stored as [d], and [c] is below it. *)
Definition below (d c : bytes) : Prop := ∃ n, decodeNode (length d) d = Some n ∧ c ∈ child_hashes n.

Definition known (db : SyncStore) (s : Sync) (h : bytes) : Prop := is_Some (memNodes s !! h) ∨ is_Some (db_nodes db !! h).
Definition closed_db (db : SyncStore) : Prop := ∀ h d c, db_nodes db !! h = Some d → below d c → is_Some (db_nodes db !! c).

Definition occ (a : nat) (l : list nat) : Z := len (filter (λ x, x = a) l).
Definition parents_of (h : gmap nat request) (p : nat) : list nat := match h !! p with Some r => rq_parents r | None => [] end.
Definition pend (s : Sync) : list nat := (map_to_list (nodeReqs s)).*2 ++ (map_to_list (codeReqs s)).*2.
(** How often pending requests name [a] as a parent. *)
Definition refs (s : Sync) (a : nat) : Z := sumZ (λ p, occ a (parents_of (heap s) p)) (pend s).

(** A node whose data has come and that is kept back. *)
Definition kept (s : Sync) (a : nat) : Prop :=
  ∃ h r, nodeReqs s !! h = Some a ∧ heap s !! a = Some r ∧ is_Some (rq_data r).

(** [todo]: parents that are counted and not referred to (yet, or any more);
    [ex]: a node whose children have not all been requested. *)
Record inv (todo : list nat) (ex : option nat) (db : SyncStore) (s : Sync) : Prop := mkInv {
  v_node : ∀ h a, nodeReqs s !! h = Some a → ∃ r, heap s !! a = Some r ∧ rq_hash r = h ∧ rq_code r = false;
  v_code : ∀ h a, codeReqs s !! h = Some a → ∃ r, heap s !! a = Some r ∧ rq_hash r = h ∧ rq_code r = true;
  v_parents : ∀ p a, p ∈ pend s → a ∈ parents_of (heap s) p → kept s a;
  v_todo : ∀ a, a ∈ todo → kept s a;
  v_deps : ∀ h a r, nodeReqs s !! h = Some a → heap s !! a = Some r → rq_deps r = refs s a + occ a todo;
  v_children : ∀ h a r d c, nodeReqs s !! h = Some a → heap s !! a = Some r → rq_data r = Some d → ex ≠ Some a → below d c →
    known db s c ∨ ∃ q, nodeReqs s !! c = Some q ∧ a ∈ parents_of (heap s) q;
  v_closed : ∀ h d c, memNodes s !! h = Some d → below d c → known db s c;
  v_db : closed_db db
}.

Lemma occ_app a l k : occ a (l ++ k) = occ a l + occ a k.
Proof. unfold occ. by rewrite filter_app, len_app. Qed.
Lemma occ_cons a x l : occ a (x :: l) = (if decide (x = a) then 1 else 0) + occ a l.
Proof. unfold occ. rewrite filter_cons. case_decide; [by rewrite len_cons|done]. Qed.
Lemma occ_nonneg a l : 0 ≤ occ a l.
Proof. apply len_nonneg. Qed.
Lemma occ_pos a l : a ∈ l → 1 ≤ occ a l.
Proof.
  induction l as [|x l IH]; [by intros ?%elem_of_nil|]. rewrite occ_cons. pose proof (occ_nonneg a l).
  intros [->|Ha]%elem_of_cons; [by rewrite decide_True by done; lia|]. specialize (IH Ha). case_decide; lia.
Qed.

Lemma elem_of_pend s p : p ∈ pend s ↔ (∃ h, nodeReqs s !! h = Some p) ∨ ∃ h, codeReqs s !! h = Some p.
Proof.
  unfold pend. rewrite elem_of_app, !list_elem_of_fmap. f_equiv; split.
  - intros ([h a] & -> & Hin%elem_of_map_to_list). by exists h.
  - intros [h Hh]. exists (h, p). by rewrite elem_of_map_to_list.
  - intros ([h a] & -> & Hin%elem_of_map_to_list). by exists h.
  - intros [h Hh]. exists (h, p). by rewrite elem_of_map_to_list.
Qed.
Lemma sync_refs_nonneg s a : 0 ≤ refs s a.
Proof. apply sumZ_nonneg. intros. apply occ_nonneg. Qed.
Lemma refs_pos s a p : p ∈ pend s → a ∈ parents_of (heap s) p → 1 ≤ refs s a.
Proof.
  unfold refs. induction (pend s) as [|q l IH]; [by intros ?%elem_of_nil|]. cbn [sumZ foldr].
  assert (0 ≤ sumZ (λ p, occ a (parents_of (heap s) p)) l) as Hn by (apply sumZ_nonneg; intros; apply occ_nonneg).
  intros [->|Hp]%elem_of_cons Ha; [pose proof (occ_pos _ _ Ha); unfold sumZ in *; lia|].
  specialize (IH Hp Ha). pose proof (occ_nonneg a (parents_of (heap s) q)). unfold sumZ in *. lia.
Qed.
Lemma v_data todo ex db s a : inv todo ex db s → kept s a → ∃ h r d, nodeReqs s !! h = Some a ∧ heap s !! a = Some r ∧ rq_data r = Some d.
Proof. intros _ (h & r & H1 & H2 & [d H3]). by exists h, r, d. Qed.

(** Changing a request's data or count leaves the references alone. *)
Lemma parents_of_update h a r r' p : h !! a = Some r → rq_parents r' = rq_parents r → parents_of (<[a := r']> h) p = parents_of h p.
Proof.
  intros Ha Hp. unfold parents_of. destruct (decide (p = a)) as [->|Hne]; [by rewrite lookup_insert_eq, Ha|by rewrite lookup_insert_ne].
Qed.
Lemma refs_same s s' a : pend s' = pend s → (∀ p, parents_of (heap s') p = parents_of (heap s) p) → refs s' a = refs s a.
Proof. intros Hp Hh. unfold refs. rewrite Hp. apply sumZ_ext. intros x _. by rewrite Hh. Qed.

(** A count goes down, or up, together with [todo]. *)
Lemma inv_set_deps todo todo' ex db s a r n :
  inv todo ex db s → heap s !! a = Some r → (∀ b, b ∈ todo' → b ∈ todo ∨ kept s b) →
  (∀ b, occ b todo' = occ b todo + if decide (a = b) then n - rq_deps r else 0) →
  inv todo' ex db (set_heap (<[a := set_deps n r]> (heap s)) s).
Proof.
  intros [H1 H2 H3 H4 H5 H6 H7 H8] Ha Hin Hocc. set (s' := set_heap _ s).
  assert (∀ p, parents_of (heap s') p = parents_of (heap s) p) as Hpar by (intros p; by apply (parents_of_update _ a r)).
  assert (∀ b, refs s' b = refs s b) as Hrefs by (intros b; by apply refs_same).
  assert (∀ b r', heap s' !! b = Some r' → ∃ r0, heap s !! b = Some r0 ∧ rq_data r' = rq_data r0 ∧
    rq_deps r' = rq_deps r0 + if decide (a = b) then n - rq_deps r else 0) as Hb.
  { intros b r'. cbn [s' heap set_heap]. intros [[<- <-]|[Hne Hb]]%lookup_insert_Some; [exists r; rewrite decide_True by done; cbn; split_and!; [done..|lia]|exists r'].
    rewrite decide_False by done. split_and!; [done..|lia]. }
  assert (∀ b, kept s b → kept s' b) as Hk.
  { intros b (h & rb & Hh & Hrb & Hd). destruct (decide (b = a)) as [->|Hne].
    - exists h, (set_deps n r). simplify_eq. split_and!; [done|by apply lookup_insert_eq|done].
    - exists h, rb. split_and!; [done| |done]. cbn. by rewrite lookup_insert_ne. }
  split; try done.
  - intros h b (rb & Hrb & Hh & Hc)%H1. destruct (decide (b = a)) as [->|Hne].
    + exists (set_deps n r). simplify_eq. cbn. by rewrite lookup_insert_eq.
    + exists rb. cbn. by rewrite lookup_insert_ne.
  - intros h b (rb & Hrb & Hh & Hc)%H2. destruct (decide (b = a)) as [->|Hne].
    + exists (set_deps n r). simplify_eq. cbn. by rewrite lookup_insert_eq.
    + exists rb. cbn. by rewrite lookup_insert_ne.
  - intros p b Hp. rewrite Hpar. intros Hb'. by apply Hk, (H3 p).
  - intros b Hb'. apply Hk. destruct (Hin b Hb') as [?|?]; [by apply H4|done].
  - intros h b rb Hh (r0 & Hr0 & _ & ->)%Hb. rewrite (H5 h b r0 Hh Hr0), Hrefs, Hocc. lia.
  - intros h b rb d c Hh (r0 & Hr0 & -> & _)%Hb Hd Hex Hbel. destruct (H6 h b r0 d c Hh Hr0 Hd Hex Hbel) as [?|(q & Hq & Hin')]; [by left|].
    right. exists q. by rewrite Hpar.
Qed.

(** ** A request is done *)
Definition wanted (db : SyncStore) (s : Sync) (c : bytes) : Prop := known db s c ∨ is_Some (nodeReqs s !! c).

Lemma pend_delete (m : gmap bytes nat) h a : m !! h = Some a → (map_to_list m).*2 ≡ₚ a :: (map_to_list (base.delete h m)).*2.
Proof. intros Hm. by rewrite <-(map_to_list_delete m h a Hm). Qed.

(** The pending request [a], which nothing below holds back. *)
Record done_with (ex : option nat) (s : Sync) (a : nat) (r : request) : Prop := mkDone {
  dn_heap : heap s !! a = Some r;
  dn_pend : (if rq_code r then codeReqs s else nodeReqs s) !! rq_hash r = Some a;
  dn_ready : rq_code r = false → is_Some (rq_data r) ∧ rq_deps r = 0 ∧ ex ≠ Some a
}.

(** Nobody names it as a parent any more. *)
Lemma done_unreferred todo ex db s a r : inv todo ex db s → done_with ex s a r →
  (∀ p, p ∈ pend s → a ∉ parents_of (heap s) p) ∧ a ∉ todo.
Proof.
  intros Hi [Hh Hp Hr].
  assert (rq_code r = true → ¬ kept s a) as Hcode.
  { intros Hc (h & r' & Hn & Hr' & _). apply (v_node _ _ _ _ Hi) in Hn as (r2 & Hr2 & _ & Hc2). congruence. }
  destruct (rq_code r) eqn:Ec.
  - split; [intros p Hpp Hin|intros Hin]; apply (Hcode eq_refl); [by eapply v_parents|by eapply v_todo].
  - destruct (Hr eq_refl) as (_ & Hd & _). pose proof (v_deps _ _ _ _ Hi _ _ _ Hp Hh) as Hdeps.
    pose proof (sync_refs_nonneg s a). pose proof (occ_nonneg a todo). split.
    + intros p Hpp Hin. pose proof (refs_pos s a p Hpp Hin). lia.
    + intros Hin. pose proof (occ_pos a todo Hin). lia.
Qed.

Lemma into_membatch_frame r s : heap (into_membatch r s) = heap s ∧
  (∀ h, memNodes (into_membatch r s) !! h = if decide (rq_code r = false ∧ h = rq_hash r) then Some (default [] (rq_data r)) else memNodes s !! h) ∧
  (∀ h, nodeReqs (into_membatch r s) !! h = if decide (rq_code r = false ∧ h = rq_hash r) then None else nodeReqs s !! h) ∧
  (∀ h, codeReqs (into_membatch r s) !! h = if decide (rq_code r = true ∧ h = rq_hash r) then None else codeReqs s !! h).
Proof.
  unfold into_membatch. destruct (rq_code r); cbn [heap memNodes nodeReqs codeReqs]; split_and!; try done; intros h; case_decide as E; try tauto.
  - destruct E as [_ ->]. apply lookup_delete_eq.
  - rewrite lookup_delete_ne; [done|]. intros <-. tauto.
  - destruct E as [_ ->]. apply lookup_insert_eq.
  - rewrite lookup_insert_ne; [done|]. intros <-. tauto.
  - destruct E as [_ ->]. apply lookup_delete_eq.
  - rewrite lookup_delete_ne; [done|]. intros <-. tauto.
Qed.
Lemma into_membatch_pend ex s a r : done_with ex s a r → pend s ≡ₚ a :: pend (into_membatch r s) ∧ pendings s = S (pendings (into_membatch r s)).
Proof.
  intros [_ Hp _]. unfold pend, pendings, into_membatch. destruct (rq_code r); cbn [nodeReqs codeReqs].
  - rewrite (pend_delete _ _ _ Hp). split; [by rewrite Permutation_middle|]. rewrite map_size_delete_Some by eauto.
    assert (size (codeReqs s) ≠ 0%nat) by (intros E%map_size_empty_inv; by rewrite E, lookup_empty in Hp). lia.
  - rewrite (pend_delete _ _ _ Hp). split; [done|]. rewrite map_size_delete_Some by eauto.
    assert (size (nodeReqs s) ≠ 0%nat) by (intros E%map_size_empty_inv; by rewrite E, lookup_empty in Hp). lia.
Qed.

(** Case analysis on a decision of the goal only. *)
#[local] Ltac case_goal E := match goal with |- context [decide ?P] => destruct (decide P) as [E|E] end.

Lemma inv_into_membatch todo ex db s a r :
  inv todo ex db s → done_with ex s a r →
  let s' := into_membatch r s in
  inv (rq_parents r ++ todo) ex db s' ∧ (∀ c, known db s c → known db s' c) ∧ (∀ c, wanted db s c → wanted db s' c).
Proof.
  intros Hi Hdn s'. destruct (done_unreferred _ _ _ _ _ _ Hi Hdn) as [Hnr Hnt]. destruct (into_membatch_pend _ _ _ _ Hdn) as [Hpend _].
  destruct (into_membatch_frame r s) as (Hheap & Hmem & Hnode & Hcode). fold s' in Hpend, Hheap, Hmem, Hnode, Hcode.
  destruct Hdn as [Hh Hp Hr].
  assert (∀ c, known db s c → known db s' c) as Hknown by (intros c [[d Hd]|?]; [left; rewrite Hmem; case_goal E; [by eexists|by exists d]|by right]).
  assert (∀ h b, nodeReqs s !! h = Some b → b ≠ a → nodeReqs s' !! h = Some b) as Hother.
  { intros h b Hb Hne. rewrite Hnode. case_goal E; [|done]. destruct E as [Ec ->]. rewrite Ec in Hp. congruence. }
  assert (∀ b, kept s b → b ≠ a → kept s' b) as Hkept by (intros b (h & rb & Hb & Hrb & Hd) Hne; exists h, rb; rewrite Hheap; auto).
  assert (∀ h b, nodeReqs s' !! h = Some b → nodeReqs s !! h = Some b) as Hsub by (intros h b; rewrite Hnode; by case_goal E).
  assert (∀ p, p ∈ pend s' → p ∈ pend s) as Hpsub by (intros p Hpp; rewrite Hpend; by right).
  assert (∀ b, b ∈ rq_parents r → kept s b ∧ b ≠ a) as Hpar.
  { intros b Hb. assert (a ∈ pend s) as Hap by (rewrite Hpend; by left). assert (b ∈ parents_of (heap s) a) as Hb' by (unfold parents_of; by rewrite Hh).
    split; [by eapply v_parents|]. intros ->. by apply (Hnr a). }
  assert (∀ b, refs s b = refs s' b + occ b (rq_parents r)) as Hrefs.
  { intros b. unfold refs. rewrite Hpend, Hheap. cbn [sumZ foldr]. unfold parents_of at 1. rewrite Hh. unfold sumZ. lia. }
  split; [|split; [done|]]; cycle 1.
  { intros c [Hc|[b Hb]]; [left; auto|]. destruct (decide (b = a)) as [->|Hne]; [left|right; eauto].
    pose proof (v_node _ _ _ _ Hi _ _ Hb) as (r' & Hr' & Hhash & Hcd). simplify_eq. left. rewrite Hmem, decide_True by done. by eexists. }
  split.
  - intros h b Hb%Hsub. rewrite Hheap. by apply (v_node _ _ _ _ Hi).
  - intros h b. rewrite Hcode, Hheap. case_goal E; [done|]. apply (v_code _ _ _ _ Hi).
  - intros p b Hpp. rewrite Hheap. intros Hb. apply Hkept; [by eapply v_parents; eauto|]. intros ->. by apply (Hnr p); auto.
  - intros b [[Hb1 Hb2]%Hpar|Hb]%elem_of_app; [by apply Hkept|]. apply Hkept; [by eapply v_todo|]. by intros ->.
  - intros h b rb Hb%Hsub. rewrite Hheap. intros Hrb. rewrite (v_deps _ _ _ _ Hi _ _ _ Hb Hrb), occ_app, Hrefs. lia.
  - intros h b rb d c Hb%Hsub. rewrite Hheap. intros Hrb Hd Hex Hbel.
    destruct (v_children _ _ _ _ Hi _ _ _ _ _ Hb Hrb Hd Hex Hbel) as [?|(q & Hq & Hin)]; [left; auto|].
    destruct (decide (q = a)) as [->|Hne]; [|right; exists q; auto]. left.
    pose proof (v_node _ _ _ _ Hi _ _ Hq) as (r' & Hr' & Hhash & Hcd). simplify_eq. left. rewrite Hmem, decide_True by done. by eexists.
  - intros h d c. rewrite Hmem. case_goal E; [|intros Hd Hbel; eapply Hknown, v_closed; eauto].
    destruct E as [Ec ->]. intros [= <-] Hbel. rewrite Ec in Hp. destruct (Hr Ec) as ([d Hd] & _ & Hex). rewrite Hd in Hbel. cbn in Hbel.
    destruct (v_children _ _ _ _ Hi _ _ _ _ _ Hp Hh Hd Hex Hbel) as [?|(q & Hq & Hin)]; [auto|].
    exfalso. apply (Hnr q); [|done]. apply elem_of_pend. left. eauto.
  - apply Hi.
Qed.

(** ** [commit] *)
Record committed (db : SyncStore) (s s' : Sync) : Prop := mkCommitted {
  cm_known : ∀ c, known db s c → known db s' c;
  cm_wanted : ∀ c, wanted db s c → wanted db s' c;
  cm_pendings : (pendings s' ≤ pendings s)%nat
}.
#[local] Instance committed_preorder db : PreOrder (committed db).
Proof. split; [by split|]. intros x y z [? ? ?] [? ? ?]. split; auto. lia. Qed.

Lemma kept_done ex s a r : heap s !! a = Some r → (∃ h, nodeReqs s !! h = Some a ∧ rq_hash r = h ∧ rq_code r = false) → is_Some (rq_data r) →
  rq_deps r = 0 → ex ≠ Some a → done_with ex s a r.
Proof. intros Hr (h & Hh & <- & Hc) Hd Hz Hex. split; [done|by rewrite Hc|done]. Qed.

Lemma commit_request_ok fuel : ∀ todo db s a r, inv todo None db s → done_with None s a r → (pendings s < fuel)%nat →
  ∃ s', commit fuel a s = Ret s' ∧ inv todo None db s' ∧ committed db s s'.
Proof.
  induction fuel as [|fuel IH]; intros todo db s a r Hi Hdn Hf; [lia|]. cbn [commit]. rewrite (dn_heap _ _ _ _ Hdn). cbn [deref mbind go_bind].
  destruct (inv_into_membatch _ _ _ _ _ _ Hi Hdn) as (Hi' & Hk & Hw). destruct (into_membatch_pend _ _ _ _ Hdn) as [_ Hps].
  assert (committed db s (into_membatch r s)) as Hc by (split; [done..|lia]).
  assert (pendings (into_membatch r s) < fuel)%nat as Hf' by lia. clear Hk Hw Hdn Hi Hps Hf.
  revert Hc Hi' Hf'. generalize (into_membatch r s). generalize (rq_parents r). intros ps. clear a r.
  induction ps as [|p ps IHp]; intros s1 Hc Hi Hf; [by eexists|]. cbn [go_fold].
  destruct (v_todo _ _ _ _ Hi p) as (h & r & Hh & Hr & Hd); [by left|]. rewrite Hr. cbn [deref mbind go_bind].
  set (s2 := set_heap (<[p := set_deps (rq_deps r - 1) r]> (heap s1)) s1).
  assert (inv (ps ++ todo) None db s2) as Hi2.
  { apply (inv_set_deps ((p :: ps) ++ todo) (ps ++ todo)); [done|done|by intros b Hb; left; right|].
    intros b. cbn [app]. rewrite occ_cons. case_decide; lia. }
  assert (committed db s1 s2) as Hc2 by done.
  destruct (v_node _ _ _ _ Hi _ _ Hh) as (r' & Hr' & Hrh & Hrc). assert (r' = r) as -> by congruence.
  case_bool_decide as Hz.
  - destruct (IH (ps ++ todo) db s2 p (set_deps (rq_deps r - 1) r)) as (s3 & -> & Hi3 & Hc3); [done| |by destruct Hc2; lia|].
    { apply kept_done; [apply lookup_insert_eq|by eexists|done|done|done]. }
    apply IHp; [by etrans; [exact Hc|etrans]|done|]. destruct Hc2, Hc3. lia.
  - apply IHp; [by etrans|done|]. destruct Hc2; lia.
Qed.

(** ** [schedule] *)

(** What scheduling and linking leave as it is. *)
Record extends (s s' : Sync) : Prop := mkExtends {
  ex_mem : memNodes s' = memNodes s;
  ex_node : ∀ h q, nodeReqs s !! h = Some q → nodeReqs s' !! h = Some q;
  ex_heap : ∀ a r, heap s !! a = Some r → ∃ r', heap s' !! a = Some r' ∧ rq_data r' = rq_data r ∧ rq_hash r' = rq_hash r ∧
    rq_code r' = rq_code r ∧ rq_path r' = rq_path r ∧ rq_callback r' = rq_callback r ∧ ∀ b, b ∈ rq_parents r → b ∈ rq_parents r'
}.
#[local] Instance extends_preorder : PreOrder extends.
Proof.
  split; [split; naive_solver|]. intros x y z [? ? H1] [? ? H2]. split; [congruence|auto|].
  intros a r (r1 & Hr1 & ? & ? & ? & ? & ? & ?)%H1. destruct (H2 a r1 Hr1) as (r2 & ? & ? & ? & ? & ? & ? & ?). exists r2.
  split_and!; [done|congruence..|auto].
Qed.
Lemma extends_known db s s' c : extends s s' → known db s c ↔ known db s' c.
Proof. intros [Hm _ _]. unfold known. by rewrite Hm. Qed.
Lemma extends_kept s s' a : extends s s' → kept s a → kept s' a.
Proof. intros [_ Hn Hh] (h & r & H1 & (r' & H2 & H3 & _)%Hh & H4). exists h, r'. rewrite H3. auto. Qed.
Lemma extends_child s s' a q c : extends s s' → nodeReqs s !! c = Some q → a ∈ parents_of (heap s) q →
  nodeReqs s' !! c = Some q ∧ a ∈ parents_of (heap s') q.
Proof.
  intros [_ Hn Hh] Hc. unfold parents_of. destruct (heap s !! q) as [r|] eqn:E; [|by intros ?%elem_of_nil].
  destruct (Hh q r E) as (r' & -> & _ & _ & _ & _ & _ & Hp). auto.
Qed.
Lemma extends_wanted db s s' c : extends s s' → wanted db s c → wanted db s' c.
Proof. intros He [Hk|[q Hq]]; [left; by apply (extends_known db s s' c He)|right]. exists q. by apply He. Qed.

Lemma pend_NoDup todo ex db s : inv todo ex db s → NoDup (pend s).
Proof.
  intros Hi. unfold pend. apply NoDup_app. split_and!.
  - apply NoDup_fmap_2_strong; [|apply NoDup_map_to_list]. intros [h1 a1] [h2 a2] H1%elem_of_map_to_list H2%elem_of_map_to_list. cbn. intros ->.
    destruct (v_node _ _ _ _ Hi _ _ H1) as (r1 & ? & <- & _), (v_node _ _ _ _ Hi _ _ H2) as (r2 & ? & <- & _). congruence.
  - intros a. rewrite !list_elem_of_fmap. intros ([h1 a1] & -> & H1%elem_of_map_to_list) ([h2 a2] & E & H2%elem_of_map_to_list). cbn in E. subst a2.
    destruct (v_node _ _ _ _ Hi _ _ H1) as (r1 & ? & _ & ?), (v_code _ _ _ _ Hi _ _ H2) as (r2 & ? & _ & ?). congruence.
  - apply NoDup_fmap_2_strong; [|apply NoDup_map_to_list]. intros [h1 a1] [h2 a2] H1%elem_of_map_to_list H2%elem_of_map_to_list. cbn. intros ->.
    destruct (v_code _ _ _ _ Hi _ _ H1) as (r1 & ? & <- & _), (v_code _ _ _ _ Hi _ _ H2) as (r2 & ? & <- & _). congruence.
Qed.

Lemma pend_heap todo ex db s p : inv todo ex db s → p ∈ pend s → is_Some (heap s !! p).
Proof. intros Hi [[h Hh]|[h Hh]]%elem_of_pend; [apply (v_node _ _ _ _ Hi) in Hh as (r & ? & _)|apply (v_code _ _ _ _ Hi) in Hh as (r & ? & _)]; by exists r. Qed.

(** A pending request gets more parents. *)
Lemma inv_add_parents ps todo ex db s old ro :
  inv (ps ++ todo) ex db s → old ∈ pend s → heap s !! old = Some ro →
  let s' := set_heap (<[old := set_parents (rq_parents ro ++ ps) ro]> (heap s)) s in
  inv todo ex db s' ∧ extends s s'.
Proof.
  intros Hi Hold Hro s'. pose proof (pend_NoDup _ _ _ _ Hi) as Hnd.
  assert (∀ p, parents_of (heap s') p = parents_of (heap s) p ++ if decide (p = old) then ps else []) as Hpar.
  { intros p. unfold parents_of. cbn. destruct (decide (p = old)) as [->|Hne]; [by rewrite lookup_insert_eq, Hro|].
    rewrite lookup_insert_ne by done. by rewrite app_nil_r. }
  assert (∀ b, refs s' b = refs s b + occ b ps) as Hrefs.
  { intros b. unfold refs. rewrite (sumZ_ext _ (λ p, occ b (parents_of (heap s) p) + if decide (p = old) then occ b ps else 0)).
    - rewrite sumZ_add. f_equal. by apply sumZ_single.
    - intros p _. rewrite Hpar, occ_app. by case_decide. }
  assert (extends s s') as He.
  { split; [done|done|]. intros a r Hr. cbn. destruct (decide (a = old)) as [->|Hne].
    - rewrite lookup_insert_eq. simplify_eq. eexists. split; [done|]. cbn. split_and!; [done..|]. intros b Hb. apply elem_of_app. by left.
    - rewrite lookup_insert_ne by done. by exists r. }
  split; [|done]. assert (∀ b, kept s b → kept s' b) as Hk by (intros b; by apply extends_kept).
  assert (∀ b rb, heap s' !! b = Some rb → ∃ r0, heap s !! b = Some r0 ∧ rq_data rb = rq_data r0 ∧ rq_deps rb = rq_deps r0) as Hb.
  { intros b rb. cbn. intros [[<- <-]|[_ Hb]]%lookup_insert_Some; [by exists ro|by exists rb]. }
  split; try apply Hi.
  - intros h a (r & Hr & <- & <-)%(v_node _ _ _ _ Hi). destruct (ex_heap _ _ He a r Hr) as (r' & ? & _ & ? & ? & _). by exists r'.
  - intros h a (r & Hr & <- & <-)%(v_code _ _ _ _ Hi). destruct (ex_heap _ _ He a r Hr) as (r' & ? & _ & ? & ? & _). by exists r'.
  - intros p b Hp. rewrite Hpar. intros [Hin|Hin]%elem_of_app; apply Hk; [by eapply v_parents|]. case_decide; [|by apply elem_of_nil in Hin].
    eapply v_todo; [done|]. apply elem_of_app. by left.
  - intros b Hin. apply Hk. eapply v_todo; [done|]. apply elem_of_app. by right.
  - intros h b rb Hh (r0 & Hr0 & _ & ->)%Hb. rewrite (v_deps _ _ _ _ Hi _ _ _ Hh Hr0), Hrefs, occ_app. lia.
  - intros h b rb d c Hh (r0 & Hr0 & -> & _)%Hb Hd Hex Hbel. destruct (v_children _ _ _ _ Hi _ _ _ _ _ Hh Hr0 Hd Hex Hbel) as [?|(q & Hq & Hin)]; [by left|].
    right. exists q. split; [done|]. rewrite Hpar. apply elem_of_app. by left.
Qed.

(** A new request enters the tables. *)
Definition enter (req : request) (s : Sync) : Sync :=
  let a := fresh (dom (heap s)) in
  mkSync (memNodes s) (memCodes s) (<[a := req]> (heap s))
    (if rq_code req then nodeReqs s else <[rq_hash req := a]> (nodeReqs s))
    (if rq_code req then <[rq_hash req := a]> (codeReqs s) else codeReqs s)
    (prque_Push (queue s) (rq_hash req) (priority (rq_path req))) (fetches s).
Lemma inv_enter todo ex db s req :
  inv (rq_parents req ++ todo) ex db s → rq_data req = None → rq_deps req = 0 →
  (if rq_code req then codeReqs s else nodeReqs s) !! rq_hash req = None →
  inv todo ex db (enter req s) ∧ extends s (enter req s).
Proof.
  intros Hi Hdata Hdeps Hnew. unfold enter. set (a := fresh (dom (heap s))). set (s' := mkSync _ _ _ _ _ _ _).
  assert (heap s !! a = None) as Ha by apply not_elem_of_dom, is_fresh.
  assert (∀ b r, heap s !! b = Some r → b ≠ a) as Hne by congruence.
  assert (∀ p, p ∈ pend s → p ≠ a) as Hpne by (intros p Hp; destruct (pend_heap _ _ _ _ _ Hi Hp) as [r Hr]; eauto).
  assert (∀ p, p ≠ a → parents_of (heap s') p = parents_of (heap s) p) as Hpar by (intros p Hp; unfold parents_of; cbn; by rewrite lookup_insert_ne).
  assert (parents_of (heap s') a = rq_parents req) as Hpa by (unfold parents_of; cbn; by rewrite lookup_insert_eq).
  assert (∀ h b, nodeReqs s' !! h = Some b ↔ (rq_code req = false ∧ h = rq_hash req ∧ b = a) ∨ nodeReqs s !! h = Some b) as Hnode.
  { intros h b. cbn. destruct (rq_code req); [naive_solver|]. rewrite lookup_insert_Some. destruct (decide (rq_hash req = h)) as [<-|?]; [rewrite Hnew|]; naive_solver. }
  assert (∀ h b, codeReqs s' !! h = Some b ↔ (rq_code req = true ∧ h = rq_hash req ∧ b = a) ∨ codeReqs s !! h = Some b) as Hcode.
  { intros h b. cbn. destruct (rq_code req); [|naive_solver]. rewrite lookup_insert_Some. destruct (decide (rq_hash req = h)) as [<-|?]; [rewrite Hnew|]; naive_solver. }
  assert (pend s' ≡ₚ a :: pend s) as Hpend.
  { unfold pend. cbn [nodeReqs codeReqs s']. destruct (rq_code req); rewrite map_to_list_insert by done; [by rewrite Permutation_middle|done]. }
  assert (extends s s') as He.
  { split; [done|intros h q ?; apply Hnode; by right|]. intros b r Hr. exists r. split; [|done]. cbn. rewrite lookup_insert_ne; [done|]. symmetry. eauto. }
  split; [|done]. assert (∀ b, kept s b → kept s' b) as Hk by (intros b; by apply extends_kept).
  assert (∀ b, refs s' b = refs s b + occ b (rq_parents req)) as Hrefs.
  { intros b. unfold refs. rewrite Hpend, <-Hpa.
    rewrite <-(sumZ_ext (λ p, occ b (parents_of (heap s') p)) (λ p, occ b (parents_of (heap s) p)) (pend s)) by (intros p Hp; by rewrite Hpar by auto).
    cbn [sumZ foldr]. unfold sumZ. lia. }
  split; try apply Hi.
  - intros h b [(? & -> & ->)|(r & Hr & <- & <-)%(v_node _ _ _ _ Hi)]%Hnode; [exists req; cbn; by rewrite lookup_insert_eq|].
    exists r. cbn. rewrite lookup_insert_ne; [done|]. symmetry. eauto.
  - intros h b [(? & -> & ->)|(r & Hr & <- & <-)%(v_code _ _ _ _ Hi)]%Hcode; [exists req; cbn; by rewrite lookup_insert_eq|].
    exists r. cbn. rewrite lookup_insert_ne; [done|]. symmetry. eauto.
  - intros p b Hp. rewrite Hpend in Hp. apply elem_of_cons in Hp as [->|Hp].
    + rewrite Hpa. intros Hin. apply Hk. eapply v_todo; [done|]. apply elem_of_app. by left.
    + rewrite Hpar by auto. intros Hin. apply Hk. by eapply v_parents.
  - intros b Hin. apply Hk. eapply v_todo; [done|]. apply elem_of_app. by right.
  - intros h b rb Hb Hrb. rewrite Hrefs. apply Hnode in Hb as [(Hc & -> & ->)|Hb].
    + cbn in Hrb. rewrite lookup_insert_eq in Hrb. injection Hrb as <-. rewrite Hdeps.
      assert (∀ l, occ a l = 0 ∨ a ∈ l) as Hocc by (induction l as [|x l [IH|IH]]; [by left|rewrite occ_cons, IH; case_decide; [right; subst; by left|by left]|right; by right]).
      assert (¬ kept s a) as Hnk by (intros (? & r & _ & Hr & _); congruence).
      destruct (Hocc (rq_parents req)) as [->|Hin]; [|destruct Hnk; eapply v_todo; [done|apply elem_of_app; by left]].
      destruct (Hocc todo) as [->|Hin]; [|destruct Hnk; eapply v_todo; [done|apply elem_of_app; by right]].
      assert (refs s a = 0) as ->; [|done]. unfold refs. rewrite (sumZ_ext _ (λ _, 0)), sumZ_const0; [done|].
      intros p Hp. destruct (Hocc (parents_of (heap s) p)) as [?|Hin]; [done|destruct Hnk; by eapply v_parents].
    + assert (b ≠ a) as Hba by (apply Hpne, elem_of_pend; left; by eexists). cbn in Hrb. rewrite lookup_insert_ne in Hrb by done.
      rewrite (v_deps _ _ _ _ Hi _ _ _ Hb Hrb), occ_app. lia.
  - intros h b rb d c [(Hc & -> & ->)|Hb]%Hnode Hrb Hd Hexb Hbel; cbn in Hrb; [rewrite lookup_insert_eq in Hrb; congruence|].
    assert (b ≠ a) as Hba by (apply Hpne, elem_of_pend; left; by eexists). rewrite lookup_insert_ne in Hrb by done.
    destruct (v_children _ _ _ _ Hi _ _ _ _ _ Hb Hrb Hd Hexb Hbel) as [?|(q & Hq & Hin)]; [by left|right].
    exists q. by apply (extends_child s).
Qed.

Definition child_of (ps : list nat) (s : Sync) (h : bytes) : Prop :=
  ∃ q, nodeReqs s !! h = Some q ∧ ∀ b, b ∈ ps → b ∈ parents_of (heap s) q.
Lemma extends_child_of ps s s' h : extends s s' → child_of ps s h → child_of ps s' h.
Proof.
  intros He (q & Hq & Hin). exists q. split; [by apply He|]. intros b Hb. by apply (extends_child s s' b q h He Hq), Hin.
Qed.

Lemma schedule_ok todo ex db s req :
  inv (rq_parents req ++ todo) ex db s → rq_data req = None → rq_deps req = 0 →
  inv todo ex db (schedule req s) ∧ extends s (schedule req s) ∧
  (rq_code req = false → child_of (rq_parents req) (schedule req s) (rq_hash req)).
Proof.
  intros Hi Hdata Hdeps. unfold schedule.
  destruct ((if rq_code req then codeReqs s else nodeReqs s) !! rq_hash req) as [old|] eqn:Ho.
  - assert (old ∈ pend s ∧ ∃ r, heap s !! old = Some r) as [Hold [r Hr]].
    { destruct (rq_code req); (split; [apply elem_of_pend; eauto|]);
        [destruct (v_code _ _ _ _ Hi _ _ Ho) as (r & ? & _)|destruct (v_node _ _ _ _ Hi _ _ Ho) as (r & ? & _)]; by exists r. }
    assert (alter (λ r, set_parents (rq_parents r ++ rq_parents req) r) old (heap s) = <[old := set_parents (rq_parents r ++ rq_parents req) r]> (heap s)) as ->.
    { apply map_eq. intros p. destruct (decide (p = old)) as [->|Hne]; [by rewrite lookup_alter_eq, Hr, lookup_insert_eq|].
      by rewrite lookup_alter_ne, lookup_insert_ne. }
    destruct (inv_add_parents _ _ _ _ _ _ _ Hi Hold Hr) as [Hi' He]. split_and!; [done|done|]. intros Hc. rewrite Hc in Ho.
    exists old. split; [done|]. intros b Hb. unfold parents_of. cbn. rewrite lookup_insert_eq. cbn. apply elem_of_app. by right.
  - destruct (inv_enter _ _ _ _ _ Hi Hdata Hdeps Ho) as [Hi' He]. split_and!; [exact Hi'|exact He|]. intros Hc. exists (fresh (dom (heap s))).
    rewrite Hc. cbn. rewrite lookup_insert_eq. split; [done|]. intros b. unfold parents_of. by rewrite lookup_insert_eq.
Qed.

Lemma schedule_all todo ex db reqs : ∀ s,
  inv ((reqs ≫= rq_parents) ++ todo) ex db s → Forall (λ r, rq_data r = None ∧ rq_deps r = 0 ∧ rq_code r = false) reqs →
  let s' := foldl (λ s child, schedule child s) s reqs in
  inv todo ex db s' ∧ extends s s' ∧ Forall (λ r, child_of (rq_parents r) s' (rq_hash r)) reqs.
Proof.
  induction reqs as [|r reqs IH]; intros s Hi; [done|]. intros [(Hd & Hn & Hc) HF]%Forall_cons. cbn in Hi. rewrite <-app_assoc in Hi.
  destruct (schedule_ok _ _ _ _ _ Hi Hd Hn) as (Hi1 & He1 & Hch). destruct (IH _ Hi1 HF) as (Hi2 & He2 & HF2). cbn [foldl].
  split_and!; [done|by etrans|]. constructor; [|done]. by eapply extends_child_of, Hch.
Qed.

(** ** [AddSubTrie] and [AddCodeEntry] *)

(** The designated parent is a node that is kept back. *)
Definition good_parent (s : Sync) (parent : bytes) : Prop := parent ≠ zero → ∀ a, nodeReqs s !! parent = Some a → kept s a.
Lemma link_parent_ok todo ex db s parent req req' s' :
  inv todo ex db s → good_parent s parent → link_parent parent req s = Ret (req', s') → rq_parents req = [] →
  ∃ ps, req' = set_parents ps req ∧ inv (ps ++ todo) ex db s' ∧ extends s s'.
Proof.
  intros Hi Hpar Hl Hnil. revert Hl. unfold link_parent. case_bool_decide as Hz.
  - destruct (nodeReqs s !! parent) as [a|] eqn:Ha; [|done]. intros [= <- <-]. rewrite Hnil. exists [a]. split; [done|].
    destruct (v_node _ _ _ _ Hi _ _ Ha) as (r & Hr & _).
    assert (alter (λ r, set_deps (rq_deps r + 1) r) a (heap s) = <[a := set_deps (rq_deps r + 1) r]> (heap s)) as ->.
    { apply map_eq. intros p. destruct (decide (p = a)) as [->|Hne]; [by rewrite lookup_alter_eq, Hr, lookup_insert_eq|].
      by rewrite lookup_alter_ne, lookup_insert_ne. }
    split; [|split; [done|done|]].
    + apply (inv_set_deps todo); [done|done| |].
      * intros b [->|Hb]%elem_of_cons; [right; by apply (Hpar Hz)|by left].
      * intros b. cbn [app]. rewrite occ_cons. case_decide; lia.
    + intros p rp Hp. cbn. destruct (decide (p = a)) as [->|Hne]; [rewrite lookup_insert_eq; simplify_eq; by eexists|].
      rewrite lookup_insert_ne by done. by exists rp.
  - intros [= <- <-]. exists []. split; [|done]. destruct req. cbn in *. by subst.
Qed.

Lemma AddSubTrie_ok todo ex db s root path parent cb s' :
  inv todo ex db s → good_parent s parent → AddSubTrie db root path parent cb s = Ret s' →
  inv todo ex db s' ∧ extends s s' ∧ (root ≠ emptyRoot → wanted db s' root).
Proof.
  intros Hi Hpar. unfold AddSubTrie. destruct (bool_decide (root = emptyRoot)) eqn:E; [apply bool_decide_eq_true_1 in E as ->; by intros [= <-]|].
  cbn [orb]. destruct (hasNode s root || HasTrieNode db root) eqn:Ek.
  - intros [= <-]. split_and!; [done..|]. intros _. left. apply orb_true_iff in Ek as [Ek|Ek]; apply bool_decide_eq_true_1 in Ek; [by left|by right].
  - intros ([req s1] & Hl & [= <-])%go_bind_Ret. destruct (link_parent_ok _ _ _ _ _ _ _ _ Hi Hpar Hl eq_refl) as (ps & -> & Hi1 & He1).
    destruct (schedule_ok _ _ _ _ (set_parents ps (mkRequest path root None false [] 0 cb)) Hi1 eq_refl eq_refl) as (Hi2 & He2 & Hc).
    split_and!; [done|by etrans|]. intros _. right.
    destruct (Hc eq_refl) as (q & Hq & _). by exists q.
Qed.
Lemma AddCodeEntry_ok todo ex db s hash path parent s' :
  inv todo ex db s → good_parent s parent → AddCodeEntry db hash path parent s = Ret s' → inv todo ex db s' ∧ extends s s'.
Proof.
  intros Hi Hpar. unfold AddCodeEntry. destruct (_ || _); [by intros [= <-]|].
  intros ([req s1] & Hl & [= <-])%go_bind_Ret. destruct (link_parent_ok _ _ _ _ _ _ _ _ Hi Hpar Hl eq_refl) as (ps & -> & Hi1 & He1).
  destruct (schedule_ok _ _ _ _ (set_parents ps (mkRequest path hash None true [] 0 None)) Hi1 eq_refl eq_refl) as (Hi2 & He2 & _). split; [done|by etrans].
Qed.
Definition call_parent (c : sync_call) : bytes := match c with CallSubTrie _ _ p _ => p | CallCodeEntry _ _ p => p end.
Lemma do_call_ok todo ex db s c s' :
  inv todo ex db s → good_parent s (call_parent c) → do_call db s c = Ret s' → inv todo ex db s' ∧ extends s s'.
Proof.
  destruct c as [root path parent cb|hash path parent]; intros Hi Hpar Hd; [|by eapply AddCodeEntry_ok].
  by destruct (AddSubTrie_ok _ _ _ _ _ _ _ _ _ Hi Hpar Hd) as (? & ? & _).
Qed.
Lemma do_calls_ok todo ex db a hash calls s s' :
  inv todo ex db s → nodeReqs s !! hash = Some a → kept s a → (∀ c, c ∈ calls → call_parent c = zero ∨ call_parent c = hash) →
  go_fold (do_call db) s calls = Ret s' → inv todo ex db s' ∧ extends s s'.
Proof.
  intros Hi Ha Hk Hc. apply (go_fold_inv (do_call db) (λ s', inv todo ex db s' ∧ extends s s')); [done|].
  intros x c y Hin [Hx He] Hd. assert (good_parent x (call_parent c)) as Hg; [|destruct (do_call_ok _ _ _ _ _ _ Hx Hg Hd); split; [done|by etrans]].
  intros Hz b Hb. destruct (Hc c Hin) as [?|Heq]; [done|]. rewrite Heq in Hb. apply (ex_node _ _ He) in Ha. assert (b = a) as -> by congruence.
  by eapply extends_kept.
Qed.

(** ** [children] *)
Lemma child_list_hashes path n cs c : child_list path n = Ret cs → c ∈ child_hashes n → ∃ x, x ∈ cs ∧ c ∈ ref_hash x.2.
Proof.
  destruct n; cbn; try done.
  all: cycle 1.
  - intros [= <-] Hc. eexists. split; [by left|done].
  - intros [= <-] (x & Hc & Hx)%list_elem_of_bind. apply list_elem_of_lookup in Hx as [i Hi].
    exists (path ++ [u8 (Z.of_nat i)], x). split; [|done]. apply list_elem_of_bind. exists (path ++ [u8 (Z.of_nat i)], x). split.
    + cbn. destruct x; [by apply elem_of_nil in Hc|by left..].
    + apply list_elem_of_lookup. exists i. by rewrite list_lookup_imap, Hi.
Qed.

(** The callbacks name no parent but the node they are called for. *)
Definition callbacks_parent : Prop :=
  ∀ cb paths path v h c, c ∈ (callbacks cb paths path v h).1 → call_parent c = zero ∨ call_parent c = h.

Definition fresh_child (a : nat) (r : request) : Prop := rq_data r = None ∧ rq_deps r = 0 ∧ rq_code r = false ∧ rq_parents r = [a].
Record gathered (db : SyncStore) (a : nat) (s0 : Sync) (acc : Sync * list request * bool) : Prop := mkGathered {
  ga_inv : inv [] (Some a) db acc.1.1;
  ga_ext : extends s0 acc.1.1;
  ga_reqs : Forall (fresh_child a) acc.1.2
}.
(** A child is there, or among the new requests. *)
Definition asked (db : SyncStore) (acc : Sync * list request * bool) (h : bytes) : Prop :=
  known db acc.1.1 h ∨ ∃ r, r ∈ acc.1.2 ∧ rq_hash r = h.
Definition asks_more (db : SyncStore) (acc acc' : Sync * list request * bool) : Prop :=
  (∀ h, asked db acc h → asked db acc' h) ∧ (acc'.2 = false → acc.2 = false).

Lemma child_step_ok db a req s0 acc c acc' :
  callbacks_parent → nodeReqs s0 !! rq_hash req = Some a → kept s0 a → gathered db a s0 acc → child_step db a req acc c = Ret acc' →
  gathered db a s0 acc' ∧ asks_more db acc acc' ∧ (acc'.2 = false → ∀ h, h ∈ ref_hash c.2 → asked db acc' h).
Proof.
  intros Hcb Ha Hk Hg. destruct acc as [[s requests] failed]. unfold child_step. destruct failed; [by intros [= <-]|].
  destruct c as [p [| | |hn|v]]; cbn [snd fst ref_hash]; try by (intros [= <-]; split_and!; [done|done|intros _ h Hh; by apply elem_of_nil in Hh]).
  all: cycle 1.
  - destruct (rq_callback req) as [cb|]; [|intros [= <-]; split_and!; [done|done|intros _ h Hh; by apply elem_of_nil in Hh]].
    intros (paths & _ & H)%go_bind_Ret. pose proof (Hcb cb paths p v (rq_hash req)) as Hpar.
    destruct (callbacks cb paths p v (rq_hash req)) as [calls err]. apply go_bind_Ret in H as (s1 & Hf & [= <-]).
    destruct Hg as [Hi He Hr]. cbn in Hi, He, Hr.
    destruct (do_calls_ok _ _ _ a (rq_hash req) calls _ s1 Hi) as [Hi1 He1]; [by apply He|by eapply extends_kept|done|done|].
    split_and!; [split; [done|by etrans|done]| |intros _ h Hh; by apply elem_of_nil in Hh].
    split; [|done]. intros h [Hh|Hh]; [left; by apply (extends_known db s s1 h He1)|by right].
  - destruct (hasNode s (BytesToHash hn) || HasTrieNode db (BytesToHash hn)) eqn:Ek; intros [= <-].
    + split_and!; [done|done|]. intros _ h ->%list_elem_of_singleton. left.
      apply orb_true_iff in Ek as [Ek|Ek]; apply bool_decide_eq_true_1 in Ek; [by left|by right].
    + destruct Hg as [Hi He Hr]. split_and!; [split; [done|done|]| |].
      * cbn. apply Forall_app. split; [done|]. by apply Forall_singleton.
      * split; [|done]. intros h [Hh|(r & Hin & Hh)]; [by left|right]. exists r. split; [|done]. cbn. apply elem_of_app. by left.
      * intros _ h ->%list_elem_of_singleton. right. eexists. split; [cbn; apply elem_of_app; right; by left|done].
Qed.

Lemma children_fold_ok db a req s0 cs : ∀ acc acc',
  callbacks_parent → nodeReqs s0 !! rq_hash req = Some a → kept s0 a → gathered db a s0 acc → go_fold (child_step db a req) acc cs = Ret acc' →
  gathered db a s0 acc' ∧ asks_more db acc acc' ∧ (acc'.2 = false → ∀ x h, x ∈ cs → h ∈ ref_hash x.2 → asked db acc' h).
Proof.
  induction cs as [|c cs IH]; intros acc acc' Hcb Ha Hk Hg.
  - intros [= <-]. split_and!; [done|done|]. by intros _ x h Hx%elem_of_nil.
  - cbn [go_fold]. intros (acc1 & H1 & H2)%go_bind_Ret. destruct (child_step_ok _ _ _ _ _ _ _ Hcb Ha Hk Hg H1) as (Hg1 & [Hm1 Hf1] & Hc1).
    destruct (IH _ _ Hcb Ha Hk Hg1 H2) as (Hg2 & [Hm2 Hf2] & Hc2). split_and!; [done|split; auto|].
    intros Hf x h [->|Hx]%elem_of_cons Hh; [|by eapply Hc2]. apply Hm2, Hc1; auto.
Qed.

Lemma children_ok db a req object s s' requests :
  callbacks_parent → nodeReqs s !! rq_hash req = Some a → kept s a → inv [] (Some a) db s →
  children db a req object s = Ret (s', requests, false) →
  inv [] (Some a) db s' ∧ extends s s' ∧ Forall (fresh_child a) requests ∧
  ∀ c, c ∈ child_hashes object → known db s' c ∨ ∃ r, r ∈ requests ∧ rq_hash r = c.
Proof.
  intros Hcb Ha Hk Hi. unfold children. intros (cs & Hcs & Hf)%go_bind_Ret.
  assert (gathered db a s (s, [], false)) as Hg by done.
  destruct (children_fold_ok _ _ _ _ _ _ _ Hcb Ha Hk Hg Hf) as ([Hi' He Hr] & _ & Hc).
  split_and!; [done..|]. intros c Hin. destruct (child_list_hashes _ _ _ _ Hcs Hin) as (x & Hx & Hh). by apply (Hc eq_refl x c).
Qed.

(** ** [Process] *)

(** The data of a request comes. *)
Lemma inv_set_req_data todo ex db s a r d :
  inv todo None db s → heap s !! a = Some r → rq_data r = None → (∀ h, nodeReqs s !! h = Some a → ex = Some a) →
  let s' := set_req_data a d s in
  inv todo ex db s' ∧ heap s' !! a = Some (set_data (Some d) r) ∧ pend s' = pend s ∧ (∀ b, kept s b → kept s' b).
Proof.
  intros Hi Hr Hnone Hex. unfold set_req_data.
  assert (alter (set_data (Some d)) a (heap s) = <[a := set_data (Some d) r]> (heap s)) as ->.
  { apply map_eq. intros p. destruct (decide (p = a)) as [->|Hne]; [by rewrite lookup_alter_eq, Hr, lookup_insert_eq|].
    by rewrite lookup_alter_ne, lookup_insert_ne. }
  set (s' := set_heap _ s).
  assert (∀ p, parents_of (heap s') p = parents_of (heap s) p) as Hpar by (intros p; by apply (parents_of_update _ a r)).
  assert (∀ b, refs s' b = refs s b) as Hrefs by (intros b; by apply refs_same).
  assert (∀ b, kept s b → kept s' b) as Hk.
  { intros b (h & rb & Hh & Hrb & Hd). exists h, rb. split_and!; [done| |done]. cbn. rewrite lookup_insert_ne; [done|]. intros <-.
    destruct Hd. congruence. }
  assert (∀ b rb, heap s' !! b = Some rb → ∃ r0, heap s !! b = Some r0 ∧ rq_deps rb = rq_deps r0 ∧ (b ≠ a → rb = r0)) as Hb.
  { intros b rb. cbn. intros [[<- <-]|[_ Hb]]%lookup_insert_Some; [by exists r|by exists rb]. }
  split_and!; [|apply lookup_insert_eq|done|done]. split; try apply Hi.
  - intros h b (rb & Hrb & Hh & Hc)%(v_node _ _ _ _ Hi). destruct (decide (b = a)) as [->|Hne]; cbn.
    + rewrite lookup_insert_eq. simplify_eq. by eexists.
    + rewrite lookup_insert_ne by done. by exists rb.
  - intros h b (rb & Hrb & Hh & Hc)%(v_code _ _ _ _ Hi). destruct (decide (b = a)) as [->|Hne]; cbn.
    + rewrite lookup_insert_eq. simplify_eq. by eexists.
    + rewrite lookup_insert_ne by done. by exists rb.
  - intros p b Hp. rewrite Hpar. intros Hb'. by apply Hk, (v_parents _ _ _ _ Hi p).
  - intros b Hb'. apply Hk. by eapply v_todo.
  - intros h b rb Hh (r0 & Hr0 & -> & _)%Hb. by rewrite (v_deps _ _ _ _ Hi _ _ _ Hh Hr0), Hrefs.
  - intros h b rb e c Hh (r0 & Hr0 & _ & Hsame)%Hb Hd Hexb Hbel. assert (b ≠ a) as Hne by (intros ->; apply Hexb; eauto).
    rewrite (Hsame Hne) in Hd. destruct (v_children _ _ _ _ Hi _ _ _ _ _ Hh Hr0 Hd ltac:(done) Hbel) as [?|(q & Hq & Hin)]; [by left|].
    right. exists q. by rewrite Hpar.
Qed.

(** The children of [a] have been requested. *)
Lemma inv_children_requested todo a db s r d :
  inv todo (Some a) db s → heap s !! a = Some r → rq_data r = Some d →
  (∀ c, below d c → known db s c ∨ child_of [a] s c) → inv todo None db s.
Proof.
  intros Hi Hr Hd Hc. split; try apply Hi. intros h b rb e c Hh Hrb He _ Hbel. destruct (decide (b = a)) as [->|Hne]; [|eapply v_children; eauto; congruence].
  assert (rb = r) as -> by congruence. assert (e = d) as -> by congruence. destruct (Hc c Hbel) as [?|(q & Hq & Hin)]; [by left|right].
  exists q. split; [done|]. apply Hin. by left.
Qed.

Record processed (db : SyncStore) (s s' : Sync) : Prop := mkProcessed {
  pr_inv : inv [] None db s';
  pr_wanted : ∀ c, wanted db s c → wanted db s' c
}.
Lemma waiting_Some s reqs hash a r :
  waiting s reqs hash = Some (a, r) → reqs !! hash = Some a ∧ heap s !! a = Some r ∧ rq_data r = None.
Proof.
  unfold waiting. destruct (reqs !! hash) as [b|]; [|done]. cbn. destruct (heap s !! b) as [rb|] eqn:Hb; [|done]. cbn.
  destruct (rq_data rb) eqn:Hd; [done|]. by intros [= <- <-].
Qed.

Lemma fill_code_ok db hash data s : inv [] None db s → ∃ s' filled, fill_code hash data s = Ret (s', filled) ∧ processed db s s'.
Proof.
  intros Hi. unfold fill_code. destruct (waiting s (codeReqs s) hash) as [[a r]|] eqn:Hw; [|by eexists _, _].
  apply waiting_Some in Hw as (Hc & Hr & Hn). destruct (v_code _ _ _ _ Hi _ _ Hc) as (r' & Hr' & Hh & Hcd). assert (r' = r) as -> by congruence.
  destruct (inv_set_req_data [] None db s a r data Hi Hr Hn) as (Hi1 & Hr1 & Hp1 & _).
  { intros h Hx. destruct (v_node _ _ _ _ Hi _ _ Hx) as (r2 & Hr2 & _ & Hc2). congruence. }
  destruct (commit_request_ok (S (pendings s)) [] db (set_req_data a data s) a (set_data (Some data) r) Hi1) as (s2 & -> & Hi2 & Hc2).
  - split; [done|cbn; by rewrite Hcd, Hh|]. cbn. by rewrite Hcd.
  - unfold pendings. cbn. lia.
  - eexists _, true. split; [done|]. split; [done|]. apply (cm_wanted _ _ _ Hc2).
Qed.

Lemma occ_children a b requests : Forall (fresh_child a) requests → occ b (requests ≫= rq_parents) = if decide (a = b) then len requests else 0.
Proof.
  induction 1 as [|r requests (_ & _ & _ & Hp) _ IH]; [by case_decide|]. cbn. rewrite Hp. cbn [app]. rewrite occ_cons, len_cons.
  rewrite IH. case_decide; lia.
Qed.

Lemma fill_node_ok db hash a r data object s s' e :
  callbacks_parent → inv [] None db s → nodeReqs s !! hash = Some a → heap s !! a = Some r → rq_data r = None →
  decodeNode (length data) data = Some object → fill_node db a object (set_req_data a data s) = Ret (s', e) → e ≠ Some ErrCallback →
  processed db s s'.
Proof.
  intros Hcb Hi Ha Hr Hn Hdec Hf He. destruct (v_node _ _ _ _ Hi _ _ Ha) as (r' & Hr' & Hh & Hcd). assert (r' = r) as -> by congruence.
  destruct (inv_set_req_data [] (Some a) db s a r data Hi Hr Hn) as (Hi1 & Hr1 & Hp1 & _); [done|].
  assert (∀ c, wanted db s c → wanted db (set_req_data a data s) c) as Hw1 by done.
  assert (nodeReqs (set_req_data a data s) !! hash = Some a) as Ha1 by done.
  revert Hf Hi1 Hr1 Hw1 Ha1. clear Hp1. generalize (set_req_data a data s). intros s1 Hf Hi1 Hr1 Hw1 Ha1.
  unfold fill_node in Hf. rewrite Hr1 in Hf. cbn [deref mbind go_bind] in Hf. apply go_bind_Ret in Hf as ([[s2 requests] failed] & Hch & Hf).
  destruct failed; [injection Hf as <- <-; done|].
  destruct (children_ok _ _ _ _ _ _ _ Hcb ltac:(cbn; rewrite Hh; exact Ha1) ltac:(exists hash; eauto) Hi1 Hch) as (Hi2 & He2 & Hfr & Hcs).
  destruct (ex_heap _ _ He2 _ _ Hr1) as (r2 & Hr2 & Hd2 & Hh2 & Hc2 & _). rewrite Hr2 in Hf. cbn [deref mbind go_bind] in Hf.
  assert (∀ c, below data c → c ∈ child_hashes object) as Hbelow by (intros c (n & Hdn & Hin); congruence).
  assert (∀ c, wanted db s c → wanted db s2 c) as Hw2 by (intros c Hc; by eapply extends_wanted, Hw1).
  apply (ex_node _ _ He2) in Ha1. case_bool_decide as Hz.
  - destruct Hz as [-> Hz]. apply go_bind_Ret in Hf as (s3 & Hcm & [= <- <-]).
    assert (inv [] None db s2) as Hi3.
    { apply (inv_children_requested _ a _ _ r2 data); [done|done|by rewrite Hd2|]. intros c Hc%Hbelow. left.
      destruct (Hcs c Hc) as [?|(x & Hx & _)]; [done|by apply elem_of_nil in Hx]. }
    destruct (commit_request_ok (S (pendings s2)) [] db s2 a r2 Hi3) as (s4 & Hs4 & Hi4 & Hc4); [|lia|].
    { apply kept_done; [done| |by rewrite Hd2|done|done]. exists hash. split_and!; [done|by rewrite Hh2|by rewrite Hc2]. }
    rewrite Hs4 in Hcm. injection Hcm as ->. split; [done|]. intros c Hc. by apply (cm_wanted _ _ _ Hc4), Hw2.
  - injection Hf as <- <-. set (s3 := set_heap _ s2).
    assert (inv ((requests ≫= rq_parents) ++ []) (Some a) db s3) as Hi3.
    { apply (inv_set_deps []); [done|done| |].
      - intros b Hb. rewrite app_nil_r in Hb. apply list_elem_of_bind in Hb as (x & Hb & Hx). right.
        rewrite Forall_forall in Hfr. destruct (Hfr x Hx) as (_ & _ & _ & Hp). rewrite Hp in Hb. apply list_elem_of_singleton in Hb as ->.
        exists hash, r2. rewrite Hd2. eauto.
      - intros b. rewrite app_nil_r, (occ_children a) by done. change (occ b []) with 0. case_decide; lia. }
    destruct (schedule_all [] (Some a) db requests s3 Hi3) as (Hi4 & He4 & HF4); [eapply Forall_impl; [done|]; by intros x (? & ? & ? & _)|].
    set (s4 := foldl _ s3 requests) in *.
    assert (heap s3 !! a = Some (set_deps (rq_deps r2 + len requests) r2)) as Hr3 by apply lookup_insert_eq.
    destruct (ex_heap _ _ He4 _ _ Hr3) as (r4 & Hr4 & Hd4 & _). split; [|intros c Hc%Hw2; by apply (extends_wanted db s3 s4 c He4)].
    apply (inv_children_requested _ a _ _ r4 data); [done|done|by rewrite Hd4|]. intros c Hc%Hbelow.
    destruct (Hcs c Hc) as [Hk|(x & Hx & <-)]; [left; by apply (extends_known db s3 s4 c He4)|right].
    rewrite Forall_forall in Hfr, HF4. destruct (Hfr x Hx) as (_ & _ & _ & Hp). rewrite <-Hp. by apply HF4.
Qed.

Lemma Process_ok db hash data s s' e :
  callbacks_parent → inv [] None db s → Process db hash data s = Ret (s', e) → e ≠ Some ErrCallback → processed db s s'.
Proof.
  intros Hcb Hi. unfold Process. case_bool_decide; [by intros [= <- <-]|]. destruct (fill_code_ok db hash data s Hi) as (s1 & filled & -> & [Hi1 Hw1]).
  cbn [mbind go_bind]. destruct (waiting s1 (nodeReqs s1) hash) as [[a r]|] eqn:Hw; [|by intros [= <- <-]].
  apply waiting_Some in Hw as (Ha & Hr & Hn). destruct (decodeNode (length data) data) as [object|] eqn:Hdec; [|by intros [= <- <-]].
  intros Hf He. destruct (fill_node_ok _ _ _ _ _ _ _ _ _ Hcb Hi1 Ha Hr Hn Hdec Hf He) as [Hi2 Hw2]. split; auto.
Qed.

(** ** No loop of the scheduler runs out of fuel *)
Definition unblocked {A} (x : go A) : Prop := match x with Halt (Blocked _) => False | _ => True end.
Lemma unblocked_bind {A B} (x : go A) (f : A → go B) : unblocked x → (∀ y, x = Ret y → unblocked (f y)) → unblocked (x ≫= f).
Proof. destruct x; cbn; [auto|done]. Qed.
Lemma unblocked_fold {A B} (f : A → B → go A) l : (∀ x b, unblocked (f x b)) → ∀ a, unblocked (go_fold f a l).
Proof. intros Hf. induction l as [|b l IH]; intros a; [done|]. cbn [go_fold]. by apply unblocked_bind. Qed.
Lemma unblocked_nibbles l : ∀ buf, unblocked (decodeNibbles l buf).
Proof.
  assert (∀ n l buf, (length l ≤ n)%nat → unblocked (decodeNibbles l buf)) as H; [|by intros buf; eapply H].
  induction n as [|n IH]; intros [|x [|y l']] [|b buf]; cbn; try done; [lia|]. intros Hn. specialize (IH l' buf ltac:(lia)).
  by destruct (decodeNibbles l' buf).
Qed.
Lemma unblocked_hexToKeybytes l : unblocked (hexToKeybytes l).
Proof. unfold hexToKeybytes. destruct (negb _); [done|apply unblocked_nibbles]. Qed.
Lemma unblocked_fmap {A B} (f : A → B) (x : go A) : unblocked x → unblocked (f <$> x).
Proof. by destruct x. Qed.
Lemma unblocked_hexToCompact l : unblocked (hexToCompact l).
Proof.
  unfold hexToCompact. case_bool_decide; [|by apply unblocked_fmap, unblocked_nibbles].
  apply unblocked_bind; [unfold go_index; destruct (bool_decide _); [by destruct (_ !! _)|done]|]. intros. by apply unblocked_fmap, unblocked_nibbles.
Qed.
#[local] Ltac unblock := repeat first
  [ done | apply unblocked_hexToKeybytes | apply unblocked_hexToCompact
  | apply unblocked_bind; [|intros ? _] ].

Lemma link_parent_unblocked parent req s : unblocked (link_parent parent req s).
Proof. unfold link_parent. case_bool_decide; [|done]. by destruct (nodeReqs s !! parent). Qed.
Lemma AddSubTrie_unblocked db root path parent cb s : unblocked (AddSubTrie db root path parent cb s).
Proof. unfold AddSubTrie. destruct (_ || _); [done|]. apply unblocked_bind; [apply link_parent_unblocked|by intros [? ?]]. Qed.
Lemma do_call_unblocked db s c : unblocked (do_call db s c).
Proof.
  destruct c; cbn; [apply AddSubTrie_unblocked|unfold AddCodeEntry]. destruct (_ || _); [done|].
  apply unblocked_bind; [apply link_parent_unblocked|by intros [? ?]].
Qed.
Lemma children_unblocked db a req object s : unblocked (children db a req object s).
Proof.
  unfold children. apply unblocked_bind; [by destruct object|]. intros cs _. apply unblocked_fold. intros [[s1 rs] failed] [p c]. unfold child_step.
  destruct failed; [done|]. destruct c; cbn [snd fst]; try done.
  - by destruct (_ || _).
  - destruct (rq_callback req); [|done]. apply unblocked_bind; [unfold leaf_paths; repeat case_bool_decide; unblock|]. intros paths _.
    destruct (callbacks _ _ _ _ _). by apply unblocked_bind; [apply unblocked_fold, do_call_unblocked|].
Qed.

(** Whatever arrives, [Process] comes to an end. *)
Lemma Process_unblocked db hash data s : callbacks_parent → inv [] None db s → unblocked (Process db hash data s).
Proof.
  intros Hcb Hi. unfold Process. case_bool_decide; [done|]. destruct (fill_code_ok db hash data s Hi) as (s1 & filled & -> & [Hi1 _]).
  cbn [mbind go_bind]. destruct (waiting s1 (nodeReqs s1) hash) as [[a r]|] eqn:Hw; [|done]. apply waiting_Some in Hw as (Ha & Hr & Hn).
  destruct (decodeNode (length data) data) as [object|] eqn:Hdec; [|done]. unfold fill_node.
  destruct (v_node _ _ _ _ Hi1 _ _ Ha) as (r' & Hr' & Hh & Hcd). assert (r' = r) as -> by congruence.
  destruct (inv_set_req_data [] (Some a) db s1 a r data Hi1 Hr Hn) as (Hi2 & Hr2 & _); [done|]. rewrite Hr2. cbn [deref mbind go_bind].
  apply unblocked_bind; [apply children_unblocked|]. intros [[s2 requests] failed] Hch. destruct failed; [done|].
  destruct (children_ok db a (set_data (Some data) r) object (set_req_data a data s1) s2 requests Hcb) as (Hi3 & He3 & _ & Hcs); [by cbn; rewrite Hh| |done|done|].
  { exists hash. eauto. }
  destruct (ex_heap _ _ He3 _ _ Hr2) as (r3 & Hr3 & Hd3 & Hh3 & Hc3 & _). rewrite Hr3. cbn [deref mbind go_bind]. case_bool_decide as Hz; [|done].
  destruct Hz as [-> Hz]. destruct (commit_request_ok (S (pendings s2)) [] db s2 a r3) as (s4 & -> & _); [|apply kept_done; try done|lia|done].
  - apply (inv_children_requested _ a _ _ r3 data); [done|done|by rewrite Hd3|]. intros c (n & Hdn & Hin). assert (n = object) as -> by congruence.
    left. destruct (Hcs c Hin) as [?|(x & Hx & _)]; [done|by apply elem_of_nil in Hx].
  - exists hash. split_and!; [by apply (ex_node _ _ He3)|by rewrite Hh3|by rewrite Hc3].
  - by rewrite Hd3.
Qed.

(** ** [Missing] *)
Lemma inv_queue todo ex db s q f :
  inv todo ex db s → inv todo ex db (mkSync (memNodes s) (memCodes s) (heap s) (nodeReqs s) (codeReqs s) q f).
Proof. intros Hi. split; apply Hi. Qed.
Record asked_for (max : Z) (db : SyncStore) (s : Sync) (r : list bytes * list (list bytes) * list bytes * Sync) : Prop := mkAsked {
  af_inv : inv [] None db r.2;
  af_wanted : ∀ c, wanted db s c → wanted db r.2 c;
  af_max : max ≠ 0 → len r.1.1.1 + len r.1.2 ≤ Z.max max 0
}.
Lemma missing_loop_ok `{!PrQueLaws} max db : ∀ fuel nodes paths codes s,
  inv [] None db s → (prque_Size (queue s) ≤ fuel)%nat → (max ≠ 0 → len nodes + len codes ≤ Z.max max 0) →
  unblocked (missing_loop fuel max nodes paths codes s) ∧
  ∀ r, missing_loop fuel max nodes paths codes s = Ret r → asked_for max db s r.
Proof.
  induction fuel as [|fuel IH]; intros nodes paths codes s Hi Hq Hm; cbn [missing_loop].
  - destruct (prque_Peek (queue s)) as [[hash prio]|] eqn:E; [|by split; [|intros r [= <-]]].
    exfalso. assert (is_Some (prque_Peek (queue s))) as Hs%prque_Peek_Size by by rewrite E. lia.
  - destruct (prque_Peek (queue s)) as [[hash prio]|] eqn:E; [|by split; [|intros r [= <-]]].
    case_bool_decide as Hlt; [|by split; [|intros r [= <-]]]. case_bool_decide; [by split; [|intros r [= <-]]|].
    assert (is_Some (prque_Peek (queue s))) as Hs%prque_Pop_Size by by rewrite E.
    set (s1 := mkSync _ _ _ _ _ _ _). pose proof (inv_queue _ _ _ _ (prque_Pop (queue s)) (<[prio_depth prio := default 0 (fetches s !! prio_depth prio) + 1]> (fetches s)) Hi) as Hi1.
    fold s1 in Hi1. assert (prque_Size (queue s1) ≤ fuel)%nat as Hq1 by (cbn; lia).
    destruct (nodeReqs s1 !! hash) as [a|] eqn:Ha.
    + destruct (v_node _ _ _ _ Hi1 _ _ Ha) as (req & -> & _). cbn [deref mbind go_bind].
      assert (unblocked (newSyncPath (rq_path req))) as Hp by (unfold newSyncPath; case_bool_decide; unblock).
      destruct (newSyncPath (rq_path req)) as [p|e]; [|by split; [|done]]. cbn [go_bind].
      destruct (IH (nodes ++ [hash]) (paths ++ [p]) codes s1 Hi1 Hq1) as [Hu Hr]; [intros Hz; rewrite len_app, len_cons; change (len (@nil bytes)) with 0; lia|].
      split; [done|]. intros r [? ? ?]%Hr. by split.
    + destruct (IH nodes paths (codes ++ [hash]) s1 Hi1 Hq1) as [Hu Hr]; [intros Hz; rewrite len_app, len_cons; change (len (@nil bytes)) with 0; lia|].
      split; [done|]. intros r [? ? ?]%Hr. by split.
Qed.
Lemma Missing_ok `{!PrQueLaws} max db s : inv [] None db s →
  unblocked (Missing max s) ∧ ∀ r, Missing max s = Ret r → asked_for max db s r.
Proof. intros Hi. apply missing_loop_ok; [done|done|]. intros _. change (len (@nil bytes)) with 0. lia. Qed.

(** ** A download *)

(** The database after the batch of [Commit] is written. *)
Definition store_all (l : list (bytes * bytes)) (m : gmap bytes bytes) : gmap bytes bytes := foldl (λ m kv, <[kv.1 := kv.2]> m) m l.
Definition flushed (db : SyncStore) (s : Sync) : SyncStore :=
  let '(nodes, codes, _) := Commit s in mkStore (store_all nodes (db_nodes db)) (store_all codes (db_codes db)).
Lemma store_all_lookup l : ∀ m k, NoDup l.*1 → store_all l m !! k = match (list_to_map l : gmap bytes bytes) !! k with Some v => Some v | None => m !! k end.
Proof.
  unfold store_all. induction l as [|[k' v] l IH]; intros m k; cbn; [by rewrite lookup_empty|]. rewrite NoDup_cons. intros [Hnin Hnd].
  rewrite IH by done. destruct (decide (k' = k)) as [->|Hne].
  - rewrite lookup_insert_eq. apply not_elem_of_list_to_map_1 in Hnin as ->. by rewrite lookup_insert_eq.
  - by rewrite !(lookup_insert_ne _ k').
Qed.
Lemma flushed_lookup db s k : db_nodes (flushed db s) !! k = match memNodes s !! k with Some v => Some v | None => db_nodes db !! k end.
Proof.
  assert (list_to_map (map_iter (memNodes s)) = memNodes s) as Hl.
  { by rewrite (list_to_map_proper _ (map_to_list (memNodes s)) (NoDup_fst_map_iter _) (map_iter_perm _)), list_to_map_to_list. }
  cbn. rewrite store_all_lookup by apply NoDup_fst_map_iter. by rewrite Hl.
Qed.
Lemma flushed_known db s c : is_Some (db_nodes (flushed db s) !! c) ↔ known db s c.
Proof. rewrite flushed_lookup. unfold known. destruct (memNodes s !! c) as [v|]; [|by split; [right|intros [[? ?]|?]]]. split; [by left|by eexists]. Qed.
Lemma flushed_closed db s todo ex : inv todo ex db s → closed_db (flushed db s).
Proof.
  intros Hi h d c Hd Hbel. apply flushed_known. rewrite flushed_lookup in Hd. destruct (memNodes s !! h) as [v|] eqn:Hm.
  - injection Hd as ->. by eapply v_closed.
  - right. by eapply v_db.
Qed.
Lemma flush_ok db s : inv [] None db s → inv [] None (flushed db s) (Commit s).2 ∧ ∀ c, wanted db s c → wanted (flushed db s) (Commit s).2 c.
Proof.
  intros Hi. assert (∀ c, known db s c → known (flushed db s) (Commit s).2 c) as Hk by (intros c Hc; right; by apply flushed_known). split.
  - split; try apply Hi.
    + intros h a r d c H1 H2 H3 H4 H5. destruct (v_children _ _ _ _ Hi _ _ _ _ _ H1 H2 H3 H4 H5) as [?|?]; [left; auto|by right].
    + intros h d c. cbn. by rewrite lookup_empty.
    + by eapply flushed_closed.
  - intros c [Hc|Hc]; [left; auto|by right].
Qed.

(** A download is a sequence of these, whatever data arrives and in whatever
    order; it stops when a callback fails. *)
Inductive sync_step : SyncStore * Sync → SyncStore * Sync → Prop :=
  | step_Missing db s max nodes paths codes s' :
      Missing max s = Ret (nodes, paths, codes, s') → sync_step (db, s) (db, s')
  | step_Process db s hash data s' e :
      Process db hash data s = Ret (s', e) → e ≠ Some ErrCallback → sync_step (db, s) (db, s')
  | step_AddSubTrie db s root path cb s' : AddSubTrie db root path zero cb s = Ret s' → sync_step (db, s) (db, s')
  | step_AddCodeEntry db s hash path s' : AddCodeEntry db hash path zero s = Ret s' → sync_step (db, s) (db, s')
  | step_Commit db s : sync_step (db, s) (flushed db s, (Commit s).2).

Record downloading (root : bytes) (x : SyncStore * Sync) : Prop := mkDownloading {
  dl_inv : inv [] None x.1 x.2;
  dl_root : root ≠ emptyRoot → wanted x.1 x.2 root
}.
Lemma downloading_step `{!PrQueLaws} root x y : callbacks_parent → sync_step x y → downloading root x → downloading root y.
Proof.
  intros Hcb Hs [Hi Hw]. destruct Hs as [db s max nodes paths codes s' Hx|db s hash data s' e Hx He|db s r path cb s' Hx|db s hash path s' Hx|db s]; cbn [fst snd] in *.
  - destruct (proj2 (Missing_ok max db s Hi) _ Hx) as [Hi' Hw' _]. split; [done|auto].
  - destruct (Process_ok _ _ _ _ _ _ Hcb Hi Hx He) as [Hi' Hw']. split; [done|auto].
  - destruct (AddSubTrie_ok _ _ _ _ _ _ _ _ _ Hi (λ Hz, False_ind _ (Hz eq_refl)) Hx) as (Hi' & He & _). split; [done|]. intros Hr. by eapply extends_wanted, Hw.
  - destruct (AddCodeEntry_ok _ _ _ _ _ _ _ _ Hi (λ Hz, False_ind _ (Hz eq_refl)) Hx) as (Hi' & He). split; [done|]. intros Hr. by eapply extends_wanted, Hw.
  - destruct (flush_ok db s Hi) as [Hi' Hw']. split; [done|auto].
Qed.
Lemma downloading_new db root cb s : closed_db db → NewSync root db cb = Ret s → downloading root (db, s).
Proof.
  intros Hdb H. assert (inv [] None db (mkSync ∅ ∅ ∅ ∅ ∅ prque_New ∅)) as Hi.
  { split; cbn; try done; try (intros *; by rewrite lookup_empty); by intros *; rewrite elem_of_nil. }
  destruct (AddSubTrie_ok _ _ _ _ _ _ _ _ _ Hi (λ Hz, False_ind _ (Hz eq_refl)) H) as (Hi' & _ & Hw). by split.
Qed.
Lemma downloading_run `{!PrQueLaws} root x y : callbacks_parent → rtc sync_step x y → downloading root x → downloading root y.
Proof. intros Hcb. induction 1; [done|]. intros Hd. eauto using downloading_step. Qed.

(** What a database holds below a hash. *)
Inductive reaches (m : gmap bytes bytes) (root : bytes) : bytes → Prop :=
  | reaches_root : reaches m root root
  | reaches_below h d c : reaches m root h → m !! h = Some d → below d c → reaches m root c.

(** C11. Whatever data arrives and in whatever order, as long as no callback
    fails: the database never has a node without the nodes it refers to, also
    when what has been completed so far is written to it; no operation hangs;
    and once no node is pending, the completed nodes written to the database
    give every node of the trie of [root]. *)
Theorem sync_never_gaps `{!PrQueLaws} root cb db0 s0 db s :
  callbacks_parent → closed_db db0 → NewSync root db0 cb = Ret s0 → rtc sync_step (db0, s0) (db, s) →
  (closed_db db ∧ closed_db (flushed db s)) ∧
  ((∀ hash data, unblocked (Process db hash data s)) ∧ ∀ max, unblocked (Missing max s)) ∧
  (nodeReqs s = ∅ → root ≠ emptyRoot → ∀ h, reaches (db_nodes (flushed db s)) root h → is_Some (db_nodes (flushed db s) !! h)).
Proof.
  intros Hcb Hdb Hnew Hrun. destruct (downloading_run root _ _ Hcb Hrun (downloading_new _ _ _ _ Hdb Hnew)) as [Hi Hw]. cbn [fst snd] in Hi, Hw.
  pose proof (flushed_closed _ _ _ _ Hi) as Hcl. split; [split; [apply Hi|done]|]. split.
  - split; [intros; by apply Process_unblocked|]. intros max. by apply (Missing_ok max db s).
  - intros Hn Hr h Hh. induction Hh as [|h d c _ _ Hd Hbel]; [|by eapply Hcl]. apply flushed_known. destruct (Hw Hr) as [?|[q Hq]]; [done|].
    by rewrite Hn, lookup_empty in Hq.
Qed.
End sync.

(** ** The depth in a priority

    The counters of the fetches are kept by depth: [Missing] reads it off the
    priority, [commit] takes the length of the path. *)
Lemma prio_bits_high : ∀ path i prio, 0 ≤ i → Forall nibble path →
  Z.shiftr (prio_bits i path prio) 56 = Z.shiftr prio 56.
Proof.
  induction path as [|x path IH]; intros i prio Hi HF; [done|]. apply Forall_cons in HF as [Hx HF]. unfold nibble in Hx. cbn [prio_bits]. case_bool_decide as Hlt; [|done].
  rewrite IH, Z.shiftr_lor by (done || lia). rewrite (u8_small (15 - x)) by (unfold in_u8; lia).
  assert (0 ≤ Z.shiftl (15 - x) (52 - i * 4) < 2 ^ 56) as Hb.
  { rewrite Z.shiftl_mul_pow2 by lia. split; [apply Z.mul_nonneg_nonneg; [lia|apply Z.pow_nonneg; lia]|].
    assert (2 ^ (52 - i * 4) ≤ 2 ^ 52) by (apply Z.pow_le_mono_r; lia). change (2 ^ 56) with (16 * 2 ^ 52). nia. }
  rewrite i64_small by (unfold in_i64; lia). rewrite (Z.shiftr_div_pow2 (Z.shiftl _ _)), (Z.div_small (Z.shiftl _ _)), Z.lor_0_r by lia. done.
Qed.
Theorem priority_depth path : len path < 128 → Forall nibble path → prio_depth (priority path) = len path.
Proof.
  intros Hl HF. unfold prio_depth, priority. pose proof (len_nonneg path). rewrite prio_bits_high by (done || lia).
  rewrite Z.shiftl_mul_pow2, i64_small, Z.shiftr_div_pow2, Z.div_mul by (unfold in_i64; lia). done.
Qed.

(** ** A download of two nodes and a code *)
Module DemoSync.
Import DemoDB.
#[local] Existing Instance canonical_iter.
Fixpoint push (q : list (bytes * Z)) (h : bytes) (p : Z) : list (bytes * Z) :=
  match q with
  | [] => [(h, p)]
  | (h', p') :: q' => if bool_decide (p' < p) then (h, p) :: q else (h', p') :: push q' h p
  end.
#[local] Instance demo_queue : PrQue := {|
  prque := list (bytes * Z); prque_New := []; prque_Push := push; prque_Peek := head; prque_Pop := tail; prque_Size := length |}.
#[local] Instance demo_queue_laws : PrQueLaws.
Proof. split; intros [|? ?]; cbn; split || intros []; try done; by eexists. Qed.

Definition emptyRoot : bytes := replicate 32 5.
Definition code : bytes := replicate 32 3.
Definition callbacks (_ : nat) (_ : list bytes) (_ _ h : bytes) : list sync_call * bool := ([CallCodeEntry code [] h], false).
Definition db : SyncStore := mkStore ∅ ∅.
Definition result {A} (d : A) (m : go A) : A := match m with Ret a => a | Halt _ => d end.
Definition nothing : Sync := mkSync ∅ ∅ ∅ ∅ ∅ [] ∅.
Definition s0 : Sync := result nothing (NewSync emptyRoot root_hash db (Some 0%nat)).
Definition missing (s : Sync) : Sync := (result ([], [], [], nothing) (Missing 0 s)).2.
Definition process (h d : bytes) (s : Sync) : Sync := (result (nothing, None) (Process emptyRoot emptyRoot callbacks db h d s)).1.
Definition s1 : Sync := process root_hash (wire branch) (missing s0).
Definition s2 : Sync := process code [96; 1] (process leaf_hash (wire leaf) s1).

Lemma starts : NewSync emptyRoot root_hash db (Some 0%nat) = Ret s0.
Proof. by vm_compute. Qed.
Lemma runs : rtc (sync_step emptyRoot emptyRoot callbacks) (db, s0) (db, s2).
Proof.
  eapply rtc_l; [apply (step_Missing _ _ _ db s0 0 [root_hash] [[[0]]] [] (missing s0)); by vm_compute|].
  eapply rtc_l; [apply (step_Process _ _ _ db (missing s0) root_hash (wire branch) s1 None); [by vm_compute|done]|].
  eapply rtc_l; [apply (step_Process _ _ _ db s1 leaf_hash (wire leaf) (process leaf_hash (wire leaf) s1) None); [by vm_compute|done]|].
  apply rtc_once, (step_Process _ _ _ db _ code [96; 1] s2 None); [by vm_compute|done].
Qed.
Lemma leaf_below : reaches (db_nodes (flushed db s2)) root_hash leaf_hash.
Proof.
  apply (reaches_below _ _ root_hash (wire branch)); [constructor|by vm_compute|].
  exists branch. split; [by vm_compute|]. refine (bool_decide_unpack _ _). by vm_compute.
Qed.

(** When the callback fails, the node has its data and stays pending: the
    same data is refused when it comes again, nothing is left to ask for, and
    two nodes never complete. *)
Definition failing (_ : nat) (_ : list bytes) (_ _ _ : bytes) : list sync_call * bool := ([], true).
Definition reply (h d : bytes) (s : Sync) : Sync * option sync_err := result (nothing, None) (Process emptyRoot emptyRoot failing db h d s).
Definition stuck : Sync := (reply leaf_hash (wire leaf) s1).1.
Example callback_failure_sticks :
  (reply leaf_hash (wire leaf) s1).2 = Some ErrCallback ∧ (reply leaf_hash (wire leaf) (missing stuck)).2 = Some ErrAlreadyProcessed ∧
  Pending stuck = 2 ∧ prque_Size (queue (missing stuck)) = 0%nat.
Proof. by vm_compute. Qed.
End DemoSync.
#[local] Existing Instances DemoSync.demo_queue DemoSync.demo_queue_laws.

Lemma sync_never_gaps_witness :
  db_codes (flushed (MI := canonical_iter) DemoSync.db DemoSync.s2) !! DemoSync.code = Some [96; 1] ∧
  is_Some (db_nodes (flushed (MI := canonical_iter) DemoSync.db DemoSync.s2) !! DemoDB.leaf_hash).
Proof.
  destruct (sync_never_gaps (PQ := DemoSync.demo_queue) (MI := canonical_iter) DemoSync.emptyRoot DemoSync.emptyRoot DemoSync.callbacks
    DemoDB.root_hash (Some 0%nat) DemoSync.db DemoSync.s0 DemoSync.db DemoSync.s2) as (_ & _ & H).
  - intros cb paths path v h c Hc. cbn in Hc. apply list_elem_of_singleton in Hc as ->. by right.
  - intros h d c. cbn. by rewrite lookup_empty.
  - exact DemoSync.starts.
  - exact DemoSync.runs.
  - split; [by vm_compute|]. apply H; [by vm_compute|discriminate|exact DemoSync.leaf_below].
Defined.
