(* ===== verification/StateRoot.v ===== *)
(** * From a shard's response to the root of the new block
    ([analyseStates] of src/committee/worker.go, composed with
    [rebuildTrie]).

    The response carries the accounts a block touches and their proofs; the
    nodes of the proofs go into one store, and the root is rebuilt from it
    after the block's execution. *)
From S2P Require Import Prelude Core Utils Encoding Node Rebuild Trie MerkleProof.
Local Open Scope Z_scope.

Section state_root.
Context `{RLP} `{MI : MapIter}.
(** [utils.GetHash], [rlp.EncodeToBytes] and [rlp.DecodeBytes] of accounts. *)
Variable GetHash : bytes → bytes.
Variable EncodeToBytes : StateAccount → option bytes.
Variable DecodeBytes : bytes → option StateAccount.

(** One proof element: decoded unless its hash is known already.  The
    nesting of a node is bounded by the length of its encoding. *)
Definition analyse_proof (hash2Node : gmap bytes Node) (encodedNode : bytes) : go (gmap bytes Node) :=
  let hash := GetHash encodedNode in
  match hash2Node !! hash with
  | Some _ => Ret hash2Node
  | None =>
      node ← MustDecodeNode (length encodedNode) encodedNode;
      Ret (<[hash := node]> hash2Node)
  end.

Definition analyse_account (proofs : gmap bytes (list bytes))
    (acc : gmap bytes StateAccount * gmap bytes Node) (ad : bytes * bytes) :
    go (gmap bytes StateAccount * gmap bytes Node) :=
  let '(addr2State, hash2Node) := acc in
  let '(addr, encodedState) := ad in
  state ← or_exit "rlp encode fail" (DecodeBytes encodedState);
  hash2Node ← go_fold analyse_proof hash2Node (default [] (proofs !! addr));
  Ret (<[addr := state]> addr2State, hash2Node).

Definition analyseStates (states : ShardSendState) :
    go (gmap bytes StateAccount * gmap bytes Node) :=
  go_fold (analyse_account (AccountsProofs states)) (∅, ∅) (map_iter (AccountData states)).

Context `{!RLPLaws}.
Abbreviation flat := (flat GetHash).
Abbreviation nhash := (nhash GetHash).

(** Digests are 32 bytes. *)
Hypothesis digest : ∀ b, Forall in_u8 (GetHash b) ∧ length (GetHash b) = 32%nat.

Section trie.
(** The trie of the shard. *)
Variable n : Node.
Hypothesis Hwf : wf_tree n 64.
Hypothesis Hhashed : hashed_nodes GetHash n.
(** No two positions of the trie have the same hash. *)
Hypothesis Hdistinct : NoDup (nhash <$> subtrees n).

Lemma nhash_inj s s' : s ∈ subtrees n → s' ∈ subtrees n → nhash s = nhash s' → s = s'.
Proof.
  intros [i Hi]%list_elem_of_lookup [j Hj]%list_elem_of_lookup Heq.
  assert (i = j) as ->; [|congruence].
  apply (NoDup_lookup _ _ _ (nhash s) Hdistinct); [by rewrite list_lookup_fmap, Hi|by rewrite list_lookup_fmap, Hj, Heq].
Qed.

Lemma sub_wf s : s ∈ subtrees n → ∃ m, wf_tree s m.
Proof. pose proof (subtrees_wf n 64 Hwf) as HF. rewrite Forall_forall in HF. apply HF. Qed.

Lemma sub_hash s : s ∈ subtrees n → nhash s = GetHash (wire (flat s)).
Proof. intros [m Hm]%sub_wf. by eapply nhash_wire. Qed.

(** ** The store holds the nodes of the proofs *)

(** [h2n] holds the subtrees of [l]. *)
Definition holds (h2n : gmap bytes Node) (l : list Node) : Prop :=
  ∀ h m, h2n !! h = Some m ↔ ∃ s, s ∈ l ∧ h = nhash s ∧ m = flat s.

Lemma analyse_proof_ok h2n l s :
  l ⊆ subtrees n → s ∈ subtrees n → holds h2n l →
  ∃ h2n', analyse_proof h2n (wire (flat s)) = Ret h2n' ∧ holds h2n' (s :: l).
Proof.
  intros Hl Hs Hh. unfold analyse_proof. rewrite <-sub_hash by done.
  destruct (h2n !! nhash s) as [m|] eqn:E.
  - exists h2n. split; [done|]. apply Hh in E as (s' & Hs' & Heq & ->).
    apply nhash_inj in Heq; [subst s'|done|by apply Hl].
    intros h m. rewrite (Hh h m). set_solver.
  - destruct (sub_wf s Hs) as [m Hm]. unfold MustDecodeNode.
    rewrite (decode_flat GetHash s m); [|done|by eapply hashed_nodes_self, hashed_nodes_sub].
    simpl. eexists. split; [done|]. intros h m'. rewrite lookup_insert_Some, (Hh h m').
    split.
    + intros [[<- <-]|[_ (s' & ? & ? & ?)]]; [exists s|exists s']; set_solver.
    + intros (s' & [->|Hs']%elem_of_cons & -> & ->); [by left|]. right. split; [|eauto].
      intros Heq. rewrite Heq in E.
      assert (h2n !! nhash s' = Some (flat s')) by (apply Hh; eauto). congruence.
Qed.

Lemma analyse_proofs_ok bs : ∀ h2n l,
  (∀ b, b ∈ bs → ∃ s, s ∈ subtrees n ∧ b = wire (flat s)) → l ⊆ subtrees n → holds h2n l →
  ∃ h2n' l', go_fold analyse_proof h2n bs = Ret h2n' ∧ holds h2n' l' ∧ l' ⊆ subtrees n ∧ l ⊆ l' ∧
    (∀ s, s ∈ l' → s ∈ l ∨ wire (flat s) ∈ bs) ∧ ∀ b, b ∈ bs → ∃ s, s ∈ l' ∧ b = wire (flat s).
Proof.
  induction bs as [|b bs IH]; intros h2n l Hb Hl Hh; cbn [go_fold].
  { exists h2n, l. split_and!; [done..|by left|set_solver]. }
  destruct (Hb b) as (s & Hs & ->); [by left|].
  destruct (analyse_proof_ok h2n l s) as (h1 & -> & Hh1); [done..|]. simpl mbind.
  destruct (IH h1 (s :: l)) as (h2 & l' & Hf & Hh2 & Hl' & Hsub & Hback & Hall);
    [intros; apply Hb; by right|set_solver|done|].
  exists h2, l'. split_and!; [done..|set_solver| |].
  - intros s' [Hin|?]%Hback; [|right; by right]. apply elem_of_cons in Hin as [->|?]; [right; by left|by left].
  - intros b [->|?]%elem_of_cons; [|by apply Hall]. exists s. split; [set_solver|done].
Qed.

Context (states : ShardSendState).
Hypothesis Hresp : honest_response GetHash n states.
Hypothesis Hdecodable : ∀ addr enc, AccountData states !! addr = Some enc → is_Some (DecodeBytes enc).

(** The nodes an honest response carries. *)
Lemma response_nodes addr data b :
  AccountData states !! addr = Some data →
  b ∈ default [] (AccountsProofs states !! addr) ↔
    ∃ s, s ∈ path n (keybytesToHex (GetHash addr)) ∧ b = wire (flat s).
Proof.
  intros Ha. destruct Hresp as [_ Hr]. destruct (Hr _ _ Ha) as [_ ->].
  destruct (Prove_spec GetHash n 64 (GetHash addr) Hwf Hhashed) as [Hv Hd]. split.
  - intros [h (s & ? & _ & ->)%Hv]. eauto.
  - intros (s & Hs & ->). destruct (Hd s Hs) as [e He]. exists (nhash s). rewrite He.
    apply Hv in He as (s' & Hs' & Heq & ->). do 2 f_equal.
    apply nhash_inj in Heq; [by subst|by eapply path_subtrees..].
Qed.

(** What the first [l] entries of the response leave. *)
Lemma analyse_accounts_ok ads : ∀ a0 h0 l0,
  (∀ addr data, (addr, data) ∈ ads → AccountData states !! addr = Some data) → NoDup ads.*1 →
  holds h0 l0 → l0 ⊆ subtrees n →
  ∃ a h l, go_fold (analyse_account (AccountsProofs states)) (a0, h0) ads = Ret (a, h) ∧
    holds h l ∧ l ⊆ subtrees n ∧ l0 ⊆ l ∧
    (∀ addr data, (addr, data) ∈ ads → path n (keybytesToHex (GetHash addr)) ⊆ l ∧ a !! addr = DecodeBytes data) ∧
    (∀ addr, addr ∉ ads.*1 → a !! addr = a0 !! addr).
Proof.
  induction ads as [|[addr data] ads IH]; intros a0 h0 l0 Hads Hnd Hh Hl; cbn [go_fold].
  { exists a0, h0, l0. split_and!; try done. set_solver. }
  assert (AccountData states !! addr = Some data) as Ha by (apply Hads; by left).
  apply NoDup_cons in Hnd as [Hni Hnd]. cbn [analyse_account].
  destruct (Hdecodable addr data Ha) as [st Hst]. rewrite Hst. simpl mbind.
  destruct (analyse_proofs_ok (default [] (AccountsProofs states !! addr)) h0 l0) as (h1 & l1 & -> & Hh1 & Hl1 & Hsub & _ & Hall);
    [intros b (s & ?%path_subtrees & ->)%(response_nodes addr data b Ha); eauto|done..|].
  simpl mbind.
  destruct (IH (<[addr:=st]> a0) h1 l1) as (a & h & l & Hf & Hh2 & Hl2 & Hsub2 & Hin & Hout); [set_solver|done..|].
  exists a, h, l. split_and!; [done..|set_solver| |].
  - intros addr' data' [[= -> ->]|Hin']%elem_of_cons; [|by apply Hin]. split.
    + intros s Hs. destruct (Hall (wire (flat s))) as (s' & Hs' & Heq).
      { apply (response_nodes addr data); eauto. }
      assert (s ∈ subtrees n) as Hsn by (by eapply path_subtrees). pose proof (Hl1 _ Hs') as Hsn'.
      assert (s = s') as ->; [|by apply Hsub2]. apply nhash_inj; [done..|]. by rewrite !sub_hash, Heq.
    + rewrite Hout by done. by rewrite lookup_insert_eq, Hst.
  - intros addr' [Hne Hni']%not_elem_of_cons. rewrite Hout by done. by rewrite lookup_insert_ne.
Qed.

Lemma analyseStates_ok :
  ∃ a h l, analyseStates states = Ret (a, h) ∧ holds h l ∧ l ⊆ subtrees n ∧
    (∀ addr data, AccountData states !! addr = Some data →
      path n (keybytesToHex (GetHash addr)) ⊆ l) ∧
    (∀ addr, a !! addr = AccountData states !! addr ≫= DecodeBytes).
Proof.
  destruct (analyse_accounts_ok (map_iter (AccountData states)) ∅ ∅ []) as (a & h & l & Hf & Hh & Hl & _ & Hin & Hout).
  - intros addr data. by rewrite elem_of_map_iter.
  - apply NoDup_fst_map_iter.
  - intros h m. rewrite lookup_empty. set_solver.
  - set_solver.
  - exists a, h, l. split_and!; [done..| |].
    + intros addr data Ha. by apply (Hin addr data), elem_of_map_iter.
    + intros addr. destruct (AccountData states !! addr) as [data|] eqn:Ha; simpl.
      * by apply Hin, elem_of_map_iter.
      * rewrite Hout; [done|]. rewrite elem_of_map_iter_fst, Ha. by intros [? ?].
Qed.

(** ** The store is enough to rebuild the root *)
Section rebuilt.
Context (U : gmap bytes StateAccount) (h2n : gmap bytes Node) (l : list Node).
Hypothesis Hholds : holds h2n l.
Hypothesis Hsub : l ⊆ subtrees n.
(** Only accounts of the response are updated. *)
Hypothesis HU : ∀ k a, U !! k = Some a → ∃ addr data, k = GetHash addr ∧ AccountData states !! addr = Some data.
Hypothesis Hpaths : ∀ addr data, AccountData states !! addr = Some data →
  path n (keybytesToHex (GetHash addr)) ⊆ l.

(** [s] sits at [p] in the trie. *)
Definition located (p : bytes) (s : Node) : Prop := ∀ q x, x ∈ path s q → x ∈ path n (p ++ q).

Lemma path_self s m q : wf_tree s m → q ≠ [] → s ∈ path s q.
Proof.
  destruct s as [|cs|k v|h|v]; try done; intros _ Hq; cbn [path].
  - destruct q; [done|by left].
  - rewrite bool_decide_false by done. by left.
Qed.

Lemma missing_unchanged s m p :
  wf_tree s m → Forall nibble p → (length p + m = 64)%nat → located p s → h2n !! nhash s = None →
  upd_tree EncodeToBytes U p s = s.
Proof.
  intros Hw Hp Hlen Hloc Hnone. apply (upd_tree_same EncodeToBytes U s m); [done|].
  intros key v Hu Hg. destruct (tree_get_key s m key v Hw Hu Hg) as (ns & -> & Hns & Hm).
  unfold new_value. destruct (hexToKeybytes_even (p ++ ns)) as (k & Hk & Hkey & _).
  { by apply Forall_app. } { exists 32%nat. rewrite length_app. lia. }
  rewrite app_assoc, Hk. destruct (U !! k) as [a|] eqn:Ea; [|done].
  destruct (HU k a Ea) as (addr & data & -> & Ha).
  assert (s ∈ l) as Hin.
  { apply (Hpaths addr data Ha). rewrite Hkey, <-app_assoc. apply Hloc. eapply path_self; [done|]. by destruct ns. }
  assert (h2n !! nhash s = Some (flat s)) by (apply Hholds; eauto). congruence.
Qed.

Lemma stored_flat s m' : s ∈ subtrees n → h2n !! nhash s = Some m' → m' = flat s.
Proof. intros Hs (s' & Hs' & Heq & ->)%Hholds. apply nhash_inj in Heq; [by subst|done|by apply Hsub]. Qed.

Lemma recorded_located s : ∀ m p,
  wf_tree s m → Forall nibble p → (length p + m = 64)%nat → located p s →
  (∀ x, x ∈ subtrees s → x ∈ subtrees n) → recorded GetHash EncodeToBytes U h2n p s.
Proof.
  induction s as [|cs IH|k v IH|h|v] using Node_nested_ind; intros m p Hw Hp Hlen Hloc Hin; try done.
  - cbn [recorded]. destruct (h2n !! nhash (FullNode cs)) as [m'|] eqn:E; [|by eapply missing_unchanged].
    split; [apply stored_flat; [apply Hin; by left|done]|].
    pose proof Hw as (Hl & Hm & H16 & Hcs%wf_tree_children). fold (recorded_children GetHash EncodeToBytes U h2n p).
    assert (∀ j c, cs !! j = Some c → recorded GetHash EncodeToBytes U h2n (p ++ [Z.of_nat j]) c) as Hj.
    { intros j c Hc. pose proof (list_elem_of_lookup_2 _ _ _ Hc) as Hcin. rewrite Forall_forall in IH, Hcs.
      destruct (Hcs c Hcin) as [->|Hwc]; [done|].
      assert (0 + j < 16)%nat as Hj by (eapply slot16_nil; [done..|]; by intros ->).
      apply (IH c Hcin (m - 1)%nat); [done| | | |].
      - apply Forall_app. split; [done|]. repeat constructor; lia.
      - rewrite length_app. simpl. lia.
      - intros q x Hx. rewrite <-app_assoc. apply Hloc. cbn [app path]. right. rewrite Nat2Z.id.
        by rewrite (nth_map_lookup _ _ _ _ _ Hc).
      - intros x Hx. apply Hin. by eapply subtrees_child. }
    assert (∀ i cs', (∀ j c, cs' !! j = Some c → recorded GetHash EncodeToBytes U h2n (p ++ [Z.of_nat (i + j)]) c) →
      recorded_children GetHash EncodeToBytes U h2n p i cs') as Hrc.
    { intros i cs'. revert i. induction cs' as [|c cs' IHc]; intros i Hc; [done|]. split.
      - specialize (Hc 0%nat c eq_refl). by rewrite Nat.add_0_r in Hc.
      - apply IHc. intros j c' Hj'. specialize (Hc (S j) c' Hj'). by replace (S i + j)%nat with (i + S j)%nat by lia. }
    by apply Hrc.
  - cbn [recorded]. destruct (h2n !! nhash (ShortNode k v)) as [m'|] eqn:E; [|by eapply missing_unchanged].
    split; [apply stored_flat; [apply Hin; by left|done]|].
    pose proof (wf_tree_short _ _ _ Hw) as [(x & ns & -> & _)|(Hv & Hk & Hkl & Hwv)]; [done|].
    apply (IH (m - length k)%nat); [done|by apply Forall_app|rewrite length_app; lia| |intros; apply Hin; by right].
    intros q x Hx. rewrite <-app_assoc. apply Hloc. cbn [path].
    rewrite bool_decide_false by (destruct k; [simpl in Hkl; lia|done]). right.
    by rewrite take_app_length, decide_True, drop_app_length.
Qed.

Lemma visited_sub s : visited GetHash h2n s `sublist_of` (nhash <$> subtrees s).
Proof.
  induction s as [|cs IH|k v IH|h|v] using Node_nested_ind; try done; cbn [visited subtrees].
  - destruct (h2n !! nhash (FullNode cs)); [|apply sublist_nil_l]. rewrite fmap_cons. apply sublist_skip.
    induction IH as [|c cs Hc _ IHcs]; cbn [map concat]; [done|]. rewrite fmap_app. by apply sublist_app.
  - destruct (h2n !! nhash (ShortNode k v)); [|apply sublist_nil_l]. rewrite fmap_cons. by apply sublist_skip.
Qed.
End rebuilt.
End trie.

Lemma state_root_ok n states U :
  wf_tree n 64 → hashed_nodes GetHash n → NoDup (nhash <$> subtrees n) → honest_response GetHash n states →
  (∀ addr enc, AccountData states !! addr = Some enc → is_Some (DecodeBytes enc)) →
  (∀ k a, U !! k = Some a → is_Some (EncodeToBytes a)) →
  (∀ k a, U !! k = Some a → ∃ addr data, k = GetHash addr ∧ AccountData states !! addr = Some data) →
  ∃ addr2State h2n h2n' n',
    analyseStates states = Ret (addr2State, h2n) ∧
    (∀ addr, addr2State !! addr = AccountData states !! addr ≫= DecodeBytes) ∧
    rebuildTrie GetHash EncodeToBytes 65 (StatusTrieHash states) h2n U = Ret (nhash n', h2n') ∧
    wf_tree n' 64 ∧ (canon n → canon n') ∧
    ∀ k, Forall in_u8 k → tree_get n' (keybytesToHex k) =
      (λ v, match U !! k with Some a => default v (EncodeToBytes a) | None => v end) <$>
        tree_get n (keybytesToHex k).
Proof.
  intros Hw Hh Hd Hr Hdec Henc HU.
  destruct (analyseStates_ok n Hw Hh Hd states Hr Hdec) as (a & h2n & l & Ha & Hholds & Hsub & Hp & Hacc).
  assert (recorded GetHash EncodeToBytes U h2n [] n) as Hrec.
  { apply (recorded_located n Hd states U h2n l Hholds Hsub HU Hp n 64%nat); auto. by intros q x. }
  destruct (rebuilds_all GetHash EncodeToBytes U Henc n 65 (wf_tree_depth n 64 Hw) 64%nat [] h2n)
    as (h2n' & Hrun & _); [done|done|by exists 32%nat|done|eapply sublist_NoDup; [exact Hd|apply visited_sub]|].
  exists a, h2n, h2n', (upd_tree EncodeToBytes U [] n). split_and!; [done..| | | |].
  - unfold rebuildTrie. rewrite (proj1 Hr), Hrun. simpl. rewrite BytesToHash_id; [done|].
    rewrite (nhash_wire GetHash _ 64) by (by apply upd_tree_wf). apply digest.
  - by apply upd_tree_wf.
  - apply upd_tree_canon.
  - intros k Hk. rewrite upd_tree_get.
    + simpl. destruct (tree_get n (keybytesToHex k)); [simpl; f_equal|done].
      unfold new_value. by rewrite hexToKeybytes_keybytes.
    + unfold keybytesToHex. apply Forall_app. split; [|repeat constructor; unfold in_u8; lia].
      eapply Forall_impl; [by apply nibbles_of_nibble|]. unfold nibble, in_u8. intros; lia.
Qed.
(** C16. The root a committee computes without the state: from an honest
    response of the shard, the worker decodes the accounts it carries and
    then computes, from the proof nodes alone, the root hash of a trie in
    which exactly the updated accounts have their new encoding and every
    other key has the value it had. *)
Theorem state_root_from_proofs n states U :
  wf_tree n 64 → hashed_nodes GetHash n → NoDup (nhash <$> subtrees n) → honest_response GetHash n states →
  (∀ addr enc, AccountData states !! addr = Some enc → is_Some (DecodeBytes enc)) →
  (∀ k a, U !! k = Some a → is_Some (EncodeToBytes a)) →
  (∀ k a, U !! k = Some a → ∃ addr data, k = GetHash addr ∧ AccountData states !! addr = Some data) →
  ∃ addr2State h2n h2n' n',
    analyseStates states = Ret (addr2State, h2n) ∧
    (∀ addr, addr2State !! addr = AccountData states !! addr ≫= DecodeBytes) ∧
    rebuildTrie GetHash EncodeToBytes 65 (StatusTrieHash states) h2n U = Ret (nhash n', h2n') ∧
    wf_tree n' 64 ∧
    ∀ k, Forall in_u8 k → tree_get n' (keybytesToHex k) =
      (λ v, match U !! k with Some a => default v (EncodeToBytes a) | None => v end) <$>
        tree_get n (keybytesToHex k).
Proof.
  intros H1 H2 H3 H4 H5 H6 H7. destruct (state_root_ok n states U) as (a & h & h' & n' & ? & ? & ? & ? & _ & ?); [done..|].
  by exists a, h, h', n'.
Qed.
End state_root.

(** ** A concrete shard: two accounts, and a response about one of them *)
Module DemoTrie.
(** A digest of 32 bytes. *)
Definition toy_hash (b : bytes) : bytes :=
  rev (be_bytes 32 (foldl (λ acc x, acc * 257 + 17 * (x + 1)) 0 b)).
Definition toy_encode (a : StateAccount) : option bytes :=
  Some (be_bytes 32 (aNonce a) ++ be_bytes (S (Z.to_nat (Z.log2 (Balance a) / 8))) (Balance a)).
Definition toy_decode (b : bytes) : option StateAccount :=
  if bool_decide (32 < length b)%nat
  then Some (mkStateAccount (be_value (take 32 b)) (be_value (drop 32 b)) [] []) else None.

Definition leaf (addr : bytes) (a : StateAccount) : Node :=
  ShortNode (drop 1 (keybytesToHex (toy_hash addr))) (ValueNode (default [] (toy_encode a))).
Definition leaf1 : Node := leaf [1] (mkStateAccount 4 100 [] []).
Definition leaf2 : Node := leaf [2] (mkStateAccount 0 7 [] []).
Definition trie : Node := FullNode ([NilNode; NilNode; leaf1; leaf2] ++ replicate 13 NilNode).

Definition data1 : bytes := default [] (tree_get trie (keybytesToHex (toy_hash [1]))).
Definition response : ShardSendState := shard_answer toy_hash trie 3 [[1]].
Definition updated : gmap bytes StateAccount := {[ toy_hash [1] := mkStateAccount 5 80 [] [] ]}.

Lemma toy_digest b : Forall in_u8 (toy_hash b) ∧ length (toy_hash b) = 32%nat.
Proof.
  unfold toy_hash. split; [|by rewrite length_rev, length_be_bytes].
  rewrite Forall_forall. intros x Hx. rewrite list_elem_of_In, <-in_rev, <-list_elem_of_In in Hx.
  eapply Forall_forall; [|exact Hx]. apply be_bytes_in_u8.
Qed.

Lemma wf_digest b : wf (HashNode (toy_hash b)).
Proof. destruct (toy_digest b) as [? Hl]. split; [done|]. unfold len. by rewrite Hl. Qed.

Lemma leaf_keys addr :
  addr = [1] ∨ addr = [2] →
  ∃ ns, drop 1 (keybytesToHex (toy_hash addr)) = ns ++ [16] ∧ Forall nibble ns ∧ length ns = 63%nat.
Proof.
  intros Ha. exists (drop 1 (nibbles_of (toy_hash addr))). destruct (toy_digest addr) as [Hu Hl]. split_and!.
  - unfold keybytesToHex. rewrite drop_app_le; [done|]. rewrite length_nibbles_of. lia.
  - by apply Forall_drop, nibbles_of_nibble.
  - rewrite length_drop, length_nibbles_of. lia.
Qed.

Lemma trie_wf : wf_tree trie 64.
Proof.
  split_and!; [reflexivity|lia|reflexivity|]. cbn [foldr app replicate].
  split_and!; try exact I; try (by left); right; apply leaf_keys; auto.
Qed.

Lemma trie_hashed : hashed_nodes toy_hash trie.
Proof.
  assert (∀ addr a, addr = [1] ∨ addr = [2] →
    rlp_ok (compact_of (drop 1 (keybytesToHex (toy_hash addr)))) →
    rlp_ok (WriteBytes (compact_of (drop 1 (keybytesToHex (toy_hash addr)))) ++ wire (ValueNode (default [] (toy_encode a)))) →
    rlp_ok (default [] (toy_encode a)) → wf_node (leaf addr a)) as Hleaf.
  { intros addr a Haddr Hk Hkv Hv. destruct (leaf_keys addr Haddr) as (ns & Hns & HF & _).
    split; [|done]. cbn [leaf wf]. split_and!; try done. exists ns. auto. }
  unfold hashed_nodes. change (subtrees trie) with [trie; leaf1; leaf2].
  repeat (apply Forall_cons; split); [| | |constructor]; (split; [|vm_compute; discriminate]).
  - split; [|done]. split_and!.
    + apply rlp_ok_small; vm_compute; reflexivity.
    + exists (map (ref toy_hash) ([NilNode; NilNode; leaf1; leaf2] ++ replicate 12 NilNode)), NilNode.
      split_and!; [reflexivity..| |exact I]. repeat (apply Forall_cons; split); try (by intros ?). constructor.
    + cbn [map app replicate foldr Rebuild.ref leaf1 leaf2 leaf]. split_and!; try done; apply wf_digest.
  - apply Hleaf; [by left|apply rlp_ok_small; vm_compute; reflexivity..].
  - apply Hleaf; [by right|apply rlp_ok_small; vm_compute; reflexivity..].
Qed.

Lemma trie_distinct : NoDup (nhash toy_hash <$> subtrees trie).
Proof. by_compute. Qed.

Lemma trie_distinct_nodes : distinct_nodes toy_hash trie.
Proof. intros s s' Hs Hs' Heq. by rewrite (nhash_inj toy_hash trie trie_distinct s s'). Qed.

Lemma response_collision_free address :
  collision_free toy_hash (default [] (AccountsProofs response !! address)) trie.
Proof.
  pose proof (shard_answer_honest toy_hash trie 3 [[1]]) as Hr. fold response in Hr.
  destruct (AccountData response !! address) as [data|] eqn:E.
  - by eapply (honest_collision_free toy_hash trie response address data trie_wf trie_hashed trie_distinct_nodes Hr).
  - apply eq_None_not_Some in E. unfold response in *. rewrite shard_answer_data in E. cbn [shard_answer AccountsProofs].
    rewrite (lookup_list_to_map_fun (λ a, (map_to_list (Prove toy_hash trie (toy_hash a))).*2)).
    rewrite decide_False by done. by intros b s ?%elem_of_nil.
Qed.
End DemoTrie.

Lemma getStatusFromShard_complete_witness :
  getStatusFromShard (MI := canonical_iter) DemoTrie.toy_hash 65 DemoTrie.response = Ret DemoTrie.response.
Proof.
  apply (getStatusFromShard_complete (MI := canonical_iter) DemoTrie.toy_hash DemoTrie.toy_digest 65 DemoTrie.trie).
  - apply DemoTrie.trie_wf.
  - apply DemoTrie.trie_hashed.
  - apply DemoTrie.trie_distinct_nodes.
  - vm_compute; lia.
  - apply shard_answer_honest.
Defined.

Lemma getStatusFromShard_sound_witness :
  DemoTrie.data1 = default [] (tree_get DemoTrie.trie (keybytesToHex (DemoTrie.toy_hash [1]))).
Proof.
  refine (proj2 (getStatusFromShard_sound (MI := canonical_iter) DemoTrie.toy_hash DemoTrie.toy_digest 65
    DemoTrie.trie DemoTrie.response DemoTrie.response _ _ _ _ _ _) [1] DemoTrie.data1 _).
  - apply DemoTrie.trie_wf.
  - apply DemoTrie.trie_hashed.
  - vm_compute; lia.
  - reflexivity.
  - apply DemoTrie.response_collision_free.
  - vm_compute. reflexivity.
  - reflexivity.
Defined.

Lemma state_root_from_proofs_witness :
  ∃ addr2State h2n h2n' n',
    analyseStates (MI := canonical_iter) DemoTrie.toy_hash DemoTrie.toy_decode DemoTrie.response = Ret (addr2State, h2n) ∧
    (∀ addr, addr2State !! addr = AccountData DemoTrie.response !! addr ≫= DemoTrie.toy_decode) ∧
    rebuildTrie DemoTrie.toy_hash DemoTrie.toy_encode 65 (StatusTrieHash DemoTrie.response) h2n DemoTrie.updated =
      Ret (nhash DemoTrie.toy_hash n', h2n') ∧
    wf_tree n' 64 ∧
    ∀ k, Forall in_u8 k → tree_get n' (keybytesToHex k) =
      (λ v, match DemoTrie.updated !! k with Some a => default v (DemoTrie.toy_encode a) | None => v end) <$>
        tree_get DemoTrie.trie (keybytesToHex k).
Proof.
  apply (state_root_from_proofs (MI := canonical_iter) DemoTrie.toy_hash DemoTrie.toy_encode DemoTrie.toy_decode
    DemoTrie.toy_digest DemoTrie.trie DemoTrie.response DemoTrie.updated).
  - apply DemoTrie.trie_wf.
  - apply DemoTrie.trie_hashed.
  - apply DemoTrie.trie_distinct.
  - apply shard_answer_honest.
  - intros addr enc Ha. unfold DemoTrie.response in Ha. pose proof (proj1 (shard_answer_data _ _ _ _ addr) (mk_is_Some _ _ Ha)) as Hin.
    apply list_elem_of_singleton in Hin as ->.
    assert (Some DemoTrie.data1 = Some enc) as [= <-] by (by rewrite <-Ha). vm_compute. eauto.
  - intros k a _. eexists. reflexivity.
  - intros k a Hk. unfold DemoTrie.updated in Hk. apply lookup_singleton_Some in Hk as [<- _].
    exists [1], DemoTrie.data1. split; reflexivity.
Defined.
