(* ===== verification/Reconfig.v ===== *)
(** * Reconfiguration (src/node/reconfig.go, the reconfiguration messages of
    src/core/msg.go).

    Every so often the nodes are redistributed over the committees.  Each
    node draws a verifiable random value from a seed of the beacon chain, the
    leaders collect the values of their members and exchange them, and every
    node then computes the new table of all committees by itself: it groups
    the results by the new committee, which ranges over a map, and sorts each
    group with [sort.Slice], which is not stable.  The tables must agree
    nevertheless. *)
From S2P Require Import Prelude Core Utils Account.
Local Open Scope Z_scope.

(** ** [sort.Slice] *)

(** [sort.Slice] sorts, in no particular order among equals, when [less] is
    a strict weak order. *)
Record strict_weak {A} (less : A → A → bool) : Prop := {
  sw_asym x y : less x y = true → less y x = false;
  sw_trans x y z : less y x = false → less z y = false → less z x = false
}.
Class SortSlice := {
  sort_slice : ∀ {A}, (A → A → bool) → list A → list A;
  sort_slice_perm : ∀ {A} (less : A → A → bool) l, sort_slice less l ≡ₚ l;
  sort_slice_sorted : ∀ {A} (less : A → A → bool) l,
    strict_weak less → StronglySorted (λ x y, less y x = false) (sort_slice less l)
}.

(** ** Messages *)
Record ReconfigResult := mkReconfigResult {
  rrSeed : bytes;
  rrSeedHeight : Z;
  rrVrf : bytes;
  rrAddr : bytes;
  OldNodeInfo : NodeInfo;
  Belong_ComID : Z;
  NewComID : Z
}.
#[global] Instance ReconfigResult_eq_dec : EqDecision ReconfigResult.
Proof. solve_decision. Defined.
Record ComReconfigResults := mkComResults {
  crComID : Z;
  Results : list ReconfigResult;
  crComNodeNum : Z
}.
Record InitReconfig := mkInitReconfig {
  irSeed : bytes;
  irSeedHeight : Z;
  irComID : Z;
  irComNodeNum : Z
}.

(** ** The node

    The fields of [Node] that reconfiguration reads or writes; nil slices,
    maps and pointers are [None].  [pbftInfo] is [pbftNode.NodeInfo]. *)
Record ReconfigNode := mkNode {
  nInfo : NodeInfo;
  pbftInfo : NodeInfo;
  shardNum : Z;
  comAllNodeNum : Z;
  reconfigMode : string;
  reconfigResult : option ReconfigResult;
  reconfigResults : option (list ReconfigResult);
  com2ReconfigResults : option (gmap Z ComReconfigResults)
}.
Definition set_results (l : option (list ReconfigResult)) (n : ReconfigNode) : ReconfigNode :=
  mkNode (nInfo n) (pbftInfo n) (shardNum n) (comAllNodeNum n) (reconfigMode n) (reconfigResult n) l
    (com2ReconfigResults n).
Definition set_com2Results (m : option (gmap Z ComReconfigResults)) (n : ReconfigNode) : ReconfigNode :=
  mkNode (nInfo n) (pbftInfo n) (shardNum n) (comAllNodeNum n) (reconfigMode n) (reconfigResult n)
    (reconfigResults n) m.
Definition set_reconfigResult (r : ReconfigResult) (n : ReconfigNode) : ReconfigNode :=
  mkNode (nInfo n) (pbftInfo n) (shardNum n) (comAllNodeNum n) (reconfigMode n) (Some r)
    (reconfigResults n) (com2ReconfigResults n).
Definition updateNodeInfo (newNodeInfo : NodeInfo) (n : ReconfigNode) : ReconfigNode :=
  mkNode newNodeInfo newNodeInfo (shardNum n) (comAllNodeNum n) (reconfigMode n) (reconfigResult n)
    (reconfigResults n) (com2ReconfigResults n).
Definition set_comAllNodeNum (v : Z) (n : ReconfigNode) : ReconfigNode :=
  mkNode (nInfo n) (pbftInfo n) (shardNum n) v (reconfigMode n) (reconfigResult n)
    (reconfigResults n) (com2ReconfigResults n).

(** What the node calls on its committee and hands to the message hub. *)
Inductive action :=
  | SetOldTxPool
  | UpdateTbChainHeight (height : Z)
  | LeaderInit (data : InitReconfig)
  | SendResult (to : Z) (r : ReconfigResult)
  | SendResultsToLeaders (rs : ComReconfigResults)
  | SendResultsToNodes (m : gmap Z ComReconfigResults)
  | AdjustRecordedAddrs (addrs vrfs : list bytes) (seedHeight : Z)
  | ComStart (nodeID : Z)
  | SendNewTable (table : gmap Z (gmap Z string))
  | CopyOwnPool
  | GetPoolTx (server client : string) (comID : Z)
  | Sync (mode : string)
  | PbftReset
  | StartWorker.

Definition AddReconfigResult (res : ReconfigResult) (n : ReconfigNode) : go ReconfigNode :=
  if negb (bool_decide (nNodeID (nInfo n) = 0))
  then Halt (LogError "wrong invoking function. only leader node can invoke this function.")
  else match reconfigResults n with
       | None => Ret (set_results (Some [res]) n)
       | Some l =>
           last ← go_index l (len l - 1);
           if bool_decide (rrSeedHeight last < rrSeedHeight res)
           then Ret (set_results (Some [res]) n)
           else Ret (set_results (Some (l ++ [res])) n)
       end.

Section reconfig.
Context `{MI : MapIter} `{SS : SortSlice}.

(** [AddReconfigResults]: the loop over the map ends after one element,
    and an empty map changes nothing. *)
Definition AddReconfigResults (res : ComReconfigResults) (n : ReconfigNode) : go ReconfigNode :=
  match com2ReconfigResults n with
  | None => Ret (set_com2Results (Some {[ crComID res := res ]}) n)
  | Some m =>
      match map_iter m with
      | [] => Ret n
      | (_, last) :: _ =>
          l0 ← go_index (Results last) 0;
          r0 ← go_index (Results res) 0;
          if bool_decide (rrSeedHeight l0 < rrSeedHeight r0)
          then Ret (set_com2Results (Some {[ crComID res := res ]}) n)
          else match m !! crComID res with
               | Some _ => Halt (LogError "this committee's reconfig result has been received.")
               | None => Ret (set_com2Results (Some (<[crComID res := res]> m)) n)
               end
      end
  end.

Definition InitReconfig_op (data : InitReconfig) (n : ReconfigNode) : list action :=
  [SetOldTxPool;
   LeaderInit (mkInitReconfig (irSeed data) (irSeedHeight data) (irComID data) (u32 (comAllNodeNum n)))].

Definition HandleLeaderInitReconfig `{Cr : Crypto} (acc : W3Account) (data : InitReconfig) (n : ReconfigNode) :
    go (ReconfigNode * list action) :=
  vrf ← GenerateVRFOutput acc (irSeed data);
  let vrfValue := RandomValue vrf in
  newComId ← VrfValue2Shard vrfValue (u32 (shardNum n));
  let reply := mkReconfigResult (irSeed data) (irSeedHeight data) vrfValue (accountAddr acc)
                 (nInfo n) (irComID data) newComId in
  Ret (set_reconfigResult reply n,
       [UpdateTbChainHeight (irSeedHeight data); SendResult (irComID data) reply]).

Definition HandleSendReconfigResult2ComLeader (data : ReconfigResult) (n : ReconfigNode) :
    go (ReconfigNode * list action) :=
  n ← AddReconfigResult data n;
  let results := default [] (reconfigResults n) in
  if bool_decide (len results = comAllNodeNum n)
  then Ret (n, [SendResultsToLeaders (mkComResults (nComID (nInfo n)) results (u32 (comAllNodeNum n)))])
  else Ret (n, []).

Definition HandleSendReconfigResults2AllComLeaders (data : ComReconfigResults) (n : ReconfigNode) :
    go (ReconfigNode * list action) :=
  n ← AddReconfigResults data n;
  let m := default ∅ (com2ReconfigResults n) in
  if bool_decide (Z.of_nat (size m) = shardNum n) then Ret (n, [SendResultsToNodes m]) else Ret (n, []).

(** Grouping by the new committee. *)
Definition group_step (g : gmap Z (list ReconfigResult)) (res : ReconfigResult) :
    gmap Z (list ReconfigResult) :=
  <[NewComID res := default [] (g !! NewComID res) ++ [res]]> g.
Definition group_results (data : gmap Z ComReconfigResults) : gmap Z (list ReconfigResult) :=
  foldl (λ g kv, foldl group_step g (Results kv.2)) ∅ (map_iter data).

Definition vrf_less (a b : ReconfigResult) : bool := bytes_less (rrVrf a) (rrVrf b).
(** [newCom2Results] after the sort. *)
Definition newCom2Results (data : gmap Z ComReconfigResults) : gmap Z (list ReconfigResult) :=
  sort_slice vrf_less <$> group_results data.

(** The table of one committee: the index in the sorted group is the new
    node id (committees have fewer than 2^32 nodes). *)
Definition committee_table (rs : list ReconfigResult) : gmap Z string :=
  list_to_map (imap (λ i r, (Z.of_nat i, nNodeAddr (OldNodeInfo r))) rs).
Definition newComNodeTable (shardNum : Z) (g : gmap Z (list ReconfigResult)) : gmap Z (gmap Z string) :=
  list_to_map ((λ i, (Z.of_nat i, committee_table (default [] (g !! Z.of_nat i)))) <$>
    seq 0 (Z.to_nat (u32 shardNum))).

(** The body of the inner loop: the new identity of the local node, and the
    address of the old leader of its new committee.  [local] is the identity
    the loop started with. *)
Definition place_step (local : NodeInfo) (acc : ReconfigNode * string) (ir : Z * ReconfigResult) : go (ReconfigNode * string) :=
  let '(n, oldLeader) := acc in
  let '(newID, result) := ir in
  own ← deref (reconfigResult n);
  let n := if bool_decide (OldNodeInfo result = local)
           then updateNodeInfo (mkNodeInfo (nShardID local) (NewComID own) newID (nNodeAddr local)) n
           else n in
  Ret (n, if bool_decide (nComID (OldNodeInfo result) = NewComID own) &&
             bool_decide (nNodeID (OldNodeInfo result) = 0)
          then nNodeAddr (OldNodeInfo result) else oldLeader).
Definition placements (shardNum : Z) (g : gmap Z (list ReconfigResult)) : list (Z * ReconfigResult) :=
  seq 0 (Z.to_nat (u32 shardNum)) ≫= λ c, imap (λ i r, (Z.of_nat i, r)) (default [] (g !! Z.of_nat c)).

(** [EndReconfig], as the calls it makes. *)
Definition EndReconfig (g : gmap Z (list ReconfigResult)) (table : gmap Z (gmap Z string))
    (oldComLeaderAddr : string) (n : ReconfigNode) : go (ReconfigNode * list action) :=
  let comResults := default [] (g !! nComID (nInfo n)) in
  let n := set_comAllNodeNum (len comResults) n in
  if bool_decide (comAllNodeNum n < 4)
  then Halt (LogError "after reconfiguration, com has less than 4 nodes, not enough for pbft consensus")
  else
    let leader := IsComLeader (nNodeID (nInfo n)) in
    adjust ← (if leader then
                r0 ← go_index comResults 0;
                Ret [AdjustRecordedAddrs (rrAddr <$> comResults) (rrVrf <$> comResults) (rrSeedHeight r0)]
              else Ret []);
    let pool := if bool_decide (nNodeAddr (nInfo n) = oldComLeaderAddr) then CopyOwnPool
                else GetPoolTx oldComLeaderAddr (nNodeAddr (nInfo n)) (nComID (nInfo n)) in
    sync ← (if leader then
              if bool_decide (reconfigMode n ∈ ["lesssync"; "fullsync"; "fastsync"; "tMPTsync"])
              then Ret [Sync (reconfigMode n); PbftReset; StartWorker]
              else Halt (LogError "unknown reconfig mode")
            else Ret []);
    Ret (n, adjust ++ [SetOldTxPool; ComStart (nNodeID (nInfo n))] ++
            (if leader then [SendNewTable table] else []) ++ [pool] ++ sync).

Definition HandleSendReconfigResults2ComNodes (data : gmap Z ComReconfigResults) (n : ReconfigNode) :
    go (ReconfigNode * gmap Z (gmap Z string) * list action) :=
  let g := newCom2Results data in
  '(n', oldComLeaderAddr) ← go_fold (place_step (nInfo n)) (n, "") (placements (shardNum n) g);
  let table := newComNodeTable (shardNum n) g in
  '(n', out) ← EndReconfig g table oldComLeaderAddr n';
  Ret (n', table, out).

(** ** The order on random values *)
Lemma vrf_less_weak : strict_weak vrf_less.
Proof. split; unfold vrf_less; eauto using bytes_less_asym, bytes_le_trans. Qed.

(** ** Groups *)
Definition all_results (data : gmap Z ComReconfigResults) : list ReconfigResult :=
  map_to_list data ≫= λ kv, Results kv.2.

Lemma group_steps rs : ∀ g c,
  default [] (foldl group_step g rs !! c) = default [] (g !! c) ++ filter (λ r, NewComID r = c) rs ∧
  (foldl group_step g rs !! c = None ↔ g !! c = None ∧ filter (λ r, NewComID r = c) rs = []).
Proof.
  induction rs as [|r rs IH]; intros g c; simpl.
  { rewrite app_nil_r. naive_solver. }
  destruct (IH (group_step g r) c) as [-> ->]. unfold group_step. rewrite filter_cons.
  destruct (decide (NewComID r = c)) as [<-|Hne].
  - rewrite lookup_insert_eq. simpl. rewrite <-app_assoc. simpl. naive_solver.
  - by rewrite lookup_insert_ne.
Qed.

Lemma group_results_eq data :
  group_results data = foldl group_step ∅ (map_iter data ≫= λ kv, Results kv.2).
Proof.
  unfold group_results. generalize (∅ : gmap Z (list ReconfigResult)) as g.
  induction (map_iter data) as [|kv l IH]; intros g; simpl; [done|]. by rewrite foldl_app, IH.
Qed.

Lemma iter_results data : (map_iter data ≫= λ kv, Results kv.2) ≡ₚ all_results data.
Proof. unfold all_results. by rewrite map_iter_perm. Qed.

(** The members of a new committee, sorted. *)
Lemma newCom2Results_spec data c :
  let members := filter (λ r, NewComID r = c) (all_results data) in
  (newCom2Results data !! c = None ↔ members = []) ∧
  default [] (newCom2Results data !! c) ≡ₚ members ∧
  StronglySorted (λ x y, vrf_less y x = false) (default [] (newCom2Results data !! c)).
Proof.
  intros members. unfold newCom2Results. rewrite lookup_fmap, group_results_eq.
  destruct (group_steps (map_iter data ≫= λ kv, Results kv.2) ∅ c) as [Hd Hn].
  rewrite lookup_empty in Hd, Hn. simpl in Hd.
  assert (filter (λ r, NewComID r = c) (map_iter data ≫= λ kv, Results kv.2) ≡ₚ members) as Hp.
  { unfold members. by rewrite iter_results. }
  set (g := foldl group_step ∅ _) in *. split_and!.
  - rewrite fmap_None, Hn. split; [intros [_ E]; rewrite E in Hp; by apply Permutation_nil_l in Hp|].
    intros E. rewrite E in Hp. split; [done|]. by apply Permutation_nil_r in Hp.
  - rewrite <-Hp, <-Hd. destruct (g !! c); simpl; [apply sort_slice_perm|done].
  - destruct (g !! c); simpl; [apply sort_slice_sorted, vrf_less_weak|constructor].
Qed.
End reconfig.

(** Members of one new committee have different random values. *)
Definition distinct_vrfs (data : gmap Z ComReconfigResults) : Prop :=
  ∀ r r', r ∈ all_results data → r' ∈ all_results data → NewComID r = NewComID r' → rrVrf r = rrVrf r' → r = r'.

Lemma sorted_groups_agree (MI1 MI2 : MapIter) (SS1 SS2 : SortSlice) data :
  distinct_vrfs data →
  newCom2Results (MI := MI1) (SS := SS1) data = newCom2Results (MI := MI2) (SS := SS2) data.
Proof.
  intros Hd. apply map_eq. intros c.
  destruct (newCom2Results_spec (MI := MI1) (SS := SS1) data c) as (N1 & P1 & S1).
  destruct (newCom2Results_spec (MI := MI2) (SS := SS2) data c) as (N2 & P2 & S2).
  assert (default [] (newCom2Results (MI := MI1) (SS := SS1) data !! c) =
          default [] (newCom2Results (MI := MI2) (SS := SS2) data !! c)) as He.
  { apply (StronglySorted_unique_strong _ _ _) with (2 := S1) (3 := S2); [|by rewrite P1, P2].
    intros x y Hx Hy Hxy Hyx. rewrite P1 in Hx. rewrite P2 in Hy.
    apply list_elem_of_filter in Hx as [Hcx Hx], Hy as [Hcy Hy].
    apply Hd; [done..|congruence|]. by apply bytes_less_total. }
  destruct (newCom2Results (MI := MI1) data !! c) as [l1|] eqn:E1,
    (newCom2Results (MI := MI2) data !! c) as [l2|] eqn:E2; simpl in He; try congruence.
  - discriminate (proj2 N1 (proj1 N2 eq_refl)).
  - discriminate (proj2 N2 (proj1 N1 eq_refl)).
Qed.

(** C25. All nodes compute the same committees: whatever order the maps of two
    nodes are visited in and however their sorts treat equal keys, two nodes
    that handle the same set of results end with the same table of all
    committees, provided the members of each new committee drew different
    random values. *)
Theorem reconfig_tables_agree (MI1 MI2 : MapIter) (SS1 SS2 : SortSlice) data n1 n2 n1' n2' t1 t2 out1 out2 :
  distinct_vrfs data → shardNum n1 = shardNum n2 →
  HandleSendReconfigResults2ComNodes (MI := MI1) (SS := SS1) data n1 = Ret (n1', t1, out1) →
  HandleSendReconfigResults2ComNodes (MI := MI2) (SS := SS2) data n2 = Ret (n2', t2, out2) →
  t1 = t2.
Proof.
  intros Hd Hs H1 H2. unfold HandleSendReconfigResults2ComNodes in *.
  apply go_bind_Ret in H1 as ([n1a o1] & _ & H1), H2 as ([n2a o2] & _ & H2).
  apply go_bind_Ret in H1 as ([n1b u1] & _ & H1), H2 as ([n2b u2] & _ & H2). simplify_eq.
  by rewrite Hs, (sorted_groups_agree MI1 MI2 SS1 SS2).
Qed.

(** ** The place of a node *)
Section place.
Context `{MI : MapIter} `{SS : SortSlice}.

Lemma committee_table_lookup rs i :
  committee_table rs !! Z.of_nat i = (λ r, nNodeAddr (OldNodeInfo r)) <$> rs !! i.
Proof.
  unfold committee_table. destruct (rs !! i) as [r|] eqn:E; simpl.
  - apply elem_of_list_to_map_1.
    + apply NoDup_alt. intros j k x. rewrite !list_lookup_fmap, !list_lookup_imap.
      intros (y & Hy & ->)%fmap_Some. apply fmap_Some in Hy as (? & _ & ->).
      intros (z & Hz & Heq)%fmap_Some. apply fmap_Some in Hz as (? & _ & ->). simpl in Heq. lia.
    + apply elem_of_lookup_imap. eauto.
  - apply not_elem_of_list_to_map_1. rewrite list_elem_of_fmap. intros ([k x] & Hk & Hin).
    apply elem_of_lookup_imap in Hin as (j & r & [= -> ->] & Hj). simpl in Hk.
    assert (i = j) as -> by lia. congruence.
Qed.

Lemma newComNodeTable_lookup sn g c :
  0 ≤ c < u32 sn → newComNodeTable sn g !! c = Some (committee_table (default [] (g !! c))).
Proof.
  intros Hc. unfold newComNodeTable. apply elem_of_list_to_map_1.
  - rewrite <-list_fmap_compose. apply NoDup_fmap_2; [|apply NoDup_seq]. intros x y. simpl. lia.
  - apply list_elem_of_fmap. exists (Z.to_nat c). rewrite Z2Nat.id by lia. split; [done|].
    apply elem_of_seq. lia.
Qed.

Lemma elem_of_placements sn g i r :
  (i, r) ∈ placements sn g ↔ ∃ c j, (c < Z.to_nat (u32 sn))%nat ∧ i = Z.of_nat j ∧ default [] (g !! Z.of_nat c) !! j = Some r.
Proof.
  unfold placements. rewrite list_elem_of_bind. split.
  - intros (c & Hin & Hc%elem_of_seq). apply elem_of_lookup_imap in Hin as (j & r' & [= -> ->] & Hj).
    exists c, j. split_and!; [lia|done..].
  - intros (c & j & Hc & -> & Hj). exists c. split; [apply elem_of_lookup_imap; eauto|apply elem_of_seq; lia].
Qed.

(** The identity the loop leaves: the last matching entry wins. *)
Definition moved_to (local : NodeInfo) (own : ReconfigResult) (i : Z) : NodeInfo :=
  mkNodeInfo (nShardID local) (NewComID own) i (nNodeAddr local).
Lemma place_fold local own ps : ∀ n o,
  reconfigResult n = Some own →
  ∃ o', go_fold (place_step local) (n, o) ps =
    Ret (match last (filter (λ ir, OldNodeInfo ir.2 = local) ps) with
         | Some ir => updateNodeInfo (moved_to local own ir.1) n
         | None => n
         end, o').
Proof.
  induction ps as [|[i r] ps IH]; intros n o Hr; cbn [go_fold]; [eauto|].
  unfold place_step at 2. rewrite Hr. simpl mbind. rewrite filter_cons. simpl.
  case_bool_decide as E; [rewrite decide_True by done|rewrite decide_False by done; by apply IH].
  match goal with |- ∃ o', go_fold _ (?n1, ?o1) _ = _ => destruct (IH n1 o1) as [o' ->]; [done|] end.
  exists o'. rewrite last_cons. by destruct (last (filter _ ps)).
Qed.

(** A node finds its own place: after it has handled the results, its new
    identity, in the node and in its consensus instance alike, names the
    committee its own random value selects, the position of its result in the
    sorted group of that committee, and the new table has the node's own
    address there; the committee has at least four members and their number
    is recorded. *)
Theorem reconfig_places_self data n n' table out own :
  reconfigResult n = Some own → OldNodeInfo own = nInfo n → own ∈ all_results data →
  (∀ r, r ∈ all_results data → OldNodeInfo r = nInfo n → r = own) →
  0 ≤ NewComID own < u32 (shardNum n) →
  HandleSendReconfigResults2ComNodes data n = Ret (n', table, out) →
  ∃ i, nInfo n' = mkNodeInfo (nShardID (nInfo n)) (NewComID own) (Z.of_nat i) (nNodeAddr (nInfo n)) ∧
    pbftInfo n' = nInfo n' ∧
    default [] (newCom2Results data !! NewComID own) !! i = Some own ∧
    table !! NewComID own ≫= (λ t, t !! Z.of_nat i) = Some (nNodeAddr (nInfo n)) ∧
    comAllNodeNum n' = len (filter (λ r, NewComID r = NewComID own) (all_results data)) ∧
    4 ≤ comAllNodeNum n'.
Proof.
  intros Hown Hold Hin Huniq Hc H. unfold HandleSendReconfigResults2ComNodes in H.
  set (g := newCom2Results data) in *.
  destruct (place_fold (nInfo n) own (placements (shardNum n) g) n "" Hown) as [o' Hf]. rewrite Hf in H.
  assert (∀ c r j, default [] (g !! c) !! j = Some r → r ∈ all_results data ∧ NewComID r = c) as Hg.
  { intros c r j Hj%list_elem_of_lookup_2. destruct (newCom2Results_spec data c) as (_ & Hp & _).
    unfold g in Hj. rewrite Hp in Hj. by apply list_elem_of_filter in Hj as [? ?]. }
  assert (∃ i, default [] (g !! NewComID own) !! i = Some own ∧
    last (filter (λ ir, OldNodeInfo ir.2 = nInfo n) (placements (shardNum n) g)) = Some (Z.of_nat i, own)) as (i & Hi & Hlast).
  { destruct (newCom2Results_spec data (NewComID own)) as (_ & Hp & _).
    assert (own ∈ default [] (g !! NewComID own)) as Hm by (unfold g; rewrite Hp; by apply list_elem_of_filter).
    apply list_elem_of_lookup in Hm as [j Hj].
    assert ((Z.of_nat j, own) ∈ filter (λ ir, OldNodeInfo ir.2 = nInfo n) (placements (shardNum n) g)) as Hjn.
    { apply list_elem_of_filter. split; [done|]. apply elem_of_placements. exists (Z.to_nat (NewComID own)), j.
      rewrite Z2Nat.id by lia. split_and!; [lia|done..]. }
    destruct (last (filter _ _)) as [[k r]|] eqn:El.
    - apply last_Some_elem_of in El as [Hold' Hk]%list_elem_of_filter.
      apply elem_of_placements in Hk as (c & j' & Hc' & -> & Hj').
      destruct (Hg _ _ _ Hj') as [Hr Hnew]. assert (r = own) as -> by (by apply Huniq).
      exists j'. by rewrite Hnew.
    - apply last_None in El. rewrite El in Hjn. by apply elem_of_nil in Hjn. }
  rewrite Hlast in H. simpl mbind in H. apply go_bind_Ret in H as ([n2 out2] & He & [= <- <- <-]).
  unfold EndReconfig in He. simpl in He. case_bool_decide as H4; [done|].
  apply go_bind_Ret in He as (adj & _ & He). apply go_bind_Ret in He as (sy & _ & [= <- <-]).
  exists i. simpl. split_and!; [done..| | |].
  - rewrite newComNodeTable_lookup by done. simpl. rewrite committee_table_lookup, Hi. simpl. by rewrite Hold.
  - destruct (newCom2Results_spec data (NewComID own)) as (_ & Hp & _). unfold g. by rewrite Hp.
  - lia.
Qed.
End place.

(** ** Witnesses: four nodes that meet in one committee. *)
#[global] Instance not_less_dec {A} (less : A → A → bool) : RelDecision (λ x y, less y x = false).
Proof. intros x y. apply _. Defined.
Definition merge_slice : SortSlice.
Proof.
  refine {| sort_slice := λ A less l, merge_sort (λ x y, less y x = false) l |}.
  - intros A less l. apply merge_sort_Permutation.
  - intros A less l Hw. apply Sorted_StronglySorted; [intros x y z; apply Hw|]. apply Sorted_merge_sort.
    intros x y. destruct (less y x) eqn:E; [right; by apply Hw|by left].
Defined.

Definition demo_info (c i : Z) (a : string) : NodeInfo := mkNodeInfo c c i a.
Definition demo_res (c i v : Z) (a : string) (new : Z) : ReconfigResult :=
  mkReconfigResult [] 10 [v; i] [i] (demo_info c i a) c new.
Definition demo_own : ReconfigResult := demo_res 0 1 7 "b" 1.
Definition demo_data : gmap Z ComReconfigResults :=
  <[0 := mkComResults 0 [demo_res 0 0 5 "a" 1; demo_own; demo_res 0 2 4 "c" 0; demo_res 0 3 6 "d" 0] 4]>
  {[ 1 := mkComResults 1 [demo_res 1 0 9 "e" 1; demo_res 1 1 1 "f" 1; demo_res 1 2 8 "g" 0; demo_res 1 3 2 "h" 0] 4 ]}.
Definition demo_node : ReconfigNode :=
  mkNode (demo_info 0 1 "b") (demo_info 0 1 "b") 2 4 "lesssync" (Some demo_own) None None.
Definition demo_leader : ReconfigNode :=
  mkNode (demo_info 1 3 "h") (demo_info 1 3 "h") 2 4 "lesssync" (Some (demo_res 1 3 2 "h" 0)) None None.
Definition reverse_iter : MapIter.
Proof.
  refine {| map_iter := λ K _ _ A m, reverse (map_to_list m) |}. intros. apply reverse_Permutation.
Defined.

Lemma demo_distinct : distinct_vrfs demo_data.
Proof.
  assert (Forall (λ r, Forall (λ r', NewComID r = NewComID r' → rrVrf r = rrVrf r' → r = r') (all_results demo_data))
    (all_results demo_data)) as HF by by_compute.
  intros r r' Hr Hr'. rewrite Forall_forall in HF. specialize (HF r Hr). rewrite Forall_forall in HF. by apply HF.
Qed.

Lemma reconfig_tables_agree_witness :
  ∃ n1' n2' t1 t2 out1 out2,
    HandleSendReconfigResults2ComNodes (MI := canonical_iter) (SS := merge_slice) demo_data demo_node = Ret (n1', t1, out1) ∧
    HandleSendReconfigResults2ComNodes (MI := reverse_iter) (SS := merge_slice) demo_data demo_leader = Ret (n2', t2, out2) ∧
    t1 = t2.
Proof.
  destruct (HandleSendReconfigResults2ComNodes (MI := canonical_iter) (SS := merge_slice) demo_data demo_node)
    as [[[n1' t1] out1]|] eqn:E1; [|vm_compute in E1; discriminate].
  destruct (HandleSendReconfigResults2ComNodes (MI := reverse_iter) (SS := merge_slice) demo_data demo_leader)
    as [[[n2' t2] out2]|] eqn:E2; [|vm_compute in E2; discriminate].
  exists n1', n2', t1, t2, out1, out2. split; [reflexivity|]. split; [reflexivity|].
  exact (reconfig_tables_agree canonical_iter reverse_iter merge_slice merge_slice demo_data demo_node demo_leader
    n1' n2' t1 t2 out1 out2 demo_distinct eq_refl E1 E2).
Defined.

Lemma reconfig_places_self_witness :
  ∃ n' table out i,
    HandleSendReconfigResults2ComNodes (MI := canonical_iter) (SS := merge_slice) demo_data demo_node = Ret (n', table, out) ∧
    nInfo n' = mkNodeInfo 0 1 (Z.of_nat i) "b" ∧ table !! 1 ≫= (λ t, t !! Z.of_nat i) = Some "b"%string.
Proof.
  destruct (HandleSendReconfigResults2ComNodes (MI := canonical_iter) (SS := merge_slice) demo_data demo_node)
    as [[[n' table] out]|] eqn:E; [|vm_compute in E; discriminate].
  destruct (reconfig_places_self (MI := canonical_iter) (SS := merge_slice) demo_data demo_node n' table out demo_own)
    as (i & H1 & _ & _ & H2 & _).
  - reflexivity.
  - reflexivity.
  - by_compute.
  - assert (Forall (λ r, OldNodeInfo r = nInfo demo_node → r = demo_own) (all_results demo_data)) as HF by by_compute.
    rewrite Forall_forall in HF. exact HF.
  - vm_compute. split; [discriminate|reflexivity].
  - exact E.
  - exists n', table, out, i. split; [reflexivity|]. split; [exact H1|exact H2].
Defined.
