(* ===== verification/Block.v ===== *)
(** * Blocks (src/core/block.go, [DeriveSha] of src/core/hashing.go).

    The hash of a header is a parameter; the trie that [DeriveSha] feeds is
    behind the interface [TrieHasher] of the source, and StackTrie.v has the
    implementation the program uses. *)
From S2P Require Import Prelude Core.
Local Open Scope Z_scope.

(** [Difficulty] and [Number] are pointers to big integers; nil is [None]. *)
Record Header := mkHeader {
  ParentHash : bytes;
  Coinbase : bytes;
  hRoot : bytes;
  hTxHash : bytes;
  hDifficulty : option Z;
  hNumber : option Z;
  hTime : Z;
  MixDigest : bytes;
  hNonce : bytes;
  hShardID : Z
}.
#[global] Instance Header_eq_dec : EqDecision Header.
Proof. solve_decision. Defined.
Definition set_hRoot (r : bytes) (h : Header) : Header :=
  mkHeader (ParentHash h) (Coinbase h) r (hTxHash h) (hDifficulty h) (hNumber h) (hTime h) (MixDigest h)
    (hNonce h) (hShardID h).
Definition set_hTxHash (r : bytes) (h : Header) : Header :=
  mkHeader (ParentHash h) (Coinbase h) (hRoot h) r (hDifficulty h) (hNumber h) (hTime h) (MixDigest h)
    (hNonce h) (hShardID h).

Record Block := mkBlock {
  bHeader : Header;
  Transactions : list Transaction;
  bHash : bytes;
  Td : option Z
}.

(** The zero value of [common.Hash]. *)
Definition zero_hash : bytes := replicate 32 0.

(** [CopyHeader]: nil numbers become zero. *)
Definition CopyHeader (h : Header) : Header :=
  mkHeader (ParentHash h) (Coinbase h) (hRoot h) (hTxHash h) (Some (default 0 (hDifficulty h)))
    (Some (default 0 (hNumber h))) (hTime h) (MixDigest h) (hNonce h) (hShardID h).

(** ** The transaction root

    [TrieHasher] is an interface; the stack trie behind it takes its keys in
    increasing order only. *)
Class TrieHasher := {
  hasher_state : Type;
  hasher_empty : hasher_state;
  hasher_update : hasher_state → bytes → bytes → hasher_state;
  hasher_hash : hasher_state → bytes
}.

(** The order in which [DeriveSha] visits the indices of a list. *)
Definition derive_order (n : Z) : list Z :=
  (Z.of_nat <$> seq 1 (Z.to_nat (Z.min (n - 1) 127))) ++
  (if bool_decide (n > 0) then [0] else []) ++
  (Z.of_nat <$> seq 128 (Z.to_nat (n - 128))).

Section block.
Context `{TH : TrieHasher}.
(** [rlp.AppendUint64], the encoding of a transaction, and the hash of a
    header's encoding. *)
Variable AppendUint64 : Z → bytes.
Variable EncodeIndex : Transaction → bytes.
Variable rlpHash : Header → option bytes.
Variable EmptyRootHash : bytes.

Definition DeriveSha (txs : list Transaction) : go bytes :=
  st ← go_fold (λ st i, tx ← go_index txs i; Ret (hasher_update st (AppendUint64 i) (EncodeIndex tx)))
         hasher_empty (derive_order (len txs));
  Ret (hasher_hash st).

(** [NewBlock]: an empty block has the empty root and no transactions. *)
Definition NewBlock (h : Header) (txs : list Transaction) : go Block :=
  let h := CopyHeader h in
  if bool_decide (len txs = 0) then Ret (mkBlock (set_hTxHash EmptyRootHash h) [] zero_hash (Some 0))
  else root ← DeriveSha txs; Ret (mkBlock (set_hTxHash root h) txs zero_hash (Some 0)).

Definition Header_Hash (h : Header) : go bytes := or_exit "block Header hash fail." (rlpHash h).

(** [GetHash] caches the hash on the first call. *)
Definition GetHash (b : Block) : go (bytes * Block) :=
  if bool_decide (bHash b = zero_hash) then
    h ← Header_Hash (bHeader b); Ret (h, mkBlock (bHeader b) (Transactions b) h (Td b))
  else Ret (bHash b, b).

Definition NumberU64 (b : Block) : go Z := n ← deref (hNumber (bHeader b)); Ret (u64 n).
Definition GetHeader (b : Block) : Header := CopyHeader (bHeader b).
Definition WithBody (b : Block) (txs : list Transaction) : Block :=
  mkBlock (CopyHeader (bHeader b)) txs zero_hash None.

(** ** Facts *)
Lemma derive_order_perm n : 0 ≤ n → derive_order n ≡ₚ Z.of_nat <$> seq 0 (Z.to_nat n).
Proof.
  intros Hn. unfold derive_order. destruct (decide (n = 0)) as [->|Hne]; [done|].
  rewrite bool_decide_true by lia.
  assert (seq 0 (Z.to_nat n) = 0%nat :: seq 1 (Z.to_nat (Z.min (n - 1) 127)) ++ seq 128 (Z.to_nat (n - 128))) as ->.
  { replace (Z.to_nat n) with (S (Z.to_nat (n - 1))) by lia. cbn [seq]. f_equal.
    destruct (decide (n ≤ 128)).
    - replace (Z.to_nat (n - 128)) with 0%nat by lia. rewrite Z.min_l, app_nil_r by lia. done.
    - rewrite Z.min_r by lia. replace (Z.to_nat (n - 1)) with (127 + Z.to_nat (n - 128))%nat by lia.
      by rewrite seq_app. }
  rewrite fmap_cons, fmap_app. by rewrite Permutation_middle.
Qed.

(** The transaction root of a list is always computed. *)
Lemma DeriveSha_returns txs : returns (DeriveSha txs).
Proof.
  unfold DeriveSha.
  destruct (go_fold_returns (λ st i, tx ← go_index txs i; Ret (hasher_update st (AppendUint64 i) (EncodeIndex tx)))
    (λ _, True) hasher_empty (derive_order (len txs))) as (st & -> & _); [done| |simpl; eauto with golib].
  intros st i Hi _. rewrite derive_order_perm in Hi by apply len_nonneg.
  apply list_elem_of_fmap in Hi as (k & -> & Hk%elem_of_seq).
  destruct (proj2 (go_index_returns txs (Z.of_nat k))) as [tx ->]; [unfold len in *; lia|]. simpl. eauto.
Qed.

Lemma NewBlock_spec h txs :
  ∃ b, NewBlock h txs = Ret b ∧ Transactions b = txs ∧ hRoot (bHeader b) = hRoot h ∧
    hNumber (bHeader b) = Some (default 0 (hNumber h)) ∧ hShardID (bHeader b) = hShardID h.
Proof.
  unfold NewBlock. case_bool_decide as E.
  - exists (mkBlock (set_hTxHash EmptyRootHash (CopyHeader h)) [] zero_hash (Some 0)). split_and!; try done.
    destruct txs; [done|]. rewrite len_cons in E. pose proof (len_nonneg txs). lia.
  - destruct (DeriveSha_returns txs) as [r ->]. simpl. eexists. by split_and!.
Qed.
End block.
