(* ===== verification/StackTrie.v ===== *)
(** * The stack trie (src/trie/stacktrie.go) and the transaction root

    A trie that takes its keys in increasing order only and replaces every
    subtree by its hash as soon as no later key can fall into it.  [NewBlock]
    computes the transaction root of a header with it ([DeriveSha] of Block).
    The theorems compare it with the trie of Trie.v: the same entries have the
    same root hash.

    A node is one of the five node types of the source with the fields that
    type uses; a nil child is [None].  The database of a stack trie is nil in
    every use the program makes of it, so the nodes [hashRec] would store are
    left out, and with them [Commit], which fails without a database.  The
    binary form is in StackCodec. *)
From S2P Require Import Prelude Core Utils Encoding Node Rebuild Trie MerkleProof Block.
Local Open Scope Z_scope.

Inductive StackTrie :=
  | SEmpty
  | SBranch (children : list (option StackTrie))
  | SExt (key : bytes) (child : StackTrie)
  | SLeaf (key val : bytes)
  | SHashed (val : bytes).

Section st_ind.
Variable P : StackTrie → Prop.
Hypothesis Hempty : P SEmpty.
Hypothesis Hbranch : ∀ cs, Forall (λ o, match o with Some c => P c | None => True end) cs → P (SBranch cs).
Hypothesis Hext : ∀ k c, P c → P (SExt k c).
Hypothesis Hleaf : ∀ k v, P (SLeaf k v).
Hypothesis Hhashed : ∀ v, P (SHashed v).

Fixpoint StackTrie_nested_ind (st : StackTrie) : P st :=
  match st with
  | SEmpty => Hempty
  | SBranch cs =>
      Hbranch cs ((fix go cs : Forall (λ o, match o with Some c => P c | None => True end) cs :=
        match cs with
        | [] => Forall_nil_2 _
        | o :: cs => Forall_cons_2 _ o cs
            (match o return match o with Some c => P c | None => True end with
             | Some c => StackTrie_nested_ind c
             | None => I
             end) (go cs)
        end) cs)
  | SExt k c => Hext k c (StackTrie_nested_ind c)
  | SLeaf k v => Hleaf k v
  | SHashed v => Hhashed v
  end.
End st_ind.

(** The results of a list of calls made in order. *)
Fixpoint go_seq {A} (l : list (go A)) : go (list A) :=
  match l with
  | [] => Ret []
  | m :: l => a ← m; r ← go_seq l; Ret (a :: r)
  end.

Section stack_trie.
Context `{RL : RLP}.
Variable hashData : bytes → bytes.
Variable emptyRoot : bytes.

Definition NewStackTrie : StackTrie := SEmpty.
Definition newLeaf (key val : bytes) : StackTrie := SLeaf key val.
Definition newExt (key : bytes) (child : StackTrie) : StackTrie := SExt key child.
Definition st_Reset : StackTrie := SEmpty.

(** The first index at which the node's key differs from [key]. *)
Fixpoint getDiffIndex (stkey key : bytes) : go Z :=
  match stkey, key with
  | [], _ => Ret 0
  | _ :: _, [] => Halt (GoPanic "index out of range")
  | nibble :: stkey, k :: key => if bool_decide (nibble ≠ k) then Ret 0 else i ← getDiffIndex stkey key; Ret (i + 1)
  end.

(** How a parent writes a hashed child: an encoding below 32 bytes as it is, a
    hash as a string. *)
Definition write_child (val : bytes) : bytes := if bool_decide (len val < 32) then val else WriteBytes val.
(** [hexToCompactInPlace] and the part of the buffer it reports. *)
Definition compact_key (key : bytes) : go bytes :=
  '(buf, sz) ← hexToCompactInPlace key; Ret (take (Z.to_nat sz) buf).
(** The end of [hashRec]: what the hashed node keeps in [val]. *)
Definition node_val (encodedNode : bytes) : bytes :=
  if bool_decide (len encodedNode < 32) then encodedNode else hashData encodedNode.

(** [hashRec]: the node becomes a hashed node with the value returned. *)
Fixpoint hashRec (st : StackTrie) : go bytes :=
  match st with
  | SHashed val => Ret val
  | SEmpty => Ret emptyRoot
  | SBranch children =>
      nodes ← go_seq (map (λ o, match o with
                                | None => Ret (WriteBytes [])
                                | Some child => val ← hashRec child; Ret (write_child val)
                                end) children);
      Ret (node_val (WriteList (concat nodes ++ EmptyString)))
  | SExt key child =>
      val ← hashRec child;
      key ← compact_key key;
      Ret (node_val (WriteList (WriteBytes key ++ write_child val)))
  | SLeaf key val =>
      key ← compact_key (key ++ [16]);
      Ret (node_val (WriteList (WriteBytes key ++ WriteBytes val)))
  end.
Definition st_hash (st : StackTrie) : go StackTrie := val ← hashRec st; Ret (SHashed val).

(** The loop over the elder siblings of child [i]: the next one is hashed. *)
Fixpoint unresolve (i : nat) (children : list (option StackTrie)) : go (list (option StackTrie)) :=
  match i with
  | O => Ret children
  | S i => match children !! i with
           | Some (Some c) => c ← st_hash c; Ret (<[i := Some c]> children)
           | _ => unresolve i children
           end
  end.

(** A branch with the rest of the old node, hashed, and the new leaf, below
    the first [d] nibbles that the two keys share. *)
Definition split_at (d : Z) (stkey : bytes) (n : StackTrie) (key value : bytes) : go StackTrie :=
  origIdx ← go_index stkey d;
  newIdx ← go_index key d;
  children ← go_store (replicate 16 None) origIdx (Some n);
  children ← go_store children newIdx (Some (newLeaf (drop (Z.to_nat d + 1) key) value));
  if bool_decide (d = 0) then Ret (SBranch children)
  else Ret (SExt (take (Z.to_nat d) stkey) (SBranch children)).

Fixpoint st_insert (st : StackTrie) (key value : bytes) : go StackTrie :=
  match st with
  | SBranch children =>
      match key with
      | [] => Halt (GoPanic "index out of range")
      | idx :: rest =>
          elder ← unresolve (Z.to_nat idx) children;
          c ← nth (Z.to_nat idx) (map (λ o, match o with
                                            | None => Ret (newLeaf rest value)
                                            | Some c => st_insert c rest value
                                            end) children) (Halt (GoPanic "index out of range"));
          Ret (SBranch (<[Z.to_nat idx := Some c]> elder))
      end
  | SExt stkey child =>
      diffidx ← getDiffIndex stkey key;
      if bool_decide (diffidx = len stkey) then
        c ← st_insert child (drop (Z.to_nat diffidx) key) value;
        Ret (SExt stkey c)
      else
        n ← st_hash (if bool_decide (diffidx < len stkey - 1)
                     then newExt (drop (Z.to_nat diffidx + 1) stkey) child else child);
        split_at diffidx stkey n key value
  | SLeaf stkey val =>
      diffidx ← getDiffIndex stkey key;
      if bool_decide (diffidx >= len stkey) then Halt (GoPanic "Trying to insert into existing key")
      else
        n ← st_hash (newLeaf (drop (Z.to_nat diffidx + 1) stkey) val);
        split_at diffidx stkey n key value
  | SEmpty => Ret (SLeaf key value)
  | SHashed _ => Halt (GoPanic "trying to insert into hash")
  end.

Definition st_TryUpdate (st : StackTrie) (key value : bytes) : go StackTrie :=
  let k := keybytesToHex key in
  if bool_decide (len value = 0) then Halt (GoPanic "deletion not supported")
  else st_insert st (take (length k - 1) k) value.
(** [TryUpdate] has no error to report. *)
Definition st_Update (st : StackTrie) (key value : bytes) : go StackTrie := st_TryUpdate st key value.
Definition st_Hash (st : StackTrie) : go bytes :=
  val ← hashRec st;
  if bool_decide (len val = 32) then Ret val else Ret (hashData val).

(** [Trie.Hash] of src/trie/trie.go: caching apart, the forced hash of the
    root. *)
Definition Trie_Hash (t : Trie) : bytes :=
  match root t with
  | NilNode => emptyRoot
  | n => match hash hashData n true with HashNode h => h | _ => [] end
  end.

(** *** The order of keys

    [before a b]: [a] comes first, and neither is a prefix of the other. *)
Definition before (a b : bytes) : Prop :=
  ∃ c x y a' b', a = c ++ x :: a' ∧ b = c ++ y :: b' ∧ x < y.
Lemma before_app c a b : before (c ++ a) (c ++ b) ↔ before a b.
Proof.
  split.
  - induction c as [|z c IH]; [done|]. intros (d & x & y & a' & b' & Ha & Hb & Hlt). apply IH.
    destruct d as [|w d]; simplify_eq/=; [lia|]. by exists d, x, y, a', b'.
  - intros (d & x & y & a' & b' & -> & -> & Hlt). exists (c ++ d), x, y, a', b'. by rewrite <-!app_assoc.
Qed.
Lemma before_cons x a b : before (x :: a) (x :: b) ↔ before a b.
Proof. apply (before_app [x]). Qed.
Lemma before_heads x a y b : x ≠ y → before (x :: a) (y :: b) → x < y.
Proof. intros Hne ([|z c] & x' & y' & a' & b' & Ha & Hb & Hlt); by simplify_eq/=. Qed.
Lemma before_nil a : ¬ before a [].
Proof. intros (c & x & y & a' & b' & _ & Hb & _). by destruct c. Qed.
Lemma before_parted c x a y b : x ≠ y → before (c ++ x :: a) (c ++ y :: b) → x < y.
Proof. rewrite before_app. apply before_heads. Qed.
Lemma not_before_prefix a b : ¬ before (b ++ a) b.
Proof. induction b as [|x b IH]; [apply before_nil|]. simpl. by rewrite before_cons. Qed.

Lemma getDiffIndex_parted c x a y b : x ≠ y → getDiffIndex (c ++ x :: a) (c ++ y :: b) = Ret (len c).
Proof.
  intros Hne. induction c as [|z c IH]; cbn [app getDiffIndex]; [by rewrite bool_decide_true|].
  rewrite bool_decide_false by by intros []. rewrite IH. cbn [mbind go_bind]. by rewrite len_cons, Z.add_comm.
Qed.
Lemma getDiffIndex_prefix c b : getDiffIndex c (c ++ b) = Ret (len c).
Proof.
  induction c as [|z c IH]; cbn [app getDiffIndex]; [done|].
  rewrite bool_decide_false by by intros []. rewrite IH. cbn [mbind go_bind]. by rewrite len_cons, Z.add_comm.
Qed.
(** The two keys of a split at the end of their common part. *)
Lemma at_parting c (x : Z) (a : bytes) :
  go_index (c ++ x :: a) (len c) = Ret x ∧ drop (Z.to_nat (len c) + 1) (c ++ x :: a) = a ∧
  take (Z.to_nat (len c)) (c ++ x :: a) = c.
Proof.
  unfold len. rewrite Nat2Z.id. split_and!.
  - apply go_index_ok; [lia|]. by rewrite Nat2Z.id, list_lookup_middle.
  - rewrite drop_app_ge by lia. by replace (length c + 1 - length c)%nat with 1%nat by lia.
  - by rewrite take_app_length.
Qed.

(** ** What a stack trie stands for

    The encoding of a trie node with its children hashed, and what a hashed
    node of the stack trie keeps of it. *)
Definition hashed_children (n : Node) : Node :=
  match n with
  | ShortNode k v => hashShortNodeChildren hashData k v
  | FullNode cs => FullNode (hashFullNodeChildren hashData 0 cs)
  | n => n
  end.
Definition st_val (n : Node) : bytes := node_val (encode (hashed_children n)).

(** [rep st n]: the stack trie [st] stands for the trie [n]. *)
Fixpoint rep (st : StackTrie) (n : Node) : Prop :=
  match st with
  | SEmpty => n = NilNode
  | SLeaf k v => n = ShortNode (k ++ [16]) (ValueNode v) ∧ Forall nibble k
  | SExt k c => ∃ m, n = ShortNode k m ∧ k ≠ [] ∧ is_full m ∧ rep c m
  | SBranch cs =>
      ∃ ns, n = FullNode (ns ++ [NilNode]) ∧ length ns = 16%nat ∧
        (fix go cs ns := match cs, ns with
                         | [], [] => True
                         | o :: cs, m :: ns =>
                             match o with None => m = NilNode | Some c => inner m ∧ rep c m end ∧ go cs ns
                         | _, _ => False
                         end) cs ns
  | SHashed v => inner n ∧ v = st_val n
  end.
Definition child_rep (o : option StackTrie) (m : Node) : Prop :=
  match o with None => m = NilNode | Some c => inner m ∧ rep c m end.
Lemma rep_branch cs n :
  rep (SBranch cs) n ↔ ∃ ns, n = FullNode (ns ++ [NilNode]) ∧ length ns = 16%nat ∧ Forall2 child_rep cs ns.
Proof.
  cbn [rep]. split; intros (ns & Hn & Hl & HF); exists ns; (split; [done|split; [done|]]).
  - clear Hn Hl. revert ns HF. induction cs as [|o cs IH]; intros [|m ns] HF; try done. destruct HF as [Ho HF].
    constructor; [by destruct o|auto].
  - clear Hn Hl. induction HF as [|o m cs ns Ho HF IH]; [done|]. split; [by destruct o|done].
Qed.

(** The part of a stack trie that later keys can reach is not hashed. *)
Fixpoint live (st : StackTrie) : Prop :=
  match st with
  | SHashed _ => False
  | SExt _ c => live c
  | SBranch cs =>
      (fix go cs := match cs with
                    | [] => False
                    | o :: cs => go cs ∨ (Forall (λ o, o = None) cs ∧ match o with Some c => live c | None => False end)
                    end) cs
  | _ => True
  end.
Lemma live_branch cs :
  live (SBranch cs) ↔ ∃ i c, cs !! i = Some (Some c) ∧ live c ∧ ∀ j o, cs !! j = Some o → (i < j)%nat → o = None.
Proof.
  cbn [live]. induction cs as [|o cs IH]; [split; [done|by intros (? & ? & ? & _)]|]. rewrite IH. clear IH. split.
  - intros [(i & c & Hi & Hc & Hj)|[Hn Ho]].
    + exists (S i), c. split_and!; [done..|]. intros [|j] o' Ho' Hlt; [lia|]. apply (Hj j); [done|lia].
    + destruct o as [c|]; [|done]. exists 0%nat, c. split_and!; [done..|]. intros [|j] o' Ho' Hlt; [lia|].
      rewrite Forall_lookup in Hn. by eapply Hn.
  - intros ([|i] & c & Hi & Hc & Hj).
    + right. simpl in Hi. simplify_eq. split; [|done]. apply Forall_lookup. intros j o Ho. apply (Hj (S j)); [done|lia].
    + left. exists i, c. split_and!; [done..|]. intros j o' Ho' Hlt. apply (Hj (S j)); [done|lia].
Qed.

(** *** Hashing *)
Context `{RLL : !RLPLaws}.
Hypothesis hashData_len : ∀ b, len (hashData b) = 32.

Lemma compact_key_ok k : k ≠ [] → compact_key k = Ret (compact_of k).
Proof.
  intros Hk. destruct (hexToCompactInPlace_equiv k Hk) as (buf & n & Hc & _ & _ & Hh).
  unfold compact_key, compact_of. by rewrite Hc, Hh.
Qed.
Lemma write_child_val n : inner n → write_child (st_val n) = encode (hash hashData n false).
Proof.
  intros Hn. assert (hash hashData n false = nodeToHash hashData (hashed_children n) false) as -> by by destruct n.
  unfold write_child, st_val, node_val, nodeToHash. rewrite andb_true_r.
  destruct (bool_decide_reflect (len (encode (hashed_children n)) < 32)).
  - by rewrite bool_decide_true.
  - by rewrite bool_decide_false by (rewrite hashData_len; lia).
Qed.
Lemma go_seq_map {A B} (f : A → go B) (g : A → B) l :
  Forall (λ a, f a = Ret (g a)) l → go_seq (map f l) = Ret (map g l).
Proof. induction 1 as [|a l Ha Hl IH]; [done|]. simpl. rewrite Ha. simpl. by rewrite IH. Qed.

Lemma hashRec_rep st : ∀ n, rep st n → inner n → hashRec st = Ret (st_val n).
Proof.
  induction st as [|cs IH|k c IH|k v|v] using StackTrie_nested_ind; intros n Hr Hn.
  - simpl in Hr. by subst n.
  - apply rep_branch in Hr as (ns & -> & Hl & HF). cbn [hashRec]. 
    assert (∀ i, (i + length ns ≤ 16)%nat → go_seq (map (λ o, match o with
               | None => Ret (WriteBytes [])
               | Some child => val ← hashRec child; Ret (write_child val)
               end) cs) = Ret (map encode (hashFullNodeChildren hashData i ns))) as Hs.
    { clear Hl Hn. induction HF as [|o m cs ns Ho HF IHF]; intros i Hi; [done|].
      apply Forall_cons in IH as [IHo IH]. cbn [map go_seq hashFullNodeChildren]. simpl in Hi.
      rewrite (IHF IH (S i)) by lia. rewrite bool_decide_true by lia. destruct o as [c|]; simpl in Ho.
      - destruct Ho as [Hm Ho]. rewrite (IHo m Ho Hm). simpl. rewrite write_child_val by done. by destruct m.
      - subst m. done. }
    rewrite (Hs 0%nat) by lia. cbn [mbind go_bind]. unfold st_val. do 2 f_equal.
    cbn [hashed_children encode]. f_equal. clear -Hl.
    assert (∀ i, (i + length ns = 16)%nat → concat (map encode (hashFullNodeChildren hashData i (ns ++ [NilNode])))
              = concat (map encode (hashFullNodeChildren hashData i ns)) ++ EmptyString) as Hc; [|by rewrite Hc].
    clear Hl. induction ns as [|m ns IHn]; intros i Hi; cbn [app hashFullNodeChildren map concat].
    + simpl in Hi. rewrite bool_decide_false by lia. simpl. by rewrite app_nil_r.
    + simpl in Hi. rewrite IHn by lia. by rewrite app_assoc.
  - destruct Hr as (m & -> & Hk & Hm & Hr). cbn [hashRec]. assert (inner m) as Hi by by destruct m.
    rewrite (IH m Hr Hi). cbn [mbind go_bind]. rewrite compact_key_ok by done. cbn [mbind go_bind].
    rewrite write_child_val by done. unfold st_val. by destruct m.
  - destruct Hr as [-> Hk]. cbn [hashRec]. rewrite compact_key_ok by by destruct k. done.
  - by destruct Hr as [_ ->].
Qed.
Lemma st_hash_rep st n : rep st n → inner n → ∃ st', st_hash st = Ret st' ∧ rep st' n.
Proof. intros Hr Hn. unfold st_hash. rewrite (hashRec_rep st n Hr Hn). by eexists. Qed.
Lemma st_Hash_rep st n :
  rep st n → inner n → st_Hash st = Ret (match hash hashData n true with HashNode h => h | _ => [] end).
Proof.
  intros Hr Hn. unfold st_Hash. rewrite (hashRec_rep st n Hr Hn). cbn [mbind go_bind].
  assert (hash hashData n true = nodeToHash hashData (hashed_children n) true) as -> by by destruct n.
  unfold st_val, node_val, nodeToHash. rewrite andb_false_r.
  destruct (bool_decide_reflect (len (encode (hashed_children n)) < 32)) as [Hlt|Hge].
  - by rewrite bool_decide_false by lia.
  - by rewrite hashData_len.
Qed.

(** *** Insertion *)

(** Every key of [n] comes before [key]. *)
Definition after (n : Node) (key : bytes) : Prop :=
  ∀ k w, Forall nibble k → tget n (k ++ [16]) = Some w → before k key.

Lemma branch_rep x c m y d m' :
  nibble x → nibble y → x ≠ y → inner m → inner m' → rep c m → rep d m' →
  ∃ cs, cs = <[Z.to_nat x := Some c]> (replicate 16 None) ∧
    go_store (replicate 16 None) x (Some c) = Ret cs ∧ go_store cs y (Some d) = Ret (<[Z.to_nat y := Some d]> cs) ∧
    rep (SBranch (<[Z.to_nat y := Some d]> cs)) (FullNode (branch_at (Z.to_nat x) m (Z.to_nat y) m')).
Proof.
  unfold nibble. intros Hx Hy Hne Hm Hm' Hc Hd. exists (<[Z.to_nat x := Some c]> (replicate 16 None)).
  split_and!; [done|..].
  - by rewrite go_store_ok by (unfold len; rewrite length_replicate; lia).
  - by rewrite go_store_ok by (unfold len; rewrite length_insert, length_replicate; lia).
  - apply rep_branch. exists (<[Z.to_nat y := m']> (<[Z.to_nat x := m]> (replicate 16 NilNode))). split_and!.
    + unfold branch_at. change (replicate 17 NilNode) with (replicate 16 NilNode ++ [NilNode]).
      by rewrite !insert_app_l by (rewrite ?length_insert, length_replicate; lia).
    + by rewrite !length_insert, length_replicate.
    + repeat apply Forall2_insert; [|by split..]. by apply Forall2_replicate.
Qed.
Lemma inner_mk_short k m : k ≠ [] ∨ inner m → inner (mk_short k m).
Proof. destruct k; [by intros [|]|done]. Qed.

(** A key that parts from a short node's key. *)
Lemma split_ok c x a y b ev n v :
  canon (ShortNode (c ++ x :: a) ev) → Forall nibble (c ++ y :: b) → nibble x → x < y →
  rep n (mk_short a ev) → inner (mk_short a ev) → ∀ skey, (∃ a', skey = c ++ x :: a') →
  ∃ st' n', split_at (len c) skey n (c ++ y :: b) v = Ret st' ∧ rep st' n' ∧ live st' ∧ canon n' ∧
    updated (ShortNode (c ++ x :: a) ev) n' (c ++ y :: b ++ [16]) (Some v).
Proof.
  intros Hcan Hkey Hx Hlt Hn Hin skey [a' ->]. apply Forall_app in Hkey as [Hc Hyb].
  apply Forall_cons in Hyb as [Hy Hb].
  assert (term_key (c ++ y :: b ++ [16])) as Ht by (exists (c ++ y :: b); split; [by rewrite <-app_assoc|by apply Forall_app; auto]).
  destruct (updated_split c y (b ++ [16]) x a ev v Hcan Ht) as [Hcan' Hupd]; [lia|].
  assert (mk_short (b ++ [16]) (ValueNode v) = ShortNode (b ++ [16]) (ValueNode v)) as Hleaf
    by (apply mk_short_ne; by destruct b).
  rewrite Hleaf in Hcan', Hupd.
  destruct (branch_rep x n (mk_short a ev) y (newLeaf b v) (ShortNode (b ++ [16]) (ValueNode v)))
    as (cs & Hcs & Hs1 & Hs2 & Hrep); [done..|lia|done|done|done|done|].
  destruct (at_parting c x a') as (Hi & _ & Hk). destruct (at_parting c y b) as (Hi' & Hd & _).
  unfold split_at. rewrite Hi, Hi'. cbn [mbind go_bind]. rewrite Hs1. cbn [mbind go_bind]. rewrite Hd, Hs2.
  cbn [mbind go_bind]. rewrite Hk.
  assert (live (SBranch (<[Z.to_nat y := Some (newLeaf b v)]> cs))) as Hlive.
  { apply live_branch. rewrite Hcs. exists (Z.to_nat y), (newLeaf b v). split_and!; [|done|].
    - apply list_lookup_insert_eq. rewrite length_insert, length_replicate. unfold nibble in Hy. lia.
    - intros j o Hj Hlj. unfold nibble in *. rewrite !list_lookup_insert_ne in Hj by lia.
      by apply lookup_replicate in Hj as [-> _]. }
  destruct c as [|z c].
  - simpl (len _). rewrite bool_decide_true by done. eexists _, _. split; [done|]. by split_and!.
  - rewrite bool_decide_false by (rewrite len_cons; pose proof (len_nonneg c); lia).
    eexists _, _. split; [done|]. split_and!; [|done|exact Hcan'|done].
    eexists. split_and!; [done|done|done|exact Hrep].
Qed.

Lemma unresolve_rep i cs ns :
  Forall2 child_rep cs ns →
  ∃ cs', unresolve i cs = Ret cs' ∧ Forall2 child_rep cs' ns ∧ ∀ j, (i ≤ j)%nat → cs' !! j = cs !! j.
Proof.
  intros HF. induction i as [|i (cs' & Hu & HF' & Hj)]; cbn [unresolve]; [by exists cs|].
  destruct (cs !! i) as [[c|]|] eqn:Hi.
  - destruct (Forall2_lookup_l _ _ _ _ _ HF Hi) as (m & Hm & Hin & Hc).
    destruct (st_hash_rep c m Hc Hin) as (c' & -> & Hc'). cbn [mbind go_bind]. eexists. split; [done|]. split.
    + rewrite <-(list_insert_id ns i m Hm). by apply Forall2_insert.
    + intros j Hlt. apply list_lookup_insert_ne. lia.
  - exists cs'. split_and!; [done..|]. intros j Hlt. apply Hj. lia.
  - exists cs'. split_and!; [done..|]. intros j Hlt. apply Hj. lia.
Qed.

Definition inserted (st : StackTrie) (n : Node) (key v : bytes) : Prop :=
  ∃ st' n', st_insert st key v = Ret st' ∧ rep st' n' ∧ live st' ∧ canon n' ∧
    updated n n' (key ++ [16]) (Some v) ∧ (is_full n → is_full n').

Lemma after_mk_short k m r : Forall nibble k → after (mk_short k m) (k ++ r) → after m r.
Proof.
  intros Hk Ha q w Hq Hg. apply (before_app k). apply (Ha (k ++ q) w); [by apply Forall_app|].
  by rewrite <-app_assoc, tget_short_app.
Qed.
(** Some key of a trie in canonical form, without its terminator. *)
Lemma canon_some_key n : canon n → ∃ k w, Forall nibble k ∧ tget n (k ++ [16]) = Some w.
Proof. intros (q & w & (k & -> & Hk) & Hg)%canon_inhabited. by exists k, w. Qed.

Lemma insert_leaf_rep k w n key v :
  rep (SLeaf k w) n → canon n → Forall nibble key → after n key → inserted (SLeaf k w) n key v.
Proof.
  intros [-> Hk] Hcan Hkey Ha.
  assert (before k key) as (c & x & y & a & b & -> & -> & Hlt).
  { apply (Ha k w); [done|]. rewrite <-(mk_short_ne (k ++ [16])) by by destruct k.
    rewrite <-(app_nil_r (k ++ [16])) at 2. rewrite tget_short_app. done. }
  apply Forall_app in Hk as [Hc [Hx Hka]%Forall_cons].
  rewrite <-app_assoc in Hcan. simpl in Hcan. rewrite <-app_assoc. simpl.
  destruct (at_parting c x a) as (_ & Hd & _).
  unfold inserted. cbn [st_insert]. rewrite getDiffIndex_parted by lia. cbn [mbind go_bind].
  rewrite bool_decide_false by (rewrite len_app, len_cons; pose proof (len_nonneg a); lia). rewrite Hd.
  assert (mk_short (a ++ [16]) (ValueNode w) = ShortNode (a ++ [16]) (ValueNode w)) as Hm
    by (apply mk_short_ne; by destruct a).
  destruct (st_hash_rep (newLeaf a w) (ShortNode (a ++ [16]) (ValueNode w))) as (h & -> & Hh); [done..|].
  cbn [mbind go_bind]. rewrite <-Hm in Hh.
  destruct (split_ok c x (a ++ [16]) y b (ValueNode w) h v Hcan Hkey Hx Hlt Hh) with (skey := c ++ x :: a)
    as (st' & n' & Hs & Hr & Hl & Hcan' & Hu); [by rewrite Hm|by eexists|].
  exists st', n'. rewrite <-app_assoc. simpl. by split_and!.
Qed.
Lemma insert_ext_rep k c n key v :
  (∀ n key, rep c n → live c → sub n → Forall nibble key → after n key → inserted c n key v) →
  rep (SExt k c) n → live (SExt k c) → canon n → Forall nibble key → after n key → inserted (SExt k c) n key v.
Proof.
  intros IH (m & -> & Hne & Hm & Hc) Hlive Hcan Hkey Ha.
  assert (canon m ∧ Forall nibble k) as [Hcm Hk] by (destruct m; try done; simpl in Hcan; naive_solver).
  rewrite <-(mk_short_ne k m Hne) in Ha.
  unfold inserted. cbn [st_insert].
  destruct (prefixLen_cases key k) as [(r & -> & _)|[(z & r & Hk' & _)|(d & y & x & b & a & -> & -> & Hxy & _)]].
  - apply after_mk_short in Ha; [|done]. apply Forall_app in Hkey as [_ Hr].
    rewrite getDiffIndex_prefix. cbn [mbind go_bind]. rewrite bool_decide_true by done.
    unfold len. rewrite Nat2Z.id, drop_app_length.
    destruct (IH m r Hc Hlive (or_intror Hcm) Hr Ha) as (c' & m' & -> & Hr' & Hl' & Hcm' & Hu & Hf).
    specialize (Hf Hm). cbn [mbind go_bind]. exists (SExt k c'), (ShortNode k m'). split_and!; try done.
    + by exists m'.
    + by destruct m'.
    + rewrite <-app_assoc, <-!(mk_short_ne k) by done. by apply updated_short.
  - exfalso. destruct (canon_some_key m Hcm) as (q & w & Hq & Hg).
    apply (not_before_prefix (z :: r ++ q) key). rewrite app_comm_cons, app_assoc, <-Hk'.
    apply (Ha (k ++ q) w); [by apply Forall_app|]. by rewrite <-app_assoc, tget_short_app.
  - apply Forall_app in Hk as [Hd [Hx Hka]%Forall_cons].
    assert (x < y) as Hlt.
    { destruct (canon_some_key m Hcm) as (q & w & Hq & Hg). apply (before_parted d x (a ++ q) y b); [done|].
      change (x :: a ++ q) with ((x :: a) ++ q). rewrite app_assoc. apply (Ha _ w).
      - apply Forall_app. split; [apply Forall_app; split; [done|by constructor]|done].
      - by rewrite <-app_assoc, tget_short_app. }
    destruct (at_parting d x a) as (_ & Hdr & _).
    rewrite getDiffIndex_parted by done. cbn [mbind go_bind].
    rewrite bool_decide_false by (rewrite len_app, len_cons; pose proof (len_nonneg a); lia).
    assert (inner (mk_short a m)) as Hin by (apply inner_mk_short; right; by destruct m).
    assert (rep (if bool_decide (len d < len (d ++ x :: a) - 1)
                 then newExt (drop (Z.to_nat (len d) + 1) (d ++ x :: a)) c else c) (mk_short a m)) as Hrest.
    { rewrite Hdr, len_app, len_cons. destruct a as [|z a].
      - rewrite bool_decide_false by (unfold len; simpl; lia). done.
      - rewrite bool_decide_true by (rewrite len_cons; pose proof (len_nonneg a); lia). by exists m. }
    destruct (st_hash_rep _ _ Hrest Hin) as (h & -> & Hh). cbn [mbind go_bind].
    destruct (split_ok d x a y b m h v Hcan Hkey Hx Hlt Hh Hin) with (skey := d ++ x :: a)
      as (st' & n' & Hs & Hr & Hl & Hcan' & Hu); [by eexists|].
    exists st', n'. rewrite <-app_assoc. simpl. by split_and!.
Qed.

Lemma insert_empty_rep key v : Forall nibble key → inserted SEmpty NilNode key v.
Proof.
  intros Hk. exists (SLeaf key v), (ShortNode (key ++ [16]) (ValueNode v)).
  assert (term_key (key ++ [16])) as Ht by by exists key. split_and!; try done.
  intros q Hq. rewrite <-mk_short_ne by by apply term_key_ne. rewrite tget_leaf by done. by case_decide.
Qed.
Lemma nth_map_child {A} (f : option StackTrie → A) cs i o d : cs !! i = Some o → nth i (map f cs) d = f o.
Proof. revert i. induction cs as [|c cs IH]; intros [|i] Hi; simplify_eq/=; [done|by apply IH]. Qed.

(** A key below a branch: it falls into the last child or after it. *)
Lemma branch_after ns x r i m :
  canon (FullNode (ns ++ [NilNode])) → after (FullNode (ns ++ [NilNode])) (x :: r) → nibble x →
  ns !! i = Some m → m ≠ NilNode → (i ≤ Z.to_nat x)%nat.
Proof.
  intros Hcan Ha Hx Hi Hm. assert ((ns ++ [NilNode]) !! i = Some m) as Hi' by by apply lookup_app_l_Some.
  destruct (full_key _ i m Hcan) as (q & w & Hq & Hg); [intros; by apply canon_inhabited|done|done|].
  destruct (decide (Z.of_nat i = x)) as [|Hne]; [lia|].
  apply term_key_cons in Hq as [[Hi16 ->]|[Hn (k & -> & Hk)]].
  - apply lookup_lt_Some in Hi. apply canon_full in Hcan as [Hl _]. rewrite length_app in Hl. simpl in Hl. lia.
  - assert (Z.of_nat i < x); [|lia]. apply (before_heads _ k _ r); [done|]. apply (Ha _ w); [by constructor|done].
Qed.
Lemma branch_child_after ns x r m :
  after (FullNode (ns ++ [NilNode])) (x :: r) → nibble x → ns !! Z.to_nat x = Some m → after m r.
Proof.
  intros Ha Hx Hm q w Hq Hg. apply (before_cons x). apply (Ha (x :: q) w); [by constructor|].
  change (tget (FullNode (ns ++ [NilNode])) (x :: (q ++ [16])) = Some w).
  rewrite tget_full. rewrite (lookup_app_l_Some _ _ _ _ Hm). done.
Qed.

Lemma insert_branch_rep cs n key v :
  Forall (λ o, match o with
               | Some c => ∀ n key, rep c n → live c → sub n → Forall nibble key → after n key → inserted c n key v
               | None => True
               end) cs →
  rep (SBranch cs) n → live (SBranch cs) → canon n → Forall nibble key → after n key → inserted (SBranch cs) n key v.
Proof.
  intros IH (ns & -> & Hl & HF)%rep_branch (i0 & c0 & Hi0 & Hc0 & Hlast)%live_branch Hcan Hkey Ha.
  destruct key as [|x r].
  { exfalso. destruct (canon_some_key _ Hcan) as (q & w & Hq & Hg). by apply (before_nil q), (Ha q w). }
  apply Forall_cons in Hkey as [Hx Hr].
  destruct (Forall2_lookup_l _ _ _ _ _ HF Hi0) as (m0 & Hm0 & Hin0 & _).
  pose proof (branch_after ns x r i0 m0 Hcan Ha Hx Hm0) as Hle. specialize (Hle ltac:(by intros ->)).
  destruct (lookup_lt_is_Some_2 ns (Z.to_nat x)) as [m Hm]; [unfold nibble in Hx; lia|].
  destruct (Forall2_lookup_r _ _ _ _ _ HF Hm) as (o & Ho & Hom).
  destruct (unresolve_rep (Z.to_nat x) cs ns HF) as (cs' & Hu & HF' & Hsame).
  pose proof (branch_child_after ns x r m Ha Hx Hm) as Hcha.
  assert (∃ c' m', match o with None => Ret (newLeaf r v) | Some c => st_insert c r v end = Ret c' ∧
            rep c' m' ∧ live c' ∧ canon m' ∧ updated m m' (r ++ [16]) (Some v)) as (c' & m' & Hi & Hr' & Hl' & Hc' & Hup).
  { destruct o as [c|]; simpl in Hom.
    - destruct Hom as [Hin Hc]. rewrite Forall_lookup in IH. specialize (IH _ _ Ho). simpl in IH.
      assert (live c) as Hlc.
      { destruct (decide (i0 = Z.to_nat x)) as [->|Hne]; [congruence|]. 
        specialize (Hlast _ _ Ho). by discriminate Hlast; lia. }
      assert (sub m) as Hsub.
      { apply canon_full in Hcan as (_ & _ & Hch). specialize (Hch (Z.to_nat x) m (lookup_app_l_Some _ _ _ _ Hm)).
        rewrite decide_False in Hch by (unfold nibble in Hx; lia). done. }
      destruct (IH m r Hc Hlc Hsub Hr Hcha) as (c' & m' & ? & ? & ? & ? & ? & _). by exists c', m'.
    - subst m. destruct (insert_empty_rep r v Hr) as (c' & m' & ? & ? & ? & ? & ? & _). by exists c', m'. }
  assert (inner m') as Hin' by by destruct m'.
  unfold inserted. cbn [st_insert]. rewrite Hu. cbn [mbind go_bind]. rewrite (nth_map_child _ _ _ _ _ Ho), Hi. cbn [mbind go_bind].
  exists (SBranch (<[Z.to_nat x := Some c']> cs')), (FullNode (<[Z.to_nat x := m']> (ns ++ [NilNode]))).
  split_and!; [done| | | | |done].
  - apply rep_branch. exists (<[Z.to_nat x := m']> ns). split_and!.
    + by rewrite insert_app_l by (unfold nibble in Hx; lia).
    + by rewrite length_insert.
    + by apply Forall2_insert.
  - apply live_branch. exists (Z.to_nat x), c'. split_and!; [|done|].
    + apply list_lookup_insert_eq. apply Forall2_length in HF'. unfold nibble in Hx. lia.
    + intros j o' Hj Hlt. rewrite list_lookup_insert_ne, Hsame in Hj by lia. apply (Hlast j); [done|lia].
  - apply canon_set_child; [done|]. unfold in_slot. by rewrite decide_False by (unfold nibble in Hx; lia).
  - simpl. apply updated_full with (c := m).
    + unfold nibble in Hx. lia.
    + by apply lookup_app_l_Some.
    + intros k Hk. apply Hup. apply term_key_cons in Hk as [[-> _]|[_ Hk]]; [unfold nibble in Hx; lia|done].
Qed.

Lemma insert_rep st v : ∀ n key,
  rep st n → live st → sub n → Forall nibble key → after n key → inserted st n key v.
Proof.
  induction st as [|cs IH|k c IH|k w|w] using StackTrie_nested_ind; intros n key Hr Hl Hs Hk Ha.
  - simpl in Hr. subst n. by apply insert_empty_rep.
  - destruct Hs as [->|Hs]; [by apply rep_branch in Hr as (? & ? & _)|]. by apply insert_branch_rep.
  - destruct Hs as [->|Hs]; [by destruct Hr as (? & ? & _)|]. by apply insert_ext_rep.
  - destruct Hs as [->|Hs]; [by destruct Hr|]. by apply insert_leaf_rep.
  - done.
Qed.

(** *** Sequences of updates *)
Definition st_updates (st : StackTrie) (ops : list (bytes * bytes)) : go StackTrie :=
  go_fold (λ st kv, st_Update st kv.1 kv.2) st ops.

Lemma before_nibbles a b :
  Forall in_u8 a → Forall in_u8 b → before a b → before (nibbles_of a) (nibbles_of b).
Proof.
  intros Ha Hb (c & x & y & a' & b' & -> & -> & Hlt). apply Forall_app in Ha as [_ [Hx _]%Forall_cons].
  apply Forall_app in Hb as [_ [Hy _]%Forall_cons].
  assert (∀ c d, nibbles_of (c ++ d) = nibbles_of c ++ nibbles_of d) as Happ
    by (intros l d; induction l as [|z l IH]; simpl; congruence).
  rewrite !Happ, before_app. cbn [nibbles_of]. destruct (decide (x / 16 = y / 16)) as [E|E].
  - rewrite E, before_cons. exists [], (x `mod` 16), (y `mod` 16). eexists _, _. split_and!; [done..|].
    pose proof (Z.div_mod x 16). pose proof (Z.div_mod y 16). lia.
  - exists [], (x / 16), (y / 16). eexists _, _. split_and!; [done..|].
    pose proof (Z.div_le_mono x y 16). lia.
Qed.

Lemma st_Update_ok st n m k v :
  rep st n → live st → entries n m → Forall in_u8 k → v ≠ [] →
  (∀ k', Forall in_u8 k' → is_Some (m !! k') → before k' k) →
  ∃ st' n', st_Update st k v = Ret st' ∧ rep st' n' ∧ live st' ∧ entries n' (<[k := v]> m).
Proof.
  intros Hr Hl He Hk Hv Hlt. unfold st_Update, st_TryUpdate, keybytesToHex.
  rewrite bool_decide_false by (destruct v; [done|rewrite len_cons; pose proof (len_nonneg v); lia]).
  rewrite length_app, Nat.add_sub, take_app_length.
  destruct (insert_rep st v n (nibbles_of k) Hr Hl) as (st' & n' & Hi & Hr' & Hl' & Hc' & Hu & _).
  - apply He.
  - by apply nibbles_of_nibble.
  - intros q w Hq Hg. destruct He as (_ & Hm & Hks). destruct (Hks (q ++ [16]) w) as (k' & Hk' & Hq'); [by exists q|done|].
    unfold keybytesToHex in Hq'. simplify_list_eq. apply before_nibbles; [done..|]. apply Hlt; [done|].
    rewrite <-Hm by done. by eexists.
  - exists st', n'. split_and!; [done..|]. apply (entries_updated n n' m k (Some v)); [done..|by right|done].
Qed.

Lemma st_updates_ok ops : ∀ st n m,
  rep st n → live st → entries n m →
  Forall (λ kv, Forall in_u8 kv.1) ops → Forall (λ kv, kv.2 ≠ []) ops → StronglySorted before ops.*1 →
  (∀ k, Forall in_u8 k → is_Some (m !! k) → Forall (before k) ops.*1) →
  ∃ st' n', st_updates st ops = Ret st' ∧ rep st' n' ∧ live st' ∧ entries n' (foldl map_update m ops).
Proof.
  induction ops as [|[k v] ops IH]; intros st n m Hr Hl He Hk Hv Hs Hm; [by exists st, n|].
  apply Forall_cons in Hk as [Hk Hks]. apply Forall_cons in Hv as [Hv Hvs]. cbn [fmap list_fmap fst] in Hs, Hm.
  apply StronglySorted_inv in Hs as [Hs Hall]. simpl in Hv, Hk.
  destruct (st_Update_ok st n m k v) as (st1 & n1 & Hu & Hr1 & Hl1 & He1); [done..| |].
  { intros k' Hk' Hin. specialize (Hm k' Hk' Hin). by apply Forall_cons in Hm as [? _]. }
  unfold st_updates. cbn [go_fold fst snd]. rewrite Hu. cbn [mbind go_bind].
  replace (foldl map_update m ((k, v) :: ops)) with (foldl map_update (<[k := v]> m) ops) by by destruct v.
  apply (IH st1 n1); try done. intros k' Hk' Hin. rewrite lookup_insert in Hin. case_decide; [by subst|].
  specialize (Hm k' Hk' Hin). by apply Forall_cons in Hm as [_ ?].
Qed.

Lemma before_irrefl a : ¬ before a a.
Proof. rewrite <-(app_nil_r a) at 1. apply not_before_prefix. Qed.
Lemma sorted_nodup ks : StronglySorted before ks → NoDup ks.
Proof.
  induction 1 as [|k ks Hs IH Hall]; constructor; [|done]. rewrite Forall_forall in Hall.
  intros Hin. by apply (before_irrefl k), Hall.
Qed.
(** The order of updates with different keys does not matter. *)
Lemma map_update_perm ops ops' :
  ops ≡ₚ ops' → NoDup ops.*1 → Forall (λ kv, kv.2 ≠ []) ops → foldl map_update ∅ ops = foldl map_update ∅ ops'.
Proof.
  intros Hp Hnd Hv. assert (NoDup ops'.*1) as Hnd' by by rewrite <-Hp.
  assert (Forall (λ kv, kv.2 ≠ []) ops') as Hv' by by rewrite <-Hp.
  destruct (foldl_map_update ops ∅ Hnd Hv) as [H1 H2]. destruct (foldl_map_update ops' ∅ Hnd' Hv') as [H1' H2'].
  apply map_eq. intros k. destruct (decide (k ∈ ops.*1)) as [Hin|Hin].
  - apply list_elem_of_fmap in Hin as ([k' v] & -> & Hin). simpl. rewrite (H1 k' v Hin). symmetry. apply H1'. by rewrite <-Hp.
  - rewrite H2 by done. rewrite H2'; [done|]. by rewrite <-Hp.
Qed.

Hypothesis emptyRoot_len : len emptyRoot = 32.

Lemma stack_trie_ok ops ops' :
  Forall (λ kv, Forall in_u8 kv.1) ops → Forall (λ kv, kv.2 ≠ []) ops → StronglySorted before ops.*1 →
  ops' ≡ₚ ops →
  ∃ st t, st_updates NewStackTrie ops = Ret st ∧ updates (DB := no_store) (mkTrie NilNode 0) ops' = Ret t ∧
    st_Hash st = Ret (Trie_Hash t).
Proof.
  intros Hk Hv Hs Hp.
  destruct (st_updates_ok ops SEmpty NilNode ∅) as (st & n & Hu & Hr & Hl & He); try done.
  { apply entries_nil. }
  { intros k _ [? Hn]. by rewrite lookup_empty in Hn. }
  destruct (updates_ok (DB := no_store) ops' (mkTrie NilNode 0) ∅) as (t & Ht & e & Hex & Het).
  { exists NilNode. split; [constructor|apply entries_nil]. }
  { by rewrite Hp. }
  exists st, t. split_and!; [done..|]. apply expands_no_store in Hex.
  rewrite (map_update_perm ops' ops) in Het;
    [|done|rewrite Hp; by apply sorted_nodup|by rewrite Hp].
  assert (n = root t) as -> by (rewrite Hex; by eapply entries_unique).
  unfold Trie_Hash. destruct Het as [[Hsub|Hsub] _]; rewrite <-Hex in Hsub; destruct (root t) eqn:Hroot; try done.
  - destruct st; simpl in Hr; try naive_solver. unfold st_Hash. simpl. by rewrite bool_decide_true.
  - by apply st_Hash_rep.
  - by apply st_Hash_rep.
Qed.
End stack_trie.

(** ** The transaction root *)

(** The hasher that [NewBlock] is given; a panic of an update stays one. *)
Definition stack_hasher `{RLP} (hashData : bytes → bytes) (emptyRoot : bytes) : TrieHasher := {|
  hasher_state := go StackTrie;
  hasher_empty := Ret NewStackTrie;
  hasher_update st k v := st ≫= λ s, st_Update hashData emptyRoot s k v;
  hasher_hash st := match st ≫= st_Hash hashData emptyRoot with Ret h => h | Halt _ => [] end
|}.

(** RLP of an unsigned integer: zero is the empty string, a value below 128 is
    its own encoding, larger ones are their big-endian bytes after a length. *)
Definition uint_size (i : Z) : nat := S (Z.to_nat (Z.log2 i / 8)).
Definition rlp_uint (i : Z) : bytes :=
  if bool_decide (i = 0) then [128] else if bool_decide (i < 128) then [i]
  else (128 + Z.of_nat (uint_size i)) :: be_bytes (uint_size i) i.

Lemma uint_size_mono i j : 0 < i ≤ j → (uint_size i ≤ uint_size j)%nat.
Proof.
  intros Hij. unfold uint_size. assert (Z.log2 i / 8 ≤ Z.log2 j / 8); [|lia].
  apply Z.div_le_mono; [lia|]. apply Z.log2_le_mono; lia.
Qed.
Lemma uint_size_bound i : 0 < i < 2^64 → (uint_size i ≤ 8)%nat ∧ i < 2^(8 * Z.of_nat (uint_size i)).
Proof.
  intros Hi. unfold uint_size. pose proof (Z.log2_nonneg i). split.
  - assert (Z.log2 i < 64) by (apply Z.log2_lt_pow2; lia).
    assert (Z.log2 i / 8 < 8) by (apply Z.div_lt_upper_bound; lia). lia.
  - assert (0 ≤ Z.log2 i / 8) by (apply Z.div_pos; lia). rewrite Nat2Z.inj_succ, Z2Nat.id by lia.
    apply Z.log2_lt_pow2; [lia|]. pose proof (Z.div_mod (Z.log2 i) 8). pose proof (Z.mod_pos_bound (Z.log2 i) 8). lia.
Qed.
Lemma be_bytes_before n : ∀ i j, 0 ≤ i → i < j → j < 2^(8 * Z.of_nat n) → before (be_bytes n i) (be_bytes n j).
Proof.
  induction n as [|n IH]; intros i j Hi Hij Hj; [simpl in Hj; lia|]. cbn [be_bytes].
  rewrite !Z.shiftr_div_pow2 by lia.
  change 255 with (Z.ones 8). rewrite !Z.land_ones by lia. change (2^8) with 256.
  pose proof (Z.div_mod i 256). pose proof (Z.div_mod j 256).
  pose proof (Z.mod_pos_bound i 256). pose proof (Z.mod_pos_bound j 256).
  destruct (decide (i / 256 = j / 256)) as [E|E].
  - rewrite E, before_app. exists [], (i `mod` 256), (j `mod` 256), [], []. split_and!; [done..|lia].
  - assert (before (be_bytes n (i / 256)) (be_bytes n (j / 256))) as (c & x & y & a & b & -> & -> & Hlt).
    { apply IH.
      - apply Z.div_pos; lia.
      - pose proof (Z.div_le_mono i j 256). lia.
      - apply Z.div_lt_upper_bound; [lia|]. replace (8 * Z.of_nat (S n)) with (8 + 8 * Z.of_nat n) in Hj by lia.
        rewrite Z.pow_add_r in Hj by lia. done. }
    exists c, x, y. eexists _, _. rewrite <-!app_assoc. by split_and!.
Qed.

Lemma rlp_uint_before i j :
  0 ≤ i → 0 ≤ j < 2^64 → (0 < i < j) ∨ (0 < i < 128 ∧ j = 0) ∨ (i = 0 ∧ 128 ≤ j) →
  before (rlp_uint i) (rlp_uint j).
Proof.
  intros Hi Hj Hc. assert (0 < uint_size j)%nat by (unfold uint_size; lia). unfold rlp_uint. repeat case_bool_decide; try lia;
    try (eexists [], _, _, _, _; split_and!; [done..|lia]).
  pose proof (uint_size_mono i j). destruct (decide (uint_size i = uint_size j)) as [E|E].
  - rewrite E, before_cons. apply be_bytes_before; [lia|lia|]. apply uint_size_bound. lia.
  - eexists [], _, _, _, _. split_and!; [done..|lia].
Qed.
Lemma rlp_uint_u8 i : 0 ≤ i < 2^64 → Forall in_u8 (rlp_uint i).
Proof.
  intros Hi. unfold rlp_uint. unfold in_u8. repeat case_bool_decide; [by repeat constructor|repeat constructor; lia|].
  constructor; [|apply be_bytes_in_u8]. destruct (uint_size_bound i); lia.
Qed.

Lemma sorted_app {A} (R : A → A → Prop) l k :
  StronglySorted R l → StronglySorted R k → (∀ x y, x ∈ l → y ∈ k → R x y) → StronglySorted R (l ++ k).
Proof.
  intros Hl Hk. induction Hl as [|x l Hl IH Hx]; intros Hlk; [done|]. simpl. constructor; [set_solver|].
  apply Forall_app. split; [done|]. apply Forall_forall. set_solver.
Qed.
Lemma sorted_seq (R : Z → Z → Prop) b n :
  (∀ i j, Z.of_nat b ≤ i → i < j → j < Z.of_nat (b + n) → R i j) → StronglySorted R (Z.of_nat <$> seq b n).
Proof.
  revert b. induction n as [|n IH]; intros b HR; cbn [seq fmap list_fmap]; constructor.
  - apply IH. intros i j. intros. apply HR; lia.
  - apply Forall_fmap, Forall_seq. intros j Hj. simpl. apply HR; lia.
Qed.
(** [DeriveSha] visits the indices in the order of their encodings. *)
Lemma derive_order_increasing n :
  0 ≤ n < 2^64 → StronglySorted before (rlp_uint <$> derive_order n).
Proof.
  intros Hn. assert (StronglySorted (λ i j, before (rlp_uint i) (rlp_uint j)) (derive_order n)) as Hs.
  { assert (∀ i b k, i ∈ Z.of_nat <$> seq b k → Z.of_nat b ≤ i < Z.of_nat (b + k)) as Hseq.
    { intros i b k (x & -> & Hx%elem_of_seq)%list_elem_of_fmap. lia. }
    unfold derive_order. apply sorted_app; [|apply sorted_app|].
    - apply sorted_seq. intros i j Hi Hij Hj. apply rlp_uint_before; lia.
    - case_bool_decide; repeat constructor.
    - apply sorted_seq. intros i j Hi Hij Hj. apply rlp_uint_before; lia.
    - intros x y Hx Hy%Hseq. case_bool_decide; [|by apply elem_of_nil in Hx].
      apply list_elem_of_singleton in Hx as ->. apply rlp_uint_before; lia.
    - intros x y Hx%Hseq [Hy|Hy%Hseq]%elem_of_app; [|apply rlp_uint_before; lia].
      case_bool_decide; [|by apply elem_of_nil in Hy]. apply list_elem_of_singleton in Hy as ->.
      apply rlp_uint_before; lia. }
  clear Hn. induction Hs as [|i l Hs IH Hi]; [constructor|]. rewrite fmap_cons. constructor; [done|]. by apply Forall_fmap.
Qed.

Section tx_root.
Context `{RL : RLP} `{RLL : !RLPLaws}.
Context (hashData : bytes → bytes) (emptyRoot : bytes).
Hypothesis hashData_len : ∀ b, len (hashData b) = 32.
Hypothesis emptyRoot_len : len emptyRoot = 32.
Abbreviation hasher := (stack_hasher hashData emptyRoot).

(** C10. The stack trie computes the root of the trie: for keys in increasing
    order, none a prefix of another, and values that are not empty, every
    update of the stack trie succeeds, and its hash is the hash of the ordinary
    trie with the same entries, in whatever order that trie got them, although
    the stack trie has replaced all finished subtrees by their hashes or
    embedded encodings on the way. *)
Theorem stack_trie_equiv ops ops' :
  Forall (λ kv, Forall in_u8 kv.1) ops → Forall (λ kv, kv.2 ≠ []) ops → StronglySorted before ops.*1 →
  ops' ≡ₚ ops →
  ∃ st t, st_updates hashData emptyRoot NewStackTrie ops = Ret st ∧
    updates (DB := no_store) (mkTrie NilNode 0) ops' = Ret t ∧
    st_Hash hashData emptyRoot st = Ret (Trie_Hash hashData emptyRoot t).
Proof. intros. by apply stack_trie_ok. Qed.

(** What [DeriveSha] does with the stack trie behind its interface. *)
Definition derived (AppendUint64 : Z → bytes) (EncodeIndex : Transaction → bytes) (txs : list Transaction) :
    list (bytes * bytes) := imap (λ i tx, (AppendUint64 (Z.of_nat i), EncodeIndex tx)) txs.

Lemma derive_fold A E (txs : list Transaction) (l : list Z) : ∀ st,
  Forall (λ i, 0 ≤ i < len txs) l →
  ∃ ops, ops.*1 = A <$> l ∧ (∀ kv, kv ∈ ops → ∃ i tx, i ∈ l ∧ txs !! Z.to_nat i = Some tx ∧ kv = (A i, E tx)) ∧
    ops = ((λ i, (A i, default [] (E <$> txs !! Z.to_nat i))) <$> l) ∧
    go_fold (λ st i, tx ← go_index txs i; Ret (hasher_update (TrieHasher := hasher) st (A i) (E tx))) st l =
      Ret (st ≫= λ s, st_updates hashData emptyRoot s ops).
Proof.
  induction l as [|i l IH]; intros st Hl.
  { exists []. split_and!; [done|by intros ? ?%elem_of_nil|done|]. by destruct st. }
  apply Forall_cons in Hl as [Hi Hl].
  destruct (lookup_lt_is_Some_2 txs (Z.to_nat i)) as [tx Htx]; [unfold len in Hi; lia|].
  destruct (IH (st ≫= λ s, st_Update hashData emptyRoot s (A i) (E tx)) Hl) as (ops & Hk & Hv & He & Hf).
  exists ((A i, E tx) :: ops). split_and!.
  - rewrite !fmap_cons. simpl. by rewrite Hk.
  - intros kv [->|Hin]%elem_of_cons; [exists i, tx; set_solver|].
    destruct (Hv kv Hin) as (j & tx' & Hj & ? & ?). exists j, tx'. set_solver.
  - rewrite fmap_cons, <-He. by rewrite Htx.
  - cbn [go_fold]. rewrite (go_index_ok txs i tx) by (lia || done). cbn [mbind go_bind].
    etrans; [exact Hf|]. destruct st as [s|]; [|done]. cbn [mbind go_bind]. unfold st_updates. cbn [go_fold fst snd]. done.
Qed.

(** C17. The transaction root of a block: on the integer keys of RLP, the stack
    trie that [DeriveSha] fills accepts every update, and the root is the hash
    of the trie that maps the encoding of each index to the encoding of the
    transaction at it, whatever the order that trie is filled in. *)
Theorem tx_root_is_trie_root AppendUint64 EncodeIndex txs ops' :
  (∀ i, 0 ≤ i < 2^64 → AppendUint64 i = rlp_uint i) →
  Forall (λ tx, EncodeIndex tx ≠ []) txs → len txs < 2^64 →
  ops' ≡ₚ derived AppendUint64 EncodeIndex txs →
  ∃ t, updates (DB := no_store) (mkTrie NilNode 0) ops' = Ret t ∧
    DeriveSha (TH := hasher) AppendUint64 EncodeIndex txs = Ret (Trie_Hash hashData emptyRoot t).
Proof.
  intros HA HE Hlen Hp. pose proof (len_nonneg txs) as Hnn.
  assert (Forall (λ i, 0 ≤ i < len txs) (derive_order (len txs))) as Hr.
  { rewrite derive_order_perm by done. apply Forall_fmap, Forall_seq. intros j Hj. simpl. lia. }
  destruct (derive_fold AppendUint64 EncodeIndex txs (derive_order (len txs)) (Ret NewStackTrie) Hr)
    as (ops & Hk & Hv & He & Hf).
  assert (ops ≡ₚ derived AppendUint64 EncodeIndex txs) as Hops.
  { rewrite He, derive_order_perm by done. unfold derived, len. rewrite Nat2Z.id. clear.
    rewrite <-list_fmap_compose. match goal with |- ?a ≡ₚ ?b => assert (a = b) as ->; [|done] end.
    apply list_eq. intros i.
    rewrite list_lookup_imap, list_lookup_fmap. destruct (txs !! i) as [tx|] eqn:Htx.
    - rewrite lookup_seq_lt by by eapply lookup_lt_Some. simpl. by rewrite Nat2Z.id, Htx.
    - rewrite lookup_seq_ge by by apply lookup_ge_None_1. done. }
  assert (AppendUint64 <$> derive_order (len txs) = rlp_uint <$> derive_order (len txs)) as HAl.
  { apply list_fmap_ext. intros j i Hi. apply HA. rewrite Forall_lookup in Hr. specialize (Hr _ _ Hi). lia. }
  destruct (stack_trie_ok hashData emptyRoot hashData_len emptyRoot_len ops ops') as (st & t & Hst & Ht & Hh).
  - apply Forall_forall. intros kv (i & tx & Hi & _ & ->)%Hv. simpl. rewrite Forall_forall in Hr. specialize (Hr i Hi).
    rewrite HA by lia. apply rlp_uint_u8. lia.
  - apply Forall_forall. intros kv (i & tx & _ & Htx & ->)%Hv. rewrite Forall_lookup in HE. by eapply HE.
  - rewrite Hk, HAl. apply derive_order_increasing. lia.
  - by rewrite Hp, Hops.
  - exists t. split; [done|]. unfold DeriveSha. etrans; [exact (f_equal (λ m, m ≫= λ st, Ret (hasher_hash st)) Hf)|].
    cbn [mbind go_bind]. rewrite Hst. simpl. by rewrite Hh.
Qed.
End tx_root.

(** ** An instance *)
Module DemoStack.
Definition toy_hash (b : bytes) : bytes := replicate 31 7 ++ [u8 (foldr Z.add 0 b)].
Lemma toy_hash_len b : len (toy_hash b) = 32.
Proof. unfold toy_hash, len. by rewrite length_app, length_replicate. Qed.
Definition ops : list (bytes * bytes) :=
  [([1; 2], replicate 40 1); ([1; 3], [5]); ([1; 200], replicate 33 2); ([17], [6])].
Definition tx_enc (tx : Transaction) : bytes := replicate 35 (ID tx) ++ [1].
Definition txs : list Transaction := (λ i, mkTransaction 0 (Z.of_nat i) [1] [2] 0 1 0 0 0 0 0 0 0 0 3) <$> seq 0 130.
End DemoStack.

Lemma stack_trie_equiv_witness :
  ∃ st t, st_updates DemoStack.toy_hash (replicate 32 0) NewStackTrie DemoStack.ops = Ret st ∧
    updates (DB := no_store) (mkTrie NilNode 0) (reverse DemoStack.ops) = Ret t ∧
    st_Hash DemoStack.toy_hash (replicate 32 0) st = Ret (Trie_Hash DemoStack.toy_hash (replicate 32 0) t).
Proof.
  apply (stack_trie_equiv DemoStack.toy_hash (replicate 32 0) DemoStack.toy_hash_len eq_refl
           DemoStack.ops (reverse DemoStack.ops)).
  - by_compute.
  - by_compute.
  - repeat constructor; try (by exists [], 1, 17; eexists _, _); try (by exists [1], 2, 3; eexists _, _);
      try (by exists [1], 2, 200; eexists _, _); by exists [1], 3, 200; eexists _, _.
  - apply reverse_Permutation.
Defined.

Lemma tx_root_is_trie_root_witness :
  ∃ t, updates (DB := no_store) (mkTrie NilNode 0) (derived rlp_uint DemoStack.tx_enc DemoStack.txs) = Ret t ∧
    DeriveSha (TH := stack_hasher DemoStack.toy_hash (replicate 32 0)) rlp_uint DemoStack.tx_enc DemoStack.txs =
      Ret (Trie_Hash DemoStack.toy_hash (replicate 32 0) t).
Proof.
  apply (tx_root_is_trie_root DemoStack.toy_hash (replicate 32 0) DemoStack.toy_hash_len eq_refl rlp_uint
           DemoStack.tx_enc DemoStack.txs (derived rlp_uint DemoStack.tx_enc DemoStack.txs)); [done| |done|done].
  apply Forall_forall. intros tx _ H. by destruct (app_cons_not_nil _ _ _ (eq_sym H)).
Defined.
