(* ===== verification/StackCodec.v ===== *)
(** * The binary form of a stack trie (src/trie/stacktrie.go: [MarshalBinary],
    [UnmarshalBinary], [NewFromBinary])

    A stack trie is written as its fields, in gob form, and its sixteen
    children, each after a byte that says whether it is there.  Reading
    inverts writing, whatever follows, and ends on every input.  Errors
    of the decoder and of the children are dropped by the code, as here. *)
From S2P Require Import Prelude Core Encoding Node Rebuild Trie MerkleProof Block StackTrie.
Local Open Scope Z_scope.

(** The object behind a stack trie, with all its fields but the database. *)
Inductive rawTrie := mkRaw { r_nodeType : Z; r_val : bytes; r_key : bytes; r_children : list (option rawTrie) }.

Section raw_ind.
Variable P : rawTrie → Prop.
Hypothesis Hraw : ∀ t v k cs, Forall (λ o, match o with Some c => P c | None => True end) cs → P (mkRaw t v k cs).
Fixpoint rawTrie_nested_ind (st : rawTrie) : P st :=
  match st with
  | mkRaw t v k cs => Hraw t v k cs ((fix go cs : Forall (λ o, match o with Some c => P c | None => True end) cs :=
      match cs with
      | [] => Forall_nil_2 _
      | o :: cs => Forall_cons_2 _ o cs
          (match o return match o with Some c => P c | None => True end with Some c => rawTrie_nested_ind c | None => I end) (go cs)
      end) cs)
  end.
End raw_ind.

(** The node types, in the order of the constants. *)
Fixpoint raw (st : StackTrie) : rawTrie :=
  match st with
  | SEmpty => mkRaw 0 [] [] (replicate 16 None)
  | SBranch cs => mkRaw 1 [] [] (map (λ o, match o with Some c => Some (raw c) | None => None end) cs)
  | SExt k c => mkRaw 2 [] k (Some (raw c) :: replicate 15 None)
  | SLeaf k v => mkRaw 3 v k (replicate 16 None)
  | SHashed v => mkRaw 4 v [] (replicate 16 None)
  end.

(** Package encoding/gob on the struct of the three fields: its encoder, and
    its decoder on a byte reader, which leaves the fields it cannot read zero
    and returns what it has not read. *)
Class FieldCodec := {
  enc_fields : Z * bytes * bytes → bytes;
  dec_fields : bytes → Z * bytes * bytes * bytes
}.
Class FieldCodecLaws `{FieldCodec} : Prop := {
  dec_enc_fields f r : dec_fields (enc_fields f ++ r) = (f, r);
  dec_fields_shorter b : (length (dec_fields b).2 ≤ length b)%nat
}.

Section codec.
Context `{FC : FieldCodec}.

Fixpoint MarshalBinary (st : rawTrie) : bytes :=
  match st with
  | mkRaw t v k cs => enc_fields (t, v, k) ++ concat (map (λ o, match o with None => [0] | Some child => 1 :: MarshalBinary child end) cs)
  end.

Definition child_form (o : option rawTrie) : bytes := match o with None => [0] | Some child => 1 :: MarshalBinary child end.

(** The loop over the children: those read, whether the data ended before the
    last, and what is left. *)
Fixpoint read_children (rec : bytes → go (rawTrie * bool * bytes)) (n : nat) (r : bytes) : go (list (option rawTrie) * bool * bytes) :=
  match n with
  | O => Ret ([], false, r)
  | S n' =>
      match r with
      | [] => Ret (replicate n None, true, [])
      | hasChild :: r =>
          '(c, r) ← (if bool_decide (hasChild = 0) then Ret (None, r) else '(child, _, r) ← rec r; Ret (Some child, r));
          '(cs, eof, r) ← read_children rec n' r;
          Ret (c :: cs, eof, r)
      end
  end.
Fixpoint unmarshalBinary (fuel : nat) (r : bytes) : go (rawTrie * bool * bytes) :=
  match fuel with
  | O => Halt (Blocked "fuel")
  | S fuel =>
      let '(t, v, k, r) := dec_fields r in
      '(cs, eof, r) ← read_children (unmarshalBinary fuel) 16 r;
      Ret (mkRaw t v k cs, eof, r)
  end.
(** Every call below the root reads a byte before it. *)
Definition UnmarshalBinary (data : bytes) : go (rawTrie * bool) :=
  '(st, eof, _) ← unmarshalBinary (S (length data)) data; Ret (st, eof).
(** With no database. *)
Definition NewFromBinary (data : bytes) : go (option rawTrie) :=
  '(st, eof) ← UnmarshalBinary data; Ret (if eof : bool then None else Some st).

Context `{FL : !FieldCodecLaws}.

(** The array has sixteen slots. *)
Fixpoint raw_ok (st : rawTrie) : Prop :=
  match st with
  | mkRaw t v k cs => length cs = 16%nat ∧ foldr (λ o P, match o with Some c => raw_ok c | None => True end ∧ P) True cs
  end.
Fixpoint height (st : rawTrie) : nat :=
  match st with mkRaw _ _ _ cs => S (foldr (λ o h, max (match o with Some c => height c | None => 0%nat end) h) 0%nat cs) end.

Lemma read_children_written rec cs r :
  Forall (λ o, match o with Some c => ∀ r, rec (MarshalBinary c ++ r) = Ret (c, false, r) | None => True end) cs →
  read_children rec (length cs) (concat (map child_form cs) ++ r) = Ret (cs, false, r).
Proof.
  induction 1 as [|o cs Ho _ IH]; [done|]. cbn [map concat length read_children]. destruct o as [c|].
  - cbn [child_form app]. rewrite bool_decide_eq_false_2, <-app_assoc, Ho by done. cbn [mbind go_bind]. by rewrite IH.
  - cbn [child_form app]. rewrite bool_decide_eq_true_2 by done. cbn [mbind go_bind]. by rewrite IH.
Qed.
Lemma unmarshal_marshal st : ∀ fuel r, raw_ok st → (height st ≤ fuel)%nat → unmarshalBinary fuel (MarshalBinary st ++ r) = Ret (st, false, r).
Proof.
  induction st as [t v k cs IH] using rawTrie_nested_ind. intros [|fuel] r [Hl Hok] Hf; [cbn in Hf; lia|]. cbn [MarshalBinary unmarshalBinary]. fold child_form.
  rewrite <-app_assoc, dec_enc_fields. rewrite <-Hl. rewrite read_children_written; [done|]. clear Hl. cbn [height] in Hf. apply le_S_n in Hf.
  induction IH as [|o cs Ho _ IH]; [constructor|]. destruct Hok as [Ho' Hok]. cbn [foldr] in Hf. constructor; [|apply IH; [done|lia]].
  destruct o as [c|]; [|done]. intros r'. apply Ho; [done|lia].
Qed.

Lemma height_length st : (height st ≤ S (length (MarshalBinary st)))%nat.
Proof.
  induction st as [t v k cs IH] using rawTrie_nested_ind. cbn [MarshalBinary height]. fold child_form. rewrite length_app. apply le_n_S.
  assert (foldr (λ o h, max (match o with Some c => height c | None => 0 end) h) 0 cs ≤
    length (concat (map child_form cs)))%nat; [|lia].
  induction IH as [|o cs Ho _ IH]; [done|]. cbn [map concat foldr]. rewrite length_app. destruct o; cbn [child_form length]; lia.
Qed.

(** Reading inverts writing. *)
Theorem stack_trie_roundtrip st : raw_ok st → NewFromBinary (MarshalBinary st) = Ret (Some st).
Proof.
  intros Hok. unfold NewFromBinary, UnmarshalBinary. pose proof (unmarshal_marshal st (S (length (MarshalBinary st))) [] Hok (height_length st)) as Hu.
  rewrite app_nil_r in Hu. by rewrite Hu.
Qed.

(** Reading ends on every input. *)
Lemma read_children_ends rec n L :
  (∀ r, (length r < L)%nat → ∃ c e r', rec r = Ret (c, e, r') ∧ (length r' ≤ length r)%nat) →
  ∀ r, (length r ≤ L)%nat → ∃ cs e r', read_children rec n r = Ret (cs, e, r') ∧ (length r' ≤ length r)%nat.
Proof.
  intros Hrec. induction n as [|n IH]; intros r Hr; [by exists [], false, r|]. cbn [read_children]. destruct r as [|b r]; [by eexists _, _, _|].
  cbn in Hr. case_bool_decide.
  - cbn [mbind go_bind]. destruct (IH r) as (cs & e & r' & -> & Hl); [lia|]. eexists _, _, _. split; [done|]. cbn. lia.
  - destruct (Hrec r) as (c & e & r' & -> & Hl); [lia|]. cbn [mbind go_bind]. destruct (IH r') as (cs & e' & r'' & -> & Hl'); [lia|].
    eexists _, _, _. split; [done|]. cbn. lia.
Qed.
Lemma unmarshal_ends fuel : ∀ r, (length r < fuel)%nat → ∃ c e r', unmarshalBinary fuel r = Ret (c, e, r') ∧ (length r' ≤ length r)%nat.
Proof.
  induction fuel as [|fuel IH]; intros r Hr; [lia|]. cbn [unmarshalBinary]. pose proof (dec_fields_shorter r) as Hd.
  destruct (dec_fields r) as [[[t v] k] r1]. cbn in Hd. destruct (read_children_ends (unmarshalBinary fuel) 16 fuel IH r1) as (cs & e & r' & -> & Hl); [lia|].
  eexists _, _, _. split; [done|]. lia.
Qed.
Theorem NewFromBinary_ends data : ∃ o, NewFromBinary data = Ret o.
Proof.
  unfold NewFromBinary, UnmarshalBinary. destruct (unmarshal_ends (S (length data)) data) as (c & e & r' & -> & _); [lia|]. by eexists.
Qed.

(** What the stack trie builds has sixteen children. *)
Fixpoint slots (st : StackTrie) : Prop :=
  match st with
  | SBranch cs => length cs = 16%nat ∧ foldr (λ o P, match o with Some c => slots c | None => True end ∧ P) True cs
  | SExt _ c => slots c
  | _ => True
  end.
Lemma raw_slots st : slots st → raw_ok (raw st).
Proof.
  induction st as [|cs IH|k c IH|k v|v] using StackTrie_nested_ind; intros Hs; try by repeat split.
  - destruct Hs as [Hl Hs]. cbn [raw raw_ok]. rewrite length_map. split; [done|]. clear Hl.
    induction IH as [|o cs Ho _ IH]; [done|]. destruct Hs as [Ho' Hs]. cbn [map foldr]. split; [|by apply IH]. destruct o; auto.
  - cbn. split_and!; auto.
Qed.
Corollary stack_trie_saved st : slots st → NewFromBinary (MarshalBinary (raw st)) = Ret (Some (raw st)).
Proof. intros Hs. by apply stack_trie_roundtrip, raw_slots. Qed.
End codec.

(** ** An instance: lengths before the bytes *)
Module DemoStackCodec.
Definition put (b : bytes) : bytes := len b :: b.
Definition take_part (r : bytes) : bytes * bytes :=
  match r with [] => ([], []) | n :: r => (take (Z.to_nat n) r, drop (Z.to_nat n) r) end.
#[global] Instance demo_fields : FieldCodec := {
  enc_fields f := f.1.1 :: put f.1.2 ++ put f.2;
  dec_fields r := match r with [] => (0, [], [], []) | t :: r => (t, (take_part r).1, (take_part (take_part r).2).1, (take_part (take_part r).2).2) end
}.
Lemma take_put b r : take_part (put b ++ r) = (b, r).
Proof. unfold take_part, put. cbn. unfold len. rewrite Nat2Z.id. by rewrite take_app_length, drop_app_length. Qed.
Lemma take_shorter r : (length (take_part r).2 ≤ length r)%nat.
Proof. destruct r as [|n r]; [done|]. cbn. rewrite length_drop. lia. Qed.
#[global] Instance demo_fields_laws : FieldCodecLaws.
Proof.
  split.
  - intros [[t v] k] r. cbn -[put take_part]. rewrite <-app_assoc, take_put. cbn -[put take_part]. by rewrite take_put.
  - intros [|t r]; [done|]. cbn -[take_part]. pose proof (take_shorter r). pose proof (take_shorter (take_part r).2). lia.
Qed.
Definition leaf : StackTrie := SLeaf [1] [7; 7].
Definition st : StackTrie := SBranch (replicate 15 None ++ [Some leaf]).
End DemoStackCodec.

Example stack_trie_saved_demo : NewFromBinary (MarshalBinary (raw DemoStackCodec.st)) = Ret (Some (raw DemoStackCodec.st)).
Proof. apply stack_trie_saved. by repeat split. Qed.
(** Data that ends inside the last child is accepted: the error of reading a
    child is dropped, and no byte is read after the last one. *)
Example truncated_accepted :
  NewFromBinary (take 19 (MarshalBinary (raw DemoStackCodec.st))) =
  Ret (Some (mkRaw 1 [] [] (replicate 15 None ++ [Some (mkRaw 0 [] [] (replicate 16 None))]))).
Proof. by vm_compute. Qed.
