(* ===== verification/RangeProof.v ===== *)
(** * Range proofs (src/trie/proof.go: [proofToPath], [unsetInternal],
    [unset], [hasRightElement], [VerifyRangeProof])

    A range proof shows that a list of keys and values is all a trie has
    between two keys.  The verifier loads the paths of the two keys from the
    proof, clears what is between them, inserts the given entries and compares
    the root hashes.  [range_proof_sound]: what is accepted is what the trie
    has in the range.

    As in Trie, nodes are without cached hashes: [unsetInternal] and [insert]
    clear those of the nodes they change, and the hash a loaded node keeps is
    the one under which the proof has it; the proof is addressed by content.
    The functions that change nodes through pointers return the changed node,
    and [Cut] where they remove a node from its parent. *)
From S2P Require Import Prelude Core Encoding Node Rebuild Trie MerkleProof Block StackTrie.
Local Open Scope Z_scope.

(** What package [rlp] returns are slices of its input. *)
Class RLPSlices `{RLP} : Prop := {
  Split_slice b k c r : Split b = Some (k, c, r) → ∃ h, b = h ++ c ++ r;
  SplitString_slice b c r : SplitString b = Some (c, r) → ∃ h, b = h ++ c ++ r;
  SplitList_slice b c r : SplitList b = Some (c, r) → ∃ h, b = h ++ c ++ r
}.

Inductive range_err :=
  | ErrInconsistent | ErrNotIncreasing | ErrDeletion | ErrInvalidProof | ErrMoreEntries | ErrInvalidKey | ErrInvalidData
  | ErrEdgeKeys | ErrEdgeLengths | ErrProofNode | ErrBadNode | ErrNotContained | ErrEmptyRange.
Abbreviation rres A := (go (range_err + A)).
Definition rok {A} (a : A) : rres A := Ret (inr a).
Definition rbind {A B} (m : rres A) (f : A → rres B) : rres B :=
  match m with Ret (inl e) => Ret (inl e) | Ret (inr a) => f a | Halt e => Halt e end.
Notation "' p <-! m ; k" := (rbind m (λ p, k)) (at level 20, p pattern, m at level 100, k at level 200, only parsing) : stdpp_scope.
Notation "p <-! m ; k" := (rbind m (λ p, k)) (at level 20, m at level 100, k at level 200, only parsing) : stdpp_scope.

Section range.
Context `{RL : RLP}.
Variable hashData : bytes → bytes.
Variable emptyRoot : bytes.

(** ** [proofToPath] *)
Definition resolveNode (Get : bytes → option bytes) (hash : bytes) : range_err + Node :=
  match Get hash with
  | None => inl ErrProofNode
  | Some buf => match decodeNode (length buf) buf with Some n => inr n | None => inl ErrBadNode end
  end.

(** The loop: the parent with the nodes loaded below it, and the value at the
    key.  Every iteration goes down one node. *)
Section path_loop.
Variable Get : bytes → option bytes.
Variable allowNonExistent : bool.
Definition absent (n : Node) : rres (Node * option bytes) := if allowNonExistent then rok (n, None) else Ret (inl ErrNotContained).
Definition path_child (rec : Node → bytes → rres (Node * option bytes)) (child : Node) (keyrest : bytes) : rres (Node * option bytes) :=
  match child with
  | NilNode => absent NilNode
  | ShortNode _ _ | FullNode _ => rec child keyrest
  | HashNode h => n <-! Ret (resolveNode Get (BytesToHash h)); rec n keyrest
  | ValueNode v => if bool_decide (0 < len v) then rok (child, Some v) else Halt (GoPanic "invalid Node")
  end.
Fixpoint path_loop (fuel : nat) (parent : Node) (key : bytes) : rres (Node * option bytes) :=
  match fuel with
  | O => Halt (Blocked "fuel")
  | S fuel =>
      match parent with
      | ShortNode k v =>
          if decide (take (length k) key = k)
          then '(v, val) <-! path_child (path_loop fuel) v (drop (length k) key); rok (ShortNode k v, val)
          else absent parent
      | FullNode cs =>
          match key with
          | [] => Halt (GoPanic "index out of range")
          | x :: keyrest =>
              c ← go_index cs x; '(c, val) <-! path_child (path_loop fuel) c keyrest;
              cs ← go_store cs x c; rok (FullNode cs, val)
          end
      | _ => Halt (GoPanic "invalid Node")
      end
  end.
End path_loop.

Definition proofToPath (fuel : nat) (rootHash : bytes) (root : Node) (key : bytes) (proofDb : bytes → option bytes) (allowNonExistent : bool) :
    rres (Node * option bytes) :=
  root <-! match root with NilNode => Ret (resolveNode proofDb rootHash) | _ => rok root end;
  path_loop proofDb allowNonExistent fuel root (keybytesToHex key).

(** ** [unset] and [unsetInternal] *)
Inductive edge := Keep (n : Node) | Cut.

(** [for i := lo; i < hi; i++ { Children[i] = nil }] *)
Definition clear (lo hi : Z) (cs : list Node) : list Node :=
  imap (λ i c, if bool_decide (lo ≤ Z.of_nat i < hi) then NilNode else c) cs.

(** The child in a full node, which the call may remove, and in a short node. *)
Definition put_child (cs : list Node) (x : Z) (r : edge) : go (list Node) :=
  go_store cs x (match r with Keep c => c | Cut => NilNode end).
Definition put_val (k : bytes) (r : edge) : go Node :=
  match r with Keep v => Ret (ShortNode k v) | Cut => Halt (GoPanic "interface conversion") end.

Definition is_valueb (n : Node) : bool := match n with ValueNode _ => true | _ => false end.
Fixpoint unset (child : Node) (key : bytes) (removeLeft : bool) : go edge :=
  match child with
  | FullNode cs =>
      match key with
      | [] => Halt (GoPanic "index out of range")
      | x :: rest =>
          r ← nth (Z.to_nat x) (map (λ c, unset c rest removeLeft) cs) (Halt (GoPanic "index out of range"));
          cs ← put_child (if removeLeft then clear 0 x cs else clear (x + 1) 16 cs) x r; Ret (Keep (FullNode cs))
      end
  | ShortNode k v =>
      if decide (take (length k) key = k) then
        if is_valueb v then Ret Cut else r ← unset v (drop (length k) key) removeLeft; n ← put_val k r; Ret (Keep n)
      else if (if removeLeft then bytes_less k key else bytes_less key k) then Ret Cut else Ret (Keep child)
  | NilNode => Ret (Keep NilNode)
  | _ => Halt (GoPanic "it shouldn't happen")
  end.

Definition same_kind_slices (a b : Node) : bool :=
  match a, b with HashNode _, HashNode _ | ValueNode _, ValueNode _ => true | _, _ => false end.
Definition is_nil (n : Node) : bool := match n with NilNode => true | _ => false end.

(** From the root down to the fork of the two keys, and there. *)
Fixpoint unset_fork (n : Node) (left right : bytes) : rres edge :=
  match n with
  | ShortNode k v =>
      let shortForkLeft := bytes_compare (take (length k) left) k in
      let shortForkRight := bytes_compare (take (length k) right) k in
      if bool_decide (shortForkLeft = 0 ∧ shortForkRight = 0) then
        r <-! unset_fork v (drop (length k) left) (drop (length k) right); n ← put_val k r; rok (Keep n)
      else if bool_decide (shortForkLeft = -1 ∧ shortForkRight = -1) then Ret (inl ErrEmptyRange)
      else if bool_decide (shortForkLeft = 1 ∧ shortForkRight = 1) then Ret (inl ErrEmptyRange)
      else if bool_decide (shortForkLeft ≠ 0 ∧ shortForkRight ≠ 0) then rok Cut
      else if is_valueb v then rok Cut
      else if bool_decide (shortForkRight ≠ 0)
      then r ← unset v (drop (length k) left) false; n ← put_val k r; rok (Keep n)
      else r ← unset v (drop (length k) right) true; n ← put_val k r; rok (Keep n)
  | FullNode cs =>
      match left, right with
      | l :: lrest, r :: rrest =>
          leftnode ← go_index cs l; rightnode ← go_index cs r;
          if is_nil leftnode || is_nil rightnode || (negb (same_kind_slices leftnode rightnode) && bool_decide (l ≠ r)) then
            let cs := clear (l + 1) r cs in
            c ← go_index cs l; e ← unset c lrest false; cs ← put_child cs l e;
            c ← go_index cs r; e ← unset c rrest true; cs ← put_child cs r e;
            rok (Keep (FullNode cs))
          else if same_kind_slices leftnode rightnode then Halt (GoPanic "comparing uncomparable type")
          else
            e <-! nth (Z.to_nat l) (map (λ c, unset_fork c lrest rrest) cs) (Halt (GoPanic "index out of range"));
            cs ← put_child cs l e; rok (Keep (FullNode cs))
      | _, _ => Halt (GoPanic "index out of range")
      end
  | _ => Halt (GoPanic "invalid Node")
  end.
(** Whether the whole trie is removed, and the trie. *)
Definition unsetInternal (n : Node) (left right : bytes) : rres (bool * Node) :=
  e <-! unset_fork n (keybytesToHex left) (keybytesToHex right);
  match e with Cut => rok (true, n) | Keep n => rok (false, n) end.

(** ** [hasRightElement] *)
Fixpoint has_right (n : Node) (key : bytes) : go bool :=
  match n with
  | FullNode cs =>
      match key with
      | [] => Halt (GoPanic "index out of range")
      | x :: rest =>
          if existsb (λ c, negb (is_nil c)) (drop (Z.to_nat (x + 1)) (take 16 cs)) then Ret true
          else nth (Z.to_nat x) (map (λ c, has_right c rest) cs) (Halt (GoPanic "index out of range"))
      end
  | ShortNode k v => if decide (take (length k) key = k) then has_right v (drop (length k) key) else Ret (bytes_less key k)
  | ValueNode _ | NilNode => Ret false
  | HashNode _ => Halt (GoPanic "invalid Node")
  end.
Definition hasRightElement (n : Node) (key : bytes) : go bool := has_right n (keybytesToHex key).

(** ** [VerifyRangeProof] *)

(** The entries are insert_shows into a trie without a database; the error of an
    update is ignored. *)
Definition insert_all (t : Trie) (kvs : list (bytes * bytes)) : go Trie :=
  go_fold (λ t kv, fst <$> TryUpdate (DB := no_store) t kv.1 kv.2) t kvs.

(** The trie rebuilt from two edge paths and the entries. *)
Definition rebuilt (fuel : nat) (rootHash firstKey lastKey : bytes) (kvs : list (bytes * bytes)) (proof : bytes → option bytes) : rres Trie :=
  '(root, _) <-! proofToPath fuel rootHash NilNode firstKey proof true;
  '(root, _) <-! proofToPath fuel rootHash root lastKey proof true;
  '(empty, root) <-! unsetInternal root firstKey lastKey;
  t ← insert_all (mkTrie (if empty : bool then NilNode else root) 0) kvs; rok t.

Fixpoint increasing (keys : list bytes) : bool :=
  match keys with
  | k :: (k' :: _) as keys => bytes_less k k' && increasing keys
  | _ => true
  end.

(** All entries, no proof. *)
Definition verify_all (rootHash : bytes) (kvs : list (bytes * bytes)) : rres bool :=
  st ← st_updates hashData emptyRoot NewStackTrie kvs;
  have ← st_Hash hashData emptyRoot st;
  if bool_decide (have ≠ rootHash) then Ret (inl ErrInvalidProof) else rok false.
(** No entries. *)
Definition verify_none (fuel : nat) (rootHash firstKey : bytes) (proof : bytes → option bytes) : rres bool :=
  '(root, val) <-! proofToPath fuel rootHash NilNode firstKey proof true;
  match val with
  | Some _ => Ret (inl ErrMoreEntries)
  | None => more ← hasRightElement root firstKey; if more : bool then Ret (inl ErrMoreEntries) else rok false
  end.
(** One entry. *)
Definition verify_one (fuel : nat) (rootHash firstKey key value : bytes) (proof : bytes → option bytes) : rres bool :=
  '(root, val) <-! proofToPath fuel rootHash NilNode firstKey proof false;
  if bool_decide (firstKey ≠ key) then Ret (inl ErrInvalidKey)
  else if bool_decide (default [] val ≠ value) then Ret (inl ErrInvalidData)
  else more ← hasRightElement root firstKey; rok more.
(** Two edges. *)
Definition verify_edges (fuel : nat) (rootHash firstKey lastKey : bytes) (kvs : list (bytes * bytes)) (proof : bytes → option bytes) : rres bool :=
  if negb (bytes_less firstKey lastKey) then Ret (inl ErrEdgeKeys)
  else if bool_decide (length firstKey ≠ length lastKey) then Ret (inl ErrEdgeLengths)
  else
    t <-! rebuilt fuel rootHash firstKey lastKey kvs proof;
    if bool_decide (Trie_Hash hashData emptyRoot t ≠ rootHash) then Ret (inl ErrInvalidProof)
    else more ← hasRightElement (root t) (default [] (last kvs.*1)); rok more.

(** An error, or whether there are more entries to the right. *)
Definition VerifyRangeProof (fuel : nat) (rootHash firstKey lastKey : bytes) (keys values : list bytes) (proof : option (bytes → option bytes)) : rres bool :=
  if bool_decide (length keys ≠ length values) then Ret (inl ErrInconsistent)
  else if negb (increasing keys) then Ret (inl ErrNotIncreasing)
  else if existsb (λ v, bool_decide (len v = 0)) values then Ret (inl ErrDeletion)
  else
    let kvs := zip keys values in
    match proof with
    | None => verify_all rootHash kvs
    | Some proof =>
        match kvs with
        | [] => verify_none fuel rootHash firstKey proof
        | [(key, value)] =>
            if bool_decide (firstKey = lastKey) then verify_one fuel rootHash firstKey key value proof
            else verify_edges fuel rootHash firstKey lastKey kvs proof
        | _ => verify_edges fuel rootHash firstKey lastKey kvs proof
        end
    end.
End range.

(** ** What a partly loaded trie shows at a key *)
Inductive sight := Absent | Found (v : bytes) | Opaque.
Fixpoint look (n : Node) (q : bytes) : sight :=
  match n with
  | NilNode => Absent
  | ValueNode v => if decide (q = []) then Found v else Absent
  | HashNode _ => Opaque
  | ShortNode k v => if decide (take (length k) q = k) then look v (drop (length k) q) else Absent
  | FullNode cs => match q with [] => Absent | x :: q => nth (Z.to_nat x) (map (λ c, look c q) cs) Absent end
  end.

Lemma look_full cs x q : look (FullNode cs) (x :: q) = match cs !! Z.to_nat x with Some c => look c q | None => Absent end.
Proof.
  cbn [look]. destruct (cs !! Z.to_nat x) as [c|] eqn:E; [by apply (nth_map_lookup (λ c, look c q))|].
  apply nth_overflow. rewrite length_map. by apply lookup_ge_None.
Qed.
Lemma look_short_app k v q : look (ShortNode k v) (k ++ q) = look v q.
Proof. cbn [look]. by rewrite take_app_length, decide_True, drop_app_length. Qed.
Lemma look_short_ne k v q : take (length k) q ≠ k → look (ShortNode k v) q = Absent.
Proof. intros. cbn [look]. by rewrite decide_False. Qed.

(** Nodes as the decoder and [insert] leave them: keys are nibbles with or
    without a terminator, full nodes have 17 slots. *)
Fixpoint fair (n : Node) : Prop :=
  match n with
  | FullNode cs => length cs = 17%nat ∧ foldr (λ c P, fair c ∧ P) True cs
  | ShortNode k v => hex_key k ∧ fair v
  | _ => True
  end.
Lemma fair_full cs : fair (FullNode cs) ↔ length cs = 17%nat ∧ Forall fair cs.
Proof.
  cbn [fair]. assert (foldr (λ c P, fair c ∧ P) True cs ↔ Forall fair cs) as ->; [|done].
  induction cs as [|c cs IH]; simpl; [by rewrite Forall_nil|by rewrite Forall_cons, IH].
Qed.

Lemma length_clear lo hi cs : length (clear lo hi cs) = length cs.
Proof. apply length_imap. Qed.
Lemma lookup_clear lo hi cs i : clear lo hi cs !! i = (λ c, if bool_decide (lo ≤ Z.of_nat i < hi) then NilNode else c) <$> cs !! i.
Proof. apply list_lookup_imap. Qed.
Lemma fair_clear lo hi cs : fair (FullNode cs) → fair (FullNode (clear lo hi cs)).
Proof.
  rewrite !fair_full, length_clear. intros [Hl HF]. split; [done|]. apply Forall_lookup. intros i c. rewrite lookup_clear.
  intros (c' & Hc & ->)%fmap_Some. case_bool_decide; [done|]. by eapply Forall_lookup_1.
Qed.
Lemma fair_store cs x c cs' : fair (FullNode cs) → fair c → go_store cs x c = Ret cs' → fair (FullNode cs').
Proof. rewrite !fair_full. intros [Hl HF] Hc [_ ->]%go_store_Ret. rewrite length_insert. split; [done|]. by apply Forall_insert. Qed.

(** *** Comparing keys of one length *)
Lemma term_key_16 k : term_key (16 :: k) → k = [].
Proof. intros [[_ ->]|[Hn _]]%term_key_cons; [done|unfold nibble in Hn; lia]. Qed.
Lemma term_key_head x k : term_key (x :: k) → 0 ≤ x ≤ 16.
Proof. intros [[-> _]|[Hn _]]%term_key_cons; [lia|unfold nibble in Hn; lia]. Qed.
(** The rest of a key: a key, or nothing after the terminator. *)
Definition tail_key (k : bytes) : Prop := k = [] ∨ term_key k.
Lemma tail_key_drop k q : tail_key (k ++ q) → tail_key q.
Proof.
  revert q. induction k as [|x k IH]; intros q; [done|]. intros [?|[[_ Hk]|[_ Hk]]%term_key_cons]; [done| |].
  - apply app_eq_nil in Hk as [_ ->]. by left.
  - apply IH. by right.
Qed.

Definition edge_node (e : edge) : Node := match e with Keep n => n | Cut => NilNode end.
(** Nothing is left on the side of [key] that is removed. *)
Definition cleared (removeLeft : bool) (e : edge) (key : bytes) : Prop :=
  ∀ q, tail_key q → length q = length key → (if removeLeft then bytes_less key q else bytes_less q key) = false → look (edge_node e) q = Absent.

Lemma nth_map_go {A B} (f : A → go B) l i r h : nth i (map f l) (Halt h) = Ret r → ∃ c, l !! i = Some c ∧ f c = Ret r.
Proof.
  intros Hn. destruct (l !! i) as [c|] eqn:E.
  - rewrite (nth_map_lookup _ _ _ _ _ E) in Hn. by exists c.
  - rewrite nth_overflow in Hn; [done|]. rewrite length_map. by apply lookup_ge_None.
Qed.

Lemma look_nil_full cs x q : cs !! Z.to_nat x = Some NilNode → look (FullNode cs) (x :: q) = Absent.
Proof. intros Hc. by rewrite look_full, Hc. Qed.

Definition clear_side (removeLeft : bool) (x : Z) (cs : list Node) : list Node := if removeLeft then clear 0 x cs else clear (x + 1) 16 cs.
Lemma clear_side_nil (removeLeft : bool) x rest y q cs :
  term_key (x :: rest) → term_key (y :: q) → length q = length rest → y ≠ x →
  (if removeLeft then bytes_less (x :: rest) (y :: q) else bytes_less (y :: q) (x :: rest)) = false →
  clear_side removeLeft x cs !! Z.to_nat y = Some NilNode ∨ clear_side removeLeft x cs !! Z.to_nat y = None.
Proof.
  intros Hx Hy Hl Hne Hless. pose proof (term_key_head _ _ Hx). pose proof (term_key_head _ _ Hy). unfold clear_side.
  destruct removeLeft; cbn in Hless; rewrite lookup_clear; (destruct (cs !! Z.to_nat y) as [d|]; [left; cbn; f_equal|by right]);
    (rewrite bool_decide_eq_true_2; [done|]); rewrite Z2Nat.id by lia.
  - destruct (decide (x < y)); [by rewrite bool_decide_eq_true_2 in Hless by lia|lia].
  - destruct (decide (y < x)); [by rewrite bool_decide_eq_true_2 in Hless by lia|].
    destruct (decide (y = 16)) as [->|]; [|lia]. apply term_key_16 in Hy as ->. destruct rest; [|done].
    apply term_key_cons in Hx as [[-> _]|[_ ?%term_key_nil]]; done.
Qed.
(** The side of a full node is cleared, and its child on the path. *)
Lemma cleared_full removeLeft cs x rest c r cs' :
  term_key (x :: rest) → cs !! Z.to_nat x = Some c → cleared removeLeft r rest ∧ (fair c → fair (edge_node r)) →
  put_child (clear_side removeLeft x cs) x r = Ret cs' →
  cleared removeLeft (Keep (FullNode cs')) (x :: rest) ∧ (fair (FullNode cs) → fair (FullNode cs')).
Proof.
  intros Hterm Hc [Hcl Hfair] Hst. pose proof (term_key_head _ _ Hterm). apply go_store_Ret in Hst as [Hlt ->]. split.
  - intros [|y q] Hq Hl Hless; [done|]. cbn [edge_node]. injection Hl as Hl. destruct Hq as [?|Hq]; [done|]. pose proof (term_key_head _ _ Hq).
    destruct (decide (y = x)) as [->|Hne].
    + rewrite look_full, list_lookup_insert_eq by (unfold len in Hlt; lia). apply Hcl; [apply (tail_key_drop [x]); by right|done|].
      destruct removeLeft; cbn in Hless; rewrite bool_decide_eq_false_2, bool_decide_eq_true_2 in Hless by (done || lia); done.
    + assert (Hcs := clear_side_nil removeLeft x rest y q cs Hterm Hq Hl Hne Hless). rewrite look_full, list_lookup_insert_ne by lia. by destruct Hcs as [-> | ->].
  - intros Hf. assert (fair (FullNode (clear_side removeLeft x cs))) as Hf1 by (unfold clear_side; destruct removeLeft; by apply fair_clear).
    eapply fair_store; [exact Hf1| |by apply go_store_Ret]. apply fair_full in Hf as [_ Hf]. destruct r; [|done]. apply Hfair. by eapply Forall_lookup_1.
Qed.
(** A short node off the path stays, or is removed with what is below it. *)
Lemma cleared_beside (removeLeft : bool) k v key :
  take (length k) key ≠ k → (if removeLeft then bytes_less k key else bytes_less key k) = false → cleared removeLeft (Keep (ShortNode k v)) key.
Proof.
  intros Ek Ecut q Hq Hl Hless. cbn [edge_node]. destruct (prefix_cases k q) as [[q' ->]|Hne]; [|by apply look_short_ne]. exfalso.
  assert (¬ k `prefix_of` key) as Hnp by (intros [z ->]; apply Ek; by rewrite take_app_length). destruct removeLeft.
  - destruct (bytes_less key k) eqn:E2.
    + assert (bytes_less key (k ++ q') = true) as Hc; [|by rewrite Hc in Hless].
      apply (bytes_less_le_trans _ k); [done|]. apply bytes_less_prefix.
    + apply Hnp. rewrite (bytes_less_total k key); done.
  - destruct (bytes_less k key) eqn:E2; [by rewrite (bytes_less_extend k key q') in Hless by done|].
    apply Hnp. rewrite (bytes_less_total k key); done.
Qed.

Lemma unset_ok removeLeft child : ∀ key e, tail_key key → unset child key removeLeft = Ret e →
  cleared removeLeft e key ∧ (fair child → fair (edge_node e)).
Proof.
  induction child as [|cs IH|k v IH|h|v] using Node_nested_ind; intros key e Hkey; cbn [unset]; try done.
  - intros [= <-]. by split.
  - destruct key as [|x rest]; [done|]. intros (r & (c & Hc & Hr)%nth_map_go & Hst)%go_bind_Ret.
    apply go_bind_Ret in Hst as (cs' & Hst & [= <-]). rewrite Forall_forall in IH. destruct Hkey as [?|Hkey]; [done|].
    apply (cleared_full removeLeft cs x rest c r); [done..| |done]. apply (IH c (list_elem_of_lookup_2 _ _ _ Hc)); [apply (tail_key_drop [x]); by right|done].
  - destruct (decide (take (length k) key = k)) as [Ek|Ek].
    + assert (key = k ++ drop (length k) key) as Hk by (by rewrite <-Ek at 1; rewrite take_drop). set (rest := drop (length k) key) in *.
      destruct (is_valueb v); [intros [= <-]; by split|]. intros (r & Hr & Hp)%go_bind_Ret. apply go_bind_Ret in Hp as (n & Hp & [= <-]).
      destruct (IH rest r) as [Hcl Hfair]; [apply (tail_key_drop k); by rewrite <-Hk|done|]. destruct r as [v'|]; [|done]. injection Hp as <-.
      split; [|intros [? ?]; split; auto]. intros q Hq Hl Hless. cbn [edge_node]. destruct (prefix_cases k q) as [[q' ->]|Hne]; [|by apply look_short_ne].
      rewrite look_short_app. apply Hcl; [by eapply tail_key_drop|rewrite Hk, !length_app in Hl; lia|].
      rewrite Hk, !bytes_less_app in Hless. done.
    + destruct (if removeLeft then bytes_less k key else bytes_less key k) eqn:Ecut; intros [= <-]; [by split|]. split; [|done]. by apply cleared_beside.
Qed.

(** Nothing is left between the edges. *)
Definition emptied (e : edge) (left right : bytes) : Prop :=
  ∀ q, tail_key q → length q = length left → bytes_less q left = false → bytes_less right q = false → look (edge_node e) q = Absent.

Lemma compare_take k q : bytes_compare (take (length k) q) k = 0 → q = k ++ drop (length k) q.
Proof. intros Hc%bytes_compare_0. by rewrite <-Hc at 1; rewrite take_drop. Qed.
Lemma put_val_Ret k r n : put_val k r = Ret n → ∃ v, r = Keep v ∧ n = ShortNode k v.
Proof. destruct r as [v|]; [|done]. intros [= <-]. by exists v. Qed.

(** Both edges run through a short node, or one of them does. *)
Lemma emptied_short k v left right :
  (∀ q, tail_key (k ++ q) → length (k ++ q) = length left → bytes_less (k ++ q) left = false → bytes_less right (k ++ q) = false → look v q = Absent) →
  emptied (Keep (ShortNode k v)) left right.
Proof.
  intros Hv q Hq Hl H1 H2. cbn [edge_node]. destruct (prefix_cases k q) as [[q' ->]|Hne]; [|by apply look_short_ne].
  rewrite look_short_app. by apply Hv.
Qed.

Lemma fair_edge_child cs x r : fair (FullNode cs) → fair (edge_node r) → ∀ cs', put_child cs x r = Ret cs' → fair (FullNode cs').
Proof. intros Hf Hr cs'. unfold put_child. apply fair_store; [done|]. by destruct r. Qed.
Lemma put_child_Ret cs x r cs' : put_child cs x r = Ret cs' → 0 ≤ x < len cs ∧ cs' = <[Z.to_nat x := edge_node r]> cs.
Proof. unfold put_child. intros [Hx ->]%go_store_Ret. by destruct r. Qed.

(** The fork at a full node. *)
Lemma fork_full cs l lrest r rrest c1 e1 cs1 c2 e2 cs2 :
  term_key (l :: lrest) → term_key (r :: rrest) → length lrest = length rrest → bytes_less (l :: lrest) (r :: rrest) = true →
  (l = r → cs !! Z.to_nat l = Some NilNode) →
  go_index (clear (l + 1) r cs) l = Ret c1 → unset c1 lrest false = Ret e1 → put_child (clear (l + 1) r cs) l e1 = Ret cs1 →
  go_index cs1 r = Ret c2 → unset c2 rrest true = Ret e2 → put_child cs1 r e2 = Ret cs2 →
  emptied (Keep (FullNode cs2)) (l :: lrest) (r :: rrest) ∧ (fair (FullNode cs) → fair (FullNode cs2)).
Proof.
  intros Htl Htr Hlen Hlt Hnil Hc1 Hu1 Hp1 Hc2 Hu2 Hp2.
  pose proof (term_key_head _ _ Htl). pose proof (term_key_head _ _ Htr).
  assert (tail_key lrest) as Hkl by (apply (tail_key_drop [l]); by right). assert (tail_key rrest) as Hkr by (apply (tail_key_drop [r]); by right).
  destruct (unset_ok _ _ _ _ Hkl Hu1) as [Hcl1 Hf1]. destruct (unset_ok _ _ _ _ Hkr Hu2) as [Hcl2 Hf2].
  apply go_index_Ret in Hc1 as [_ Hc1]. apply go_index_Ret in Hc2 as [_ Hc2].
  pose proof (put_child_Ret _ _ _ _ Hp1) as [[_ Hr1] Hcs1]. pose proof (put_child_Ret _ _ _ _ Hp2) as [[_ Hr2] Hcs2].
  unfold len in Hr1, Hr2. rewrite length_clear in Hr1. split.
  - intros [|y q] Hq Hl Hge Hle; [done|]. injection Hl as Hl. cbn [edge_node]. destruct Hq as [?|Hq]; [done|]. pose proof (term_key_head _ _ Hq).
    assert (tail_key q) as Hkq by (apply (tail_key_drop [y]); by right).
    assert (l ≤ y) as Hly by (destruct (decide (y < l)); [cbn in Hge; by rewrite bool_decide_eq_true_2 in Hge|lia]).
    assert (y ≤ r) as Hyr by (destruct (decide (r < y)); [cbn in Hle; by rewrite bool_decide_eq_true_2 in Hle|lia]).
    rewrite look_full. destruct (decide (y = r)) as [->|Hnr].
    + rewrite Hcs2, list_lookup_insert_eq by lia. destruct (decide (l = r)) as [->|Hne].
      * assert (c1 = NilNode) as -> by (rewrite lookup_clear, (Hnil eq_refl) in Hc1; cbn in Hc1; case_bool_decide; congruence).
        cbn in Hu1. injection Hu1 as <-. rewrite Hcs1, list_lookup_insert_eq in Hc2 by (rewrite length_clear; lia).
        injection Hc2 as <-. cbn in Hu2. by injection Hu2 as <-.
      * apply Hcl2; [done|lia|]. cbn in Hle. by rewrite bool_decide_eq_false_2, bool_decide_eq_true_2 in Hle by (done || lia).
    + rewrite Hcs2, list_lookup_insert_ne, Hcs1 by lia. destruct (decide (y = l)) as [->|Hnl].
      * rewrite list_lookup_insert_eq by (rewrite length_clear; lia). apply Hcl1; [done|lia|].
        cbn in Hge. by rewrite bool_decide_eq_false_2, bool_decide_eq_true_2 in Hge by (done || lia).
      * rewrite list_lookup_insert_ne, lookup_clear by lia. destruct (cs !! Z.to_nat y); [|done]. cbn. by rewrite bool_decide_eq_true_2 by lia.
  - intros Hf. apply (fair_clear (l + 1) r) in Hf. pose proof Hf as [_ HF]%fair_full.
    eapply fair_edge_child; [|apply Hf2|done].
    + eapply fair_edge_child; [done|apply Hf1|done]. by eapply Forall_lookup_1.
    + assert (fair (FullNode cs1)) as [_ HF1]%fair_full; [|by eapply Forall_lookup_1].
      eapply fair_edge_child; [done|apply Hf1|done]. by eapply Forall_lookup_1.
Qed.

Lemma go_bind_rok {A B} (m : go A) (f : A → rres B) b : (m ≫= f) = rok b → ∃ a, m = Ret a ∧ f a = rok b.
Proof. apply go_bind_Ret. Qed.
Lemma rbind_rok {A B} (m : rres A) (f : A → rres B) b : rbind m f = rok b → ∃ a, m = rok a ∧ f a = rok b.
Proof. destruct m as [[?|a]|?]; [done|by exists a|done]. Qed.

(** One edge runs through a short node, which the other one misses. *)
Lemma unset_short_left k v left right r n :
  tail_key left → bytes_compare (take (length k) left) k = 0 → unset v (drop (length k) left) false = Ret r → put_val k r = Ret n →
  emptied (Keep n) left right ∧ (fair (ShortNode k v) → fair n).
Proof.
  intros Hl El Hu (v' & -> & ->)%put_val_Ret. apply compare_take in El. set (l' := drop _ left) in *.
  destruct (unset_ok false v l' (Keep v')) as [Hcl Hf]; [apply (tail_key_drop k); by rewrite <-El|done|].
  split; [|intros [? ?]; split; [done|by apply Hf]]. apply emptied_short. intros q Hq Hlq Hge _. rewrite El, bytes_less_app in Hge.
  apply Hcl; [by eapply tail_key_drop|rewrite El, !length_app in Hlq; lia|done].
Qed.
Lemma unset_short_right k v left right r n :
  tail_key right → length left = length right → bytes_compare (take (length k) right) k = 0 → unset v (drop (length k) right) true = Ret r → put_val k r = Ret n →
  emptied (Keep n) left right ∧ (fair (ShortNode k v) → fair n).
Proof.
  intros Hr Hlen Er Hu (v' & -> & ->)%put_val_Ret. apply compare_take in Er. set (r' := drop _ right) in *.
  destruct (unset_ok true v r' (Keep v')) as [Hcl Hf]; [apply (tail_key_drop k); by rewrite <-Er|done|].
  split; [|intros [? ?]; split; [done|by apply Hf]]. apply emptied_short. intros q Hq Hlq _ Hle. rewrite Er, bytes_less_app in Hle.
  apply Hcl; [by eapply tail_key_drop|rewrite Hlen, Er, !length_app in Hlq; lia|done].
Qed.

Lemma unset_fork_ok n : ∀ left right e, tail_key left → tail_key right → length left = length right → bytes_less left right = true →
  unset_fork n left right = rok e → emptied e left right ∧ (fair n → fair (edge_node e)).
Proof.
  induction n as [|cs IH|k v IH|h|v] using Node_nested_ind; intros left right e Hl Hr Hlen Hlt; cbn [unset_fork]; try done.
  - destruct left as [|l lrest]; [done|]. destruct right as [|r rrest]; [done|]. injection Hlen as Hlen.
    destruct Hl as [?|Hl]; [done|]. destruct Hr as [?|Hr]; [done|]. pose proof (term_key_head _ _ Hl). pose proof (term_key_head _ _ Hr).
    intros (ln & Hln & Hx)%go_bind_rok. apply go_bind_rok in Hx as (rn & Hrn & Hx).
    destruct (is_nil ln || is_nil rn || _) eqn:Efork.
    + apply go_bind_rok in Hx as (c1 & Hc1 & Hx). apply go_bind_rok in Hx as (e1 & Hu1 & Hx). apply go_bind_rok in Hx as (cs1 & Hp1 & Hx).
      apply go_bind_rok in Hx as (c2 & Hc2 & Hx). apply go_bind_rok in Hx as (e2 & Hu2 & Hx). apply go_bind_rok in Hx as (cs2 & Hp2 & [= <-]).
      eapply fork_full; try done. intros ->. assert (ln = rn) as -> by congruence. apply go_index_Ret in Hrn as [_ Hrn]. rewrite Hrn. f_equal.
      rewrite (bool_decide_eq_false_2 (r ≠ r)), andb_false_r, orb_false_r, orb_diag in Efork by tauto. by destruct rn.
    + destruct (same_kind_slices ln rn); [done|]. cbn in Efork. apply orb_false_iff in Efork as [_ Elr]. apply bool_decide_eq_false_1 in Elr.
      assert (l = r) as <- by (destruct (decide (l = r)); [done|by destruct Elr]).
      apply rbind_rok in Hx as (e1 & (c & Hc & He1)%nth_map_go & Hx). apply go_bind_rok in Hx as (cs1 & Hp1 & [= <-]).
      rewrite Forall_forall in IH. assert (bytes_less lrest rrest = true) as Hlt' by (cbn in Hlt; by rewrite bool_decide_eq_false_2, bool_decide_eq_true_2 in Hlt by (done || lia)).
      destruct (IH c (list_elem_of_lookup_2 _ _ _ Hc) lrest rrest e1) as [He Hf];
        [apply (tail_key_drop [l]); by right|apply (tail_key_drop [l]); by right|done|done|done|].
      pose proof (put_child_Ret _ _ _ _ Hp1) as [[_ Hr1] Hcs1]. unfold len in Hr1. split.
      * intros [|y q] Hq Hlq Hge Hle; [done|]. injection Hlq as Hlq. cbn [edge_node].
        assert (y = l) as ->.
        { cbn in Hge, Hle. destruct (decide (y < l)); [by rewrite bool_decide_eq_true_2 in Hge|]. destruct (decide (l < y)); [by rewrite bool_decide_eq_true_2 in Hle|lia]. }
        rewrite look_full, Hcs1, list_lookup_insert_eq by lia. cbn in Hge, Hle. rewrite bool_decide_eq_false_2, bool_decide_eq_true_2 in Hge, Hle by (done || lia).
        apply He; [|done..]. apply (tail_key_drop [l]). done.
      * intros Hfair. cbn [edge_node]. eapply fair_edge_child; [done|apply Hf|done]. apply fair_full in Hfair as [_ HF]. by eapply Forall_lookup_1.
  - set (sl := bytes_compare (take (length k) left) k). set (sr := bytes_compare (take (length k) right) k).
    destruct (decide (sl = 0)) as [El|El], (decide (sr = 0)) as [Er|Er].
    + rewrite bool_decide_eq_true_2 by done. intros (r & Hr' & Hx)%rbind_rok. apply go_bind_rok in Hx as (n & (v' & -> & ->)%put_val_Ret & [= <-]).
      apply compare_take in El, Er. set (l' := drop _ left) in *. set (r' := drop _ right) in *.
      rewrite El, Er, bytes_less_app in Hlt. rewrite El, Er, !length_app in Hlen.
      destruct (IH l' r' (Keep v')) as [He Hf]; [apply (tail_key_drop k); by rewrite <-El|apply (tail_key_drop k); by rewrite <-Er|lia|done|done|].
      split; [|intros [? ?]; split; auto]. apply emptied_short. intros q Hq Hlq Hge Hle. rewrite El, bytes_less_app in Hge. rewrite Er, bytes_less_app in Hle.
      apply He; [by eapply tail_key_drop|rewrite El, !length_app in Hlq; lia|done|done].
    + rewrite bool_decide_eq_false_2 by tauto. do 2 (rewrite bool_decide_eq_false_2 by (intros [? ?]; lia)).
      rewrite bool_decide_eq_false_2 by tauto. destruct (is_valueb v); [intros [= <-]; by split|]. rewrite bool_decide_eq_true_2 by done.
      intros (r & Hu & Hx)%go_bind_rok. apply go_bind_rok in Hx as (n & Hp & [= <-]). by eapply unset_short_left.
    + rewrite bool_decide_eq_false_2 by tauto. do 2 (rewrite bool_decide_eq_false_2 by (intros [? ?]; lia)).
      rewrite bool_decide_eq_false_2 by tauto. destruct (is_valueb v); [intros [= <-]; by split|]. rewrite bool_decide_eq_false_2 by tauto.
      intros (r & Hu & Hx)%go_bind_rok. apply go_bind_rok in Hx as (n & Hp & [= <-]). by eapply unset_short_right.
    + rewrite bool_decide_eq_false_2 by tauto. case_bool_decide; [done|]. case_bool_decide; [done|]. rewrite bool_decide_eq_true_2 by done.
      intros [= <-]. by split.
Qed.

(** ** Insertion into a partly loaded trie *)
#[local] Abbreviation insert0 := (Trie.insert (DB := no_store)).

(** Two keys that agree so far: both go on, or both have ended. *)
Definition in_step (key q : bytes) : Prop := (term_key key ∧ term_key q) ∨ (key = [] ∧ q = []).
Lemma in_step_drop k key q : in_step (k ++ key) (k ++ q) → in_step key q.
Proof.
  intros [[H1 H2]|[H1 H2]].
  - destruct (tail_key_drop k key (or_intror H1)) as [->|Hk].
    + rewrite app_nil_r in H1. apply (term_key_prefix k) in H2 as ->; [by right|done].
    + destruct (tail_key_drop k q (or_intror H2)) as [->|Hq]; [|by left].
      rewrite app_nil_r in H2. apply (term_key_prefix k) in H1 as ->; [by right|done].
  - apply app_eq_nil in H1 as [_ ->], H2 as [_ ->]. by right.
Qed.
Lemma in_step_child x key q : in_step (x :: key) (x :: q) → in_step key q.
Proof. apply (in_step_drop [x]). Qed.

(** What an insertion does: an error only where a node is missing. *)
Definition insert_shows (n : Node) (key v : bytes) (r : MissingNodeError + bool * Node) : Prop :=
  match r with
  | inl _ => look n key = Opaque
  | inr (d, n') =>
      (∀ q, in_step key q → look n' q = if decide (q = key) then Found v else look n q) ∧
      (fair n → fair n') ∧ (key ≠ [] → inner n ∨ n = NilNode → inner n') ∧ (d = false → n' = n)
  end.

Lemma look_mk_short k v q : look (mk_short k v) q = if decide (take (length k) q = k) then look v (drop (length k) q) else Absent.
Proof. by destruct k. Qed.
Lemma look_mk_app k v q : look (mk_short k v) (k ++ q) = look v q.
Proof. rewrite look_mk_short, take_app_length, decide_True by done. by rewrite drop_app_length. Qed.
Lemma look_mk_ne k v q : take (length k) q ≠ k → look (mk_short k v) q = Absent.
Proof. intros. rewrite look_mk_short. by rewrite decide_False. Qed.
Lemma fair_mk_short k v : hex_key k → fair v → fair (mk_short k v).
Proof. destruct k; [done|by split]. Qed.
Lemma hex_key_drop k q : hex_key (k ++ q) → hex_key q.
Proof.
  intros (ns & Hns & H). revert ns Hns H. induction k as [|x k IH]; intros ns Hns H; [by exists ns|].
  destruct ns as [|y ns]; [destruct H as [?|[= -> H]]; [done|]; apply app_eq_nil in H as [_ ->]; exists []; by split; [constructor|left]|].
  apply Forall_cons in Hns as [_ Hns]. apply (IH ns Hns). destruct H as [[= _ ->]|[= _ ->]]; auto.
Qed.

Lemma tbind_Ret {A B} (m : tres A) (f : A → tres B) r :
  tbind m f = Ret r → (∃ err, m = Ret (inl err) ∧ r = inl err) ∨ ∃ a, m = tok a ∧ f a = Ret r.
Proof. destruct m as [[err|a]|h]; cbn; [intros [= <-]; left; by exists err|intros; right; by exists a|done]. Qed.

Lemma look_short_short k1 k2 v q : look (mk_short (k1 ++ k2) v) q = look (mk_short k1 (mk_short k2 v)) q.
Proof.
  destruct (prefix_cases k1 q) as [[r ->]|H1].
  - rewrite look_mk_app. destruct (prefix_cases k2 r) as [[r' ->]|H2]; [by rewrite app_assoc, !look_mk_app|].
    rewrite !look_mk_ne; [done|done|]. rewrite length_app, take_app_add. by intros ?%app_inv_head.
  - rewrite !look_mk_ne; [done|done|]. intros E. apply H1. apply (f_equal (take (length k1))) in E.
    rewrite take_take, length_app, take_app_length in E. by rewrite Nat.min_l in E by lia.
Qed.
Lemma look_short_cons y b v z r : look (ShortNode (y :: b) v) (z :: r) = if decide (z = y) then look (mk_short b v) r else Absent.
Proof.
  change (ShortNode (y :: b) v) with (mk_short ([y] ++ b) v). rewrite look_short_short. case_decide as E.
  - subst z. apply (look_mk_app [y]).
  - apply look_mk_ne. cbn. congruence.
Qed.
Lemma look_leaf k v q : in_step k q → look (mk_short k (ValueNode v)) q = if decide (q = k) then Found v else Absent.
Proof.
  intros [[Hk Hq]|[-> ->]]; [|done]. destruct (prefix_cases k q) as [[r ->]|Hne].
  - rewrite (term_key_prefix k r) by done. rewrite look_mk_app, app_nil_r, decide_True by done. done.
  - rewrite look_mk_ne by done. rewrite decide_False; [done|]. intros ->. apply Hne. apply take_ge. lia.
Qed.

(** A short node parts: where the keys differ a full node with both. *)
Definition parted (x : Z) (a : bytes) (y : Z) (b : bytes) (nv : Node) (v : bytes) : Node :=
  FullNode (<[Z.to_nat x := mk_short a (ValueNode v)]> (<[Z.to_nat y := mk_short b nv]> (replicate 17 NilNode))).
Lemma look_parted x a y b nv v q : term_key (x :: a) → in_step (x :: a) q → x ≠ y → 0 ≤ y < 17 →
  look (parted x a y b nv v) q = if decide (q = x :: a) then Found v else look (ShortNode (y :: b) nv) q.
Proof.
  intros Hxa Hq Hxy Hy. pose proof (term_key_head _ _ Hxa) as Hx. destruct q as [|z r]; [destruct Hq as [[_ ?%term_key_nil]|[]]; done|].
  assert (0 ≤ z ≤ 16) as Hz by (destruct Hq as [[_ Hz]|[]]; [by apply (term_key_head z r)|done]). unfold parted. rewrite look_full.
  rewrite look_short_cons. destruct (decide (z = x)) as [->|Hzx].
  - rewrite list_lookup_insert_eq by (rewrite length_insert, length_replicate; lia). rewrite (decide_False (P := x = y)) by done.
    rewrite (look_leaf a v r) by (by apply (in_step_child x)). by repeat case_decide; simplify_eq.
  - rewrite list_lookup_insert_ne by lia. rewrite (decide_False (P := z :: r = x :: a)) by congruence. case_decide as Ezy.
    + subst z. by rewrite list_lookup_insert_eq by (rewrite length_replicate; lia).
    + rewrite list_lookup_insert_ne by lia. by rewrite lookup_replicate_2 by lia.
Qed.
Lemma fair_parted x a y b nv v : term_key (x :: a) → hex_key (y :: b) → fair nv → fair (parted x a y b nv v).
Proof.
  intros Hxa Hb Hnv. apply fair_full. rewrite !length_insert, length_replicate. split; [done|].
  apply Forall_insert; [apply Forall_insert; [by apply Forall_replicate|]|]; (apply fair_mk_short; [|done]); [by apply (hex_key_drop [y])|].
  destruct (tail_key_drop [x] a (or_intror Hxa)) as [->|(ns & -> & Hns)]; [exists []; split; [constructor|by left]|exists ns; auto].
Qed.

Lemma inserted_split c x a y b nv v :
  term_key (c ++ x :: a) → x ≠ y → 0 ≤ y < 17 →
  insert_shows (ShortNode (c ++ y :: b) nv) (c ++ x :: a) v (inr (true, mk_short c (parted x a y b nv v))).
Proof.
  intros Hkey Hxy Hy. pose proof (term_key_split c x a Hkey) as [Hc Hxa]. rewrite <-(mk_short_ne (c ++ y :: b)) by (by destruct c).
  split; [|split; [|split; [by destruct c|done]]].
  - intros q Hq. rewrite look_short_short. destruct (prefix_cases c q) as [[r ->]|Hne].
    + rewrite !look_mk_app. rewrite (look_parted x a y b nv v r) by (done || by apply (in_step_drop c)). cbn [mk_short].
      destruct (decide (r = x :: a)) as [->|Hr]; [by rewrite decide_True|]. rewrite decide_False; [done|]. by intros ?%app_inv_head.
    + rewrite !look_mk_ne by done. rewrite decide_False; [done|]. intros ->. apply Hne. by rewrite take_app_length.
  - intros Hf. rewrite mk_short_ne in Hf by (by destruct c). destruct Hf as [Hk Hnv]. apply fair_mk_short; [exists c; by split; [|left]|].
    apply fair_parted; [done| |done]. by apply (hex_key_drop c).
Qed.

Lemma inserted_end n v d : (d = false → n = ValueNode v) → insert_shows n [] v (inr (d, ValueNode v)).
Proof.
  intros Hd. split; [|split; [done|split; [done|intros E; by rewrite (Hd E)]]].
  intros q [[?%term_key_nil _]|[_ ->]]; [done|]. by rewrite decide_True.
Qed.
Lemma inserted_leaf key v : term_key key → insert_shows NilNode key v (inr (true, ShortNode key (ValueNode v))).
Proof.
  intros Hk. assert (key ≠ []) as Hne by by apply term_key_ne. rewrite <-(mk_short_ne key) by done. split; [|split; [|split; [by destruct key|done]]].
  - intros q Hq. by rewrite look_leaf.
  - intros _. apply fair_mk_short; [|done]. destruct Hk as (ns & -> & Hns). exists ns. auto.
Qed.
Lemma inserted_full cs x c key v d c' :
  0 ≤ x → cs !! Z.to_nat x = Some c → insert_shows c key v (inr (d, c')) →
  insert_shows (FullNode cs) (x :: key) v (inr (d, FullNode (<[Z.to_nat x := c']> cs))).
Proof.
  intros Hx Hc (Hl & Hf & _ & Hd). pose proof (lookup_lt_Some _ _ _ Hc). split; [|split; [|split; [done|]]].
  - intros [|z q] Hq; [destruct Hq as [[_ ?%term_key_nil]|[]]; done|]. rewrite !look_full. destruct (decide (z = x)) as [->|Hne].
    + rewrite list_lookup_insert_eq, Hc by done. rewrite Hl by (by apply (in_step_child x)). repeat case_decide; congruence.
    + assert (0 ≤ z) by (destruct Hq as [[_ Hz%term_key_head]|[]]; [lia|done]). rewrite list_lookup_insert_ne by lia.
      by rewrite decide_False by congruence.
  - rewrite !fair_full, length_insert. intros [? HF]. split; [done|]. apply Forall_insert; [done|]. apply Hf. by eapply Forall_lookup_1.
  - intros E. rewrite (Hd E). by rewrite list_insert_id.
Qed.
Lemma inserted_short k c key v d c' :
  insert_shows c key v (inr (d, c')) → insert_shows (ShortNode k c) (k ++ key) v (inr (d, ShortNode k c')).
Proof.
  intros (Hl & Hf & _ & Hd). split; [|split; [by intros [? ?]; split; auto|split; [done|intros E; by rewrite (Hd E)]]].
  intros q Hq. destruct (prefix_cases k q) as [[r ->]|Hne].
  - rewrite !look_short_app, Hl by (by apply (in_step_drop k)). repeat case_decide; simplify_list_eq; done.
  - rewrite !look_short_ne by done. rewrite decide_False; [done|]. intros ->. apply Hne. by rewrite take_app_length.
Qed.

Lemma go_index_mid c (z : Z) l : go_index (c ++ z :: l) (len c) = Ret z.
Proof. apply go_index_ok; unfold len; [lia|]. by rewrite Nat2Z.id, list_lookup_middle. Qed.
Lemma drop_mid c (z : Z) l : drop (S (Z.to_nat (len c))) (c ++ z :: l) = l.
Proof. unfold len. rewrite Nat2Z.id, cons_middle, app_assoc. rewrite drop_app_length' by (rewrite length_app; simpl; lia). done. Qed.

Lemma insert_short_partly fuel k nv prefix key v r :
  (∀ n prefix key r, tail_key key → insert0 fuel n prefix key (ValueNode v) = Ret r → insert_shows n key v r) →
  term_key key → insert0 (S fuel) (ShortNode k nv) prefix key (ValueNode v) = Ret r → insert_shows (ShortNode k nv) key v r.
Proof.
  intros IH Hkey. destruct key as [|k0 krest] eqn:Hk0; [by apply term_key_nil in Hkey|]. cbn [Trie.insert]. rewrite <-Hk0 in Hkey |- *. clear k0 krest Hk0.
  destruct (prefixLen_cases key k) as [(q & -> & ->)|[(y & q & -> & ->)|(c & x & y & a & b & -> & -> & Hxy & ->)]].
  - rewrite bool_decide_true by done. unfold len. rewrite Nat2Z.id, take_app_length, drop_app_length.
    intros [(err & Hi & ->)|([d n'] & Hi & Hr)]%tbind_Ret; apply IH in Hi; try (eapply tail_key_drop; by right).
    + cbn. by rewrite take_app_length, decide_True, drop_app_length by done.
    + apply (inserted_short k) in Hi. destruct d; injection Hr as <-; [done|]. by rewrite (proj2 (proj2 (proj2 Hi)) eq_refl) in Hi.
  - rewrite bool_decide_false by (rewrite len_app, len_cons; pose proof (len_nonneg q); lia).
    intros (i & _ & Hx)%go_bind_Ret. exfalso. apply tbind_Ret in Hx as [(err & Hn & _)|([d c] & _ & Hx)]; [destruct fuel; [done|]; by rewrite insert_nil in Hn by lia|].
    apply go_bind_Ret in Hx as (br & _ & Hx). apply go_bind_Ret in Hx as (j & [_ Hj%lookup_lt_Some]%go_index_Ret & _). unfold len in Hj. lia.
  - rewrite bool_decide_false by (rewrite len_app, len_cons; pose proof (len_nonneg b); lia).
    rewrite !go_index_mid, !drop_mid. cbn [mbind go_bind]. destruct fuel as [|fuel]; [done|]. rewrite !insert_nil by lia.
    cbv beta iota delta [mbind go_bind tbind tok]. unfold go_store at 1. case_bool_decide as Hy; [|done]. unfold len in Hy. rewrite length_replicate in Hy.
    cbv beta iota. unfold go_store at 1. case_bool_decide as Hx; [|done].
    assert (take (Z.to_nat (len c)) (c ++ x :: a) = c) as -> by (unfold len; by rewrite Nat2Z.id, take_app_length).
    assert (insert_shows (ShortNode (c ++ y :: b) nv) (c ++ x :: a) v (inr (true, mk_short c (parted x a y b nv v)))) as Hs by (by apply inserted_split).
    destruct c; [by intros [= <-]|]. rewrite bool_decide_false by (rewrite len_cons; pose proof (len_nonneg c); lia). by intros [= <-].
Qed.

Lemma insert_partly fuel v : ∀ n prefix key r, tail_key key → insert0 fuel n prefix key (ValueNode v) = Ret r → insert_shows n key v r.
Proof.
  induction fuel as [|fuel IH]; intros n prefix key r Hkey; [done|]. destruct Hkey as [->|Hkey].
  { cbn [Trie.insert]. destruct n; intros [= <-]; apply inserted_end; try done. rewrite negb_false_iff, bool_decide_eq_true. by intros ->. }
  pose proof (term_key_ne _ Hkey). destruct n as [|cs|k nv|h|w]; [| |by apply insert_short_partly| |by destruct key].
  - destruct key as [|k0 krest] eqn:Hk0; [done|]. intros [= <-]. by apply inserted_leaf.
  - destruct key as [|x krest] eqn:Hk0; [done|]. cbn [Trie.insert]. intros (c & [Hx Hc]%go_index_Ret & Hi)%go_bind_Ret.
    apply tbind_Ret in Hi as [(err & Hi & ->)|([d c'] & Hi & Hr)]; apply IH in Hi; try (apply (tail_key_drop [x]); by right).
    + cbn [insert_shows]. by rewrite look_full, Hc.
    + apply (inserted_full cs x) in Hi; [|done|done]. destruct d.
      * apply go_bind_Ret in Hr as (cs' & [_ ->]%go_store_Ret & [= <-]). done.
      * injection Hr as <-. by rewrite (proj2 (proj2 (proj2 Hi)) eq_refl) in Hi.
  - destruct key as [|x krest] eqn:Hk0; [done|]. cbn. by intros [= <-].
Qed.

(** All entries are insert_shows; the keys in [R] were all visible. *)
Definition sight_of (o : option bytes) : sight := match o with Some v => Found v | None => Absent end.
Definition shows (R : bytes → Prop) (n : Node) (m : gmap bytes bytes) : Prop :=
  ∀ k, Forall in_u8 k → R k → look n (keybytesToHex k) = sight_of (m !! k).
Definition put_all (m : gmap bytes bytes) (kvs : list (bytes * bytes)) : gmap bytes bytes := foldl (λ m kv, <[kv.1 := kv.2]> m) m kvs.

Lemma TryUpdate_partly t k v t' err :
  Forall in_u8 k → v ≠ [] → TryUpdate (DB := no_store) t k v = Ret (t', err) →
  (err ≠ None ∧ root t' = root t ∧ look (root t) (keybytesToHex k) = Opaque) ∨
  ∃ d, insert_shows (root t) (keybytesToHex k) v (inr (d, root t')).
Proof.
  intros Hk Hv. unfold TryUpdate. rewrite bool_decide_eq_true_2 by (destruct v; [done|rewrite len_cons; pose proof (len_nonneg v); lia]). cbn [root].
  intros (r & Hi & Hs)%go_bind_Ret. apply insert_partly in Hi; [|right; by apply term_key_keybytes].
  destruct r as [e|[d n']]; injection Hs as <- <-; [left; by split_and!|right; by exists d].
Qed.

Lemma insert_all_ok R kvs : ∀ t t' m,
  insert_all t kvs = Ret t' → Forall (λ kv, Forall in_u8 kv.1 ∧ kv.2 ≠ []) kvs → shows R (root t) m → fair (root t) → inner (root t) ∨ root t = NilNode →
  shows R (root t') (put_all m kvs) ∧ fair (root t') ∧ (inner (root t') ∨ root t' = NilNode).
Proof.
  induction kvs as [|[k v] kvs IH]; intros t t' m; [intros [= ->]; done|]. cbn [insert_all go_fold fst snd]. intros Hall [[Hk Hv] HF]%Forall_cons Hm Hf Hin. cbn [fst snd] in *.
  apply go_bind_Ret in Hall as (t1 & Hup & Hall). destruct (TryUpdate t k v) as [[t2 err]|] eqn:E; [|done]. injection Hup as <-.
  apply (TryUpdate_partly t k v t2 err Hk Hv) in E as [(_ & Hr & Ho)|(d & Hl & Hf' & Hi' & _)].
  - apply (IH t2 t' (<[k := v]> m) Hall HF); [|by rewrite Hr..]. intros q Hq HR. rewrite Hr. rewrite lookup_insert_ne; [by apply Hm|].
    intros <-. rewrite (Hm k Hk HR) in Ho. by destruct (m !! k).
  - assert (keybytesToHex k ≠ []) as Hne by (by apply term_key_ne, term_key_keybytes).
    apply (IH t2 t' (<[k := v]> m) Hall HF); [|by apply Hf'|by left; apply Hi'].
    intros q Hq HR. rewrite Hl by (left; split; by apply term_key_keybytes). destruct (decide (q = k)) as [->|Hqk].
    + by rewrite decide_True, lookup_insert_eq by done.
    + rewrite decide_False, lookup_insert_ne by (intros E; by try apply keybytesToHex_inj in E). by apply Hm.
Qed.

(** ** Equal root hashes *)
Section agreement.
Context `{RL : RLP}.
Variable hashData : bytes → bytes.
Abbreviation hash := (MerkleProof.hash hashData).
Abbreviation collapsed := (hashed_children hashData).

(** Different nodes of the two tries have different digests. *)
Definition no_clash (n e : Node) : Prop := ∀ s s', s ∈ subtrees n → s' ∈ subtrees e →
  hashData (encode (collapsed s)) = hashData (encode (collapsed s')) → collapsed s = collapsed s'.

(** [n] is a part of [e]; a hash is that of what it stands for. *)
Inductive agrees : Node → Node → Prop :=
  | ag_hash h e : hash e false = HashNode h → agrees (HashNode h) e
  | ag_nil : agrees NilNode NilNode
  | ag_value v : agrees (ValueNode v) (ValueNode v)
  | ag_full cs es : length cs = 17%nat → length es = 17%nat →
      (∀ i c e, cs !! i = Some c → es !! i = Some e → c ≠ ValueNode [] ∨ e ≠ NilNode → agrees c e) →
      cs !! 16%nat = es !! 16%nat → agrees (FullNode cs) (FullNode es)
  | ag_short k v e : agrees v e → agrees (ShortNode k v) (ShortNode k e).

Lemma hash_inner n force : inner n → hash n force = nodeToHash hashData (collapsed n) force.
Proof. by destruct n. Qed.
Lemma collapsed_inner n : inner n → inner (collapsed n).
Proof. by destruct n. Qed.
Lemma nodeToHash_cases n force : (∃ h, nodeToHash hashData n force = HashNode h ∧ h = hashData (encode n)) ∨ (nodeToHash hashData n force = n).
Proof. unfold nodeToHash. destruct (_ && _); [by right|left; by eexists]. Qed.
Lemma hash_inner_form n force : inner n → (∃ h, hash n force = HashNode h) ∨ inner (hash n force).
Proof.
  intros Hn. rewrite hash_inner by done. destruct (nodeToHash_cases (collapsed n) force) as [(h & -> & _)| ->]; [left; by exists h|right].
  by apply collapsed_inner.
Qed.

Lemma collapsed_eq n e force : inner n → inner e → no_clash n e → hash n force = hash e force → collapsed n = collapsed e.
Proof.
  intros Hn He Hc. rewrite !hash_inner by done. pose proof (collapsed_inner _ Hn). pose proof (collapsed_inner _ He).
  assert (n ∈ subtrees n) by (destruct n; try done; by left). assert (e ∈ subtrees e) by (destruct e; try done; by left).
  destruct (nodeToHash_cases (collapsed n) force) as [(h & -> & Hh)| ->], (nodeToHash_cases (collapsed e) force) as [(h' & -> & Hh')| ->].
  - intros [= E]. apply Hc; [done..|]. congruence.
  - intros E. by rewrite <-E in *.
  - intros E. by rewrite E in *.
  - done.
Qed.
Lemma no_clash_child cs es i c e : cs !! i = Some c → es !! i = Some e → no_clash (FullNode cs) (FullNode es) → no_clash c e.
Proof. intros Hc%list_elem_of_lookup_2 He%list_elem_of_lookup_2 Hn s s' Hs Hs'. apply Hn; eapply subtrees_child; eauto. Qed.
Lemma no_clash_val k v k' v' : no_clash (ShortNode k v) (ShortNode k' v') → no_clash v v'.
Proof. intros Hn s s' Hs Hs'. apply Hn; by right. Qed.

Lemma lookup_hashed cs : ∀ j i, hashFullNodeChildren hashData j cs !! i =
  (λ c, if bool_decide (j + i < 16)%nat then match c with NilNode => ValueNode [] | _ => hash c false end else c) <$> cs !! i.
Proof.
  induction cs as [|c cs IH]; intros j i; [done|]. cbn [hashFullNodeChildren]. destruct i as [|i]; cbn [lookup list_lookup]; [by rewrite Nat.add_0_r|].
  change (hashFullNodeChildren hashData (S j) cs !! i = (λ c, if bool_decide (j + S i < 16)%nat then match c with NilNode => ValueNode [] | _ => hash c false end else c) <$> cs !! i).
  rewrite IH. by replace (j + S i)%nat with (S j + i)%nat by lia.
Qed.
Lemma canon_child es i e : canon (FullNode es) → es !! i = Some e → (sub e ∨ is_value e) ∧ ((i < 16)%nat → sub e) ∧ (i = 16%nat → e = NilNode ∨ is_value e).
Proof.
  intros (Hl & _ & Hes)%canon_full He. specialize (Hes _ _ He). case_decide as E.
  - subst i. split; [destruct Hes as [->|?]; [left; by left|by right]|]. split; [lia|done].
  - split; [by left|]. by split.
Qed.

(** An inner node hashes like no other node but an inner one. *)
Lemma same_hash_inner n e force : inner n → sub e ∨ is_value e → hash n force = hash e force → inner e.
Proof.
  intros Hn He Hh. destruct (hash_inner_form n force Hn) as [[h Hx]|Hx]; rewrite Hh in Hx; destruct e; try done; by destruct He as [[|[]]|[]].
Qed.
(** The slot of a child in a hashed full node. *)
Definition hashed_slot (i : nat) (c : Node) : Node :=
  if bool_decide (i < 16)%nat then match c with NilNode => ValueNode [] | _ => hash c false end else c.
Lemma collapsed_slots cs es i c e : collapsed (FullNode cs) = collapsed (FullNode es) → cs !! i = Some c → es !! i = Some e → hashed_slot i c = hashed_slot i e.
Proof. intros [= Hceq] Hc He. apply (f_equal (lookup i)) in Hceq. rewrite !lookup_hashed, Hc, He in Hceq. by injection Hceq. Qed.
Lemma slot_nil i c : hashed_slot i c = hashed_slot i NilNode → (i < 16)%nat → c = NilNode ∨ c = ValueNode [].
Proof.
  unfold hashed_slot. intros Hs Hi. rewrite bool_decide_eq_true_2 in Hs by done. destruct c as [|cs|k v|h|w]; [by left|..|by right].
  - by destruct (hash_inner_form (FullNode cs) false I) as [[h Hx]|Hx]; rewrite Hs in Hx.
  - by destruct (hash_inner_form (ShortNode k v) false I) as [[h Hx]|Hx]; rewrite Hs in Hx.
  - done.
Qed.
Lemma slot_inner i c e : hashed_slot i c = hashed_slot i e → (i < 16)%nat → inner e → hash c false = hash e false ∧ c ≠ NilNode.
Proof.
  unfold hashed_slot. intros Hs Hi He. rewrite bool_decide_eq_true_2 in Hs by done. destruct c; [|by destruct e..].
  destruct (hash_inner_form e false He) as [[h Hx]|Hx]; destruct e; try done; by rewrite <-Hs in Hx.
Qed.
(** A short node of a trie: its key, and what is below it. *)
Lemma canon_short_key k e : canon (ShortNode k e) → hex_key k ∧ (canon e ∧ inner e ∨ is_value e).
Proof.
  destruct e; cbn; try done.
  - intros (? & _ & ?). split; [exists k; auto|by left].
  - intros (ns & -> & ?). split; [exists ns; auto|by right].
Qed.
Lemma child_hash_inner c e : canon e ∧ inner e ∨ is_value e →
  (match c with ShortNode _ _ | FullNode _ => hash c false | _ => c end) = (match e with ShortNode _ _ | FullNode _ => hash e false | _ => e end) →
  hash c false = hash e false.
Proof.
  intros [[Hc Hi]|Hv] Hh.
  - destruct c; try done; destruct e; try done; cbn [MerkleProof.hash] in *; done.
  - by destruct e, c.
Qed.

(** Nodes with the same hash agree. *)
Lemma hash_agrees n : ∀ e force, fair n → sub e ∨ is_value e → no_clash n e → (is_hash n = true → force = false) →
  hash n force = hash e force → agrees n e.
Proof.
  induction n as [|cs IH|k v IH|h|w] using Node_nested_ind; intros e force Hf He Hnc Hforce Hh.
  - destruct e as [|es|k' v'|?|?]; [constructor|..|by destruct He as [[|[]]|[]]|done]; by apply eq_sym, same_hash_inner in Hh; [..|left; left].
  - pose proof (same_hash_inner (FullNode cs) e force I He Hh) as Hi. pose proof (collapsed_eq (FullNode cs) e force I Hi Hnc Hh) as Hceq.
    destruct e as [|es|? ?|?|?]; try done. destruct He as [[?|He]|?]; [done| |done]. apply fair_full in Hf as [Hl Hf]. pose proof He as (Hle & _ & _)%canon_full.
    assert (cs !! 16%nat = es !! 16%nat) as H16.
    { destruct (lookup_lt_is_Some_2 cs 16%nat) as [c Hc]; [lia|]. destruct (lookup_lt_is_Some_2 es 16%nat) as [e Hee]; [lia|].
      pose proof (collapsed_slots cs es 16 c e Hceq Hc Hee) as Hs. unfold hashed_slot in Hs. rewrite bool_decide_eq_false_2 in Hs by lia. congruence. }
    constructor; [done|done| |done]. intros i c e Hci Hei Hne. destruct (canon_child es i e He Hei) as (_ & Hsub & Hslot).
    pose proof (lookup_lt_Some _ _ _ Hci). pose proof (collapsed_slots _ _ _ _ _ Hceq Hci Hei) as Hs. destruct (decide (i = 16%nat)) as [->|Hi16].
    { assert (c = e) as -> by congruence. destruct (Hslot eq_refl) as [->|Hv]; [constructor|destruct e; try done; constructor]. }
    destruct (Hsub ltac:(lia)) as [->|Hcan].
    + destruct (slot_nil i c Hs) as [->| ->]; [lia|constructor|by destruct Hne].
    + assert (inner e) as Hie by (by destruct e). destruct (slot_inner i c e Hs ltac:(lia) Hie) as [Hh' _]. rewrite Forall_forall in IH, Hf.
      pose proof (list_elem_of_lookup_2 _ _ _ Hci) as Hin. apply (IH _ Hin e false); [by apply Hf|left; by right|by eapply no_clash_child|done|done].
  - pose proof (same_hash_inner (ShortNode k v) e force I He Hh) as Hi. pose proof (collapsed_eq (ShortNode k v) e force I Hi Hnc Hh) as Hceq.
    destruct e as [|?|k' v'|?|?]; try done. destruct He as [[?|He]|?]; [done| |done]. destruct Hf as [Hkey Hf]. destruct (canon_short_key k' v' He) as [Hkey' Hv'].
    cbn in Hceq. unfold hashShortNodeChildren in Hceq. injection Hceq as Hk Hv.
    apply (f_equal compactToHex) in Hk. rewrite !compact_of_hex in Hk by done. subst k'. constructor.
    apply (IH v' false); [done|destruct Hv' as [[? _]|?]; [left; by right|by right]|by eapply no_clash_val|done|by apply child_hash_inner].
  - constructor. by rewrite <-(Hforce eq_refl), <-Hh.
  - destruct e as [|es|k' v'|?|?]; [done|..|by destruct He as [[|[]]|[]]|injection Hh as <-; constructor]; by apply eq_sym, same_hash_inner in Hh; [..|by right].
Qed.

Lemma nil_dec (e : Node) : e = NilNode ∨ e ≠ NilNode.
Proof. destruct e; by (left + right). Qed.
Lemma empty_dec (c : Node) : c = ValueNode [] ∨ c ≠ ValueNode [].
Proof. destruct c as [| | | |[]]; by (left + right). Qed.

(** What the part shows is what the trie has. *)
Lemma agrees_look n e : agrees n e → ∀ q, tail_key q →
  match look n q with Found v => tget e q = Some v | Absent => tget e q = None | Opaque => True end.
Proof.
  induction 1 as [h e _| |v|cs es Hl Hle _ IH H16|k v e _ IH]; intros q Hq; try done.
  - cbn [look tget]. by case_decide.
  - destruct q as [|x q]; [done|]. destruct Hq as [?|Hq]; [done|]. pose proof (term_key_head _ _ Hq). rewrite look_full, tget_full.
    destruct (lookup_lt_is_Some_2 cs (Z.to_nat x)) as [c Hc]; [lia|]. destruct (lookup_lt_is_Some_2 es (Z.to_nat x)) as [e He]; [lia|].
    rewrite Hc, He. cbn [mbind option_bind]. assert (tail_key q) as Hqt by (apply (tail_key_drop [x]); by right).
    destruct (nil_dec e) as [->|Hne]; [|by apply (IH _ _ _ Hc He); [right|]].
    destruct (empty_dec c) as [->|Hnc]; [|by apply (IH _ _ _ Hc He); [left|]].
    cbn [look tget]. case_decide as Eq; [|done]. subst q. apply term_key_cons in Hq as [[-> _]|[_ ?%term_key_nil]]; [|done].
    change (Z.to_nat 16) with 16%nat in *. congruence.
  - cbn [look tget]. case_decide as E; [|done]. apply IH. apply (tail_key_drop (take (length k) q)). by rewrite take_drop.
Qed.

(** [hasRightElement] sees what is greater. *)
Lemma has_right_none n e : agrees n e → ∀ q, tail_key q → has_right n q = Ret false →
  ∀ q', tail_key q' → length q' = length q → bytes_less q q' = true → tget e q' = None.
Proof.
  induction 1 as [h e _| |v|cs es Hl Hle Hch IH H16|k v e _ IH]; intros q Hq; try done.
  - intros _ q' _ Hlen Hlt. cbn. rewrite decide_False; [done|]. intros ->. by destruct q.
  - destruct q as [|x q]; [done|]. destruct Hq as [?|Hq]; [done|]. pose proof (term_key_head _ _ Hq). cbn [has_right].
    destruct (existsb _ _) eqn:Eex; [done|]. intros (c & Hc & Hr)%nth_map_go [|y q'] Hq' Hlen Hlt; [done|]. injection Hlen as Hlen.
    destruct Hq' as [?|Hq']; [done|]. pose proof (term_key_head _ _ Hq'). rewrite tget_full.
    destruct (es !! Z.to_nat y) as [e|] eqn:He; [|done]. cbn [mbind option_bind].
    destruct (nil_dec e) as [->|Hne]; [done|]. destruct (decide (y = x)) as [->|Hyx].
    + apply (IH _ _ _ Hc He) with (q := q); [by right|apply (tail_key_drop [x]); by right|done|apply (tail_key_drop [x]); by right|done|].
      cbn in Hlt. by rewrite bool_decide_eq_false_2, bool_decide_eq_true_2 in Hlt by (done || lia).
    + assert (x < y) by (destruct (decide (x < y)); [done|]; cbn in Hlt; by rewrite !bool_decide_eq_false_2 in Hlt by lia).
      assert (y < 16) as Hy16.
      { destruct (decide (y = 16)) as [->|]; [|lia]. apply term_key_16 in Hq' as ->. destruct q; [|done].
        apply term_key_cons in Hq as [[-> _]|[_ ?%term_key_nil]]; [lia|done]. }
      destruct (lookup_lt_is_Some_2 cs (Z.to_nat y)) as [c' Hc']; [lia|].
      assert (is_nil c' = true) as Hnil.
      { destruct (is_nil c') eqn:En; [done|]. assert (existsb (λ c, negb (is_nil c)) (drop (Z.to_nat (x + 1)) (take 16 cs)) = true) as Hex; [|congruence].
        apply existsb_exists. exists c'. rewrite En. split; [|done]. apply list_elem_of_In, list_elem_of_lookup. exists (Z.to_nat y - Z.to_nat (x + 1))%nat.
        rewrite lookup_drop, lookup_take_lt by lia. by replace (Z.to_nat (x + 1) + (Z.to_nat y - Z.to_nat (x + 1)))%nat with (Z.to_nat y) by lia. }
      destruct c'; try done. pose proof (Hch _ _ _ Hc' He ltac:(by right)) as Ha. inversion Ha; by subst.
  - cbn [has_right]. destruct (decide (take (length k) q = k)) as [Ek|Ek].
    + assert (q = k ++ drop (length k) q) as Hk by (by rewrite <-Ek at 1; rewrite take_drop). set (r := drop _ q) in *. rewrite Hk in Hq |- *. clear Hk Ek.
      intros Hr q' Hq' Hlen Hlt. destruct (prefix_cases k q') as [[r' ->]|Hne]; [|cbn; by rewrite decide_False].
      rewrite bytes_less_app in Hlt. rewrite !length_app in Hlen. cbn. rewrite take_app_length, decide_True, drop_app_length by done.
      apply (IH r); [by eapply tail_key_drop|done|by eapply tail_key_drop|lia|done].
    + intros [= Hnl] q' Hq' Hlen Hlt. destruct (prefix_cases k q') as [[r' ->]|Hne]; [|cbn; by rewrite decide_False]. exfalso.
      destruct (bytes_less k q) eqn:Ekq; [|apply Ek; rewrite (bytes_less_total q k) by done; by apply take_ge].
      assert (bytes_less (k ++ r') q = true) as Hc; [|by rewrite (bytes_less_asym _ _ Hc) in Hlt].
      apply bytes_less_extend; [done|]. intros [z ->]. apply Ek. by rewrite take_app_length.
Qed.
End agreement.

(** ** What the decoder returns *)
Section decoded.
Context `{RL : RLP} `{!RLPSlices}.

Lemma slice_u8 (b h c r : bytes) : b = h ++ c ++ r → Forall in_u8 b → Forall in_u8 c ∧ Forall in_u8 r.
Proof. intros ->. rewrite !Forall_app. tauto. Qed.

Lemma compactToHex_hex b : Forall in_u8 b → hex_key (compactToHex b).
Proof.
  destruct b as [|b bs]; [exists []; by split; [constructor|left]|]. intros [Hb Hbs]%Forall_cons. rewrite compactToHex_cons. cbv zeta.
  set (t := if bool_decide (b / 16 < 2) then [] else [16]).
  assert (∀ ns, Forall nibble ns → hex_key (ns ++ t)) as Ht.
  { intros ns Hns. exists ns. split; [done|]. unfold t. case_bool_decide; [left; by rewrite app_nil_r|by right]. }
  pose proof (nibbles_of_nibble bs Hbs) as Hn. change (Z.land (b / 16) 1) with (Z.land (b / 16) (Z.ones 1)). rewrite Z.land_ones by lia.
  pose proof (Z.mod_pos_bound (b / 16) (2 ^ 1)). assert ((b / 16) mod 2 ^ 1 = 0 ∨ (b / 16) mod 2 ^ 1 = 1) as [-> | ->] by lia; cbn [Z.to_nat Z.sub Z.opp Z.add drop].
  - by apply Ht.
  - apply (Ht (b `mod` 16 :: nibbles_of bs)). constructor; [unfold nibble; by apply Z.mod_pos_bound|done].
Qed.

Definition decodes_fair (dec : bytes → option Node) : Prop := ∀ b n, Forall in_u8 b → dec b = Some n → fair n ∧ inner n.
Lemma decodeRef_fair dec b n r : decodes_fair dec → Forall in_u8 b → decodeRef dec b = Some (n, r) → fair n ∧ Forall in_u8 r.
Proof.
  intros Hdec Hb. unfold decodeRef. destruct (Split b) as [[[k v] rest]|] eqn:Es; [|done]. cbn [mbind option_bind].
  destruct (Split_slice _ _ _ _ Es) as [h Hs]. destruct (slice_u8 _ _ _ _ Hs Hb) as [_ Hr].
  repeat case_bool_decide; cbn [andb]; try done; try by intros [= <- <-].
  destruct (dec b) as [m|] eqn:Ed; [|done]. cbn. intros [= <- <-]. by destruct (Hdec b m Hb Ed).
Qed.
Lemma decode_children_fair dec n : ∀ b cs r, decodes_fair dec → Forall in_u8 b → decode_children dec n b = Some (cs, r) →
  length cs = n ∧ Forall fair cs ∧ Forall in_u8 r.
Proof.
  induction n as [|n IH]; intros b cs r Hdec Hb; [by intros [= <- <-]|]. cbn [decode_children].
  destruct (decodeRef dec b) as [[c rest]|] eqn:E; [|done]. cbn [mbind option_bind]. destruct (decodeRef_fair _ _ _ _ Hdec Hb E) as [Hc Hr].
  destruct (decode_children dec n rest) as [[cs' rest']|] eqn:E'; [|done]. cbn. intros [= <- <-].
  destruct (IH _ _ _ Hdec Hr E') as (Hl & HF & Hr'). split_and!; [cbn; by f_equal|by constructor|done].
Qed.
Lemma decodeNode_fair fuel : decodes_fair (decodeNode fuel).
Proof.
  induction fuel as [|fuel IH]; intros b n Hb; [done|]. cbn [decodeNode]. case_bool_decide; [done|].
  destruct (SplitList b) as [[elems r]|] eqn:Es; [|done]. cbn [mbind option_bind]. destruct (SplitList_slice _ _ _ Es) as [h Hs].
  destruct (slice_u8 _ _ _ _ Hs Hb) as [He _]. case_bool_decide; [|case_bool_decide; [|done]].
  - unfold decodeShort. destruct (SplitString elems) as [[kbuf rest]|] eqn:Ek; [|done]. cbn [mbind option_bind]. destruct (SplitString_slice _ _ _ Ek) as [h' Hs'].
    destruct (slice_u8 _ _ _ _ Hs' He) as [Hk Hr]. pose proof (compactToHex_hex kbuf Hk). destruct (hasTerm _).
    + destruct (SplitString rest) as [[val ?]|]; [|done]. by intros [= <-].
    + destruct (decodeRef _ rest) as [[m r']|] eqn:Er; [|done]. intros [= <-]. by destruct (decodeRef_fair _ _ _ _ IH Hr Er).
  - unfold decodeFull. destruct (decode_children _ 16 elems) as [[cs r']|] eqn:Ec; [|done]. cbn [mbind option_bind].
    destruct (decode_children_fair _ _ _ _ _ IH He Ec) as (Hl & HF & _). destruct (SplitString r') as [[val ?]|]; [|done]. cbn. intros [= <-]. split; [|done].
    apply fair_full. rewrite length_app, Hl. split; [done|]. apply Forall_app. split; [done|]. apply Forall_singleton. by case_bool_decide.
Qed.

(** ** Loading a path *)
Variable Get : bytes → option bytes.
Hypothesis Get_u8 : ∀ h b, Get h = Some b → Forall in_u8 b.
Lemma resolveNode_fair h n : resolveNode Get h = inr n → fair n ∧ inner n.
Proof.
  unfold resolveNode. destruct (Get h) as [b|] eqn:Eg; [|done]. destruct (decodeNode _ b) as [m|] eqn:Ed; [|done]. intros [= <-].
  by apply (decodeNode_fair (length b) b m (Get_u8 h b Eg)).
Qed.
Lemma rbind_Ret_inr {A B} (x : range_err + A) (f : A → rres B) b : rbind (Ret x) f = rok b → ∃ a, x = inr a ∧ f a = rok b.
Proof. destruct x as [?|a]; [done|by exists a]. Qed.

Lemma path_loop_fair allow fuel : ∀ parent key n val,
  fair parent → inner parent → path_loop Get allow fuel parent key = rok (n, val) → fair n ∧ inner n.
Proof.
  induction fuel as [|fuel IH]; intros parent key n val Hf Hi; [done|]. cbn [path_loop].
  assert (∀ c rest r, fair c → path_child Get allow (path_loop Get allow fuel) c rest = rok r → fair r.1) as Hb.
  { intros c rest [c' val'] Hc. unfold path_child. destruct c as [|cs|k v|h|v]; cbn [fst].
    - unfold absent. destruct allow; [by intros [= <- _]|done].
    - intros Hx. by eapply (IH (FullNode cs)).
    - intros Hx. by eapply (IH (ShortNode k v)).
    - intros (m & Hm & Hx)%rbind_Ret_inr. destruct (resolveNode_fair _ _ Hm). by eapply (IH m).
    - case_bool_decide; [by intros [= <- _]|done]. }
  destruct parent as [|cs|k v|h|v]; try done.
  - destruct key as [|x rest]; [done|]. intros (c & [_ Hc]%go_index_Ret & Hx)%go_bind_rok. apply rbind_rok in Hx as ([c' val'] & Hc' & Hx).
    apply go_bind_rok in Hx as (cs' & Hst & [= <- <-]). split; [|done]. eapply fair_store; [done| |done]. apply (Hb c rest (c', val')); [|done].
    apply fair_full in Hf as [_ HF]. by eapply Forall_lookup_1.
  - case_decide; [|unfold absent; destruct allow; [by intros [= <- _]|done]]. intros ([v' val'] & Hv & [= <- <-])%rbind_rok. destruct Hf as [Hk Hf].
    split; [|done]. split; [done|]. by apply (Hb v (drop (length k) key) (v', val')).
Qed.
Lemma proofToPath_fair fuel rootHash root key allow n val :
  root = NilNode ∨ (fair root ∧ inner root) → proofToPath fuel rootHash root key Get allow = rok (n, val) → fair n ∧ inner n.
Proof.
  intros Hr. unfold proofToPath. intros (m & Hm & Hx)%rbind_rok. assert (fair m ∧ inner m) as [Hf Hi]; [|by eapply path_loop_fair].
  destruct root as [|?|? ?|?|?]; [|injection Hm as <-; by destruct Hr as [|[? ?]]..]. injection Hm as Hm. by eapply resolveNode_fair.
Qed.
End decoded.

(** ** Soundness *)
Lemma bytes_less_nibbles a : ∀ b t, Forall in_u8 a → Forall in_u8 b → length a = length b →
  bytes_less (nibbles_of a ++ t) (nibbles_of b ++ t) = bytes_less a b.
Proof.
  induction a as [|x a IH]; intros [|y b] t Ha Hb Hl; try done; [apply bytes_less_irrefl|].
  apply Forall_cons in Ha as [Hx Ha], Hb as [Hy Hb]. injection Hl as Hl. cbn [nibbles_of app bytes_less]. rewrite IH by done.
  pose proof (Z.div_mod x 16). pose proof (Z.div_mod y 16). pose proof (Z.mod_pos_bound x 16). pose proof (Z.mod_pos_bound y 16).
  destruct (bool_decide (x / 16 < y / 16)) eqn:E1; [apply bool_decide_eq_true_1 in E1; by rewrite (bool_decide_eq_true_2 (x < y)) by lia|].
  apply bool_decide_eq_false_1 in E1. destruct (bool_decide (x / 16 = y / 16)) eqn:E2; cbn.
  - apply bool_decide_eq_true_1 in E2. f_equal; [by apply bool_decide_ext; lia|]. f_equal. apply bool_decide_ext. lia.
  - apply bool_decide_eq_false_1 in E2. rewrite (bool_decide_eq_false_2 (x < y)), (bool_decide_eq_false_2 (x = y)) by lia. done.
Qed.
Lemma bytes_less_hex a b : Forall in_u8 a → Forall in_u8 b → length a = length b → bytes_less (keybytesToHex a) (keybytesToHex b) = bytes_less a b.
Proof. apply bytes_less_nibbles. Qed.
Lemma length_hex k : length (keybytesToHex k) = S (2 * length k).
Proof. unfold keybytesToHex. rewrite length_app, length_nibbles_of. cbn. lia. Qed.

Section sound.
Context `{RL : RLP} `{RLL : !RLPLaws} `{RLS : !RLPSlices}.
Variable hashData : bytes → bytes.
Variable emptyRoot : bytes.
Hypothesis hashData_len : ∀ b, len (hashData b) = 32.
Abbreviation hash := (MerkleProof.hash hashData).
Abbreviation agrees := (agrees hashData).

(** A trie that is compared with [e]: its nodes do not clash with those of
    [e], and it is not taken for the empty trie. *)
Definition apart (n e : Node) : Prop := no_clash hashData n e ∧ hash n true ≠ HashNode emptyRoot.
(** The proof database is addressed by content. *)
Record proof_for (Get : bytes → option bytes) (e : Node) : Prop := mkProofFor {
  pf_u8 : ∀ h b, Get h = Some b → Forall in_u8 b;
  pf_addressed : ∀ h n, resolveNode Get h = inr n → hash n true = HashNode h;
  pf_apart : ∀ h n, resolveNode Get h = inr n → apart n e
}.

Lemma hash_forced_inner n h : hash n false = HashNode h → is_hash n = false → hash n true = HashNode h ∧ inner n.
Proof.
  intros Hh Hn. assert (inner n) as Hi by (by destruct n). split; [|done]. rewrite hash_inner in Hh |- * by done.
  unfold nodeToHash in *. rewrite andb_false_r. rewrite andb_true_r in Hh. case_bool_decide; [|done]. destruct n; by simplify_eq/=.
Qed.
Lemma hash_digest n h force : hash n force = HashNode h → is_hash n = false → length h = 32%nat.
Proof.
  intros Hh Hn. assert (inner n) as Hi by (by destruct n, force). rewrite hash_inner in Hh by done.
  pose proof (collapsed_inner hashData n Hi). destruct (nodeToHash_cases hashData (hashed_children hashData n) force) as [(h' & Hx & ->)|Hx]; rewrite Hx in Hh.
  - injection Hh as <-. pose proof (hashData_len (encode (hashed_children hashData n))). unfold len in *. lia.
  - by rewrite Hh in *.
Qed.

Lemma agrees_store cs es i c e : agrees (FullNode cs) (FullNode es) → es !! i = Some e → agrees c e → (i = 16%nat → c = e) →
  agrees (FullNode (<[i := c]> cs)) (FullNode es).
Proof.
  inversion 1 as [| | |? ? Hl Hle Hch H16|]; subst. intros He Hc Hi. constructor; [by rewrite length_insert|done| |].
  - intros j c' e' [(-> & -> & _)|[Hne Hj]]%list_lookup_insert_Some He' Hor; [by simplify_eq|by eapply Hch].
  - destruct (decide (i = 16%nat)) as [->|Hne]; [|by rewrite list_lookup_insert_ne]. rewrite list_lookup_insert_eq, He by lia. f_equal. auto.
Qed.

(** Loading the path of a key: the result is still part of the trie, and the
    value is the trie's. *)
Section loading.
Variable Get : bytes → option bytes.
Variable e0 : Node.
Hypothesis Hproof : proof_for Get e0.

Definition loads (rec : Node → bytes → rres (Node * option bytes)) : Prop := ∀ n e key n' val,
  agrees n e → canon e → inner n → subtrees e ⊆ subtrees e0 → term_key key → rec n key = rok (n', val) → agrees n' e ∧ tget e key = val.

Lemma resolve_agrees h n e : canon e → hash e false = HashNode h → subtrees e ⊆ subtrees e0 → resolveNode Get (BytesToHash h) = inr n → agrees n e ∧ inner n.
Proof.
  intros He Hh Hsub Hr. assert (is_hash e = false) as Hne by (by destruct e). rewrite BytesToHash_id in Hr by (by eapply hash_digest).
  destruct (resolveNode_fair Get (pf_u8 _ _ Hproof) _ _ Hr) as [Hf Hi]. split; [|done]. destruct (hash_forced_inner e h Hh Hne) as [Hh' _].
  apply (hash_agrees hashData n e true); [done|left; by right| |by destruct n|by rewrite Hh', (pf_addressed _ _ Hproof _ _ Hr)].
  destruct (pf_apart _ _ Hproof _ _ Hr) as [Hc _]. intros s s' Hs Hs'. apply Hc; [done|by apply Hsub].
Qed.

(** A child at the end of the key, or with a key left. *)
Definition at_key (e : Node) (rest : bytes) : Prop := ((e = NilNode ∨ canon e) ∧ term_key rest) ∨ ((e = NilNode ∨ is_value e) ∧ rest = []).
Lemma path_child_agrees rec allow c e rest c' val :
  loads rec → agrees c e → at_key e rest → subtrees e ⊆ subtrees e0 → path_child Get allow rec c rest = rok (c', val) →
  agrees c' e ∧ tget e rest = val ∧ (rest = [] → c' = c).
Proof.
  intros Hrec Ha Hat Hsub. unfold path_child. destruct c as [|cs|k v|h|v].
  - unfold absent. destruct allow; [|done]. intros [= <- <-]. inversion Ha; subst. by split_and!.
  - inversion Ha; subst. destruct Hat as [[[?|He] Hk]|[[?|He] _]]; [done| |done..]. intros Hr. destruct (Hrec _ _ _ _ _ Ha He I Hsub Hk Hr).
    split_and!; [done..|]. intros ->. by apply term_key_nil in Hk.
  - inversion Ha; subst. destruct Hat as [[[?|He] Hk]|[[?|He] _]]; [done| |done..]. intros Hr. destruct (Hrec _ _ _ _ _ Ha He I Hsub Hk Hr).
    split_and!; [done..|]. intros ->. by apply term_key_nil in Hk.
  - inversion Ha as [? ? Hh| | | |]; subst. intros (n & Hn & Hr)%rbind_Ret_inr.
    destruct Hat as [[[->|He] Hk]|[[->|He] _]]; [done| |done|by destruct e].
    destruct (resolve_agrees h n e He Hh Hsub Hn) as [Han Hin]. destruct (Hrec _ _ _ _ _ Han He Hin Hsub Hk Hr).
    split_and!; [done..|]. intros ->. by apply term_key_nil in Hk.
  - inversion Ha; subst. case_bool_decide; [|done]. intros [= <- <-]. destruct Hat as [[[?|[]] _]|[_ ->]]; [done|]. by split_and!.
Qed.

Lemma at_key_full es x rest e : canon (FullNode es) → term_key (x :: rest) → es !! Z.to_nat x = Some e → at_key e rest ∧ (Z.to_nat x = 16%nat → rest = []).
Proof.
  intros Hc Hk He. destruct (canon_child es _ e Hc He) as (_ & Hsub & Hslot). apply term_key_cons in Hk as [[-> ->]|[Hn Hk]].
  - split; [right; split; [by apply Hslot|done]|done].
  - unfold nibble in Hn. split; [|lia]. left. split; [apply Hsub; lia|done].
Qed.
Lemma at_key_short k e rest : canon (ShortNode k e) → term_key (k ++ rest) → at_key e rest.
Proof.
  intros Hc Hk. destruct e as [|es|? ?|?|v]; cbn in Hc; try done.
  - destruct Hc as (HF & _ & Hc). left. split; [by right|]. by apply term_key_app in Hk.
  - right. split; [by right|]. by apply (term_key_prefix k).
Qed.

Lemma path_loop_agrees allow fuel : loads (path_loop Get allow fuel).
Proof.
  induction fuel as [|fuel IH]; intros n e key n' val Ha He Hi Hsub Hk; [done|]. cbn [path_loop]. destruct n as [|cs|k v|h|v]; try done.
  - inversion Ha as [| | |? es Hl Hle Hch H16|]; subst. destruct key as [|x rest]; [done|]. pose proof (term_key_head _ _ Hk).
    intros (c & [_ Hc]%go_index_Ret & Hx)%go_bind_rok. apply rbind_rok in Hx as ([c' val'] & Hc' & Hx).
    apply go_bind_rok in Hx as (cs' & [_ ->]%go_store_Ret & [= <- <-]). destruct (lookup_lt_is_Some_2 es (Z.to_nat x)) as [ec Hec]; [lia|].
    destruct (at_key_full es x rest ec He Hk Hec) as [Hat Hend].
    assert (agrees c ec) as Hac.
    { destruct (empty_dec c) as [->|Hne]; [|by apply (Hch _ _ _ Hc Hec); left]. by cbn in Hc'. }
    assert (subtrees ec ⊆ subtrees e0) as Hsube by (intros s Hs; apply Hsub; by eapply subtrees_child; [eapply list_elem_of_lookup_2|]).
    destruct (path_child_agrees _ _ _ _ _ _ _ IH Hac Hat Hsube Hc') as (Ha' & Hval & Hsame).
    split; [|by rewrite tget_full, Hec]. eapply agrees_store; [done|done|done|]. intros E. rewrite Hsame by auto. rewrite E in Hc, Hec. congruence.
  - inversion Ha as [| | | |? ? ve Hav]; subst. case_decide as Ek.
    + assert (key = k ++ drop (length k) key) as Hkey by (by rewrite <-Ek at 1; rewrite take_drop). set (rest := drop _ key) in *. clearbody rest. subst key. clear Ek.
      intros ([v' val'] & Hv & [= <- <-])%rbind_rok. pose proof (at_key_short k ve rest He Hk) as Hat.
      assert (subtrees ve ⊆ subtrees e0) as Hsube by (intros s Hs; apply Hsub; by right).
      destruct (path_child_agrees _ _ _ _ _ _ _ IH Hav Hat Hsube Hv) as (Ha' & Hval & _).
      split; [by constructor|]. cbn. by rewrite take_app_length, decide_True, drop_app_length by done.
    + unfold absent. destruct allow; [|done]. intros [= <- <-]. split; [done|]. cbn. by rewrite decide_False.
Qed.
End loading.

(** The root hash of a trie, and of another with the same. *)
Abbreviation root_hash e := (Trie_Hash hashData emptyRoot (mkTrie e 0)).
Lemma root_hash_inner e : inner e → hash e true = HashNode (root_hash e).
Proof.
  intros Hi. unfold Trie_Hash. cbn [root]. assert (∃ h, hash e true = HashNode h) as [h Hh].
  { rewrite hash_inner by done. unfold nodeToHash. rewrite andb_false_r. by eexists. }
  destruct e; try done; by rewrite Hh.
Qed.
Lemma root_agrees n e : fair n → inner n ∨ n = NilNode → sub e → hash e true ≠ HashNode emptyRoot → apart n e →
  root_hash n = root_hash e → agrees n e.
Proof.
  intros Hf Hn He Hne [Hc Hna] Heq. assert (inner e ∨ e = NilNode) as [Hie| ->] by (destruct He as [->|He]; [by right|left; by destruct e]).
  - destruct Hn as [Hin| ->]; [|destruct Hne; by rewrite (root_hash_inner e Hie), <-Heq].
    apply (hash_agrees hashData n e true); [done|by left|done|by destruct n|]. by rewrite !root_hash_inner, Heq by done.
  - destruct Hn as [Hin| ->]; [|constructor]. destruct Hna. by rewrite (root_hash_inner n Hin), Heq.
Qed.
Lemma proofToPath_agrees Get e fuel key allow n val :
  proof_for Get e → sub e → hash e true ≠ HashNode emptyRoot → term_key (keybytesToHex key) →
  proofToPath fuel (root_hash e) NilNode key Get allow = rok (n, val) → agrees n e ∧ tget e (keybytesToHex key) = val.
Proof.
  intros Hp He Hne Hk. unfold proofToPath. intros (m & Hm & Hr)%rbind_Ret_inr.
  destruct (resolveNode_fair Get (pf_u8 _ _ Hp) _ _ Hm) as [Hf Hi]. pose proof (pf_apart _ _ Hp _ _ Hm) as Hap. pose proof (pf_addressed _ _ Hp _ _ Hm) as Had.
  assert (agrees m e) as Ha.
  { apply root_agrees; [done|by left|done..|]. apply (f_equal (λ n, match n with HashNode h => h | _ => [] end)) in Had. by rewrite (root_hash_inner m Hi) in Had. }
  destruct He as [->|He]; [destruct (proj2 Hap); by rewrite Had|]. by apply (path_loop_agrees Get e Hp allow fuel m e _ n val).
Qed.

(** A trie without unloaded parts. *)
Lemma canon_fair e : sub e ∨ is_value e → fair e.
Proof.
  induction e as [|cs IH|k v IH|h|v] using Node_nested_ind; intros He; try done.
  - destruct He as [[?|He]|?]; [done| |done]. pose proof He as (Hl & _)%canon_full. apply fair_full. split; [done|]. apply Forall_lookup. intros i c Hc.
    rewrite Forall_forall in IH. apply IH; [by eapply list_elem_of_lookup_2|]. by apply (canon_child cs i c He).
  - destruct He as [[?|He]|?]; [done| |done]. destruct v as [| | | |w]; cbn in He; try done.
    + destruct He as (HF & _ & Hc). split; [exists k; auto|]. apply IH. left. by right.
    + destruct He as (ns & -> & Hns). split; [exists ns; auto|done].
Qed.
Lemma look_canon e q : sub e ∨ is_value e → tail_key q → look e q = sight_of (tget e q).
Proof.
  revert q. induction e as [|cs IH|k v IH|h|v] using Node_nested_ind; intros q He Hq; try done.
  - destruct He as [[?|He]|?]; [done| |done]. destruct q as [|x q]; [done|]. rewrite look_full, tget_full.
    destruct (cs !! Z.to_nat x) as [c|] eqn:Hc; [|done]. rewrite Forall_forall in IH. apply IH; [by eapply list_elem_of_lookup_2|by apply (canon_child cs (Z.to_nat x) c He Hc)|].
    by apply (tail_key_drop [x]).
  - destruct He as [[?|He]|?]; [done| |done]. cbn [look tget]. case_decide as E; [|done]. apply IH; [|apply (tail_key_drop (take (length k) q)); by rewrite take_drop].
    destruct v; cbn in He; try done; [left; right; apply He|by right].
  - by destruct He as [[?|[]]|[]].
  - cbn. by case_decide.
Qed.

Definition entry_at (e : Node) (k : bytes) : option bytes := tget e (keybytesToHex k).
(** No key of the length of [q] is greater. *)
Definition none_after (e : Node) (q : bytes) : Prop := ∀ k, Forall in_u8 k → length k = length q → bytes_less q k = true → entry_at e k = None.
Lemma hasRight_none_after n e q more : agrees n e → Forall in_u8 q → hasRightElement n q = Ret more → more = false → none_after e q.
Proof.
  intros Ha Hq Hr -> k Hk Hl Hlt. unfold hasRightElement in Hr. apply (has_right_none hashData n e Ha (keybytesToHex q)); [right; by apply term_key_keybytes|done|right; by apply term_key_keybytes| |].
  - rewrite !length_hex. lia.
  - by rewrite bytes_less_hex.
Qed.

Lemma verify_none_ok fuel e firstKey Get more :
  proof_for Get e → sub e → hash e true ≠ HashNode emptyRoot → Forall in_u8 firstKey →
  verify_none fuel (root_hash e) firstKey Get = rok more → more = false ∧ entry_at e firstKey = None ∧ none_after e firstKey.
Proof.
  intros Hp He Hne Hk. unfold verify_none. intros ([n val] & Hpath & Hx)%rbind_rok.
  destruct (proofToPath_agrees _ _ _ _ _ _ _ Hp He Hne (term_key_keybytes _ Hk) Hpath) as [Ha Hv]. destruct val; [done|].
  apply go_bind_rok in Hx as ([] & Hr & Hx); [done|]. injection Hx as <-. split_and!; [done|done|]. by eapply hasRight_none_after.
Qed.
Lemma verify_one_ok fuel e firstKey key value Get more :
  proof_for Get e → sub e → hash e true ≠ HashNode emptyRoot → Forall in_u8 firstKey → value ≠ [] →
  verify_one fuel (root_hash e) firstKey key value Get = rok more → key = firstKey ∧ entry_at e key = Some value ∧ (more = false → none_after e key).
Proof.
  intros Hp He Hne Hk Hvn. unfold verify_one. intros ([n val] & Hpath & Hx)%rbind_rok.
  destruct (proofToPath_agrees _ _ _ _ _ _ _ Hp He Hne (term_key_keybytes _ Hk) Hpath) as [Ha Hv].
  case_bool_decide as E1; [done|]. case_bool_decide as E2; [done|]. assert (firstKey = key) as <- by (by destruct (decide (firstKey = key))).
  apply go_bind_rok in Hx as (b & Hr & Hx). injection Hx as ->. split_and!; [done| |by intros; eapply hasRight_none_after].
  unfold entry_at. rewrite Hv. destruct val as [w|]; cbn in E2; [|by destruct E2]. destruct (decide (w = value)); [by subst|done].
Qed.

(** The keys between the edges. *)
Definition between (firstKey lastKey k : bytes) : Prop := length k = length firstKey ∧ bytes_less k firstKey = false ∧ bytes_less lastKey k = false.
Lemma unsetInternal_ok n firstKey lastKey empty n' :
  Forall in_u8 firstKey → Forall in_u8 lastKey → length firstKey = length lastKey → bytes_less firstKey lastKey = true → fair n → inner n →
  unsetInternal n firstKey lastKey = rok (empty, n') → let r := if empty : bool then NilNode else n' in
  shows (between firstKey lastKey) r ∅ ∧ fair r ∧ (inner r ∨ r = NilNode).
Proof.
  intros Hf Hl Hlen Hlt Hfair Hin. unfold unsetInternal. intros (e & He & Hx)%rbind_rok.
  assert (empty = (match e with Cut => true | _ => false end) ∧ (if empty then NilNode else n') = edge_node e) as [Hempty Heq]
    by (destruct e; injection Hx as <- <-; done).
  destruct (unset_fork_ok n _ _ e (or_intror (term_key_keybytes _ Hf)) (or_intror (term_key_keybytes _ Hl))) with (3 := He) as [Hem Hfe];
    [rewrite !length_hex; lia|by rewrite bytes_less_hex|].
  cbv zeta. rewrite Heq. split; [|split; [auto|]].
  - intros k Hk (Hlk & H1 & H2). rewrite lookup_empty. apply Hem; [right; by apply term_key_keybytes|rewrite !length_hex; lia|by rewrite bytes_less_hex|].
    rewrite bytes_less_hex by (done || lia). done.
  - destruct e as [m|]; [left|by right]. clear Hem Hfe Hx Heq. destruct n as [|cs|k v| |]; try done; cbn [unset_fork] in He; cbn.
    + destruct (keybytesToHex firstKey); [done|]. destruct (keybytesToHex lastKey); [done|].
      apply go_bind_rok in He as (ln & _ & He). apply go_bind_rok in He as (rn & _ & He). destruct (_ || _ || _).
      * do 6 (apply go_bind_rok in He as (? & _ & He)). by injection He as <-.
      * destruct (same_kind_slices ln rn); [done|]. apply rbind_rok in He as (? & _ & He). apply go_bind_rok in He as (? & _ & He). by injection He as <-.
    + repeat case_bool_decide; try done; try (destruct (is_valueb v); [done|]).
      all: first [apply rbind_rok in He as (? & _ & He)|apply go_bind_rok in He as (? & _ & He)].
      all: apply go_bind_rok in He as (? & (? & _ & ->)%put_val_Ret & He); by injection He as <-.
Qed.

Lemma verify_edges_ok fuel e firstKey lastKey kvs Get more :
  (∀ h b, Get h = Some b → Forall in_u8 b) → sub e → hash e true ≠ HashNode emptyRoot → Forall in_u8 firstKey → Forall in_u8 lastKey →
  Forall (λ kv, Forall in_u8 kv.1 ∧ kv.2 ≠ []) kvs → (∀ t, rebuilt fuel (root_hash e) firstKey lastKey kvs Get = rok t → apart (root t) e) →
  verify_edges hashData emptyRoot fuel (root_hash e) firstKey lastKey kvs Get = rok more →
  (∀ k, Forall in_u8 k → between firstKey lastKey k → entry_at e k = put_all ∅ kvs !! k) ∧
  (∀ q, last kvs.*1 = Some q → more = false → none_after e q).
Proof.
  intros Hu He Hne Hf Hl Hkvs Hap. unfold verify_edges. destruct (bytes_less firstKey lastKey) eqn:Elt; [|done]. cbn [negb]. case_bool_decide as Elen; [done|].
  assert (length firstKey = length lastKey) as Hlen by lia. clear Elen. intros (t & Ht & Hx)%rbind_rok. specialize (Hap t Ht).
  case_bool_decide as Eh; [done|]. unfold rebuilt in Ht.
  apply rbind_rok in Ht as ([r1 v1] & H1 & Ht). apply rbind_rok in Ht as ([r2 v2] & H2 & Ht). apply rbind_rok in Ht as ([empty r3] & H3 & Ht).
  apply go_bind_rok in Ht as (t' & Ht & [= ->]).
  destruct (proofToPath_fair Get Hu _ _ NilNode _ _ _ _ (or_introl eq_refl) H1) as [Hf1 Hi1].
  destruct (proofToPath_fair Get Hu _ _ r1 _ _ _ _ (or_intror (conj Hf1 Hi1)) H2) as [Hf2 Hi2].
  destruct (unsetInternal_ok _ _ _ _ _ Hf Hl Hlen Elt Hf2 Hi2 H3) as (Hsh & Hf3 & Hi3).
  destruct (insert_all_ok _ _ _ _ _ Ht Hkvs Hsh Hf3 Hi3) as (Hsh' & Hf4 & Hi4).
  assert (agrees (root t) e) as Ha by (by apply root_agrees). split.
  - intros k Hk Hb. pose proof (agrees_look hashData _ _ Ha (keybytesToHex k) (or_intror (term_key_keybytes k Hk))) as Hlook.
    rewrite (Hsh' k Hk Hb) in Hlook. unfold entry_at. by destruct (put_all ∅ kvs !! k).
  - intros q Hq. rewrite Hq in Hx. cbn [default] in Hx. apply go_bind_rok in Hx as (b & Hr & Hx). injection Hx as ->. intros Hm.
    apply (hasRight_none_after (root t) e q more); [done| |done..].
    apply last_Some_elem_of, list_elem_of_fmap in Hq as (kv & -> & Hin). rewrite Forall_forall in Hkvs. by apply Hkvs.
Qed.

(** All entries. *)
Lemma bytes_less_before a b : length a = length b → bytes_less a b = true → before a b.
Proof.
  revert b. induction a as [|x a IH]; intros [|y b] Hl; try done. injection Hl as Hl. cbn [bytes_less]. intros [Hx|[Hx Hab]%andb_true_iff]%orb_true_iff.
  - apply bool_decide_eq_true_1 in Hx. by exists [], x, y, a, b.
  - apply bool_decide_eq_true_1 in Hx as ->. by apply before_cons, IH.
Qed.
Lemma increasing_Sorted keys : increasing keys = true → Sorted (λ a b, bytes_less a b = true) keys.
Proof.
  induction keys as [|k [|k' keys] IH]; [constructor|by repeat constructor|]. intros [Hlt Hi]%andb_true_iff. constructor; [by apply IH|by constructor].
Qed.
Lemma increasing_sorted L keys : Forall (λ k, length k = L) keys → increasing keys = true → StronglySorted before keys.
Proof.
  intros HL Hi%increasing_Sorted%Sorted_StronglySorted; [|intros a b c; apply bytes_less_trans].
  induction Hi as [|k keys _ IH Hk]; [constructor|]. apply Forall_cons in HL as [HkL HL]. constructor; [by apply IH|].
  rewrite Forall_forall in HL, Hk |- *. intros q Hq. apply bytes_less_before; [by rewrite HkL, HL|by apply Hk].
Qed.
Lemma put_all_updates kvs : ∀ m, Forall (λ kv, kv.2 ≠ []) kvs → foldl map_update m kvs = put_all m kvs.
Proof. induction kvs as [|[k v] kvs IH]; intros m; [done|]. intros [Hv HF]%Forall_cons. cbn. rewrite <-IH by done. by destruct v. Qed.

Hypothesis emptyRoot_len : len emptyRoot = 32.
Lemma verify_all_ok e kvs more :
  sub e → hash e true ≠ HashNode emptyRoot → Forall (λ kv, Forall in_u8 kv.1) kvs → Forall (λ kv, kv.2 ≠ []) kvs → StronglySorted before kvs.*1 →
  (∀ t, updates (DB := no_store) (mkTrie NilNode 0) kvs = Ret t → apart (root t) e) →
  verify_all hashData emptyRoot (root_hash e) kvs = rok more → ∀ k, Forall in_u8 k → entry_at e k = put_all ∅ kvs !! k.
Proof.
  intros He Hne Hk Hv Hs Hap. unfold verify_all. destruct (stack_trie_ok hashData emptyRoot hashData_len emptyRoot_len kvs kvs) as (st & t & Hst & Ht & Hh); [done..|].
  rewrite Hst. cbn [mbind go_bind]. rewrite Hh. cbn [mbind go_bind]. case_bool_decide as Eh; [done|]. intros _. specialize (Hap t Ht).
  destruct (updates_ok (DB := no_store) kvs (mkTrie NilNode 0) ∅) as (t' & Ht' & e' & He'%expands_no_store & Hent);
    [exists NilNode; split; [constructor|apply entries_nil]|done|].
  assert (t' = t) as -> by congruence. rewrite put_all_updates in Hent by done. rewrite <-He' in Hent.
  destruct Hent as (Hsub & Hm & _).
  assert (agrees (root t) e) as Ha.
  { apply root_agrees; [apply canon_fair; by left| |done..]. destruct Hsub as [->|Hc]; [by right|left]. by destruct (root t). }
  intros k Hku. pose proof (or_intror (term_key_keybytes k Hku) : tail_key _) as Hq. pose proof (agrees_look hashData _ _ Ha _ Hq) as Hl.
  rewrite (look_canon (root t)), Hm in Hl by (done || by left). unfold entry_at. by destruct (put_all ∅ kvs !! k).
Qed.
(** What an accepted proof speaks of: every key when there is no edge proof,
    the keys from the first edge on when there are no entries, and otherwise
    the keys between the edges. *)
Definition covered (proof : option (bytes → option bytes)) (firstKey lastKey : bytes) (keys : list bytes) (k : bytes) : Prop :=
  match proof, keys with
  | None, _ => True
  | Some _, [] => length k = length firstKey ∧ bytes_less k firstKey = false
  | Some _, _ => between firstKey lastKey k
  end.
(** No collision between the trie and what the verifier builds; without an
    edge proof the keys have one length. *)
Definition checkable (e : Node) (fuel : nat) (firstKey lastKey : bytes) (keys : list bytes) (kvs : list (bytes * bytes)) (proof : option (bytes → option bytes)) : Prop :=
  match proof with
  | None => (∃ L, Forall (λ k, length k = L) keys) ∧ ∀ t, updates (DB := no_store) (mkTrie NilNode 0) kvs = Ret t → apart (root t) e
  | Some Get => proof_for Get e ∧ ∀ t, rebuilt fuel (root_hash e) firstKey lastKey kvs Get = rok t → apart (root t) e
  end.

Lemma verify_guards fuel rootHash firstKey lastKey keys values proof more :
  Forall (Forall in_u8) keys → VerifyRangeProof hashData emptyRoot fuel rootHash firstKey lastKey keys values proof = rok more →
  (zip keys values).*1 = keys ∧ increasing keys = true ∧ Forall (λ kv, Forall in_u8 kv.1 ∧ kv.2 ≠ []) (zip keys values).
Proof.
  intros Hk. unfold VerifyRangeProof. case_bool_decide as El; [done|]. destruct (increasing keys); [|done]. cbn [negb].
  destruct (existsb _ values) eqn:Ev; [done|]. intros _. assert (length keys = length values) as Hlen by lia. split_and!; [by apply fst_zip; lia|done|].
  apply Forall_forall. intros [k v] Hin. rewrite Forall_forall in Hk. split; [by apply Hk; eapply elem_of_zip_l|]. cbn. intros ->.
  apply elem_of_zip_r in Hin. enough (existsb (λ v, bool_decide (len v = 0)) values = true) by congruence.
  apply existsb_exists. exists []. split; [by apply list_elem_of_In|done].
Qed.

(** The cases of the verifier. *)
Lemma accepted_edges fuel e firstKey lastKey keys kvs Get more :
  sub e → hash e true ≠ HashNode emptyRoot → Forall in_u8 firstKey → Forall in_u8 lastKey → Forall (λ kv, Forall in_u8 kv.1 ∧ kv.2 ≠ []) kvs →
  kvs.*1 = keys → keys ≠ [] → checkable e fuel firstKey lastKey keys kvs (Some Get) →
  verify_edges hashData emptyRoot fuel (root_hash e) firstKey lastKey kvs Get = rok more →
  (∀ k, Forall in_u8 k → covered (Some Get) firstKey lastKey keys k → entry_at e k = put_all ∅ kvs !! k) ∧
  (more = false → none_after e (default firstKey (last keys))).
Proof.
  intros He Hne Hf Hl Hkvs Hk Hkne [Hp Hap] Hv. destruct (verify_edges_ok _ _ _ _ _ _ _ (pf_u8 _ _ Hp) He Hne Hf Hl Hkvs Hap Hv) as [H1 H2]. rewrite Hk in H2. split.
  - intros k Hku Hc. apply H1; [done|]. by destruct keys.
  - destruct (last keys) as [q|] eqn:Eq; [by apply H2|]. by apply last_None in Eq.
Qed.
Lemma accepted_none fuel e firstKey lastKey Get more :
  proof_for Get e → sub e → hash e true ≠ HashNode emptyRoot → Forall in_u8 firstKey → verify_none fuel (root_hash e) firstKey Get = rok more →
  (∀ k, Forall in_u8 k → covered (Some Get) firstKey lastKey [] k → entry_at e k = None) ∧ none_after e firstKey.
Proof.
  intros Hp He Hne Hf Hv. destruct (verify_none_ok _ _ _ _ _ Hp He Hne Hf Hv) as (_ & Hat & Hna). split; [|done]. intros k Hk [Hlen Hge].
  destruct (bytes_less firstKey k) eqn:E; [by apply Hna|]. by rewrite (bytes_less_total k firstKey).
Qed.
Lemma accepted_one fuel e firstKey key value Get more :
  proof_for Get e → sub e → hash e true ≠ HashNode emptyRoot → Forall in_u8 firstKey → value ≠ [] →
  verify_one fuel (root_hash e) firstKey key value Get = rok more →
  (∀ k, Forall in_u8 k → covered (Some Get) firstKey firstKey [key] k → entry_at e k = put_all ∅ [(key, value)] !! k) ∧
  (more = false → none_after e key).
Proof.
  intros Hp He Hne Hf Hvn Hv. destruct (verify_one_ok _ _ _ _ _ _ _ Hp He Hne Hf Hvn Hv) as (-> & Hat & Hna). split; [|done].
  intros k Hk (_ & H1 & H2). rewrite (bytes_less_total k firstKey) by done. cbn. by rewrite lookup_insert_eq.
Qed.

(** C19. Range proofs are sound: when [VerifyRangeProof] accepts keys and values
    for the root hash of a trie, then in the range the trie has exactly those
    entries, and when it reports nothing more, the trie has no key after the
    last one; whatever the proof database holds, as long as it is addressed
    by content and no two different nodes share a digest. *)
Theorem range_proof_sound fuel e m firstKey lastKey keys values proof more :
  entries e m → hash e true ≠ HashNode emptyRoot → Forall in_u8 firstKey → Forall in_u8 lastKey → Forall (Forall in_u8) keys →
  checkable e fuel firstKey lastKey keys (zip keys values) proof →
  VerifyRangeProof hashData emptyRoot fuel (root_hash e) firstKey lastKey keys values proof = rok more →
  (∀ k, Forall in_u8 k → covered proof firstKey lastKey keys k → m !! k = put_all ∅ (zip keys values) !! k) ∧
  (proof ≠ None → more = false → ∀ k, Forall in_u8 k → length k = length (default firstKey (last keys)) →
     bytes_less (default firstKey (last keys)) k = true → m !! k = None).
Proof.
  intros (He & Hm & _) Hne Hf Hl Hks Hck Hv. destruct (verify_guards _ _ _ _ _ _ _ _ Hks Hv) as (Hzip & Hinc & Hkvs).
  assert (∀ k, Forall in_u8 k → entry_at e k = m !! k) as Hat by done.
  enough ((∀ k, Forall in_u8 k → covered proof firstKey lastKey keys k → entry_at e k = put_all ∅ (zip keys values) !! k) ∧
    (proof ≠ None → more = false → none_after e (default firstKey (last keys)))) as [H1 H2].
  { split; [intros k Hk; rewrite <-Hat by done; by apply H1|]. intros Hp Hmore k Hk. rewrite <-Hat by done. by apply H2. }
  unfold VerifyRangeProof in Hv. case_bool_decide; [done|]. rewrite Hinc in Hv. cbn [negb] in Hv. destruct (existsb _ values); [done|].
  set (kvs := zip keys values) in *. clearbody kvs. destruct proof as [Get|].
  - assert (keys ≠ [] → verify_edges hashData emptyRoot fuel (root_hash e) firstKey lastKey kvs Get = rok more →
      (∀ k, Forall in_u8 k → covered (Some Get) firstKey lastKey keys k → entry_at e k = put_all ∅ kvs !! k) ∧ (more = false → none_after e (default firstKey (last keys)))) as Hedges
      by (intros; by eapply accepted_edges).
    destruct Hck as [Hp _]. destruct kvs as [|[key value] [|kv kvs]]; cbn in Hzip; subst keys.
    + destruct (accepted_none fuel e firstKey lastKey Get more) as [Hin Hna]; [done..|]. split; [|by intros; apply Hna]. intros k Hk Hc. by rewrite (Hin k Hk Hc).
    + case_bool_decide as El; [|by destruct (Hedges ltac:(done) Hv)]. subst lastKey. apply Forall_inv in Hkvs as [_ Hvn].
      destruct (accepted_one fuel e firstKey key value Get more) as [Hin Hna]; [done..|]. by split.
    + by destruct (Hedges ltac:(done) Hv).
  - destruct Hck as [[L HL] Hap]. split; [|done]. intros k Hk _. eapply verify_all_ok; try done.
    + eapply Forall_impl; [exact Hkvs|]. by intros ? [? ?].
    + eapply Forall_impl; [exact Hkvs|]. by intros ? [? ?].
    + rewrite Hzip. by eapply increasing_sorted.
Qed.
End sound.

(** ** Fuel

    Where short nodes have keys, every step of [proofToPath] uses a part of
    the key: as much fuel as the key has nibbles is enough. *)
Section fuel.
Context `{RL : RLP}.
Variable Get : bytes → option bytes.
Hypothesis resolved : ∀ h n, resolveNode Get h = inr n → keyed n.

(** Two runs with enough fuel are the same, and end. *)
Definition settled (m m' : rres (Node * option bytes)) : Prop := m = m' ∧ ends m ∧ ∀ r, m = rok r → keyed r.1.
Lemma settled_err err : settled (Ret (inl err)) (Ret (inl err)).
Proof. by split; [|split]. Qed.
Lemma settled_panic h : ends (Halt h : rres (Node * option bytes)) → settled (Halt h) (Halt h).
Proof. intros Hh. by split; [|split]. Qed.
Lemma settled_ok n v : keyed n → settled (rok (n, v)) (rok (n, v)).
Proof. intros Hn. split; [done|split; [done|]]. by intros r [= <-]. Qed.
Lemma settled_absent allow n : keyed n → settled (absent allow n) (absent allow n).
Proof. unfold absent. destruct allow; auto using settled_ok, settled_err. Qed.
Lemma settled_bind m m' (f : Node * option bytes → rres (Node * option bytes)) :
  settled m m' → (∀ r, keyed r.1 → ends (f r) ∧ ∀ r', f r = rok r' → keyed r'.1) → settled (rbind m f) (rbind m' f).
Proof.
  intros (<- & He & Hk) Hf. destruct m as [[err|r]|h]; [apply settled_err| |by apply settled_panic; intros [= ->]].
  destruct (Hf r (Hk r eq_refl)) as [Hf1 Hf2]. by split; [|split].
Qed.
Lemma path_child_settled allow rec rec' c rest :
  keyed c → (∀ n, keyed n → settled (rec n rest) (rec' n rest)) → settled (path_child Get allow rec c rest) (path_child Get allow rec' c rest).
Proof.
  intros Hc Hrec. unfold path_child. destruct c as [|cs|k v|h|v]; [|by apply Hrec|by apply Hrec| |].
  - by apply settled_absent.
  - destruct (resolveNode Get (BytesToHash h)) as [err|n] eqn:E; [apply settled_err|]. cbn [rbind]. apply Hrec. by eapply resolved.
  - case_bool_decide; [by apply settled_ok|by apply settled_panic].
Qed.
Lemma path_loop_settled allow fuel : ∀ fuel' parent key, keyed parent → (length key < fuel)%nat → (length key < fuel')%nat →
  settled (path_loop Get allow fuel parent key) (path_loop Get allow fuel' parent key).
Proof.
  induction fuel as [|fuel IH]; [lia|]. intros [|fuel'] parent key Hk H1 H2; [lia|]. cbn [path_loop]. destruct parent as [|cs|k v|h|v]; try by apply settled_panic.
  - destruct key as [|x rest]; [by apply settled_panic|]. cbn in H1, H2. destruct (go_index cs x) as [c|h] eqn:Hc; cbn [mbind go_bind].
    2:{ pose proof (ends_index cs x) as He. rewrite Hc in He. apply settled_panic. by intros [= ->]. }
    apply settled_bind; [apply path_child_settled; [by eapply keyed_child|]; intros; apply IH; [done|lia|lia]|].
    intros [c' val] Hc'. split; [apply ends_bind; [apply ends_store|done]|]. intros r' (cs' & [_ ->]%go_store_Ret & [= <-])%go_bind_rok.
    cbn [fst keyed] in *. rewrite keyed_children in *. by apply Forall_insert.
  - destruct Hk as [Hk Hv]. case_decide as E; [|by apply settled_absent].
    apply (f_equal length) in E. rewrite length_take in E. assert (0 < length k)%nat by (destruct k; [done|cbn; lia]).
    apply settled_bind; [apply path_child_settled; [done|]; intros; apply IH; [done|rewrite length_drop; lia..]|].
    intros [c' val] Hc'. split; [done|]. by intros r' [= <-].
Qed.
Lemma proofToPath_settled fuel fuel' rootHash root key allow :
  keyed root → (S (2 * length key) < fuel)%nat → (S (2 * length key) < fuel')%nat →
  settled (proofToPath fuel rootHash root key Get allow) (proofToPath fuel' rootHash root key Get allow).
Proof.
  intros Hr H1 H2. rewrite <-length_hex in H1, H2. unfold proofToPath. destruct root as [|?|? ?|?|?]; cbn [rbind rok]; [|by apply path_loop_settled..].
  destruct (resolveNode Get rootHash) as [err|n] eqn:E; [apply settled_err|]. cbn. apply path_loop_settled; [by eapply resolved|done..].
Qed.

(** The verifier does not depend on the fuel, once there is enough for the
    two edges. *)
Theorem range_proof_fuel hashData emptyRoot fuel fuel' rootHash firstKey lastKey keys values :
  (∀ k, k = firstKey ∨ k = lastKey → S (2 * length k) < fuel ∧ S (2 * length k) < fuel')%nat →
  VerifyRangeProof hashData emptyRoot fuel rootHash firstKey lastKey keys values (Some Get) =
  VerifyRangeProof hashData emptyRoot fuel' rootHash firstKey lastKey keys values (Some Get).
Proof.
  intros Hf. destruct (Hf firstKey (or_introl eq_refl)) as [Hf1 Hf2], (Hf lastKey (or_intror eq_refl)) as [Hl1 Hl2].
  pose proof (λ allow, proofToPath_settled fuel fuel' rootHash NilNode firstKey allow I Hf1 Hf2) as Hp.
  assert (∀ kvs, rebuilt fuel rootHash firstKey lastKey kvs Get = rebuilt fuel' rootHash firstKey lastKey kvs Get) as Hr.
  { intros kvs. unfold rebuilt. destruct (Hp true) as (-> & _ & Hk). destruct (proofToPath fuel' rootHash NilNode firstKey Get true) as [[err|[r v]]|h]; try done.
    cbn [rbind]. assert (keyed r) as Hkr by by apply (Hk (r, v)). by destruct (proofToPath_settled fuel fuel' rootHash r lastKey true Hkr Hl1 Hl2) as (-> & _). }
  unfold VerifyRangeProof, verify_edges, verify_none, verify_one. destruct (Hp true) as (-> & _), (Hp false) as (-> & _).
  destruct (zip keys values) as [|[k v] [|kv kvs]]; by rewrite ?Hr.
Qed.
End fuel.

(** ** An example: a range of two entries out of four *)
Lemma demo_split_slice b k c r : DemoRLP.split b = Some (k, c, r) → ∃ h, b = h ++ c ++ r.
Proof.
  destruct b as [|x rest]; [done|]. cbn [DemoRLP.split]. assert (∀ off, ∃ h, rest = h ++ (DemoRLP.body off x rest).1 ++ (DemoRLP.body off x rest).2) as Hb.
  { intros off. unfold DemoRLP.body. case_bool_decide; [exists []; cbn; by rewrite take_drop|]. cbv zeta. cbn [fst snd].
    eexists (take _ rest). by rewrite (take_drop _ (drop _ rest)), take_drop. }
  repeat case_bool_decide; intros [= <- <- <-]; [by exists []|..]; match goal with |- context [DemoRLP.body ?off] => destruct (Hb off) as [h Hh] end;
    exists (x :: h); cbn; congruence.
Qed.
#[global] Instance demo_rlp_slices : RLPSlices.
Proof.
  split; cbn.
  - apply demo_split_slice.
  - intros b c r. destruct (DemoRLP.split b) as [[[[] c'] r']|] eqn:E; try done; intros [= <- <-]; by eapply demo_split_slice.
  - intros b c r. destruct (DemoRLP.split b) as [[[[] c'] r']|] eqn:E; try done; intros [= <- <-]; by eapply demo_split_slice.
Qed.

Module DemoRange.
Definition hashData := DemoStack.toy_hash.
Definition emptyRoot : bytes := replicate 32 0.
Definition value (x : Z) : bytes := replicate 33 x.
Definition kvs : list (bytes * bytes) := [([17], value 1); ([18], value 2); ([37], value 5); ([49], value 9)].
Definition e : Node := Eval vm_compute in match updates (DB := no_store) (mkTrie NilNode 0) kvs with Ret t => root t | Halt _ => NilNode end.
Definition m : gmap bytes bytes := foldl map_update ∅ kvs.
(** The proofs of the two edges: the second is of a missing key. *)
Definition firstKey : bytes := [18].
Definition lastKey : bytes := [38].
Definition db : list (bytes * bytes) := Eval vm_compute in map_to_list (Prove hashData e firstKey ∪ Prove hashData e lastKey).
Definition Get (h : bytes) : option bytes := snd <$> find (λ kv, bool_decide (kv.1 = h)) db.
Definition rootHash : bytes := Eval vm_compute in Trie_Hash hashData emptyRoot (mkTrie e 0).
Definition keys : list bytes := [[18]; [37]].
Definition values : list bytes := [value 2; value 5].

Lemma e_entries : entries e m.
Proof.
  destruct (updates_ok (DB := no_store) kvs (mkTrie NilNode 0) ∅) as (t & Ht & e' & He & Hent);
    [exists NilNode; split; [constructor|apply entries_nil]|by_compute|].
  apply expands_no_store in He as <-. vm_compute in Ht. by injection Ht as <-.
Qed.
Lemma no_clash_all n n' :
  Forall (λ s, Forall (λ s', hashData (encode (hashed_children hashData s)) = hashData (encode (hashed_children hashData s')) →
    hashed_children hashData s = hashed_children hashData s') (subtrees n')) (subtrees n) → no_clash hashData n n'.
Proof. intros HF s s' Hs Hs'. rewrite Forall_forall in HF. specialize (HF s Hs). rewrite Forall_forall in HF. by apply HF. Qed.
Ltac no_clash_compute := apply no_clash_all; cbv [subtrees e map concat app root]; repeat constructor;
  (let E := fresh in intros E; first [exfalso; revert E; vm_compute; discriminate | vm_compute; reflexivity]).

Lemma Get_db h b : Get h = Some b → (h, b) ∈ db.
Proof.
  unfold Get. destruct (find _ db) as [[h' b']|] eqn:E; [|done]. intros [= ->]. apply find_some in E as [Hin Hh%bool_decide_eq_true].
  cbn in Hh. subst h'. by apply list_elem_of_In.
Qed.
Definition checked (kv : bytes * bytes) : Prop :=
  Forall in_u8 kv.2 ∧ match decodeNode (length kv.2) kv.2 with Some n => hash hashData n true = HashNode kv.1 ∧ apart hashData emptyRoot n e | None => True end.
Lemma db_checked : Forall checked db.
Proof.
  unfold db. repeat (apply Forall_cons; split); [..|apply Forall_nil; exact I].
  all: (split; [by_compute|]); cbn [fst snd];
    match goal with |- match ?d with _ => _ end => destruct d as [n|] eqn:E; [|exact I]; vm_compute in E; injection E as <- end.
  all: split; [vm_compute; reflexivity|split; [no_clash_compute|vm_compute; discriminate]].
Qed.
Lemma Get_ok : proof_for hashData emptyRoot Get e.
Proof.
  assert (∀ h n, resolveNode Get h = inr n → hash hashData n true = HashNode h ∧ apart hashData emptyRoot n e) as Hr.
  { intros h n. unfold resolveNode. destruct (Get h) as [b|] eqn:E; [|done]. apply Get_db in E. pose proof db_checked as Hc. rewrite Forall_forall in Hc.
    destruct (Hc _ E) as [_ Hd]. cbn [fst snd] in Hd. destruct (decodeNode _ b); [|done]. by intros [= <-]. }
  split; [|intros h n Hn; exact (proj1 (Hr h n Hn))|intros h n Hn; exact (proj2 (Hr h n Hn))]. intros h b Hb%Get_db. pose proof db_checked as Hc. rewrite Forall_forall in Hc. by apply (Hc _ Hb).
Qed.
Definition again : Trie := Eval vm_compute in
  match rebuilt 10 rootHash firstKey lastKey (zip keys values) Get with Ret (inr t) => t | _ => mkTrie NilNode 0 end.
Lemma again_ok : rebuilt 10 rootHash firstKey lastKey (zip keys values) Get = rok again.
Proof. vm_compute. reflexivity. Qed.
Lemma rootHash_ok : Trie_Hash hashData emptyRoot (mkTrie e 0) = rootHash.
Proof. vm_compute. reflexivity. Qed.
Lemma checked_range : checkable hashData emptyRoot e 10 firstKey lastKey keys (zip keys values) (Some Get).
Proof.
  split; [exact Get_ok|]. intros t. rewrite rootHash_ok, again_ok. intros [= <-]. unfold again. split; [no_clash_compute|vm_compute; discriminate].
Qed.
End DemoRange.

Lemma range_proof_sound_witness :
  VerifyRangeProof DemoRange.hashData DemoRange.emptyRoot 10 DemoRange.rootHash DemoRange.firstKey DemoRange.lastKey DemoRange.keys DemoRange.values (Some DemoRange.Get) = rok true ∧
  DemoRange.m !! [18] = Some (DemoRange.value 2) ∧ DemoRange.m !! [20] = None.
Proof.
  split; [vm_compute; reflexivity|].
  destruct (range_proof_sound DemoRange.hashData DemoRange.emptyRoot DemoStack.toy_hash_len eq_refl 10 DemoRange.e DemoRange.m DemoRange.firstKey DemoRange.lastKey
    DemoRange.keys DemoRange.values (Some DemoRange.Get) true) as [H1 _].
  - exact DemoRange.e_entries.
  - vm_compute. discriminate.
  - by_compute.
  - by_compute.
  - by_compute.
  - exact DemoRange.checked_range.
  - vm_compute. reflexivity.
  - split; (rewrite H1; [vm_compute; reflexivity|by_compute|vm_compute; split_and!; reflexivity]).
Defined.

(** An entry before the first edge, in a part of the trie that the proof does
    not load, is accepted with any value: the update fails and its error is
    ignored, and the keys are not compared with the edges. *)
Example outside_entry_accepted :
  VerifyRangeProof DemoRange.hashData DemoRange.emptyRoot 10 DemoRange.rootHash DemoRange.firstKey DemoRange.lastKey
    ([17] :: DemoRange.keys) ([6] :: DemoRange.values) (Some DemoRange.Get) = rok true ∧
  DemoRange.m !! [17] = Some (DemoRange.value 1).
Proof. split; vm_compute; reflexivity. Qed.
