(* ===== verification/Database.v ===== *)
(** * The chain database (src/core/schema.go, src/core/database.go)

    The keys under which blocks, headers and configuration are stored, and
    the accessors.  The key-value store is a finite map; the ancient store
    (the "freezer") is read before it.  A failing write ends the process
    ([log.Crit]) and is left out.  RLP and JSON are parameters. *)
From S2P Require Import Prelude Core Utils Rebuild Block.
Local Open Scope Z_scope.

(** ASCII bytes of a constant. *)
Fixpoint ascii (s : string) : bytes :=
  match s with
  | EmptyString => []
  | String.String c s => Z.of_nat (Ascii.nat_of_ascii c) :: ascii s
  end.

(** ** Keys *)
Definition headHeaderKey : bytes := ascii "LastHeader".
Definition headBlockKey : bytes := ascii "LastBlock".
Definition headFastBlockKey : bytes := ascii "LastFast".
Definition headerPrefix : bytes := ascii "h".
Definition headerTDSuffix : bytes := ascii "t".
Definition headerHashSuffix : bytes := ascii "n".
Definition headerNumberPrefix : bytes := ascii "H".
Definition blockBodyPrefix : bytes := ascii "b".
Definition blockReceiptsPrefix : bytes := ascii "r".
Definition txLookupPrefix : bytes := ascii "l".
Definition bloomBitsPrefix : bytes := ascii "B".
Definition SnapshotAccountPrefix : bytes := ascii "a".
Definition SnapshotStoragePrefix : bytes := ascii "o".
Definition CodePrefix : bytes := ascii "c".
Definition skeletonHeaderPrefix : bytes := ascii "S".
Definition PreimagePrefix : bytes := ascii "secure-key-".
Definition configPrefix : bytes := ascii "ethereum-config-".
Definition genesisPrefix : bytes := ascii "ethereum-genesis-".

Definition encodeBlockNumber (number : Z) : bytes := be_bytes 8 number.
Definition headerKeyPrefix (number : Z) : bytes := headerPrefix ++ encodeBlockNumber number.
Definition headerKey (number : Z) (hash : bytes) : bytes := (headerPrefix ++ encodeBlockNumber number) ++ hash.
Definition headerTDKey (number : Z) (hash : bytes) : bytes := headerKey number hash ++ headerTDSuffix.
Definition headerHashKey (number : Z) : bytes := (headerPrefix ++ encodeBlockNumber number) ++ headerHashSuffix.
Definition headerNumberKey (hash : bytes) : bytes := headerNumberPrefix ++ hash.
Definition blockBodyKey (number : Z) (hash : bytes) : bytes := (blockBodyPrefix ++ encodeBlockNumber number) ++ hash.
Definition blockReceiptsKey (number : Z) (hash : bytes) : bytes :=
  (blockReceiptsPrefix ++ encodeBlockNumber number) ++ hash.
Definition txLookupKey (hash : bytes) : bytes := txLookupPrefix ++ hash.
Definition accountSnapshotKey (hash : bytes) : bytes := SnapshotAccountPrefix ++ hash.
Definition storageSnapshotKey (accountHash storageHash : bytes) : bytes :=
  (SnapshotStoragePrefix ++ accountHash) ++ storageHash.
Definition storageSnapshotsKey (accountHash : bytes) : bytes := SnapshotStoragePrefix ++ accountHash.
Definition bloomBitsKey (bit section : Z) (hash : bytes) : bytes :=
  bloomBitsPrefix ++ be_bytes 2 bit ++ be_bytes 8 section ++ hash.
Definition skeletonHeaderKey (number : Z) : bytes := skeletonHeaderPrefix ++ encodeBlockNumber number.
Definition preimageKey (hash : bytes) : bytes := PreimagePrefix ++ hash.
Definition codeKey (hash : bytes) : bytes := CodePrefix ++ hash.
Definition IsCodeKey (key : bytes) : bool * bytes :=
  if bool_decide (take (length CodePrefix) key = CodePrefix) && bool_decide (len key = 32 + len CodePrefix)
  then (true, drop (length CodePrefix) key) else (false, []).
Definition configKey (hash : bytes) : bytes := configPrefix ++ hash.
Definition genesisKey (hash : bytes) : bytes := genesisPrefix ++ hash.

(** The entries of the database, by what they are. *)
Inductive entry :=
  | EHeadHeader | EHeadBlock | EHeadFastBlock
  | EHeader (number : Z) (hash : bytes) | ETD (number : Z) (hash : bytes) | ECanonical (number : Z)
  | ENumber (hash : bytes) | EBody (number : Z) (hash : bytes) | EReceipts (number : Z) (hash : bytes)
  | ETxLookup (hash : bytes) | EAccount (hash : bytes) | EStorage (account storage : bytes)
  | EBloom (bit section : Z) (hash : bytes) | ESkeleton (number : Z)
  | EPreimage (hash : bytes) | ECode (hash : bytes) | EConfig (hash : bytes) | EGenesis (hash : bytes)
  | ETrieNode (hash : bytes).
Definition entry_key (e : entry) : bytes :=
  match e with
  | EHeadHeader => headHeaderKey | EHeadBlock => headBlockKey | EHeadFastBlock => headFastBlockKey
  | EHeader n h => headerKey n h | ETD n h => headerTDKey n h | ECanonical n => headerHashKey n
  | ENumber h => headerNumberKey h | EBody n h => blockBodyKey n h | EReceipts n h => blockReceiptsKey n h
  | ETxLookup h => txLookupKey h | EAccount h => accountSnapshotKey h | EStorage a s => storageSnapshotKey a s
  | EBloom b s h => bloomBitsKey b s h | ESkeleton n => skeletonHeaderKey n
  | EPreimage h => preimageKey h | ECode h => codeKey h | EConfig h => configKey h | EGenesis h => genesisKey h
  | ETrieNode h => h
  end.
Definition hash_ok (h : bytes) : Prop := length h = 32%nat.
Definition entry_ok (e : entry) : Prop :=
  match e with
  | EHeadHeader | EHeadBlock | EHeadFastBlock => True
  | EHeader n h | ETD n h | EBody n h | EReceipts n h => in_u64 n ∧ hash_ok h
  | ECanonical n | ESkeleton n => in_u64 n
  | ENumber h | ETxLookup h | EAccount h | EPreimage h | ECode h | EConfig h | EGenesis h | ETrieNode h => hash_ok h
  | EStorage a s => hash_ok a ∧ hash_ok s
  | EBloom b s h => 0 ≤ b < 2^16 ∧ in_u64 s ∧ hash_ok h
  end.

Lemma be_bytes_inj n x y : 0 ≤ x < 2^(8 * Z.of_nat n) → 0 ≤ y < 2^(8 * Z.of_nat n) → be_bytes n x = be_bytes n y → x = y.
Proof. intros Hx Hy E%(f_equal be_value). by rewrite !be_value_bytes, !Z.mod_small in E. Qed.

Lemma encodeBlockNumber_inj x y : in_u64 x → in_u64 y → encodeBlockNumber x = encodeBlockNumber y → x = y.
Proof. apply (be_bytes_inj 8). Qed.

Lemma length_encodeBlockNumber n : length (encodeBlockNumber n) = 8%nat.
Proof. apply length_be_bytes. Qed.

(** A number and a hash, or a bit, a section and a hash, are read off. *)
#[local] Opaque be_bytes.
Lemma number_hash_inj n n' h h' :
  in_u64 n → in_u64 n' → encodeBlockNumber n ++ h = encodeBlockNumber n' ++ h' → n = n' ∧ h = h'.
Proof.
  intros Hn Hn' E. apply app_inj_1 in E as [E ->]; [|by rewrite !length_encodeBlockNumber].
  split; [by apply encodeBlockNumber_inj|done].
Qed.

(** Length and first byte tell the kinds apart; a trie node's key is its
    bare hash. *)
Definition key_tag (e : entry) : nat * Z :=
  match e with
  | EHeadHeader => (10%nat, 76) | EHeadBlock => (9%nat, 76) | EHeadFastBlock => (8%nat, 76)
  | EHeader _ _ => (41%nat, 104) | ETD _ _ => (42%nat, 104) | ECanonical _ => (10%nat, 104)
  | ENumber _ => (33%nat, 72) | EBody _ _ => (41%nat, 98) | EReceipts _ _ => (41%nat, 114)
  | ETxLookup _ => (33%nat, 108) | EAccount _ => (33%nat, 97) | EStorage _ _ => (65%nat, 111)
  | EBloom _ _ _ => (43%nat, 66) | ESkeleton _ => (9%nat, 83)
  | EPreimage _ => (43%nat, 115) | ECode _ => (33%nat, 99) | EConfig _ => (48%nat, 101) | EGenesis _ => (49%nat, 101)
  | ETrieNode h => (32%nat, default 0 (head h))
  end.

Lemma key_tag_spec e : entry_ok e → key_tag e = (length (entry_key e), default 0 (head (entry_key e))).
Proof.
  unfold entry_ok, hash_ok. destruct e; simpl; intros He; try done; destruct_and?;
    rewrite ?length_app, ?length_be_bytes, ?length_encodeBlockNumber; simpl; do 2 f_equal; lia.
Qed.

(** Keys of one kind. *)
Lemma same_kind_inj e1 e2 :
  entry_ok e1 → entry_ok e2 → key_tag e1 = key_tag e2 → entry_key e1 = entry_key e2 → e1 = e2.
Proof.
  unfold entry_ok, hash_ok. intros H1 H2 Ht E.
  destruct e1, e2; simpl in Ht; try discriminate Ht; try reflexivity; unfold entry_key in E; destruct_and?.
  all: unfold headerTDKey, headerKey, headerHashKey, blockBodyKey, blockReceiptsKey, storageSnapshotKey, bloomBitsKey,
    skeletonHeaderKey, headerNumberKey, txLookupKey, accountSnapshotKey, preimageKey, codeKey, configKey, genesisKey in E;
    rewrite <-?app_assoc in E; try apply app_inv_head in E; try (by subst).
  all: try (match type of E with encodeBlockNumber ?n ++ _ = encodeBlockNumber ?n' ++ _ =>
              apply (number_hash_inj n n') in E as [-> E]; [|assumption..] end); try (by subst).
  - by apply app_inv_tail in E as ->.
  - by apply app_inj_1 in E as [-> ->]; [|congruence].
  - apply app_inj_1 in E as [E1 E]; [|by rewrite !length_be_bytes]. apply (be_bytes_inj 2) in E1 as ->; [|simpl; lia..].
    by apply (number_hash_inj section section0) in E as [-> ->].
  - by apply encodeBlockNumber_inj in E as ->.
Qed.

(** No two entries of the chain database share a key: headers, total
    difficulties, canonical hashes, numbers, bodies, receipts, lookups,
    snapshots, bloom bits, preimages, code, configurations, genesis states,
    head markers and trie nodes are all kept apart, and within a kind the
    number and the hash can be read off the key. *)
Theorem entry_key_inj e1 e2 : entry_ok e1 → entry_ok e2 → entry_key e1 = entry_key e2 → e1 = e2.
Proof.
  intros H1 H2 E. apply same_kind_inj; try done. by rewrite !key_tag_spec, E.
Qed.

Lemma put_other (m : gmap bytes bytes) e1 e2 v :
  entry_ok e1 → entry_ok e2 → e1 ≠ e2 → <[entry_key e1 := v]> m !! entry_key e2 = m !! entry_key e2.
Proof.
  intros H1 H2 Hne. apply lookup_insert_ne. intros E. apply Hne. apply same_kind_inj; try done.
  by rewrite !key_tag_spec, E.
Qed.

(** ** The store *)
Record EthDB := mkEthDB { kv : gmap bytes bytes; Ancient : string → Z → option bytes }.
Definition Put (k v : bytes) (db : EthDB) : EthDB := mkEthDB (<[k := v]> (kv db)) (Ancient db).
(** [data, _ := db.Get(k)] *)
Definition GetOrEmpty (db : EthDB) (k : bytes) : bytes := default [] (kv db !! k).
Definition ancient (db : EthDB) (table : string) (number : Z) : bytes := default [] (Ancient db table number).

Section accessors.
(** RLP of headers, bodies and big integers, JSON of the configuration,
    Keccak-256, and the hash of a header. *)
Variable EncodeHeader : Header → option bytes.
Variable DecodeHeader : bytes → option Header.
Variable EncodeBody : list Transaction → option bytes.
Variable DecodeBody : bytes → option (list Transaction).
Variable EncodeBig : Z → option bytes.
Variable EncodeConfig : Z → option bytes.
Variable DecodeConfig : bytes → option Z.
Variable Keccak256 : bytes → bytes.
Variable rlpHash : Header → option bytes.

Definition WriteGenesisState (hash data : bytes) (db : EthDB) : EthDB := Put (genesisKey hash) data db.
Definition WriteTd (hash : bytes) (number td : Z) (db : EthDB) : go EthDB :=
  data ← or_exit "Failed to RLP encode block total difficulty" (EncodeBig td);
  Ret (Put (headerTDKey number hash) data db).
Definition WriteBodyRLP (hash : bytes) (number : Z) (rlp : bytes) (db : EthDB) : EthDB :=
  Put (blockBodyKey number hash) rlp db.
Definition WriteBody (hash : bytes) (number : Z) (body : list Transaction) (db : EthDB) : go EthDB :=
  data ← or_exit "Failed to RLP encode body" (EncodeBody body);
  Ret (WriteBodyRLP hash number data db).
Definition WriteHeaderNumber (hash : bytes) (number : Z) (db : EthDB) : EthDB :=
  Put (headerNumberKey hash) (encodeBlockNumber number) db.
Definition WriteHeader (header : Header) (db : EthDB) : go EthDB :=
  hash ← Header_Hash rlpHash header;
  number ← deref (hNumber header);
  let number := u64 number in
  let db := WriteHeaderNumber hash number db in
  data ← or_exit "Failed to RLP encode header" (EncodeHeader header);
  Ret (Put (headerKey number hash) data db).
(** The block's hash is cached by the first call that asks for it. *)
Definition WriteBlock (block : Block) (db : EthDB) : go (Block * EthDB) :=
  '(hash, block) ← Block.GetHash rlpHash block;
  number ← NumberU64 block;
  db ← WriteBody hash number (Transactions block) db;
  db ← WriteHeader (GetHeader block) db;
  Ret (block, db).
Definition WriteCanonicalHash (hash : bytes) (number : Z) (db : EthDB) : EthDB := Put (headerHashKey number) hash db.
Definition WriteHeadBlockHash (hash : bytes) (db : EthDB) : EthDB := Put headBlockKey hash db.
Definition WriteHeadFastBlockHash (hash : bytes) (db : EthDB) : EthDB := Put headFastBlockKey hash db.
Definition WriteHeadHeaderHash (hash : bytes) (db : EthDB) : EthDB := Put headHeaderKey hash db.
Definition WriteChainConfig (hash : bytes) (cfg : option Z) (db : EthDB) : go EthDB :=
  match cfg with
  | None => Ret db
  | Some cfg => data ← or_exit "Failed to JSON encode chain config" (EncodeConfig cfg);
                Ret (Put (configKey hash) data db)
  end.

Definition ReadCanonicalHash (db : EthDB) (number : Z) : bytes :=
  let data := ancient db "hashes" number in
  BytesToHash (if bool_decide (len data = 0) then GetOrEmpty db (headerHashKey number) else data).
Definition ReadHeaderRLP (db : EthDB) (hash : bytes) (number : Z) : bytes :=
  let data := ancient db "headers" number in
  if bool_decide (len data > 0) && bool_decide (BytesToHash (Keccak256 data) = hash) then data
  else GetOrEmpty db (headerKey number hash).
(** An entry that does not decode ends the process. *)
Definition ReadHeader (db : EthDB) (hash : bytes) (number : Z) : go (option Header) :=
  let data := ReadHeaderRLP db hash number in
  if bool_decide (len data = 0) then Ret None
  else header ← or_exit "Invalid block header RLP" (DecodeHeader data); Ret (Some header).
Definition ReadHeaderNumber (db : EthDB) (hash : bytes) : option Z :=
  let data := GetOrEmpty db (headerNumberKey hash) in
  if bool_decide (len data ≠ 8) then None else Some (be_value data).
Definition ReadHeadHeaderHash (db : EthDB) : bytes :=
  let data := GetOrEmpty db headHeaderKey in
  if bool_decide (len data = 0) then zero_hash else BytesToHash data.
Definition ReadChainConfig (db : EthDB) (hash : bytes) : go (option Z) :=
  let data := GetOrEmpty db (configKey hash) in
  if bool_decide (len data = 0) then Ret None
  else config ← or_exit "Invalid chain config JSON" (DecodeConfig data); Ret (Some config).
Definition isCanon (db : EthDB) (number : Z) (hash : bytes) : bool :=
  match Ancient db "hashes" number with Some h => bool_decide (h = hash) | None => false end.
Definition ReadBodyRLP (db : EthDB) (hash : bytes) (number : Z) : bytes :=
  if isCanon db number hash then ancient db "bodies" number else GetOrEmpty db (blockBodyKey number hash).
Definition ReadBody (db : EthDB) (hash : bytes) (number : Z) : go (option (list Transaction)) :=
  let data := ReadBodyRLP db hash number in
  if bool_decide (len data = 0) then Ret None
  else body ← or_exit "Invalid block body RLP" (DecodeBody data); Ret (Some body).
Definition NewBlockWithHeader (header : Header) : Block := mkBlock (CopyHeader header) [] zero_hash None.
Definition ReadBlock (db : EthDB) (hash : bytes) (number : Z) : go (option Block) :=
  header ← ReadHeader db hash number;
  match header with
  | None => Ret None
  | Some header =>
      body ← ReadBody db hash number;
      match body with
      | None => Ret None
      | Some body => Ret (Some (WithBody (NewBlockWithHeader header) body))
      end
  end.

(** ** Reading back what was written *)

(** A database without ancient data. *)
Definition no_ancients (db : EthDB) : Prop := ∀ table number, Ancient db table number = None.

(** The encodings can be read back and are not empty; a header's hash is 32
    bytes and not zero. *)
Hypothesis header_roundtrip : ∀ h, ∃ data, EncodeHeader (CopyHeader h) = Some data ∧ data ≠ [] ∧ DecodeHeader data = Some (CopyHeader h).
Hypothesis body_roundtrip : ∀ b, ∃ data, EncodeBody b = Some data ∧ data ≠ [] ∧ DecodeBody data = Some b.
Hypothesis hash_some : ∀ h, ∃ x, rlpHash h = Some x ∧ hash_ok x ∧ x ≠ zero_hash.

Lemma CopyHeader_idem h : CopyHeader (CopyHeader h) = CopyHeader h.
Proof. done. Qed.

(** A block whose cached hash, if any, is the hash of its header. *)
Definition hash_cached (b : Block) : Prop :=
  bHash b = zero_hash ∨ rlpHash (bHeader b) = Some (bHash b).
Definition block_hash (b : Block) : bytes := default [] (rlpHash (bHeader b)).
Definition with_hash (b : Block) : Block := mkBlock (bHeader b) (Transactions b) (block_hash b) (Td b).

Lemma GetHash_ok b : hash_cached b → Block.GetHash rlpHash b = Ret (block_hash b, with_hash b).
Proof.
  intros Hb. destruct (hash_some (bHeader b)) as (x & Hx & Hok & Hnz). unfold Block.GetHash, with_hash, block_hash, Header_Hash. rewrite Hx.
  simpl. case_bool_decide as E; [done|]. destruct Hb as [?|Hb]; [done|]. rewrite Hx in Hb. simplify_eq. by destruct b.
Qed.

Lemma block_hash_ok b : hash_ok (block_hash b) ∧ block_hash b ≠ zero_hash.
Proof. unfold block_hash. by destruct (hash_some (bHeader b)) as (x & -> & ? & ?). Qed.

(** The number of a block with a copied header. *)
Definition block_number (b : Block) : Z := u64 (default 0 (hNumber (bHeader b))).

Lemma lookup_get db k v : kv db !! k = Some v → GetOrEmpty db k = v.
Proof. unfold GetOrEmpty. by intros ->. Qed.

(** The entries [WriteBlock] writes, and that it writes no others. *)
Lemma WriteBlock_ok b db :
  hash_cached b → bHeader b = CopyHeader (bHeader b) →
  ∃ db' hdata bdata, WriteBlock b db = Ret (with_hash b, db') ∧ Ancient db' = Ancient db ∧
    DecodeHeader hdata = Some (bHeader b) ∧ hdata ≠ [] ∧ DecodeBody bdata = Some (Transactions b) ∧ bdata ≠ [] ∧
    kv db' = <[entry_key (EHeader (block_number b) (block_hash b)) := hdata]>
      (<[entry_key (ENumber (block_hash b)) := encodeBlockNumber (block_number b)]>
        (<[entry_key (EBody (block_number b) (block_hash b)) := bdata]> (kv db))).
Proof.
  intros Hc Hh. unfold WriteBlock. rewrite GetHash_ok by done. cbv beta iota delta [mbind go_bind].
  assert (hNumber (bHeader b) = Some (default 0 (hNumber (bHeader b)))) as Hn by (rewrite Hh at 1; done).
  unfold NumberU64. cbn [with_hash bHeader Transactions]. rewrite Hn. cbv beta iota delta [deref mbind go_bind].
  destruct (body_roundtrip (Transactions b)) as (bdata & Hb1 & Hb2 & Hb3).
  destruct (header_roundtrip (bHeader b)) as (hdata & Hh1 & Hh2 & Hh3).
  unfold WriteBody. rewrite Hb1. cbv beta iota delta [or_exit mbind go_bind].
  unfold WriteHeader, Header_Hash. unfold GetHeader. change (bHeader (with_hash b)) with (bHeader b). rewrite <-Hh in *.
  destruct (hash_some (bHeader b)) as (x & Hx & _). rewrite Hx, Hn. cbv beta iota delta [or_exit mbind go_bind deref].
  rewrite Hh1. eexists _, hdata, bdata. split_and!; try done.
  unfold block_hash, block_number. rewrite Hx, Hn. done.
Qed.

(** A block read back: header and transactions of the block, no cached
    hash. *)
Definition reread (b : Block) : Block := mkBlock (CopyHeader (bHeader b)) (Transactions b) zero_hash None.

Lemma ReadBlock_ok db b hdata bdata :
  no_ancients db → hash_ok (block_hash b) →
  kv db !! entry_key (EHeader (block_number b) (block_hash b)) = Some hdata → hdata ≠ [] →
  DecodeHeader hdata = Some (bHeader b) →
  kv db !! entry_key (EBody (block_number b) (block_hash b)) = Some bdata → bdata ≠ [] →
  DecodeBody bdata = Some (Transactions b) →
  ReadBlock db (block_hash b) (block_number b) = Ret (Some (reread b)).
Proof.
  intros Ha Hok Hh Hhn Hhd Hb Hbn Hbd. unfold ReadBlock, ReadHeader, ReadHeaderRLP, ReadBody, ReadBodyRLP, isCanon, ancient.
  rewrite !Ha. cbn [default]. rewrite (bool_decide_false (len [] > 0)) by (unfold len; simpl; lia). cbn [andb].
  change (headerKey _ _) with (entry_key (EHeader (block_number b) (block_hash b))).
  change (blockBodyKey _ _) with (entry_key (EBody (block_number b) (block_hash b))).
  rewrite (lookup_get _ _ _ Hh), (lookup_get _ _ _ Hb).
  rewrite !bool_decide_false by (unfold len; intros E; (by destruct hdata) || (by destruct bdata)).
  rewrite Hhd, Hbd. done.
Qed.
End accessors.

Lemma entry_key_inj_witness :
  ECanonical 5 = ECanonical 5 ∧ entry_key (EHeader 5 (replicate 32 1)) ≠ entry_key (EBody 5 (replicate 32 1)).
Proof.
  split; [apply entry_key_inj; [done|done|reflexivity]|vm_compute; discriminate].
Defined.
