(* ===== verification/BlockChain.v ===== *)
(** * Genesis and the chain of a shard (src/core/genesis.go,
    src/core/blockchain.go, src/core/blockchain_reader.go,
    src/core/stateDB.go)

    A shard's node writes the genesis block to its database and opens a chain
    on it; later blocks are kept in memory only.  [state.StateDB] is
    go-ethereum's and an interface here.  The JSON files of test tools
    ([CreateGenesisJson] and the like) are left out. *)
From S2P Require Import Prelude Core Utils Rebuild Block Database Exec.
Local Open Scope Z_scope.

(** [GenesisAccount] and [Genesis]; the chain configuration is its chain
    number. *)
Record GenesisAccount := mkGenesisAccount {
  gaCode : bytes; gaStorage : gmap bytes bytes; gaBalance : Z; gaNonce : Z }.
Abbreviation GenesisAlloc := (gmap bytes GenesisAccount).
Record Genesis := mkGenesis {
  gConfig : option Z; gNonce : Z; gTimestamp : Z; gDifficulty : option Z; gMixhash : bytes; gCoinbase : bytes;
  gAlloc : GenesisAlloc; gNumber : Z; gParentHash : bytes }.

Definition AllProtocolChanges : option Z := Some (-1).
Definition GenesisDifficulty : Z := 131072.
(** An address or hash with the given first byte. *)
Definition padded (n : nat) (b : Z) : bytes := b :: replicate (n - 1) 0.
Definition DefaultAlloc : GenesisAlloc :=
  {[ padded 20 1 := mkGenesisAccount [] {[ padded 32 1 := padded 32 1 ]} 1 0;
     padded 20 2 := mkGenesisAccount [] {[ padded 32 2 := padded 32 2 ]} 2 0 ]}.
Definition DefaultGenesisBlock : Genesis :=
  mkGenesis AllProtocolChanges 66 0 (Some 17179869184) zero_hash (replicate 20 0) DefaultAlloc 0 zero_hash.

(** What the code asks of a state database beyond [Exec.StateDB]: opening one
    at a root, code and storage, and writing it out. *)
Class StateStore (SDB : Type) := {
  state_New : bytes → EthDB → option SDB;
  SetCode : SDB → bytes → bytes → SDB;
  SetState : SDB → bytes → bytes → bytes → SDB;
  state_Commit : SDB → option (bytes * SDB);
  TrieDB_Commit : SDB → bytes → EthDB → option EthDB
}.

Section genesis.
Context {SDB : Type} `{StateDB SDB} `{StateStore SDB} `{MI : MapIter} `{TH : TrieHasher}.
Variable EncodeHeader : Header → option bytes.
Variable DecodeHeader : bytes → option Header.
Variable EncodeBody : list Transaction → option bytes.
Variable DecodeBody : bytes → option (list Transaction).
Variable EncodeBig : Z → option bytes.
Variable EncodeConfig : Z → option bytes.
Variable DecodeConfig : bytes → option Z.
Variable Keccak256 : bytes → bytes.
Variable rlpHash : Header → option bytes.
Variable EncodeAlloc : GenesisAlloc → option bytes.
Variable AppendUint64 : Z → bytes.
Variable EncodeIndex : Transaction → bytes.
Variable EmptyRootHash : bytes.
(** A new database in memory, for [ToBlock(nil)]. *)
Variable NewMemoryDatabase : EthDB.

(** [NewStateDB]: the error is dropped, and with it the state. *)
Definition NewStateDB (db : EthDB) : option SDB := state_New zero_hash db.

(** [flush]: the accounts of the allocation in a new state, written out. *)
Definition flush_account (s : SDB) (ga : bytes * GenesisAccount) : SDB :=
  let '(addr, account) := ga in
  let s := AddBalance s addr (gaBalance account) in
  let s := SetCode s addr (gaCode account) in
  let s := SetNonce s addr (gaNonce account) in
  foldl (λ s kv, SetState s addr kv.1 kv.2) s (map_iter (gaStorage account)).
Definition flush (ga : GenesisAlloc) (db : EthDB) : option (bytes * EthDB) :=
  statedb ← state_New zero_hash db;
  let statedb := foldl flush_account statedb (map_iter ga) in
  '(root, statedb) ← state_Commit statedb;
  db ← TrieDB_Commit statedb root db;
  Some (root, db).

Definition genesis_header (g : Genesis) (root : bytes) : Header :=
  mkHeader (gParentHash g) (gCoinbase g) root zero_hash
    (if bool_decide (gDifficulty g = None ∧ gMixhash g = zero_hash) then Some GenesisDifficulty else gDifficulty g)
    (Some (gNumber g)) (gTimestamp g) (gMixhash g) (be_bytes 8 (gNonce g)) 0.
(** [ToBlock]; [None] stands for a nil database. *)
Definition ToBlock (g : Genesis) (db : option EthDB) : go (Block * EthDB) :=
  let db := default NewMemoryDatabase db in
  match flush (gAlloc g) db with
  | None => Halt (GoPanic "flush")
  | Some (root, db) =>
      block ← NewBlock AppendUint64 EncodeIndex EmptyRootHash (genesis_header g root) [];
      Ret (block, db)
  end.

(** [Commit]: the block, or an error. *)
Inductive genesis_error :=
  | ErrNotGenesis | ErrAlloc | ErrNoConfig | ErrMismatch (stored new : bytes) | ErrNoHeadNumber.
Definition Genesis_Commit (g : Genesis) (db : EthDB) : go ((genesis_error + Block) * EthDB) :=
  '(block, db) ← ToBlock g (Some db);
  number ← deref (hNumber (bHeader block));
  if bool_decide (number ≠ 0) then Ret (inl ErrNotGenesis, db)
  else
    let config := match gConfig g with None => AllProtocolChanges | c => c end in
    '(hash, block) ← Block.GetHash rlpHash block;
    match EncodeAlloc (gAlloc g) with
    | None => Ret (inl ErrAlloc, db)
    | Some blob =>
        let db := WriteGenesisState hash blob db in
        number ← NumberU64 block;
        difficulty ← deref (hDifficulty (bHeader block));
        db ← WriteTd EncodeBig hash number difficulty db;
        '(block, db) ← WriteBlock EncodeHeader EncodeBody rlpHash block db;
        let db := WriteCanonicalHash hash number db in
        let db := WriteHeadBlockHash hash db in
        let db := WriteHeadFastBlockHash hash db in
        let db := WriteHeadHeaderHash hash db in
        db ← WriteChainConfig EncodeConfig hash config db;
        Ret (inr block, db)
    end.
Definition MustCommit (g : Genesis) (db : EthDB) : go (Block * EthDB) :=
  '(r, db) ← Genesis_Commit g db;
  match r with inr block => Ret (block, db) | inl _ => Halt (GoPanic "genesis commit") end.

(** [configOrDefault], on a possibly nil genesis. *)
Definition configOrDefault (g : option Genesis) : option Z :=
  match g with Some g => gConfig g | None => AllProtocolChanges end.

(** [SetupGenesisBlock]: the configuration, the hash and the error. *)
Definition SetupGenesisBlock (db : EthDB) (genesis : option Genesis) :
    go (option Z * bytes * option genesis_error * EthDB) :=
  if bool_decide (from_option gConfig (Some 0) genesis = None) then Ret (AllProtocolChanges, zero_hash, Some ErrNoConfig, db)
  else
    let stored := ReadCanonicalHash db 0 in
    if bool_decide (stored = zero_hash) then
      let genesis := default DefaultGenesisBlock genesis in
      '(r, db) ← Genesis_Commit genesis db;
      match r with
      | inl err => Ret (gConfig genesis, zero_hash, Some err, db)
      | inr block => '(hash, _) ← Block.GetHash rlpHash block; Ret (gConfig genesis, hash, None, db)
      end
    else
      header ← ReadHeader DecodeHeader Keccak256 db stored 0;
      header ← deref header;
      match state_New (hRoot header) db with
      | None =>
          let genesis := default DefaultGenesisBlock genesis in
          '(block, _) ← ToBlock genesis None;
          '(hash, _) ← Block.GetHash rlpHash block;
          if bool_decide (hash ≠ stored) then Ret (gConfig genesis, hash, Some (ErrMismatch stored hash), db)
          else
            '(r, db) ← Genesis_Commit genesis db;
            match r with
            | inl err => Ret (gConfig genesis, hash, Some err, db)
            | inr block => '(hash, _) ← Block.GetHash rlpHash block; Ret (gConfig genesis, hash, None, db)
            end
      | Some _ =>
          mismatch ← match genesis with
                     | None => Ret None
                     | Some g =>
                         '(block, _) ← ToBlock g None;
                         '(hash, _) ← Block.GetHash rlpHash block;
                         Ret (if bool_decide (hash ≠ stored) then Some (gConfig g, hash) else None)
                     end;
          match mismatch with
          | Some (config, hash) => Ret (config, hash, Some (ErrMismatch stored hash), db)
          | None =>
              let newcfg := configOrDefault genesis in
              storedcfg ← ReadChainConfig DecodeConfig db stored;
              match storedcfg with
              | None => db ← WriteChainConfig EncodeConfig stored newcfg db; Ret (newcfg, stored, None, db)
              | Some _ =>
                  let newcfg := match genesis with None => storedcfg | Some _ => newcfg end in
                  match ReadHeaderNumber db (ReadHeadHeaderHash db) with
                  | None => Ret (newcfg, stored, Some ErrNoHeadNumber, db)
                  | Some _ => db ← WriteChainConfig EncodeConfig stored newcfg db; Ret (newcfg, stored, None, db)
                  end
              end
          end
      end.

(** ** The chain *)

(** The cache is an LRU map from interface values; [GetBlock] looks blocks up
    by hash and adds them under a pointer to a new header. *)
Inductive cache_key := KHash (h : bytes) | KPointer (p : Z).
#[global] Instance cache_key_eq_dec : EqDecision cache_key.
Proof. solve_decision. Defined.
Definition blockCacheLimit : nat := 256.

Record BlockChain := mkBlockChain {
  ChainID : option Z;
  bcDb : EthDB;
  statedb : option SDB;
  blockCache : list (cache_key * Block);
  currentBlock : option Block;
  blocks : list Block
}.
Definition set_cache (c : list (cache_key * Block)) (bc : BlockChain) : BlockChain :=
  mkBlockChain (ChainID bc) (bcDb bc) (statedb bc) c (currentBlock bc) (blocks bc).

Definition cache_get (k : cache_key) (c : list (cache_key * Block)) : option Block :=
  (λ p, p.2.2) <$> list_find (λ kv, kv.1 = k) c.
Definition GetBlock (new_ptr : Z) (hash : bytes) (number : Z) (bc : BlockChain) : go (option Block * BlockChain) :=
  match cache_get (KHash hash) (blockCache bc) with
  | Some block => Ret (Some block, bc)
  | None =>
      block ← ReadBlock DecodeHeader DecodeBody Keccak256 (bcDb bc) hash number;
      match block with
      | None => Ret (None, bc)
      | Some block => Ret (Some block, set_cache (take blockCacheLimit ((KPointer new_ptr, block) :: blockCache bc)) bc)
      end
  end.
Definition GetBlockByNumber (new_ptr number : Z) (bc : BlockChain) : go (option Block * BlockChain) :=
  let hash := ReadCanonicalHash (bcDb bc) number in
  if bool_decide (hash = zero_hash) then Ret (None, bc) else GetBlock new_ptr hash number bc.

Inductive chain_error := ErrNoGenesis | ErrUnknown.
Definition NewBlockChain (db : EthDB) (chainID : option Z) : go (chain_error + BlockChain) :=
  let bc := mkBlockChain chainID db (NewStateDB db) [] None [] in
  '(genesis, bc) ← GetBlockByNumber 0 0 bc;
  match genesis with
  | None => Ret (inl ErrNoGenesis)
  | Some head =>
      match state_New (hRoot (bHeader head)) db with
      | None => Ret (inl ErrUnknown)
      | Some _ => Ret (inr (mkBlockChain chainID db (statedb bc) (blockCache bc) (Some head) [head]))
      end
  end.

Definition CurrentBlock (bc : BlockChain) : go Block :=
  match currentBlock bc with Some b => Ret b | None => Halt (GoPanic "interface conversion") end.
Definition GetChainHeight (bc : BlockChain) : go Z := b ← CurrentBlock bc; NumberU64 b.
Definition bc_WriteBlock (block : Block) (bc : BlockChain) : BlockChain :=
  mkBlockChain (ChainID bc) (bcDb bc) (statedb bc) (blockCache bc) (Some block) (blocks bc ++ [block]).
Definition AllBlocks (bc : BlockChain) : list Block := blocks bc.
Definition set_statedb (s : SDB) (bc : BlockChain) : BlockChain :=
  mkBlockChain (ChainID bc) (bcDb bc) (Some s) (blockCache bc) (currentBlock bc) (blocks bc).

(** ** From genesis to the chain *)
Hypothesis header_roundtrip : ∀ h, ∃ data, EncodeHeader (CopyHeader h) = Some data ∧ data ≠ [] ∧ DecodeHeader data = Some (CopyHeader h).
Hypothesis body_roundtrip : ∀ b, ∃ data, EncodeBody b = Some data ∧ data ≠ [] ∧ DecodeBody data = Some b.
Hypothesis config_roundtrip : ∀ c, ∃ data, EncodeConfig c = Some data ∧ data ≠ [] ∧ DecodeConfig data = Some c.
Hypothesis hash_some : ∀ h, ∃ x, rlpHash h = Some x ∧ hash_ok x ∧ x ≠ zero_hash.
Hypothesis big_some : ∀ z, is_Some (EncodeBig z).

(** State is kept under the hashes of trie nodes and of code: whether a state
    can be opened depends on these entries only. *)
Definition is_state (e : entry) : Prop := match e with ETrieNode h | ECode h => hash_ok h | _ => False end.
Hypothesis state_local : ∀ root db db',
  (∀ e, is_state e → kv db' !! entry_key e = kv db !! entry_key e) →
  is_Some (state_New root db) → is_Some (state_New root db').

(** Writing the allocation out, to any database, gives the same root and
    touches state entries only. *)
Definition flushes (g : Genesis) (root : bytes) : Prop :=
  ∀ db, ∃ db1, flush (gAlloc g) db = Some (root, db1) ∧ Ancient db1 = Ancient db ∧ is_Some (state_New root db1).

Definition genesis_block (g : Genesis) (root : bytes) : Block :=
  mkBlock (set_hTxHash EmptyRootHash (CopyHeader (genesis_header g root))) [] zero_hash (Some 0).

Lemma ToBlock_ok g root db :
  flushes g root → ∃ db1, ToBlock g db = Ret (genesis_block g root, db1) ∧
    Ancient db1 = Ancient (default NewMemoryDatabase db) ∧ is_Some (state_New root db1).
Proof.
  intros Hf. destruct (Hf (default NewMemoryDatabase db)) as (db1 & Hfl & Ha & Hs). exists db1. unfold ToBlock. rewrite Hfl. done.
Qed.

(** What is in the database after the genesis block was genesis_stored. *)
Definition genesis_stored (g : Genesis) (root : bytes) (db : EthDB) : Prop :=
  let b := genesis_block g root in let h := block_hash rlpHash b in
  kv db !! entry_key (ECanonical 0) = Some h ∧ kv db !! entry_key EHeadHeader = Some h ∧
  kv db !! entry_key (ENumber h) = Some (encodeBlockNumber 0) ∧
  (∃ d, kv db !! entry_key (EHeader 0 h) = Some d ∧ d ≠ [] ∧ DecodeHeader d = Some (bHeader b)) ∧
  (∃ d, kv db !! entry_key (EBody 0 h) = Some d ∧ d ≠ [] ∧ DecodeBody d = Some []) ∧
  (∃ d c, kv db !! entry_key (EConfig h) = Some d ∧ d ≠ [] ∧ DecodeConfig d = Some c) ∧
  is_Some (state_New root db).

(** A write of another entry. *)
Ltac other := rewrite put_other; [|by simpl|by simpl|done].
Ltac lookup_put := repeat first [ rewrite lookup_insert_eq | other ].

Lemma Genesis_Commit_ok g root db :
  no_ancients db → gNumber g = 0 → is_Some (EncodeAlloc (gAlloc g)) → flushes g root →
  ∃ db', Genesis_Commit g db = Ret (inr (with_hash rlpHash (genesis_block g root)), db') ∧
    no_ancients db' ∧ genesis_stored g root db'.
Proof.
  intros Hna Hnum [blob Hblob] Hf. unfold Genesis_Commit. destruct (ToBlock_ok g root (Some db) Hf) as (db1 & -> & Ha1 & Hs1).
  cbv beta iota delta [mbind go_bind]. set (b := genesis_block g root). set (h := block_hash rlpHash b).
  assert (hNumber (bHeader b) = Some 0) as Hn by (simpl; by rewrite Hnum). rewrite Hn. cbn [deref].
  rewrite bool_decide_false by auto. rewrite (GetHash_ok rlpHash hash_some) by (by left). rewrite Hblob. fold h.
  unfold NumberU64. change (bHeader (with_hash rlpHash b)) with (bHeader b). rewrite Hn. cbn [deref mbind go_bind].
  change (u64 0) with 0. destruct (hDifficulty (bHeader b)) as [td|] eqn:Htd; [|done]. cbn [deref].
  unfold WriteTd. destruct (big_some td) as [tdata ->]. cbn [or_exit mbind go_bind].
  set (db2 := Put _ _ _).
  destruct (WriteBlock_ok EncodeHeader DecodeHeader EncodeBody DecodeBody rlpHash header_roundtrip body_roundtrip hash_some
    (with_hash rlpHash b) db2) as (db3 & hdata & bdata & -> & Ha3 & Hh1 & Hh2 & Hb1 & Hb2 & Hkv); [|done|].
  { right. change (rlpHash (bHeader b) = Some h). unfold h, block_hash. by destruct (hash_some (bHeader b)) as (x & -> & _). }
  assert (hash_ok h) as Hh by apply (block_hash_ok rlpHash hash_some).
  change (block_number (with_hash rlpHash b)) with (block_number b) in Hkv.
  change (block_hash rlpHash (with_hash rlpHash b)) with h in Hkv.
  assert (block_number b = 0) as Hbn by (unfold block_number; by rewrite Hn). rewrite Hbn in Hkv.
  assert (∃ c, match gConfig g with None => AllProtocolChanges | c => c end = Some c) as [c ->]
    by (destruct (gConfig g); unfold AllProtocolChanges; eauto).
  unfold WriteChainConfig. destruct (config_roundtrip c) as (cdata & -> & Hc1 & Hc2). cbn [or_exit mbind go_bind].
  eexists. split; [done|]. split; [intros table n; simpl; rewrite Ha3; unfold db2; simpl; rewrite Ha1; apply Hna|].
  assert (in_u64 0) by done. unfold genesis_stored. fold b h.
  unfold WriteHeadHeaderHash, WriteHeadFastBlockHash, WriteHeadBlockHash, WriteCanonicalHash, Put. cbn [kv Ancient].
  rewrite Hkv.
  change (configKey h) with (entry_key (EConfig h)). change headHeaderKey with (entry_key EHeadHeader).
  change headFastBlockKey with (entry_key EHeadFastBlock). change headBlockKey with (entry_key EHeadBlock).
  change (headerHashKey 0) with (entry_key (ECanonical 0)).
  split_and!.
  - by lookup_put.
  - by lookup_put.
  - by lookup_put.
  - exists hdata. split_and!; [by lookup_put|done..].
  - exists bdata. split_and!; [by lookup_put|done..].
  - exists cdata, c. split_and!; [by lookup_put|done..].
  - apply (state_local root db1); [|done]. intros e He. cbn [kv]. unfold db2, WriteGenesisState, Put. cbn [kv].
    change (headerTDKey 0 h) with (entry_key (ETD 0 h)). change (genesisKey h) with (entry_key (EGenesis h)).
    destruct e; try done; simpl in He; by repeat other.
Qed.

Lemma BytesToHash_ok h : hash_ok h → BytesToHash h = h.
Proof. apply BytesToHash_id. Qed.

Lemma ReadCanonicalHash_ok db n h :
  no_ancients db → hash_ok h → kv db !! entry_key (ECanonical n) = Some h → ReadCanonicalHash db n = h.
Proof.
  intros Ha Hh Hk. unfold ReadCanonicalHash, ancient. rewrite Ha. simpl.
  change (headerHashKey n) with (entry_key (ECanonical n)). rewrite (lookup_get _ _ _ Hk). by apply BytesToHash_ok.
Qed.

Lemma ReadHeader_ok db h n d hd :
  no_ancients db → kv db !! entry_key (EHeader n h) = Some d → d ≠ [] → DecodeHeader d = Some hd →
  ReadHeader DecodeHeader Keccak256 db h n = Ret (Some hd).
Proof.
  intros Ha Hd Hd0 Hd1. unfold ReadHeader, ReadHeaderRLP, ancient. rewrite Ha. cbn [default].
  rewrite (bool_decide_false (len [] > 0)) by (unfold len; simpl; lia). cbn [andb].
  change (headerKey n h) with (entry_key (EHeader n h)). rewrite (lookup_get _ _ _ Hd).
  rewrite bool_decide_false by (unfold len; destruct d; [done|simpl; lia]). by rewrite Hd1.
Qed.

(** A second start on the same database. *)
Lemma setup_again g root db :
  no_ancients db → is_Some (gConfig g) → flushes g root → genesis_stored g root db →
  ∃ db', SetupGenesisBlock db (Some g) = Ret (gConfig g, block_hash rlpHash (genesis_block g root), None, db').
Proof.
  intros Hna [cfg Hcfg] Hf. unfold genesis_stored. set (b := genesis_block g root). set (h := block_hash rlpHash b).
  destruct (block_hash_ok rlpHash hash_some b) as [Hh Hhz]. fold h in Hh, Hhz.
  intros (Hcan & Hhead & Hnumk & (hd & Hhd & Hhd0 & Hhd1) & _ & (cd & c & Hcd & Hcd0 & Hcd1) & [s Hs]).
  unfold SetupGenesisBlock. simpl from_option. rewrite bool_decide_false by (by rewrite Hcfg).
  rewrite (ReadCanonicalHash_ok db 0 h) by done. rewrite bool_decide_false by done.
  rewrite (ReadHeader_ok db h 0 hd (bHeader b)) by done. cbv beta iota delta [mbind go_bind deref].
  change (hRoot (bHeader b)) with root. rewrite Hs.
  destruct (ToBlock_ok g root None Hf) as (db1 & -> & _). fold b. cbv beta iota.
  rewrite (GetHash_ok rlpHash hash_some) by (by left). fold h. cbv beta iota. rewrite bool_decide_false by auto.
  unfold ReadChainConfig. change (configKey h) with (entry_key (EConfig h)). rewrite (lookup_get _ _ _ Hcd).
  rewrite bool_decide_false by (unfold len; destruct cd; [done|simpl; lia]). rewrite Hcd1.
  cbv beta iota delta [mbind go_bind or_exit].
  assert (ReadHeadHeaderHash db = h) as ->.
  { unfold ReadHeadHeaderHash. change headHeaderKey with (entry_key EHeadHeader). rewrite (lookup_get _ _ _ Hhead).
    unfold hash_ok in Hh. rewrite bool_decide_false by (unfold len; lia). by apply BytesToHash_ok. }
  unfold ReadHeaderNumber. change (headerNumberKey h) with (entry_key (ENumber h)). rewrite (lookup_get _ _ _ Hnumk).
  rewrite bool_decide_false by (unfold len; rewrite length_encodeBlockNumber; auto).
  unfold configOrDefault, WriteChainConfig. rewrite Hcfg.
  destruct (config_roundtrip cfg) as (cdata & -> & _). eexists. reflexivity.
Qed.

(** Genesis opens the chain: committing a genesis of number zero to a
    database without ancient data succeeds, and the chain opened on that
    database has exactly one block, the genesis_stored one, as its head: same
    header, no transactions.  Starting again from the same database with the
    same genesis is accepted and reports the same hash. *)
Theorem genesis_opens_chain g root db chainID :
  no_ancients db → gNumber g = 0 → is_Some (gConfig g) → is_Some (EncodeAlloc (gAlloc g)) → flushes g root →
  ∃ block db' bc, MustCommit g db = Ret (block, db') ∧ NewBlockChain db' chainID = Ret (inr bc) ∧
    blocks bc = [reread block] ∧ currentBlock bc = Some (reread block) ∧
    bHeader (reread block) = bHeader block ∧ Transactions block = [] ∧ hRoot (bHeader block) = root ∧
    ∃ db'', SetupGenesisBlock db' (Some g) = Ret (gConfig g, block_hash rlpHash block, None, db'').
Proof.
  intros Hna Hnum Hcfg Halloc Hf. destruct (Genesis_Commit_ok g root db Hna Hnum Halloc Hf) as (db' & Hc & Hna' & Hcom).
  set (b := genesis_block g root) in *. set (h := block_hash rlpHash b) in *.
  destruct (block_hash_ok rlpHash hash_some b) as [Hh Hhz]. fold h in Hh, Hhz.
  pose proof Hcom as Hcom'. unfold genesis_stored in Hcom'. fold b h in Hcom'. destruct Hcom' as (Hcan & Hhead & Hnumk & (hd & Hhd & Hhd0 & Hhd1) & (bd & Hbd & Hbd0 & Hbd1) & (cd & c & Hcd & Hcd0 & Hcd1) & Hst).
  assert (block_number b = 0) as Hbn by (unfold block_number, b; simpl; by rewrite Hnum).
  assert (ReadCanonicalHash db' 0 = h) as Hrch by (by apply ReadCanonicalHash_ok).
  assert (ReadBlock DecodeHeader DecodeBody Keccak256 db' h 0 = Ret (Some (reread b))) as Hrb.
  { rewrite <-Hbn. apply (ReadBlock_ok DecodeHeader DecodeBody Keccak256 rlpHash db' b hd bd); try done; by rewrite Hbn. }
  exists (with_hash rlpHash b), db'. eexists. split_and!.
  - unfold MustCommit. by rewrite Hc.
  - unfold NewBlockChain, GetBlockByNumber. cbn [bcDb]. rewrite Hrch, bool_decide_false by done. unfold GetBlock.
    change (cache_get _ _) with (@None Block). cbn [bcDb]. rewrite Hrb. cbv beta iota delta [mbind go_bind].
    destruct Hst as [s Hs]. change (hRoot (bHeader (reread b))) with root. by rewrite Hs.
  - done.
  - done.
  - done.
  - done.
  - done.
  - by apply (setup_again g root).
Qed.

(** Blocks are never found in the cache: they are added under a pointer and
    looked up by their hash. *)
Lemma cache_never_hits ptr hash number bc r bc' :
  (∀ h, cache_get (KHash h) (blockCache bc) = None) → GetBlock ptr hash number bc = Ret (r, bc') →
  ReadBlock DecodeHeader DecodeBody Keccak256 (bcDb bc) hash number = Ret r ∧
  ∀ h, cache_get (KHash h) (blockCache bc') = None.
Proof.
  assert (∀ c, (∀ h, cache_get (KHash h) c = None) ↔ Forall (λ kv, ∀ h, kv.1 ≠ KHash h) c) as Hc.
  { intros c. unfold cache_get. setoid_rewrite fmap_None. setoid_rewrite list_find_None.
    split; [|intros HF h; eapply Forall_impl; [exact HF|naive_solver]].
    intros Hh. apply Forall_forall. intros kv Hkv h. eapply Forall_forall in Hkv; [|apply (Hh h)]. done. }
  rewrite !Hc. intros HF. unfold GetBlock. rewrite (proj2 (Hc _) HF).
  intros HG. go_inv. destruct x as [b|]; go_inv; split; try done.
  constructor; [done|]. by apply Forall_take.
Qed.
End genesis.
Arguments BlockChain : clear implicits.

(** ** Witness: a toy codec and a state that is one trie node *)
Module DemoGenesis.
#[global] Instance Transaction_countable : Countable Transaction.
Proof.
  refine (inj_countable'
    (λ t, (TXtype t, ID t, Sender t, Recipient t, SenderNonce t, (Value t, Timestamp t, ConfirmTimestamp t, ConfirmHeight t,
       Cross1ConfirmHeight t, (Sender_sid t, Recipient_sid t, TXStatus t, Cid t, RollbackHeight t))))
    (λ '(a, b, c, d, e, (f, g, h, i, j, (k, l, m, n, o))), mkTransaction a b c d e f g h i j k l m n o) _).
  by intros [].
Defined.
#[global] Instance Header_countable : Countable Header.
Proof.
  refine (inj_countable'
    (λ h, (ParentHash h, Coinbase h, hRoot h, hTxHash h, hDifficulty h, (hNumber h, hTime h, MixDigest h, hNonce h, hShardID h)))
    (λ '(a, b, c, d, e, (f, g, h, i, j)), mkHeader a b c d e f g h i j) _).
  by intros [].
Defined.
Definition put_toy {A} `{Countable A} (a : A) : option bytes := Some [Zpos (encode a)].
Definition get_toy {A} `{Countable A} (b : bytes) : option A := match b with [Zpos p] => decode p | _ => None end.
Lemma roundtrip {A} `{Countable A} (a : A) : ∃ data, put_toy a = Some data ∧ data ≠ [] ∧ get_toy data = Some a.
Proof. eexists. split_and!; [done|done|]. simpl. apply decode_encode. Qed.

Definition db_ops : StateDB unit :=
  {| GetNonce _ _ := 0; GetBalance _ _ := 0; SetNonce s _ _ := s; AddBalance s _ _ := s; SubBalance s _ _ := s |}.
Definition root : bytes := replicate 32 5.
Definition store : StateStore unit :=
  {| state_New r db := if decide (r = zero_hash) then Some tt
                       else if decide (length r = 32%nat) then (λ _, tt) <$> kv db !! r else None;
     SetCode s _ _ := s; SetState s _ _ _ := s;
     state_Commit s := Some (root, s); TrieDB_Commit _ r db := Some (Put r [1] db) |}.
Definition hasher : TrieHasher :=
  {| hasher_state := unit; hasher_empty := tt; hasher_update s _ _ := s; hasher_hash _ := replicate 32 9 |}.
Definition empty_db : EthDB := mkEthDB ∅ (λ _ _, None).
Definition hash_of (_ : Header) : option bytes := Some (replicate 32 7).

Lemma store_local r db db' :
  (∀ e, is_state e → kv db' !! entry_key e = kv db !! entry_key e) →
  is_Some (state_New (StateStore := store) r db) → is_Some (state_New (StateStore := store) r db').
Proof.
  intros He. simpl. case_decide; [done|]. case_decide as Hl; [|done].
  pose proof (He (ETrieNode r) Hl) as E. simpl in E. by rewrite E.
Qed.
End DemoGenesis.

Lemma genesis_opens_chain_witness :
  ∃ block db' bc,
    MustCommit (H := DemoGenesis.db_ops) (H0 := DemoGenesis.store) (MI := canonical_iter) (TH := DemoGenesis.hasher)
      DemoGenesis.put_toy DemoGenesis.put_toy DemoGenesis.put_toy DemoGenesis.put_toy DemoGenesis.hash_of (λ _, Some []) (λ i, [i])
      (λ _, []) [3] DemoGenesis.empty_db DefaultGenesisBlock DemoGenesis.empty_db = Ret (block, db') ∧
    NewBlockChain (H0 := DemoGenesis.store) DemoGenesis.get_toy DemoGenesis.get_toy id db' (Some 1) = Ret (inr bc) ∧
    blocks bc = [reread block].
Proof.
  destruct (genesis_opens_chain (H := DemoGenesis.db_ops) (H0 := DemoGenesis.store) (MI := canonical_iter)
    (TH := DemoGenesis.hasher) DemoGenesis.put_toy DemoGenesis.get_toy DemoGenesis.put_toy DemoGenesis.get_toy DemoGenesis.put_toy
    DemoGenesis.put_toy DemoGenesis.get_toy id DemoGenesis.hash_of (λ _, Some []) (λ i, [i]) (λ _, []) [3] DemoGenesis.empty_db)
    with (g := DefaultGenesisBlock) (root := DemoGenesis.root) (db := DemoGenesis.empty_db) (chainID := Some 1)
    as (block & db' & bc & H1 & H2 & H3 & _).
  - intros h. apply DemoGenesis.roundtrip.
  - apply DemoGenesis.roundtrip.
  - apply DemoGenesis.roundtrip.
  - intros h. by exists (replicate 32 7).
  - intros z. by eexists.
  - apply DemoGenesis.store_local.
  - done.
  - done.
  - by eexists.
  - by eexists.
  - intros db. exists (Put DemoGenesis.root [1] db). split_and!; [reflexivity|reflexivity|].
    change (is_Some ((λ _, tt) <$> (<[DemoGenesis.root := [1]]> (kv db) !! DemoGenesis.root))).
    rewrite lookup_insert_eq. by eexists.
  - exists block, db', bc. split_and!; assumption.
Defined.
