(* ===== verification/Committee.v ===== *)
(** * A committee (src/committee/committee.go; the receipts of
    src/committee/worker.go: [sendTXReceipt2Client]).

    The state of a node in its role of committee member.  Pools are reached
    through pointers, and during a reconfiguration the old pool and the
    current one are the same pool for a while: [pools] is the memory they
    live in.  The multi-signature round is in MultiSign, the consensus round
    in Pbft, the check of a shard's response in MerkleProof. *)
From S2P Require Import Prelude Core Utils TxPool Reconfig.
Local Open Scope Z_scope.

(** [int32] *)
Definition i32 (z : Z) : Z := (z + 2^31) `mod` 2^32 - 2^31.

Record Committee := mkCommittee {
  cInfo : NodeInfo;
  Height2Reconfig : Z;
  txPool : option Z;
  oldTxPool : option Z;
  pools : gmap Z TxPool;
  has_worker : bool;
  injectNotDone : Z;
  tbchain_height : Z;
  to_reconfig : bool;
  reconfig_seed_height : Z
}.

(** Assignments. *)
Definition set_pools (cur old : option Z) (m : gmap Z TxPool) (c : Committee) : Committee :=
  mkCommittee (cInfo c) (Height2Reconfig c) cur old m (has_worker c) (injectNotDone c) (tbchain_height c)
    (to_reconfig c) (reconfig_seed_height c).
Definition set_flags (w : bool) (i : Z) (r : bool) (c : Committee) : Committee :=
  mkCommittee (cInfo c) (Height2Reconfig c) (txPool c) (oldTxPool c) (pools c) w i (tbchain_height c)
    r (reconfig_seed_height c).
Definition set_heights (h : Z) (r : bool) (s : Z) (c : Committee) : Committee :=
  mkCommittee (cInfo c) (Height2Reconfig c) (txPool c) (oldTxPool c) (pools c) (has_worker c) (injectNotDone c) h r s.

Definition NewCommittee (clientCnt : Z) (info : NodeInfo) (height2Reconfig : Z) : Committee :=
  mkCommittee info height2Reconfig None None ∅ false (i32 clientCnt) 0 false 0.

(** An address no pool lives at. *)
Definition new_ptr (c : Committee) : Z := fresh (dom (pools c) : gset Z).

Definition Start (nodeId : Z) (c : Committee) : Committee :=
  let p := new_ptr c in
  let c := set_pools (Some p) (oldTxPool c) (<[p := NewTxPool]> (pools c)) c in
  set_flags (if IsComLeader nodeId then true else has_worker c) (injectNotDone c) false c.

Definition SetInjectTXDone (c : Committee) : Committee :=
  set_flags (has_worker c) (i32 (injectNotDone c - 1)) (to_reconfig c) c.
Definition CanStopV2 (c : Committee) : bool := bool_decide (injectNotDone c = 0).
Definition pool_at (p : option Z) (c : Committee) : go TxPool :=
  a ← deref p; deref (pools c !! a).
Definition CanStopV1 (c : Committee) : go bool :=
  if CanStopV2 c then p ← pool_at (txPool c) c; Ret (Empty p) else Ret false.

(** [AddTBs] *)
Definition AddTBs (height : Z) (c : Committee) : go Committee :=
  if bool_decide (height <= tbchain_height c) then Ret c
  else
    let c := set_heights height (to_reconfig c) (reconfig_seed_height c) c in
    if bool_decide (tbchain_height c > 0) then
      r ← go_rem (tbchain_height c) (u64 (Height2Reconfig c));
      if bool_decide (r = 0)
      then Ret (set_heights (tbchain_height c) true (tbchain_height c) c)
      else Ret c
    else Ret c.
Definition UpdateTbChainHeight (height : Z) (c : Committee) : Committee :=
  if bool_decide (height > tbchain_height c)
  then set_heights height (to_reconfig c) (reconfig_seed_height c) c else c.

(** [NewBlockGenerated]; [hash_at] answers [GetEthChainBlockHash].  The
    message for [Node.InitReconfig] is the result. *)
Definition NewBlockGenerated (hash_at : Z → bytes * Z) (c : Committee) : go (Committee * option InitReconfig) :=
  if to_reconfig c then
    if has_worker c then
      let '(seed, height) := hash_at (reconfig_seed_height c) in
      Ret (set_flags (has_worker c) (injectNotDone c) false c,
           Some (mkInitReconfig seed height (nComID (cInfo c)) 0))
    else Halt (GoPanic "nil pointer dereference")
  else Ret (c, None).

(** Pools. *)
Definition HandleClientSendtx (txs : list Transaction) (c : Committee) : go Committee :=
  match txPool c with
  | None => Ret c
  | Some a => p ← deref (pools c !! a);
              Ret (set_pools (txPool c) (oldTxPool c) (<[a := AddTxs p txs]> (pools c)) c)
  end.

(** [core.PoolTx] *)
Record PoolTx := mkPoolTx { ptPending : list Transaction; ptPendingRollback : list Transaction }.

Definition SetPoolTx (poolTx : PoolTx) (c : Committee) : go Committee :=
  let c := match txPool c with
           | Some _ => c
           | None => let p := new_ptr c in set_pools (Some p) (oldTxPool c) (<[p := NewTxPool]> (pools c)) c
           end in
  a ← deref (txPool c);
  p ← deref (pools c !! a);
  let p := SetPendingRollback (ptPendingRollback poolTx) (SetPending (ptPending poolTx) p) in
  Ret (set_pools (txPool c) (oldTxPool c) (<[a := p]> (pools c)) c).
Definition HandleGetPoolTx (c : Committee) : go PoolTx :=
  p ← pool_at (oldTxPool c) c; Ret (mkPoolTx (pending p) (pendingRollback p)).
Definition SetOldTxPool (c : Committee) : Committee :=
  match txPool c with
  | None => c
  | Some a => set_pools (txPool c) (Some a) (pools c) c
  end.

(** ** Receipts *)

(** The table of [sendTXReceipt2Client]. *)
Definition receipt_of (comID curHeight : Z) (tx : Transaction) : TXReceipt :=
  mkTXReceipt (ID tx) (ConfirmTimestamp tx) (TXStatus tx) comID (u64 curHeight) [].
Definition receipt_step (comID curHeight : Z) (table : gmap Z TXReceipt) (tx : Transaction) : go (gmap Z TXReceipt) :=
  if bool_decide (TXStatus tx = DefaultStatus) then Halt (LogError "record tx status miss!")
  else Ret (<[ID tx := receipt_of comID curHeight tx]> table).

(** [send2Client]: the receipts for each client, in the order of the
    block. *)
Definition client_step (receipts : gmap Z TXReceipt) (m : gmap Z (list TXReceipt)) (tx : Transaction) :
    gmap Z (list TXReceipt) :=
  let old := default [] (m !! Cid tx) in
  <[Cid tx := match receipts !! ID tx with Some r => old ++ [r] | None => old end]> m.
Definition send2Client `{MapIter} (receipts : gmap Z TXReceipt) (txs : list Transaction) :
    list (Z * list TXReceipt) :=
  (λ kv, (u32 kv.1, kv.2)) <$> map_iter (foldl (client_step receipts) ∅ txs).

Definition sendTXReceipt2Client `{MapIter} (comID curHeight : Z) (txs : list Transaction) :
    go (list (Z * list TXReceipt)) :=
  table ← go_fold (receipt_step comID curHeight) ∅ txs;
  Ret (send2Client table txs).

(** ** Pools across a reconfiguration *)

(** Both pointers lead to pools. *)
Definition wf_committee (c : Committee) : Prop :=
  (∀ a, txPool c = Some a → is_Some (pools c !! a)) ∧ (∀ a, oldTxPool c = Some a → is_Some (pools c !! a)).

Lemma new_ptr_fresh c : pools c !! new_ptr c = None.
Proof. apply (not_elem_of_dom (D := gset Z)). unfold new_ptr. exact (is_fresh (dom (pools c) : gset Z)). Qed.

Lemma wf_Start n c : wf_committee c → wf_committee (Start n c).
Proof.
  intros [H1 H2]. split; simpl; intros a; rewrite lookup_insert_is_Some'; [intros [= <-]; by left|]. auto.
Qed.

(** Clients keep sending while a committee is reconfigured. *)
Definition arrivals (txss : list (list Transaction)) (c : Committee) : go Committee :=
  go_fold (λ c txs, HandleClientSendtx txs c) c txss.

Lemma arrivals_spec txss : ∀ c a p,
  txPool c = Some a → pools c !! a = Some p →
  arrivals txss c = Ret (set_pools (Some a) (oldTxPool c) (<[a := AddTxs p (concat txss)]> (pools c)) c).
Proof.
  induction txss as [|txs txss IH]; intros c a p Ha Hp; unfold arrivals; cbn [go_fold concat].
  - unfold AddTxs. simpl. rewrite insert_id by done. destruct c; simpl in *; by subst.
  - unfold HandleClientSendtx at 2. rewrite Ha, Hp. simpl mbind.
    unfold arrivals in IH. rewrite (IH _ a (AddTxs p txs)); [|by rewrite <-Ha|apply lookup_insert_eq].
    simpl. rewrite insert_insert_eq. unfold AddTxs. by rewrite <-foldl_app.
Qed.

(** The calls a node makes on its committee object from the start of a
    reconfiguration to the new pool: [InitReconfig] saves the pool, clients
    send [before], [EndReconfig] saves the pool again and starts a new one. *)
Definition hand_over (before : list (list Transaction)) (nodeId : Z) (c : Committee) : go Committee :=
  c ← arrivals before (SetOldTxPool c);
  Ret (Start nodeId (SetOldTxPool c)).

Lemma hand_over_spec before nodeId c a p :
  txPool c = Some a → pools c !! a = Some p →
  ∃ c' b, hand_over before nodeId c = Ret c' ∧ oldTxPool c' = Some a ∧ txPool c' = Some b ∧ b ≠ a ∧
    pools c' !! a = Some (AddTxs p (concat before)) ∧ pools c' !! b = Some NewTxPool.
Proof.
  intros Ha Hp. unfold hand_over, SetOldTxPool at 2. rewrite Ha.
  rewrite (arrivals_spec before _ a p) by done. simpl mbind. unfold SetOldTxPool. simpl txPool. cbv iota beta.
  set (c1 := set_pools _ _ _ _). exists (Start nodeId c1), (new_ptr c1). pose proof (new_ptr_fresh c1) as Hf.
  assert (pools c1 !! a = Some (AddTxs p (concat before))) as Hc1 by apply lookup_insert_eq.
  assert (new_ptr c1 ≠ a) as Hne by congruence. split_and!; try done; simpl.
  - by rewrite lookup_insert_ne.
  - apply lookup_insert_eq.
Qed.

(** No transaction is lost when a committee changes leaders: the pool the
    old leader hands out after a reconfiguration holds everything it held at
    the start followed by everything clients sent meanwhile, although it
    already fills a new pool; and at the new leader, which may have received
    transactions in its new pool too, the handed-over ones come first in both
    queues and all the others follow in order. *)
Theorem pool_handover before after nodeId nodeId' old new a b p q :
  txPool old = Some a → pools old !! a = Some p → txPool new = Some b → pools new !! b = Some q →
  ∃ old' new1 new2 poolTx r,
    hand_over before nodeId old = Ret old' ∧
    HandleGetPoolTx old' = Ret poolTx ∧
    poolTx = mkPoolTx (pending (AddTxs p (concat before))) (pendingRollback (AddTxs p (concat before))) ∧
    hand_over before nodeId' new = Ret new1 ∧
    (c ← arrivals after new1; SetPoolTx poolTx c) = Ret new2 ∧
    pool_at (txPool new2) new2 = Ret r ∧
    pending r = ptPending poolTx ++ pending (AddTxs NewTxPool (concat after)) ∧
    pendingRollback r = ptPendingRollback poolTx ++ pendingRollback (AddTxs NewTxPool (concat after)).
Proof.
  intros Ha Hp Hb Hq.
  destruct (hand_over_spec before nodeId old a p Ha Hp) as (old' & b0 & Hold & Ho & _ & _ & Hpa & _).
  destruct (hand_over_spec before nodeId' new b q Hb Hq) as (new1 & b1 & Hnew & _ & Ht & _ & _ & Hpb).
  assert (HandleGetPoolTx old' = Ret (mkPoolTx (pending (AddTxs p (concat before))) (pendingRollback (AddTxs p (concat before))))) as Hg.
  { unfold HandleGetPoolTx, pool_at. rewrite Ho. simpl. by rewrite Hpa. }
  exists old', new1. eexists _, _, _. split_and!; [done|exact Hg|done|done| | | |].
  - rewrite (arrivals_spec after new1 b1 NewTxPool) by done. unfold SetPoolTx. simpl.
    rewrite lookup_insert_eq. simpl. done.
  - unfold pool_at. simpl. by rewrite lookup_insert_eq.
  - done.
  - done.
Qed.

(** ** Receipts reach their clients *)
Lemma receipt_table comID h txs : ∀ table,
  Forall (λ tx, TXStatus tx ≠ DefaultStatus) txs → NoDup (ID <$> txs) →
  ∃ table', go_fold (receipt_step comID h) table txs = Ret table' ∧
    (∀ tx, tx ∈ txs → table' !! ID tx = Some (receipt_of comID h tx)) ∧
    (∀ i, i ∉ ID <$> txs → table' !! i = table !! i).
Proof.
  induction txs as [|tx txs IH]; intros table HF Hnd; cbn [go_fold].
  { exists table. split_and!; [done| |done]. by intros tx ?%elem_of_nil. }
  apply Forall_cons in HF as [Hs HF]. apply NoDup_cons in Hnd as [Hni Hnd].
  unfold receipt_step at 2. rewrite bool_decide_false by done. simpl mbind.
  destruct (IH (<[ID tx := receipt_of comID h tx]> table)) as (t' & -> & Hin & Hout); [done..|].
  exists t'. split_and!; [done| |].
  - intros tx' [->|?]%elem_of_cons; [|auto]. rewrite Hout by done. apply lookup_insert_eq.
  - intros i [Hne Hni']%not_elem_of_cons. rewrite Hout by done. by rewrite lookup_insert_ne.
Qed.

Lemma client_steps table txs : ∀ m c,
  (∀ tx, tx ∈ txs → is_Some (table !! ID tx)) →
  foldl (client_step table) m txs !! c =
    if decide (filter (λ tx, Cid tx = c) txs = []) then m !! c
    else Some (default [] (m !! c) ++ omap (λ tx, table !! ID tx) (filter (λ tx, Cid tx = c) txs)).
Proof.
  induction txs as [|tx txs IH]; intros m c Hr; cbn [foldl]; [done|].
  rewrite IH by (intros; apply Hr; by right). destruct (Hr tx) as [r Hrt]; [by left|].
  unfold client_step. rewrite Hrt, filter_cons. destruct (decide (Cid tx = c)) as [<-|Hne].
  - rewrite lookup_insert_eq. cbn [omap list_omap default]. rewrite Hrt.
    rewrite (decide_False (P := _ :: _ = [])) by done. case_decide as E.
    + by rewrite E.
    + simpl. by rewrite <-app_assoc.
  - by rewrite lookup_insert_ne.
Qed.

Lemma omap_total {A B} (f : A → option B) (g : A → B) (l : list A) :
  (∀ x, x ∈ l → f x = Some (g x)) → omap f l = g <$> l.
Proof.
  induction l as [|x l IH]; intros Hf; [done|]. simpl. rewrite Hf by by left.
  f_equal. apply IH. intros y Hy. apply Hf. by right.
Qed.

(** Every client gets exactly its receipts: when a block has been
    executed, each client with a transaction in it is sent one message, with
    the receipts of its transactions in the order of the block. *)
Theorem receipts_reach_clients `{MapIter} comID h txs :
  Forall (λ tx, TXStatus tx ≠ DefaultStatus) txs → NoDup (ID <$> txs) →
  Forall (λ tx, in_u32 (Cid tx)) txs →
  ∃ msgs, sendTXReceipt2Client comID h txs = Ret msgs ∧ NoDup msgs.*1 ∧
    ∀ c rs, (c, rs) ∈ msgs ↔
      (∃ tx, tx ∈ txs ∧ Cid tx = c) ∧ rs = receipt_of comID h <$> filter (λ tx, Cid tx = c) txs.
Proof.
  intros HF Hnd Hcid. unfold sendTXReceipt2Client.
  destruct (receipt_table comID h txs ∅ HF Hnd) as (table & -> & Hin & _). simpl mbind.
  eexists. split; [done|]. unfold send2Client. set (m := foldl _ _ _).
  assert (∀ c, m !! c = if decide (filter (λ tx, Cid tx = c) txs = []) then None
    else Some (receipt_of comID h <$> filter (λ tx, Cid tx = c) txs)) as Hm.
  { intros c. unfold m. rewrite client_steps by (intros tx Htx; rewrite Hin by done; eauto).
    case_decide; [done|]. f_equal. rewrite lookup_empty. simpl. apply omap_total.
    intros tx [_ Htx]%list_elem_of_filter. by apply Hin. }
  assert (∀ c, is_Some (m !! c) → u32 c = c) as Hc.
  { intros c. rewrite Hm. case_decide as E; [by intros [? ?]|]. intros _.
    destruct (filter _ txs) as [|tx l] eqn:El; [done|].
    assert (tx ∈ filter (λ tx, Cid tx = c) txs) as [<- Htx]%list_elem_of_filter by (rewrite El; by left).
    rewrite Forall_forall in Hcid. by apply u32_small, Hcid. }
  split.
  - rewrite <-list_fmap_compose.
    assert ((λ kv : Z * list TXReceipt, u32 kv.1) <$> map_iter m = (map_iter m).*1) as Heq.
    { apply list_fmap_ext. intros i [c rs] Hi%list_elem_of_lookup_2%elem_of_map_iter. simpl. apply Hc. eauto. }
    unfold compose; simpl. rewrite Heq. apply NoDup_fst_map_iter.
  - intros c rs. rewrite list_elem_of_fmap. split.
    + intros ([c' rs'] & [= -> ->] & Hin'%elem_of_map_iter). rewrite Hc by eauto.
      rewrite Hm in Hin'. case_decide as E; [done|]. simplify_eq. split; [|done].
      destruct (filter _ txs) as [|tx l] eqn:El; [done|].
      assert (tx ∈ filter (λ tx, Cid tx = c') txs) as [? ?]%list_elem_of_filter by (rewrite El; by left). eauto.
    + intros [(tx & Htx & Hcx) ->].
      assert (m !! c = Some (receipt_of comID h <$> filter (λ tx, Cid tx = c) txs)) as Hmc.
      { rewrite Hm, decide_False; [done|]. intros E.
        assert (tx ∈ filter (λ tx, Cid tx = c) txs) as Hf by (by apply list_elem_of_filter).
        rewrite E in Hf. by apply elem_of_nil in Hf. }
      exists (c, receipt_of comID h <$> filter (λ tx, Cid tx = c) txs). simpl. split; [|by apply elem_of_map_iter].
      f_equal. symmetry. apply Hc. eauto.
Qed.

(** ** Witnesses *)
Definition demo_committee (p : TxPool) : Committee :=
  mkCommittee (mkNodeInfo 0 0 0 "a") 5 (Some 1) None {[ 1 := p ]} true 0 3 false 0.
Definition demo_pool1 : TxPool := mkTxPool [demo_tx 1 1 [1] [2] 0 0] [demo_tx 4 2 [1] [2] 0 0].

Lemma pool_handover_witness :
  ∃ old' new1 new2 poolTx r,
    hand_over [[demo_tx 2 3 [1] [2] 0 0]] 1 (demo_committee demo_pool1) = Ret old' ∧
    HandleGetPoolTx old' = Ret poolTx ∧
    hand_over [[demo_tx 2 3 [1] [2] 0 0]] 0 (demo_committee NewTxPool) = Ret new1 ∧
    (c ← arrivals [[demo_tx 1 4 [5] [6] 0 0]] new1; SetPoolTx poolTx c) = Ret new2 ∧
    pool_at (txPool new2) new2 = Ret r ∧
    ID <$> pending r = [1; 3; 4] ∧ ID <$> pendingRollback r = [2].
Proof.
  destruct (pool_handover [[demo_tx 2 3 [1] [2] 0 0]] [[demo_tx 1 4 [5] [6] 0 0]] 1 0
    (demo_committee demo_pool1) (demo_committee NewTxPool) 1 1 demo_pool1 NewTxPool)
    as (old' & new1 & new2 & poolTx & r & H1 & H2 & H3 & H4 & H5 & H6 & H7 & H8);
    [reflexivity..|].
  exists old', new1, new2, poolTx, r. rewrite H7, H8, H3. repeat split; try assumption; by rewrite <-H3.
Defined.

Definition demo_done (id cid : Z) : Transaction :=
  set_Broadcast 0 cid (set_TXStatus IntraSuccess (demo_tx 1 id [1] [2] 0 0)).

Lemma receipts_reach_clients_witness :
  ∃ msgs, sendTXReceipt2Client (H := canonical_iter) 0 7 [demo_done 1 0; demo_done 2 1; demo_done 3 0] = Ret msgs ∧
    NoDup msgs.*1 ∧
    ∀ c rs, (c, rs) ∈ msgs ↔
      (∃ tx, tx ∈ [demo_done 1 0; demo_done 2 1; demo_done 3 0] ∧ Cid tx = c) ∧
      rs = receipt_of 0 7 <$> filter (λ tx, Cid tx = c) [demo_done 1 0; demo_done 2 1; demo_done 3 0].
Proof.
  apply (receipts_reach_clients (H := canonical_iter) 0 7 [demo_done 1 0; demo_done 2 1; demo_done 3 0]).
  - by_compute.
  - by_compute.
  - repeat constructor; unfold in_u32; simpl; lia.
Defined.
