(* ===== verification/Worker.v ===== *)
(** * Production of a block (src/committee/worker.go: [commit], [Finalize],
    [broadcastTbInCommittee]).

    The worker of a committee's leader takes a block from the pool, fetches
    and checks the accounts it touches, executes it, and computes the new
    state root from the proofs; the block then goes through the consensus of
    Pbft, to the shard, and its receipts to the clients.  The answer of the
    shard is a function of the accounts asked for. *)
From S2P Require Import Prelude Core TxPool Exec Encoding Node Rebuild Trie MerkleProof StateRoot Block Committee.
Local Open Scope Z_scope.

(** The accounts [updatedStates] points to. *)
Definition resolve (st : wstate) : gmap bytes StateAccount :=
  omap (λ a, addr2State st !! a) (updatedStates st).

Section worker.
Context `{RL : RLP} `{MI : MapIter} `{TH : TrieHasher}.
Variable GetHash : bytes → bytes.
Variable EncodeToBytes : StateAccount → option bytes.
Variable DecodeBytes : bytes → option StateAccount.
Variable AppendUint64 : Z → bytes.
Variable EncodeIndex : Transaction → bytes.
Variable EmptyRootHash : bytes.

Definition Finalize (header : Header) (txs : list Transaction) (hash2Node : gmap bytes Node)
    (trieRoot : bytes) (updatedStates : gmap bytes StateAccount) : go Block :=
  '(newTrieRoot, _) ← rebuildTrie GetHash EncodeToBytes 65 trieRoot hash2Node updatedStates;
  NewBlock AppendUint64 EncodeIndex EmptyRootHash (set_hRoot newTrieRoot header) txs.

(** The header the worker fills in, all other fields at their zero value. *)
Definition new_header (comID curHeight timestamp : Z) : Header :=
  mkHeader zero_hash (replicate 20 0) zero_hash zero_hash (Some (11 ^ 11)) (Some curHeight)
    (u64 timestamp) zero_hash (replicate 8 0) comID.

(** [commit], with the wait for the consensus round left to Pbft: the block,
    the pool it leaves and the messages to clients. *)
Definition commit (query : list bytes → ShardSendState) (MaxBlockSize comID parentHeight timestamp : Z)
    (pool : TxPool) : go (Block * TxPool * list (Z * list TXReceipt)) :=
  '(txs, addrs, pool) ← Pending MaxBlockSize parentHeight pool;
  states ← getStatusFromShard GetHash 65 (query addrs);
  '(addr2State, hash2Node) ← analyseStates GetHash DecodeBytes states;
  '(st, txs) ← executeTransactions GetHash txs (mkWstate addr2State ∅);
  let curHeight := parentHeight + 1 in
  block ← Finalize (new_header comID curHeight timestamp) txs hash2Node (StatusTrieHash states) (resolve st);
  msgs ← sendTXReceipt2Client comID curHeight txs;
  Ret (block, pool, msgs).

(** ** The updated accounts of a block *)
Lemma executeTransaction_updates st tx st' tx' :
  executeTransaction GetHash st tx = Ret (st', tx') →
  (∀ h a, updatedStates st' !! h = Some a → updatedStates st !! h = Some a ∨ (h = GetHash a ∧ touches tx a)) ∧
  (∀ a, touches tx a → is_Some (updatedStates st' !! GetHash a)) ∧
  (∀ h, is_Some (updatedStates st !! h) → is_Some (updatedStates st' !! h)).
Proof.
  unfold executeTransaction, touches, IntraTXType, CrossTXType1, CrossTXType2, RollbackTXType. intros He.
  repeat split_guard; go_inv; simpl; (split_and!; [intros h a|intros a|intros h]);
    rewrite ?lookup_insert_is_Some', ?lookup_insert_Some; try (destruct_or?; naive_solver congruence); naive_solver.
Qed.

Lemma executeTransactions_updates txs : ∀ st st' k,
  executeTransactions GetHash txs st = Ret (st', k) →
  (∀ h a, updatedStates st' !! h = Some a → updatedStates st !! h = Some a ∨ (h = GetHash a ∧ ∃ tx, tx ∈ txs ∧ touches tx a)) ∧
  (∀ tx a, tx ∈ txs → touches tx a → is_Some (updatedStates st' !! GetHash a)) ∧
  (∀ h, is_Some (updatedStates st !! h) → is_Some (updatedStates st' !! h)).
Proof.
  induction txs as [|tx txs IH]; intros st st' k He; simpl in He; go_inv.
  { split_and!; [by left| |done]. by intros ? ? ?%elem_of_nil. }
  destruct x as [st1 tx1]; go_inv. destruct x as [st2 txs2]; go_inv.
  destruct (executeTransaction_updates st tx st1 tx1) as (A1 & B1 & C1); [done|].
  destruct (IH st1 st' txs2) as (A2 & B2 & C2); [done|]. split_and!.
  - intros h a [Hh|(Hh & t & Ht & Hta)]%A2; [|right; split; [done|]; exists t; split; [by right|done]].
    apply A1 in Hh as [?|[? ?]]; [by left|right]. split; [done|]. exists tx. split; [by left|done].
  - intros t a [->|Ht]%elem_of_cons Hta; [by apply C2, B1|by eapply B2].
  - auto.
Qed.

(** ** The block is right *)
Context `{!RLPLaws}.
Hypothesis digest : ∀ b, Forall in_u8 (GetHash b) ∧ length (GetHash b) = 32%nat.
(** Only a negative balance cannot be encoded. *)
Hypothesis encodable : ∀ a, 0 ≤ Balance a → is_Some (EncodeToBytes a).
Abbreviation key a := (keybytesToHex (GetHash a)).

Lemma Pending_related m h p txs addrs p' : Pending m h p = Ret (txs, addrs, p') → getTxRelatedAddrs txs = Ret addrs.
Proof.
  unfold Pending. destruct (rollback_loop _ _ _ _) as [[i l] r], (pending_loop _ _ _ _ _) as [l' r']. intros HP. by go_inv.
Qed.

Lemma success_not_default tx : TXStatus (set_TXStatus (success_status tx) tx) ≠ DefaultStatus.
Proof. unfold success_status, set_TXStatus; simpl. by repeat case_decide. Qed.

Lemma receipts_returned comID h txs :
  ∃ msgs, sendTXReceipt2Client comID h ((λ tx, set_TXStatus (success_status tx) tx) <$> txs) = Ret msgs.
Proof.
  unfold sendTXReceipt2Client.
  destruct (go_fold_returns (receipt_step comID h) (λ _, True) ∅ ((λ tx, set_TXStatus (success_status tx) tx) <$> txs))
    as (t & -> & _); [done| |simpl; eauto].
  intros m tx (tx' & -> & _)%list_elem_of_fmap _. unfold receipt_step.
  rewrite bool_decide_false by apply success_not_default. eauto.
Qed.

(** The shard answers with the accounts asked for, all of which it has. *)
Definition answers (n : Node) (query : list bytes → ShardSendState) (addrs : list bytes) : Prop :=
  honest_response GetHash n (query addrs) ∧
  (∀ a, is_Some (AccountData (query addrs) !! a) ↔ a ∈ addrs) ∧
  (∀ a, a ∈ addrs → ∃ e acct, tree_get n (key a) = Some e ∧ DecodeBytes e = Some acct).
(** No account is overdrawn at the end of the block. *)
Definition solvent (n : Node) (addrs : list bytes) (txs : list Transaction) : Prop :=
  ∀ a e acct, a ∈ addrs → tree_get n (key a) = Some e → DecodeBytes e = Some acct →
    0 ≤ Balance acct + sumZ (λ tx, delta tx a) txs.

(** What the execution leaves for the accounts of the block. *)
Lemma resolve_updated txs addr2State st' k a :
  (∀ b c, (∃ tx, tx ∈ txs ∧ touches tx b) → (∃ tx, tx ∈ txs ∧ touches tx c) → GetHash b = GetHash c → b = c) →
  executeTransactions GetHash txs (mkWstate addr2State ∅) = Ret (st', k) →
  (∃ tx, tx ∈ txs ∧ touches tx a) → resolve st' !! GetHash a = Exec.addr2State st' !! a.
Proof.
  intros Hinj He Ha. destruct (executeTransactions_updates _ _ _ _ He) as (A & B & _).
  pose proof Ha as (tx & Htx & Hta). destruct (B tx a Htx Hta) as [b Hb].
  unfold resolve. rewrite lookup_omap, Hb. simpl.
  apply A in Hb as [Hb|[Heq Hb]]; [simpl in Hb; by rewrite lookup_empty in Hb|]. f_equal. symmetry. by apply Hinj.
Qed.

(** [commit] is the composition of its steps. *)
Lemma commit_steps query m comID h ts pool txs addrs pool' states a2s h2n st txs' block msgs :
  Pending m h pool = Ret (txs, addrs, pool') → getStatusFromShard GetHash 65 (query addrs) = Ret states →
  analyseStates GetHash DecodeBytes states = Ret (a2s, h2n) →
  executeTransactions GetHash txs (mkWstate a2s ∅) = Ret (st, txs') →
  Finalize (new_header comID (h + 1) ts) txs' h2n (StatusTrieHash states) (resolve st) = Ret block →
  sendTXReceipt2Client comID (h + 1) txs' = Ret msgs →
  commit query m comID h ts pool = Ret (block, pool', msgs).
Proof.
  intros E1 E2 E3 E4 E5 E6. unfold commit.
  rewrite E1; cbv beta iota delta [mbind go_bind]. rewrite E2, E3, E4, E5, E6. done.
Qed.

(** The accounts of an honest answer, as [analyseStates] decodes them. *)
Lemma fetched_states n resp (addrs : list bytes) :
  wf_tree n 64 → hashed_nodes GetHash n → NoDup (nhash GetHash <$> subtrees n) → honest_response GetHash n resp →
  (∀ a, is_Some (AccountData resp !! a) ↔ a ∈ addrs) →
  (∀ a, a ∈ addrs → ∃ e acct, tree_get n (key a) = Some e ∧ DecodeBytes e = Some acct) →
  (∀ addr enc, AccountData resp !! addr = Some enc → is_Some (DecodeBytes enc)) ∧
  ∃ a2s h2n, analyseStates GetHash DecodeBytes resp = Ret (a2s, h2n) ∧
  (∀ a, a ∉ addrs → a2s !! a = None) ∧
  ∀ a, a ∈ addrs → ∃ e acct, tree_get n (key a) = Some e ∧ DecodeBytes e = Some acct ∧ a2s !! a = Some acct.
Proof.
  intros Hw Hh Hd Hhon Hdom Hacc.
  assert (∀ addr enc, AccountData resp !! addr = Some enc → is_Some (DecodeBytes enc) ∧
    tree_get n (key addr) = Some enc) as Hdec.
  { intros addr enc Ha. destruct (Hacc addr) as (e & acct & He & Hde); [apply Hdom; eauto|].
    destruct (proj2 Hhon _ _ Ha) as [-> _]. rewrite He. simpl. split; [by rewrite Hde|done]. }
  assert (∀ addr enc, AccountData resp !! addr = Some enc → is_Some (DecodeBytes enc)) as Hdec1
    by (intros addr enc Ha; by apply (Hdec addr)).
  split; [done|].
  destruct (analyseStates_ok GetHash EncodeToBytes DecodeBytes digest n Hw Hh Hd resp Hhon Hdec1)
    as (a2s & h2n & _ & Han & _ & _ & _ & Ha2s).
  exists a2s, h2n. split_and!; [done| |].
  { intros a Ha. rewrite Ha2s. destruct (AccountData resp !! a) eqn:E; [|done]. destruct Ha. apply Hdom. by rewrite E. }
  intros a Ha.
  destruct (proj2 (Hdom a) Ha) as [enc Henc]. destruct (Hdec a enc Henc) as [[acct Hac] Hget].
  exists enc, acct. rewrite Ha2s, Henc. by split_and!.
Qed.

(** The keys of the updated accounts are those of the block's addresses. *)
Lemma resolve_keys txs (addrs : list bytes) a2s st' k h a :
  (∀ a, a ∈ addrs ↔ ∃ tx, tx ∈ txs ∧ touches tx a) →
  executeTransactions GetHash txs (mkWstate a2s ∅) = Ret (st', k) →
  resolve st' !! h = Some a → ∃ addr, addr ∈ addrs ∧ h = GetHash addr.
Proof.
  intros Haddrs He Hka. unfold resolve in Hka. apply lookup_omap_Some in Hka as (addr & _ & Hup).
  apply (proj1 (executeTransactions_updates _ _ _ _ He)) in Hup as [Hup|[-> Ht]];
    [simpl in Hup; by rewrite lookup_empty in Hup|].
  exists addr. split; [by apply Haddrs|done].
Qed.

(** The new root that [Finalize] puts in the block. *)
Lemma Finalize_spec header txs hash2Node root updated root' h2n' :
  rebuildTrie GetHash EncodeToBytes 65 root hash2Node updated = Ret (root', h2n') →
  ∃ block, Finalize header txs hash2Node root updated = Ret block ∧ Transactions block = txs ∧
    hNumber (bHeader block) = Some (default 0 (hNumber header)) ∧ hRoot (bHeader block) = root'.
Proof.
  intros Hr. destruct (NewBlock_spec AppendUint64 EncodeIndex EmptyRootHash (set_hRoot root' header) txs)
    as (block & Hb & Hb1 & Hb2 & Hb3 & _).
  exists block. unfold Finalize. rewrite Hr. cbv beta iota delta [mbind go_bind]. by rewrite Hb, Hb2, Hb3.
Qed.

(** What [commit] returns, with the execution behind it. *)
Lemma commit_ok n query MaxBlockSize comID parentHeight timestamp pool txs addrs pool' :
  wf_tree n 64 → hashed_nodes GetHash n → NoDup (nhash GetHash <$> subtrees n) →
  Pending MaxBlockSize parentHeight pool = Ret (txs, addrs, pool') →
  answers n query addrs → solvent n addrs txs →
  (∀ a b, a ∈ addrs → b ∈ addrs → GetHash a = GetHash b → a = b) →
  ∃ block msgs n' a2s st', commit query MaxBlockSize comID parentHeight timestamp pool = Ret (block, pool', msgs) ∧
    Transactions block = (λ tx, set_TXStatus (success_status tx) tx) <$> txs ∧
    hNumber (bHeader block) = Some (parentHeight + 1) ∧ hRoot (bHeader block) = nhash GetHash n' ∧ wf_tree n' 64 ∧
    (canon n → canon n') ∧ (∀ a, a ∉ addrs → a2s !! a = None) ∧
    (∀ a, a ∈ addrs → ∃ e acct, tree_get n (key a) = Some e ∧ DecodeBytes e = Some acct ∧ a2s !! a = Some acct) ∧
    executeTransactions GetHash txs (mkWstate a2s ∅) = Ret (st', (λ tx, set_TXStatus (success_status tx) tx) <$> txs) ∧
    (∀ a acct, a2s !! a = Some acct → ∃ acct', Exec.addr2State st' !! a = Some acct' ∧
       moved acct acct' (sumZ (λ tx, delta tx a) txs) (sumZ (λ tx, ndelta tx a) txs)) ∧
    (∀ a, a ∈ addrs → tree_get n' (key a) = Exec.addr2State st' !! a ≫= EncodeToBytes) ∧
    (∀ k, Forall in_u8 k → k ∉ GetHash <$> addrs → tree_get n' (keybytesToHex k) = tree_get n (keybytesToHex k)).
Proof.
  intros Hw Hh Hd HP (Hhon & Hdom & Hacc) Hsol Hinj.
  pose proof (Pending_related _ _ _ _ _ _ HP) as Hrel. apply getTxRelatedAddrs_Ret in Hrel as (_ & Hk & Haddrs).
  assert (distinct_nodes GetHash n) as Hdn.
  { intros s s' Hs Hs' Heq. by rewrite (nhash_inj GetHash n Hd s s'). }
  destruct (fetched_states n (query addrs) addrs) as (Hdec & a2s & h2n & Han & Hnone & Hfetched); [done..|].
  destruct (executeTransactions_moves GetHash txs (mkWstate a2s ∅)) as (st' & He & Hm & _); [done| |].
  { intros tx a Htx Hta. destruct (Hfetched a) as (e & acct & _ & _ & Ha); [apply Haddrs; eauto|]. simpl. by rewrite Ha. }
  assert (∀ a, a ∈ addrs → resolve st' !! GetHash a = Exec.addr2State st' !! a) as Hres.
  { intros a Ha. eapply resolve_updated; [|exact He|by apply Haddrs]. intros b c Hb Hc. apply Hinj; by apply Haddrs. }
  pose proof (λ h a, resolve_keys txs addrs a2s st' _ h a Haddrs He) as Hkeys.
  destruct (state_root_ok GetHash EncodeToBytes DecodeBytes digest n (query addrs) (resolve st') Hw Hh Hd Hhon Hdec)
    as (a2s' & h2n' & h2n'' & n' & Han' & _ & Hroot & Hwf' & Hcan & Hget).
  { intros k a Hka. destruct (Hkeys k a Hka) as (addr & Ha & ->). rewrite Hres in Hka by done.
    destruct (Hfetched addr Ha) as (e & acct & Hge & Hde & Ha2). destruct (Hm addr acct Ha2) as (acct' & Hst & Hmv).
    rewrite Hst in Hka. simplify_eq. apply encodable. rewrite (proj1 Hmv). by eapply Hsol. }
  { intros k a (addr & Ha & ->)%Hkeys. destruct (proj2 (Hdom addr) Ha) as [data Hdata]. eauto. }
  rewrite Han in Han'. simplify_eq.
  destruct (Finalize_spec (new_header comID (parentHeight + 1) timestamp)
    ((λ tx, set_TXStatus (success_status tx) tx) <$> txs) _ _ _ _ _ Hroot) as (block & Hfin & Hb1 & Hb2 & Hb3).
  destruct (receipts_returned comID (parentHeight + 1) txs) as [msgs Hmsgs].
  exists block, msgs, n', a2s', st'. split_and!; [|done..|done| |].
  - eapply commit_steps; [exact HP|eapply (honest_accepted GetHash digest 65 n)| | | |]; eauto.
    by apply wf_tree_depth.
  - intros a Ha. destruct (Hfetched a Ha) as (e & acct & Hge & Hde & Ha2).
    destruct (Hm a acct Ha2) as (acct' & Hst & Hmv). rewrite Hget by apply digest. rewrite Hge. simpl.
    rewrite Hres, Hst by done. simpl. destruct (encodable acct') as [enc ->]; [|done].
    rewrite (proj1 Hmv). by eapply Hsol.
  - intros k Hk' Hni. rewrite Hget by done. destruct (resolve st' !! k) as [a|] eqn:E.
    + apply Hkeys in E as (addr & Ha & ->). destruct Hni. apply list_elem_of_fmap. eauto.
    + by destruct (tree_get n _).
Qed.

(** C3. A committee's block is right: given a shard that answers honestly
    about its trie, the worker produces a block one above its parent with the
    transactions the pool selects, each marked as executed, and its state
    root is the root of a trie in which every account the block touches holds
    its balance and nonce after the block and every other key is unchanged;
    the committee never sees the rest of the trie. *)
Theorem commit_correct n query MaxBlockSize comID parentHeight timestamp pool txs addrs pool' :
  wf_tree n 64 → hashed_nodes GetHash n → NoDup (nhash GetHash <$> subtrees n) →
  Pending MaxBlockSize parentHeight pool = Ret (txs, addrs, pool') →
  answers n query addrs → solvent n addrs txs →
  (∀ a b, a ∈ addrs → b ∈ addrs → GetHash a = GetHash b → a = b) →
  ∃ block msgs n', commit query MaxBlockSize comID parentHeight timestamp pool = Ret (block, pool', msgs) ∧
    Transactions block = (λ tx, set_TXStatus (success_status tx) tx) <$> txs ∧
    hNumber (bHeader block) = Some (parentHeight + 1) ∧ hRoot (bHeader block) = nhash GetHash n' ∧ wf_tree n' 64 ∧
    (∀ a, a ∈ addrs → ∃ e acct acct', tree_get n (key a) = Some e ∧ DecodeBytes e = Some acct ∧
       tree_get n' (key a) = EncodeToBytes acct' ∧
       moved acct acct' (sumZ (λ tx, delta tx a) txs) (sumZ (λ tx, ndelta tx a) txs)) ∧
    (∀ k, Forall in_u8 k → k ∉ GetHash <$> addrs → tree_get n' (keybytesToHex k) = tree_get n (keybytesToHex k)).
Proof.
  intros Hw Hh Hd HP Ha Hsol Hinj.
  destruct (commit_ok n query MaxBlockSize comID parentHeight timestamp pool txs addrs pool')
    as (block & msgs & n' & a2s & st' & Hc & Ht & Hn & Hr & Hw' & _ & _ & Hf & _ & Hm & Hin & Hout); [done..|].
  exists block, msgs, n'. split_and!; [done..| |done]. intros a Haa.
  destruct (Hf a Haa) as (e & acct & He & Hde & Ha2). destruct (Hm a acct Ha2) as (acct' & Hst & Hmv).
  exists e, acct, acct'. split_and!; [done..| |done]. by rewrite Hin, Hst by done.
Qed.
End worker.

Section beacon.
(** The beacon of a block; [Hex] prints a hash. *)
Variable rlpHash : Header → option bytes.
Variable Hex : bytes → string.
Definition block_beacon (comID : Z) (block : Block) : go TimeBeacon :=
  let final_header := GetHeader block in
  number ← deref (hNumber final_header);
  '(h, _) ← Block.GetHash rlpHash block;
  Ret (mkTimeBeacon comID (u64 number) (Hex h) (Hex (hTxHash final_header)) (Hex (hRoot final_header))).
End beacon.

(** ** Witness: a transfer of 5 between the two accounts of a shard *)
Module DemoBlock.
Definition hasher : TrieHasher :=
  {| hasher_state := list (bytes * bytes); hasher_empty := []; hasher_update s k v := s ++ [(k, v)];
     hasher_hash s := concat s.*2 |}.
Definition tx : Transaction := mkTransaction IntraTXType 1 [1] [2] 0 5 0 0 0 0 0 0 0 0 0.
Definition pool : TxPool := mkTxPool [tx] [].
Definition query (addrs : list bytes) : ShardSendState := shard_answer DemoTrie.toy_hash DemoTrie.trie 3 addrs.
Definition addrs : list bytes := (map_iter (MapIter := canonical_iter) (<[[2] := tt]> (<[[1] := tt]> ∅) : gmap bytes unit)).*1.

Definition data2 : bytes := default [] (tree_get DemoTrie.trie (keybytesToHex (DemoTrie.toy_hash [2]))).

Lemma addrs_two a : a ∈ addrs → a = [1] ∨ a = [2].
Proof. intros [u Hu]%elem_of_map_iter_fst. apply lookup_insert_Some in Hu as [[<- _]|[_ Hu]]; [auto|].
  apply lookup_insert_Some in Hu as [[<- _]|[_ Hu]]; [auto|]. by rewrite lookup_empty in Hu. Qed.
End DemoBlock.

Lemma commit_correct_witness :
  ∃ block msgs n', commit (MI := canonical_iter) (TH := DemoBlock.hasher) DemoTrie.toy_hash DemoTrie.toy_encode
      DemoTrie.toy_decode (λ i, [i]) (λ tx, [ID tx]) [] DemoBlock.query 10 2 3 1700 DemoBlock.pool =
      Ret (block, NewTxPool, msgs) ∧
    hRoot (bHeader block) = nhash DemoTrie.toy_hash n' ∧
    ∃ acct', tree_get n' (keybytesToHex (DemoTrie.toy_hash [1])) = DemoTrie.toy_encode acct' ∧ Balance acct' = 95.
Proof.
  destruct (commit_correct (MI := canonical_iter) (TH := DemoBlock.hasher) DemoTrie.toy_hash DemoTrie.toy_encode
    DemoTrie.toy_decode (λ i, [i]) (λ tx, [ID tx]) [] DemoTrie.toy_digest (λ a _, mk_is_Some _ _ eq_refl)
    DemoTrie.trie DemoBlock.query 10 2 3 1700 DemoBlock.pool [DemoBlock.tx] DemoBlock.addrs NewTxPool)
    as (block & msgs & n' & Hc & _ & _ & Hroot & _ & Ha & _).
  - apply DemoTrie.trie_wf.
  - apply DemoTrie.trie_hashed.
  - apply DemoTrie.trie_distinct.
  - reflexivity.
  - split_and!; [apply shard_answer_honest|apply shard_answer_data|].
    intros a [->| ->]%DemoBlock.addrs_two; eexists _, _; split; vm_compute; reflexivity.
  - intros a e acct [->| ->]%DemoBlock.addrs_two He Hd;
      [assert (e = DemoTrie.data1) as -> by (apply Some_inj; rewrite <-He; reflexivity)|
       assert (e = DemoBlock.data2) as -> by (apply Some_inj; rewrite <-He; reflexivity)];
      vm_compute in Hd; injection Hd as <-; vm_compute; discriminate.
  - intros a b [->| ->]%DemoBlock.addrs_two [->| ->]%DemoBlock.addrs_two; try done; vm_compute; discriminate.
  - exists block, msgs, n'. split_and!; [exact Hc|exact Hroot|].
    destruct (Ha [1]) as (e & acct & acct' & He & Hd & He' & Hb & _);
      [apply elem_of_map_iter_fst; eexists; reflexivity|].
    exists acct'. split; [exact He'|]. rewrite Hb.
    assert (Some e = Some DemoTrie.data1) as [= ->] by (rewrite <-He; reflexivity).
    apply (f_equal (fmap Balance)) in Hd. vm_compute in Hd. injection Hd as Hd.
    change (Balance acct + -5 = 95). unfold Balance. rewrite <-Hd. reflexivity.
Defined.
