(* ===== verification/ShardNode.v ===== *)
(** * A shard (src/shard/shard.go, src/shard/msgHandler.go,
    src/shard/crossMessage.go)

    A shard keeps the accounts and the chain of blocks.  It answers a
    committee's request for accounts with their data and Merkle proofs, and
    re-executes the block it gets back, comparing state roots.

    The state database is go-ethereum's.  [TrieState] is what the shard asks
    of it beyond reading and writing accounts: which accounts exist, and the
    trie it commits to.  The shard's accounts have neither code nor storage:
    its state starts empty and is written by the operations below only. *)
From S2P Require Import Prelude Core Utils TxPool Exec Encoding Node Rebuild Trie MerkleProof StateRoot Block Database BlockChain Committee Worker.
Local Open Scope Z_scope.

(** ** Messages between shards: the first twelve bytes are the command *)
Definition prefixCMDLength : nat := 12.
Definition jointMessage (cmd content : bytes) : go bytes :=
  b ← go_fold (λ b iv, go_store b (Z.of_nat iv.1) iv.2) (replicate prefixCMDLength 0) (imap pair cmd);
  Ret (b ++ content).
Definition splitMessage (message : bytes) : go (bytes * bytes) :=
  if bool_decide (len message < Z.of_nat prefixCMDLength)
  then Halt (LogError "message len is smaller than prefixCMDLength")
  else Ret (filter (λ v, v ≠ 0) (take prefixCMDLength message), drop prefixCMDLength message).

Lemma joint_fold (cmd : bytes) : ∀ pre rest : bytes,
  (length cmd ≤ length rest)%nat →
  go_fold (λ b iv, go_store b (Z.of_nat iv.1) iv.2) (pre ++ rest) (imap (λ i v, ((length pre + i)%nat, v)) cmd) =
  Ret (pre ++ cmd ++ drop (length cmd) rest).
Proof.
  induction cmd as [|v cmd IH]; intros pre [|x rest] Hl; simpl in Hl; try lia; try done.
  rewrite imap_cons, Nat.add_0_r. cbn [go_fold fst snd].
  rewrite go_store_ok by (unfold len; rewrite length_app; simpl; lia).
  rewrite Nat2Z.id. replace (length pre) with (length pre + 0)%nat at 1 by lia.
  rewrite insert_app_r. cbv beta iota delta [mbind go_bind].
  specialize (IH (pre ++ [v]) rest ltac:(lia)). rewrite <-!app_assoc in IH. simpl in IH |- *. rewrite <-IH.
  f_equal. apply imap_ext. intros i y _. simpl. f_equal. rewrite length_app. simpl. lia.
Qed.

(** A command without zero bytes survives the trip. *)
Lemma message_roundtrip cmd content :
  (length cmd ≤ prefixCMDLength)%nat → Forall (λ v, v ≠ 0) cmd →
  ∃ m, jointMessage cmd content = Ret m ∧ splitMessage m = Ret (cmd, content).
Proof.
  intros Hl HF. unfold jointMessage.
  pose proof (joint_fold cmd [] (replicate prefixCMDLength 0)) as Hj. cbn [app length Nat.add] in Hj.
  change (imap pair cmd) with (imap (λ i v, (i, v)) cmd).
  rewrite Hj by (by rewrite length_replicate). cbv beta iota delta [mbind go_bind]. eexists. split; [done|].
  unfold splitMessage.
  assert (length (cmd ++ drop (length cmd) (replicate prefixCMDLength 0)) = prefixCMDLength) as Hlen.
  { rewrite length_app, length_drop, length_replicate. lia. }
  rewrite bool_decide_false by (unfold len; rewrite length_app, Hlen; lia).
  rewrite take_app_length', drop_app_length' by done. rewrite filter_app, drop_replicate.
  rewrite filter_all by (by apply Forall_forall). rewrite filter_none, app_nil_r; [done|].
  intros x [-> _]%elem_of_replicate. auto.
Qed.

(** ** The state a shard commits to *)
Class TrieState (SDB : Type) := {
  GetOrNewStateObject : SDB → bytes → SDB;
  Exist : SDB → bytes → bool;
  state_trie : SDB → Node
}.

(** [core.SyncData] *)
Record SyncData := mkSyncData { syStates : gmap bytes StateAccount; syBlocks : list Block }.
(** [core.ShardSendGenesis] *)
Record ShardSendGenesis := mkShardSendGenesis { sgAddrs : list bytes; sgGtb : TimeBeacon; sgShardID : Z }.

Section shard.
Context {SDB : Type} `{SD : StateDB SDB} `{TS : TrieState SDB} `{RL : RLP} `{MI : MapIter}.
Variable GetHash : bytes → bytes.
Variable EncodeToBytes : StateAccount → option bytes.
Variable emptyRoot emptyCodeHash : bytes.

Record Shard := mkShard {
  sInfo : NodeInfo;
  blockchain : BlockChain SDB;
  initialAddrList : list bytes;
  activeAddrs : gmap bytes Z;
  tMPT_activeAddrs : gmap bytes Z;
  height2Reconfig : Z;
  sTbchain_height : Z;
  fastsyncBlockNum : Z
}.
Definition set_chain (bc : BlockChain SDB) (s : Shard) : Shard :=
  mkShard (sInfo s) bc (initialAddrList s) (activeAddrs s) (tMPT_activeAddrs s) (height2Reconfig s)
    (sTbchain_height s) (fastsyncBlockNum s).
Definition set_active (a t : gmap bytes Z) (s : Shard) : Shard :=
  mkShard (sInfo s) (blockchain s) (initialAddrList s) a t (height2Reconfig s) (sTbchain_height s) (fastsyncBlockNum s).
Definition set_state (db : SDB) (s : Shard) : Shard := set_chain (set_statedb db (blockchain s)) s.

Definition NewShard (info : NodeInfo) (self : bytes) (bc : chain_error + BlockChain SDB)
    (fastsync height2Reconfig : Z) : go Shard :=
  match bc with
  | inl _ => Halt (LogError "NewShard NewBlockChain err")
  | inr bc => Ret (mkShard info bc [self] ∅ ∅ height2Reconfig 0 fastsync)
  end.
Definition AddInitialAddr (addr : bytes) (s : Shard) : Shard :=
  mkShard (sInfo s) (blockchain s) (initialAddrList s ++ [addr]) (activeAddrs s) (tMPT_activeAddrs s)
    (height2Reconfig s) (sTbchain_height s) (fastsyncBlockNum s).
Definition GetNodeAddrs (s : Shard) : list bytes := initialAddrList s.
Definition AddBlock (block : Block) (s : Shard) : Shard := set_chain (bc_WriteBlock block (blockchain s)) s.
Definition shard_AddTBs (height : Z) (s : Shard) : Shard :=
  mkShard (sInfo s) (blockchain s) (initialAddrList s) (activeAddrs s) (tMPT_activeAddrs s) (height2Reconfig s)
    height (fastsyncBlockNum s).

Definition state_of (s : Shard) : go SDB := deref (statedb (blockchain s)).
(** [IntermediateRoot] and [Commit]: the root of the current trie. *)
Definition IntermediateRoot (db : SDB) : bytes :=
  match state_trie db with NilNode => emptyRoot | n => nhash GetHash n end.

Definition SetInitialAccountState (addrs : gmap bytes unit) (maxValue : Z) (s : Shard) : go Shard :=
  db ← state_of s;
  db ← go_fold (λ db ad, let db := AddBalance db ad.1 maxValue in
                         if bool_decide (GetBalance db ad.1 ≠ maxValue)
                         then Halt (LogError "Opps, something wrong!") else Ret db) db (map_iter addrs);
  Ret (set_state db s).

(** [addGenesisTB]: the message to the booter; [Hex] prints a hash. *)
Definition addGenesisTB (rlpHash : Header → option bytes) (Hex : bytes → string) (s : Shard) : go ShardSendGenesis :=
  genesisBlock ← CurrentBlock (blockchain s);
  let g_header := GetHeader genesisBlock in
  number ← deref (hNumber g_header);
  '(h, _) ← Block.GetHash rlpHash genesisBlock;
  Ret (mkShardSendGenesis (initialAddrList s)
    (mkTimeBeacon (nShardID (sInfo s)) (u64 number) (Hex h) (Hex (hTxHash g_header)) (Hex (hRoot g_header)))
    (nShardID (sInfo s))).

(** The account an address has in the state. *)
Definition account_of (db : SDB) (a : bytes) : StateAccount :=
  mkStateAccount (GetNonce db a) (GetBalance db a) emptyRoot emptyCodeHash.

(** The answer for one address; the proof database is read in the order of
    its keys, and any order will do. *)
Definition answer_step (db : SDB) (r : gmap bytes bytes * gmap bytes (list bytes)) (address : bytes) :
    go (gmap bytes bytes * gmap bytes (list bytes)) :=
  enc ← or_exit "Failed to encode state object" (EncodeToBytes (account_of db address));
  Ret (<[address := enc]> r.1,
       <[address := (map_iter (Prove GetHash (state_trie db) (GetHash address))).*2]> r.2).
Definition HandleComGetState (AddrList : list bytes) (s : Shard) : go (Shard * ShardSendState) :=
  stateDB ← state_of s;
  let stateDB := foldl GetOrNewStateObject stateDB AddrList in
  let root := IntermediateRoot stateDB in
  '(accountsData, accountsProofs) ← go_fold (answer_step stateDB) (∅, ∅) AddrList;
  b ← CurrentBlock (blockchain s);
  height ← deref (hNumber (bHeader b));
  Ret (set_state stateDB s, mkShardSendState root accountsData accountsProofs height).
Definition HandleComGetHeight (s : Shard) : go Z :=
  b ← CurrentBlock (blockchain s); deref (hNumber (bHeader b)).

(** [m[k] += 1] *)
Definition incr (m : gmap bytes Z) (k : bytes) : gmap bytes Z := <[k := default 0 (m !! k) + 1]> m.
Definition exec_step (st : SDB * (gmap bytes Z * gmap bytes Z)) (tx : Transaction) :
    go (SDB * (gmap bytes Z * gmap bytes Z)) :=
  let '(db, (active, tmpt)) := st in
  db ← Exec.Shard.executeTransaction db tx;
  Ret (db, (incr (incr active (Sender tx)) (Recipient tx), incr (incr tmpt (Sender tx)) (Recipient tx))).
Definition executeTransactions (txs : list Transaction) (s : Shard) : go (Shard * bytes) :=
  stateDB ← state_of s;
  '(stateDB, (active, tmpt)) ← go_fold exec_step (stateDB, (activeAddrs s, tMPT_activeAddrs s)) txs;
  Ret (set_state stateDB (set_active active tmpt s), IntermediateRoot stateDB).

(** A block whose root differs from the shard's ends the process. *)
Definition HandleComSendBlock (block : Block) (s : Shard) : go Shard :=
  let s := AddBlock block s in
  r ← go_rem (sTbchain_height s) (u64 (height2Reconfig s));
  let s := if bool_decide (r = 1) then set_active (activeAddrs s) ∅ s else s in
  '(s, trieRoot) ← executeTransactions (Transactions block) s;
  if bool_decide (trieRoot ≠ hRoot (bHeader block)) then Halt (LogError "trie root not the same") else Ret s.

(** [HandleGetSyncData]: the accounts of [addrs], and the last blocks. *)
Definition sync_states (db : SDB) (addrs : gmap bytes Z) : gmap bytes StateAccount :=
  foldl (λ m ai, <[ai.1 := account_of db ai.1]> m) ∅ (map_iter addrs).
Definition HandleGetSyncData (SyncType : string) (s : Shard) : go SyncData :=
  if bool_decide (SyncType = "fastsync")%string then
    db ← state_of s;
    let states := sync_states db (activeAddrs s) in
    let blocks := AllBlocks (blockchain s) in
    let syncBlockNum := Min (len blocks) (fastsyncBlockNum s) in
    if bool_decide (0 ≤ len blocks - syncBlockNum ≤ len blocks)
    then Ret (mkSyncData states (drop (Z.to_nat (len blocks - syncBlockNum)) blocks))
    else Halt (GoPanic "slice bounds out of range")
  else if bool_decide (SyncType = "tMPTsync")%string then
    db ← state_of s; Ret (mkSyncData (sync_states db (tMPT_activeAddrs s)) [])
  else if bool_decide (SyncType = "fullsync")%string then Ret (mkSyncData ∅ (AllBlocks (blockchain s)))
  else Halt (LogError "unknown sync type").

(** ** What the shard relies on *)

(** Accounts have different hashes, none is overdrawn, and nonces are
    [uint64] values. *)
Definition solid (db : SDB) : Prop :=
  (∀ a b, Exist db a = true → Exist db b = true → GetHash a = GetHash b → a = b) ∧
  (∀ a, Exist db a = true → 0 ≤ GetBalance db a ∧ in_u64 (GetNonce db a)).

Abbreviation key a := (keybytesToHex (GetHash a)).

(** Reading and writing create no accounts but the one named; the trie of a
    state in order holds the encodings of its accounts, under the hashes of
    their addresses, and nothing else. *)
Class TrieStateLaws := {
  Exist_GetOrNew : ∀ s a b, Exist (GetOrNewStateObject s a) b = bool_decide (b = a) || Exist s b;
  GetNonce_GetOrNew : ∀ s a b, GetNonce (GetOrNewStateObject s a) b = GetNonce s b;
  GetBalance_GetOrNew : ∀ s a b, GetBalance (GetOrNewStateObject s a) b = GetBalance s b;
  Exist_SetNonce : ∀ s a n b, Exist (SetNonce s a n) b = bool_decide (b = a) || Exist s b;
  Exist_AddBalance : ∀ s a v b, Exist (AddBalance s a v) b = bool_decide (b = a) || Exist s b;
  Exist_SubBalance : ∀ s a v b, Exist (SubBalance s a v) b = bool_decide (b = a) || Exist s b;
  state_trie_canon : ∀ s, solid s → sub (state_trie s);
  state_trie_get : ∀ s a, solid s → Exist s a = true → tget (state_trie s) (key a) = EncodeToBytes (account_of s a);
  state_trie_keys : ∀ s q w, solid s → term_key q → tget (state_trie s) q = Some w → ∃ a, Exist s a = true ∧ q = key a;
  state_trie_wf : ∀ s a, solid s → Exist s a = true → wf_tree (state_trie s) 64
}.

Section confirmed.
Context `{SDL : !StateDBLaws SDB} `{TSL : TrieStateLaws} `{TH : TrieHasher} `{RLL : !RLPLaws}.
Variable DecodeBytes : bytes → option StateAccount.
Variable AppendUint64 : Z → bytes.
Variable EncodeIndex : Transaction → bytes.
Variable EmptyRootHash : bytes.
Hypothesis digest : ∀ b, Forall in_u8 (GetHash b) ∧ length (GetHash b) = 32%nat.
Hypothesis encodable : ∀ a, 0 ≤ Balance a → is_Some (EncodeToBytes a).
Hypothesis decode_encode : ∀ nonce balance e, in_u64 nonce → 0 ≤ balance →
  EncodeToBytes (mkStateAccount nonce balance emptyRoot emptyCodeHash) = Some e →
  DecodeBytes e = Some (mkStateAccount nonce balance emptyRoot emptyCodeHash).

(** The accounts asked for exist afterwards, as they were. *)
Lemma fold_GetOrNew addrs : ∀ db b,
  (Exist (foldl GetOrNewStateObject db addrs) b = true ↔ b ∈ addrs ∨ Exist db b = true) ∧
  GetNonce (foldl GetOrNewStateObject db addrs) b = GetNonce db b ∧
  GetBalance (foldl GetOrNewStateObject db addrs) b = GetBalance db b.
Proof.
  induction addrs as [|a addrs IH]; intros db b; simpl; [rewrite elem_of_nil; naive_solver|].
  destruct (IH (GetOrNewStateObject db a) b) as (-> & -> & ->). rewrite GetNonce_GetOrNew, GetBalance_GetOrNew.
  split; [|done]. rewrite Exist_GetOrNew, orb_true_iff, bool_decide_eq_true, elem_of_cons. naive_solver.
Qed.

Lemma answer_fold db addrs : ∀ r,
  (∀ a, a ∈ addrs → 0 ≤ GetBalance db a) →
  ∃ r', go_fold (answer_step db) r addrs = Ret r' ∧
    (∀ a, r'.1 !! a = if decide (a ∈ addrs) then EncodeToBytes (account_of db a) else r.1 !! a) ∧
    (∀ a, r'.2 !! a = if decide (a ∈ addrs)
                      then Some (map_iter (Prove GetHash (state_trie db) (GetHash a))).*2 else r.2 !! a).
Proof.
  induction addrs as [|a addrs IH]; intros r Hb.
  { exists r. split_and!; [done|..]; intros a; by rewrite decide_False by apply not_elem_of_nil. }
  cbn [go_fold]. unfold answer_step at 2. destruct (encodable (account_of db a)) as [enc Henc]; [apply Hb; by left|].
  rewrite Henc. cbv beta iota delta [or_exit mbind go_bind].
  destruct (IH (<[a := enc]> r.1, <[a := (map_iter (Prove GetHash (state_trie db) (GetHash a))).*2]> r.2)) as (r' & Hr & H1 & H2);
    [intros; apply Hb; by right|].
  exists r'. split; [exact Hr|]. cbn [fst snd] in H1, H2. split; intros b; rewrite ?H1, ?H2; rewrite lookup_insert.
  all: destruct (decide (b ∈ addrs)); [by rewrite decide_True by (by right)|].
  all: destruct (decide (a = b)) as [->|]; [rewrite decide_True by (by left); congruence|].
  all: rewrite decide_False; [done|]; rewrite elem_of_cons; naive_solver.
Qed.

(** The trie of a state, as a committee reads it. *)
Lemma trie_reads db a : solid db → Exist db a = true →
  tree_get (state_trie db) (key a) = EncodeToBytes (account_of db a).
Proof.
  intros Hs Ha. rewrite <-(tget_tree_get _ 64) by (by apply (state_trie_wf db a) || by apply term_key_keybytes, digest).
  by apply state_trie_get.
Qed.

(** The shard answers honestly. *)
Lemma HandleComGetState_ok addrs s db b h :
  statedb (blockchain s) = Some db → currentBlock (blockchain s) = Some b → hNumber (bHeader b) = Some h →
  let db1 := foldl GetOrNewStateObject db addrs in
  solid db1 → (∃ a, Exist db1 a = true) →
  ∃ resp, HandleComGetState addrs s = Ret (set_state db1 s, resp) ∧
    honest_response GetHash (state_trie db1) resp ∧ (∀ a, is_Some (AccountData resp !! a) ↔ a ∈ addrs) ∧
    (∀ a, a ∈ addrs → ∃ e, tree_get (state_trie db1) (key a) = Some e ∧ DecodeBytes e = Some (account_of db1 a)).
Proof.
  intros Hdb Hb Hh db1 Hs [x Hx]. unfold HandleComGetState, state_of. rewrite Hdb. cbv beta iota delta [deref mbind go_bind].
  fold db1. assert (∀ a, a ∈ addrs → Exist db1 a = true) as Hex by (intros a Ha; apply fold_GetOrNew; by left).
  assert (∀ a, a ∈ addrs → 0 ≤ GetBalance db1 a) as Hbal by (intros a Ha; apply Hs; auto).
  destruct (answer_fold db1 addrs (∅, ∅) Hbal) as ([data proofs] & -> & H1 & H2). cbn [fst snd] in H1, H2.
  unfold CurrentBlock. rewrite Hb, Hh. eexists. split; [reflexivity|].
  assert (∀ a, a ∈ addrs → ∃ e, EncodeToBytes (account_of db1 a) = Some e) as Henc by (intros a Ha; by apply encodable, Hbal).
  split_and!.
  - split.
    + cbn [StatusTrieHash]. unfold IntermediateRoot. pose proof (state_trie_wf db1 x Hs Hx). by destruct (state_trie db1).
    + intros a d Hd. cbn [AccountData AccountsProofs] in *. rewrite H1 in Hd. rewrite H2.
      destruct (decide (a ∈ addrs)) as [Ha|]; [|by rewrite lookup_empty in Hd].
      rewrite trie_reads, Hd by auto. split; [done|]. intros p. simpl. rewrite list_elem_of_fmap. split.
      * intros ([k p'] & -> & Hin%elem_of_map_iter). eauto.
      * intros [k Hk]. exists (k, p). by rewrite elem_of_map_iter.
  - intros a. cbn [AccountData]. rewrite H1. case_decide as Ha; [|rewrite lookup_empty; split; [by intros []|done]].
    destruct (Henc a Ha) as [e ->]. done.
  - intros a Ha. destruct (Henc a Ha) as [e He]. exists e. rewrite trie_reads, He by auto. split; [done|].
    apply decode_encode; [apply Hs; auto..|done].
Qed.

(** ** Execution in the shard *)
Lemma exec_exist db tx db' b :
  Exec.Shard.executeTransaction db tx = Ret db' → Exist db' b = true ↔ Exist db b = true ∨ touches tx b.
Proof.
  unfold Exec.Shard.executeTransaction, touches, IntraTXType, CrossTXType1, CrossTXType2, RollbackTXType. intros He.
  repeat split_guard; go_inv; rewrite ?Exist_AddBalance, ?Exist_SubBalance, ?Exist_SetNonce, ?orb_true_iff, ?bool_decide_eq_true;
    destruct_or?; naive_solver congruence.
Qed.

Lemma execs_exist txs : ∀ db db' b,
  go_fold Exec.Shard.executeTransaction db txs = Ret db' →
  Exist db' b = true ↔ Exist db b = true ∨ ∃ tx, tx ∈ txs ∧ touches tx b.
Proof.
  induction txs as [|tx txs IH]; intros db db' b He; simpl in He; go_inv.
  { split; [by left|]. intros [?|(? & ?%elem_of_nil & _)]; done. }
  rewrite (IH x db' b) by done. rewrite (exec_exist db tx x b) by done. setoid_rewrite elem_of_cons. naive_solver.
Qed.

(** The counters do not change what is executed. *)
Lemma exec_steps txs : ∀ db db' c,
  go_fold Exec.Shard.executeTransaction db txs = Ret db' → ∃ c', go_fold exec_step (db, c) txs = Ret (db', c').
Proof.
  induction txs as [|tx txs IH]; intros db db' [active tmpt] He; [simplify_eq/=; eauto|].
  apply go_bind_Ret in He as (db1 & H1 & He).
  destruct (IH db1 db' (incr (incr active (Sender tx)) (Recipient tx), incr (incr tmpt (Sender tx)) (Recipient tx)) He)
    as [c' Hc']. exists c'. rewrite <-Hc'. cbn [go_fold]. unfold exec_step. by rewrite H1.
Qed.

(** ** The two roots *)
Lemma wf_key n q w : wf_tree n 64 → term_key q → tget n q = Some w → ∃ k, Forall in_u8 k ∧ q = keybytesToHex k.
Proof.
  intros Hw Hq Hg. rewrite (tget_tree_get n 64) in Hg by done.
  assert (Forall in_u8 q) as Hu.
  { destruct Hq as (ns & -> & HF). apply Forall_app. split; [eapply Forall_impl; [exact HF|]|repeat constructor; unfold in_u8; lia].
    unfold nibble, in_u8. intros; lia. }
  destruct (tree_get_key n 64 q w Hw Hu Hg) as (ns & -> & HF & Hl).
  destruct (nibbles_of_pack 32 ns) as [Hp Hpu]; [lia|done|]. exists (pack_all ns). split; [done|].
  unfold keybytesToHex. by rewrite Hp.
Qed.

Lemma roots_agree db1 db2 (addrs : list bytes) n' :
  solid db1 → solid db2 → (∀ a, Exist db2 a = Exist db1 a) → (∃ a, Exist db1 a = true) →
  (∀ a, a ∈ addrs → Exist db1 a = true) → wf_tree n' 64 → canon n' →
  (∀ a, a ∈ addrs → tree_get n' (key a) = EncodeToBytes (account_of db2 a)) →
  (∀ a, a ∉ addrs → account_of db2 a = account_of db1 a) →
  (∀ k, Forall in_u8 k → k ∉ GetHash <$> addrs → tree_get n' (keybytesToHex k) = tree_get (state_trie db1) (keybytesToHex k)) →
  n' = state_trie db2.
Proof.
  intros Hs1 Hs2 Hex [x Hx] Haddrs Hw Hc Hin Hsame Hout.
  assert (∀ a, term_key (key a)) as Htk by (intros; apply term_key_keybytes, digest).
  assert (∀ a, Exist db2 a = true → tget n' (key a) = EncodeToBytes (account_of db2 a)) as Hget.
  { intros a Ha. rewrite (tget_tree_get n' 64) by done. destruct (decide (a ∈ addrs)) as [|Hn]; [auto|].
    rewrite Hout; [|apply digest|].
    - rewrite Hsame by done. apply trie_reads; [done|]. by rewrite <-Hex.
    - intros (b & Hb & Hbin)%list_elem_of_fmap. apply Hn. rewrite (proj1 Hs1 a b); [done|by rewrite <-Hex|auto|done]. }
  assert (∀ q w, term_key q → tget n' q = Some w → ∃ a, Exist db2 a = true ∧ q = key a) as Hkeys.
  { intros q w Hq Hg. destruct (wf_key n' q w Hw Hq Hg) as (k & Hk & ->).
    destruct (decide (k ∈ GetHash <$> addrs)) as [(a & -> & Ha)%list_elem_of_fmap|Hn].
    - exists a. rewrite Hex. auto.
    - rewrite (tget_tree_get n' 64), Hout in Hg by done. pose proof (state_trie_wf db1 x Hs1 Hx) as Hw1.
      rewrite <-(tget_tree_get _ 64) in Hg by done. setoid_rewrite Hex. by eapply (state_trie_keys db1). }
  apply canon_unique; [by right|by apply state_trie_canon|]. intros q Hq.
  destruct (tget n' q) as [w|] eqn:E1; [|destruct (tget (state_trie db2) q) as [w|] eqn:E2; [|done]].
  - destruct (Hkeys q w Hq E1) as (a & Ha & ->). rewrite <-E1, Hget by done. symmetry. by apply state_trie_get.
  - destruct (state_trie_keys db2 q w Hs2 Hq E2) as (a & Ha & ->). rewrite state_trie_get in E2 by done.
    rewrite Hget in E1 by done. congruence.
Qed.

(** The state after a block, read account by account. *)
Lemma block_state db1 a2s st' txs (addrs : list bytes) k :
  solid db1 → Forall known_type txs → (∀ a, a ∈ addrs ↔ ∃ tx, tx ∈ txs ∧ touches tx a) →
  (∀ a, a ∈ addrs → Exist db1 a = true) →
  (∀ a, a ∉ addrs → a2s !! a = None) → (∀ a, a ∈ addrs → a2s !! a = Some (account_of db1 a)) →
  Exec.executeTransactions GetHash txs (mkWstate a2s ∅) = Ret (st', k) →
  (∀ a acct, a2s !! a = Some acct → ∃ acct', Exec.addr2State st' !! a = Some acct' ∧
     moved acct acct' (sumZ (λ tx, delta tx a) txs) (sumZ (λ tx, ndelta tx a) txs)) →
  (∀ a, a ∈ addrs → 0 ≤ GetBalance db1 a + sumZ (λ tx, delta tx a) txs) →
  ∃ db2, go_fold Exec.Shard.executeTransaction db1 txs = Ret db2 ∧ solid db2 ∧ (∀ a, Exist db2 a = Exist db1 a) ∧
    (∀ a, a ∈ addrs → Exec.addr2State st' !! a = Some (account_of db2 a)) ∧
    (∀ a, a ∉ addrs → account_of db2 a = account_of db1 a) ∧
    (∀ a, a ∈ addrs → GetBalance db2 a = GetBalance db1 a + sumZ (λ tx, delta tx a) txs).
Proof.
  intros Hs Hk Haddrs Hex Hnone Hsome He Hm Hsol.
  destruct (execution_agrees GetHash txs (mkWstate a2s ∅) db1) as (st2 & db2 & He2 & Hf & Hag & Hout); [done|..].
  { intros tx a Htx Hta. simpl. rewrite Hsome by (apply Haddrs; eauto). done. }
  { intros a acct Ha. simpl in Ha. destruct (decide (a ∈ addrs)); [rewrite Hsome in Ha|rewrite Hnone in Ha]; by simplify_eq. }
  rewrite He in He2. simplify_eq. exists db2.
  assert (∀ a, Exist db2 a = Exist db1 a) as Hexd.
  { intros a. apply eq_bool_prop_intro. rewrite !Is_true_true. rewrite (execs_exist txs db1 db2 a Hf), <-Haddrs. naive_solver. }
  assert (∀ a, a ∈ addrs → ∃ acct', Exec.addr2State st2 !! a = Some acct' ∧ acct' = account_of db2 a ∧
    Balance acct' = GetBalance db1 a + sumZ (λ tx, delta tx a) txs) as Hin.
  { intros a Ha. destruct (Hm a _ (Hsome a Ha)) as (acct' & Hst & Hmv). exists acct'. split; [done|].
    destruct (Hag a acct' Hst) as [Hn Hb]. destruct Hmv as (Hmb & _ & Hmr & Hmc). split; [|done].
    destruct acct'; simpl in *. unfold account_of. congruence. }
  assert (wf_accounts (Exec.addr2State st2)) as Hwf.
  { eapply executeTransactions_wf; [|exact He]. intros a acct Ha. simpl in Ha.
    destruct (decide (a ∈ addrs)); [rewrite Hsome in Ha by done|by rewrite Hnone in Ha]. simplify_eq. apply Hs. auto. }
  split_and!; [done| |done| | |].
  - split.
    + intros a b Ha Hb. rewrite Hexd in Ha, Hb. by apply Hs.
    + intros a Ha. rewrite Hexd in Ha. destruct (decide (a ∈ addrs)) as [Hina|Hn].
      * destruct (Hin a Hina) as (acct' & Hst & -> & Hb). simpl in Hb. rewrite Hb. split; [auto|].
        by apply (Hwf a _ Hst).
      * destruct (Hout a) as [-> ->]; [by apply Hnone|]. by apply Hs.
  - intros a Ha. by destruct (Hin a Ha) as (acct' & -> & -> & _).
  - intros a Ha. unfold account_of. by destruct (Hout a (Hnone a Ha)) as [-> ->].
  - intros a Ha. by destruct (Hin a Ha) as (acct' & _ & -> & Hb).
Qed.

(** The status a worker writes in a transaction is not looked at. *)
Lemma exec_marked txs db :
  go_fold Exec.Shard.executeTransaction db ((λ tx, set_TXStatus (success_status tx) tx) <$> txs) =
  go_fold Exec.Shard.executeTransaction db txs.
Proof. rewrite go_fold_fmap. by apply go_fold_ext. Qed.

Lemma HandleComSendBlock_ok s db block db2 :
  0 ≤ sTbchain_height s → 0 < u64 (height2Reconfig s) → statedb (blockchain s) = Some db →
  go_fold Exec.Shard.executeTransaction db (Transactions block) = Ret db2 →
  IntermediateRoot db2 = hRoot (bHeader block) →
  ∃ s2, HandleComSendBlock block s = Ret s2 ∧ currentBlock (blockchain s2) = Some block ∧
    blocks (blockchain s2) = blocks (blockchain s) ++ [block] ∧ statedb (blockchain s2) = Some db2.
Proof.
  intros Htb Hrc Hdb He Hroot. unfold HandleComSendBlock.
  change (sTbchain_height (AddBlock block s)) with (sTbchain_height s).
  change (height2Reconfig (AddBlock block s)) with (height2Reconfig s).
  destruct (go_rem_pos (sTbchain_height s) (u64 (height2Reconfig s)) Htb Hrc) as [-> _]. cbv beta iota delta [mbind go_bind].
  set (s' := if bool_decide _ then _ else _).
  assert (blockchain s' = bc_WriteBlock block (blockchain s)) as Hbc by (unfold s'; by case_bool_decide).
  unfold executeTransactions, state_of. rewrite Hbc. cbn [bc_WriteBlock statedb]. rewrite Hdb.
  cbv beta iota delta [deref mbind go_bind].
  destruct (exec_steps (Transactions block) db db2 (activeAddrs s', tMPT_activeAddrs s') He) as [[active tmpt] ->].
  cbv beta iota. rewrite Hroot, bool_decide_false by (intros E; by apply E). eexists. split; [reflexivity|].
  cbn [blockchain set_state set_chain set_active]. rewrite Hbc. done.
Qed.

(** C2. Committee and shard agree from request to confirmation: the accounts
    a shard sends when asked are accepted by the committee, the block the
    committee builds on them is executed by the shard with the same state
    root, so the shard takes it as its new head, and every account then has
    the balance the block's transactions give it.  (The accounts of the
    block must not be overdrawn, and the node hashes of the shard's trie must
    not collide.) *)
Theorem shard_confirms_block s db b h MaxBlockSize comID timestamp pool txs addrs pool' :
  statedb (blockchain s) = Some db → currentBlock (blockchain s) = Some b → hNumber (bHeader b) = Some h →
  0 ≤ sTbchain_height s → 0 < u64 (height2Reconfig s) →
  Pending MaxBlockSize h pool = Ret (txs, addrs, pool') →
  let db1 := foldl GetOrNewStateObject db addrs in
  solid db1 → (∃ a, Exist db1 a = true) →
  hashed_nodes GetHash (state_trie db1) → NoDup (nhash GetHash <$> subtrees (state_trie db1)) →
  (∀ a, a ∈ addrs → 0 ≤ GetBalance db1 a + sumZ (λ tx, delta tx a) txs) →
  ∃ s1 resp block msgs s2 db2, HandleComGetState addrs s = Ret (s1, resp) ∧
    commit GetHash EncodeToBytes DecodeBytes AppendUint64 EncodeIndex EmptyRootHash (λ _, resp)
      MaxBlockSize comID h timestamp pool = Ret (block, pool', msgs) ∧
    HandleComSendBlock block s1 = Ret s2 ∧
    currentBlock (blockchain s2) = Some block ∧ blocks (blockchain s2) = blocks (blockchain s) ++ [block] ∧
    hNumber (bHeader block) = Some (h + 1) ∧ statedb (blockchain s2) = Some db2 ∧
    (∀ a, a ∈ addrs → GetBalance db2 a = GetBalance db a + sumZ (λ tx, delta tx a) txs) ∧
    (∀ a, a ∉ addrs → GetBalance db2 a = GetBalance db a).
Proof.
  intros Hdb Hb Hh Htb Hrc HP db1 Hs Hx Hhn Hnd Hsol.
  destruct (HandleComGetState_ok addrs s db b h Hdb Hb Hh Hs Hx) as (resp & Hget & Hhon & Hdom & Hread).
  fold db1 in Hget, Hhon, Hread.
  assert (∀ a, a ∈ addrs → Exist db1 a = true) as Hex by (intros a Ha; apply fold_GetOrNew; by left).
  assert (wf_tree (state_trie db1) 64) as Hw by (destruct Hx as [x Hx]; by apply (state_trie_wf db1 x)).
  assert (canon (state_trie db1)) as Hcan by (destruct (state_trie_canon db1 Hs) as [E|]; [by rewrite E in Hw|done]).
  pose proof (Pending_related _ _ _ _ _ _ HP) as Hrel. apply getTxRelatedAddrs_Ret in Hrel as (_ & Hk & Haddrs).
  destruct (commit_ok GetHash EncodeToBytes DecodeBytes AppendUint64 EncodeIndex EmptyRootHash digest encodable
    (state_trie db1) (λ _, resp) MaxBlockSize comID h timestamp pool txs addrs pool')
    as (block & msgs & n' & a2s & st' & Hc & Ht & Hn & Hr & Hw' & Hcan' & Hnone & Hf & He & Hm & Hin & Hout); try done.
  { split_and!; [done..|]. intros a Ha. destruct (Hread a Ha) as (e & ? & ?). eauto. }
  { intros a e acct Ha He Hd. destruct (Hread a Ha) as (e' & He' & Hd'). simplify_eq. by apply Hsol. }
  { intros a a' Ha Ha'. apply Hs; auto. }
  destruct (block_state db1 a2s st' txs addrs ((λ tx, set_TXStatus (success_status tx) tx) <$> txs) Hs Hk Haddrs Hex Hnone)
    as (db2 & Hex2 & Hs2 & Hexd & Hst & Hsame & Hbal); try done.
  { intros a Ha. destruct (Hf a Ha) as (e & acct & He1 & Hd1 & Ha2). destruct (Hread a Ha) as (e' & He' & Hd'). by simplify_eq. }
  assert (n' = state_trie db2) as ->.
  { apply (roots_agree db1 db2 addrs); auto. intros a Ha. by rewrite Hin, Hst by done. }
  destruct (HandleComSendBlock_ok (set_state db1 s) db1 block db2) as (s2 & Hsend & Hcur & Hblocks & Hst2); try done.
  { by rewrite Ht, exec_marked. }
  { unfold IntermediateRoot. rewrite Hr. by destruct (state_trie db2). }
  exists (set_state db1 s), resp, block, msgs, s2, db2.
  assert (∀ a, GetBalance db1 a = GetBalance db a) as Hb1 by (intros a; apply fold_GetOrNew).
  split_and!; try done; intros a Ha; rewrite <-Hb1; [by apply Hbal|]. by injection (Hsame a Ha).
Qed.
End confirmed.
End shard.
Arguments Shard : clear implicits.

(** ** Witness: a state kept in a map, its trie built with [Trie.updates] *)
Module DemoShard.
Abbreviation SDB := (gmap bytes (Z * Z)).
Definition acct (s : SDB) (a : bytes) : Z * Z := default (0, 0) (s !! a).
#[global] Instance ops : StateDB SDB :=
  {| GetNonce s a := (acct s a).1; GetBalance s a := (acct s a).2;
     SetNonce s a n := <[a := (n, (acct s a).2)]> s;
     AddBalance s a v := <[a := ((acct s a).1, (acct s a).2 + v)]> s;
     SubBalance s a v := <[a := ((acct s a).1, (acct s a).2 + - v)]> s |}.
#[global] Instance laws : StateDBLaws SDB.
Proof.
  split; intros; simpl; unfold acct; rewrite lookup_insert; repeat case_decide; subst; simpl; done || lia.
Qed.

(** The updates that write the accounts into an empty trie. *)
Definition writes (s : SDB) : list (bytes * bytes) :=
  (λ p, (DemoTrie.toy_hash p.1, default [] (DemoTrie.toy_encode (mkStateAccount p.2.1 p.2.2 [] [])))) <$> map_to_list s.
#[global] Instance trie_ops : TrieState SDB :=
  {| GetOrNewStateObject s a := match s !! a with Some _ => s | None => <[a := (0, 0)]> s end;
     Exist s a := bool_decide (is_Some (s !! a));
     state_trie s := match updates (DB := no_store) (mkTrie NilNode 0) (writes s) with Ret t => root t | Halt _ => NilNode end |}.

Definition solid' : SDB → Prop := solid DemoTrie.toy_hash.

(** The trie of a state in order holds its accounts. *)
Lemma trie_entries s : solid' s → ∃ m, entries (state_trie s) m ∧
  (∀ a p, s !! a = Some p → m !! DemoTrie.toy_hash a = DemoTrie.toy_encode (mkStateAccount p.1 p.2 [] [])) ∧
  (∀ k v, m !! k = Some v → ∃ a, is_Some (s !! a) ∧ k = DemoTrie.toy_hash a).
Proof.
  intros [Hinj _]. destruct (updates_ok (DB := no_store) (writes s) (mkTrie NilNode 0) ∅) as (t & Ht & e & He & Hm).
  { exists NilNode. split; [constructor|apply entries_nil]. }
  { apply Forall_fmap, Forall_true. intros x. apply DemoTrie.toy_digest. }
  apply expands_no_store in He as <-. exists (foldl map_update ∅ (writes s)).
  unfold state_trie, trie_ops. rewrite Ht. split; [done|].
  assert (NoDup (writes s).*1) as Hnd.
  { unfold writes. rewrite <-list_fmap_compose. apply NoDup_fmap_2_strong; [|apply NoDup_map_to_list].
    intros [a p] [b p'] Ha%elem_of_map_to_list Hb%elem_of_map_to_list Hh. simpl in Hh.
    assert (a = b) as -> by (apply Hinj; simpl; rewrite ?bool_decide_eq_true; eauto). by simplify_eq. }
  assert (Forall (λ kv, kv.2 ≠ []) (writes s)) as Hne.
  { apply Forall_fmap, Forall_true. intros [a p].
    change (be_bytes 32 p.1 ++ be_bytes (S (Z.to_nat (Z.log2 p.2 / 8))) p.2 ≠ []).
    intros E%(f_equal length). rewrite length_app, length_be_bytes in E. done. }
  destruct (foldl_map_update (writes s) ∅ Hnd Hne) as [Hin Hout]. split.
  - intros a p Ha. apply (Hin _ (default [] (DemoTrie.toy_encode (mkStateAccount p.1 p.2 [] [])))).
    apply list_elem_of_fmap. exists (a, p). by rewrite elem_of_map_to_list.
  - intros k v Hk. destruct (decide (k ∈ (writes s).*1)) as [Hkin|Hkn].
    + unfold writes in Hkin. rewrite <-list_fmap_compose in Hkin.
      apply list_elem_of_fmap in Hkin as ([a p] & -> & Ha%elem_of_map_to_list). eauto.
    + rewrite Hout in Hk by done. by rewrite lookup_empty in Hk.
Qed.

Lemma exist_insert (s : SDB) a p b : bool_decide (is_Some (<[a := p]> s !! b)) = bool_decide (b = a) || bool_decide (is_Some (s !! b)).
Proof.
  rewrite lookup_insert. destruct (decide (a = b)) as [->|].
  - by rewrite (bool_decide_true (b = b)), bool_decide_true by eauto.
  - by rewrite (bool_decide_false (b = a)) by auto.
Qed.

#[global] Instance trie_laws : TrieStateLaws DemoTrie.toy_hash DemoTrie.toy_encode [] [].
Proof.
  split; try (intros s a n b; apply exist_insert).
  - intros s a b. simpl. destruct (s !! a) as [p|] eqn:E; [|apply exist_insert].
    destruct (decide (b = a)) as [->|]; [rewrite E; by rewrite !bool_decide_true by eauto|].
    by rewrite (bool_decide_false (b = a)).
  - intros s a b. simpl. destruct (s !! a) as [p|] eqn:E; [done|]. unfold acct. rewrite lookup_insert.
    destruct (decide (a = b)) as [->|]; [by rewrite E|done].
  - intros s a b. simpl. destruct (s !! a) as [p|] eqn:E; [done|]. unfold acct. rewrite lookup_insert.
    destruct (decide (a = b)) as [->|]; [by rewrite E|done].
  - intros s Hs. destruct (trie_entries s Hs) as (m & (Hsub & _) & _). exact Hsub.
  - intros s a Hs Ha. apply bool_decide_eq_true in Ha as [p Hp]. destruct (trie_entries s Hs) as (m & (_ & Hm & _) & Hin & _).
    rewrite Hm by apply DemoTrie.toy_digest. rewrite (Hin a p Hp). unfold account_of. simpl. unfold acct. by rewrite Hp.
  - intros s q w Hs Hq Hw. destruct (trie_entries s Hs) as (m & (_ & Hm & Hk) & _ & Hkeys).
    destruct (Hk q w Hq Hw) as (k & Hu & ->). rewrite Hm in Hw by done. destruct (Hkeys k w Hw) as (a & Ha & ->).
    exists a. split; [by apply bool_decide_eq_true|done].
  - intros s a Hs Ha. apply bool_decide_eq_true in Ha as [p Hp]. destruct (trie_entries s Hs) as (m & (Hsub & Hm & Hk) & Hin & Hkeys).
    destruct Hsub as [E|Hc].
    { pose proof (Hm (DemoTrie.toy_hash a)) as E'. rewrite E, (Hin a p Hp) in E'. by specialize (E' (proj1 (DemoTrie.toy_digest a))). }
    apply canon_wf_tree; [done|]. intros q w Hq Hw. destruct (Hk q w Hq Hw) as (k & Hu & ->). rewrite Hm in Hw by done.
    destruct (Hkeys k w Hw) as (b & _ & ->). unfold keybytesToHex. rewrite length_app, length_nibbles_of, (proj2 (DemoTrie.toy_digest b)). done.
Qed.

Lemma decode_encode nonce balance e :
  in_u64 nonce → 0 ≤ balance → DemoTrie.toy_encode (mkStateAccount nonce balance [] []) = Some e →
  DemoTrie.toy_decode e = Some (mkStateAccount nonce balance [] []).
Proof.
  intros Hn Hb He. unfold DemoTrie.toy_encode in He. cbn [aNonce Balance] in He. apply (inj Some) in He as <-.
  unfold DemoTrie.toy_decode.
  rewrite bool_decide_true by (rewrite length_app, !length_be_bytes; lia).
  rewrite take_app_length', drop_app_length' by (by rewrite length_be_bytes). rewrite !be_value_bytes.
  unfold in_u64 in Hn. rewrite (Z.mod_small nonce) by (split; [lia|]; eapply Z.lt_trans; [apply Hn|]; reflexivity).
  rewrite Z.mod_small; [done|]. split; [done|].
  destruct (decide (balance = 0)) as [->|]; [reflexivity|].
  apply Z.log2_lt_pow2; [lia|]. pose proof (Z.log2_nonneg balance). pose proof (Z.div_pos (Z.log2 balance) 8).
  rewrite Nat2Z.inj_succ, Z2Nat.id by lia. pose proof (Z.mod_pos_bound (Z.log2 balance) 8). pose proof (Z.div_mod (Z.log2 balance) 8). lia.
Qed.

(** A shard with two accounts. *)
Definition db : SDB := {[ [1] := (4, 100); [2] := (0, 7) ]}.
Definition head : Block :=
  mkBlock (mkHeader zero_hash (replicate 20 0) zero_hash zero_hash (Some 0) (Some 3) 0 zero_hash (replicate 8 0) 0) [] zero_hash None.
Definition shard : Shard SDB :=
  mkShard (mkNodeInfo 0 0 0 "a") (mkBlockChain (Some 0) (mkEthDB ∅ (λ _ _, None)) (Some db) [] (Some head) [head])
    [] ∅ ∅ 5 11 20.

Lemma fetched : foldl GetOrNewStateObject db DemoBlock.addrs = db.
Proof. vm_compute. reflexivity. Qed.
Lemma trie_is : state_trie db = DemoTrie.trie.
Proof. vm_compute. reflexivity. Qed.
Lemma db_two a : Exist db a = true → a = [1] ∨ a = [2].
Proof.
  intros [p Hp]%bool_decide_eq_true. unfold db in Hp. apply lookup_insert_Some in Hp as [[<- _]|[_ Hp]]; [auto|].
  apply lookup_singleton_Some in Hp as [<- _]. auto.
Qed.
Lemma db_solid : solid DemoTrie.toy_hash db.
Proof.
  split.
  - intros a b [->| ->]%db_two [->| ->]%db_two; try done; vm_compute; discriminate.
  - intros a [->| ->]%db_two; vm_compute; repeat split; discriminate.
Qed.
End DemoShard.

Lemma shard_confirms_block_witness :
  ∃ s1 resp block msgs s2 db2,
    HandleComGetState (MI := canonical_iter) DemoTrie.toy_hash DemoTrie.toy_encode [] [] DemoBlock.addrs DemoShard.shard = Ret (s1, resp) ∧
    commit (MI := canonical_iter) (TH := DemoBlock.hasher) DemoTrie.toy_hash DemoTrie.toy_encode DemoTrie.toy_decode
      (λ i, [i]) (λ tx, [ID tx]) [] (λ _, resp) 10 0 3 1700 DemoBlock.pool = Ret (block, NewTxPool, msgs) ∧
    HandleComSendBlock DemoTrie.toy_hash [] block s1 = Ret s2 ∧ currentBlock (blockchain s2) = Some block ∧
    statedb (blockchain s2) = Some db2 ∧ GetBalance db2 [1] = 95 ∧ GetBalance db2 [2] = 12.
Proof.
  destruct (shard_confirms_block (MI := canonical_iter) (TH := DemoBlock.hasher) DemoTrie.toy_hash DemoTrie.toy_encode [] []
    DemoTrie.toy_decode (λ i, [i]) (λ tx, [ID tx]) [] DemoTrie.toy_digest (λ a _, mk_is_Some _ _ eq_refl) DemoShard.decode_encode
    DemoShard.shard DemoShard.db DemoShard.head 3 10 0 1700 DemoBlock.pool [DemoBlock.tx] DemoBlock.addrs NewTxPool)
    as (s1 & resp & block & msgs & s2 & db2 & H1 & H2 & H3 & H4 & _ & _ & H5 & H6 & _).
  - reflexivity.
  - reflexivity.
  - reflexivity.
  - by vm_compute.
  - by vm_compute.
  - reflexivity.
  - rewrite DemoShard.fetched. apply DemoShard.db_solid.
  - exists [1]. rewrite DemoShard.fetched. reflexivity.
  - rewrite DemoShard.fetched, DemoShard.trie_is. apply DemoTrie.trie_hashed.
  - rewrite DemoShard.fetched, DemoShard.trie_is. apply DemoTrie.trie_distinct.
  - rewrite DemoShard.fetched. intros a [->| ->]%DemoBlock.addrs_two; vm_compute; discriminate.
  - exists s1, resp, block, msgs, s2, db2. split_and!; try assumption.
    + rewrite H6; [reflexivity|]. apply elem_of_map_iter_fst. eexists. reflexivity.
    + rewrite H6; [reflexivity|]. apply elem_of_map_iter_fst. eexists. reflexivity.
Defined.
