(* ===== verification/MessageHub.v ===== *)
(** * The message hub (src/messageHub, src/core/messageHub.go, src/core/msg.go)

    Every component sends through [GoodMessageHub.Send], which gob-encodes the
    message, packs it in a length-prefixed frame and writes it to a long-lived
    TCP connection of the connection table; [handleConnection] reads the frames
    of one incoming connection and hands each message to the component it is
    for.

    [encoding/gob] is the class [Gob]: one encoder and decoder per Go type that
    crosses the network ([kind] and [carrier]), the two of [core.Msg] among
    them; [GobLaws] says that what was encoded decodes to itself.  [net.Dial] is
    the oracle [dial_ok], the answer of a peer to a request is [answer].  A
    value of type [interface{}] is an [iface]: its dynamic type and the value. *)
From S2P Require Import Prelude Core Utils MultiSign Beacon Pbft MerkleProof Reconfig Block Committee ShardNode.
Local Open Scope Z_scope.

(** ** Message types *)
Module NetMsg.
Definition ShardSendGenesis : string := "ShardSendGenesis".
Definition BooterSendContract : string := "BooterSendContract".
Definition ComGetHeight : string := "ComGetHeight".
Definition ComGetState : string := "ComGetState".
Definition ShardSendState : string := "ShardSendState".
Definition ClientSendTx : string := "ClientSendTx".
Definition ClientSetInjectDone : string := "ClientSetInjectDone".
Definition ComSendTxReceipt : string := "ComSendTxReceipt".
Definition ComSendBlock : string := "ComSendBlock".
Definition LeaderInitMultiSign : string := "LeaderInitMultiSign".
Definition MultiSignReply : string := "MultiSignReply".
Definition LeaderInitReconfig : string := "LeaderInitReconfig".
Definition SendReconfigResult2ComLeader : string := "SendReconfigResult2ComLeader".
Definition SendReconfigResults2AllComLeaders : string := "SendReconfigResults2AllComLeaders".
Definition SendReconfigResults2ComNodes : string := "SendReconfigResults2ComNodes".
Definition GetPoolTx : string := "GetPoolTx".
Definition GetSyncData : string := "GetSyncData".
Definition SendNewNodeTable2Client : string := "SendNewNodeTable2Client".
Definition CPrePrepare : string := "CPrePrepare".
Definition CPrepare : string := "CPrepare".
Definition CCommit : string := "CCommit".
Definition CReply : string := "CReply".
Definition CRequestOldrequest : string := "CRequestOldrequest".
Definition CSendOldrequest : string := "CSendOldrequest".
Definition NodeSendInfo : string := "NodeSendInfo".
Definition ReportError : string := "ReportError".
Definition ReportAny : string := "ReportAny".
End NetMsg.

(** The constants of [core/messageHub.go], numbered by [iota]. *)
Definition MsgTypeNone : Z := 0.
Definition MsgTypeComGetHeightFromShard : Z := 1.
Definition MsgTypeComGetStateFromShard : Z := 2.
Definition MsgTypeShardSendStateToCom : Z := 3.
Definition MsgTypeShardSendGenesis : Z := 4.
Definition MsgTypeBooterSendContract : Z := 5.
Definition MsgTypeClientInjectTX2Committee : Z := 6.
Definition MsgTypeCommitteeReply2Client : Z := 7.
Definition MsgTypeSetInjectDone2Nodes : Z := 8.
Definition MsgTypeComAddTb2TBChain : Z := 9.
Definition MsgTypeComSendNewAddrs : Z := 10.
Definition MsgTypeGetTB : Z := 11.
Definition MsgTypeSendBlock2Shard : Z := 12.
Definition MsgTypeReady4Reconfig : Z := 13.
Definition MsgTypeTBChainPushTB2Client : Z := 14.
Definition MsgTypeTBChainPushTB2Coms : Z := 15.
Definition MsgTypeGetLatestBlockHashFromEthChain : Z := 16.
Definition MsgTypeGetBlockHashFromEthChain : Z := 17.
Definition MsgTypeLeaderInitMultiSign : Z := 18.
Definition MsgTypeSendMultiSignReply : Z := 19.
Definition MsgTypeLeaderInitReconfig : Z := 20.
Definition MsgTypeSendReconfigResult2ComLeader : Z := 21.
Definition MsgTypeSendReconfigResults2AllComLeaders : Z := 22.
Definition MsgTypeSendReconfigResults2ComNodes : Z := 23.
Definition MsgTypeGetPoolTx : Z := 24.
Definition MsgTypeGetSyncData : Z := 25.
Definition MsgTypeShardSendFastSyncData : Z := 26.
Definition MsgTypeSendNewNodeTable2Client : Z := 27.
Definition MsgTypePbftPropose : Z := 28.
Definition MsgTypePbftPrePrepare : Z := 29.
Definition MsgTypePbftPrepare : Z := 30.
Definition MsgTypePbftCommit : Z := 31.
Definition MsgTypePbftReply : Z := 32.
Definition MsgTypePbftRequestOldMessage : Z := 33.
Definition MsgTypePbftSendOldMessage : Z := 34.
Definition MsgTypeNodeSendInfo2Leader : Z := 35.
Definition MsgTypeClearConnection : Z := 36.
Definition MsgTypeReportError : Z := 37.
Definition MsgTypeReportAny : Z := 38.

(** ** Messages of [core/msg.go] that no other component declares *)
Record CoreMsg := mkMsg { mMsgType : string; mData : bytes }.
Record HeightRequest := mkHeightRequest { ghFrom_comID : Z; ghTarget_shardID : Z }.
Record StateRequest := mkStateRequest { gsFrom_comID : Z; gsTarget_shardID : Z; gsAddrList : list bytes }.
Record NodeInfoMsg := mkNodeInfoMsg { nsInfo : NodeInfo; nsAddr : bytes }.
Record GenesisMsg := mkGenesisMsg { gmData : ShardSendGenesis; Target_nodeAddr : string }.
Record AdjustAddrs := mkAdjustAddrs {
  aaComID : Z; aaAddrs : list bytes; aaVrfs : list bytes; aaSeedHeight : Z }.
Record PoolRequest := mkPoolRequest { prServerAddr : string; prClientAddr : string; prRequestComID : Z }.
Record SyncRequest := mkSyncRequest {
  srServerAddr : string; srClientAddr : string; srShardID : Z; srSyncType : string }.
Record SyncReply := mkSyncReply { syClientAddr : string; syData : SyncData }.
Record ErrReport := mkErrReport { erNodeAddr : string; erErr : string }.
Abbreviation node_table := (gmap Z (gmap Z string)).

(** ** Go types that travel as [interface{}] *)
Inductive kind :=
  | KTransactions | KReceipts | KInjectDone | KGetHeight | KGetState | KSendState | KGenesis | KContract
  | KBlock | KInitMultiSign | KMultiSignReply | KInitReconfig | KResult | KComResults | KAllResults
  | KGetPool | KGetSync | KTable | KPrePrepare | KPrepare | KCommit | KReply | KRequestOld | KSendOld
  | KNodeSendInfo | KErrReport | KString
  | KHeight | KPoolTx | KSyncData
  | KSignedTB | KTBBlock | KAdjustAddrs | KUint64 | KNodeInfo | KNil.
#[global] Instance kind_eq_dec : EqDecision kind.
Proof. solve_decision. Defined.

Definition carrier (k : kind) : Type :=
  match k with
  | KTransactions => list Transaction
  | KReceipts => list TXReceipt
  | KInjectDone => Z
  | KGetHeight => HeightRequest
  | KGetState => StateRequest
  | KSendState => ShardSendState
  | KGenesis => GenesisMsg
  | KContract => bytes
  | KBlock => Block
  | KInitMultiSign => ComLeaderInitMultiSign
  | KMultiSignReply => MultiSignReply
  | KInitReconfig => InitReconfig
  | KResult => ReconfigResult
  | KComResults => ComReconfigResults
  | KAllResults => gmap Z ComReconfigResults
  | KGetPool => PoolRequest
  | KGetSync => SyncRequest
  | KTable => node_table
  | KPrePrepare => PrePrepare
  | KPrepare => Prepare
  | KCommit => Commit
  | KReply => Reply
  | KRequestOld => RequestOldMessage
  | KSendOld => SendOldMessage
  | KNodeSendInfo => NodeInfoMsg
  | KErrReport => ErrReport
  | KString => string
  | KHeight => Z
  | KPoolTx => PoolTx
  | KSyncData => SyncReply
  | KSignedTB => SignedTB
  | KTBBlock => TBBlock
  | KAdjustAddrs => AdjustAddrs
  | KUint64 => Z
  | KNodeInfo => NodeInfo
  | KNil => unit
  end%type.

Inductive iface := Iface (k : kind) (v : carrier k).

(** A type assertion [msg.( *T )] *)
Definition assert_type (k : kind) (i : iface) : go (carrier k) :=
  match i with
  | Iface k' v => match decide (k' = k) with
                  | left e => Ret (eq_rect k' carrier v k e)
                  | right _ => Halt (GoPanic "interface conversion")
                  end
  end.

Lemma assert_type_ok k (v : carrier k) : assert_type k (Iface k v) = Ret v.
Proof.
  unfold assert_type. destruct (decide (k = k)) as [e|]; [|done].
  by rewrite (proof_irrel e eq_refl).
Qed.

(** ** [encoding/gob] *)
Class Gob := {
  gob_encode : ∀ k, carrier k → option bytes;
  gob_decode : ∀ k, bytes → option (carrier k);
  msg_encode : CoreMsg → option bytes;
  msg_decode : bytes → option CoreMsg
}.
Class GobLaws `{Gob} := {
  gob_roundtrip : ∀ k v b, gob_encode k v = Some b → gob_decode k b = Some v;
  msg_roundtrip : ∀ m b, msg_encode m = Some b → msg_decode b = Some m
}.

Section framing.
Context `{G : Gob}.

Definition encode_data (k : kind) (v : carrier k) : go bytes := or_exit "gobEncodeErr" (gob_encode k v).
Definition decode_data (k : kind) (b : bytes) : go (carrier k) := or_exit "decodeDataErr" (gob_decode k b).

(** The length prefix, which also frames the answers to requests. *)
Definition frame (msgBytes : bytes) : bytes := be_bytes 4 (u32 (len msgBytes)) ++ msgBytes.
Definition packMsg (msgType : string) (data : bytes) : go bytes :=
  msgBytes ← or_exit "gobEncodeErr" (msg_encode (mkMsg msgType data));
  Ret (frame msgBytes).
Definition unpackMsg (packedMsg : bytes) : go CoreMsg := or_exit "unpackMsgErr" (msg_decode packedMsg).

(** [io.ReadFull] on what is left of a stream. *)
Definition read_full (n : Z) (stream : bytes) : option (bytes * bytes) :=
  if bool_decide (n ≤ len stream)
  then Some (take (Z.to_nat n) stream, drop (Z.to_nat n) stream) else None.

(** What a sender hands to [conn.Write]. *)
Definition frame_of (msgType : string) (k : kind) (msg : iface) : go bytes :=
  data ← assert_type k msg;
  buf ← encode_data k data;
  packMsg msgType buf.

Lemma read_full_app a s n : n = len a → read_full n (a ++ s) = Some (a, s).
Proof.
  intros ->. unfold read_full. rewrite bool_decide_eq_true_2 by (rewrite len_app; pose proof (len_nonneg s); lia).
  unfold len. by rewrite Nat2Z.id, take_app_length, drop_app_length.
Qed.
Lemma read_full_frame msgBytes s :
  len msgBytes < 2^32 →
  ∃ h, read_full 4 (frame msgBytes ++ s) = Some (h, msgBytes ++ s) ∧ be_value h = len msgBytes.
Proof.
  intros Hlen. exists (be_bytes 4 (u32 (len msgBytes))). unfold frame. rewrite <-app_assoc. split.
  - apply read_full_app. unfold len. by rewrite length_be_bytes.
  - rewrite be_value_bytes. pose proof (len_nonneg msgBytes). rewrite u32_small by (unfold in_u32; lia). apply Z.mod_small. simpl. lia.
Qed.
End framing.

(** ** Receiving

    [call]: what the hub calls on a component of its process. *)
Inductive call :=
  | Committee_HandleClientSendtx (txs : list Transaction)
  | Committee_SetInjectTXDone (cid : Z)
  | Shard_HandleComGetState (d : StateRequest)
  | Committee_HandleShardSendState (d : ShardSendState)
  | Node_HandleBooterSendContract (addr : bytes)
  | Client_HandleBooterSendContract (addr : bytes)
  | TbChain_HandleBooterSendContract (addr : bytes)
  | Shard_HandleComSendBlock (b : Block)
  | Committee_HandleMultiSignRequest (d : ComLeaderInitMultiSign)
  | Committee_HandleMultiSignReply (d : MultiSignReply)
  | Client_HandleComSendTxReceipt (rs : list TXReceipt)
  | Node_HandleLeaderInitReconfig (d : InitReconfig)
  | Node_HandleSendReconfigResult2ComLeader (d : ReconfigResult)
  | Node_HandleSendReconfigResults2AllComLeaders (d : ComReconfigResults)
  | Node_HandleSendReconfigResults2ComNodes (d : gmap Z ComReconfigResults)
  | Pbft_HandlePrePrepare (d : PrePrepare)
  | Pbft_HandlePrepare (d : Prepare)
  | Pbft_HandleCommit (d : Commit)
  | Pbft_HandleReply (d : Reply)
  | Pbft_HandleRequestOldSeq (d : RequestOldMessage)
  | Pbft_HandleSendOldSeq (d : SendOldMessage)
  | Node_HandleNodeSendInfo (d : NodeInfoMsg).

(** The components of a process: its state, what a handler does to it, and the
    handlers whose result the hub uses.  [node_ref] and [client_ref] say which
    roles the process has. *)
Class Components (S : Type) := {
  component_call : S → call → go S;
  booter_HandleShardSendGenesis : S → GenesisMsg → go (S * bool);
  shard_HandleComGetHeight : S → HeightRequest → go (S * Z);
  committee_HandleGetPoolTx : S → PoolRequest → go (S * PoolTx);
  shard_HandleGetSyncData : S → SyncRequest → go (S * SyncReply);
  node_ref : bool;
  client_ref : bool
}.

Section receive.
Context `{G : Gob} {S : Type} `{C : Components S}.

(** A process that serves a connection: its components, its committee table
    ([cfg.ComNodeTable]), the goroutines it has started, what it has written
    back, and whether its listener is closed. *)
Record served := mkServed {
  sState : S;
  sTable : node_table;
  sSpawned : list (S → go S);
  sReplies : bytes;
  sClosed : bool
}.
Definition with_state (st : served) (s : S) : served :=
  mkServed s (sTable st) (sSpawned st) (sReplies st) (sClosed st).
Definition spawn (f : S → go S) (st : served) : served :=
  mkServed (sState st) (sTable st) (sSpawned st ++ [f]) (sReplies st) (sClosed st).
Definition write_reply (b : bytes) (st : served) : served :=
  mkServed (sState st) (sTable st) (sSpawned st) (sReplies st ++ b) (sClosed st).
Definition set_table (t : node_table) (st : served) : served :=
  mkServed (sState st) t (sSpawned st) (sReplies st) (sClosed st).
Definition close_listener (st : served) : served :=
  mkServed (sState st) (sTable st) (sSpawned st) (sReplies st) true.

Definition handleClientSendTx (dataBytes : bytes) (s : S) : go S :=
  data ← decode_data KTransactions dataBytes;
  component_call s (Committee_HandleClientSendtx data).
Definition handleClientSetInjectDone (dataBytes : bytes) (s : S) : go S :=
  cid ← decode_data KInjectDone dataBytes;
  component_call s (Committee_SetInjectTXDone cid).
Definition handleComGetHeight (dataBytes : bytes) (st : served) : go served :=
  data ← decode_data KGetHeight dataBytes;
  '(s, height) ← shard_HandleComGetHeight (sState st) data;
  msgBytes ← encode_data KHeight height;
  Ret (write_reply (frame msgBytes) (with_state st s)).
Definition handleComGetState (dataBytes : bytes) (s : S) : go S :=
  data ← decode_data KGetState dataBytes;
  component_call s (Shard_HandleComGetState data).
Definition handleShardSendState (dataBytes : bytes) (s : S) : go S :=
  data ← decode_data KSendState dataBytes;
  component_call s (Committee_HandleShardSendState data).
Definition handleBooterSendContract (dataBytes : bytes) (s : S) : go S :=
  data ← decode_data KContract dataBytes;
  s ← (if node_ref then component_call s (Node_HandleBooterSendContract data) else Ret s);
  s ← (if client_ref then component_call s (Client_HandleBooterSendContract data) else Ret s);
  component_call s (TbChain_HandleBooterSendContract data).
Definition handleComSendBlock (dataBytes : bytes) (s : S) : go S :=
  data ← decode_data KBlock dataBytes;
  component_call s (Shard_HandleComSendBlock data).
Definition handleLeaderInitMultiSign (dataBytes : bytes) (s : S) : go S :=
  data ← decode_data KInitMultiSign dataBytes;
  component_call s (Committee_HandleMultiSignRequest data).
Definition handleMultiSignReply (dataBytes : bytes) (s : S) : go S :=
  data ← decode_data KMultiSignReply dataBytes;
  component_call s (Committee_HandleMultiSignReply data).
(** The log line reads [data[0]]. *)
Definition handleComSendTxReceipt (dataBytes : bytes) (s : S) : go S :=
  data ← decode_data KReceipts dataBytes;
  _ ← go_index data 0;
  component_call s (Client_HandleComSendTxReceipt data).
Definition handleShardSendGenesis (dataBytes : bytes) (s : S) : go (S * bool) :=
  data ← decode_data KGenesis dataBytes;
  booter_HandleShardSendGenesis s data.
Definition handlePbftMsg (dataBytes : bytes) (dataType : string) (s : S) : go S :=
  if bool_decide (dataType = NetMsg.CPrePrepare) then
    data ← decode_data KPrePrepare dataBytes; component_call s (Pbft_HandlePrePrepare data)
  else if bool_decide (dataType = NetMsg.CPrepare) then
    data ← decode_data KPrepare dataBytes; component_call s (Pbft_HandlePrepare data)
  else if bool_decide (dataType = NetMsg.CCommit) then
    data ← decode_data KCommit dataBytes; component_call s (Pbft_HandleCommit data)
  else if bool_decide (dataType = NetMsg.CReply) then
    data ← decode_data KReply dataBytes; component_call s (Pbft_HandleReply data)
  else if bool_decide (dataType = NetMsg.CRequestOldrequest) then
    data ← decode_data KRequestOld dataBytes; component_call s (Pbft_HandleRequestOldSeq data)
  else if bool_decide (dataType = NetMsg.CSendOldrequest) then
    data ← decode_data KSendOld dataBytes; component_call s (Pbft_HandleSendOldSeq data)
  else Ret s.
Definition handleNodeSendInfo (dataBytes : bytes) (s : S) : go S :=
  data ← decode_data KNodeSendInfo dataBytes;
  component_call s (Node_HandleNodeSendInfo data).
Definition handleLeaderInitReconfig (dataBytes : bytes) (s : S) : go S :=
  data ← decode_data KInitReconfig dataBytes;
  component_call s (Node_HandleLeaderInitReconfig data).
Definition handleSendReconfigResult2ComLeader (dataBytes : bytes) (s : S) : go S :=
  data ← decode_data KResult dataBytes;
  component_call s (Node_HandleSendReconfigResult2ComLeader data).
Definition handleSendReconfigResults2AllComLeaders (dataBytes : bytes) (s : S) : go S :=
  data ← decode_data KComResults dataBytes;
  component_call s (Node_HandleSendReconfigResults2AllComLeaders data).
Definition handleSendReconfigResults2ComNodes (dataBytes : bytes) (s : S) : go S :=
  data ← decode_data KAllResults dataBytes;
  component_call s (Node_HandleSendReconfigResults2ComNodes data).
Definition handleGetPoolTx (dataBytes : bytes) (st : served) : go served :=
  data ← decode_data KGetPool dataBytes;
  '(s, poolTx) ← committee_HandleGetPoolTx (sState st) data;
  msgBytes ← encode_data KPoolTx poolTx;
  Ret (write_reply (frame msgBytes) (with_state st s)).
Definition handleGetSyncData (dataBytes : bytes) (st : served) : go served :=
  data ← decode_data KGetSync dataBytes;
  '(s, syncData) ← shard_HandleGetSyncData (sState st) data;
  msgBytes ← encode_data KSyncData syncData;
  Ret (write_reply (frame msgBytes) (with_state st s)).
Definition handleSendNewNodeTable2Client (dataBytes : bytes) (st : served) : go served :=
  data ← decode_data KTable dataBytes;
  if bool_decide (sTable st = data) then Ret st else Ret (set_table data st).
Definition handleReportErr (dataBytes : bytes) (st : served) : go served :=
  _ ← decode_data KErrReport dataBytes;
  Halt (LogError "got err report.").
Definition handleReportAny (dataBytes : bytes) (st : served) : go served :=
  _ ← decode_data KString dataBytes;
  Ret st.

(** The [switch] of [handleConnection]: [true] ends the loop. *)
Definition synchronous (f : S → go S) (st : served) : go (served * bool) :=
  s ← f (sState st); Ret (with_state st s, false).
Definition asynchronous (f : S → go S) (st : served) : go (served * bool) := Ret (spawn f st, false).
Definition on_connection (f : served → go served) (st : served) : go (served * bool) :=
  st ← f st; Ret (st, false).
Definition dispatch (msg : CoreMsg) (st : served) : go (served * bool) :=
  let t := mMsgType msg in
  let d := mData msg in
  if bool_decide (t = NetMsg.ShardSendGenesis) then
    '(s, exit) ← handleShardSendGenesis d (sState st);
    let st := with_state st s in
    if (exit : bool) then Ret (close_listener st, true) else Ret (st, false)
  else if bool_decide (t = NetMsg.BooterSendContract) then synchronous (handleBooterSendContract d) st
  else if bool_decide (t = NetMsg.ComGetHeight) then on_connection (handleComGetHeight d) st
  else if bool_decide (t = NetMsg.ComGetState) then asynchronous (handleComGetState d) st
  else if bool_decide (t = NetMsg.ShardSendState) then asynchronous (handleShardSendState d) st
  else if bool_decide (t = NetMsg.ClientSendTx) then asynchronous (handleClientSendTx d) st
  else if bool_decide (t = NetMsg.ClientSetInjectDone) then synchronous (handleClientSetInjectDone d) st
  else if bool_decide (t = NetMsg.ComSendTxReceipt) then asynchronous (handleComSendTxReceipt d) st
  else if bool_decide (t = NetMsg.ComSendBlock) then asynchronous (handleComSendBlock d) st
  else if bool_decide (t = NetMsg.LeaderInitMultiSign) then synchronous (handleLeaderInitMultiSign d) st
  else if bool_decide (t = NetMsg.MultiSignReply) then synchronous (handleMultiSignReply d) st
  else if bool_decide (t = NetMsg.LeaderInitReconfig) then synchronous (handleLeaderInitReconfig d) st
  else if bool_decide (t = NetMsg.SendReconfigResult2ComLeader)
    then synchronous (handleSendReconfigResult2ComLeader d) st
  else if bool_decide (t = NetMsg.SendReconfigResults2AllComLeaders)
    then synchronous (handleSendReconfigResults2AllComLeaders d) st
  else if bool_decide (t = NetMsg.SendReconfigResults2ComNodes)
    then synchronous (handleSendReconfigResults2ComNodes d) st
  else if bool_decide (t = NetMsg.GetPoolTx) then on_connection (handleGetPoolTx d) st
  else if bool_decide (t = NetMsg.GetSyncData) then on_connection (handleGetSyncData d) st
  else if bool_decide (t = NetMsg.SendNewNodeTable2Client)
    then on_connection (handleSendNewNodeTable2Client d) st
  else if bool_decide (t ∈ [NetMsg.CPrePrepare; NetMsg.CPrepare; NetMsg.CCommit; NetMsg.CReply;
                            NetMsg.CRequestOldrequest; NetMsg.CSendOldrequest])
    then asynchronous (handlePbftMsg d t) st
  else if bool_decide (t = NetMsg.NodeSendInfo) then synchronous (handleNodeSendInfo d) st
  else if bool_decide (t = NetMsg.ReportError) then on_connection (handleReportErr d) st
  else if bool_decide (t = NetMsg.ReportAny) then on_connection (handleReportAny d) st
  else Halt (LogError "Unknown message type received").

(** The loop of [handleConnection] on the bytes the peer writes before it
    closes the connection.  Every turn reads at least the four bytes of a
    length, so [length stream] turns are enough: [receive_loop_fuel]. *)
Fixpoint receive_loop (fuel : nat) (st : served) (stream : bytes) : go served :=
  match read_full 4 stream with
  | None => Ret st
  | Some (lenBuf, rest) =>
    '(packedMsg, rest) ← or_exit "Error reading from connection" (read_full (be_value lenBuf) rest);
    msg ← unpackMsg packedMsg;
    '(st, stop) ← dispatch msg st;
    if (stop : bool) then Ret st
    else match fuel with
         | O => Halt (Blocked "out of fuel")
         | Datatypes.S fuel => receive_loop fuel st rest
         end
  end.
Definition handleConnection (st : served) (stream : bytes) : go served :=
  receive_loop (length stream) st stream.

(** *** What arrives

    The type string each kind of message travels under, and the effect of a
    message on its receiver, stated on the value that was sent. *)
Definition wire_type (k : kind) : option string :=
  match k with
  | KTransactions => Some NetMsg.ClientSendTx
  | KReceipts => Some NetMsg.ComSendTxReceipt
  | KInjectDone => Some NetMsg.ClientSetInjectDone
  | KGetHeight => Some NetMsg.ComGetHeight
  | KGetState => Some NetMsg.ComGetState
  | KSendState => Some NetMsg.ShardSendState
  | KGenesis => Some NetMsg.ShardSendGenesis
  | KContract => Some NetMsg.BooterSendContract
  | KBlock => Some NetMsg.ComSendBlock
  | KInitMultiSign => Some NetMsg.LeaderInitMultiSign
  | KMultiSignReply => Some NetMsg.MultiSignReply
  | KInitReconfig => Some NetMsg.LeaderInitReconfig
  | KResult => Some NetMsg.SendReconfigResult2ComLeader
  | KComResults => Some NetMsg.SendReconfigResults2AllComLeaders
  | KAllResults => Some NetMsg.SendReconfigResults2ComNodes
  | KGetPool => Some NetMsg.GetPoolTx
  | KGetSync => Some NetMsg.GetSyncData
  | KTable => Some NetMsg.SendNewNodeTable2Client
  | KPrePrepare => Some NetMsg.CPrePrepare
  | KPrepare => Some NetMsg.CPrepare
  | KCommit => Some NetMsg.CCommit
  | KReply => Some NetMsg.CReply
  | KRequestOld => Some NetMsg.CRequestOldrequest
  | KSendOld => Some NetMsg.CSendOldrequest
  | KNodeSendInfo => Some NetMsg.NodeSendInfo
  | KErrReport => Some NetMsg.ReportError
  | KString => Some NetMsg.ReportAny
  | _ => None
  end.

Definition run_now (c : call) (st : served) : go (served * bool) :=
  s ← component_call (sState st) c; Ret (with_state st s, false).
Definition run_later (c : call) (st : served) : go (served * bool) :=
  Ret (spawn (λ s, component_call s c) st, false).
Definition answer_with {A} (k : kind) (f : S → A → go (S * carrier k)) (q : A) (st : served) :
    go (served * bool) :=
  '(s, a) ← f (sState st) q;
  msgBytes ← encode_data k a;
  Ret (write_reply (frame msgBytes) (with_state st s), false).
Definition receive (i : iface) (st : served) : go (served * bool) :=
  match i with
  | Iface k v =>
    match k return carrier k → go (served * bool) with
    | KTransactions => λ v, run_later (Committee_HandleClientSendtx v) st
    | KReceipts => λ v, Ret (spawn (λ s, match v with
                                         | [] => Halt (GoPanic "index out of range")
                                         | _ => component_call s (Client_HandleComSendTxReceipt v)
                                         end) st, false)
    | KInjectDone => λ v, run_now (Committee_SetInjectTXDone v) st
    | KGetHeight => λ v, answer_with KHeight shard_HandleComGetHeight v st
    | KGetState => λ v, run_later (Shard_HandleComGetState v) st
    | KSendState => λ v, run_later (Committee_HandleShardSendState v) st
    | KGenesis => λ v,
        '(s, exit) ← booter_HandleShardSendGenesis (sState st) v;
        Ret (if (exit : bool) then close_listener (with_state st s) else with_state st s, exit)
    | KContract => λ v,
        '(st, _) ← (if node_ref then run_now (Node_HandleBooterSendContract v) st else Ret (st, false));
        '(st, _) ← (if client_ref then run_now (Client_HandleBooterSendContract v) st else Ret (st, false));
        run_now (TbChain_HandleBooterSendContract v) st
    | KBlock => λ v, run_later (Shard_HandleComSendBlock v) st
    | KInitMultiSign => λ v, run_now (Committee_HandleMultiSignRequest v) st
    | KMultiSignReply => λ v, run_now (Committee_HandleMultiSignReply v) st
    | KInitReconfig => λ v, run_now (Node_HandleLeaderInitReconfig v) st
    | KResult => λ v, run_now (Node_HandleSendReconfigResult2ComLeader v) st
    | KComResults => λ v, run_now (Node_HandleSendReconfigResults2AllComLeaders v) st
    | KAllResults => λ v, run_now (Node_HandleSendReconfigResults2ComNodes v) st
    | KGetPool => λ v, answer_with KPoolTx committee_HandleGetPoolTx v st
    | KGetSync => λ v, answer_with KSyncData shard_HandleGetSyncData v st
    | KTable => λ v, Ret (set_table v st, false)
    | KPrePrepare => λ v, run_later (Pbft_HandlePrePrepare v) st
    | KPrepare => λ v, run_later (Pbft_HandlePrepare v) st
    | KCommit => λ v, run_later (Pbft_HandleCommit v) st
    | KReply => λ v, run_later (Pbft_HandleReply v) st
    | KRequestOld => λ v, run_later (Pbft_HandleRequestOldSeq v) st
    | KSendOld => λ v, run_later (Pbft_HandleSendOldSeq v) st
    | KNodeSendInfo => λ v, run_now (Node_HandleNodeSendInfo v) st
    | KErrReport => λ v, Halt (LogError "got err report.")
    | KString => λ v, Ret (st, false)
    | _ => λ v, Halt (LogError "Unknown message type received")
    end v
  end.
Fixpoint receive_all (st : served) (ms : list iface) : go served :=
  match ms with
  | [] => Ret st
  | m :: ms => '(st, stop) ← receive m st; if (stop : bool) then Ret st else receive_all st ms
  end.

(** The frame a message travels in. *)
Definition network_frame (i : iface) : go bytes :=
  match i with
  | Iface k v => t ← or_exit "not a network message" (wire_type k); frame_of t k i
  end.
(** The gob message fits the four bytes of its length. *)
Definition fits (i : iface) : Prop :=
  match i with
  | Iface k v => ∀ t d b, wire_type k = Some t → gob_encode k v = Some d →
                          msg_encode (mkMsg t d) = Some b → len b < 2^32
  end.

Lemma set_table_same st : set_table (sTable st) st = st.
Proof. by destruct st. Qed.

(** The dispatcher gives the sender's value to the handler of its type. *)
Lemma dispatch_receive k v t d st :
  wire_type k = Some t → gob_decode k d = Some v →
  dispatch (mkMsg t d) st = receive (Iface k v) st.
Proof.
  intros Ht Hd. destruct k; simplify_eq/=; try done; unfold dispatch; simpl;
    cbv [synchronous asynchronous on_connection run_now run_later answer_with
         handleClientSendTx handleClientSetInjectDone handleComGetHeight handleComGetState handleShardSendState
         handleBooterSendContract handleComSendBlock handleLeaderInitMultiSign handleMultiSignReply
         handleComSendTxReceipt handleShardSendGenesis handleNodeSendInfo handleLeaderInitReconfig
         handleSendReconfigResult2ComLeader handleSendReconfigResults2AllComLeaders
         handleSendReconfigResults2ComNodes handleGetPoolTx handleGetSyncData handleSendNewNodeTable2Client
         handleReportErr handleReportAny handlePbftMsg decode_data]; simpl; rewrite Hd; simpl; try done.
  - by destruct v.
  - by destruct (shard_HandleComGetHeight _ _) as [[? h]|]; simpl; [destruct (encode_data KHeight h)|].
  - by destruct (booter_HandleShardSendGenesis _ _) as [[? []]|].
  - destruct node_ref; [destruct (component_call (sState st) _) as [s|]; [|done]|]; simpl;
      (destruct client_ref; [destruct (component_call _ (Client_HandleBooterSendContract v)); [|done]|]); simpl;
      by destruct (component_call _ _).
  - by destruct (committee_HandleGetPoolTx _ _) as [[? h]|]; simpl; [destruct (encode_data KPoolTx h)|].
  - by destruct (shard_HandleGetSyncData _ _) as [[? h]|]; simpl; [destruct (encode_data KSyncData h)|].
  - case_bool_decide; simplify_eq/=; by rewrite ?set_table_same.
Qed.

Context `{GL : !GobLaws}.

Lemma network_frame_Ret i f :
  network_frame i = Ret f → fits i →
  ∃ b m, f = frame b ∧ len b < 2^32 ∧ unpackMsg b = Ret m ∧ ∀ st, dispatch m st = receive i st.
Proof.
  destruct i as [k v]. unfold network_frame, frame_of, packMsg. intros Hf Hfit.
  apply go_bind_Ret in Hf as (t & Ht%or_exit_Ret & Hf). rewrite assert_type_ok in Hf. simpl in Hf.
  apply go_bind_Ret in Hf as (d & Hd%or_exit_Ret & Hf).
  apply go_bind_Ret in Hf as (b & Hb%or_exit_Ret & Hf). simplify_eq.
  exists b, (mkMsg t d). split_and!; [done|by eapply Hfit| |].
  - unfold unpackMsg. by rewrite (msg_roundtrip _ _ Hb).
  - intros st. by apply dispatch_receive, gob_roundtrip.
Qed.

Lemma receive_loop_frames fuel st ms frames :
  Forall2 (λ i f, network_frame i = Ret f) ms frames → Forall fits ms →
  (length ms ≤ fuel)%nat →
  receive_loop fuel st (mjoin frames) = receive_all st ms.
Proof.
  intros Hms. revert fuel st. induction Hms as [|i f ms frames Hi Hms IH]; intros fuel st Hfit Hfuel.
  { by destruct fuel. }
  inversion_clear Hfit as [|?? Hfi Hfits]. destruct (network_frame_Ret _ _ Hi Hfi) as (b & m & -> & Hlen & Hm & Hd).
  destruct (read_full_frame b (mjoin frames) Hlen) as (h & Hh & Hv).
  destruct fuel as [|fuel]; [simpl in Hfuel; lia|].
  change (mjoin (frame b :: frames)) with (frame b ++ mjoin frames).
  cbn [receive_loop receive_all]. rewrite Hh, Hv, read_full_app by done. cbn. rewrite Hm. cbn. rewrite Hd.
  destruct (receive i st) as [[st' [|]]|]; cbn; try done. apply IH; [done|simpl in Hfuel; lia].
Qed.

Lemma length_frame b : (4 ≤ length (frame b))%nat.
Proof. unfold frame. rewrite length_app, length_be_bytes. lia. Qed.
Lemma frames_fuel ms frames :
  Forall2 (λ i f, network_frame i = Ret f) ms frames → Forall fits ms →
  (length ms ≤ length (mjoin frames))%nat.
Proof.
  induction 1 as [|i f ms frames Hi Hms IH]; intros Hfit; [done|]. inversion_clear Hfit as [|?? Hfi Hfits].
  destruct (network_frame_Ret _ _ Hi Hfi) as (b & m & -> & _).
  change (mjoin (frame b :: frames)) with (frame b ++ mjoin frames).
  rewrite length_app. pose proof (length_frame b). specialize (IH Hfits). simpl. lia.
Qed.

(** A stream of whole frames is the sequence of its messages. *)
Lemma handleConnection_frames st ms frames :
  Forall2 (λ i f, network_frame i = Ret f) ms frames → Forall fits ms →
  handleConnection st (mjoin frames) = receive_all st ms.
Proof. intros Hms Hfit. apply receive_loop_frames; [done|done|by apply frames_fuel]. Qed.

(** The loop never runs out of turns. *)
Lemma receive_loop_fuel fuel fuel' st stream :
  (length stream ≤ fuel)%nat → (length stream ≤ fuel')%nat →
  receive_loop fuel st stream = receive_loop fuel' st stream.
Proof.
  revert fuel' st stream. induction fuel as [|fuel IH]; intros fuel' st stream H1 H2.
  { destruct stream; [|simpl in H1; lia]. by destruct fuel'. }
  destruct fuel' as [|fuel']; [destruct stream; [done|simpl in H2; lia]|].
  cbn [receive_loop]. destruct (read_full 4 stream) as [[h rest]|] eqn:Hr; [|done].
  destruct (read_full (be_value h) rest) as [[p rest']|] eqn:Hp; [|done]. cbn.
  destruct (unpackMsg p) as [m|]; [|done]. cbn. destruct (dispatch m st) as [[st' [|]]|]; [done| |done]. cbn.
  assert (length rest' ≤ length rest ∧ length rest + 4 ≤ length stream)%nat as [? ?].
  { unfold read_full in Hr, Hp. repeat case_bool_decide; simplify_eq. rewrite !length_drop.
    unfold len in *. lia. }
  apply IH; lia.
Qed.
End receive.
Arguments served S : clear implicits.

(** ** Sending

    The process's connections: the table [conns2Node] ([None] is a nil
    [net.Conn]), the sockets opened so far with their peer and whether they are
    still open, the bytes written to the network in order, and the number of
    [net.Dial] calls made. *)
Record Hub := mkHub {
  conns2Node : gmap string (option nat);
  socks : list (string * bool);
  wire : list (nat * bytes);
  dials : nat
}.
Definition NewConnectionsMap : gmap string (option nat) := ∅.
Definition conns_Add (key : string) (conn : option nat) (h : Hub) : Hub :=
  mkHub (<[key := conn]> (conns2Node h)) (socks h) (wire h) (dials h).
Definition conns_Get (key : string) (h : Hub) : option (option nat) := conns2Node h !! key.
Definition conns_Remove (key : string) (h : Hub) : Hub :=
  mkHub (base.delete key (conns2Node h)) (socks h) (wire h) (dials h).

(** The package variables of the hub and the address tables of [cfg];
    [client_here] and [committee_here] say that the references are set. *)
Record HubEnv := mkHubEnv {
  hShardNum : Z;
  hShardSize : Z;
  hComAllNodeNum : Z;
  hClientNum : Z;
  NodeTable : node_table;
  ComNodeTable : node_table;
  ClientTable : gmap Z string;
  self_addr : string;
  client_here : bool;
  committee_here : bool
}.
(** Reading a missing key of a map gives the empty string. *)
Definition node_at (t : node_table) (c i : Z) : string := default ""%string (t !! c ≫= λ m, m !! i).
Definition client_at (e : HubEnv) (i : Z) : string := default ""%string (ClientTable e !! i).

(** What [Send] does beside writing to its own connections: calls into the
    components of the process, the callback of the caller, and the senders it
    starts as goroutines. *)
Inductive effect :=
  | Callback (i : iface)
  | CallbackHash (hash : bytes) (height : Z)
  | AddTimeBeacon (tb : SignedTB) (nodeID : Z)
  | SetAddrs (d : AdjustAddrs) (nodeID : Z)
  | Client_AddTBs (b : TBBlock)
  | Committee_AddTBs (b : TBBlock)
  | Shard_AddTBs (b : TBBlock)
  | Spawn (sender : Hub → go Hub).

Section send.
Context `{G : Gob} `{MI : MapIter}.
(** Does the n-th [net.Dial] of the process succeed? *)
Variable dial_ok : nat → string → bool.
(** The bytes a peer writes back in answer to a request. *)
Variable answer : string → bytes → bytes.
(** The beacon chain's [GetEthChainLatestBlockHash] and [GetEthChainBlockHash]. *)
Variable eth_latest : bytes * Z.
Variable eth_block : Z → bytes * Z.

Definition net_Dial (addr : string) (h : Hub) : Hub * option nat :=
  if dial_ok (dials h) addr
  then (mkHub (conns2Node h) (socks h ++ [(addr, true)]) (wire h) (S (dials h)), Some (length (socks h)))
  else (mkHub (conns2Node h) (socks h) (wire h) (S (dials h)), None).

(** The error of the second attempt is dropped: [return nil, nil]. *)
Definition dial (addr : string) (h : Hub) : Hub * option nat :=
  match net_Dial addr h with
  | (h, Some c) => (h, Some c)
  | (h, None) => net_Dial addr h
  end.

(** Retries until an attempt succeeds; [fuel] bounds the attempts. *)
Fixpoint mustDial (fuel : nat) (addr : string) (h : Hub) : go (Hub * nat) :=
  match net_Dial addr h, fuel with
  | (h, Some c), _ => Ret (h, c)
  | (h, None), O => Halt (Blocked "mustDial")
  | (h, None), S fuel => mustDial fuel addr h
  end.

(** [conn.Write]: [false] is an error.  A nil connection panics. *)
Definition conn_Write (conn : option nat) (b : bytes) (h : Hub) : go (Hub * bool) :=
  match conn with
  | None => Halt (GoPanic "nil pointer dereference")
  | Some c => match socks h !! c with
              | Some (_, true) => Ret (mkHub (conns2Node h) (socks h) (wire h ++ [(c, b)]) (dials h), true)
              | _ => Ret (h, false)
              end
  end.
Definition conn_Close (conn : option nat) (h : Hub) : go Hub :=
  match conn with
  | None => Halt (GoPanic "nil pointer dereference")
  | Some c => Ret (mkHub (conns2Node h) (alter (λ pc, (pc.1, false)) c (socks h)) (wire h) (dials h))
  end.

#[local] Arguments conn_Write : simpl never.
#[local] Arguments conn_Close : simpl never.

(** The connection to [addr], dialled and stored when there is none. *)
Definition connect (addr : string) (h : Hub) : Hub * option nat :=
  match conns_Get addr h with
  | Some conn => (h, conn)
  | None => let '(h, conn) := dial addr h in (conns_Add addr conn h, conn)
  end.

(** Through [bufio.NewWriter]: the errors of [Write] and [Flush] are dropped. *)
Definition buffered_send (addr : string) (msg_bytes : bytes) (h : Hub) : go Hub :=
  let '(h, conn) := connect addr h in
  '(h, _) ← conn_Write conn msg_bytes h;
  Ret h.

(** Request and answer on the same connection. *)
Definition request (k : kind) (addr : string) (msg_bytes : bytes) (h : Hub) : go (Hub * carrier k) :=
  let '(h, conn) := connect addr h in
  '(h, ok) ← conn_Write conn msg_bytes h;
  if (ok : bool) then
    '(lengthBuf, rest) ← or_exit "ReadLengthError" (read_full 4 (answer addr msg_bytes));
    '(msgBuf, _) ← or_exit "ReadMsgError" (read_full (be_value lengthBuf) rest);
    v ← or_exit "Failed to decode" (gob_decode k msgBuf);
    Ret (h, v)
  else Halt (LogError "WriteError").

(** [for i = 0; i < uint32(n); i++] *)
Definition upto (n : Z) : list Z := Z.of_nat <$> seq 0 (Z.to_nat (u32 n)).

Definition comGetHeightFromShard (e : HubEnv) (shardID : Z) (msg : iface) (h : Hub) : go (Hub * Z) :=
  msg_bytes ← frame_of NetMsg.ComGetHeight KGetHeight msg;
  request KHeight (node_at (NodeTable e) shardID 0) msg_bytes h.

(** A one-off connection of its own; a failed dial ends the process. *)
Definition shardSendGenesis (msg : iface) (h : Hub) : go Hub :=
  data ← assert_type KGenesis msg;
  msg_bytes ← frame_of NetMsg.ShardSendGenesis KGenesis msg;
  match net_Dial (Target_nodeAddr data) h with
  | (h, None) => Halt (LogError "DialError")
  | (h, conn) => '(h, ok) ← conn_Write conn msg_bytes h;
                 if (ok : bool) then conn_Close conn h else Halt (LogError "WriteError")
  end.

Definition clientInjectTx2Com (e : HubEnv) (comID : Z) (msg : iface) (h : Hub) : go Hub :=
  msg_bytes ← frame_of NetMsg.ClientSendTx KTransactions msg;
  buffered_send (node_at (ComNodeTable e) comID 0) msg_bytes h.

(** Writes to every node and closes the connection, which stays in the table;
    a failed write is tried once more on a new connection. *)
Definition clientSetInjectDone2Nodes (e : HubEnv) (cid : Z) (h : Hub) : go Hub :=
  msg_bytes ← frame_of NetMsg.ClientSetInjectDone KInjectDone (Iface KInjectDone cid);
  go_fold (λ h i, go_fold (λ h j,
    let addr := node_at (NodeTable e) i j in
    let '(h, conn) := connect addr h in
    '(h, ok) ← conn_Write conn msg_bytes h;
    if (ok : bool) then conn_Close conn h
    else
      let '(h, conn) := dial addr h in
      let h := conns_Add addr conn h in
      '(h, ok) ← conn_Write conn msg_bytes h;
      if (ok : bool) then conn_Close conn h else Halt (GoPanic "write error"))
    h (upto (hComAllNodeNum e))) h (upto (hShardNum e)).

Definition comGetStateFromShard (e : HubEnv) (shardID : Z) (msg : iface) (h : Hub) : go Hub :=
  msg_bytes ← frame_of NetMsg.ComGetState KGetState msg;
  buffered_send (node_at (NodeTable e) shardID 0) msg_bytes h.
Definition shardSendStateToCom (e : HubEnv) (comID : Z) (msg : iface) (h : Hub) : go Hub :=
  msg_bytes ← frame_of NetMsg.ShardSendState KSendState msg;
  buffered_send (node_at (ComNodeTable e) comID 0) msg_bytes h.
Definition comSendBlock2Shard (e : HubEnv) (shardID : Z) (msg : iface) (h : Hub) : go Hub :=
  msg_bytes ← frame_of NetMsg.ComSendBlock KBlock msg;
  buffered_send (node_at (NodeTable e) shardID 0) msg_bytes h.
Definition comSendReply2Client (e : HubEnv) (clientID : Z) (msg : iface) (h : Hub) : go Hub :=
  msg_bytes ← frame_of NetMsg.ComSendTxReceipt KReceipts msg;
  buffered_send (client_at e clientID) msg_bytes h.

Definition comAddTb2TBChain (nodeID : Z) (msg : iface) : go (list effect) :=
  data ← assert_type KSignedTB msg; Ret [AddTimeBeacon data nodeID].
Definition getEthLatestBlock : list effect := [CallbackHash eth_latest.1 eth_latest.2].
Definition getEthBlock (msg : iface) : go (list effect) :=
  height ← assert_type KUint64 msg;
  Ret [CallbackHash (eth_block height).1 (eth_block height).2].
Definition tbChainPushBlock2Client (e : HubEnv) (msg : iface) : go (list effect) :=
  if client_here e then data ← assert_type KTBBlock msg; Ret [Client_AddTBs data] else Ret [].
Definition tbChainPushBlock2Com (e : HubEnv) (msg : iface) : go (list effect) :=
  if committee_here e then data ← assert_type KTBBlock msg; Ret [Committee_AddTBs data; Shard_AddTBs data]
  else Ret [].

(** Slot 3 of a committee may be empty, the others may not. *)
Definition comLeaderInitMultiSign (e : HubEnv) (comID : Z) (msg : iface) (h : Hub) : go Hub :=
  msg_bytes ← frame_of NetMsg.LeaderInitMultiSign KInitMultiSign msg;
  go_fold (λ h i,
    let addr := node_at (ComNodeTable e) comID i in
    if bool_decide (addr = ""%string) then
      if bool_decide (i = 3) then Ret h else Halt (LogError "address is empty.")
    else buffered_send addr msg_bytes h) h (upto (hShardSize e)).
Definition sendMultiSignReply (e : HubEnv) (comID : Z) (msg : iface) (h : Hub) : go Hub :=
  msg_bytes ← frame_of NetMsg.MultiSignReply KMultiSignReply msg;
  let '(h, conn) := connect (node_at (ComNodeTable e) comID 0) h in
  '(h, ok) ← conn_Write conn msg_bytes h;
  if (ok : bool) then Ret h else Halt (GoPanic "write error").

(** Connections dialled here are not stored. *)
Definition send_and_close (addr : string) (msg_bytes : bytes) (h : Hub) : go Hub :=
  let '(h, conn) := match conns_Get addr h with Some conn => (h, conn) | None => dial addr h end in
  '(h, ok) ← conn_Write conn msg_bytes h;
  if (ok : bool) then conn_Close conn h else Halt (GoPanic "write error").
Definition booterSendContract (e : HubEnv) (msg : iface) (h : Hub) : go Hub :=
  msg_bytes ← frame_of NetMsg.BooterSendContract KContract msg;
  h ← go_fold (λ h i, go_fold (λ h j, send_and_close (node_at (NodeTable e) i j) msg_bytes h)
                        h (upto (hComAllNodeNum e))) h (upto (hShardNum e));
  go_fold (λ h i, send_and_close (client_at e i) msg_bytes h) h (upto (hClientNum e)).

(** [reply] and [requestOld] messages are for the leader only: the loop
    returns at its second turn, which is to skip all run_later ones.  The source
    tests the error of every encoding but that of [SendOldMessage]; here it
    ends the process like the others. *)
Definition pbft_kind (msgType : string) : option kind :=
  if bool_decide (msgType = NetMsg.CPrePrepare) then Some KPrePrepare
  else if bool_decide (msgType = NetMsg.CPrepare) then Some KPrepare
  else if bool_decide (msgType = NetMsg.CCommit) then Some KCommit
  else if bool_decide (msgType = NetMsg.CReply) then Some KReply
  else if bool_decide (msgType = NetMsg.CRequestOldrequest) then Some KRequestOld
  else if bool_decide (msgType = NetMsg.CSendOldrequest) then Some KSendOld
  else None.
Definition sendOldRequests (e : HubEnv) (data : SendOldMessage) (msgBytes : bytes) (h : Hub) : go Hub :=
  buffered_send (node_at (ComNodeTable e) (nComID (soReceiver data)) (nNodeID (soReceiver data))) msgBytes h.
Definition hub_sendPbftMsg (e : HubEnv) (comID : Z) (msg : iface) (msgType : string) (h : Hub) : go Hub :=
  k ← or_exit "unknown pbft msg type" (pbft_kind msgType);
  msg_bytes ← frame_of msgType k msg;
  if bool_decide (k = KSendOld) then
    data ← assert_type KSendOld msg;
    sendOldRequests e data msg_bytes h
  else
    go_fold (λ h i,
      if bool_decide (i > 0) && bool_decide (k = KReply ∨ k = KRequestOld) then Ret h
      else
        let addr := node_at (ComNodeTable e) comID i in
        if bool_decide (addr = self_addr e) then Ret h
        else if bool_decide (addr = ""%string) then
          if bool_decide (i = 3) then Ret h else Halt (LogError "address is empty.")
        else buffered_send addr msg_bytes h) h (upto (hShardSize e)).

(** [dial_fuel] bounds the attempts of [mustDial]. *)
Definition sendNodeInfo (dial_fuel : nat) (e : HubEnv) (comID : Z) (msg : iface) (h : Hub) : go Hub :=
  msg_bytes ← frame_of NetMsg.NodeSendInfo KNodeSendInfo msg;
  let addr := node_at (ComNodeTable e) comID 0 in
  '(h, conn) ← match conns_Get addr h with
               | Some conn => Ret (h, conn)
               | None => '(h, c) ← mustDial dial_fuel addr h; Ret (conns_Add addr (Some c) h, Some c)
               end;
  '(h, _) ← conn_Write conn msg_bytes h;
  Ret h.

Definition leaderInitReconfig (e : HubEnv) (comID : Z) (msg : iface) (h : Hub) : go Hub :=
  data ← assert_type KInitReconfig msg;
  msg_bytes ← frame_of NetMsg.LeaderInitReconfig KInitReconfig msg;
  go_fold (λ h i, buffered_send (node_at (ComNodeTable e) comID i) msg_bytes h) h (upto (irComNodeNum data)).
Definition sendReconfigResult2Leader (e : HubEnv) (comID : Z) (msg : iface) (h : Hub) : go Hub :=
  msg_bytes ← frame_of NetMsg.SendReconfigResult2ComLeader KResult msg;
  buffered_send (node_at (ComNodeTable e) comID 0) msg_bytes h.
(** The leaders' addresses are copied first. *)
Definition sendReconfigResults2AllLeaders (e : HubEnv) (msg : iface) (h : Hub) : go Hub :=
  msg_bytes ← frame_of NetMsg.SendReconfigResults2AllComLeaders KComResults msg;
  let target_addrs := (λ l : gmap Z string, default ""%string (l !! 0)) <$> ComNodeTable e in
  go_fold (λ h i, buffered_send (default ""%string (target_addrs !! i)) msg_bytes h) h (upto (hShardNum e)).
Definition sendReconfigResults2ComNodes (e : HubEnv) (comID : Z) (msg : iface) (h : Hub) : go Hub :=
  data ← assert_type KAllResults msg;
  msg_bytes ← frame_of NetMsg.SendReconfigResults2ComNodes KAllResults msg;
  own ← deref (data !! comID);
  go_fold (λ h i, buffered_send (node_at (ComNodeTable e) comID i) msg_bytes h) h (upto (crComNodeNum own)).
Definition comSendNewAddrs (nodeID : Z) (msg : iface) : go (list effect) :=
  data ← assert_type KAdjustAddrs msg; Ret [SetAddrs data nodeID].
Definition sendNewNodeTable2Client (e : HubEnv) (msg : iface) (h : Hub) : go Hub :=
  msg_bytes ← frame_of NetMsg.SendNewNodeTable2Client KTable msg;
  go_fold (λ h i, buffered_send (client_at e i) msg_bytes h) h (upto (hClientNum e)).
Definition sendGetPoolTx (msg : iface) (h : Hub) : go (Hub * PoolTx) :=
  data ← assert_type KGetPool msg;
  msg_bytes ← frame_of NetMsg.GetPoolTx KGetPool msg;
  request KPoolTx (prServerAddr data) msg_bytes h.
Definition sendGetSyncData (msg : iface) (h : Hub) : go (Hub * SyncReply) :=
  data ← assert_type KGetSync msg;
  msg_bytes ← frame_of NetMsg.GetSyncData KGetSync msg;
  request KSyncData (srServerAddr data) msg_bytes h.

(** The own committee's nodes, and for a leader the other leaders. *)
Definition to_preserved (e : HubEnv) (nodeInfo : NodeInfo) : gset string :=
  list_to_set ((map_iter (default ∅ (ComNodeTable e !! nComID nodeInfo))).*2 ++
    if IsComLeader (nNodeID nodeInfo)
    then (λ i, node_at (ComNodeTable e) (u32 i) 0) <$> (Z.of_nat <$> seq 0 (Z.to_nat (hShardNum e)))
    else []).
Definition clearConnection (e : HubEnv) (msg : iface) (h : Hub) : go Hub :=
  nodeInfo ← assert_type KNodeInfo msg;
  go_fold (λ h ac,
    if bool_decide (ac.1 ∈ to_preserved e nodeInfo) then Ret h
    else h ← conn_Close ac.2 h; Ret (conns_Remove ac.1 h)) h (map_iter (conns2Node h)).
(** [GoodMessageHub.Close]; the listener is not part of the state. *)
Definition hub_Close (h : Hub) : go Hub :=
  go_fold (λ h ac, conn_Close ac.2 h) h (map_iter (conns2Node h)).

Definition reportError (e : HubEnv) (clientID : Z) (msg : iface) (h : Hub) : go Hub :=
  msg_bytes ← frame_of NetMsg.ReportError KErrReport msg;
  buffered_send (client_at e clientID) msg_bytes h.
Definition reportAny (e : HubEnv) (clientID : Z) (msg : iface) (h : Hub) : go Hub :=
  msg_bytes ← frame_of NetMsg.ReportAny KString msg;
  buffered_send (client_at e clientID) msg_bytes h.

(** [GoodMessageHub.Send]: a type without a case is ignored. *)
Definition write_only (m : go Hub) : go (Hub * list effect) := h ← m; Ret (h, []).
Definition effect_only (h : Hub) (m : go (list effect)) : go (Hub * list effect) := es ← m; Ret (h, es).
Definition call_back (k : kind) (m : go (Hub * carrier k)) : go (Hub * list effect) :=
  '(h, v) ← m; Ret (h, [Callback (Iface k v)]).
Definition Send (dial_fuel : nat) (e : HubEnv) (msgType id : Z) (msg : iface) (h : Hub) :
    go (Hub * list effect) :=
  if msgType =? MsgTypeComGetHeightFromShard then call_back KHeight (comGetHeightFromShard e id msg h)
  else if msgType =? MsgTypeShardSendGenesis then write_only (shardSendGenesis msg h)
  else if msgType =? MsgTypeBooterSendContract then write_only (booterSendContract e msg h)
  else if msgType =? MsgTypeComGetStateFromShard then write_only (comGetStateFromShard e id msg h)
  else if msgType =? MsgTypeShardSendStateToCom then Ret (h, [Spawn (shardSendStateToCom e id msg)])
  else if msgType =? MsgTypeClientInjectTX2Committee then Ret (h, [Spawn (clientInjectTx2Com e id msg)])
  else if msgType =? MsgTypeSetInjectDone2Nodes then write_only (clientSetInjectDone2Nodes e id h)
  else if msgType =? MsgTypeSendBlock2Shard then Ret (h, [Spawn (comSendBlock2Shard e id msg)])
  else if msgType =? MsgTypeCommitteeReply2Client then Ret (h, [Spawn (comSendReply2Client e id msg)])
  else if msgType =? MsgTypeLeaderInitMultiSign then write_only (comLeaderInitMultiSign e id msg h)
  else if msgType =? MsgTypeSendMultiSignReply then write_only (sendMultiSignReply e id msg h)
  else if msgType =? MsgTypeLeaderInitReconfig then write_only (leaderInitReconfig e id msg h)
  else if msgType =? MsgTypeSendReconfigResult2ComLeader then write_only (sendReconfigResult2Leader e id msg h)
  else if msgType =? MsgTypeSendReconfigResults2AllComLeaders
    then write_only (sendReconfigResults2AllLeaders e msg h)
  else if msgType =? MsgTypeSendReconfigResults2ComNodes then write_only (sendReconfigResults2ComNodes e id msg h)
  else if msgType =? MsgTypeGetPoolTx then call_back KPoolTx (sendGetPoolTx msg h)
  else if msgType =? MsgTypeGetSyncData then call_back KSyncData (sendGetSyncData msg h)
  else if msgType =? MsgTypeComSendNewAddrs then effect_only h (comSendNewAddrs id msg)
  else if msgType =? MsgTypeSendNewNodeTable2Client then write_only (sendNewNodeTable2Client e msg h)
  else if msgType =? MsgTypeGetLatestBlockHashFromEthChain then Ret (h, getEthLatestBlock)
  else if msgType =? MsgTypeGetBlockHashFromEthChain then effect_only h (getEthBlock msg)
  else if msgType =? MsgTypeComAddTb2TBChain then effect_only h (comAddTb2TBChain id msg)
  else if msgType =? MsgTypeTBChainPushTB2Client then effect_only h (tbChainPushBlock2Client e msg)
  else if msgType =? MsgTypeTBChainPushTB2Coms then effect_only h (tbChainPushBlock2Com e msg)
  else if msgType =? MsgTypePbftPrePrepare then write_only (hub_sendPbftMsg e id msg NetMsg.CPrePrepare h)
  else if msgType =? MsgTypePbftPrepare then write_only (hub_sendPbftMsg e id msg NetMsg.CPrepare h)
  else if msgType =? MsgTypePbftCommit then write_only (hub_sendPbftMsg e id msg NetMsg.CCommit h)
  else if msgType =? MsgTypePbftReply then write_only (hub_sendPbftMsg e id msg NetMsg.CReply h)
  else if msgType =? MsgTypePbftRequestOldMessage then write_only (hub_sendPbftMsg e id msg NetMsg.CRequestOldrequest h)
  else if msgType =? MsgTypePbftSendOldMessage then write_only (hub_sendPbftMsg e id msg NetMsg.CSendOldrequest h)
  else if msgType =? MsgTypeNodeSendInfo2Leader then write_only (sendNodeInfo dial_fuel e id msg h)
  else if msgType =? MsgTypeClearConnection then write_only (clearConnection e msg h)
  else if msgType =? MsgTypeReportError then write_only (reportError e id msg h)
  else if msgType =? MsgTypeReportAny then write_only (reportAny e id msg h)
  else Ret (h, []).

(** *** What a sender writes

    [wrote f h h']: between the two states the process wrote nothing but the
    frame [f], any number of times and to any connections. *)
Definition wrote (f : bytes) (h h' : Hub) : Prop :=
  ∃ cs, wire h' = wire h ++ ((λ c, (c, f)) <$> cs).
#[local] Instance wrote_preorder f : PreOrder (wrote f).
Proof.
  split.
  - intros h. exists []. by rewrite app_nil_r.
  - intros h1 h2 h3 [c1 H1] [c2 H2]. exists (c1 ++ c2). by rewrite H2, H1, fmap_app, app_assoc.
Qed.
Lemma wrote_same f h h' : wire h' = wire h → wrote f h h'.
Proof. intros Hw. exists []. by rewrite app_nil_r. Qed.
Lemma wrote_Write f conn h h' ok : conn_Write conn f h = Ret (h', ok) → wrote f h h'.
Proof.
  unfold conn_Write. intros H. repeat case_match; go_inv; try reflexivity. by eexists [_].
Qed.
Lemma wrote_Close f conn h h' : conn_Close conn h = Ret h' → wrote f h h'.
Proof. unfold conn_Close. intros H. case_match; go_inv. by apply wrote_same. Qed.
Lemma wire_net_Dial addr h : wire (net_Dial addr h).1 = wire h.
Proof. unfold net_Dial. by case_match. Qed.
Lemma wire_dial addr h : wire (dial addr h).1 = wire h.
Proof.
  unfold dial. pose proof (wire_net_Dial addr h). destruct (net_Dial addr h) as [h1 [c|]]; simpl in *; [done|].
  by rewrite wire_net_Dial.
Qed.
Lemma wrote_dial f addr h h' c : dial addr h = (h', c) → wrote f h h'.
Proof. intros H. apply wrote_same. by rewrite <-(wire_dial addr h), H. Qed.
Lemma wrote_connect f addr h h' c : connect addr h = (h', c) → wrote f h h'.
Proof.
  unfold connect. intros H. case_match; simplify_eq; [done|]. destruct (dial addr h) as [h1 c1] eqn:Hd.
  simplify_eq. by eapply wrote_dial in Hd.
Qed.
Lemma wrote_buffered f addr h h' : buffered_send addr f h = Ret h' → wrote f h h'.
Proof.
  unfold buffered_send. destruct (connect addr h) as [h1 c] eqn:Hc. intros H. go_inv. destruct x as [h2 ok]. go_inv.
  etrans; [by eapply wrote_connect|by eapply wrote_Write].
Qed.
Lemma wrote_fold {A} f (step : Hub → A → go Hub) l h h' :
  (∀ x a y, step x a = Ret y → wrote f x y) → go_fold step h l = Ret h' → wrote f h h'.
Proof.
  intros Hs. apply (go_fold_inv step (wrote f h)); [done|]. intros x b y _ Hx Hy. etrans; [done|by eapply Hs].
Qed.
Lemma wrote_send_and_close f addr h h' : send_and_close addr f h = Ret h' → wrote f h h'.
Proof.
  unfold send_and_close. intros H. destruct (match conns_Get addr h with Some conn => _ | None => _ end) as [h1 c] eqn:Hc.
  go_inv. destruct x as [h2 [|]]; go_inv. etrans; [|etrans; [by eapply wrote_Write|by eapply wrote_Close]].
  case_match; simplify_eq; [done|by eapply wrote_dial].
Qed.
Lemma wrote_request f k addr h h' v : request k addr f h = Ret (h', v) → wrote f h h'.
Proof.
  unfold request. destruct (connect addr h) as [h1 c] eqn:Hc. intros H. go_inv. destruct x as [h2 [|]]; [|done].
  go_inv. destruct x; go_inv. destruct x; go_inv.
  etrans; [by eapply wrote_connect|by eapply wrote_Write].
Qed.
Lemma wrote_mustDial f fuel addr h h' c : mustDial fuel addr h = Ret (h', c) → wrote f h h'.
Proof.
  revert h. induction fuel as [|fuel IH]; intros h; simpl; pose proof (wire_net_Dial addr h) as Hw;
    destruct (net_Dial addr h) as [h1 [c1|]]; simpl in *; intros H; go_inv.
  1-2: by apply wrote_same. etrans; [|by apply IH]. by apply wrote_same.
Qed.
Create HintDb hub.
Hint Resolve wrote_Write wrote_Close wrote_dial wrote_connect wrote_buffered wrote_send_and_close wrote_request
  wrote_mustDial : hub.

(** The message of a [Send] call: [clientSetInjectDone2Nodes] builds its own. *)
Definition sent_msg (msgType id : Z) (msg : iface) : iface :=
  if msgType =? MsgTypeSetInjectDone2Nodes then Iface KInjectDone id else msg.
Definition network (i : iface) (h h' : Hub) : Prop := ∃ f, network_frame i = Ret f ∧ wrote f h h'.

Lemma frame_of_network t k msg f :
  wire_type k = Some t → frame_of t k msg = Ret f → network_frame msg = Ret f.
Proof.
  intros Ht Hf. pose proof Hf as Hf'. unfold frame_of in Hf. go_inv. destruct msg as [k' v].
  unfold assert_type in H. case_match; [|done]. subst k'. simpl. by rewrite Ht.
Qed.

(** A sender of [msg] writes nothing, or frames of [msg] only. *)
Definition sends (msg : iface) (m : go Hub) (h : Hub) : Prop :=
  ∀ h', m = Ret h' → wire h' = wire h ∨ network msg h h'.

Lemma sends_frame t k msg h (body : bytes → go Hub) :
  wire_type k = Some t → (∀ f h', body f = Ret h' → wrote f h h') →
  sends msg (frame_of t k msg ≫= body) h.
Proof. intros Ht Hb h' H. go_inv. right. eexists. split; [by eapply frame_of_network|by apply Hb]. Qed.
Lemma sends_assert {A} (m : go A) msg h (body : A → go Hub) :
  (∀ v, sends msg (body v) h) → sends msg (m ≫= body) h.
Proof. intros Hb h' H. go_inv. by eapply Hb. Qed.

Ltac sends_step :=
  match goal with
  | |- sends _ (frame_of _ _ _ ≫= _) _ => apply sends_frame; [done|intros ? ? ?]
  | |- sends _ (_ ≫= _) _ => apply sends_assert; intros ?
  | |- sends _ (let '(_, _) := ?x in _) _ => destruct x eqn:?
  | H : go_fold _ _ _ = Ret _ |- wrote _ _ _ => eapply wrote_fold in H; [exact H|clear; intros ? ? ? ?]
  | x : Hub * _ |- _ => destruct x
  | H : (let '(_, _) := ?x in _) = Ret _ |- _ => destruct x eqn:?
  end.
Ltac sends_tac := go_inv; repeat (sends_step; go_inv); try solve [eauto with hub].

Lemma comLeaderInitMultiSign_sends e c msg h : sends msg (comLeaderInitMultiSign e c msg h) h.
Proof. unfold comLeaderInitMultiSign. sends_tac. repeat case_bool_decide; go_inv; [done|eauto with hub]. Qed.
Lemma sendMultiSignReply_sends e c msg h : sends msg (sendMultiSignReply e c msg h) h.
Proof. unfold sendMultiSignReply. sends_tac. case_match; go_inv. etrans; eauto with hub. Qed.
Lemma hub_sendPbftMsg_sends e c msg t h : sends msg (hub_sendPbftMsg e c msg t h) h.
Proof.
  unfold hub_sendPbftMsg. intros h' H. go_inv. rename x into k.
  assert (wire_type k = Some t) as Hk.
  { unfold pbft_kind in *. repeat case_bool_decide; simplify_eq; done. }
  right. eexists. split; [by eapply frame_of_network|]. case_bool_decide.
  - go_inv. unfold sendOldRequests in H. eauto with hub.
  - sends_tac. repeat case_bool_decide; simpl in *; go_inv; try done; eauto with hub.
Qed.
Lemma sendNodeInfo_sends fuel e c msg h : sends msg (sendNodeInfo fuel e c msg h) h.
Proof.
  unfold sendNodeInfo. sends_tac. case_match; go_inv; [by eapply wrote_Write|]. sends_tac. etrans; [by eapply wrote_mustDial|].
  etrans; [|by eapply wrote_Write]. by apply wrote_same.
Qed.
Lemma shardSendGenesis_sends msg h : sends msg (shardSendGenesis msg h) h.
Proof.
  unfold shardSendGenesis. sends_tac. pose proof (wire_net_Dial (Target_nodeAddr v) h) as Hw.
  destruct o; [|done]. sends_tac. case_match; go_inv. rewrite Heqp in Hw.
  etrans; [by apply wrote_same|etrans; eauto with hub].
Qed.
Lemma booterSendContract_sends e msg h : sends msg (booterSendContract e msg h) h.
Proof.
  apply sends_frame; [done|]. intros f h' H. go_inv. transitivity x; (eapply wrote_fold; [|done]).
  - simpl. intros ??? Hi. eapply wrote_fold; [|done]. simpl. intros ??? Hj. eauto with hub.
  - simpl. intros ??? Hi. eauto with hub.
Qed.
Lemma clientSetInjectDone2Nodes_sends e cid h :
  sends (Iface KInjectDone cid) (clientSetInjectDone2Nodes e cid h) h.
Proof.
  unfold clientSetInjectDone2Nodes. sends_tac. etrans; [by eapply wrote_connect|].
  etrans; [by eapply wrote_Write|]. destruct b; [eauto with hub|].
  destruct (dial (node_at (NodeTable e) a a0) h0) as [h1 c] eqn:Hd. sends_tac. case_match; go_inv.
  etrans; [by eapply wrote_dial|]. transitivity (conns_Add (node_at (NodeTable e) a a0) c h1); [by apply wrote_same|].
  etrans; eauto with hub.
Qed.
Lemma clearConnection_wire e msg h h' : clearConnection e msg h = Ret h' → wire h' = wire h.
Proof.
  unfold clearConnection. intros H. go_inv.
  apply (go_fold_inv _ (λ h', wire h' = wire h)) in H; [done|done|]. intros h1 [a c] h2 _ Hw Hs.
  case_bool_decide; go_inv; [done|]. destruct c; unfold conn_Close in *; go_inv; done.
Qed.

(** A [Send] call together with the sender it starts as a goroutine: the order
    in which the calls of a run are performed is the order in which their
    senders get to write. *)
Definition run_effect (h : Hub) (ef : effect) : go Hub :=
  match ef with Spawn sender => sender h | _ => Ret h end.
Definition perform (dial_fuel : nat) (e : HubEnv) (h : Hub) (m : Z * Z * iface) : go Hub :=
  let '(msgType, id, msg) := m in
  '(h, es) ← Send dial_fuel e msgType id msg h;
  go_fold run_effect h es.

Lemma sends_write_only msg m h :
  sends msg m h → sends msg ('(h, es) ← write_only m; go_fold run_effect h es) h.
Proof. intros Hs h' H. unfold write_only in H. destruct m as [h1|]; go_inv. by apply Hs. Qed.
Lemma sends_call_back msg k m h :
  (∀ h' v, m = Ret (h', v) → network msg h h') →
  sends msg ('(h, es) ← call_back k m; go_fold run_effect h es) h.
Proof.
  intros Hs h' H. unfold call_back in H. destruct m as [[h1 v]|]; go_inv. right. eauto.
Qed.
Lemma sends_spawn msg m h : sends msg (m h) h → sends msg ('(h, es) ← Ret (h, [Spawn m]); go_fold run_effect h es) h.
Proof. intros Hs h' H. simpl in H. go_inv. by apply Hs. Qed.
Lemma sends_effects msg m h :
  (∀ es, m = Ret es → Forall (λ ef, ∀ h, run_effect h ef = Ret h) es) →
  sends msg ('(h, es) ← effect_only h m; go_fold run_effect h es) h.
Proof.
  intros Hes h' H. unfold effect_only in H. destruct m as [es|]; simpl in H; [|done]. left.
  specialize (Hes _ eq_refl). induction Hes as [|ef es Hef _ IH]; simpl in *; [by simplify_eq|].
  rewrite Hef in H. by apply IH.
Qed.
Lemma sends_nothing msg es h : 
  Forall (λ ef, ∀ h, run_effect h ef = Ret h) es → sends msg ('(h, es) ← Ret (h, es); go_fold run_effect h es) h.
Proof. intros Hes. apply (sends_effects msg (Ret es)). by intros ? [= <-]. Qed.
Lemma network_request msg t k k' addr h h' v :
  wire_type k = Some t → frame_of t k msg ≫= (λ b, request k' addr b h) = Ret (h', v) → network msg h h'.
Proof. intros Ht H. go_inv. eexists. split; [by eapply frame_of_network|by eapply wrote_request]. Qed.

(** A [Send] call puts frames of its message on the network, and nothing else. *)
Lemma perform_sends dial_fuel e msgType id msg h :
  sends (sent_msg msgType id msg) (perform dial_fuel e h (msgType, id, msg)) h.
Proof.
  unfold perform, sent_msg, Send.
  repeat match goal with |- context [?a =? ?b] => destruct (Z.eqb_spec a b); [subst a; simpl (_ =? _); cbv iota|] end.
  all: try (apply sends_write_only).
  all: try (apply sends_spawn; apply sends_frame; [done|eauto with hub]; fail).
  all: try (apply sends_frame; [done|eauto with hub]; fail).
  all: eauto using comLeaderInitMultiSign_sends, sendMultiSignReply_sends, hub_sendPbftMsg_sends, sendNodeInfo_sends,
         shardSendGenesis_sends, booterSendContract_sends, clientSetInjectDone2Nodes_sends.
  all: try (unfold leaderInitReconfig, sendReconfigResults2AllLeaders, sendReconfigResults2ComNodes,
              sendNewNodeTable2Client; sends_tac; fail).
  all: try (apply sends_effects; unfold comSendNewAddrs, getEthBlock, comAddTb2TBChain, tbChainPushBlock2Client,
              tbChainPushBlock2Com; intros es Hes; repeat case_match; go_inv; by repeat constructor).
  all: try (apply sends_nothing; by repeat constructor).
  - apply sends_call_back. intros h' v. by apply network_request with (t := NetMsg.ComGetHeight).
  - apply sends_call_back. intros h' v H. unfold sendGetPoolTx in H. apply go_bind_Ret in H as (d & _ & H).
    by apply network_request with (t := NetMsg.GetPoolTx) in H.
  - apply sends_call_back. intros h' v H. unfold sendGetSyncData in H. apply go_bind_Ret in H as (d & _ & H).
    by apply network_request with (t := NetMsg.GetSyncData) in H.
  - intros h' H. left. by eapply clearConnection_wire.
Qed.

(** The bytes written to one connection. *)
Definition stream (c : nat) (h : Hub) : bytes := mjoin (filter (λ w, w.1 = c) (wire h)).*2.

Lemma stream_wrote f c h h' :
  wrote f h h' → ∃ n, stream c h' = stream c h ++ mjoin (replicate n f).
Proof.
  intros [cs Hw]. exists (length (filter (λ d, d = c) cs)). unfold stream. rewrite Hw.
  rewrite filter_app, fmap_app, join_app. f_equal. clear. induction cs as [|d cs IH]; [done|].
  rewrite fmap_cons, !filter_cons. simpl. destruct (decide (d = c)); simpl; [by f_equal|done].
Qed.
Lemma perform_stream fuel e m h h' c :
  perform fuel e h m = Ret h' →
  ∃ n f, stream c h' = stream c h ++ mjoin (replicate n f) ∧
    (n = 0%nat ∨ network_frame (sent_msg m.1.1 m.1.2 m.2) = Ret f).
Proof.
  destruct m as [[t id] msg]. intros H. apply perform_sends in H as [Hw|(f & Hf & Hw)].
  - exists 0%nat, []. unfold stream. rewrite Hw, app_nil_r. auto.
  - apply (stream_wrote _ c) in Hw as [n Hn]. eauto.
Qed.

(** The messages a receiver sees when the k-th of the calls reached it
    [counts !! k] times. *)
Definition delivered (counts : list nat) (ms : list (Z * Z * iface)) : list iface :=
  mjoin (zip_with (λ n m, replicate n (sent_msg m.1.1 m.1.2 m.2)) counts ms).

Lemma delivered_Forall (P : iface → Prop) counts ms :
  Forall (λ m, P (sent_msg m.1.1 m.1.2 m.2)) ms → Forall P (delivered counts ms).
Proof.
  intros Hms. unfold delivered. revert counts. induction Hms as [|m ms Hm Hms IH]; intros [|n counts]; simpl;
    try by constructor.
  apply Forall_app. split; [by apply Forall_replicate|apply IH].
Qed.
Lemma run_streams fuel e ms h h' c :
  go_fold (perform fuel e) h ms = Ret h' →
  ∃ counts frames, length counts = length ms ∧ stream c h' = stream c h ++ mjoin frames ∧
    Forall2 (λ i f, network_frame i = Ret f) (delivered counts ms) frames.
Proof.
  revert h. induction ms as [|m ms IH]; intros h H.
  { simpl in H. go_inv. exists [], []. split_and!; [done|symmetry; apply app_nil_r|by constructor]. }
  cbn [go_fold] in H. go_inv. apply (perform_stream _ _ _ _ _ c) in H0 as (n & f & Hst & Hf).
  apply IH in H as (counts & frames & Hlen & Hst' & Hall).
  exists (n :: counts), (replicate n f ++ frames). split_and!.
  - by simpl; f_equal.
  - by rewrite Hst', Hst, join_app, app_assoc.
  - unfold delivered. simpl. apply Forall2_app; [|done]. destruct Hf as [->|Hf]; [constructor|].
    apply Forall2_replicate, Hf.
Qed.

(** *** Working connections

    Every entry of the table is an open connection to its address. *)
Definition healthy (h : Hub) : Prop :=
  ∀ addr conn, conns2Node h !! addr = Some conn →
    ∃ c, conn = Some c ∧ socks h !! c = Some (addr, true).
Definition reachable_addr (addr : string) : Prop := ∀ k, dial_ok k addr = true.

Lemma connect_ok addr h :
  healthy h → reachable_addr addr →
  ∃ c h', connect addr h = (h', Some c) ∧ healthy h' ∧ wire h' = wire h ∧
    socks h `prefix_of` socks h' ∧ socks h' !! c = Some (addr, true).
Proof.
  intros Hh Hr. unfold connect, conns_Get, dial, net_Dial. destruct (conns2Node h !! addr) as [conn|] eqn:Hc.
  { destruct (Hh _ _ Hc) as (c & -> & Hs). by exists c, h. }
  rewrite Hr. eexists _, _. split; [done|]. simpl. split_and!.
  - intros a conn. simpl. rewrite lookup_insert. case_decide as Ha; [subst a|].
    + intros [= <-]. eexists. split; [done|]. by rewrite lookup_app_r, Nat.sub_diag by done.
    + intros (c & -> & Hs)%Hh. exists c. split; [done|]. by apply lookup_app_l_Some.
  - done.
  - by eexists.
  - by rewrite lookup_app_r, Nat.sub_diag by done.
Qed.
Lemma buffered_ok addr f h :
  healthy h → reachable_addr addr →
  ∃ c h', buffered_send addr f h = Ret h' ∧ healthy h' ∧ wire h' = wire h ++ [(c, f)] ∧
    socks h `prefix_of` socks h' ∧ socks h' !! c = Some (addr, true).
Proof.
  intros Hh Hr. destruct (connect_ok addr h Hh Hr) as (c & h1 & Hc & Hh1 & Hw & Hp & Hs).
  unfold buffered_send, conn_Write. rewrite Hc, Hs. eexists c, _. split; [done|]. simpl. by rewrite Hw.
Qed.
Lemma broadcast_ok f addrs h :
  healthy h → Forall reachable_addr addrs →
  ∃ cs h', go_fold (λ h a, buffered_send a f h) h addrs = Ret h' ∧ healthy h' ∧
    wire h' = wire h ++ ((λ c, (c, f)) <$> cs) ∧ socks h `prefix_of` socks h' ∧
    Forall2 (λ c a, socks h' !! c = Some (a, true)) cs addrs.
Proof.
  intros Hh Hall. revert h Hh. induction Hall as [|a addrs Ha Hall IH]; intros h Hh.
  { exists [], h. rewrite app_nil_r. by split_and!. }
  destruct (buffered_ok a f h Hh Ha) as (c & h1 & Hb & Hh1 & Hw & Hp & Hs).
  destruct (IH h1 Hh1) as (cs & h' & Hf & Hh' & Hw' & Hp' & Hcs).
  exists (c :: cs), h'. cbn [go_fold]. rewrite Hb. simpl. split_and!; [done|done| | |].
  - by rewrite Hw', Hw, <-app_assoc.
  - by trans (socks h1).
  - constructor; [by eapply prefix_lookup_Some|done].
Qed.
Lemma go_fold_skip {A B} (g g' : A → B → go A) (P : B → Prop) `{!∀ b, Decision (P b)} a l :
  (∀ x b, b ∈ l → g x b = if decide (P b) then g' x b else Ret x) →
  go_fold g a l = go_fold g' a (filter P l).
Proof.
  revert a. induction l as [|b l IH]; intros a Hg; [done|]. rewrite filter_cons. cbn [go_fold].
  rewrite Hg by set_solver. assert (∀ a, go_fold g a l = go_fold g' a (filter P l)) as IH' by set_solver.
  case_decide; cbn [go_fold].
  - destruct (g' a b); simpl; [by rewrite IH'|done].
  - simpl. by rewrite IH'.
Qed.

(** What the nodes of [Pbft] hand to the hub. *)
Definition hub_message (m : pbft_msg) : Z * iface :=
  match m with
  | MPrePrepare d => (MsgTypePbftPrePrepare, Iface KPrePrepare d)
  | MPrepare d => (MsgTypePbftPrepare, Iface KPrepare d)
  | MCommit d => (MsgTypePbftCommit, Iface KCommit d)
  | MReply d => (MsgTypePbftReply, Iface KReply d)
  | MSendOld d => (MsgTypePbftSendOldMessage, Iface KSendOld d)
  end.

Section pbft_network.
Context (e : HubEnv) (comID n self : Z) (addr : Z → string).
(** A committee of [n] nodes at pairwise different addresses that accept
    connections, and this process is node [self] of it. *)
Record committee_net : Prop := {
  cn_size : hShardSize e = n;
  cn_range : 0 ≤ self < n ∧ n < 2^32;
  cn_self : self_addr e = addr self;
  cn_table : ∀ i, 0 ≤ i < n → node_at (ComNodeTable e) comID i = addr i;
  cn_addr : ∀ i, 0 ≤ i < n → addr i ≠ ""%string ∧ reachable_addr (addr i);
  cn_inj : ∀ i j, 0 ≤ i < n → 0 ≤ j < n → addr i = addr j → i = j
}.
Hypothesis Hnet : committee_net.

Definition pbft_targets (k : kind) : list Z :=
  filter (λ i, (i ≤ 0 ∨ ¬ (k = KReply ∨ k = KRequestOld)) ∧ i ≠ self) (upto n).

Lemma elem_of_upto i : i ∈ upto n ↔ 0 ≤ i < n.
Proof.
  unfold upto. rewrite u32_small by (destruct Hnet; unfold in_u32; lia). rewrite list_elem_of_fmap. split.
  - intros (j & -> & Hj%elem_of_seq). lia.
  - intros Hi. exists (Z.to_nat i). rewrite elem_of_seq. split; lia.
Qed.

Lemma hub_sendPbftMsg_targets t k msg f h :
  pbft_kind t = Some k → k ≠ KSendOld → frame_of t k msg = Ret f →
  hub_sendPbftMsg e comID msg t h = go_fold (λ h a, buffered_send a f h) h (addr <$> pbft_targets k).
Proof.
  intros Hk Hne Hf. unfold hub_sendPbftMsg. rewrite Hk. simpl. rewrite Hf. simpl.
  rewrite bool_decide_eq_false_2 by done. rewrite go_fold_fmap, (cn_size Hnet). unfold pbft_targets.
  apply go_fold_skip. intros x i Hi%elem_of_upto. rewrite (cn_table Hnet i Hi), (cn_self Hnet).
  assert (addr i = addr self ↔ i = self) as Hself.
  { split; [|by intros ->]. apply Hnet; [done|]. destruct Hnet. lia. }
  rewrite (bool_decide_ext _ _ Hself), (bool_decide_eq_false_2 (addr i = _)) by by apply Hnet.
  repeat case_bool_decide; simpl; case_decide as Hd; try done; exfalso;
    first [tauto | apply Hd; split; [left; lia|done] | destruct Hd as [[?|?] ?]; [lia|tauto]].
Qed.

Lemma upto_pos : upto n = Z.of_nat <$> seq 0 (Z.to_nat n).
Proof. unfold upto. by rewrite u32_small by (destruct Hnet; unfold in_u32; lia). Qed.
Lemma reply_target : pbft_targets KReply = if bool_decide (self = 0) then [] else [0].
Proof.
  unfold pbft_targets. rewrite upto_pos.
  destruct (Z.to_nat n) as [|k] eqn:Hn; [destruct Hnet; lia|]. cbn [seq]. rewrite fmap_cons, filter_cons.
  rewrite (filter_none _ (Z.of_nat <$> seq 1 k)).
  - case_bool_decide; case_decide as Hd; try done; exfalso; [by apply Hd|].
    apply Hd. split; [by left|simpl; lia].
  - intros i (j & -> & Hj%elem_of_seq)%list_elem_of_fmap [[Hi|Hi] _]; [lia|tauto].
Qed.
Lemma pbft_targets_spec m :
  (∀ d, m ≠ MSendOld d) ∧
    pbft_targets (match (hub_message m).2 with Iface k _ => k end) = (Pbft.sendPbftMsg n self m).*1 ∨
  ∃ d, m = MSendOld d.
Proof.
  destruct m; simpl; [left; split; [done|]..|by right; eexists].
  1-3: rewrite <-list_fmap_compose, list_fmap_id; unfold pbft_targets; rewrite upto_pos; apply list_filter_iff;
       intros i; split; [by intros [_ ?]|intros; split; [right; by intros [|]|done]].
  rewrite reply_target. by case_bool_decide.
Qed.

Lemma Send_pbft fuel m h :
  ∃ t k v, (hub_message m).2 = Iface k v ∧ wire_type k = Some t ∧ pbft_kind t = Some k ∧
    Send fuel e (hub_message m).1 comID (hub_message m).2 h = write_only (hub_sendPbftMsg e comID (Iface k v) t h).
Proof.
  destruct m as [d|d|d|d|d];
    [exists NetMsg.CPrePrepare, KPrePrepare, d|exists NetMsg.CPrepare, KPrepare, d|exists NetMsg.CCommit, KCommit, d
    |exists NetMsg.CReply, KReply, d|exists NetMsg.CSendOldrequest, KSendOld, d]; repeat split; reflexivity.
Qed.

Lemma pbft_broadcast_ok k f h :
  healthy h →
  ∃ cs h', go_fold (λ h a, buffered_send a f h) h (addr <$> pbft_targets k) = Ret h' ∧ healthy h' ∧
    wire h' = wire h ++ ((λ c, (c, f)) <$> cs) ∧
    Forall2 (λ c i, socks h' !! c = Some (addr i, true)) cs (pbft_targets k).
Proof.
  intros Hh. destruct (broadcast_ok f (addr <$> pbft_targets k) h Hh) as (cs & h' & Hb & Hh' & Hw & _ & Hcs).
  - apply Forall_fmap, Forall_forall. intros i [_ Hi%elem_of_upto]%list_elem_of_filter. by apply Hnet.
  - exists cs, h'. by rewrite Forall2_fmap_r in Hcs.
Qed.

Lemma hub_pbft_ok fuel m f h :
  healthy h → network_frame (hub_message m).2 = Ret f →
  (∀ d, m = MSendOld d → nComID (soReceiver d) = comID ∧ 0 ≤ nNodeID (soReceiver d) < n) →
  ∃ cs h', Send fuel e (hub_message m).1 comID (hub_message m).2 h = Ret (h', []) ∧ healthy h' ∧
    wire h' = wire h ++ ((λ c, (c, f)) <$> cs) ∧
    Forall2 (λ c p, socks h' !! c = Some (addr p.1, true)) cs (Pbft.sendPbftMsg n self m).
Proof.
  intros Hh Hf Hold. destruct (Send_pbft fuel m h) as (t & k & v & Hm & Ht & Hk & ->).
  rewrite Hm in Hf. simpl in Hf. rewrite Ht in Hf. simpl in Hf.
  destruct (pbft_targets_spec m) as [[Hno Htg]|[d ->]].
  - rewrite Hm in Htg. assert (k ≠ KSendOld) as Hne.
    { intros ->. destruct m; try by inversion Hm. by eapply Hno. }
    rewrite (hub_sendPbftMsg_targets t k _ f) by done.
    destruct (pbft_broadcast_ok k f h Hh) as (cs & h' & -> & Hh' & Hw & Hcs).
    exists cs, h'. split_and!; [done..|]. rewrite Htg in Hcs. by rewrite Forall2_fmap_r in Hcs.
  - simpl in Hm. assert (k = KSendOld) as -> by by inversion Hm. simplify_eq/=.
    destruct (Hold d eq_refl) as [Hc Hr]. destruct (cn_addr Hnet _ Hr) as [_ Ha].
    destruct (buffered_ok _ f h Hh Ha) as (c & h' & Hb & Hh' & Hw & _ & Hs).
    assert (d = v) as <-.
    { apply (f_equal (assert_type KSendOld)) in Hm. rewrite !assert_type_ok in Hm. by injection Hm. }
    exists [c], h'. unfold hub_sendPbftMsg. rewrite Hk. simpl (or_exit _ _ ≫= _). cbv beta. rewrite Hf.
    unfold sendOldRequests. cbn. rewrite Hc, (cn_table Hnet) by done. rewrite Hb.
    split_and!; [done..|]. by repeat constructor.
Qed.
End pbft_network.

(** *** Clearing the table *)
Lemma close_healthy a c h :
  healthy h → socks h !! c = Some (a, true) →
  ∃ h', conn_Close (Some c) h = Ret h' ∧ healthy (conns_Remove a h') ∧ conns2Node h' = conns2Node h ∧
    socks h' !! c = Some (a, false) ∧ ∀ d, d ≠ c → socks h' !! d = socks h !! d.
Proof.
  intros Hh Hc. unfold conn_Close. eexists. split; [done|]. simpl.
  assert (∀ d, d ≠ c → alter (λ pc : string * bool, (pc.1, false)) c (socks h) !! d = socks h !! d) as Hne
    by (intros; by apply list_lookup_alter_ne).
  split_and!; [|done| |exact Hne].
  - intros b conn. simpl. intros [Hab Hb]%lookup_delete_Some.
    destruct (Hh _ _ Hb) as (d & -> & Hd). exists d. split; [done|]. rewrite Hne; [done|]. intros ->. congruence.
  - by rewrite list_lookup_alter_eq, Hc.
Qed.

(** Of the connections of a node the hub keeps exactly those to preserved
    addresses, and it closes the others. *)
Lemma clear_loop (P : gset string) l h :
  healthy h → NoDup l.*1 → (∀ a conn, (a, conn) ∈ l → conns2Node h !! a = Some conn) →
  ∃ h', go_fold (λ h ac, if bool_decide (ac.1 ∈ P) then Ret h
                         else h ← conn_Close ac.2 h; Ret (conns_Remove ac.1 h)) h l = Ret h' ∧
    healthy h' ∧
    (∀ a, conns2Node h' !! a = if decide (a ∈ l.*1 ∧ a ∉ P) then None else conns2Node h !! a) ∧
    (∀ a c, (a, Some c) ∈ l → a ∉ P → socks h' !! c = Some (a, false)) ∧
    (∀ c a, socks h !! c = Some (a, false) → socks h' !! c = Some (a, false)).
Proof.
  revert h. induction l as [|[a conn] l IH]; intros h Hh Hnd Hl.
  { exists h. split_and!; [done|done| |set_solver|done]. intros a. case_decide as Hd; [set_solver|done]. }
  apply NoDup_cons in Hnd as [Ha Hnd]. cbn [go_fold fst snd].
  destruct (Hh a conn) as (c & -> & Hc); [apply Hl; by left|]. case_bool_decide as HP.
  - destruct (IH h Hh Hnd) as (h' & Hf & Hh' & Hcn & Hcl & Hst); [set_solver|].
    exists h'. cbn [mbind go_bind]. split_and!; [done..| | |done].
    + intros b. rewrite Hcn. repeat case_decide; set_solver.
    + intros b d [[= -> ->]|Hb]%elem_of_cons; [done|by apply Hcl].
  - destruct (close_healthy a c h Hh Hc) as (h1 & -> & Hh1 & Hcn1 & Hc1 & Hne). cbn [mbind go_bind].
    destruct (IH (conns_Remove a h1) Hh1 Hnd) as (h' & Hf & Hh' & Hcn & Hcl & Hst).
    { intros b conn Hb. simpl. rewrite Hcn1, lookup_delete_ne; [set_solver|]. intros ->. apply Ha.
      apply list_elem_of_fmap. by exists (b, conn). }
    exists h'. split_and!; [done..| | |].
    + intros b. rewrite Hcn. simpl. rewrite Hcn1. destruct (decide (b = a)) as [->|Hba].
      * rewrite lookup_delete_eq. repeat case_decide; set_solver.
      * rewrite lookup_delete_ne by done. repeat case_decide; set_solver.
    + intros b d [[= -> ->]|Hb]%elem_of_cons HbP; [by apply Hst|by apply Hcl].
    + intros d b Hd. apply Hst. simpl. rewrite Hne; [done|]. intros ->. congruence.
Qed.
Lemma clearConnection_spec e info h :
  healthy h →
  ∃ h', clearConnection e (Iface KNodeInfo info) h = Ret h' ∧ healthy h' ∧
    (∀ a, conns2Node h' !! a = if decide (a ∈ to_preserved e info) then conns2Node h !! a else None) ∧
    (∀ a c, conns2Node h !! a = Some (Some c) → a ∉ to_preserved e info → socks h' !! c = Some (a, false)).
Proof.
  intros Hh. unfold clearConnection. rewrite assert_type_ok. cbn [mbind go_bind].
  destruct (clear_loop (to_preserved e info) (map_iter (conns2Node h)) h Hh) as (h' & Hf & Hh' & Hcn & Hcl & _).
  - apply NoDup_fst_map_iter.
  - intros a conn. by rewrite elem_of_map_iter.
  - exists h'. split_and!; [done..| |].
    + intros a. rewrite Hcn. repeat case_decide; try done; [tauto|].
      destruct (conns2Node h !! a) as [conn|] eqn:Ha; [|done]. exfalso. apply H. split; [|done].
      apply list_elem_of_fmap. exists (a, conn). by rewrite elem_of_map_iter.
    + intros a c Ha. apply Hcl. by rewrite elem_of_map_iter.
Qed.

(** [dial] drops its error, so a peer that cannot be reached is stored as a
    nil connection and the first write to it panics. *)
Lemma unreachable_peer_panics e fuel shardID (d : StateRequest) h f :
  let addr := node_at (NodeTable e) shardID 0 in
  conns2Node h !! addr = None → (∀ k, dial_ok k addr = false) →
  network_frame (Iface KGetState d) = Ret f →
  Send fuel e MsgTypeComGetStateFromShard shardID (Iface KGetState d) h =
    Halt (GoPanic "nil pointer dereference").
Proof.
  intros addr Hc Hd Hf. simpl in Hf. unfold Send. simpl (_ =? _). cbv iota.
  unfold comGetStateFromShard, write_only. rewrite Hf. cbn [mbind go_bind].
  unfold buffered_send, connect, conns_Get, dial, net_Dial. fold addr. rewrite Hc, !Hd. done.
Qed.
End send.

(** ** The hub as a network *)
Section network.
Context `{G : Gob} `{GL : !GobLaws} `{MI : MapIter} {S : Type} `{C : Components S}.
Context (dial_ok : nat → string → bool) (answer : string → bytes → bytes).
Context (eth_latest : bytes * Z) (eth_block : Z → bytes * Z).

(** C15. Whatever calls of [Send] a process makes, in whatever order its
    sending goroutines run, and whether or not its dials succeed, the bytes it
    has written to any one connection are read back by [handleConnection] as
    the messages themselves, in the order sent and each as often as it was
    written to that connection: the receiver behaves as if the handler of each
    message's type had been given the very value that was sent. *)
Theorem hub_delivers fuel e ms h0 h c (st : served S) :
  wire h0 = [] →
  go_fold (perform dial_ok answer eth_latest eth_block fuel e) h0 ms = Ret h →
  Forall (λ m, fits (sent_msg m.1.1 m.1.2 m.2)) ms →
  ∃ counts, length counts = length ms ∧
    handleConnection st (stream c h) = receive_all st (delivered counts ms).
Proof.
  intros Hw Hrun Hfit. apply (run_streams _ _ _ _ _ _ _ _ _ c) in Hrun as (counts & frames & Hlen & Hst & Hall).
  exists counts. split; [done|]. rewrite Hst. unfold stream. rewrite Hw. simpl.
  apply handleConnection_frames; [done|]. by apply delivered_Forall.
Qed.

(** C26. For a committee whose nodes have different addresses that accept
    connections, the hub implements the network of the consensus model: a
    message a node hands to [Send] is written exactly once, as one frame, to an
    open connection of each member that [Pbft.sendPbftMsg] names (all the
    others for a broadcast, the leader for a write_reply, the asking node for old
    requests), in that order, and all connections of the table still work. *)
Theorem pbft_hub_refines fuel e comID n self addr m f h :
  committee_net dial_ok e comID n self addr → healthy h →
  network_frame (hub_message m).2 = Ret f →
  (∀ d, m = MSendOld d → nComID (soReceiver d) = comID ∧ 0 ≤ nNodeID (soReceiver d) < n) →
  ∃ cs h',
    Send dial_ok answer eth_latest eth_block fuel e (hub_message m).1 comID (hub_message m).2 h = Ret (h', []) ∧
    healthy h' ∧ wire h' = wire h ++ ((λ c, (c, f)) <$> cs) ∧
    Forall2 (λ c p, socks h' !! c = Some (addr p.1, true)) cs (Pbft.sendPbftMsg n self m).
Proof. intros Hnet Hh Hf Hold. by apply hub_pbft_ok. Qed.
End network.

(** ** A process of two nodes and one client *)
Module DemoHub.
Definition info : NodeInfo := mkNodeInfo 0 0 1 "n1".
Definition toy_gob (k : kind) : carrier k → option bytes :=
  match k with
  | KInjectDone => λ cid, Some [cid]
  | KPrepare => λ p, if decide (pSender p = info) then Some (pSeqID p :: pDigest p) else None
  | _ => λ _, None
  end.
Definition toy_ungob (k : kind) : bytes → option (carrier k) :=
  match k with
  | KInjectDone => λ b, head b
  | KPrepare => λ b, match b with s :: d => Some (mkPrepare d s info) | [] => None end
  | _ => λ _, None
  end.
#[global] Instance gob : Gob := {|
  gob_encode := toy_gob;
  gob_decode := toy_ungob;
  msg_encode m := if decide (mMsgType m = NetMsg.CPrepare) then Some (1 :: mData m)
                  else if decide (mMsgType m = NetMsg.ClientSetInjectDone) then Some (2 :: mData m) else None;
  msg_decode b := match b with
                  | 1 :: d => Some (mkMsg NetMsg.CPrepare d)
                  | 2 :: d => Some (mkMsg NetMsg.ClientSetInjectDone d)
                  | _ => None
                  end
|}.
#[global] Instance gob_laws : GobLaws.
Proof.
  split.
  - intros k v b. destruct k; simpl; try done.
    + by intros [= <-].
    + case_decide; [|done]. intros [= <-]. destruct v; simpl in *. congruence.
  - intros [t d] b. simpl. repeat case_decide; intros; simplify_eq; done.
Qed.
Definition env : HubEnv :=
  let t := {[0 := {[0 := "n0"%string; 1 := "n1"%string]}]} in
  mkHubEnv 1 2 2 1 t t {[0 := "c0"%string]} "n1" false true.
Definition hub : Hub := mkHub ∅ [] [] 0.
Definition run : list (Z * Z * iface) :=
  [(MsgTypePbftPrepare, 0, Iface KPrepare (mkPrepare [5; 6] 3 info));
   (MsgTypeSetInjectDone2Nodes, 7, Iface KNil tt);
   (MsgTypePbftPrepare, 0, Iface KPrepare (mkPrepare [8] 4 info))].
Abbreviation performed := (perform (MI := canonical_iter) (λ _ _, true) (λ _ _, []) ([], 0) (λ z, ([], z)) 1 env).
(** The components keep the list of the calls made. *)
#[global] Instance log : Components (list call) := {|
  component_call s c := Ret (s ++ [c]);
  booter_HandleShardSendGenesis s _ := Ret (s, true);
  shard_HandleComGetHeight s _ := Ret (s, 0);
  committee_HandleGetPoolTx s _ := Ret (s, mkPoolTx [] []);
  shard_HandleGetSyncData s q := Ret (s, mkSyncReply (srClientAddr q) (mkSyncData ∅ []));
  node_ref := true;
  client_ref := false
|}.
Definition idle : served (list call) := mkServed [] ∅ [] [] false.
Definition after : Hub := match go_fold performed hub run with Ret h => h | Halt _ => hub end.
End DemoHub.

Lemma hub_delivers_witness :
  go_fold DemoHub.performed DemoHub.hub DemoHub.run = Ret DemoHub.after ∧
  ∃ counts, length counts = 3%nat ∧
    handleConnection DemoHub.idle (stream 0 DemoHub.after) = receive_all DemoHub.idle (delivered counts DemoHub.run).
Proof.
  split; [by vm_compute|].
  apply (hub_delivers (MI := canonical_iter) (λ _ _, true) (λ _ _, []) ([], 0) (λ z, ([], z)) 1 DemoHub.env
           DemoHub.run DemoHub.hub DemoHub.after 0 DemoHub.idle); [done|by vm_compute|].
  assert (∀ k v t d b, wire_type k = Some t → gob_encode k v = Some d → msg_encode (mkMsg t d) = Some b →
            len d < 10 → len b < 2^32) as Hlen.
  { intros k v t d b _ _ Hb Hd. simpl in Hb. repeat case_decide; simplify_eq; rewrite len_cons; simpl in *; lia. }
  repeat (apply Forall_cons; split); [..|done]; intros t d b Ht Hd Hb; eapply Hlen; eauto;
    vm_compute in Hd; injection Hd as <-; done.
Defined.

Lemma pbft_hub_refines_witness :
  let m := MPrepare (mkPrepare [5; 6] 3 DemoHub.info) in
  let addr := λ i, if decide (i = 0) then "n0"%string else "n1"%string in
  ∃ f cs h', network_frame (hub_message m).2 = Ret f ∧
    Send (MI := canonical_iter) (λ _ _, true) (λ _ _, []) ([], 0) (λ z, ([], z)) 1 DemoHub.env
      (hub_message m).1 0 (hub_message m).2 DemoHub.hub = Ret (h', []) ∧
    healthy h' ∧ wire h' = (λ c, (c, f)) <$> cs ∧
    Forall2 (λ c p, socks h' !! c = Some (addr p.1, true)) cs (Pbft.sendPbftMsg 2 1 m).
Proof.
  intros m addr.
  assert (∃ f, network_frame (hub_message m).2 = Ret f) as [f Hf] by (eexists; by vm_compute).
  destruct (pbft_hub_refines (MI := canonical_iter) (λ _ _, true) (λ _ _, []) ([], 0) (λ z, ([], z)) 1 DemoHub.env
              0 2 1 addr m f DemoHub.hub) as (cs & h' & H); [|done|done|done|by exists f, cs, h'].
  split; try done.
  - intros i Hi. unfold addr. case_decide; [by subst|]. assert (i = 1) as -> by lia. done.
  - intros i Hi. unfold addr. by case_decide.
  - intros i j Hi Hj. unfold addr. repeat case_decide; intros; simplify_eq; lia.
Defined.
