(* ===== verification/Startup.v ===== *)
(** * Start-up: addresses, workload and genesis (src/cfg/node.go,
    src/data/dataprocess.go, src/node/booter.go, the start of
    src/node/node.go)

    The address tables every process is compiled with; the transactions of the
    data set and their distribution over shards and clients; the booter, which
    collects the genesis beacons of all shards and deploys the contract; the
    leader of a shard, which waits for its nodes before it sends its genesis. *)
From stdpp Require Import pretty.
From S2P Require Import Prelude Core Utils Result Beacon Client Exec BlockChain ShardNode.
Local Open Scope Z_scope.

(** ** [cfg]: addresses *)
Definition Sprint (n : Z) : string := pretty n.
Definition BooterAddr : string := "192.168.3.2:" +:+ Sprint 18000.
Definition ClientTable0 : gmap Z string := {[0 := "192.168.3.2:" +:+ Sprint 19000]}.
Definition hosts : list string :=
  ["192.168.3.3"; "192.168.3.4"; "192.168.3.5"; "192.168.3.6"; "192.168.3.7"; "192.168.3.8"; "192.168.3.9";
   "192.168.3.10"]%string.
(** The loops of [init]: entry [l + k * 8] has the host of entry [l] and a port
    range of its own. *)
Definition hostTable : list string := hosts ++ hosts ++ hosts ++ hosts.
Definition startPortTable : list Z :=
  (λ k, 20000 + 20 * (Z.of_nat k `div` 8)) <$> seq 0 32.
Definition node_row (host : string) (startPort : Z) : gmap Z string :=
  list_to_map ((λ j, (Z.of_nat j, host +:+ ":" +:+ Sprint (startPort + Z.of_nat j))) <$> seq 0 20).
Definition NodeTable0 : gmap Z (gmap Z string) :=
  list_to_map (imap (λ i hp, (Z.of_nat i, node_row hp.1 hp.2)) (zip hostTable startPortTable)).
Definition ComNodeTable0 : gmap Z (gmap Z string) := NodeTable0.

(** All addresses of the table, with their positions. *)
Definition table_entries (t : gmap Z (gmap Z string)) : list ((Z * Z) * string) :=
  map_to_list t ≫= λ im, (λ ja, ((im.1, ja.1), ja.2)) <$> map_to_list im.2.
Lemma node_table_distinct : NoDup (table_entries NodeTable0).*2 ∧ length (table_entries NodeTable0) = 640%nat.
Proof. split; by_compute. Qed.

(** ** [data]: the workload *)
Section data.
Context `{MI : MapIter}.
(** [common.HexToAddress] and [Address.Hex]. *)
Variable HexToAddress : string → bytes.
Variable Hex : bytes → string.

(** [row[i][2:]] *)
Definition skip2 (row : list string) (i : Z) : go string :=
  s ← go_index row i;
  if bool_decide (String.length s < 2)%nat then Halt (GoPanic "slice bounds out of range")
  else Ret (String.substring 2 (String.length s - 2) s).
Definition row_tx (txid : Z) (row : list string) : go Transaction :=
  s ← skip2 row 0;
  r ← skip2 row 1;
  Ret (mkTransaction UndefinedTXType txid (HexToAddress s) (HexToAddress r) 0 1 0 0 0 0 0 0 0 0 0).
(** The loop over the rows of the file; [None] is a row that cannot be read.
    [maxTxNum] is positive or everything is loaded. *)
Fixpoint load_rows (maxTxNum txid : Z) (alltxs : list Transaction) (rows : list (option (list string))) :
    go (list Transaction) :=
  match rows with
  | [] => Ret alltxs
  | None :: _ => Halt (LogError "Read transaction error!")
  | Some row :: rows =>
      tx ← row_tx txid row;
      let alltxs := alltxs ++ [tx] in
      let txid := u64 (txid + 1) in
      if bool_decide (maxTxNum > 0) && bool_decide (txid >= u64 maxTxNum) then Ret alltxs
      else load_rows maxTxNum txid alltxs rows
  end.
(** The last log line reads the first transaction. *)
Definition LoadETHData (maxTxNum : Z) (rows : list (option (list string))) (res : Result) :
    go (list Transaction * Result) :=
  alltxs ← load_rows maxTxNum 0 [] rows;
  _ ← go_index alltxs 0;
  Ret (alltxs, SetTotalTXNum (len alltxs) res).

Definition set_shards (shardNum : Z) (tx : Transaction) : go Transaction :=
  sid ← Addr2Shard (Hex (Sender tx)) shardNum;
  to_sid ← Addr2Shard (Hex (Recipient tx)) shardNum;
  Ret (set_sids (u32 sid) (u32 to_sid) tx).
Definition SetTxShardId (shardNum : Z) (alltxs : list Transaction) : go (list Transaction) :=
  go_fold (λ acc tx, tx ← set_shards shardNum tx; Ret (acc ++ [tx])) [] alltxs.

Definition shard_accounts (shardId : Z) (alltxs : list Transaction) : gmap bytes unit :=
  foldl (λ m tx,
    let m := if bool_decide (Sender_sid tx = shardId) then <[Sender tx := tt]> m else m in
    if bool_decide (Recipient_sid tx = shardId) then <[Recipient tx := tt]> m else m) ∅ alltxs.
Definition SetShardInitialAccountState {SDB} `{StateDB SDB} (alltxs : list Transaction) (s : Shard SDB) :
    go (Shard SDB) :=
  SetInitialAccountState (shard_accounts (nShardID (sInfo s)) alltxs) 10000000000 s.

Definition SetTX2ClientTable (clientNum : Z) (alltxs : list Transaction) : go (gmap Z Z) :=
  go_fold (λ t tx, cid ← go_rem (i64 (ID tx)) clientNum; Ret (<[ID tx := cid]> t)) ∅ alltxs.
(** The transactions a client gets; a transaction without entry goes to
    client 0. *)
Definition client_txs (t : gmap Z Z) (alltxs : list Transaction) (cid : Z) : list Transaction :=
  filter (λ tx, default 0 (t !! ID tx) = cid) alltxs.

(** *** Facts *)
Lemma load_rows_ids maxTxNum rows : ∀ txid acc l,
  ID <$> acc = Z.of_nat <$> seq 0 (length acc) → txid = len acc → len acc + len rows < 2^64 →
  load_rows maxTxNum txid acc rows = Ret l → ID <$> l = Z.of_nat <$> seq 0 (length l).
Proof.
  induction rows as [|[row|] rows IH]; intros txid acc l Hids Hid Hlen H;
    [by simpl in H; go_inv| |done].
  cbn [load_rows] in H. apply go_bind_Ret in H as (tx & Htx & H). rewrite len_cons in Hlen.
  assert (ID tx = txid) as Hidtx.
  { unfold row_tx in Htx. go_inv. done. }
  assert (ID <$> (acc ++ [tx]) = Z.of_nat <$> seq 0 (length (acc ++ [tx]))) as Hids'.
  { rewrite length_app, Nat.add_1_r, seq_S, !fmap_app, Hids. simpl. rewrite Hidtx, Hid. done. }
  cbv zeta in H. case_match; [by go_inv|]. pose proof (len_nonneg rows). pose proof (len_nonneg acc).
  eapply IH; [exact Hids'| | |exact H]; rewrite len_app; unfold len at 2; simpl; [|lia].
  subst txid. apply u64_small. unfold in_u64. lia.
Qed.

Lemma client_table_ok clientNum alltxs :
  0 < clientNum → Forall (λ tx, 0 ≤ ID tx < 2^63) alltxs →
  ∃ t, SetTX2ClientTable clientNum alltxs = Ret t ∧
    ∀ tx, tx ∈ alltxs → t !! ID tx = Some (ID tx `mod` clientNum).
Proof.
  intros Hc HF. unfold SetTX2ClientTable.
  rewrite (go_fold_pure _ (λ t tx, <[ID tx := ID tx `mod` clientNum]> t)).
  - eexists. split; [done|]. clear HF. induction alltxs as [|tx l IH] using rev_ind; [by intros ? ?%elem_of_nil|].
    intros tx' Hin. rewrite foldl_snoc, lookup_insert. case_decide as E; [by rewrite E|].
    apply IH. apply elem_of_app in Hin as [?|Hin]; [done|]. apply list_elem_of_singleton in Hin as ->. done.
  - intros t tx Hin. rewrite Forall_forall in HF. specialize (HF tx Hin).
    rewrite i64_small by (unfold in_i64; lia). unfold go_rem. rewrite bool_decide_false by lia. simpl.
    by rewrite Z.rem_mod_nonneg by lia.
Qed.

(** Splitting a list by a number below [n] and joining the parts. *)
Lemma split_cons {A} (cl : A → Z) x l zs :
  NoDup zs → cl x ∈ zs →
  zs ≫= (λ c, filter (λ y, cl y = c) (x :: l)) ≡ₚ x :: (zs ≫= λ c, filter (λ y, cl y = c) l).
Proof.
  induction zs as [|z zs IHz]; intros Hnd Hin; [by apply elem_of_nil in Hin|].
  apply NoDup_cons in Hnd as [Hz Hnd]. rewrite !bind_cons, filter_cons. case_decide as E.
  - simpl. subst z. apply perm_skip, Permutation_app_head. clear IHz Hnd Hin.
    induction zs as [|y zs IHy]; [done|]. rewrite !bind_cons, filter_cons. case_decide; [set_solver|].
    apply Permutation_app_head, IHy. set_solver.
  - rewrite IHz; [|done|set_solver]. by rewrite Permutation_middle.
Qed.
Lemma split_join {A} (cl : A → Z) n l :
  (∀ x, x ∈ l → 0 ≤ cl x < n) → (Z.of_nat <$> seq 0 (Z.to_nat n)) ≫= (λ c, filter (λ x, cl x = c) l) ≡ₚ l.
Proof.
  induction l as [|x l IH]; intros Hr; [by induction (Z.of_nat <$> seq 0 (Z.to_nat n)) as [|z zs IHz]|].
  rewrite split_cons; [|apply NoDup_fmap_2; [apply _|apply NoDup_seq]|].
  - rewrite IH; [done|]. intros. apply Hr. by right.
  - apply list_elem_of_fmap. exists (Z.to_nat (cl x)). rewrite elem_of_seq.
    specialize (Hr x (list_elem_of_here _ _)). lia.
Qed.

(** Every transaction of the data set goes to exactly one client. *)
Theorem clients_partition clientNum alltxs :
  0 < clientNum → Forall (λ tx, 0 ≤ ID tx < 2^63) alltxs →
  ∃ t, SetTX2ClientTable clientNum alltxs = Ret t ∧
    (Z.of_nat <$> seq 0 (Z.to_nat clientNum)) ≫= client_txs t alltxs ≡ₚ alltxs.
Proof.
  intros Hc HF. destruct (client_table_ok clientNum alltxs Hc HF) as (t & Ht & Hid). exists t. split; [done|].
  apply (split_join (λ tx, default 0 (t !! ID tx))). intros tx Htx. rewrite (Hid tx Htx). simpl. apply Z.mod_pos_bound. lia.
Qed.
End data.

(** ** The booter *)
Section booter.
Context `{MI : MapIter}.
(** The address of the contract that [deployContract] gets back. *)
Variable deploy : list TimeBeacon → list (list bytes) → bytes.

Definition zero_address : bytes := replicate 20 0.
(** The message to all nodes with the contract's address, which also ends the
    booter's listener. *)
Definition booter_HandleGenesis (data : ShardSendGenesis) (tbchain : BeaconChain) :
    go (BeaconChain * option bytes) :=
  '(tbchain, _) ← SetAddrs (sgAddrs data) [] 0 (tbShardID (sgGtb data)) 0 tbchain;
  '(tbchain, calls) ← AddEthChainGenesisTB (sgGtb data) tbchain;
  let contractAddr := match calls with
                      | [DeployContract tbs addrs] => deploy tbs addrs
                      | _ => zero_address
                      end in
  Ret (tbchain, if bool_decide (contractAddr ≠ zero_address) then Some contractAddr else None).
Fixpoint booter_run (c : BeaconChain) (ms : list ShardSendGenesis) : go (list (option bytes)) :=
  match ms with
  | [] => Ret []
  | m :: ms => '(c, r) ← booter_HandleGenesis m c; rs ← booter_run c ms; Ret (r :: rs)
  end.

Abbreviation shard_of := (λ m, tbShardID (sgGtb m)).

(** After the messages [ms]. *)
Record collected (n : Z) (ms : list ShardSendGenesis) (c : BeaconChain) : Prop := {
  cl_mode : mode c = 1 ∨ mode c = 2;
  cl_num : Beacon.shardNum c = n;
  cl_len : len (addrs c) = n;
  cl_tbs : genesisTBs c = list_to_map ((λ m, (shard_of m, sgGtb m)) <$> reverse ms);
  cl_addrs : ∀ m, m ∈ ms → addrs c !! Z.to_nat (shard_of m) = Some (sgAddrs m)
}.

Lemma collected_step n ms m c :
  collected n ms c → 0 ≤ shard_of m < n → shard_of m ∉ shard_of <$> ms → Forall (λ m, 0 ≤ shard_of m < n) ms →
  ∃ c', SetAddrs (sgAddrs m) [] 0 (shard_of m) 0 c = Ret (c', []) ∧
    collected n (ms ++ [m]) (set_genesisTBs (<[shard_of m := sgGtb m]> (genesisTBs c')) c').
Proof.
  intros [Hmode Hnum Hlen Htbs Haddrs] Hm Hnew Hms. unfold SetAddrs. rewrite bool_decide_true by done.
  rewrite go_store_ok by lia. simpl. eexists. split; [done|].
  split; simpl; [done|done| | |].
  - unfold len. by rewrite length_insert.
  - rewrite Htbs, reverse_app. done.
  - intros m' [Hin|Hin]%elem_of_app.
    + rewrite list_lookup_insert_ne; [by apply Haddrs|]. rewrite Forall_forall in Hms. specialize (Hms m' Hin). simpl in Hms.
      intros E. apply Hnew. apply list_elem_of_fmap. exists m'. split; [lia|done].
    + apply list_elem_of_singleton in Hin as ->. apply list_lookup_insert_eq. unfold len in Hlen. lia.
Qed.

Lemma fill_array {A} (l : list (Z * A)) : ∀ arr,
  NoDup l.*1 → Forall (λ iv, 0 ≤ iv.1 < len arr) l →
  ∃ arr', go_fold (λ arr '(i, v), go_store arr i v) arr l = Ret arr' ∧ len arr' = len arr ∧
    (∀ i v, (i, v) ∈ l → arr' !! Z.to_nat i = Some v) ∧
    (∀ j, (∀ i v, (i, v) ∈ l → Z.to_nat i ≠ j) → arr' !! j = arr !! j).
Proof.
  induction l as [|[i v] l IH]; intros arr Hnd HF; [exists arr; split_and!; [done|done|by intros ? ? ?%elem_of_nil|done]|].
  apply NoDup_cons in Hnd as [Hi Hnd]. apply Forall_cons in HF as [Hr HF]. simpl in Hr. cbn [go_fold].
  rewrite go_store_ok by done. cbn [mbind go_bind]. simpl in Hi.
  assert (len (<[Z.to_nat i := v]> arr) = len arr) as Hlen by (unfold len; by rewrite length_insert).
  destruct (IH (<[Z.to_nat i := v]> arr) Hnd) as (arr' & -> & Hl & Hin & Hout); [by rewrite Hlen|].
  exists arr'. split_and!; [done|lia| |].
  - intros i' v' [[= -> ->]|Hin']%elem_of_cons; [|by apply Hin]. rewrite Hout.
    + apply list_lookup_insert_eq. unfold len in Hr. lia.
    + intros i1 v1 H1 E. apply Hi. apply list_elem_of_fmap. exists (i1, v1). split; [|done]. simpl.
      rewrite Forall_forall in HF. specialize (HF _ H1). simpl in HF. lia.
  - intros j Hj. rewrite Hout.
    + apply list_lookup_insert_ne. apply (Hj i v). by left.
    + intros i1 v1 H1. apply (Hj i1 v1). by right.
Qed.

(** A message either completes the collection, and then the contract is
    deployed with every shard's beacon and addresses at its index, or not, and
    then nothing is deployed. *)
Lemma booter_step n ms m c :
  collected n ms c → NoDup (shard_of <$> ms ++ [m]) → Forall (λ m, 0 ≤ shard_of m < n) (ms ++ [m]) →
  ∃ c', collected n (ms ++ [m]) c' ∧
    ((len (ms ++ [m]) < n ∧ booter_HandleGenesis m c = Ret (c', None)) ∨
     (len (ms ++ [m]) = n ∧ ∃ tbs, 
        (∀ m', m' ∈ ms ++ [m] → tbs !! Z.to_nat (shard_of m') = Some (sgGtb m') ∧
                                addrs c' !! Z.to_nat (shard_of m') = Some (sgAddrs m')) ∧
        booter_HandleGenesis m c =
          Ret (c', if bool_decide (deploy tbs (addrs c') ≠ zero_address) then Some (deploy tbs (addrs c')) else None))).
Proof.
  intros Hc Hnd HF. pose proof HF as [Hms [Hm _]%Forall_cons]%Forall_app.
  assert (shard_of m ∉ shard_of <$> ms) as Hnew.
  { rewrite fmap_app in Hnd. apply NoDup_app in Hnd as (_ & Hd & _). intros Hin. apply (Hd _ Hin). by left. }
  destruct (collected_step n ms m c Hc Hm Hnew Hms) as (c1 & Hs & Hc').
  set (c' := set_genesisTBs (<[shard_of m := sgGtb m]> (genesisTBs c1)) c1) in *.
  exists c'. split; [done|]. unfold booter_HandleGenesis. rewrite Hs. cbn [mbind go_bind]. unfold AddEthChainGenesisTB. fold c'.
  set (l := (λ m, (shard_of m, sgGtb m)) <$> reverse (ms ++ [m])).
  assert (NoDup l.*1) as Hndl.
  { unfold l. rewrite <-list_fmap_compose. rewrite <-(reverse_Permutation (ms ++ [m])) in Hnd. exact Hnd. }
  assert (Z.of_nat (size (genesisTBs c')) = len (ms ++ [m])) as Hsize.
  { rewrite (cl_tbs _ _ _ Hc'). fold l. rewrite <-length_map_to_list, map_to_list_to_map by done. unfold l, len.
    by rewrite length_fmap, length_reverse. }
  rewrite Hsize, (cl_num _ _ _ Hc').
  assert (len (ms ++ [m]) ≤ n) as Hle.
  { assert (shard_of <$> ms ++ [m] ⊆ Z.of_nat <$> seq 0 (Z.to_nat n)) as Hsub.
    { intros z (m' & -> & Hin)%list_elem_of_fmap. rewrite Forall_forall in HF. specialize (HF m' Hin). simpl in HF.
      apply list_elem_of_fmap. exists (Z.to_nat (shard_of m')). rewrite elem_of_seq. lia. }
    apply (NoDup_submseteq _ _ Hnd), submseteq_length in Hsub. rewrite !length_fmap, length_seq in Hsub. unfold len. lia. }
  case_bool_decide as E; [right|left; split; [lia|]].
  - split; [done|]. pose proof (map_iter_perm (genesisTBs c')) as Hp.
    assert (∀ i tb, (i, tb) ∈ map_iter (genesisTBs c') ↔ ∃ m', m' ∈ ms ++ [m] ∧ i = shard_of m' ∧ tb = sgGtb m') as Hel.
    { intros i tb. rewrite elem_of_map_iter, (cl_tbs _ _ _ Hc'). fold l. rewrite <-elem_of_list_to_map by done.
      unfold l. rewrite list_elem_of_fmap. setoid_rewrite elem_of_reverse. naive_solver. }
    destruct (fill_array (map_iter (genesisTBs c')) (replicate (Z.to_nat n) (mkTimeBeacon 0 0 "" "" "")))
      as (tbs & Hf & _ & Hin & _).
    + apply NoDup_fst_map_iter.
    + apply Forall_forall. intros [i tb] (m' & Hm' & -> & ->)%Hel. rewrite Forall_forall in HF. specialize (HF m' Hm').
      simpl in *. unfold len. rewrite length_replicate. lia.
    + exists tbs. split.
      * intros m' Hm'. split; [|by apply (cl_addrs _ _ _ Hc')]. apply Hin. apply Hel. by exists m'.
      * rewrite Hf. done.
  - cbn [mbind go_bind]. by rewrite bool_decide_false by by intros [].
Qed.

Hypothesis deploy_ok : ∀ tbs ads, deploy tbs ads ≠ zero_address.

Lemma booter_run_ok n rest : ∀ pre c,
  collected n pre c → NoDup (shard_of <$> pre ++ rest) → Forall (λ m, 0 ≤ shard_of m < n) (pre ++ rest) →
  len (pre ++ rest) = n → rest ≠ [] →
  ∃ tbs ads, booter_run c rest = Ret (replicate (length rest - 1) None ++ [Some (deploy tbs ads)]) ∧
    ∀ m, m ∈ pre ++ rest → tbs !! Z.to_nat (shard_of m) = Some (sgGtb m) ∧ ads !! Z.to_nat (shard_of m) = Some (sgAddrs m).
Proof.
  induction rest as [|m rest IH]; intros pre c Hc Hnd HF Hlen Hne; [done|].
  replace (pre ++ m :: rest) with ((pre ++ [m]) ++ rest) in * by by rewrite <-app_assoc.
  destruct (booter_step n pre m c Hc) as (c' & Hc' & Hstep).
  { rewrite fmap_app in Hnd. by apply NoDup_app in Hnd as [? _]. }
  { by apply Forall_app in HF as [? _]. }
  cbn [booter_run]. destruct Hstep as [[Hlt ->]|(Heq & tbs & Htbs & ->)]; cbn [mbind go_bind].
  - assert (rest ≠ []) as Hr by (intros ->; rewrite app_nil_r in Hlen; lia).
    destruct (IH (pre ++ [m]) c' Hc' Hnd HF Hlen Hr) as (tbs & ads & -> & Hall). exists tbs, ads. split; [|done].
    destruct rest; [done|]. simpl. by rewrite Nat.sub_0_r.
  - assert (rest = []) as ->.
    { destruct rest as [|m' rest]; [done|]. rewrite len_app, len_cons in Hlen. pose proof (len_nonneg rest). lia. }
    exists tbs, (addrs c'). rewrite app_nil_r. split; [|done]. rewrite bool_decide_true by done. done.
Qed.

(** The booter deploys the contract exactly once, at the last genesis message,
    whatever the order in which the shards report. *)
Theorem booter_deploys ms n md h2c req :
  md = 1 ∨ md = 2 → 0 < n → shard_of <$> ms ≡ₚ Z.of_nat <$> seq 0 (Z.to_nat n) →
  ∃ tbs ads, booter_run (NewTBChain md h2c req n) ms = Ret (replicate (Z.to_nat n - 1) None ++ [Some (deploy tbs ads)]) ∧
    ∀ m, m ∈ ms → tbs !! Z.to_nat (shard_of m) = Some (sgGtb m) ∧ ads !! Z.to_nat (shard_of m) = Some (sgAddrs m).
Proof.
  intros Hmd Hn Hp. assert (length ms = Z.to_nat n) as Hl.
  { apply Permutation_length in Hp. by rewrite !length_fmap, length_seq in Hp. }
  rewrite <-Hl. apply (booter_run_ok n ms []); simpl.
  - split; simpl; [done|done|unfold len; rewrite length_replicate; lia|done|by intros ? ?%elem_of_nil].
  - rewrite Hp. apply NoDup_fmap_2; [apply _|apply NoDup_seq].
  - apply Forall_forall. intros m Hm. assert (shard_of m ∈ shard_of <$> ms) as Hin by (apply list_elem_of_fmap; by exists m).
    rewrite Hp in Hin. apply list_elem_of_fmap in Hin as (k & -> & Hk%elem_of_seq). lia.
  - unfold len. lia.
  - by destruct ms; [simpl in Hl; lia|].
Qed.
End booter.

(** ** The leader of a shard *)
Section node_start.
Context {SDB : Type}.

(** [NewNode]: the identity of a node. *)
Definition new_node_info (table : gmap Z (gmap Z string)) (shardID comID nodeID : Z) : NodeInfo :=
  mkNodeInfo (u32 shardID) (u32 comID) (u32 nodeID)
    (default ""%string (table !! u32 shardID ≫= λ m, m !! u32 nodeID)).
(** [sendNodeInfo]: a leader does not report to itself. *)
Definition node_sendNodeInfo (info : NodeInfo) (addr : bytes) : option (NodeInfo * bytes) :=
  if IsComLeader (nNodeID info) then None else Some (info, addr).
(** [HandleNodeSendInfo]: the shard is started, which sends its genesis, when
    all its nodes have reported; [true] says that it was. *)
Definition HandleNodeSendInfo (comAllNodeNum : Z) (addr : bytes) (s : Shard SDB) : Shard SDB * bool :=
  let s := AddInitialAddr addr s in
  (s, bool_decide (len (GetNodeAddrs s) = comAllNodeNum)).

Fixpoint node_infos (comAllNodeNum : Z) (s : Shard SDB) (l : list bytes) : Shard SDB * list bool :=
  match l with
  | [] => (s, [])
  | a :: l => let '(s, b) := HandleNodeSendInfo comAllNodeNum a s in
              let '(s, bs) := node_infos comAllNodeNum s l in (s, b :: bs)
  end.

(** The leader starts with its own address; it starts the shard at the report
    of the last of the other nodes, and at no other. *)
Lemma shard_started_once n s l :
  len (initialAddrList s) + len l = n → l ≠ [] →
  (node_infos n s l).2 = replicate (length l - 1) false ++ [true] ∧
  initialAddrList (node_infos n s l).1 = initialAddrList s ++ l.
Proof.
  revert s. induction l as [|a l IH]; intros s Hlen Hne; [done|]. rewrite len_cons in Hlen.
  cbn [node_infos HandleNodeSendInfo]. unfold GetNodeAddrs. cbn [AddInitialAddr initialAddrList].
  destruct l as [|b l].
  - simpl. rewrite bool_decide_true; [done|]. rewrite len_app, len_cons. unfold len in *. simpl in *. lia.
  - specialize (IH (AddInitialAddr a s)). destruct (node_infos n (AddInitialAddr a s) (b :: l)) as [s' bs] eqn:E.
    destruct IH as [Hbs Hl]; [|done|].
    + cbn [AddInitialAddr initialAddrList]. rewrite len_app, !len_cons in *. unfold len in *. simpl in *. lia.
    + rewrite bool_decide_false.
      * simpl in Hbs, Hl |- *. rewrite Hbs, Hl. rewrite Nat.sub_0_r, <-app_assoc. done.
      * rewrite len_app, !len_cons in *. unfold len in *. simpl in *. lia.
Qed.
End node_start.
