(* ===== verification/WorkLoop.v ===== *)
(** * The leader's worker as a process (src/committee/worker.go: newWorker,
    start, stop, close, newWorkLoop; committee.go: Close, NewBlockGenerated;
    multisign.go: initMultiSign; src/node/node.go: RunPbft)

    [Worker] has what a block contains; here is when blocks are made.  The
    goroutine of [newWorkLoop], the goroutine that calls [close] and the rest
    of the program share two channels of capacity one, a timer and two flags.
    Every access to one of these is a step of a transition system. *)
From S2P Require Import Prelude.

(** Where the worker's goroutine is: at the [select] of its loop; in
    [commit], waiting for the shard's answer, for the committee in [RunPbft]
    or about to put the exit token back, sending the block on; in
    [initMultiSign], or about to put the token back; in [NewBlockGenerated],
    before and after its send on [exitCh]; about to reset the timer; gone. *)
Inductive wpc :=
  | WSelect | WState | WPbft | WPbftBack | WSend (agreed : bool) | WSign | WSignBack
  | WNotify | WReconf | WReset | WDone.
#[global] Instance wpc_eq_dec : EqDecision wpc.
Proof. solve_decision. Defined.
(** The goroutine that closes the worker: not yet; [stop] is done; the token
    is sent and it waits for the loop to end; back. *)
Inductive cpc := CIdle | CStop | CWait | CDone.
#[global] Instance cpc_eq_dec : EqDecision cpc.
Proof. solve_decision. Defined.

Record loop_state := mkW {
  pc : wpc;
  closer : cpc;
  running : bool;
  startCh : bool;
  exitCh : bool;
  (** the timer runs; its channel has a tick *)
  armed : bool;
  tick : bool;
  to_reconfig : bool;
  (** the committee agreed on the block; enough members signed the beacon *)
  agreed : bool;
  signed : bool;
  start_called : bool;
  (** blocks begun, and blocks sent to the shard, with whether the committee
      had agreed *)
  begun : nat;
  sent : list bool
}.

(** [newWorker]; the initial tick of the timer is discarded. *)
Definition newWorker (recommit : Z) : go loop_state :=
  if bool_decide (recommit < 3)%Z then Halt (LogError "recommit interval too short")
  else Ret (mkW WSelect CIdle false false false false false false false false false 0 []).

Definition set_pc (p : wpc) (s : loop_state) : loop_state :=
  mkW p (closer s) (running s) (startCh s) (exitCh s) (armed s) (tick s) (to_reconfig s) (agreed s) (signed s) (start_called s) (begun s) (sent s).
Definition set_closer (c : cpc) (s : loop_state) : loop_state :=
  mkW (pc s) c (running s) (startCh s) (exitCh s) (armed s) (tick s) (to_reconfig s) (agreed s) (signed s) (start_called s) (begun s) (sent s).
Definition set_running (b : bool) (s : loop_state) : loop_state :=
  mkW (pc s) (closer s) b (startCh s) (exitCh s) (armed s) (tick s) (to_reconfig s) (agreed s) (signed s) (start_called s) (begun s) (sent s).
Definition set_start (ch called : bool) (s : loop_state) : loop_state :=
  mkW (pc s) (closer s) (running s) ch (exitCh s) (armed s) (tick s) (to_reconfig s) (agreed s) (signed s) called (begun s) (sent s).
Definition set_exit (b : bool) (s : loop_state) : loop_state :=
  mkW (pc s) (closer s) (running s) (startCh s) b (armed s) (tick s) (to_reconfig s) (agreed s) (signed s) (start_called s) (begun s) (sent s).
Definition set_timer (a t : bool) (s : loop_state) : loop_state :=
  mkW (pc s) (closer s) (running s) (startCh s) (exitCh s) a t (to_reconfig s) (agreed s) (signed s) (start_called s) (begun s) (sent s).
Definition set_reconfig (b : bool) (s : loop_state) : loop_state :=
  mkW (pc s) (closer s) (running s) (startCh s) (exitCh s) (armed s) (tick s) b (agreed s) (signed s) (start_called s) (begun s) (sent s).
Definition set_done (a g : bool) (s : loop_state) : loop_state :=
  mkW (pc s) (closer s) (running s) (startCh s) (exitCh s) (armed s) (tick s) (to_reconfig s) a g (start_called s) (begun s) (sent s).
Definition set_blocks (n : nat) (l : list bool) (s : loop_state) : loop_state :=
  mkW (pc s) (closer s) (running s) (startCh s) (exitCh s) (armed s) (tick s) (to_reconfig s) (agreed s) (signed s) (start_called s) n l.

(** ** Steps *)

(** The worker's goroutine.  A send on a channel needs room, a receive a
    value; a [select] takes any branch that is ready.  The shard's answer to
    getStatusFromShard and the block hash of GetEthChainBlockHash are taken
    to arrive: neither wait has an exit branch. *)
Inductive loop_step : loop_state → loop_state → Prop :=
  (* newWorkLoop *)
  | w_exit s : pc s = WSelect → exitCh s = true → loop_step s (set_pc WDone (set_exit false s))
  | w_start s : pc s = WSelect → startCh s = true →
      loop_step s (set_timer true (tick s) (set_start false (start_called s) s))
  | w_tick s : pc s = WSelect → tick s = true → running s = true →
      loop_step s (set_pc WState (set_blocks (S (begun s)) (sent s) (set_timer (armed s) false s)))
  | w_tick_idle s : pc s = WSelect → tick s = true → running s = false → loop_step s (set_timer (armed s) false s)
  (* commit: the shard answers, the block is proposed *)
  | w_state s : pc s = WState → loop_step s (set_pc WPbft (set_done false (signed s) s))
  (* RunPbft *)
  | w_agreed s : pc s = WPbft → agreed s = true → loop_step s (set_pc (WSend true) s)
  | w_pbft_exit s : pc s = WPbft → exitCh s = true → loop_step s (set_pc WPbftBack (set_exit false s))
  | w_pbft_back s : pc s = WPbftBack → exitCh s = false → loop_step s (set_pc (WSend false) (set_exit true s))
  (* AddBlock2Shard, sendTXReceipt2Client, then broadcastTbInCommittee *)
  | w_send s b : pc s = WSend b → loop_step s (set_pc WSign (set_blocks (begun s) (sent s ++ [b]) (set_done (agreed s) false s)))
  (* initMultiSign *)
  | w_signed s : pc s = WSign → signed s = true → loop_step s (set_pc WNotify s)
  | w_sign_exit s : pc s = WSign → exitCh s = true → loop_step s (set_pc WSignBack (set_exit false s))
  | w_sign_back s : pc s = WSignBack → exitCh s = false → loop_step s (set_pc WNotify (set_exit true s))
  (* NewBlockGenerated *)
  | w_notify s : pc s = WNotify → to_reconfig s = false → loop_step s (set_pc WReset s)
  | w_notify_exit s : pc s = WNotify → to_reconfig s = true → exitCh s = false → loop_step s (set_pc WReconf (set_exit true s))
  | w_reconf s : pc s = WReconf → loop_step s (set_pc WReset (set_reconfig false s))
  (* timer.Reset *)
  | w_reset s : pc s = WReset → loop_step s (set_pc WSelect (set_timer true (tick s) s)).

(** The other goroutines and the clock.  The worker is started once, and not
    after it was closed. *)
Inductive around : loop_state → loop_state → Prop :=
  | a_start s : start_called s = false → closer s = CIdle → around s (set_running true (set_start true true s))
  | a_fire s : armed s = true → around s (set_timer false true s)
  | a_agree s : pc s = WPbft → agreed s = false → around s (set_done true (signed s) s)
  | a_sign s : pc s = WSign → signed s = false → around s (set_done (agreed s) true s)
  (* close *)
  | a_stop s : closer s = CIdle → around s (set_closer CStop (set_running false s))
  | a_close s : closer s = CStop → exitCh s = false → around s (set_closer CWait (set_exit true s))
  | a_closed s : closer s = CWait → pc s = WDone → around s (set_closer CDone s).
(** [AddTBs] asks for a reconfiguration. *)
Inductive ask : loop_state → loop_state → Prop :=
  | a_ask s : ask s (set_reconfig true s).

Definition quiet (s s' : loop_state) : Prop := loop_step s s' ∨ around s s'.
Definition wstep (s s' : loop_state) : Prop := quiet s s' ∨ ask s s'.
Definition reachable (s : loop_state) : Prop := ∃ recommit s0, newWorker recommit = Ret s0 ∧ rtc wstep s0 s.

(** ** One block at a time *)
Definition busy (p : wpc) : bool := match p with WSelect | WDone => false | _ => true end.
(** A block that is begun and not sent. *)
Definition making (p : wpc) : bool := match p with WState | WPbft | WPbftBack | WSend _ => true | _ => false end.
Definition n (b : bool) : nat := if b then 1 else 0.

(** What makes the next block start: a start, a running timer, a tick, or a
    block in progress; there is at most one. *)
Definition pending (s : loop_state) : nat := n (startCh s) + n (armed s) + n (tick s) + n (busy (pc s)).
Record winv (s : loop_state) : Prop := mkWinv {
  wi_pending : pending s ≤ 1;
  wi_start : start_called s = false → pending s = 0 ∧ running s = false;
  wi_stopped : closer s ≠ CIdle → running s = false;
  wi_blocks : begun s = length (sent s) + n (making (pc s))
}.

Ltac wstep_cases :=
  repeat match goal with
  | H : wstep _ _ |- _ => destruct H
  | H : quiet _ _ |- _ => destruct H
  | H : loop_step _ _ |- _ => inversion H; subst; clear H
  | H : around _ _ |- _ => inversion H; subst; clear H
  | H : ask _ _ |- _ => inversion H; subst; clear H
  end.
(** Flags are booleans: the equations of a step decide them. *)
Ltac flags :=
  repeat match goal with
  | s : loop_state |- _ => destruct s
  end; simpl in *; subst; simpl in *.

Lemma winv_step s s' : winv s → wstep s s' → winv s'.
Proof.
  intros [H1 H2 H3 H4] Hstep. wstep_cases; flags; split; unfold pending in *; simpl in *; rewrite ?length_app; simpl; intros;
    repeat match goal with
    | H : ?a = ?a → _ |- _ => specialize (H eq_refl)
    | b : bool |- _ => match goal with |- context [n b] => destruct b | H : context [n b] |- _ => destruct b end
    end; simpl in *; try done; try lia; try tauto; try (destruct_and?; try done; lia);
    try (match goal with H : _ ≠ CIdle → _ |- _ => by apply H end).
Qed.
Lemma winv_new recommit s : newWorker recommit = Ret s → winv s.
Proof. unfold newWorker. case_bool_decide; [done|]. intros [= <-]. split; unfold pending; simpl; try done; lia. Qed.
Lemma winv_reachable s : reachable s → winv s.
Proof.
  intros (r & s0 & H0 & Hr). apply winv_new in H0. induction Hr as [|s0 s1 s2 Hs _ IH]; [done|]. by eapply IH, winv_step.
Qed.

(** ** Closing *)

(** What holds when no reconfiguration was asked for: until [close] sent its
    token there is none, and then it is in the channel or in the hands of a
    wait that gives it back, until the loop takes it and ends. *)
Definition holding (p : wpc) : bool := match p with WPbftBack | WSignBack => true | _ => false end.
Record cinv (s : loop_state) : Prop := mkCinv {
  ci_calm : to_reconfig s = false ∧ pc s ≠ WReconf;
  ci_stopped : closer s ≠ CIdle → running s = false;
  ci_token : match closer s with
    | CIdle | CStop => exitCh s = false ∧ holding (pc s) = false ∧ pc s ≠ WDone
    | CWait => pc s = WDone ∨ exitCh s = negb (holding (pc s))
    | CDone => pc s = WDone
    end
}.

Lemma cinv_step s s' : cinv s → quiet s s' → cinv s'.
Proof.
  intros [H1 H2 H3] Hstep. wstep_cases; flags; split; simpl in *; intros; destruct_and?; simplify_eq; try done; try tauto;
    try (by apply H2); try (right; by rewrite H3); try (match type of H3 with match ?c with _ => _ end => destruct c end; naive_solver).
Qed.
Lemma cinv_run s s' : cinv s → rtc quiet s s' → cinv s'.
Proof. intros Hc Hr. induction Hr as [|s0 s1 s2 Hs _ IH]; [done|]. by eapply IH, cinv_step. Qed.
Lemma cinv_new recommit s : newWorker recommit = Ret s → cinv s.
Proof. unfold newWorker. case_bool_decide; [done|]. intros [= <-]. by split. Qed.

(** What is left to do. *)
Definition rank (p : wpc) : nat :=
  match p with
  | WDone => 0 | WSelect => 10 | WReset => 20 | WReconf => 20 | WNotify => 30 | WSignBack => 40 | WSign => 50 | WSend _ => 60
  | WPbftBack => 70 | WPbft => 80 | WState => 90
  end.
Definition left (s : loop_state) : nat :=
  rank (pc s) + 4 * n (startCh s) + 2 * n (armed s) + n (tick s) + n (negb (agreed s)) + n (negb (signed s)) +
  match closer s with CWait => 1 | _ => 0 end.

Lemma left_decreases s s' : closer s = CWait ∨ closer s = CDone → cinv s → quiet s s' →
  (closer s' = CWait ∨ closer s' = CDone) ∧ left s' < left s.
Proof.
  intros Hcl [H1 H2 H3] Hstep. unfold left. wstep_cases; flags; destruct_and?; (split; [naive_solver|]);
    try (destruct Hcl; simplify_eq; simpl in *);
    repeat match goal with b : bool |- _ => match goal with |- context [n b] => destruct b | |- context [negb b] => destruct b end end;
    simpl in *; try lia; try (specialize (H2 ltac:(done)); done).
Qed.

Lemma closing_moves s : closer s = CWait → cinv s → ∃ s', quiet s s'.
Proof.
  intros Hcl [[H1 H1'] H2 H3]. rewrite Hcl in H3.
  destruct (decide (pc s = WDone)) as [Hd|Hd]; [eexists; right; by apply a_closed|]. destruct H3 as [|H3]; [done|].
  destruct (pc s) eqn:E; simpl in H3; try done.
  - eexists. left. by apply w_exit.
  - eexists. left. by apply w_state.
  - eexists. left. by apply w_pbft_exit.
  - eexists. left. by apply w_pbft_back.
  - eexists. left. by apply (w_send _ agreed0).
  - eexists. left. by apply w_sign_exit.
  - eexists. left. by apply w_sign_back.
  - eexists. left. by apply w_notify.
  - eexists. left. by apply w_reset.
Qed.

(** ** The theorems *)

(** C29. Blocks are made one at a time: at every point of every run at most one
    thing can start the next block (the start, the running timer, its tick)
    and none can while a block is in progress; and every block that was begun
    was sent to the shard, but for the one in progress. *)
Theorem one_block_at_a_time s :
  reachable s → pending s ≤ 1 ∧ begun s = length (sent s) + n (making (pc s)).
Proof. intros Hs%winv_reachable. split; apply Hs. Qed.

(** C27. After [close] has begun no new block is begun, whatever else happens
    but a further [start] (the committee makes a new worker instead): at most
    the block in progress is still sent. *)
Theorem no_block_after_close s s' :
  reachable s → closer s ≠ CIdle → rtc wstep s s' →
  begun s' = begun s ∧ closer s' ≠ CIdle ∧ length (sent s') ≤ S (length (sent s)).
Proof.
  intros Hs%winv_reachable Hc Hr. pose proof (wi_blocks _ Hs) as Hb.
  assert (begun s' = begun s ∧ closer s' ≠ CIdle ∧ winv s') as (H1 & H2 & H3).
  { clear Hb. induction Hr as [|s s1 s2 Hstep _ IH]; [done|].
    assert (begun s1 = begun s ∧ closer s1 ≠ CIdle) as [<- Hc1].
    { pose proof (wi_stopped _ Hs Hc). wstep_cases; flags; try done; simplify_eq. }
    apply IH; [by eapply winv_step|done]. }
  split; [done|]. split; [done|]. pose proof (wi_blocks _ H3). destruct (making (pc s)), (making (pc s')); simpl in *; lia.
Qed.

(** C28. [close] comes back: once it has sent its token, in a run without
    reconfiguration, at most 101 steps remain, whatever their order, and when
    none is possible any more the loop has ended and [close] has returned. *)
Theorem close_returns recommit s0 s :
  newWorker recommit = Ret s0 → rtc quiet s0 s → closer s = CWait →
  (∀ k s', nsteps quiet k s s' → k ≤ 101) ∧
  (∀ s', rtc quiet s s' → (¬ ∃ s'', quiet s' s'') → closer s' = CDone ∧ pc s' = WDone).
Proof.
  intros H0%cinv_new Hr Hc. pose proof (cinv_run _ _ H0 Hr) as Hi. clear H0 Hr s0.
  assert (closer s = CWait ∨ closer s = CDone) as Hcl by auto. split.
  - intros k s' Hn. assert (left s ≤ 101) by (unfold left; destruct s as [[] [] ? [] ? [] [] ? [] [] ? ? ?]; simpl; lia).
    enough (k + left s' ≤ left s) by lia. clear H Hc. induction Hn as [|k s s1 s2 Hs _ IH]; [done|].
    destruct (left_decreases s s1) as [Hc1 Hl]; [done..|]. specialize (IH (cinv_step _ _ Hi Hs) Hc1). lia.
  - intros s' Hr Hno. assert ((closer s' = CWait ∨ closer s' = CDone) ∧ cinv s') as [[H|H] Hi'].
    { clear Hno Hc. induction Hr as [|s s1 s2 Hs _ IH]; [done|].
      apply IH; [by eapply cinv_step|by apply (left_decreases s s1)]. }
    + destruct Hno. by apply closing_moves.
    + split; [done|]. pose proof (ci_token _ Hi') as Ht. by rewrite H in Ht.
Qed.

(** ** Runs *)
Definition w0 : loop_state := mkW WSelect CIdle false false false false false false false false false 0 [].
Lemma w0_new : newWorker 3 = Ret w0.
Proof. done. Qed.

Ltac work_by c := eapply rtc_l; [left; left; by apply c|].
Ltac around_by c := eapply rtc_l; [left; right; by apply c|].
(** A block is begun and proposed. *)
Definition proposed : loop_state := mkW WPbft CIdle true false false false false false false false true 1 [].
Lemma proposed_runs : rtc wstep w0 proposed.
Proof. around_by a_start. work_by w_start. around_by a_fire. work_by w_tick. work_by w_state. done. Qed.

(** [close] during the consensus: the worker goes on as if the committee had
    agreed, and the block is sent to the shard. *)
Lemma block_without_consensus : ∃ s, reachable s ∧ sent s = [false].
Proof.
  eexists. split; [exists 3%Z, w0; split; [done|]; etrans; [apply proposed_runs|]|].
  - around_by a_stop. around_by a_close. work_by w_pbft_exit. work_by w_pbft_back. work_by w_send. done.
  - done.
Qed.

(** [close] just before a reconfiguration: [NewBlockGenerated] sends on the
    full channel that only the worker itself reads. *)
Definition jammed (s : loop_state) : Prop := pc s = WNotify ∧ closer s = CWait ∧ exitCh s = true ∧ to_reconfig s = true.
Lemma jammed_for_ever s s' : jammed s → rtc wstep s s' → jammed s'.
Proof.
  intros Hj Hr. induction Hr as [|s s1 s2 Hs _ IH]; [done|]. apply IH. clear IH. destruct Hj as (H1 & H2 & H3 & H4). unfold jammed.
  wstep_cases; flags; congruence || done.
Qed.
Lemma close_jams : ∃ s, reachable s ∧ jammed s.
Proof.
  eexists. split; [exists 3%Z, w0; split; [done|]; etrans; [apply proposed_runs|]|].
  - around_by a_agree. work_by w_agreed. work_by w_send. around_by a_sign. work_by w_signed.
    eapply rtc_l; [right; apply a_ask|]. around_by a_stop. around_by a_close. done.
  - done.
Qed.

Lemma one_block_at_a_time_witness : pending proposed ≤ 1 ∧ begun proposed = length (sent proposed) + n (making (pc proposed)).
Proof. apply (one_block_at_a_time proposed). exists 3%Z, w0. split; [reflexivity|apply proposed_runs]. Defined.

(** Closing while a block is proposed. *)
Definition closing : loop_state := mkW WPbft CWait false false true false false false false false true 1 [].
Definition closed : loop_state := mkW WDone CDone false false false true false false false false true 1 [false].
Lemma closing_quiet : rtc quiet w0 closing.
Proof.
  eapply rtc_l; [right; by apply a_start|]. eapply rtc_l; [left; by apply w_start|]. eapply rtc_l; [right; by apply a_fire|].
  eapply rtc_l; [left; by apply w_tick|]. eapply rtc_l; [left; by apply w_state|]. eapply rtc_l; [right; by apply a_stop|].
  eapply rtc_l; [right; by apply a_close|]. done.
Qed.
Lemma closing_reachable : reachable closing.
Proof.
  exists 3%Z, w0. split; [done|]. eapply rtc_subrel; [|apply closing_quiet]. intros x y. by left.
Qed.
Lemma closing_closed : rtc wstep closing closed.
Proof.
  work_by w_pbft_exit. work_by w_pbft_back. work_by w_send. work_by w_sign_exit. work_by w_sign_back. work_by w_notify. work_by w_reset.
  work_by w_exit. around_by a_closed. done.
Qed.
Lemma no_block_after_close_witness : begun closed = begun closing ∧ closer closed ≠ CIdle ∧ length (sent closed) ≤ S (length (sent closing)).
Proof. apply (no_block_after_close closing closed); [apply closing_reachable|discriminate|apply closing_closed]. Defined.
Lemma close_returns_witness :
  (∀ k s', nsteps quiet k closing s' → k ≤ 101) ∧
  (∀ s', rtc quiet closing s' → (¬ ∃ s'', quiet s' s'') → closer s' = CDone ∧ pc s' = WDone).
Proof. apply (close_returns 3%Z w0 closing); [reflexivity|apply closing_quiet|reflexivity]. Defined.
