(* ===== verification/Controller.v ===== *)
(** * Program control (src/controller/utils.go) and the transfer of data after
    a reconfiguration (src/node/reconfig.go: lessSync, tMPTsync, fullsync,
    fastsync)

    The controller polls its client or committee until it may stop.  The new
    leader of a committee fetches what its mode of synchronisation asks for,
    and reports the sizes. *)
From S2P Require Import Prelude Core Exec Node Block BlockChain TxPool Client Committee ShardNode MessageHub.
Local Open Scope Z_scope.

(** ** Polling *)

(** [math.Ceil] of a quotient. *)
Definition ceil_div (a b : Z) : Z := - (- a `div` b).
Definition sleepSecs (recommitIntervalSecs : Z) : Z := ceil_div recommitIntervalSecs 2.

(** The loop of [toStopCommittee] and [toStopClient] over the answers to
    [canStop]: how often progress was printed, and whether it ended. *)
Fixpoint monitor (isLogProgress : bool) (iterNum iter : Z) (polls : list bool) : Z * bool :=
  match polls with
  | [] => (0, false)
  | true :: _ => (0, true)
  | false :: polls =>
      if isLogProgress then
        let iter := iter + 1 in
        if bool_decide (iter = iterNum) then let r := monitor isLogProgress iterNum 0 polls in (1 + r.1, r.2)
        else monitor isLogProgress iterNum iter polls
      else monitor isLogProgress iterNum iter polls
  end.
(** One poll of either; any other mode never stops. *)
Definition committee_can_stop (exitMode : Z) (c : Committee) : go bool :=
  if bool_decide (exitMode = 0) then Committee.CanStopV1 c
  else if bool_decide (exitMode = 1) then Ret (Committee.CanStopV2 c)
  else Ret false.
Definition client_can_stop (exitMode : Z) (c : Client) : bool :=
  if bool_decide (exitMode = 0) then Client.CanStopV1 c
  else if bool_decide (exitMode = 1) then Client.CanStopV2 c && InjectDoneMsgSent c
  else false.
Definition toStop (recommitIntervalSecs logProgressInterval : Z) (isLogProgress : bool) (polls : list bool) : Z * bool :=
  monitor isLogProgress (ceil_div logProgressInterval (sleepSecs recommitIntervalSecs)) 0 polls.

Fixpoint waited (polls : list bool) : Z :=
  match polls with false :: polls => 1 + waited polls | _ => 0 end.

(** The loop ends with the first answer that allows it, and until then prints
    once per [iterNum] rounds. *)
Lemma monitor_ok isLog iterNum polls : ∀ iter, 0 ≤ iter < iterNum →
  monitor isLog iterNum iter polls = ((if isLog then (iter + waited polls) `div` iterNum else 0), existsb id polls).
Proof.
  induction polls as [|[] polls IH]; intros iter Hi; simpl.
  - rewrite Z.add_0_r, Z.div_small by done. by destruct isLog.
  - rewrite Z.add_0_r, Z.div_small by done. by destruct isLog.
  - destruct isLog; [|by rewrite IH].
    destruct (bool_decide_reflect (iter + 1 = iterNum)) as [He|].
    + rewrite IH by lia. simpl. f_equal. replace (iter + (1 + waited polls)) with (0 + waited polls + 1 * iterNum) by lia.
      rewrite Z.div_add by lia. lia.
    + rewrite IH by lia. do 2 f_equal. lia.
Qed.

(** ** Synchronisation *)
Section sync.
Context {SDB : Type} `{SD : StateDB SDB} `{TS : TrieState SDB} `{RL : RLP} `{MI : MapIter}.
(** The sizes of the encodings, and what the hub brings back from another
    node. *)
Variable size_states : gmap bytes StateAccount → Z.
Variable size_blocks : list Block → Z.
Variable Send : SyncRequest → go SyncReply.
Variable NodeTable : gmap Z (gmap Z string).
Variable emptyRoot emptyCodeHash : bytes.

(** The message for [MsgTypeReportAny]. *)
Record sync_report := mkSyncReport {
  syComID : Z; syType : string; syStates : Z; syBlocks : Z; syPoolTx : Z; syTime : Z }.

Definition lessSync (info : NodeInfo) (sizeofPoolTx elapsed : Z) : sync_report :=
  mkSyncReport (nComID info) "lesssync" 0 0 sizeofPoolTx elapsed.
(** [tMPTsync], [fullsync] and [fastsync] differ in the type they ask for;
    the leader of the shard answers itself. *)
Definition fetch (type : string) (info : NodeInfo) (shard : Shard SDB) (sizeofPoolTx elapsed : Z) : go sync_report :=
  let shardLeader := default "" (default ∅ (NodeTable !! nComID info) !! 0) in
  let request := mkSyncRequest shardLeader (nNodeAddr info) (nComID info) type in
  data ← (if bool_decide (nNodeAddr info = shardLeader) then ShardNode.HandleGetSyncData emptyRoot emptyCodeHash type shard
          else r ← Send request; Ret (syData r));
  Ret (mkSyncReport (nComID info) type (size_states (ShardNode.syStates data)) (size_blocks (ShardNode.syBlocks data)) sizeofPoolTx elapsed).
Definition tMPTsync := fetch "tMPTsync".
Definition fullsync := fetch "fullsync".
Definition fastsync := fetch "fastsync".

(** The [switch] of [EndReconfig]. *)
Definition synchronise (reconfigMode : string) (info : NodeInfo) (shard : Shard SDB) (sizeofPoolTx elapsed : Z) : go sync_report :=
  if bool_decide (reconfigMode = "lesssync")%string then Ret (lessSync info sizeofPoolTx elapsed)
  else if bool_decide (reconfigMode = "fullsync")%string then fullsync info shard sizeofPoolTx elapsed
  else if bool_decide (reconfigMode = "fastsync")%string then fastsync info shard sizeofPoolTx elapsed
  else if bool_decide (reconfigMode = "tMPTsync")%string then tMPTsync info shard sizeofPoolTx elapsed
  else Halt (LogError "unknown reconfig mode").
End sync.
